(* ===== verification/_CoqProject ===== *)
-Q . S2P
Prelude.v
Atomic.v
Log.v
ThreadPool.v
CommTypes.v
TxRes.v
LockTypes.v
OwnerLock.v
SpinLock.v
LockRuntime.v
RingQueue.v
MutexLock.v
MutexExcl.v
MutexSeq.v
LocalLock.v
LocalExcl.v
LocalSeq.v
RwLock.v
RwRecover.v
RwSeq.v
RwRebuild.v
RwRelease.v
RwRaces.v
TimeoutReport.v
MPSCRing.v
MPSCConc.v
MPSCSeq.v
Transport.v
TransportInit.v
TransportRun.v
TransportErrors.v
TransportPoll.v
TransportHb.v
TransportFlow.v
TransportExit.v
TransportMark.v
CommApi.v
Cluster.v
ShmCreator.v
PingPong.v
