(* ===== verification/Prelude.v ===== *)
(** Verification of ubs-atomic: locks, transaction resources and a message queue for
    processes on several nodes that share memory.

    * The program

    The library (src/src, C++) works on memory that is mapped at the same address in every
    process; one process runs per node, and at most [UB_MAX_NODES] = 16 nodes take part.

    - ub_dist_tx_res: 64-bit words with atomic operations, used as tickets and counters.
    - ub_lock: a spin lock (one owner word), a mutex (a lock of the process, then an owner word
      in shared memory) and a read-write lock (a local read-write lock of the process, then a word in
      shared memory).  Threads that do not get a lock spin, then queue: a ring of slots in
      shared memory for the processes, one in each process for its threads.  A release wakes the head
      of the queue through the waiter registry of its own process or by a UB_GRANT
      message to another.  The read-write lock can delay a release: the process keeps the lock,
      and gives it up when another process asks with a UB_RELEASE message.
    - ub_comm_queue: messages between the nodes, those of the locks and the application's.  Its core is a
      ring in shared memory into which many producers, of the same process or remote, write for one
      consumer.  A transport (UBShmTransport) creates the rings of its node, one per priority,
      publishes where they are on a billboard in shared memory, finds the rings of the other nodes there and
      caches them, sends into them, and dispatches what arrives in its own to callbacks, directly or
      through a pool of worker threads.  Heartbeat threads tell which nodes are alive; messages between
      the transports change congestion thresholds and announce that a node leaves.  A C interface manages
      the transports of a process and chooses the one the locks use.
    - Two of the sample programs are modelled: the tool that creates the shared memory (share_mem/ubsm_shm_creator.cpp) and a
      client of the queue that exchanges messages between two nodes (ub_comm_queue/pingpong.cpp).

    * The method

    An operation is a [prog] (Atomic.v): a sequence of atomic accesses to a shared state, mixed
    with questions to the environment (the clock, whether a weak compare-exchange fails spuriously, how
    a call outside the library ends).  One transcription has two readings: [run] executes it
    alone against a list of answers, [cstep] interleaves a pool of programs at every access.
    Atomic.v also has the logic for the second: a rely-guarantee judgement and its
    rules.  The README of the repository assumes that atomic operations on the shared memory are
    linearizable; memory orders are therefore not represented.  Integers are [Z], wrapped
    ([u8], [u32], [u64], [i32]) where the source's type would wrap.

    * The files

    - Prelude.v: integers of fixed width, arrays indexed by [Z], counting bits, tactics.
    - Atomic.v: programs, runs, interleaving, the rely-guarantee rules.
    - CommTypes.v, LockTypes.v: the data of include/ub_dist_comm_queue.h, ub_comm_errno.h,
      include/ub_dist_lock.h and the constants of local_lock.h.
    - TxRes.v: ub_dist_tx_res.cpp.  Distinct and contiguous tickets, round trips, refusals.
    - OwnerLock.v: an interface ([Exclusive]) for locks made of owner words, and mutual exclusion
      for the clients of any lock that implements it.
    - SpinLock.v: ub_spin_lock.cpp, as an instance of that interface.
    - LockRuntime.v: the waiter registry of local_lock.h and the messages of message_manage.cpp; the
      state [network] has a registry, a transport flag and an inbox per process.
    - RingQueue.v: ring_queue.h, for any capacity and type of waiter; it refines a FIFO queue.
    - MutexLock.v: ub_mutex_lock.cpp.  MutexExcl.v: mutual exclusion, creation.  MutexSeq.v: the
      contract of single calls and two executions that lose it.
    - LocalLock.v: the class LocalLock of local_lock.h and lock_optimization.cpp.  LocalExcl.v: its
      modes exclude each other under every interleaving.  LocalSeq.v: its word
      refines an abstract lock, waking, termination of the reference count.
    - RwLock.v: ub_distribute_lock.cpp up to unlock_sx, the delayed release of
      lock_optimization.cpp, the wrappers of wait_queue.cpp and the UB_RELEASE
      case of message_manage.cpp.  RwRecover.v: query_holder, rebuild, recover and the C
      interface of ub_distribute_lock_api.cpp.  The state [rw_world] maps addresses to locks and has
      a heap of local locks, since rebuild moves a process from one lock to another.
    - RwSeq.v: the contract of the three modes.  RwRebuild.v: what rebuild leaves.  RwRelease.v: what
      recover leaves.  RwRaces.v: four executions in which the read-write lock fails.
    - TimeoutReport.v: the lines the three locks log when a request times out, with the holder they name.
    - MPSCRing.v: MPSCRingBuffer.cpp and .h, each byte of a copy one access.  MPSCConc.v: delivery under
      every interleaving.  MPSCSeq.v: the ring as a bounded queue, layout, flow control.
    - ThreadPool.v: ThreadPool.h, over any state that contains a pool, with its contract and an execution in
      which the destructor hangs.
    - Transport.v: UBShmTransport.cpp and .h.  The state [tworld] is what one instance reaches: the shared memory
      (billboards and rings by address), its own members in five records, the thread-local variables of its
      dispatcher.  The operations of MPSCRing.v and ThreadPool.v are lifted into it.
    - TransportInit.v: initialisation (node mapping, the layout of the rings, the billboard).  TransportRun.v: sending.
      TransportPoll.v: dispatch, polling, and the way of a message from node to node.  TransportHb.v: heartbeats.
      TransportFlow.v: threshold updates.  TransportExit.v: departure.  TransportErrors.v: sends that fail.
      TransportMark.v: which operations leave the mark of the locks' instance alone.
    - CommApi.v: ub_dist_comm_queue.cpp; the state [process] has a heap of transports, the handles and
      [g_transport].
    - Cluster.v: the transports of several nodes over one memory, and the bytes of a lock message; the joint of
      Transport.v with LockRuntime.v.
    - Log.v: ub_atomic_log_print.cpp and common/log.h.
    - ShmCreator.v: ubsm_shm_creator.cpp; the memory service is a record of the calls made to it.
    - PingPong.v: pingpong.cpp; its exchange is a step relation in which the threads and the two dispatchers interleave.

    * The theorems

    - Exclusion: [spin_mutual_exclusion], [mutex_mutual_exclusion] and [local_lock_compat] hold for any
      number of threads, any interleaving, any timeouts and message losses.
    - Delivery: [fifo_delivery] says that messages arrive once, whole and in the order of
      each producer, provided that no producer stalls longer than the half-write timeout
      ([late_producer_corrupts] shows that this is needed).
    - From node to node: [send_delivers] puts a message into exactly one ring, found on the billboard
      if need be ([published_ring_found]; [node_mapping_agrees] makes the nodes mean the same entry, and
      [rings_inside_region] places the rings); [poll_empties_inbox] takes the messages out and calls the callbacks;
      [sent_message_reaches_callback] composes the two.  [newest_threshold_wins], [departure_announced] and
      [told_node_forgets] do the same for the transports' own messages, [heartbeat_verdict] for the heartbeat,
      [pool_runs_accepted] for the worker pool.
    - The joint with the locks: [cluster_refines_network] says that a cluster of transports implements the network of inboxes the
      locks are proved against, [grant_reaches_waiter] that a grant sent on one node wakes the thread on another.
    - State: [lock_instance_unique] (the handles of a process, through every sequence of calls of one thread beside the
      threads of the library, closing included).
    - Refinement: [wait_queue_refines] and [ring_refines_queue] against FIFO queues,
      [local_word_refines] against a lock with a reader count per lane.
    - Recovery: [rw_consistent] relates the word of the read-write lock to its holders;
      [rebuild_restores] establishes it from the reports of the nodes, [recover_releases] keeps it.
    - Diagnostics: [rw_report_names_blocker] says that the holder a timeout report names does conflict with the request.
    - The sample programs: [pingpong_completes] (an exchange of fewer than about 2^32 messages makes progress, by a measure that
      decreases with every step that is not repeated in vain, until every message is answered; its rings are abstract bounded queues),
      [pingpong_rings_fit], [creator_calls], [config_roundtrip], [loaded_region_attributes].
    - Contracts and refusals: [spin_lock_contract], [mutex_contract], [rw_contract],
      [mutex_refuses], [failed_send_delivers_nothing], [api_refuses], [enqueue_refuses], [bad_handle_refused] and others.
    - Executions the code should not have: [mutex_local_timeout_wedges],
      [mutex_free_race_strands], [late_producer_corrupts], [oversized_body_overruns],
      [tid_zero_not_excluded], [untold_node_keeps_sending], [shutdown_wakeup_lost], [capacity_check_wraps],
      [nine_nodes_refused], [poll_order_as_configured], [delete_creates_region], [negative_size_accepted], [pingpong_many_messages] and the four of RwRaces.v.  Each is a theorem about the same
      definitions, so it is a fact about the code and not about an abstraction of it.

    * Fuel and bounds

    A loop of the source that retries until it succeeds takes a fuel, the number of rounds unfolded; a
    run that needs more ends in [OutOfFuel], never in a made-up result.  Safety theorems hold for every
    fuel.  Theorems that say an operation returns ask for fuel 1 when nothing interferes
    (one round is enough then) or count the rounds ([try_inc_terminates],
    [spin_lock_init_ready]).  [POLL_ROUNDS] is enough for every poll with at most eight active rings: at most
    nine looks for each of the [MAX_BATCH_PER_POLL] messages and for the last round.  Loops the source bounds itself (sends, retries, bit counts) have
    no fuel.  Delays and pauses of the processor have no effect on the state and are left out.

    * Not modelled

    - In Cluster.v the operations of the nodes run one after the other and only lock messages are in flight; interleavings inside one
      operation are the subject of MPSCConc.v.  The locks are proved against the network of inboxes, which allows more (a send may fail for any reason).
    - Two threads of a process that create or delete transports at the same time: in CommApi.v one thread calls the interface, beside the
      threads of the library.
    - What vsnprintf and operator<< make of their arguments, except the lines of the timeout reports; what the tools print.
    - src/common/util.h (barriers, pinning, processor queries), the non-temporal stores and the probing writes
      of UBShmTransport.cpp: no effect on the state.  The two test programs of sample_code/ub_lock and
      sample_code/ub_dist_tx_res, the mapping of memory by the memory service and the average pingpong.cpp prints (in double precision).
    - The statistics of UB_COMM_QUEUE_ENABLE_DEBUG_STATS, which is off by default.
    - Fairness and the passage of time: the clock is an answer of the environment; only
      [timely] (MPSCConc.v) restricts it. *)

From stdpp Require Export base gmap list numbers relations.
From Stdlib Require Export ZArith Lia.

Declare Scope ub_scope.
Delimit Scope ub_scope with ub.
#[global] Open Scope Z_scope.
#[global] Open Scope ub_scope.

(** * Machine integers

    A [w]-bit unsigned integer is a [Z] in [[0, 2^w)]; every C++ expression that
    can leave that range is wrapped where the source converts it. *)

Definition wrap (w z : Z) : Z := z mod 2 ^ w.
Definition u8 (z : Z) : Z := wrap 8 z.
Definition u16 (z : Z) : Z := wrap 16 z.
Definition u32 (z : Z) : Z := wrap 32 z.
Definition u64 (z : Z) : Z := wrap 64 z.
(** Two's complement reading of the low 32 bits. *)
Definition i32 (z : Z) : Z := (z + 2 ^ 31) mod 2 ^ 32 - 2 ^ 31.

Definition UINT64_MAX : Z := 2 ^ 64 - 1.
Definition INT32_MAX : Z := 2 ^ 31 - 1.

Lemma wrap_bound w z : 0 <= w -> 0 <= wrap w z < 2 ^ w.
Proof. intros Hw. apply Z.mod_pos_bound. lia. Qed.

Lemma wrap_small w z : 0 <= z < 2 ^ w -> wrap w z = z.
Proof. apply Z.mod_small. Qed.

Lemma u64_small z : 0 <= z < 2 ^ 64 -> u64 z = z.
Proof. apply wrap_small. Qed.

Lemma u32_small z : 0 <= z < 2 ^ 32 -> u32 z = z.
Proof. apply wrap_small. Qed.

Lemma u16_small z : 0 <= z < 2 ^ 16 -> u16 z = z.
Proof. apply wrap_small. Qed.

Lemma u8_small z : 0 <= z < 2 ^ 8 -> u8 z = z.
Proof. apply wrap_small. Qed.

Lemma u64_bound z : 0 <= u64 z < 2 ^ 64.
Proof. apply wrap_bound. lia. Qed.

Lemma u32_bound z : 0 <= u32 z < 2 ^ 32.
Proof. apply wrap_bound. lia. Qed.

Lemma i32_small z : - 2 ^ 31 <= z < 2 ^ 31 -> i32 z = z.
Proof. intros H. unfold i32. rewrite Z.mod_small; lia. Qed.

(** Adding one to a value that stays representable does not wrap. *)
Lemma u64_succ z : 0 <= z < 2 ^ 64 - 1 -> u64 (z + 1) = z + 1.
Proof. intros H. apply u64_small. lia. Qed.

(** A power of two minus one is the all-ones mask: masking is reduction. *)
Lemma land_mask x k : 0 <= k -> Z.land x (2 ^ k - 1) = x mod 2 ^ k.
Proof. intros Hk. rewrite <- Z.land_ones by lia. f_equal. rewrite Z.ones_equiv. lia. Qed.

(** In a window of [c] consecutive integers reduction modulo [c] is injective. *)
Lemma mod_window_inj c h t t' :
  0 < c -> h <= t < h + c -> h <= t' < h + c -> t mod c = t' mod c -> t = t'.
Proof.
  intros Hc Ht Ht' He. assert (Hd : t - t' = c * (t / c - t' / c)).
  { rewrite (Z.div_mod t c) at 1 by lia. rewrite (Z.div_mod t' c) at 1 by lia. lia. }
  assert (t / c - t' / c = 0) by nia. nia.
Qed.

(** Bit operations on disjoint fields. *)
Lemma lor_shift_add a b n : 0 <= n -> 0 <= b < 2 ^ n -> Z.lor (a * 2 ^ n) b = a * 2 ^ n + b.
Proof.
  intros Hn Hb. assert (H0 : Z.land (a * 2 ^ n) b = 0).
  { apply Z.bits_inj'. intros m Hm. rewrite Z.land_spec, Z.bits_0.
    destruct (Z.lt_ge_cases m n) as [Hlt|Hge]; [by rewrite Z.mul_pow2_bits_low|].
    destruct (Z.eq_dec b 0) as [->|Hb0]; [by rewrite Z.bits_0, andb_false_r|].
    rewrite (Z.bits_above_log2 b); [by rewrite andb_false_r|lia|].
    apply Z.lt_le_trans with n; [|done]. apply Z.log2_lt_pow2; lia. }
  assert (Ha := Z.add_lor_land (a * 2 ^ n) b). lia.
Qed.

Lemma land_bit x n : 0 <= n -> Z.land x (2 ^ n) = (x / 2 ^ n mod 2) * 2 ^ n.
Proof.
  intros Hn. rewrite <- Z.testbit_spec' by done.
  replace (2 ^ n) with (Z.shiftl 1 n) at 1 by (by rewrite Z.shiftl_mul_pow2, Z.mul_1_l).
  apply Z.bits_inj'. intros m Hm. rewrite Z.land_spec, Z.shiftl_spec by done.
  destruct (Z.eq_dec m n) as [->|Hne].
  - rewrite Z.sub_diag, Z.mul_pow2_bits, Z.sub_diag by done. change (Z.testbit 1 0) with true.
    rewrite andb_true_r. by destruct (Z.testbit x n).
  - rewrite Z.mul_pow2_bits by done.
    assert (Z.testbit 1 (m - n) = false) as ->.
    { destruct (Z.lt_ge_cases (m - n) 0); [by apply Z.testbit_neg_r|].
      apply Z.bits_above_log2; [lia|]. cbn. lia. }
    rewrite andb_false_r. destruct (Z.testbit x n); cbn [Z.b2z]; [|by rewrite Z.bits_0].
    destruct (Z.lt_ge_cases (m - n) 0); [by rewrite Z.testbit_neg_r|].
    symmetry. apply Z.bits_above_log2; [lia|]. cbn. lia.
Qed.

Lemma land_lnot_ones x n : 0 <= n -> Z.land x (Z.lnot (2 ^ n - 1)) = x / 2 ^ n * 2 ^ n.
Proof.
  intros Hn. replace (2 ^ n - 1) with (Z.ones n) by (rewrite Z.ones_equiv; lia).
  change (Z.land x (Z.lnot (Z.ones n))) with (Z.land x (Z.lnot (Z.ones n))).
  rewrite <- Z.ldiff_land, Z.ldiff_ones_r by done.
  by rewrite Z.shiftr_div_pow2, Z.shiftl_mul_pow2.
Qed.

(** [is_pow2 n] says what [n && !(n & (n - 1))] tests in the source. *)
Definition is_pow2 (n : Z) : Prop := exists k, 0 <= k /\ n = 2 ^ k.

Lemma land_pow2_mask x n : is_pow2 n -> Z.land x (n - 1) = x mod n.
Proof. intros (k & Hk & ->). by apply land_mask. Qed.

Lemma is_pow2_pos n : is_pow2 n -> 0 < n.
Proof. intros (k & Hk & ->). lia. Qed.

(** The bit trick of the source accepts exactly the powers of two. *)
Lemma land_pred_pow2 n : 0 < n -> Z.land n (n - 1) = 0 -> is_pow2 n.
Proof.
  intros Hn H0. exists (Z.log2 n). split; [apply Z.log2_nonneg|].
  destruct (Z.log2_spec n Hn) as [Hlo Hhi].
  destruct (Z.eq_dec n (2 ^ Z.log2 n)) as [|Hne]; [done|exfalso].
  assert (n <> 1) by (intros ->; by apply Hne).
  assert (Hb : Z.testbit (Z.land n (n - 1)) (Z.log2 n) = true).
  { rewrite Z.land_spec, Z.bit_log2 by done.
    replace (Z.log2 n) with (Z.log2 (n - 1)); [apply Z.bit_log2; lia|].
    apply Z.log2_unique; [apply Z.log2_nonneg|]. lia. }
  rewrite H0, Z.bits_0 in Hb. done.
Qed.

(** * Arrays indexed by a machine integer *)

Definition getZ {A} (d : A) (l : list A) (i : Z) : A := default d (l !! Z.to_nat i).
Definition setZ {A} (l : list A) (i : Z) (x : A) : list A := <[Z.to_nat i := x]> l.

Section Arrays.
Context {A : Type}.
Implicit Types (d x : A) (l : list A) (i j : Z).

Lemma getZ_setZ_eq d l i x :
  (Z.to_nat i < length l)%nat -> getZ d (setZ l i x) i = x.
Proof. intros H. unfold getZ, setZ. by rewrite list_lookup_insert_eq. Qed.

Lemma getZ_setZ_ne d l i j x :
  0 <= i -> 0 <= j -> i <> j -> getZ d (setZ l i x) j = getZ d l j.
Proof. intros ???. unfold getZ, setZ. rewrite list_lookup_insert_ne; [done|lia]. Qed.

Lemma length_setZ l i x : length (setZ l i x) = length l.
Proof. apply length_insert. Qed.

Lemma getZ_lookup d l i x : l !! Z.to_nat i = Some x -> getZ d l i = x.
Proof. unfold getZ. by intros ->. Qed.

Lemma getZ_replicate d (n : nat) i x :
  (Z.to_nat i < n)%nat -> getZ d (replicate n x) i = x.
Proof. intros H. apply getZ_lookup. by apply lookup_replicate_2. Qed.
End Arrays.

(** Filtering depends only on the predicate at the elements. *)
Lemma list_filter_ext {A} (P1 P2 : A -> Prop) `{!forall x, Decision (P1 x)}
    `{!forall x, Decision (P2 x)} (l : list A) :
  (forall x, x ∈ l -> P1 x <-> P2 x) -> filter P1 l = filter P2 l.
Proof.
  induction l as [|x l IH]; intros Hext; [done|]. rewrite !filter_cons.
  assert (Hx : P1 x <-> P2 x) by (apply Hext; left).
  rewrite IH by (intros y Hy; apply Hext; by right).
  destruct (decide (P1 x)), (decide (P2 x)); tauto || done.
Qed.

(** Sums depend only on the terms, and are monotone in them. *)
Lemma sum_list_with_ext {A} (f1 f2 : A -> nat) (l : list A) :
  (forall x, x ∈ l -> f1 x = f2 x) -> sum_list_with f1 l = sum_list_with f2 l.
Proof.
  induction l as [|x l IH]; intros H; cbn; [done|].
  rewrite (H x), IH; [done| |left]. intros y Hy. apply H. by right.
Qed.

Lemma sum_list_with_le {A} (f1 f2 : A -> nat) (l : list A) :
  (forall x, x ∈ l -> f1 x <= f2 x)%nat -> (sum_list_with f1 l <= sum_list_with f2 l)%nat.
Proof.
  induction l as [|x l IH]; intros H; cbn; [lia|].
  assert (f1 x <= f2 x)%nat by (apply H; left).
  assert (sum_list_with f1 l <= sum_list_with f2 l)%nat; [|lia].
  apply IH. intros y Hy. apply H. by right.
Qed.

(** Changing one term of a sum. *)
Lemma sum_list_with_update {A} (f1 f2 : A -> nat) (l : list A) (i : nat) (x : A) :
  l !! i = Some x -> (forall j y, j <> i -> l !! j = Some y -> f2 y = f1 y) ->
  (sum_list_with f2 l + f1 x = sum_list_with f1 l + f2 x)%nat.
Proof.
  revert i. induction l as [|y l IH]; intros [|i] Hi Hf; [done|done| |]; cbn.
  - injection Hi as ->. rewrite (sum_list_with_ext f2 f1 l); [lia|].
    intros z (j & Hj)%list_elem_of_lookup. by apply (Hf (S j)).
  - rewrite (Hf 0%nat y) by done. assert (H : (sum_list_with f2 l + f1 x = sum_list_with f1 l + f2 x)%nat); [|lia].
    apply (IH i Hi). intros j z Hj Hz. apply (Hf (S j)); [lia|done].
Qed.

(** Writing the byte after a prefix extends the prefix. *)
Lemma take_S_insert {A} (l : list A) (k : nat) (x : A) :
  (k < length l)%nat -> take (S k) (<[k := x]> l) = take k l ++ [x].
Proof.
  intros Hk. rewrite (take_S_r _ _ x) by (by apply list_lookup_insert_eq).
  by rewrite take_insert_ge by lia.
Qed.

(** Bit operations stay within a width. *)
Lemma land_range n v x : 0 <= n -> 0 <= v < 2 ^ n -> 0 <= Z.land v x < 2 ^ n.
Proof.
  intros Hn Hv. assert (Z.land v x = Z.land v x mod 2 ^ n) as ->; [|apply Z.mod_pos_bound; lia].
  rewrite <- (Z.land_ones (Z.land v x)) by done. rewrite <- Z.land_assoc, (Z.land_comm x), Z.land_assoc.
  by rewrite (Z.land_ones v), Z.mod_small.
Qed.

Lemma lor_range n v x : 0 <= n -> 0 <= v < 2 ^ n -> 0 <= x < 2 ^ n -> 0 <= Z.lor v x < 2 ^ n.
Proof.
  intros Hn Hv Hx. assert (Z.lor v x = Z.lor v x mod 2 ^ n) as ->; [|apply Z.mod_pos_bound; lia].
  rewrite <- Z.land_ones, Z.land_lor_distr_l, !Z.land_ones by done. by rewrite !Z.mod_small.
Qed.

(** ** Counting bits *)

Fixpoint nbits (n : nat) (v : Z) : Z :=
  match n with O => 0 | S n' => nbits n' v + Z.b2z (Z.testbit v (Z.of_nat n')) end.

Lemma nbits_range n v : 0 <= nbits n v <= Z.of_nat n.
Proof. induction n as [|n IH]; cbn [nbits]; [lia|]. destruct (Z.testbit v (Z.of_nat n)); cbn [Z.b2z]; lia. Qed.

Lemma nbits_ext n v v' :
  (forall k, 0 <= k < Z.of_nat n -> Z.testbit v k = Z.testbit v' k) -> nbits n v = nbits n v'.
Proof. induction n as [|n IH]; intros H; cbn [nbits]; [done|]. rewrite IH, H by (intros; try apply H; lia). done. Qed.

(** Changing one bit. *)
Lemma nbits_change n v v' k :
  0 <= k < Z.of_nat n -> (forall j, 0 <= j -> j <> k -> Z.testbit v' j = Z.testbit v j) ->
  nbits n v' = nbits n v - Z.b2z (Z.testbit v k) + Z.b2z (Z.testbit v' k).
Proof.
  intros Hk H. induction n as [|n IH]; [lia|]. cbn [nbits]. destruct (Z.eq_dec k (Z.of_nat n)) as [->|Hne].
  - rewrite (nbits_ext n v' v); [lia|]. intros j Hj. apply H; lia.
  - rewrite IH, (H (Z.of_nat n)) by lia. lia.
Qed.

Lemma testbit_pow2 k j : 0 <= k -> 0 <= j -> Z.testbit (2 ^ k) j = (j =? k).
Proof. intros Hk Hj. rewrite Z.pow2_bits_eqb by lia. apply Z.eqb_sym. Qed.

Lemma nbits_set n v k :
  0 <= k < Z.of_nat n -> nbits n (Z.lor v (2 ^ k)) = nbits n v + (if Z.testbit v k then 0 else 1).
Proof.
  intros Hk. rewrite (nbits_change n v (Z.lor v (2 ^ k)) k Hk).
  - rewrite Z.lor_spec, testbit_pow2, Z.eqb_refl, orb_true_r by lia. destruct (Z.testbit v k); cbn; lia.
  - intros j Hj Hne. rewrite Z.lor_spec, testbit_pow2, (proj2 (Z.eqb_neq j k)) by lia. apply orb_false_r.
Qed.

Lemma nbits_clear n v k :
  0 <= k < Z.of_nat n -> nbits n (Z.land v (Z.lnot (2 ^ k))) = nbits n v - (if Z.testbit v k then 1 else 0).
Proof.
  intros Hk. rewrite (nbits_change n v (Z.land v (Z.lnot (2 ^ k))) k Hk).
  - rewrite Z.land_spec, Z.lnot_spec, testbit_pow2, Z.eqb_refl, andb_false_r by lia. destruct (Z.testbit v k); cbn; lia.
  - intros j Hj Hne. rewrite Z.land_spec, Z.lnot_spec, testbit_pow2, (proj2 (Z.eqb_neq j k)) by lia. apply andb_true_r.
Qed.

(** [v & (v - 1)] clears the lowest set bit. *)
Lemma lowest_bit v : 0 < v -> exists k, 0 <= k /\ Z.testbit v k = true /\ Z.land v (v - 1) = Z.land v (Z.lnot (2 ^ k)).
Proof.
  intros Hv. assert (H0 : 0 <= v) by lia. revert Hv. pattern v. apply Z_lt_induction; [clear v H0|exact H0].
  intros v IH Hv. assert (Hd := Z.div_mod v 2). assert (Hm := Z.mod_pos_bound v 2).
  destruct (Z.eq_dec (v mod 2) 1) as [Ho|Ho].
  - exists 0. split; [lia|]. assert (He : v = 2 * (v / 2) + 1) by lia. set (q := v / 2) in *. split.
    + rewrite He. apply Z.testbit_odd_0.
    + rewrite He. replace (2 * q + 1 - 1) with (2 * q) by lia. apply Z.bits_inj'. intros j Hj.
      rewrite !Z.land_spec, Z.lnot_spec, testbit_pow2 by lia. destruct (Z.eq_dec j 0) as [->|Hne].
      * by rewrite Z.testbit_even_0, !andb_false_r.
      * rewrite (proj2 (Z.eqb_neq j 0)) by lia. replace j with (Z.succ (j - 1)) by lia.
        rewrite Z.testbit_odd_succ, Z.testbit_even_succ by lia. by destruct (Z.testbit q (j - 1)).
  - assert (He : v = 2 * (v / 2)) by lia. set (q := v / 2) in *.
    destruct (IH q) as (k & Hk & Hb & Hl); [lia|lia|]. exists (k + 1). split; [lia|].
    replace (k + 1) with (Z.succ k) by lia. split; [by rewrite He, Z.testbit_even_succ|].
    rewrite He. replace (2 * q - 1) with (2 * (q - 1) + 1) by lia. apply Z.bits_inj'. intros j Hj.
    rewrite !Z.land_spec, Z.lnot_spec, testbit_pow2 by lia. destruct (Z.eq_dec j 0) as [->|Hne].
    + by rewrite Z.testbit_even_0.
    + replace j with (Z.succ (j - 1)) by lia. rewrite Z.testbit_odd_succ, !Z.testbit_even_succ by lia.
      assert (Hj' := f_equal (fun z => Z.testbit z (j - 1)) Hl). cbn beta in Hj'.
      rewrite !Z.land_spec, Z.lnot_spec, testbit_pow2 in Hj' by lia. rewrite Hj'. f_equal. f_equal.
      destruct (Z.eqb_spec (j - 1) k), (Z.eqb_spec (Z.succ (j - 1)) (Z.succ k)); lia.
Qed.

Lemma nbits_zero n v : 0 <= v < 2 ^ Z.of_nat n -> nbits n v = 0 -> v = 0.
Proof.
  intros Hv H. apply Z.bits_inj'. intros j Hj. rewrite Z.bits_0.
  destruct (Z.lt_ge_cases j (Z.of_nat n)) as [Hlt|Hge].
  - clear Hv. induction n as [|n IH]; [lia|]. cbn [nbits] in H. assert (Hr := nbits_range n v).
    destruct (Z.testbit v (Z.of_nat n)) eqn:Hb; cbn [Z.b2z] in H; [lia|].
    destruct (Z.eq_dec j (Z.of_nat n)) as [->|Hne]; [done|]. apply IH; lia.
  - rewrite <- (Z.mod_small v (2 ^ Z.of_nat n)) by lia. by apply Z.mod_pow2_bits_high; lia.
Qed.

(** * Lenses: a component embedded in a larger shared state *)

Record lens (S T : Type) := Lens { lget : S -> T; lset : T -> S -> S }.
Arguments Lens {S T} _ _.
Arguments lget {S T} _ _.
Arguments lset {S T} _ _ _.

Definition lens_comp {S T U} (l : lens S T) (m : lens T U) : lens S U :=
  Lens (fun s => lget m (lget l s)) (fun u s => lset l (lset m u (lget l s)) s).

Class LensLaws {S T} (l : lens S T) : Prop := {
  lget_lset : forall t s, lget l (lset l t s) = t;
  lset_lset : forall t t' s, lset l t (lset l t' s) = lset l t s;
  lset_lget : forall s, lset l (lget l s) s = s
}.

(** The whole state as its own component. *)
Definition lens_id {S} : lens S S := Lens (fun s => s) (fun t _ => t).
#[global] Instance lens_id_laws {S} : LensLaws (@lens_id S).
Proof. by split. Qed.

(** * Automation *)

Create HintDb ub.
#[export] Hint Resolve u64_bound u32_bound is_pow2_pos : ub.
Create Rewrite HintDb ub.
#[export] Hint Rewrite @length_setZ : ub.

(** Case analysis on the boolean tests of the source. *)
Ltac case_bool :=
  match goal with
  | |- context [if ?b then _ else _] => let E := fresh "E" in destruct b eqn:E
  | H : context [if ?b then _ else _] |- _ => let E := fresh "E" in destruct b eqn:E
  end.

Ltac bool_to_prop :=
  repeat match goal with
  | H : (_ && _)%bool = true |- _ => apply andb_prop in H as [? ?]
  | H : (_ || _)%bool = false |- _ => apply orb_false_elim in H as [? ?]
  | H : negb _ = true |- _ => apply negb_true_iff in H
  | H : negb _ = false |- _ => apply negb_false_iff in H
  | H : (_ =? _) = true |- _ => apply Z.eqb_eq in H
  | H : (_ =? _) = false |- _ => apply Z.eqb_neq in H
  | H : (_ <? _) = true |- _ => apply Z.ltb_lt in H
  | H : (_ <? _) = false |- _ => apply Z.ltb_ge in H
  | H : (_ <=? _) = true |- _ => apply Z.leb_le in H
  | H : (_ <=? _) = false |- _ => apply Z.leb_gt in H
  end.

(** Arithmetic is reasoned about, not unfolded, by [cbn]. *)
#[global] Arguments Z.leb : simpl never.
#[global] Arguments Z.ltb : simpl never.
#[global] Arguments Z.modulo : simpl never.
#[global] Arguments Z.div : simpl never.
#[global] Arguments Z.to_nat : simpl never.
#[global] Arguments Z.pow : simpl never.
#[global] Arguments wrap : simpl never.
