(* ===== verification/Atomic.v ===== *)
(** Atomic programs: the common semantics of every operation of the library.

    The C++ operations are sequences of atomic accesses to shared memory, mixed
    with reads of the environment (a clock, whether a weak compare-exchange fails
    spuriously, how an external call ends).  [prog S A] is such a sequence over
    a shared state [S], returning an [A].  One transcription of an operation has
    two readings:

    - [run] executes it alone, to completion, against a list of environment
      answers: this is the sequential behaviour of the operation;
    - [cstep] interleaves a pool of programs at every atomic access: this is the
      behaviour of threads, processes and nodes sharing the memory, under the
      assumption (README, the safety assumptions) that atomic operations on the
      shared memory are globally linearizable.

    The second half of the file is a rely-guarantee logic ([safe]) for the
    interleaved reading, with ghost state, and its soundness theorem. *)

From S2P Require Import Prelude.

(** What the environment is asked. *)
Inductive query : Set :=
| QSpurious   (** does this weak compare-exchange fail spuriously (non-zero: yes) *)
| QSteady     (** the monotonic clock, in microseconds *)
| QRealtime   (** the wall clock, in microseconds *)
| QExternal.  (** the result of a call into code outside the library *)

#[global] Instance query_eq_dec : EqDecision query.
Proof. solve_decision. Defined.

Inductive prog (S A : Type) : Type :=
| Ret (a : A)
| Act (B : Type) (f : S -> B * S) (k : B -> prog S A)
| Ask (q : query) (k : Z -> prog S A)
| OutOfFuel.
Arguments Ret {S A} a.
Arguments Act {S A B} f k.
Arguments Ask {S A} q k.
Arguments OutOfFuel {S A}.

Fixpoint bind {S A B} (p : prog S A) (f : A -> prog S B) : prog S B :=
  match p with
  | Ret a => f a
  | Act g k => Act g (fun b => bind (k b) f)
  | Ask q k => Ask q (fun z => bind (k z) f)
  | OutOfFuel => OutOfFuel
  end.

Notation "'do' x <- p ; q" := (bind p (fun x => q))
  (at level 10, x name, p at level 100, q at level 200) : ub_scope.
Notation "'do' ' pat <- p ; q" := (bind p (fun x => match x with pat => q end))
  (at level 10, pat pattern, p at level 100, q at level 200) : ub_scope.
Notation "p ';;;' q" := (bind p (fun _ => q))
  (at level 100, q at level 200, right associativity) : ub_scope.

(** ** Primitive accesses *)

Definition act {S B} (f : S -> B * S) : prog S B := Act f Ret.
Definition ask {S} (q : query) : prog S Z := Ask q Ret.
Definition load {S B} (f : S -> B) : prog S B := act (fun s => (f s, s)).
Definition store {S} (f : S -> S) : prog S unit := act (fun s => (tt, f s)).
(** A fetch-and-modify: returns the old value of the field. *)
Definition rmw {S T} (l : lens S T) (f : T -> T) : prog S T :=
  act (fun s => (lget l s, lset l (f (lget l s)) s)).

(** [compare_exchange_strong(expected, desired)] on an integer field: whether it
    succeeded, and the value of [expected] afterwards. *)
Definition cas_strong {S} (l : lens S Z) (expected desired : Z) : prog S (bool * Z) :=
  act (fun s => if lget l s =? expected then ((true, expected), lset l desired s)
                else ((false, lget l s), s)).

(** [compare_exchange_weak] may fail although the field holds [expected]. *)
Definition cas_weak {S} (l : lens S Z) (expected desired : Z) : prog S (bool * Z) :=
  do sp <- ask QSpurious;
  if sp =? 0 then cas_strong l expected desired
  else act (fun s => ((false, lget l s), s)).

(** A loop [while (true) { ... }] whose body either continues with a new local
    state or leaves the loop.  [fuel] bounds the rounds that are unfolded. *)
Fixpoint iter {S L A} (fuel : nat) (body : L -> prog S (L + A)) (l : L) : prog S A :=
  match fuel with
  | O => OutOfFuel
  | Datatypes.S n =>
      do r <- body l;
      match r with
      | inl l' => iter n body l'
      | inr a => Ret a
      end
  end.

(** One round of a loop. *)
Lemma iter_round {S L A} fuel (body : L -> prog S (L + A)) l :
  (1 <= fuel)%nat ->
  iter fuel body l = bind (body l) (fun r =>
    match r with inl l' => iter (Nat.pred fuel) body l' | inr a => Ret a end).
Proof. by destruct fuel; [lia|]. Qed.

(** A counted loop over a list of indices. *)
Fixpoint for_each {S X} (xs : list X) (body : X -> prog S unit) : prog S unit :=
  match xs with
  | [] => Ret tt
  | x :: xs' => body x ;;; for_each xs' body
  end.

(** Running a component's operation inside a larger state. *)
Fixpoint lift {S T A} (l : lens S T) (p : prog T A) : prog S A :=
  match p with
  | Ret a => Ret a
  | Act f k => Act (fun s => let '(b, t) := f (lget l s) in (b, lset l t s))
                   (fun b => lift l (k b))
  | Ask q k => Ask q (fun z => lift l (k z))
  | OutOfFuel => OutOfFuel
  end.

(** ** Sequential execution *)

Definition outcome (S A : Type) : Type := option A * list Z * S.

Fixpoint run {S A} (p : prog S A) (env : list Z) (s : S) : outcome S A :=
  match p with
  | Ret a => (Some a, env, s)
  | Act f k => let '(b, s') := f s in run (k b) env s'
  | Ask q k => match env with
               | [] => run (k 0) [] s
               | z :: env' => run (k z) env' s
               end
  | OutOfFuel => (None, env, s)
  end.

(** The result and final state of a run in a quiet environment: no spurious
    failure, and a clock that does not advance. *)
Definition result {S A} (p : prog S A) (s : S) : option A := (run p [] s).1.1.
Definition final {S A} (p : prog S A) (s : S) : S := (run p [] s).2.

Lemma run_final {S A} (p : prog S A) env s x : (run p env s).1 = x -> run p env s = (x, (run p env s).2).
Proof. intros <-. by destruct (run p env s). Qed.

Lemma run_bind {S A B} (p : prog S A) (f : A -> prog S B) env s :
  run (bind p f) env s =
  match run p env s with
  | (Some a, env', s') => run (f a) env' s'
  | (None, env', s') => (None, env', s')
  end.
Proof.
  revert env s. induction p as [a|C g k IH|q k IH|]; intros env s; cbn.
  - done.
  - destruct (g s) as [b s']. apply IH.
  - destruct env; apply IH.
  - done.
Qed.

Lemma run_act {S A B} (f : S -> B * S) (k : B -> prog S A) env s :
  run (Act f k) env s = run (k (f s).1) env (f s).2.
Proof. cbn. by destruct (f s). Qed.

Lemma bind_assoc {S A B C} (p : prog S A) (f : A -> prog S B) (g : B -> prog S C) env s :
  run (bind (bind p f) g) env s = run (bind p (fun a => bind (f a) g)) env s.
Proof.
  rewrite !run_bind. destruct (run p env s) as [[[a|] env'] s']; [|done].
  by rewrite run_bind.
Qed.

Lemma run_lift {S T A} (l : lens S T) `{!LensLaws l} (p : prog T A) env s :
  run (lift l p) env s =
  let '(r, env', t) := run p env (lget l s) in (r, env', lset l t s).
Proof.
  revert env s. induction p as [a|C g k IH|q k IH|]; intros env s; cbn.
  - by rewrite lset_lget.
  - destruct (g (lget l s)) as [b t]. rewrite IH, lget_lset.
    destruct (run (k b) env t) as [[r env'] t']. by rewrite lset_lset.
  - destruct env; apply IH.
  - by rewrite lset_lget.
Qed.

(** The same where the lens is well-behaved on some states only, such as an index
    that is in range. *)
Lemma run_lift_at {S T A} (l : lens S T) (P : S -> Prop) (p : prog T A) env s :
  (forall s t, P s -> P (lset l t s)) ->
  (forall s t, P s -> lget l (lset l t s) = t) ->
  (forall s t t', P s -> lset l t (lset l t' s) = lset l t s) ->
  (forall s, P s -> lset l (lget l s) s = s) ->
  P s -> run (lift l p) env s =
    let '(r, env', t) := run p env (lget l s) in (r, env', lset l t s).
Proof.
  intros HP H1 H2 H3. revert env s. induction p as [a|C g k IH|q k IH|]; intros env s Hs; cbn.
  - by rewrite H3.
  - destruct (g (lget l s)) as [b t]. rewrite IH, H1 by auto.
    destruct (run (k b) env t) as [[r env'] t']. by rewrite H2.
  - destruct env; by apply IH.
  - by rewrite H3.
Qed.

(** ** Interleaved execution *)

Section Interleaving.
Context {S A : Type}.
(** Which answers the environment may give, in which states. *)
Variable allowed : S -> query -> Z -> Prop.

Inductive step : prog S A * S -> prog S A * S -> Prop :=
| step_act B (f : S -> B * S) k s : step (Act f k, s) (k (f s).1, (f s).2)
| step_ask q k s z : allowed s q z -> step (Ask q k, s) (k z, s).

Definition config : Type := S * list (prog S A).

Inductive cstep : config -> config -> Prop :=
| cstep_thread i p p' s s' ps :
    ps !! i = Some p -> step (p, s) (p', s') ->
    cstep (s, ps) (s', <[i := p']> ps).

Definition reachable : config -> config -> Prop := rtc cstep.

Lemma reachable_length c c' : reachable c c' -> length c'.2 = length c.2.
Proof.
  induction 1 as [c|c c1 c2 H1 Hr IH]; [done|].
  destruct H1; cbn in *. by rewrite IH, length_insert.
Qed.
End Interleaving.

Definition any_answer {S} (s : S) (q : query) (z : Z) : Prop := True.

(** An executable scheduler: at each entry [(i, z)] thread [i] takes one step,
    receiving [z] if it asks the environment. *)
Definition sched1 {S A} (c : config (S := S) (A := A)) (iz : nat * Z) : config :=
  match c.2 !! iz.1 with
  | Some (Act f k) => ((f c.1).2, <[iz.1 := k (f c.1).1]> c.2)
  | Some (Ask q k) => (c.1, <[iz.1 := k iz.2]> c.2)
  | _ => c
  end.

Definition sched {S A} (c : config (S := S) (A := A)) (l : list (nat * Z)) : config :=
  foldl sched1 c l.

Lemma sched_reachable {S A} (c : config (S := S) (A := A)) l :
  reachable any_answer c (sched c l).
Proof.
  revert c. induction l as [|[i z] l IH]; intros c; [apply rtc_refl|].
  cbn. etrans; [|apply IH]. clear IH.
  destruct c as [s ps]. unfold sched1; cbn.
  destruct (ps !! i) as [[a|B f k|q k|]|] eqn:E; try apply rtc_refl;
    apply rtc_once; by econstructor; [|constructor].
Qed.

(** A schedule after which the pool consists of [ps]. *)
Lemma sched_done {S A} (c : config (S := S) (A := A)) l ps :
  (sched c l).2 = ps -> reachable any_answer c ((sched c l).1, ps).
Proof. intros <-. rewrite <- surjective_pairing. apply sched_reachable. Qed.

(** The scheduler for runs in which nobody reads the clock: a thread that asks for
    it is not scheduled. *)
Definition asks_clock {S A} (p : prog S A) : bool :=
  match p with Ask QSteady _ => true | _ => false end.

Definition sched_untimed {S A} (c : config (S := S) (A := A)) (l : list (nat * Z)) : config :=
  foldl (fun c iz => if asks_clock (default OutOfFuel (c.2 !! iz.1)) then c else sched1 c iz) c l.

Lemma sched_untimed_reachable {S A} allowed (c : config (S := S) (A := A)) l :
  (forall s q z, q <> QSteady -> allowed s q z) -> reachable allowed c (sched_untimed c l).
Proof.
  intros Ha. revert c. induction l as [|[i z] l IH]; intros c; [apply rtc_refl|].
  cbn. etrans; [|apply IH]. clear IH. destruct c as [s ps]. unfold sched1; cbn.
  destruct (ps !! i) as [[a|B f k|q k|]|] eqn:E; cbn; try apply rtc_refl.
  - apply rtc_once. by econstructor; [|constructor].
  - destruct q; cbn; try apply rtc_refl; apply rtc_once; econstructor;
      [done|by constructor; apply Ha|done|by constructor; apply Ha|done|by constructor; apply Ha].
Qed.

(** The result of a thread that has returned. *)
Definition thread_result {S A} (d : A) (ps : list (prog S A)) (i : nat) : A :=
  match ps !! i with Some (Ret a) => a | _ => d end.

(** ** Programs that only make certain state changes *)

Fixpoint only {S A} (R : S -> S -> Prop) (p : prog S A) : Prop :=
  match p with
  | Ret _ | OutOfFuel => True
  | Act f k => forall s, R s (f s).2 /\ forall b, only R (k b)
  | Ask _ k => forall z, only R (k z)
  end.

Lemma only_bind {S A B} R (p : prog S A) (f : A -> prog S B) :
  only R p -> (forall a, only R (f a)) -> only R (bind p f).
Proof.
  intros Hp Hf. induction p as [a|C g k IH|q k IH|]; cbn in *; auto.
  intros s. destruct (Hp s). auto.
Qed.

Lemma only_iter {S L A} R fuel (body : L -> prog S (L + A)) l :
  (forall l, only R (body l)) -> only R (iter fuel body l).
Proof.
  intros Hb. revert l. induction fuel as [|n IH]; intros l; cbn; [done|].
  apply only_bind; [apply Hb|]. intros [l'|a]; cbn; auto.
Qed.

Lemma only_load {S B} (R : S -> S -> Prop) (f : S -> B) :
  (forall s, R s s) -> only R (load f).
Proof. cbn. auto. Qed.

Lemma only_mono {S A} (R R' : S -> S -> Prop) (p : prog S A) :
  (forall s s', R s s' -> R' s s') -> only R p -> only R' p.
Proof.
  intros H. induction p as [a|C g k IH|q k IH|]; cbn; auto.
  intros Hp s. destruct (Hp s). auto.
Qed.

(** Changes inside a component, seen from the larger state. *)
Lemma only_lift {S T A} (R : S -> S -> Prop) (RT : T -> T -> Prop) (l : lens S T) (p : prog T A) :
  (forall s t, RT (lget l s) t -> R s (lset l t s)) -> only RT p -> only R (lift l p).
Proof.
  intros H. induction p as [a|C g k IH|q k IH|]; cbn; auto.
  intros Hp s. destruct (Hp (lget l s)) as [Hs Hk]. destruct (g (lget l s)) as [b t].
  split; [by apply H|auto].
Qed.

Lemma only_any {S A} (p : prog S A) : only (fun _ _ => True) p.
Proof. induction p; cbn; auto. Qed.

(** Every result of the program satisfies [V]. *)
Fixpoint returns {S A} (V : A -> Prop) (p : prog S A) : Prop :=
  match p with
  | Ret a => V a
  | Act _ k => forall b, returns V (k b)
  | Ask _ k => forall z, returns V (k z)
  | OutOfFuel => True
  end.

Lemma returns_bind {S A B} V (p : prog S A) (f : A -> prog S B) :
  (forall a, returns V (f a)) -> returns V (bind p f).
Proof. intros Hf. induction p; cbn; auto. Qed.

Lemma returns_seq {S A B} V1 V (p : prog S A) (f : A -> prog S B) :
  returns V1 p -> (forall a, V1 a -> returns V (f a)) -> returns V (bind p f).
Proof. intros Hp Hf. induction p; cbn in *; auto. Qed.

(** What a change relation that is a preorder allows in one run. *)
Lemma run_only {S A} (R : S -> S -> Prop) `{!Reflexive R, !Transitive R} (p : prog S A) env s :
  only R p -> R s (run p env s).2.
Proof.
  revert env s. induction p as [a|C g k IH|q k IH|]; intros env s Hp; cbn in *; auto.
  - destruct (Hp s) as [Hs Hk]. destruct (g s) as [b s'] eqn:E; cbn in *.
    etrans; [exact Hs|]. apply IH, Hk.
  - destruct env; auto.
Qed.

(** * Rely-guarantee reasoning *)

Section RelyGuarantee.
Context {S G : Type}.
Variable allowed : S -> query -> Z -> Prop.
(** The invariant of the shared state and the ghost state, and what a step of
    thread [i] may do to them. *)
Variable Inv : S -> G -> Prop.
Variable guar : nat -> S * G -> S * G -> Prop.

(** A step of some thread other than [i]. *)
Definition rely (i : nat) (w w' : S * G) : Prop :=
  exists j, j <> i /\ guar j w w' /\ Inv w.1 w.2 /\ Inv w'.1 w'.2.

Definition stable (i : nat) (P : S -> G -> Prop) : Prop :=
  forall s g s' g', P s g -> rely i (s, g) (s', g') -> P s' g'.

(** [safe i p Q s g]: from [(s, g)], whatever the other threads do, each access
    of [p] by thread [i] keeps the invariant and its guarantee for a suitable
    ghost update, and [p] returns with [Q]. *)
Fixpoint safe {A} (i : nat) (p : prog S A) (Q : A -> S -> G -> Prop)
    (s : S) (g : G) : Prop :=
  match p with
  | Ret a => forall s' g', rtc (rely i) (s, g) (s', g') -> Inv s' g' -> Q a s' g'
  | Act f k => forall s' g', rtc (rely i) (s, g) (s', g') -> Inv s' g' ->
      exists g'', Inv (f s').2 g'' /\ guar i (s', g') ((f s').2, g'') /\
                  safe i (k (f s').1) Q (f s').2 g''
  | Ask q k => forall s' g' z, rtc (rely i) (s, g) (s', g') -> Inv s' g' ->
      allowed s' q z -> safe i (k z) Q s' g'
  | OutOfFuel => True
  end.

Lemma stable_rtc i P s g s' g' :
  stable i P -> P s g -> rtc (rely i) (s, g) (s', g') -> P s' g'.
Proof.
  intros Hst HP Hr. remember (s, g) as w eqn:Ew. remember (s', g') as w' eqn:Ew'.
  revert s g Ew HP Ew'. induction Hr as [w|w [s1 g1] w' H1 Hr IH]; intros s g -> HP Ew'.
  - by simplify_eq.
  - eapply IH; [done| |done]. by eapply Hst.
Qed.

Lemma safe_rely {A} i (p : prog S A) Q s g s' g' :
  safe i p Q s g -> rtc (rely i) (s, g) (s', g') -> safe i p Q s' g'.
Proof.
  revert s g. induction p as [a|B f k IH|q k IH|]; intros s g Hs Hr; cbn in *.
  - intros s2 g2 Hr2. apply Hs. by etrans.
  - intros s2 g2 Hr2. apply Hs. by etrans.
  - intros s2 g2 z Hr2. apply Hs. by etrans.
  - done.
Qed.

Lemma safe_bind {A B} i (p : prog S A) (f : A -> prog S B) Q Q' s g :
  Inv s g ->
  safe i p Q s g ->
  (forall a s g, Inv s g -> Q a s g -> safe i (f a) Q' s g) ->
  safe i (bind p f) Q' s g.
Proof.
  revert s g. induction p as [a|C h k IH|q k IH|]; intros s g HI Hp Hf; cbn in *.
  - apply Hf; [done|]. apply Hp; [apply rtc_refl|done].
  - intros s' g' Hr HI'. destruct (Hp s' g' Hr HI') as (g'' & ? & ? & ?).
    exists g''. split_and!; auto.
  - intros s' g' z Hr HI' Hz. apply IH; eauto.
  - done.
Qed.

Lemma safe_mono {A} i (p : prog S A) (Q Q' : A -> S -> G -> Prop) s g :
  safe i p Q s g ->
  (forall a s g, Inv s g -> Q a s g -> Q' a s g) -> safe i p Q' s g.
Proof.
  revert s g. induction p as [a|C h k IH|q k IH|]; intros s g Hp Hf; cbn in *.
  - intros s' g' Hr HI. apply Hf; auto.
  - intros s' g' Hr HI'. destruct (Hp s' g' Hr HI') as (g'' & ? & ? & ?).
    exists g''. split_and!; auto.
  - intros s' g' z Hr HI' Hz. apply IH; eauto.
  - done.
Qed.

Lemma safe_ret {A} i (a : A) Q s g :
  stable i (Q a) -> Q a s g -> safe i (Ret a) Q s g.
Proof. intros Hst HQ s' g' Hr _. by eapply stable_rtc. Qed.

(** One access, from an assertion [P] the other threads preserve. *)
Lemma safe_act {A B} i P (f : S -> B * S) (k : B -> prog S A) Q s g :
  stable i P -> P s g ->
  (forall s g, Inv s g -> P s g ->
     exists g', Inv (f s).2 g' /\ guar i (s, g) ((f s).2, g') /\
                safe i (k (f s).1) Q (f s).2 g') ->
  safe i (Act f k) Q s g.
Proof. intros Hst HP Hf s' g' Hr HI. apply Hf; [done|]. by eapply stable_rtc. Qed.

(** An access that does not change the shared state. *)
Lemma safe_read {A B} i P (f : S -> B * S) (k : B -> prog S A) Q s g :
  (forall s, (f s).2 = s) -> (forall w, guar i w w) ->
  stable i P -> P s g ->
  (forall s g, Inv s g -> P s g -> safe i (k (f s).1) Q s g) ->
  safe i (Act f k) Q s g.
Proof.
  intros Hf Hg Hst HP Hk. eapply safe_act; [done|done|].
  intros s' g' HI HP'. exists g'. rewrite Hf. auto.
Qed.

Lemma safe_ask {A} i q (k : Z -> prog S A) Q s g :
  (forall z, safe i (k z) Q s g) -> safe i (Ask q k) Q s g.
Proof. intros Hk s' g' z Hr _ _. by eapply safe_rely. Qed.

(** A question whose answer is constrained by the state it is asked in. *)
Lemma safe_ask_in {A} i P q (k : Z -> prog S A) Q s g :
  stable i P -> P s g ->
  (forall s g z, Inv s g -> P s g -> allowed s q z -> safe i (k z) Q s g) ->
  safe i (Ask q k) Q s g.
Proof. intros Hst HP Hk s' g' z Hr HI Hz. apply Hk; [done| |done]. by eapply stable_rtc. Qed.

(** A loop, from an invariant [P] of its local state. *)
Lemma safe_iter {L A} i (body : L -> prog S (L + A)) P Q fuel l s g :
  (forall l s g, Inv s g -> P l s g ->
     safe i (body l) (fun r s g => match r with inl l' => P l' s g | inr a => Q a s g end) s g) ->
  (forall a, stable i (Q a)) ->
  Inv s g -> P l s g -> safe i (iter fuel body l) Q s g.
Proof.
  intros Hb HQ. revert l s g. induction fuel as [|n IH]; intros l s g HI HP; cbn; [done|].
  eapply safe_bind; [done|by apply Hb|].
  intros [l'|a] s' g' HI' HQ'; [by apply IH|]. by apply safe_ret.
Qed.

(** The same rules for operations of an embedded component. *)
Lemma safe_lift_bind {T A B} i (l : lens S T) (p : prog T A) (f : A -> prog T B) Q Q' s g :
  Inv s g ->
  safe i (lift l p) Q s g ->
  (forall a s g, Inv s g -> Q a s g -> safe i (lift l (f a)) Q' s g) ->
  safe i (lift l (bind p f)) Q' s g.
Proof.
  revert s g. induction p as [a|C h k IH|q k IH|]; intros s g HI Hp Hf; cbn in *.
  - apply Hf; [done|]. apply Hp; [apply rtc_refl|done].
  - intros s' g' Hr HI'. destruct (Hp s' g' Hr HI') as (g'' & ? & ? & ?).
    exists g''. split_and!; auto.
  - intros s' g' z Hr HI' Hz. apply IH; eauto.
  - done.
Qed.

Lemma safe_lift_iter {T L A} i (l : lens S T) (body : L -> prog T (L + A)) P Q fuel x s g :
  (forall x s g, Inv s g -> P x s g ->
     safe i (lift l (body x))
       (fun r s g => match r with inl x' => P x' s g | inr a => Q a s g end) s g) ->
  (forall a, stable i (Q a)) ->
  Inv s g -> P x s g -> safe i (lift l (iter fuel body x)) Q s g.
Proof.
  intros Hb HQ. revert x s g. induction fuel as [|n IH]; intros x s g HI HP; cbn; [done|].
  eapply safe_lift_bind; [done|by apply Hb|].
  intros [x'|a] s' g' HI' HQ'; [by apply IH|]. by apply safe_ret.
Qed.

(** A program all of whose accesses are related by [R] keeps what [R] keeps. *)
Lemma safe_only {A} i (R : S -> S -> Prop) P (p : prog S A) s g :
  only R p ->
  (forall s s' g, Inv s g -> R s s' -> Inv s' g /\ guar i (s, g) (s', g)) ->
  (forall s s' g, Inv s g -> P s g -> R s s' -> P s' g) ->
  stable i P -> P s g -> safe i p (fun _ => P) s g.
Proof.
  intros Ho HR HP Hst. revert s g.
  induction p as [a|B f k IH|q k IH|]; intros s g HPs; cbn in *.
  - intros s' g' Hr _. by eapply stable_rtc.
  - intros s' g' Hr HI. destruct (Ho s') as [Hf Hk].
    assert (HP' : P s' g') by (by eapply stable_rtc).
    destruct (HR _ _ _ HI Hf). exists g'. split_and!; [done|done|]. apply IH; [apply Hk|].
    by apply (HP s').
  - intros s' g' z Hr HI _. apply IH; [apply Ho|]. by eapply stable_rtc.
  - done.
Qed.

Lemma safe_returns {A} i (V : A -> Prop) (p : prog S A) Q s g :
  returns V p -> safe i p Q s g -> safe i p (fun a s g => Q a s g /\ V a) s g.
Proof.
  revert s g. induction p as [a|B f k IH|q k IH|]; intros s g Hv Hs; cbn in *.
  - intros s' g' Hr HI. split; [by apply Hs|done].
  - intros s' g' Hr HI. destruct (Hs s' g' Hr HI) as (g'' & ? & ? & ?). exists g''. auto.
  - intros s' g' z Hr HI Hz. apply IH; auto.
  - done.
Qed.

(** The frame rule: an assertion every guarantee keeps can be carried along. *)
Lemma safe_frame {A} i (R : S -> G -> Prop) (p : prog S A) Q s g :
  (forall j s g s' g', guar j (s, g) (s', g') -> Inv s g -> R s g -> R s' g') ->
  R s g -> safe i p Q s g -> safe i p (fun a s g => Q a s g /\ R s g) s g.
Proof.
  intros HR. assert (Hst : stable i R) by (intros s0 g0 s1 g1 H (j & _ & Hg & HI & _); eauto).
  revert s g. induction p as [a|B f k IH|q k IH|]; intros s g Hr Hs; cbn in *.
  - intros s' g' Hrel HI. split; [by apply Hs|by eapply stable_rtc].
  - intros s' g' Hrel HI. destruct (Hs s' g' Hrel HI) as (g'' & HI' & Hg & Hk).
    assert (R s' g') by (by eapply stable_rtc). exists g''. eauto 6.
  - intros s' g' z Hrel HI Hz. apply IH; [by eapply stable_rtc|auto].
  - done.
Qed.

(** ** Soundness: a pool of safe programs keeps the invariant forever. *)

Definition pool_safe {A} (Q : nat -> A -> S -> G -> Prop) (c : config (A := A)) (g : G) : Prop :=
  Inv c.1 g /\ forall i p, c.2 !! i = Some p -> safe i p (Q i) c.1 g.

Lemma pool_safe_step {A} (Q : nat -> A -> S -> G -> Prop) c c' g :
  pool_safe Q c g -> cstep allowed c c' -> exists g', pool_safe Q c' g'.
Proof.
  intros [HI Hs] Hc. destruct Hc as [i p p' s s' ps Hi Hst]. cbn in *.
  assert (Hp := Hs i p Hi). inversion Hst as [B f k s0|q k s0 z Hz]; simplify_eq; cbn in *.
  - destruct (Hp s g) as (g' & HI' & Hg & Hk); [apply rtc_refl|done|].
    exists g'. split; [done|]. intros j q Hj; cbn in *.
    destruct (decide (i = j)) as [<-|Hne].
    + rewrite list_lookup_insert_eq in Hj by (by eapply lookup_lt_Some). by simplify_eq.
    + rewrite list_lookup_insert_ne in Hj by done.
      eapply safe_rely; [by apply Hs|]. apply rtc_once.
      exists i. by split_and!.
  - exists g. split; [done|]. intros j p Hj; cbn in *.
    destruct (decide (i = j)) as [<-|Hne].
    + rewrite list_lookup_insert_eq in Hj by (by eapply lookup_lt_Some). simplify_eq. by apply Hp.
    + rewrite list_lookup_insert_ne in Hj by done. by apply Hs.
Qed.

Theorem pool_safe_reachable {A} (Q : nat -> A -> S -> G -> Prop) c c' g :
  pool_safe Q c g -> reachable allowed c c' -> exists g', pool_safe Q c' g'.
Proof.
  intros Hs Hr. revert g Hs. induction Hr as [c|c c1 c2 H1 Hr IH]; intros g Hs; [by exists g|].
  destruct (pool_safe_step _ _ _ _ Hs H1) as [g1 Hs1]. by eapply IH.
Qed.

(** Where a thread has returned, its postcondition holds. *)
Lemma pool_safe_ret {A} (Q : nat -> A -> S -> G -> Prop) c g i a :
  pool_safe Q c g -> c.2 !! i = Some (Ret a) -> Q i a c.1 g.
Proof. intros [HI Hs] Hi. specialize (Hs i _ Hi). apply Hs; [apply rtc_refl|done]. Qed.
End RelyGuarantee.

#[export] Hint Resolve rtc_refl : ub.
#[global] Arguments safe : simpl never.
