(* ===== verification/Log.v ===== *)
(** Logging (src/ub_comm_queue/ub_atomic_log_print.cpp and .h, src/common/log.h).

    The library formats a line and hands it to a function the application has registered, when the level of the line reaches
    a threshold.  The state [log_state] has the threshold, the function pointer and the calls the
    application's functions have got.  The formatting ([vsnprintf]) is a parameter of [log_print]: the whole text, or
    [None] when it fails.  src/common/log.h prints to the standard output: the threshold it reads from the environment,
    the stream of a statement and the line its destructor prints are modelled. *)

From Stdlib Require Import Ascii Strings.String.
From stdpp Require Import strings pretty.
From S2P Require Import Prelude Atomic.

(** * ub_atomic_log_print *)

Definition LOG_LEVEL_DEBUG : Z := 0.
Definition LOG_LEVEL_INFO : Z := 1.
Definition LOG_LEVEL_WARN : Z := 2.
Definition LOG_LEVEL_ERROR : Z := 3.
Definition LOG_LEVEL_CRITICAL : Z := 4.
Definition LOG_LEVEL_NUM : Z := 5.
Definition LOG_LEVEL_DEFAULT : Z := LOG_LEVEL_ERROR.
Definition MAX_LOG_MESSAGE_LENGTH : Z := 2048.

(** A function pointer: null, the function that does nothing, or one of the application's. *)
Inductive ub_atomic_log_func : Set := func_null | log_no_print | func_app (f : Z).

Record log_state : Type := LogState {
  g_log_level_threshold : Z; g_logger_func : ub_atomic_log_func;
  printed : list (Z * Z * string) (** function, level, message *) }.
Definition log_start : log_state := LogState LOG_LEVEL_DEFAULT func_null [].

Definition set_threshold (v : Z) (s : log_state) : log_state := LogState v (g_logger_func s) (printed s).
Definition set_logger (f : ub_atomic_log_func) (s : log_state) : log_state := LogState (g_log_level_threshold s) f (printed s).

Definition register_print_func (func : ub_atomic_log_func) : prog log_state unit :=
  store (set_logger (match func with func_null => log_no_print | f => f end)).
Definition get_log_level_threshold : prog log_state Z := load g_log_level_threshold.
Definition set_log_level_threshold (level : Z) : prog log_state Z :=
  if (LOG_LEVEL_DEBUG <=? level) && (level <=? LOG_LEVEL_CRITICAL) then store (set_threshold level) ;;; Ret 0 else Ret (-1).

(** [g_logger_func(level, ..., message)] *)
Definition call_logger (level : Z) (message : string) : prog log_state unit :=
  store (fun s => match g_logger_func s with
                  | func_app f => LogState (g_log_level_threshold s) (g_logger_func s) (printed s ++ [(f, level, message)])
                  | _ => s
                  end).

Definition error_msg : string := "Error formatting log message.".
Definition log_print (level : Z) (text : option string) : prog log_state unit :=
  do f <- load g_logger_func;
  (match f with func_null => store (set_logger log_no_print) | _ => Ret tt end) ;;;
  if (level <? 0) || (LOG_LEVEL_NUM <=? level) then Ret tt else
  do t <- get_log_level_threshold;
  if level <? t then Ret tt else
  match text with
  | None => call_logger LOG_LEVEL_ERROR error_msg
  | Some m => call_logger level (substring 0 (Z.to_nat (MAX_LOG_MESSAGE_LENGTH - 1)) m)
  end.

(** The macro: the threshold is tested before the arguments are formatted, and again inside. *)
Definition ATOMIC_LOG (level : Z) (text : option string) : prog log_state unit :=
  do t <- get_log_level_threshold;
  if t <=? level then log_print level text else Ret tt.

(** The interface of the library (ub_dist_comm_queue.cpp). *)
Definition ub_atomic_register_log_func (func : ub_atomic_log_func) : prog log_state unit := register_print_func func.
Definition ub_atomic_set_log_level (level : Z) : prog log_state Z := set_log_level_threshold level.

(** What a line leads to. *)
Definition lines (s : log_state) (level : Z) (text : option string) : list (Z * Z * string) :=
  match g_logger_func s with
  | func_app f =>
      if (0 <=? level) && (level <? LOG_LEVEL_NUM) && (g_log_level_threshold s <=? level)
      then [match text with None => (f, LOG_LEVEL_ERROR, error_msg) | Some m => (f, level, substring 0 2047 m) end] else []
  | _ => []
  end.

(** A line is passed on or dropped, and changes nothing else but a null pointer to the function. *)
Lemma run_log level text env s :
  exists s', run (ATOMIC_LOG level text) env s = (Some tt, env, s') /\ printed s' = printed s ++ lines s level text /\
     g_log_level_threshold s' = g_log_level_threshold s.
Proof.
  unfold ATOMIC_LOG, get_log_level_threshold, lines, LOG_LEVEL_NUM. destruct s as [th f pr]. cbn.
  destruct (th <=? level) eqn:Et; bool_to_prop.
  2:{ eexists. split; [done|]. split; [|done]. destruct f; rewrite ?andb_false_r, app_nil_r; done. }
  unfold log_print, LOG_LEVEL_NUM. destruct f as [| |f]; cbn.
  - destruct ((level <? 0) || _); [eexists; split; [done|]; by rewrite app_nil_r|]. cbn. rewrite (proj2 (Z.ltb_ge _ _)) by lia.
    destruct text; eexists; (split; [done|]); by rewrite app_nil_r.
  - destruct ((level <? 0) || _); [eexists; split; [done|]; by rewrite app_nil_r|]. cbn. rewrite (proj2 (Z.ltb_ge _ _)) by lia.
    destruct text; eexists; (split; [done|]); by rewrite app_nil_r.
  - rewrite andb_true_r. destruct (level <? 0) eqn:E0, (5 <=? level) eqn:E5; bool_to_prop; cbn.
    all: rewrite ?(proj2 (Z.leb_gt 0 level)), ?(proj2 (Z.leb_le 0 level)), ?(proj2 (Z.ltb_ge level 5)), ?(proj2 (Z.ltb_lt level 5)) by lia.
    all: cbn; try (eexists; split; [done|]; by rewrite app_nil_r).
    rewrite (proj2 (Z.ltb_ge _ _)) by lia. destruct text; eexists; done.
Qed.

(** Logging calls the registered function once for each line at or above the threshold, and not at all for
    the others.  A line of a known level that reaches the threshold is passed on, cut to the buffer of 2048 bytes with its
    terminating zero; one that cannot be formatted becomes an error line; every other line, and every
    line while no function is registered, has no effect.  The threshold is changed exactly by the five
    levels, and other values are refused with -1; registering a null pointer turns logging off. *)
Theorem log_lines level text env s :
  (exists s', run (ATOMIC_LOG level text) env s = (Some tt, env, s') /\ printed s' = printed s ++ lines s level text /\
     g_log_level_threshold s' = g_log_level_threshold s) /\
  run (ub_atomic_set_log_level level) env s =
    (if decide (0 <= level < LOG_LEVEL_NUM) then (Some 0, env, set_threshold level s) else (Some (-1), env, s)) /\
  (forall l t, lines (final (ub_atomic_register_log_func func_null) s) l t = []).
Proof.
  split; [|split; [|done]].
  - apply run_log.
  - unfold ub_atomic_set_log_level, set_log_level_threshold, LOG_LEVEL_DEBUG, LOG_LEVEL_CRITICAL, LOG_LEVEL_NUM.
    case_decide; [rewrite !(proj2 (Z.leb_le _ _)) by lia; done|].
    destruct (0 <=? level) eqn:E0, (level <=? 4) eqn:E4; bool_to_prop; done || lia.
Qed.

(** * common/log.h *)

Inductive LogLevel : Set := DEBUG | INFO | WARN | ERROR | FATAL | NONE (** [static_cast<LogLevel>(5)] *).
Definition level_value (l : LogLevel) : Z :=
  match l with DEBUG => 0 | INFO => 1 | WARN => 2 | ERROR => 3 | FATAL => 4 | NONE => 5 end.

(** The value of UB_ATOMIC_LOG_LEVEL; [None]: it is not set. *)
Definition GetLogMinLevel (env_level : option string) : LogLevel :=
  match env_level with
  | None => ERROR
  | Some e =>
      if (String.eqb e "DEBUG" || String.eqb e "0")%bool then DEBUG
      else if (String.eqb e "INFO" || String.eqb e "1")%bool then INFO
      else if (String.eqb e "WARN" || String.eqb e "2")%bool then WARN
      else if (String.eqb e "ERROR" || String.eqb e "3")%bool then ERROR
      else if (String.eqb e "FATAL" || String.eqb e "4")%bool then FATAL
      else if (String.eqb e "NONE" || String.eqb e "5")%bool then NONE
      else ERROR
  end.
Definition IsLogLevelEnable (env_level : option string) (level : LogLevel) : bool :=
  level_value (GetLogMinLevel env_level) <=? level_value level.
Definition LogLevelToString (level : LogLevel) : string :=
  match level with
  | DEBUG => "DEBUG" | INFO => "INFO" | WARN => "WARN" | ERROR => "ERROR" | FATAL => "FATAL" | NONE => "UNKNOWN"
  end.

(** The names of the levels are understood by the parser, which lets through the levels from that on; NONE lets nothing through. *)
Lemma log_level_names l l' :
  l <> NONE -> l' <> NONE ->
  GetLogMinLevel (Some (LogLevelToString l)) = l /\
  IsLogLevelEnable (Some (LogLevelToString l)) l' = (level_value l <=? level_value l') /\
  IsLogLevelEnable (Some "NONE"%string) l' = false.
Proof. destruct l, l'; done. Qed.

(** ** The stream

    An expression [LOG_INFO << a << b] builds a [LogStream], appends, and prints the line in the destructor.  What
    [operator<<] of the library prints for a value is a parameter, hence the text of [put_value]; a [uint8_t] or [int8_t] is printed as a number. *)

#[local] Open Scope string_scope.
#[local] Open Scope Z_scope.

Fixpoint fixed_digits (n : nat) (z : Z) : string :=
  match n with O => "" | S n' => fixed_digits n' (z / 10) +:+ String (Ascii.ascii_of_N (Z.to_N (48 + z mod 10))) "" end.
(** [%0<n>d] *)
Definition pad_nat (n : nat) (z : Z) : string := if z <? 10 ^ Z.of_nat n then fixed_digits n z else pretty z.
Definition pad (n : nat) (z : Z) : string := if z <? 0 then "-" +:+ pad_nat (n - 1) (- z) else pad_nat n z.

(** What [localtime_r] fills in. *)
Record tm : Type := Tm { tm_year : Z; tm_mon : Z; tm_mday : Z; tm_hour : Z; tm_min : Z; tm_sec : Z }.
(** [ns_total]: the nanoseconds since the epoch; a [duration_cast] rounds towards zero.  [snprintf] does not fail for this format, so the
    constant text returned then is left out; it cuts the text to the buffer. *)
Definition GetCurrentTime (localtime_r : Z -> tm) (ns_total : Z) : string :=
  let secs := Z.quot ns_total 1000000000 in
  let ns_remain := ns_total - secs * 1000000000 in
  let t := localtime_r secs in
  substring 0 39
    (pad 4 (tm_year t + 1900) +:+ "-" +:+ pad 2 (tm_mon t + 1) +:+ "-" +:+ pad 2 (tm_mday t) +:+ " " +:+
     pad 2 (tm_hour t) +:+ ":" +:+ pad 2 (tm_min t) +:+ ":" +:+ pad 2 (tm_sec t) +:+ "." +:+ pad 9 ns_remain).

Lemma string_app_length s t : String.length (s +:+ t) = (String.length s + String.length t)%nat.
Proof. induction s as [|c s IH]; [done|]. by apply (f_equal S). Qed.
Lemma string_app_assoc s t u : (s +:+ t) +:+ u = s +:+ t +:+ u.
Proof. induction s as [|c s IH]; [done|]. by apply (f_equal (String c)). Qed.

Lemma fixed_digits_length n : forall z, String.length (fixed_digits n z) = n.
Proof. induction n as [|n IH]; intros z; cbn [fixed_digits]; [done|]. rewrite string_app_length, IH. cbn. lia. Qed.
Lemma pad_length n z : 0 <= z < 10 ^ Z.of_nat n -> String.length (pad n z) = n.
Proof.
  intros Hz. unfold pad, pad_nat. rewrite (proj2 (Z.ltb_ge z 0)), (proj2 (Z.ltb_lt z _)) by lia. apply fixed_digits_length.
Qed.
Lemma substring_short s : forall n, (String.length s <= n)%nat -> substring 0 n s = s.
Proof. induction s as [|c s IH]; intros [|n] Hn; cbn in *; [done..|lia|]. by rewrite IH by lia. Qed.

(** The buffer of 40 bytes holds the time of every year of at most four digits whole. *)
Lemma current_time_whole (localtime_r : Z -> tm) ns :
  let t := localtime_r (Z.quot ns 1000000000) in
  0 <= ns -> 0 <= tm_year t + 1900 < 10000 -> 0 <= tm_mon t < 12 -> 1 <= tm_mday t <= 31 -> 0 <= tm_hour t < 24 ->
  0 <= tm_min t < 60 -> 0 <= tm_sec t <= 60 ->
  String.length (GetCurrentTime localtime_r ns) = 29%nat.
Proof.
  intros t Hns Hy Hmo Hd Hh Hmi Hs. unfold GetCurrentTime. fold t. rewrite substring_short.
  all: assert (Hq := Z.quot_rem' ns 1000000000); assert (Hr := Z.rem_bound_pos ns 1000000000 Hns ltac:(lia)).
  all: rewrite !string_app_length, !pad_length by lia; cbn [String.length]; lia.
Qed.

Record LogStream : Type := mkLogStream { level_ : LogLevel; file_ : string; line_ : Z; func_ : string; ss_ : string }.
Definition LOG (level : LogLevel) (file : string) (line : Z) (func : string) : LogStream := mkLogStream level file line func "".

Section Stream.
(** The environment variable of the process. *)
Variable env_level : option string.

Definition append_text (s : LogStream) (t : string) : LogStream :=
  if negb (IsLogLevelEnable env_level (level_ s)) then s
  else mkLogStream (level_ s) (file_ s) (line_ s) (func_ s) (ss_ s +:+ t).
Definition put_u8 (s : LogStream) (value : Z) : LogStream := append_text s (pretty value).
Definition put_i8 (s : LogStream) (value : Z) : LogStream := append_text s (pretty value).
Definition put_value (s : LogStream) (text : string) : LogStream := append_text s text.
(** [manip]: what the manipulator makes of the text so far. *)
Definition put_manip (s : LogStream) (manip : string -> string) : LogStream :=
  if negb (IsLogLevelEnable env_level (level_ s)) then s
  else mkLogStream (level_ s) (file_ s) (line_ s) (func_ s) (manip (ss_ s)).

(** What the destructor prints, and whether it ends the process. *)
Definition LogStream_end (s : LogStream) (now pid thread : string) : string * bool :=
  if negb (IsLogLevelEnable env_level (level_ s)) then ("", false) else
  let header := "[" +:+ now +:+ "][" +:+ LogLevelToString (level_ s) +:+ "][" +:+ pid +:+ "][" +:+ thread +:+ "][" +:+ func_ s +:+ ":" +:+
    pretty (line_ s) +:+ "] " in
  (header +:+ ss_ s +:+ String (Ascii.ascii_of_nat 10) "", match level_ s with FATAL => true | _ => false end).

Inductive stream_item : Type := item_u8 (v : Z) | item_i8 (v : Z) | item_text (t : string).
Definition put_item (s : LogStream) (i : stream_item) : LogStream :=
  match i with item_u8 v => put_u8 s v | item_i8 v => put_i8 s v | item_text t => put_value s t end.
Definition item_string (i : stream_item) : string := match i with item_u8 v => pretty v | item_i8 v => pretty v | item_text t => t end.

Lemma put_items level file line func items : forall t,
  foldl put_item (mkLogStream level file line func t) items =
  mkLogStream level file line func (if IsLogLevelEnable env_level level then foldl (fun x i => x +:+ item_string i) t items else t).
Proof.
  induction items as [|i items IH]; intros t; cbn [foldl]; [by destruct (IsLogLevelEnable _ _)|].
  assert (put_item (mkLogStream level file line func t) i =
    mkLogStream level file line func (if IsLogLevelEnable env_level level then t +:+ item_string i else t)) as ->.
  { destruct i; cbn [put_item put_u8 put_i8 put_value item_string]; unfold put_u8, put_i8, put_value, append_text;
      cbn [level_ file_ line_ func_ ss_]; by destruct (IsLogLevelEnable _ _). }
  rewrite IH. by destruct (IsLogLevelEnable _ _).
Qed.

(** A statement below the threshold prints nothing and never ends the process, a FATAL one included; another prints one line with the
    level and the text of its items in order, and ends the process exactly when it is FATAL. *)
Lemma log_statement level file line func items now pid thread :
  LogStream_end (foldl put_item (LOG level file line func) items) now pid thread =
  if IsLogLevelEnable env_level level
  then ("[" +:+ now +:+ "][" +:+ LogLevelToString level +:+ "][" +:+ pid +:+ "][" +:+ thread +:+ "][" +:+ func +:+ ":" +:+ pretty line +:+ "] " +:+
          foldl (fun x i => x +:+ item_string i) "" items +:+ String (Ascii.ascii_of_nat 10) "",
        match level with FATAL => true | _ => false end)
  else ("", false).
Proof.
  unfold LOG. rewrite put_items. unfold LogStream_end. cbn [level_ ss_ func_ line_].
  destruct (IsLogLevelEnable env_level level); cbn [negb]; [|done]. f_equal. by rewrite !string_app_assoc.
Qed.
End Stream.
