(* ===== verification/ThreadPool.v ===== *)
(** The worker pool of the communication queue (src/ub_comm_queue/ThreadPool.h).

    A pool is a queue of tasks under a mutex, a condition variable on which idle workers
    wait and a shutdown flag.  The state [pool_state] holds them; the operations are programs over any
    state that contains one (through a lens), and a task is run by the program [exec].  The
    mutex is a flag taken by spinning, the condition variable the list of the workers blocked on it: a
    notification takes a worker out of the list, and a blocked worker that is still in
    it goes on only by a spurious wake-up (an answer of the environment).

    [pool_runs_accepted] is the contract of the pool under every interleaving of workers, clients and the
    destructor; [shutdown_wakeup_lost] is an execution in which the destructor never ends. *)

From S2P Require Import Prelude Atomic.

(** * State *)

Record pool_state (T : Type) : Type := Pool {
  taskQueue : list T;
  mtx : bool;                (** held *)
  waiting : list nat;        (** the workers blocked on [taskAvailable_] *)
  shuttingDown : bool;
  threads : nat;             (** [threads_.size()] *)
  finished : list nat        (** the workers that have left [runWorkerLoop] *) }.
Arguments Pool {T}.
Arguments taskQueue {T}.
Arguments mtx {T}.
Arguments waiting {T}.
Arguments shuttingDown {T}.
Arguments threads {T}.
Arguments finished {T}.

Section Setters.
Context {T : Type}.
Implicit Types p : pool_state T.
Definition set_queue (q : list T) p :=
  Pool q (mtx p) (waiting p) (shuttingDown p) (threads p) (finished p).
Definition set_mtx (b : bool) p :=
  Pool (taskQueue p) b (waiting p) (shuttingDown p) (threads p) (finished p).
Definition set_waiting (ws : list nat) p :=
  Pool (taskQueue p) (mtx p) ws (shuttingDown p) (threads p) (finished p).
Definition set_shutting p :=
  Pool (taskQueue p) (mtx p) (waiting p) true (threads p) (finished p).
Definition add_finished (me : nat) p :=
  Pool (taskQueue p) (mtx p) (waiting p) (shuttingDown p) (threads p) (me :: finished p).
End Setters.

(** Whether the queue has a task. *)
Definition has_task {T} (p : pool_state T) : bool :=
  match taskQueue p with [] => false | _ => true end.

(** What [enqueue] ends with: a future, or one of its two exceptions. *)
Inductive enqueue_result : Set := Queued | ThrowsShutdown | ThrowsNoThreads.

(** * Operations *)

Module ThreadPool.
Section Model.
Context {S T : Type}.
Variable l : lens S (pool_state T).
Variable exec : T -> prog S unit.
Variable fuel : nat.

Definition pload {B} (f : pool_state T -> B) : prog S B := load (fun s => f (lget l s)).
Definition pstore (f : pool_state T -> pool_state T) : prog S unit :=
  store (fun s => lset l (f (lget l s)) s).

(** [std::mutex]: a try that succeeds, or another round. *)
Definition lock_round : prog S (unit + unit) :=
  act (fun s => if mtx (lget l s) then (inl tt, s) else (inr tt, lset l (set_mtx true (lget l s)) s)).
Definition lock : prog S unit := iter fuel (fun _ => lock_round) tt.
Definition unlock : prog S unit := pstore (set_mtx false).

(** [std::condition_variable::wait]: release the mutex and block in one step, stay blocked
    until notified, take the mutex again. *)
Definition wait_round (me : nat) : prog S (unit + unit) :=
  do spurious <- ask QSpurious;
  act (fun s => let p := lget l s in
    if bool_decide (me ∈ waiting p) && (spurious =? 0) then (inl tt, s)
    else (inr tt, lset l (set_waiting (filter (fun x => x <> me) (waiting p)) p) s)).
Definition cv_wait (me : nat) : prog S unit :=
  pstore (fun p => set_waiting (waiting p ++ [me]) (set_mtx false p)) ;;;
  iter fuel (fun _ => wait_round me) tt ;;;
  lock.
(** The environment chooses which worker a notification reaches. *)
Definition notify_one : prog S unit :=
  do z <- ask QExternal;
  pstore (fun p => let ws := waiting p in
    set_waiting (delete (Z.to_nat (z mod Z.of_nat (length ws))) ws) p).
Definition notify_all : prog S unit := pstore (set_waiting []).

Definition task_available : prog S bool :=
  do down <- pload shuttingDown;
  if down : bool then Ret true else pload has_task.

Definition waitForTask (me : nat) : prog S bool :=
  iter fuel (fun _ => do b <- task_available;
    if b : bool then Ret (inr tt) else cv_wait me ;;; Ret (inl tt)) tt ;;;
  pload has_task.

(** Move the front task out of a queue that has one, under the mutex. *)
Definition pop : prog S (option T) :=
  act (fun s => let p := lget l s in
    (head (taskQueue p), lset l (set_queue (tail (taskQueue p)) p) s)).

(** [None]: no task, the worker leaves its loop. *)
Definition tryDequeueTask (me : nat) : prog S (option T) :=
  lock ;;;
  do b <- pload has_task;
  do ready <- (if b : bool then Ret true else waitForTask me);
  if ready : bool then do t <- pop; unlock ;;; Ret t
  else unlock ;;; Ret None.

Definition drain_round : prog S (unit + unit) :=
  do b <- pload has_task;
  if b : bool then
    do t <- pop;
    unlock ;;;
    match t with Some t => exec t | None => Ret tt end ;;;
    lock ;;;
    Ret (inl tt)
  else Ret (inr tt).
Definition executeDrainPhase : prog S unit :=
  lock ;;; iter fuel (fun _ => drain_round) tt ;;; unlock.

Definition worker_round (me : nat) : prog S (unit + unit) :=
  do down <- pload shuttingDown;
  if down : bool then Ret (inr tt) else
  do t <- tryDequeueTask me;
  match t with
  | None => Ret (inr tt)
  | Some t => exec t ;;; Ret (inl tt)
  end.
(** The thread function; the last step is the end of the thread, which [join] waits for. *)
Definition runWorkerLoop (me : nat) : prog S unit :=
  iter fuel (fun _ => worker_round me) tt ;;;
  executeDrainPhase ;;;
  pstore (add_finished me).

Definition enqueue (t : T) : prog S enqueue_result :=
  lock ;;;
  do down <- pload shuttingDown;
  if down : bool then unlock ;;; Ret ThrowsShutdown else
  do n <- pload threads;
  if (n =? 0)%nat then unlock ;;; Ret ThrowsNoThreads else
  pstore (fun p => set_queue (taskQueue p ++ [t]) p) ;;;
  unlock ;;;
  notify_one ;;;
  Ret Queued.

Definition join_round (i : nat) : prog S (unit + unit) :=
  do fs <- pload finished;
  Ret (if bool_decide (i ∈ fs) then inr tt else inl tt).
Definition join (i : nat) : prog S unit := iter fuel (fun _ => join_round i) tt.
Definition destroy : prog S unit :=
  pstore set_shutting ;;;
  notify_all ;;;
  do n <- pload threads;
  for_each (seq 0 n) join.
End Model.

(** The constructor, which starts [n] workers. *)
Definition create {T} (n : nat) : pool_state T := Pool [] false [] false n [].
End ThreadPool.

(** * A pool in use

    The state is a pool and the log its tasks write: running the task [t] appends [t]. *)

Record pool_world (T : Type) : Type := PoolWorld { w_pool : pool_state T; w_log : list T }.
Arguments PoolWorld {T}.
Arguments w_pool {T}.
Arguments w_log {T}.

Definition l_pool {T} : lens (pool_world T) (pool_state T) :=
  Lens w_pool (fun p w => PoolWorld p (w_log w)).
#[global] Instance l_pool_laws {T} : LensLaws (@l_pool T).
Proof. split; [done|done|by intros []]. Qed.

Definition log_task {T} (t : T) : prog (pool_world T) unit :=
  store (fun w => PoolWorld (w_pool w) (w_log w ++ [t])).

(** The threads around a pool: its workers, clients that submit a task, its owner. *)
Inductive pool_role (T : Type) : Type := Worker (me : nat) | Client (t : T) | Owner.
Arguments Worker {T}.
Arguments Client {T}.
Arguments Owner {T}.
Inductive pool_res (T : Type) : Type := Left | Submitted (t : T) (r : enqueue_result).
Arguments Left {T}.
Arguments Submitted {T}.

Definition pool_thread {T} (fuel : nat) (r : pool_role T) : prog (pool_world T) (pool_res T) :=
  match r with
  | Worker me => ThreadPool.runWorkerLoop l_pool log_task fuel me ;;; Ret Left
  | Client t => do e <- ThreadPool.enqueue l_pool fuel t; Ret (Submitted t e)
  | Owner => ThreadPool.destroy l_pool fuel ;;; Ret Left
  end.

(** The task of a submission that was accepted. *)
Definition accepted {T} (r : pool_res T) : option T :=
  match r with Submitted t Queued => Some t | _ => None end.

Section Contract.
Context {T : Type}.
Variable roles : list (pool_role T).
#[local] Abbreviation n := (length roles).
Implicit Types (w : pool_world T) (t : T).

(** Who holds the mutex, whether the holder has seen the pool open, the tasks that are
    running and those that were accepted, by thread. *)
Record pool_ghost : Type := PoolGhost {
  g_owner : option nat; g_checked : bool; g_run : gmap nat T; g_acc : gmap nat T }.
Implicit Types g : pool_ghost.

Definition vals (m : gmap nat T) : list T := (map_to_list m).*2.

Record pool_inv w g : Prop := {
  pi_owner : mtx (w_pool w) = bool_decide (is_Some (g_owner g));
  pi_tasks : vals (g_acc g) ≡ₚ w_log w ++ vals (g_run g) ++ taskQueue (w_pool w);
  pi_index : forall i, (n <= i)%nat -> g_run g !! i = None;
  pi_client : forall i t, g_acc g !! i = Some t -> roles !! i = Some (Client t) }.

(** Shutting down, with nothing queued and nobody about to queue anything. *)
Definition closed w g : Prop :=
  shuttingDown (w_pool w) = true /\ taskQueue (w_pool w) = [] /\ g_checked g = false.

Record pool_guar (i : nat) (x y : pool_world T * pool_ghost) : Prop := {
  pg_held : forall j, g_owner x.2 = Some j -> j <> i ->
    g_owner y.2 = Some j /\ taskQueue (w_pool y.1) = taskQueue (w_pool x.1) /\
    g_checked y.2 = g_checked x.2;
  pg_other : forall j, j <> i -> g_run y.2 !! j = g_run x.2 !! j /\ g_acc y.2 !! j = g_acc x.2 !! j;
  pg_down : shuttingDown (w_pool x.1) = true -> shuttingDown (w_pool y.1) = true;
  pg_closed : closed x.1 x.2 -> closed y.1 y.2 }.

#[local] Abbreviation psafe := (safe any_answer pool_inv pool_guar).
#[local] Abbreviation pstable := (stable pool_inv pool_guar).

(** What thread [i] knows of its own tasks. *)
Definition mine (i : nat) (r a : option T) w g : Prop := g_run g !! i = r /\ g_acc g !! i = a.
(** Thread [i] holds the mutex. *)
Definition holds (i : nat) (c : bool) w g : Prop := g_owner g = Some i /\ g_checked g = c.
Definition queued (b : bool) w g : Prop := has_task (w_pool w) = b.
Definition down w g : Prop := shuttingDown (w_pool w) = true.

Lemma mine_stable i r a : pstable i (mine i r a).
Proof.
  intros w g w' g' [Hr Ha] (j & Hj & [_ Ho _ _] & _). cbn in *. destruct (Ho i); [done|].
  split; congruence.
Qed.

Lemma holds_stable i c : pstable i (holds i c).
Proof.
  intros w g w' g' [Hr Ha] (j & Hj & [Ho _ _ _] & _). cbn in *. destruct (Ho i) as (? & _ & ?); [done|done|].
  split; congruence.
Qed.

Lemma queued_stable i c b : pstable i (fun w g => holds i c w g /\ queued b w g).
Proof.
  intros w g w' g' [Hh Hq] Hr. assert (Hh' := holds_stable i c w g w' g' Hh Hr). split; [done|].
  destruct Hr as (j & Hj & [Ho _ _ _] & _). destruct Hh as [Hh _]. cbn in *.
  destruct (Ho i Hh) as (_ & He & _); [done|]. unfold queued, has_task in *. by rewrite He.
Qed.

Lemma down_stable i : pstable i down.
Proof. intros w g w' g' H (j & Hj & [] & _). by apply pg_down0. Qed.

Lemma closed_stable i : pstable i closed.
Proof. intros w g w' g' H (j & Hj & [] & _). by apply pg_closed0. Qed.

Lemma both_stable i P Q : pstable i P -> pstable i Q -> pstable i (fun w g => P w g /\ Q w g).
Proof. intros HP HQ w g w' g' [H1 H2] Hr. split; eauto. Qed.

(** How far the shutdown has come, as far as thread [i] knows. *)
Inductive phase : Set := PhOpen | PhDown | PhClosed.
Definition known (ph : phase) w g : Prop :=
  match ph with PhOpen => True | PhDown => down w g | PhClosed => closed w g end.
Definition ctx (i : nat) (r a : option T) (ph : phase) w g : Prop := mine i r a w g /\ known ph w g.

Lemma known_stable i ph : pstable i (known ph).
Proof. destruct ph; [done|apply down_stable|apply closed_stable]. Qed.

Lemma ctx_stable i r a ph : pstable i (ctx i r a ph).
Proof. apply both_stable; [apply mine_stable|apply known_stable]. Qed.

Lemma held_stable i c r a ph : pstable i (fun w g => holds i c w g /\ ctx i r a ph w g).
Proof. apply both_stable; [apply holds_stable|apply ctx_stable]. Qed.

Lemma held_queued_stable i c b r a ph :
  pstable i (fun w g => (holds i c w g /\ queued b w g) /\ ctx i r a ph w g).
Proof. apply both_stable; [apply queued_stable|apply ctx_stable]. Qed.

Lemma guar_same i w g : pool_guar i (w, g) (w, g).
Proof. by split. Qed.

(** An access that leaves the mutex, the queue, the flag and the log alone. *)
Lemma inert_step i w w' g :
  mtx (w_pool w') = mtx (w_pool w) -> taskQueue (w_pool w') = taskQueue (w_pool w) ->
  shuttingDown (w_pool w') = shuttingDown (w_pool w) -> w_log w' = w_log w ->
  pool_inv w g -> pool_inv w' g /\ pool_guar i (w, g) (w', g).
Proof.
  intros Hm Hq Hs Hl []. split.
  - split; [by rewrite Hm|by rewrite Hl, Hq|done|done].
  - split; cbn; [auto|auto|by rewrite Hs|]. unfold closed. by rewrite Hs, Hq.
Qed.

Lemma inert_ctx i r a ph w w' g :
  taskQueue (w_pool w') = taskQueue (w_pool w) ->
  shuttingDown (w_pool w') = shuttingDown (w_pool w) -> ctx i r a ph w g -> ctx i r a ph w' g.
Proof.
  intros Hq Hs [Hm Hk]. split; [done|]. destruct ph; cbn in *; [done| |]; unfold down, closed in *;
    by rewrite ?Hq, Hs.
Qed.

(** Taking the mutex. *)
Lemma pool_take_step i r a ph w g :
  pool_inv w g -> mtx (w_pool w) = false -> ctx i r a ph w g ->
  let w' := PoolWorld (set_mtx true (w_pool w)) (w_log w) in
  let g' := PoolGhost (Some i) false (g_run g) (g_acc g) in
  pool_inv w' g' /\ pool_guar i (w, g) (w', g') /\ holds i false w' g' /\ ctx i r a ph w' g'.
Proof.
  intros [Ho Ht Hi Hcl] Hm [Hc Hk] w' g'. rewrite Hm in Ho. symmetry in Ho.
  apply bool_decide_eq_false in Ho. split_and!.
  - split; [|done|done|done]. change (true = bool_decide (is_Some (Some i))). by rewrite bool_decide_true.
  - split; cbn; [|done|done|].
    + intros j Hj. rewrite Hj in Ho. destruct Ho. by eexists.
    + intros (? & ? & ?). done.
  - done.
  - split; [done|]. destruct ph; cbn in *; [done|done|]. destruct Hk as (? & ? & _). done.
Qed.

(** Giving it back, whatever was learnt meanwhile. *)
Lemma give_step i c r a ph w g f :
  taskQueue (f (w_pool w)) = taskQueue (w_pool w) ->
  shuttingDown (f (w_pool w)) = shuttingDown (w_pool w) -> mtx (f (w_pool w)) = false ->
  pool_inv w g -> holds i c w g -> ctx i r a ph w g ->
  let w' := PoolWorld (f (w_pool w)) (w_log w) in
  let g' := PoolGhost None false (g_run g) (g_acc g) in
  pool_inv w' g' /\ pool_guar i (w, g) (w', g') /\ ctx i r a ph w' g'.
Proof.
  intros Hq Hs Hf [Ho Ht Hi Hcl] [Hh _] [Hc Hk] w' g'. split_and!.
  - split; [|cbn; by rewrite Hq|done|done]. change (mtx (f (w_pool w)) = bool_decide (is_Some (@None nat))).
    rewrite Hf. symmetry. apply bool_decide_eq_false. by intros [].
  - split; cbn; [|done|by rewrite Hs|].
    + intros j Hj Hne. congruence.
    + unfold closed. cbn. rewrite Hs, Hq. intros (? & ? & _). done.
  - split; [done|]. destruct ph; cbn in *; [done| |]; unfold down, closed in *; cbn; rewrite ?Hq, Hs; [done|].
    destruct Hk as (? & ? & _). done.
Qed.

(** ** The operations *)

#[local] Abbreviation lk := (ThreadPool.lock l_pool).

Lemma safe_lock i fuel r a ph w g :
  pool_inv w g -> ctx i r a ph w g ->
  psafe i (lk fuel) (fun _ w g => holds i false w g /\ ctx i r a ph w g) w g.
Proof.
  intros HI HC. unfold ThreadPool.lock.
  apply (safe_iter any_answer pool_inv pool_guar i _ (fun _ => ctx i r a ph)); [|intros _; apply held_stable|done|done].
  clear w g HI HC. intros _ w g HI HC. unfold ThreadPool.lock_round, act.
  eapply safe_act; [apply ctx_stable|exact HC|]. clear w g HI HC. intros w g HI HC. cbn.
  destruct (mtx (w_pool w)) eqn:Hm; cbn.
  - exists g. split_and!; [done|apply guar_same|]. by apply safe_ret; [apply ctx_stable|].
  - destruct (pool_take_step i r a ph w g HI Hm HC) as (? & ? & ? & ?). eexists. split_and!; [done|done|].
    by apply safe_ret; [apply held_stable|].
Qed.

Lemma safe_unlock i c r a ph w g :
  holds i c w g /\ ctx i r a ph w g ->
  psafe i (ThreadPool.unlock l_pool) (fun _ => ctx i r a ph) w g.
Proof.
  intros HC. unfold ThreadPool.unlock, ThreadPool.pstore, store, act.
  eapply safe_act; [apply held_stable|exact HC|]. clear w g HC. intros w g HI [HH HC]. cbn.
  destruct (give_step i c r a ph w g (set_mtx false)) as (? & ? & ?); [done..|].
  eexists. split_and!; [done|done|]. by apply safe_ret; [apply ctx_stable|].
Qed.

(** A load under any stable assertion [P], with what it tells about the state. *)
Lemma safe_pload {B} i (f : pool_state T -> B) P Q w g :
  pstable i P -> P w g -> (forall b, pstable i (Q b)) ->
  (forall w g, pool_inv w g -> P w g -> Q (f (w_pool w)) w g) ->
  psafe i (ThreadPool.pload l_pool f) Q w g.
Proof.
  intros HP Hw HQ Hf. unfold ThreadPool.pload, load, act.
  eapply safe_read; [done|intros []; apply guar_same|exact HP|done|]. clear w g Hw. intros w g HI Hw. cbn.
  apply safe_ret; [apply HQ|auto].
Qed.

(** Inert stores, such as notifications. *)
Lemma safe_inert i f r a ph w g :
  (forall p : pool_state T, taskQueue (f p) = taskQueue p /\ mtx (f p) = mtx p /\ shuttingDown (f p) = shuttingDown p) ->
  ctx i r a ph w g -> psafe i (ThreadPool.pstore l_pool f) (fun _ => ctx i r a ph) w g.
Proof.
  intros Hf HC. unfold ThreadPool.pstore, store, act. eapply safe_act; [apply ctx_stable|exact HC|].
  clear w g HC. intros w g HI HC. cbn. destruct (Hf (w_pool w)) as (Hq & Hm & Hs).
  destruct (inert_step i w (PoolWorld (f (w_pool w)) (w_log w)) g) as [? ?]; [done..|].
  exists g. split_and!; [done|done|]. apply safe_ret; [apply ctx_stable|]. by eapply inert_ctx; [..|exact HC].
Qed.

Lemma vals_insert (m : gmap nat T) i t : m !! i = None -> vals (<[i := t]> m) ≡ₚ t :: vals m.
Proof. intros Hi. unfold vals. by rewrite map_to_list_insert. Qed.
Lemma vals_delete (m : gmap nat T) i t : m !! i = Some t -> t :: vals (delete i m) ≡ₚ vals m.
Proof. intros Hi. rewrite <- vals_insert by apply lookup_delete_eq. by rewrite insert_delete_id. Qed.

(** Taking the front task: it is now running. *)
Lemma safe_pop i a ph w g :
  (i < n)%nat -> (holds i false w g /\ queued true w g) /\ ctx i None a ph w g ->
  psafe i (ThreadPool.pop l_pool)
    (fun o w g => exists t', o = Some t' /\ holds i false w g /\ ctx i (Some t') a PhOpen w g) w g.
Proof.
  intros Hn HC. unfold ThreadPool.pop, act. eapply safe_act; [apply held_queued_stable|exact HC|].
  clear w g HC. intros w g [Ho Ht Hi Hcl] ([[Hh Hc] Hq] & [Hr Ha] & _). unfold queued, has_task in Hq.
  cbn. destruct (taskQueue (w_pool w)) as [|t q] eqn:Eq; [done|]. cbn.
  exists (PoolGhost (Some i) false (<[i := t]> (g_run g)) (g_acc g)). split_and!.
  - split; [by rewrite Hh in Ho| | |done].
    + cbn. rewrite Ht, vals_insert by done. cbn. solve_Permutation.
    + intros j Hj. cbn. rewrite lookup_insert_ne by lia. auto.
  - split; cbn; [congruence| |done|].
    + intros j Hj. by rewrite lookup_insert_ne by done.
    + intros (_ & He & _). cbn in He. congruence.
  - apply safe_ret.
    + intros w1 g1 w2 g2 (t' & He & Hx) Hrel. exists t'. split; [done|].
      by eapply (held_stable i false (Some t') a PhOpen).
    + exists t. split; [done|]. split; [done|]. split; [|done]. split; cbn; [apply lookup_insert_eq|done].
Qed.

(** Running a task. *)
Lemma safe_exec i t a ph w g :
  (i < n)%nat -> ctx i (Some t) a ph w g -> psafe i (log_task t) (fun _ => ctx i None a ph) w g.
Proof.
  intros Hn HC. unfold log_task, store, act. eapply safe_act; [apply ctx_stable|exact HC|].
  clear w g HC. intros w g [Ho Ht Hi Hcl] [[Hr Ha] Hk]. cbn.
  exists (PoolGhost (g_owner g) (g_checked g) (delete i (g_run g)) (g_acc g)). split_and!.
  - split; [done| | |done].
    + cbn. rewrite Ht, <- (vals_delete (g_run g) i t) by done. solve_Permutation.
    + intros j Hj. cbn. rewrite lookup_delete_ne by lia. auto.
  - split; cbn; [done| |done|done]. intros j Hj. by rewrite lookup_delete_ne by done.
  - apply safe_ret; [apply ctx_stable|]. split; [split; [apply lookup_delete_eq|done]|].
    by destruct ph.
Qed.

(** Waiting: when it ends with an empty queue the pool is shutting down. *)
Definition ready (i : nat) (a : option T) (b : bool) w g : Prop :=
  (holds i false w g /\ queued b w g) /\ ctx i None a (if b then PhOpen else PhDown) w g.

Lemma ready_stable i a b : pstable i (ready i a b).
Proof. apply held_queued_stable. Qed.

Lemma safe_wait_round i me r a ph w g :
  ctx i r a ph w g ->
  psafe i (ThreadPool.wait_round l_pool me) (fun _ => ctx i r a ph) w g.
Proof.
  intros HC. unfold ThreadPool.wait_round, ask, act. cbn [bind]. apply safe_ask. intros z.
  eapply safe_act; [apply ctx_stable|exact HC|]. clear w g HC. intros w g HI HC. cbn.
  case_bool; cbn.
  - exists g. split_and!; [done|apply guar_same|]. by apply safe_ret; [apply ctx_stable|].
  - match goal with |- context [PoolWorld ?p' _] =>
      destruct (inert_step i w (PoolWorld p' (w_log w)) g) as [? ?]; [done..|] end.
    exists g. split_and!; [done|done|]. apply safe_ret; [apply ctx_stable|]. by eapply inert_ctx; [..|exact HC].
Qed.

Lemma safe_cv_wait i fuel me c r a ph w g :
  pool_inv w g -> holds i c w g /\ ctx i r a ph w g ->
  psafe i (ThreadPool.cv_wait l_pool fuel me) (fun _ w g => holds i false w g /\ ctx i r a ph w g) w g.
Proof.
  intros HI HC. unfold ThreadPool.cv_wait.
  apply safe_bind with (Q := fun _ => ctx i r a ph); [done| |].
  - unfold ThreadPool.pstore, store, act. eapply safe_act; [apply held_stable|exact HC|].
    clear w g HC HI. intros w g HI [HH HC]. cbn.
    destruct (give_step i c r a ph w g (fun p => set_waiting (waiting p ++ [me]) (set_mtx false p)))
      as (? & ? & ?); [done..|]. eexists. split_and!; [done|done|]. by apply safe_ret; [apply ctx_stable|].
  - clear w g HC HI. intros _ w g HI HC. apply safe_bind with (Q := fun _ => ctx i r a ph); [done| |].
    + apply (safe_iter any_answer pool_inv pool_guar i _ (fun _ => ctx i r a ph));
        [|intros _; apply ctx_stable|done|done].
      clear w g HC HI. intros _ w g HI HC. eapply safe_mono; [by apply safe_wait_round|].
      by intros [[]|[]].
    + clear w g HC HI. intros _ w g HI HC. by apply safe_lock.
Qed.

Lemma safe_task_available i a w g :
  pool_inv w g -> holds i false w g /\ ctx i None a PhOpen w g ->
  psafe i (ThreadPool.task_available l_pool) (fun b w g => if b then exists b', ready i a b' w g
    else holds i false w g /\ ctx i None a PhOpen w g) w g.
Proof.
  intros HI HC. unfold ThreadPool.task_available.
  apply safe_bind with (Q := fun b w g => if b : bool then holds i false w g /\ ctx i None a PhDown w g
    else holds i false w g /\ ctx i None a PhOpen w g); [done| |].
  - apply safe_pload with (P := fun w g => holds i false w g /\ ctx i None a PhOpen w g);
      [apply held_stable|done|intros []; apply held_stable|].
    clear. intros w g HI (HH & HM & _). destruct (shuttingDown (w_pool w)) eqn:Es; by split.
  - clear w g HI HC. intros [] w g HI HC.
    + apply safe_ret.
      * intros w1 g1 w2 g2 [b Hb] Hr. exists b. by eapply ready_stable.
      * destruct HC as (HH & HM & HD). exists (has_task (w_pool w)). split; [by split|].
        destruct (has_task (w_pool w)); by split.
    + apply safe_pload with (P := fun w g => holds i false w g /\ ctx i None a PhOpen w g);
        [apply held_stable|done| |].
      * intros []; [|apply held_stable]. intros w1 g1 w2 g2 [b Hb] Hr. exists b. by eapply ready_stable.
      * clear. intros w g HI HC. destruct (has_task (w_pool w)) eqn:Eh; [|done]. exists true.
        destruct HC. by split.
Qed.

Lemma safe_has_task i a w g :
  (exists b, ready i a b w g) ->
  psafe i (ThreadPool.pload l_pool has_task) (ready i a) w g.
Proof.
  intros HC. apply safe_pload with (P := fun w g => exists b, ready i a b w g); [|done|apply ready_stable|].
  - intros w1 g1 w2 g2 [b Hb] Hr. exists b. by eapply ready_stable.
  - clear. intros w g HI (b & (HH & HQ) & HC). unfold queued in HQ. subst b. by split.
Qed.

Lemma safe_waitForTask i fuel me a w g :
  pool_inv w g -> holds i false w g /\ ctx i None a PhOpen w g ->
  psafe i (ThreadPool.waitForTask l_pool fuel me) (ready i a) w g.
Proof.
  intros HI HC. unfold ThreadPool.waitForTask.
  apply safe_bind with (Q := fun _ w g => exists b, ready i a b w g); [done| |].
  - apply (safe_iter any_answer pool_inv pool_guar i _
      (fun _ w g => holds i false w g /\ ctx i None a PhOpen w g)); [| |done|done].
    + clear w g HI HC. intros _ w g HI HC.
      eapply safe_bind; [done|by apply safe_task_available|]. clear w g HI HC. intros [] w g HI HC.
      * apply safe_ret; [|done]. intros w1 g1 w2 g2 [b Hb] Hr. exists b. by eapply ready_stable.
      * eapply safe_bind; [done|by apply (safe_cv_wait i fuel me false None a PhOpen)|].
        clear w g HI HC. intros [] w g HI HC.
        by apply safe_ret; [apply held_stable|].
    + intros _ w1 g1 w2 g2 [b Hb] Hr. exists b. by eapply ready_stable.
  - clear w g HI HC. intros _ w g HI HC. by apply safe_has_task.
Qed.

(** A worker that gets no task knows that the pool is shutting down. *)
Definition dequeued (i : nat) (a : option T) (o : option T) w g : Prop :=
  match o with Some t => ctx i (Some t) a PhOpen w g | None => ctx i None a PhDown w g end.

Lemma safe_tryDequeueTask i fuel me a w g :
  (i < n)%nat -> pool_inv w g -> ctx i None a PhOpen w g ->
  psafe i (ThreadPool.tryDequeueTask l_pool fuel me) (dequeued i a) w g.
Proof.
  intros Hn HI HC. unfold ThreadPool.tryDequeueTask.
  eapply safe_bind; [done|by apply safe_lock|]. clear w g HI HC. intros [] w g HI HC.
  apply safe_bind with (Q := fun b w g => (holds i false w g /\ queued b w g) /\ ctx i None a PhOpen w g); [done| |].
  { apply safe_pload with (P := fun w g => holds i false w g /\ ctx i None a PhOpen w g);
      [apply held_stable|done|intros b; apply held_queued_stable|].
    clear. intros w g HI [HH HC]. by split. }
  clear w g HI HC. intros b w g HI [[HH HQ] HC]. apply safe_bind with (Q := ready i a); [done| |].
  { destruct b; [|by apply safe_waitForTask]. apply safe_ret; [apply ready_stable|by split]. }
  clear b w g HI HH HQ HC. intros [] w g HI HC.
  - eapply safe_bind; [done|by apply (safe_pop i a PhOpen)|]. clear w g HI HC.
    intros o w g HI (t & -> & HH & HC).
    eapply safe_bind; [done|by apply (safe_unlock i false (Some t) a PhOpen)|].
    clear w g HI HH HC. intros [] w g HI HC. by apply safe_ret; [apply ctx_stable|].
  - destruct HC as [[HH _] HC].
    eapply safe_bind; [done|by apply (safe_unlock i false None a PhDown)|].
    clear w g HI HH HC. intros [] w g HI HC. by apply safe_ret; [apply ctx_stable|].
Qed.

Lemma safe_drain i fuel a w g :
  (i < n)%nat -> pool_inv w g -> ctx i None a PhDown w g ->
  psafe i (ThreadPool.executeDrainPhase l_pool log_task fuel) (fun _ => ctx i None a PhClosed) w g.
Proof.
  intros Hn HI HC. unfold ThreadPool.executeDrainPhase.
  eapply safe_bind; [done|by apply safe_lock|]. clear w g HI HC. intros [] w g HI HC.
  apply safe_bind with (Q := fun _ w g => holds i false w g /\ ctx i None a PhClosed w g); [done| |].
  - apply (safe_iter any_answer pool_inv pool_guar i _
      (fun _ w g => holds i false w g /\ ctx i None a PhDown w g)); [|intros _; apply held_stable|done|done].
    clear w g HI HC. intros _ w g HI HC. unfold ThreadPool.drain_round.
    apply safe_bind with (Q := fun b w g => (holds i false w g /\ queued b w g) /\ ctx i None a PhDown w g); [done| |].
    { apply safe_pload with (P := fun w g => holds i false w g /\ ctx i None a PhDown w g);
        [apply held_stable|done|intros b; apply held_queued_stable|].
      clear. intros w g HI [HH HC]. by split. }
    clear w g HI HC. intros [] w g HI HC.
    + assert (HD : down w g) by apply HC.
      apply safe_bind with (Q := fun o w g => (exists t, o = Some t /\ holds i false w g /\ ctx i (Some t) a PhOpen w g) /\
        down w g); [done| |].
      { eapply safe_frame; [|exact HD|by eapply safe_pop].
        intros j w1 g1 w2 g2 [] _ H. by apply pg_down0. }
      clear w g HI HC HD. intros o w g HI [(t & -> & HH & [HM _]) HD].
      eapply safe_bind; [done|apply (safe_unlock i false (Some t) a PhDown); by split_and!|].
      clear w g HI HH HM HD. intros [] w g HI HC.
      eapply safe_bind; [done|by eapply safe_exec|]. clear w g HI HC. intros [] w g HI HC.
      eapply safe_bind; [done|by apply safe_lock|]. clear w g HI HC. intros [] w g HI HC.
      by apply safe_ret; [apply held_stable|].
    + apply safe_ret; [apply held_stable|]. destruct HC as [[HH HQ] [HM HD]]. split; [done|]. split; [done|].
      split; [done|]. split; [|apply HH]. unfold queued, has_task in HQ. by destruct (taskQueue (w_pool w)).
  - clear w g HI HC. intros [] w g HI HC. by eapply safe_unlock.
Qed.

(** What is known when a thread has returned. *)
Definition left_with (i : nat) (r : pool_role T) (x : pool_res T) w g : Prop :=
  ctx i None (accepted x) (match r with Worker _ => PhClosed | _ => PhOpen end) w g /\
  (match r with Client t => exists e, x = Submitted t e | _ => x = Left end).

Lemma left_stable i r x : pstable i (left_with i r x).
Proof. apply both_stable; [apply ctx_stable|]. by intros ? ? ? ? H _. Qed.

Lemma safe_worker i fuel me w g :
  (i < n)%nat -> pool_inv w g -> ctx i None None PhOpen w g ->
  psafe i (pool_thread fuel (Worker me)) (left_with i (Worker me)) w g.
Proof.
  intros Hn HI HC. cbn [pool_thread]. apply safe_bind with (Q := fun _ => ctx i None None PhClosed); [done| |].
  2:{ clear w g HI HC. intros [] w g HI HC. apply safe_ret; [apply left_stable|by split]. }
  unfold ThreadPool.runWorkerLoop. apply safe_bind with (Q := fun _ => ctx i None None PhDown); [done| |].
  - apply (safe_iter any_answer pool_inv pool_guar i _ (fun _ => ctx i None None PhOpen));
      [|intros _; apply ctx_stable|done|done].
    clear w g HI HC. intros _ w g HI HC. unfold ThreadPool.worker_round.
    apply safe_bind with (Q := fun b => ctx i None None (if b : bool then PhDown else PhOpen)); [done| |].
    { apply safe_pload with (P := ctx i None None PhOpen); [apply ctx_stable|done|intros; apply ctx_stable|].
      clear. intros w g HI [HM _]. destruct (shuttingDown (w_pool w)) eqn:Es; by split. }
    clear w g HI HC. intros [] w g HI HC; [by apply safe_ret; [apply ctx_stable|]|].
    eapply safe_bind; [done|by apply safe_tryDequeueTask|]. clear w g HI HC. intros [t|] w g HI HC.
    + eapply safe_bind; [done|by eapply safe_exec|]. clear w g HI HC. intros [] w g HI HC.
      by apply safe_ret; [apply ctx_stable|].
    + by apply safe_ret; [apply ctx_stable|].
  - clear w g HI HC. intros [] w g HI HC. eapply safe_bind; [done|by apply safe_drain|].
    clear w g HI HC. intros [] w g HI HC. by apply safe_inert.
Qed.

(** Storing the task: the thread's own entry of the accepted tasks. *)
Lemma safe_submit i t w g :
  roles !! i = Some (Client t) -> holds i true w g /\ ctx i None None PhOpen w g ->
  psafe i (ThreadPool.pstore l_pool (fun p => set_queue (taskQueue p ++ [t]) p))
    (fun _ w g => holds i true w g /\ ctx i None (Some t) PhOpen w g) w g.
Proof.
  intros Hn HC. unfold ThreadPool.pstore, store, act. eapply safe_act; [apply held_stable|exact HC|].
  clear w g HC. intros w g [Ho Ht Hi Hcl] [[Hh Hc] [[Hr Ha] _]]. cbn.
  exists (PoolGhost (g_owner g) (g_checked g) (g_run g) (<[i := t]> (g_acc g))). split_and!.
  - split; [done| |done|].
    + cbn. rewrite vals_insert, Ht by done. solve_Permutation.
    + intros j t' Hj. cbn in Hj. apply lookup_insert_Some in Hj as [[<- <-]|[_ Hj]]; [done|auto].
  - split; cbn; [congruence| |done|].
    + intros j Hj. by rewrite lookup_insert_ne by done.
    + intros (_ & _ & He). cbn in He. congruence.
  - apply safe_ret; [apply held_stable|]. split; [done|]. split; [|done]. split; cbn; [done|apply lookup_insert_eq].
Qed.

Lemma safe_client i fuel t w g :
  roles !! i = Some (Client t) -> pool_inv w g -> ctx i None None PhOpen w g ->
  psafe i (pool_thread fuel (Client t)) (left_with i (Client t)) w g.
Proof.
  intros Hn HI HC. cbn [pool_thread].
  apply safe_bind with (Q := fun e => ctx i None (accepted (Submitted t e)) PhOpen); [done| |].
  2:{ clear w g HI HC. intros e w g HI HC. apply safe_ret; [apply left_stable|]. split; [done|]. by exists e. }
  unfold ThreadPool.enqueue. eapply safe_bind; [done|by apply safe_lock|]. clear w g HI HC. intros [] w g HI HC.
  apply safe_bind with (Q := fun b w g => holds i (negb b) w g /\ ctx i None None PhOpen w g); [done| |].
  { unfold ThreadPool.pload, load, act. eapply safe_act; [apply held_stable|exact HC|].
    clear w g HI HC. intros w g HI [[Hh Hc] HC]. cbn. destruct (shuttingDown (w_pool w)) eqn:Es.
    - exists g. split_and!; [done|apply guar_same|]. by apply safe_ret; [apply held_stable|].
    - exists (PoolGhost (g_owner g) true (g_run g) (g_acc g)). destruct HI. split_and!; [done| |].
      + split; cbn; [congruence|done|done|]. intros (He & _). cbn in He. congruence.
      + apply safe_ret; [apply held_stable|]. by destruct HC. }
  clear w g HI HC. intros [] w g HI HC; cbn [negb] in HC.
  { eapply safe_bind; [done|by eapply safe_unlock|]. clear w g HI HC. intros [] w g HI HC.
    by apply safe_ret; [apply ctx_stable|]. }
  apply safe_bind with (Q := fun _ w g => holds i true w g /\ ctx i None None PhOpen w g); [done| |].
  { apply safe_pload with (P := fun w g => holds i true w g /\ ctx i None None PhOpen w g);
      [apply held_stable|done|intros _; apply held_stable|done]. }
  clear w g HI HC. intros m w g HI HC. case_bool.
  { eapply safe_bind; [done|by eapply safe_unlock|]. clear w g HI HC. intros [] w g HI HC.
    by apply safe_ret; [apply ctx_stable|]. }
  eapply safe_bind; [done|by apply safe_submit|]. clear w g HI HC. intros [] w g HI HC.
  eapply safe_bind; [done|by eapply safe_unlock|]. clear w g HI HC. intros [] w g HI HC.
  eapply safe_bind; [done| |].
  - unfold ThreadPool.notify_one, ask. cbn [bind]. apply safe_ask. intros z. by apply safe_inert.
  - clear w g HI HC. intros [] w g HI HC. by apply safe_ret; [apply ctx_stable|].
Qed.

Lemma safe_owner i fuel w g :
  (i < n)%nat -> pool_inv w g -> ctx i None None PhOpen w g ->
  psafe i (pool_thread fuel Owner) (left_with i Owner) w g.
Proof.
  intros Hn HI HC. cbn [pool_thread]. apply safe_bind with (Q := fun _ => ctx i None None PhOpen); [done| |].
  2:{ clear w g HI HC. intros [] w g HI HC. apply safe_ret; [apply left_stable|by split]. }
  unfold ThreadPool.destroy. apply safe_bind with (Q := fun _ => ctx i None None PhOpen); [done| |].
  { unfold ThreadPool.pstore, store, act. eapply safe_act; [apply ctx_stable|exact HC|].
    clear w g HI HC. intros w g [] HC. exists g. split_and!; [by split| |].
    - split; cbn; [done|done|done|]. by intros (_ & ? & ?).
    - apply safe_ret; [apply ctx_stable|exact HC]. }
  clear w g HI HC. intros [] w g HI HC. eapply safe_bind; [done|by apply safe_inert|].
  clear w g HI HC. intros [] w g HI HC. eapply safe_bind; [done| |].
  { apply safe_pload with (P := ctx i None None PhOpen) (Q := fun _ => ctx i None None PhOpen);
      [apply ctx_stable|done|intros; apply ctx_stable|done]. }
  clear w g HI HC. intros m w g HI HC. revert w g HI HC. induction (seq 0 m) as [|k ks IH]; intros w g HI HC; cbn.
  { by apply safe_ret; [apply ctx_stable|]. }
  eapply safe_bind; [done| |].
  { unfold ThreadPool.join. apply (safe_iter any_answer pool_inv pool_guar i _ (fun _ => ctx i None None PhOpen)
      (fun _ => ctx i None None PhOpen)); [|intros _; apply ctx_stable|done|done].
    clear w g HI HC. intros _ w g HI HC. unfold ThreadPool.join_round. eapply safe_bind; [done| |].
    - apply safe_pload with (P := ctx i None None PhOpen) (Q := fun _ => ctx i None None PhOpen);
        [apply ctx_stable|done|intros; apply ctx_stable|done].
    - clear w g HI HC. intros fs w g HI HC. apply safe_ret; [|by case_bool].
      case_bool; apply ctx_stable. }
  clear w g HI HC. intros [] w g HI HC. by apply IH.
Qed.

Lemma pool_init k fuel :
  pool_safe any_answer pool_inv pool_guar
    (fun i x w g => exists r, roles !! i = Some r /\ left_with i r x w g)
    (PoolWorld (ThreadPool.create k) [], pool_thread fuel <$> roles) (PoolGhost None false ∅ ∅).
Proof.
  assert (HI : pool_inv (PoolWorld (ThreadPool.create k) []) (PoolGhost None false ∅ ∅)).
  { split; [done| |done|done]. cbn. unfold vals. by rewrite map_to_list_empty. }
  split; [done|]. intros i p Hp. cbn [snd] in Hp. rewrite list_lookup_fmap in Hp.
  destruct (roles !! i) as [r|] eqn:Er; [|done]. injection Hp as <-.
  assert (Hi : (i < n)%nat) by (by eapply lookup_lt_Some).
  apply safe_mono with (Q := left_with i r); [|by eauto].
  destruct r; [by apply safe_worker|by apply safe_client|by apply safe_owner].
Qed.
End Contract.

(** A map that agrees with [f] on the indices of a list holds the values [f] picks. *)
Lemma vals_omap {A T} (f : A -> option T) (rs : list A) (m : gmap nat T) :
  (forall i, m !! i = rs !! i ≫= f) -> vals m ≡ₚ omap f rs.
Proof.
  revert m. induction rs as [|r rs IH] using rev_ind; intros m Hm.
  - assert (m = ∅) as -> by (apply map_eq; intros i; by rewrite Hm, lookup_empty).
    unfold vals. by rewrite map_to_list_empty.
  - assert (Hend : m !! length rs = f r) by (rewrite Hm, lookup_app_r, Nat.sub_diag by lia; done).
    assert (Hd : vals (delete (length rs) m) ≡ₚ omap f rs).
    { apply IH. intros i. destruct (decide (i = length rs)) as [->|Hne].
      - rewrite lookup_delete_eq. by rewrite lookup_ge_None_2 by lia.
      - rewrite lookup_delete_ne, Hm by done.
        destruct (decide (i < length rs)%nat); [by rewrite lookup_app_l|].
        rewrite lookup_ge_None_2, (lookup_ge_None_2 rs) by (rewrite ?length_app; cbn; lia). done. }
    rewrite omap_app, <- Hd. cbn. destruct (f r) as [t|].
    + rewrite <- (vals_delete m (length rs) t) by done. solve_Permutation.
    + by rewrite delete_id, app_nil_r.
Qed.

(** * Properties *)

(** The tasks clients submit. *)
Definition submissions {T} (roles : list (pool_role T)) : list T :=
  omap (fun r => match r with Client t => Some t | _ => None end) roles.

Lemma acc_submitted {T} (roles : list (pool_role T)) w g :
  pool_inv roles w g -> vals (g_acc g) ⊆+ submissions roles.
Proof.
  intros HI. set (f := fun r : pool_role T => match r with Client t => Some t | _ => None end).
  set (m := omap f (map_seq 0 roles : gmap nat (pool_role T))).
  assert (Hm : forall i, m !! i = roles !! i ≫= f).
  { intros i. unfold m. by rewrite lookup_omap, lookup_map_seq_0. }
  unfold submissions. fold f. rewrite <- (vals_omap f roles m Hm).
  apply fmap_submseteq, map_to_list_submseteq, map_subseteq_spec. intros i t Hi.
  rewrite Hm, (pi_client _ _ _ HI i t Hi). done.
Qed.

(** When every thread has returned nothing is running, and nothing is queued. *)
Lemma all_left {T} (roles : list (pool_role T)) c g rs :
  pool_safe any_answer (pool_inv roles) (pool_guar (T := T))
    (fun i x w g => exists r, roles !! i = Some r /\ left_with i r x w g) c g ->
  length c.2 = length roles -> c.2 = Ret <$> rs ->
  vals (g_run g) = [] /\ vals (g_acc g) ≡ₚ omap accepted rs /\
  forall me, Worker me ∈ roles -> taskQueue (w_pool c.1) = [].
Proof.
  intros Hs Hl Hrs.
  assert (Hret : forall i, (i < length roles)%nat -> exists x r, rs !! i = Some x /\ roles !! i = Some r /\
    left_with i r x c.1 g).
  { intros i Hi. rewrite Hrs, length_fmap in Hl. destruct (lookup_lt_is_Some_2 rs i) as [x Hx]; [lia|].
    destruct (pool_safe_ret _ _ _ _ _ _ i x Hs) as (r & Hr & Hw); [by rewrite Hrs, list_lookup_fmap, Hx|].
    by exists x, r. }
  assert (HI := proj1 Hs). split_and!.
  - assert (g_run g = ∅) as ->; [|unfold vals; by rewrite map_to_list_empty].
    apply map_eq. intros i. rewrite lookup_empty. destruct (decide (i < length roles)%nat) as [Hi|Hi].
    + destruct (Hret i Hi) as (x & r & _ & _ & [[[Hn _] _] _]). done.
    + apply (pi_index _ _ _ HI). lia.
  - apply vals_omap. intros i. destruct (decide (i < length roles)%nat) as [Hi|Hi].
    + destruct (Hret i Hi) as (x & r & -> & _ & [[[_ Ha] _] _]). done.
    + rewrite Hrs, length_fmap in Hl. rewrite (lookup_ge_None_2 rs) by lia. cbn.
      destruct (g_acc g !! i) as [t|] eqn:Ea; [|done]. apply (pi_client _ _ _ HI) in Ea.
      by rewrite lookup_ge_None_2 in Ea by lia.
  - intros me (i & Hi)%list_elem_of_lookup. destruct (Hret i) as (x & r & _ & Hr & [[_ Hc] _]).
    { by eapply lookup_lt_Some. }
    rewrite Hi in Hr. injection Hr as <-. apply Hc.
Qed.

(** C13: the contract of the worker pool, under every interleaving of any number of workers, clients and the
    destructor.  At every moment the tasks that have run are among those submitted, none of them
    run twice.  Once every thread has returned, at least one of them a worker, the tasks
    that ran are exactly those whose [enqueue] returned a future: the shutdown drains
    the queue and loses nothing, and what was refused did not run. *)
Theorem pool_runs_accepted {T} fuel k (roles : list (pool_role T)) c :
  reachable any_answer (PoolWorld (ThreadPool.create k) [], pool_thread fuel <$> roles) c ->
  w_log c.1 ⊆+ submissions roles /\
  (forall rs me, c.2 = Ret <$> rs -> Worker me ∈ roles -> w_log c.1 ≡ₚ omap accepted rs).
Proof.
  intros Hr. destruct (pool_safe_reachable _ _ _ _ _ _ _ (pool_init roles k fuel) Hr) as [g Hs].
  assert (Hlen := reachable_length _ _ _ Hr). cbn in Hlen. rewrite length_fmap in Hlen.
  assert (HI := proj1 Hs). split.
  - etrans; [|by eapply acc_submitted]. rewrite (pi_tasks _ _ _ HI). apply submseteq_inserts_r. done.
  - intros rs me Hrs Hw. destruct (all_left _ _ _ _ Hs Hlen Hrs) as (Hrun & Hacc & Hq).
    rewrite <- Hacc, (pi_tasks _ _ _ HI), Hrun, (Hq me Hw). cbn. by rewrite app_nil_r.
Qed.

Definition demo_roles : list (pool_role Z) := [Worker 0; Client 7; Owner; Client 9].
Definition demo_schedule : list (nat * Z) :=
  replicate 8 (1%nat, 0) ++ replicate 7 (0%nat, 0) ++ replicate 2 (2%nat, 0) ++
  replicate 30 (0%nat, 0) ++ replicate 9 (2%nat, 0) ++ replicate 9 (3%nat, 0).

(** One task is accepted and run, another is refused because the pool is shutting down. *)
Lemma pool_runs_accepted_witness :
  let c := sched (PoolWorld (ThreadPool.create 1) [], pool_thread 3 <$> demo_roles) demo_schedule in
  c.2 = Ret <$> [Left; Submitted 7 Queued; Left; Submitted 9 ThrowsShutdown] /\ w_log c.1 ≡ₚ [7].
Proof.
  intros c. assert (Hc : c.2 = Ret <$> [Left; Submitted 7 Queued; Left; Submitted 9 ThrowsShutdown]).
  { vm_compute. reflexivity. }
  split; [exact Hc|].
  apply (proj2 (pool_runs_accepted 3 1 demo_roles c (sched_reachable _ demo_schedule)) _ 0%nat Hc). left.
Defined.

(** ** Shutting down *)

(** [p] is about to run [X], somewhere inside the sequences it consists of. *)
Inductive inside {S B} (X : prog S B) : forall {A}, prog S A -> Prop :=
| inside_here : inside X X
| inside_bind {A C} (p : prog S A) (k : A -> prog S C) : inside X p -> inside X (bind p k).

Lemma step_bind {S A C} allowed (p p' : prog S A) (k : A -> prog S C) s s' :
  step allowed (p, s) (p', s') -> step allowed (bind p k, s) (bind p' k, s').
Proof. inversion 1; simplify_eq; cbn;
  [apply (step_act allowed _ _ (fun b => bind (k0 b) k))|by apply (step_ask allowed q (fun z => bind (k0 z) k))].
Qed.

Lemma inside_step {S A B} allowed (X X' : prog S B) (p : prog S A) s s' :
  inside X p -> step allowed (X, s) (X', s') ->
  exists p', inside X' p' /\ step allowed (p, s) (p', s').
Proof.
  intros Hp Hs. induction Hp as [|A C p k Hp (p' & Hi & Hst)]; [by exists X'; split; [constructor|]|].
  exists (bind p' k). split; [by constructor|by apply step_bind].
Qed.

(** A prefix that runs alone. *)
Lemma run_steps {S A C} (p : prog S A) (k : A -> prog S C) s a env s' :
  run p [] s = (Some a, env, s') -> rtc (step any_answer) (bind p k, s) (k a, s').
Proof.
  revert s. induction p as [b|D f h IH|q h IH|]; intros s Hr; cbn in Hr |- *.
  - injection Hr as -> _ ->. apply rtc_refl.
  - eapply rtc_l; [apply (step_act any_answer _ f (fun b => bind (h b) k))|]. apply IH.
    by destruct (f s).
  - eapply rtc_l; [by apply (step_ask any_answer q (fun z => bind (h z) k) s 0)|]. by apply IH.
  - done.
Qed.

(** [p] can get to [X], alone, from state [s] to [s']. *)
Definition gets_to {S A B} (p : prog S A) (s : S) (X : prog S B) (s' : S) : Prop :=
  exists p', inside X p' /\ rtc (step any_answer) (p, s) (p', s').

Lemma gets_here {S B} (X : prog S B) s : gets_to X s X s.
Proof. exists X. split; [constructor|apply rtc_refl]. Qed.

Lemma gets_bind {S A B C} (p : prog S A) (k : A -> prog S C) s (X : prog S B) s' :
  gets_to p s X s' -> gets_to (bind p k) s X s'.
Proof.
  intros (p' & Hi & Hr). exists (bind p' k). split; [by constructor|]. clear Hi.
  remember (p, s) as x eqn:Ex. remember (p', s') as y eqn:Ey. revert p s Ex.
  induction Hr as [x|x [p1 s1] y Hs Hr IH]; intros p s ->; [simplify_eq; apply rtc_refl|].
  eapply rtc_l; [by apply step_bind|]. by apply IH.
Qed.

Lemma gets_after {S A B C} (p : prog S A) (k : A -> prog S C) s a s1 (X : prog S B) s' :
  run p [] s = (Some a, [], s1) -> gets_to (k a) s1 X s' -> gets_to (bind p k) s X s'.
Proof. intros Hr (p' & Hi & Hs). exists p'. split; [done|]. etrans; [by eapply run_steps|done]. Qed.

Lemma inside_safe {S G A B} allowed (Inv : S -> G -> Prop) guar i (X : prog S B) (p : prog S A) s g :
  inside X p -> Inv s g -> safe allowed Inv guar i X (fun _ _ _ => False) s g ->
  safe allowed Inv guar i p (fun _ _ _ => False) s g.
Proof.
  intros Hp HI Hs. induction Hp as [|A C p k Hp IH]; [done|]. by eapply safe_bind; [|exact IH|].
Qed.

(** A loop that never leaves. *)
Lemma safe_forever {S G A L} allowed (Inv : S -> G -> Prop) guar i (body : L -> prog S (L + A)) fuel l s g :
  (forall l s g, Inv s g -> safe allowed Inv guar i (body l) (fun r _ _ => exists l', r = inl l') s g) ->
  Inv s g -> safe allowed Inv guar i (iter fuel body l) (fun _ _ _ => False) s g.
Proof.
  intros Hb HI. apply (safe_iter allowed Inv guar i body (fun _ _ _ => True)); [|by intros _ ? ? ? ? []|done|done].
  intros l' s' g' HI' _. eapply safe_mono; [apply Hb; exact HI'|]. by intros r s1 g1 _ [l1 ->].
Qed.

(** The threads of a pool step in place. *)
Lemma thread_steps {S A} allowed (p p' : prog S A) s s' ps i :
  ps !! i = Some p -> rtc (step allowed) (p, s) (p', s') ->
  reachable allowed (s, ps) (s', <[i := p']> ps).
Proof.
  intros Hi Hr. remember (p, s) as x eqn:Ex. remember (p', s') as y eqn:Ey. revert ps p s Hi Ex.
  induction Hr as [x|x [p1 s1] y Hs Hr IH]; intros ps p s Hi ->.
  - simplify_eq. rewrite list_insert_id by done. apply rtc_refl.
  - eapply rtc_l; [by econstructor|]. rewrite <- (list_insert_insert_eq ps i p' p1).
    apply (IH Ey (<[i := p1]> ps) p1 s1); [|done]. apply list_lookup_insert_eq. by eapply lookup_lt_Some.
Qed.

(** One worker and the destructor. *)
Definition lonely (fuel : nat) : config := (PoolWorld (ThreadPool.create 1) [], pool_thread (S fuel) <$> [Worker 0; @Owner Z]).
Definition no_spurious {S} (s : S) (q : query) (z : Z) : Prop := q = QSpurious -> z = 0.

(** The worker finds the pool open and its queue empty, and is about to wait. *)
Lemma worker_reaches_wait fuel :
  gets_to (pool_thread (S fuel) (Worker 0)) (PoolWorld (ThreadPool.create 1) ([] : list Z))
    (ThreadPool.cv_wait l_pool (S fuel) 0)
    (PoolWorld (set_mtx true (ThreadPool.create 1)) []).
Proof.
  cbn [pool_thread]. apply gets_bind. unfold ThreadPool.runWorkerLoop. apply gets_bind. cbn [iter]. apply gets_bind.
  unfold ThreadPool.worker_round. eapply gets_after; [reflexivity|]. cbn [lget l_pool w_pool shuttingDown ThreadPool.create].
  apply gets_bind. unfold ThreadPool.tryDequeueTask. eapply gets_after; [reflexivity|].
  eapply gets_after; [reflexivity|]. cbv iota. apply gets_bind. unfold ThreadPool.waitForTask. apply gets_bind.
  cbn [iter]. apply gets_bind. eapply gets_after; [reflexivity|]. apply gets_bind. apply gets_here.
Qed.

Lemma owner_reaches_join fuel (w : pool_world Z) :
  gets_to (pool_thread (S fuel) Owner) w
    (do k <- ThreadPool.pload l_pool threads; for_each (seq 0 k) (ThreadPool.join l_pool (S fuel)))
    (PoolWorld (set_waiting [] (set_shutting (w_pool w))) (w_log w)).
Proof.
  cbn [pool_thread]. apply gets_bind. unfold ThreadPool.destroy. eapply gets_after; [reflexivity|].
  eapply gets_after; [reflexivity|]. apply gets_here.
Qed.

(** The state in which the notification has come too early. *)
Definition asleep (w : pool_world Z) (g : unit) : Prop :=
  waiting (w_pool w) = [0%nat] /\ threads (w_pool w) = 1%nat /\ finished (w_pool w) = [].

Lemma waiter_sleeps fuel w g :
  asleep w g ->
  safe no_spurious asleep (fun _ _ _ => True) 0 (iter fuel (fun _ => ThreadPool.wait_round l_pool 0) tt)
    (fun _ _ _ => False) w g.
Proof.
  intros HI. apply safe_forever; [|done]. clear w g HI. intros _ w g HI. unfold ThreadPool.wait_round, ask, act.
  cbn [bind]. eapply (safe_ask_in _ _ _ _ (fun _ _ => True)); [done|done|]. clear w g HI. intros w g z HI _ Hz.
  rewrite (Hz eq_refl). apply (safe_act _ _ _ _ (fun _ _ => True)); [done|done|]. clear w g HI Hz.
  intros w g HI _. destruct HI as (Hw & Ht & Hf). cbn. rewrite Hw. rewrite bool_decide_true by left. cbn.
  exists g. split; [by split_and!|]. split; [done|]. apply safe_ret; [by intros ? ? ? ? H _|by eexists].
Qed.

Lemma joiner_sleeps fuel w g :
  asleep w g ->
  safe no_spurious asleep (fun _ _ _ => True) 1
    (do k <- ThreadPool.pload l_pool threads; for_each (seq 0 k) (ThreadPool.join l_pool fuel))
    (fun _ _ _ => False) w g.
Proof.
  intros HI. unfold ThreadPool.pload, load, act. cbn [bind].
  apply (safe_act _ _ _ _ (fun _ _ => True)); [done|done|]. clear w g HI. intros w g HI _. cbn.
  exists g. split; [done|]. split; [done|]. destruct HI as (Hw & Ht & Hf). rewrite Ht. cbn.
  apply safe_bind with (Q := fun _ _ _ => False); [done| |done].
  apply safe_forever; [|done]. clear w g Hw Ht Hf. intros _ w g HI. unfold ThreadPool.join_round.
  unfold ThreadPool.pload, load, act. cbn [bind].
  apply (safe_act _ _ _ _ (fun _ _ => True)); [done|done|]. clear w g HI. intros w g (Hw & Ht & Hf) _. cbn.
  exists g. split; [done|]. split; [done|]. rewrite Hf. apply safe_ret; [by intros ? ? ? ? H _|by eexists].
Qed.

(** A shutdown that never ends.  The destructor sets the flag and notifies without holding
    the mutex.  In the execution shown the worker has just found the pool open and the queue empty; the
    destructor then sets the flag and notifies, while nobody is blocked; the worker then blocks.  From there,
    unless the condition variable wakes spuriously, the worker stays blocked and
    neither it nor the destructor ever returns, whatever the schedule and the number of rounds. *)
Theorem shutdown_wakeup_lost fuel :
  exists c, reachable any_answer (lonely fuel) c /\
    shuttingDown (w_pool c.1) = true /\ mtx (w_pool c.1) = false /\
    forall c', reachable no_spurious c c' ->
      waiting (w_pool c'.1) = [0%nat] /\ forall i a, c'.2 !! i <> Some (Ret a).
Proof.
  destruct (worker_reaches_wait fuel) as (p1 & Hi1 & Hr1).
  destruct (owner_reaches_join fuel (PoolWorld (set_mtx true (ThreadPool.create 1)) [])) as (q1 & Hj & Hr2).
  set (w1 := PoolWorld (set_waiting _ _) _) in Hr2.
  destruct (inside_step any_answer _ (iter (S fuel) (fun _ => ThreadPool.wait_round l_pool 0) tt ;;;
      ThreadPool.lock l_pool (S fuel)) p1 w1 _ Hi1 (step_act any_answer _ _ _ _)) as (p2 & Hi2 & Hs2).
  assert (Hc : reachable any_answer (lonely fuel) (PoolWorld (Pool [] false [0%nat] true 1 []) [], [p2; q1])).
  { etrans; [exact (thread_steps any_answer _ _ _ _ [_; _] 0 eq_refl Hr1)|].
    etrans; [exact (thread_steps any_answer _ _ _ _ [_; _] 1 eq_refl Hr2)|].
    exact (thread_steps any_answer _ _ _ _ [_; _] 0 eq_refl (rtc_once _ _ Hs2)). }
  eexists. split; [exact Hc|]. split; [done|]. split; [done|]. intros c' Hr.
  assert (HA : asleep (PoolWorld (Pool [] false [0%nat] true 1 []) []) tt) by done.
  assert (H0 : pool_safe no_spurious asleep (fun _ _ _ => True) (fun (_ : nat) (_ : pool_res Z) _ _ => False)
    (PoolWorld (Pool [] false [0%nat] true 1 []) [], [p2; q1]) tt).
  { split; [done|]. intros [|[|i]] p Hp; cbn in Hp; simplify_eq.
    - eapply inside_safe; [exact Hi2|done|]. apply safe_bind with (Q := fun _ _ _ => False); [done| |done].
      by apply waiter_sleeps.
    - eapply inside_safe; [exact Hj|done|]. by apply joiner_sleeps. }
  destruct (pool_safe_reachable _ _ _ _ _ _ _ H0 Hr) as [g Hs].
  split; [apply Hs|]. intros i a Hi. by apply (pool_safe_ret _ _ _ _ _ _ i a Hs).
Qed.
