(* ===== verification/CommTypes.v ===== *)
(** Data of the communication queue that its users see: the return codes of
    src/ub_comm_queue/ub_comm_errno.h and the message header of
    include/ub_dist_comm_queue.h with its layout in memory. *)

From S2P Require Import Prelude.

(** * Return codes *)

Definition EINVAL : Z := 22.
Definition EMSGSIZE : Z := 90.
Definition UB_COMM_OK : Z := 0.
Definition UB_COMM_SEND_CONGESTED : Z := 1.
Definition UB_COMM_ERR_PRIVATE_BASE : Z := 4096.
Definition UB_COMM_ERR_RING_FULL : Z := - UB_COMM_ERR_PRIVATE_BASE.
Definition UB_COMM_ERR_RING_BUSY : Z := - (UB_COMM_ERR_PRIVATE_BASE + 1).
Definition UB_COMM_ERR_PEER_NODE_NOT_FOUND : Z := - (UB_COMM_ERR_PRIVATE_BASE + 2).
Definition UB_COMM_ERR_PEER_NOT_READY : Z := - (UB_COMM_ERR_PRIVATE_BASE + 3).
Definition UB_COMM_ERR_RING_NOT_FOUND : Z := - (UB_COMM_ERR_PRIVATE_BASE + 4).

(** * Messages *)

Record message_header_t : Set := Header {
  src_thread_id : Z; (* uint64_t *)
  body_length : Z;   (* uint32_t *)
  dest_node_id : Z; src_node_id : Z; msg_type : Z; priority : Z (* uint8_t *) }.

(** Little-endian layout of an unsigned integer in [n] bytes. *)
Fixpoint le_bytes (n : nat) (z : Z) : list Z :=
  match n with O => [] | S n' => z mod 256 :: le_bytes n' (z / 256) end.
Fixpoint le_value (bs : list Z) : Z :=
  match bs with [] => 0 | b :: bs' => b + 256 * le_value bs' end.

(** The 16 bytes of a [message_header_t] in memory. *)
Definition MSG_HEADER_LEN : Z := 16.
Definition encode_header (h : message_header_t) : list Z :=
  le_bytes 8 (src_thread_id h) ++ le_bytes 4 (body_length h) ++
  [dest_node_id h; src_node_id h; msg_type h; priority h].
Definition decode_header (bs : list Z) : message_header_t :=
  Header (le_value (take 8 bs)) (le_value (take 4 (drop 8 bs)))
    (getZ 0 bs 12) (getZ 0 bs 13) (getZ 0 bs 14) (getZ 0 bs 15).
