(* ===== verification/TxRes.v ===== *)
(** Distributed transaction resources: [src/src/ub_dist_tx_res/ub_dist_tx_res.cpp].

    The state is the shared memory, a map from addresses to the 64-bit words the
    callers map there.  [DistributeTxResource] is the C++ class over one word; the
    [ub_dist_tx_res_*] definitions are the C interface, with its null and
    alignment checks.  An output parameter is a caller-local cell: it is passed as
    [Some contents], or [None] for a null pointer, and returned as it is after the
    call.  [TicketClients] runs any number of threads that draw tickets from one
    counter with [ub_dist_tx_res_fetch_add]. *)

From S2P Require Import Prelude Atomic.

Definition UB_RES_OK : Z := 0.
Definition UB_RES_ERROR : Z := -1.
Definition UINT64_ALIGN : Z := 8.

(** The shared memory: the word at an address (0 where nothing was stored). *)
Abbreviation shm := (gmap Z Z).

Definition word_at (ptr : Z) : lens shm Z :=
  Lens (fun m => default 0 (m !! ptr)) (fun v m => <[ptr := v]> m).

Module DistributeTxResource.
Definition init (ptr : Z) : prog shm unit := store (lset (word_at ptr) 0).
Definition set (ptr value : Z) : prog shm unit := store (lset (word_at ptr) value).
Definition get (ptr : Z) : prog shm Z := load (lget (word_at ptr)).
Definition fetch_add (ptr value : Z) : prog shm Z :=
  rmw (word_at ptr) (fun old => u64 (old + value)).
Definition add (ptr value : Z) : prog shm unit :=
  do _ <- rmw (word_at ptr) (fun old => u64 (old + value)); Ret tt.
Definition fetch_xor (ptr value : Z) : prog shm Z :=
  rmw (word_at ptr) (fun old => Z.lxor old value).
(** The flag, and [*expected] afterwards. *)
Definition compare_exchange (ptr expected desired : Z) : prog shm (bool * Z) :=
  cas_strong (word_at ptr) expected desired.
End DistributeTxResource.

(** The check every entry point starts with: a null or misaligned handle. *)
Definition bad_handle (handle : Z) : bool :=
  (handle =? 0) || negb (handle mod UINT64_ALIGN =? 0).

Definition ub_dist_tx_res_init (handle : Z) : prog shm Z :=
  if handle =? 0 then Ret UB_RES_ERROR
  else if negb (handle mod UINT64_ALIGN =? 0) then Ret UB_RES_ERROR
  else DistributeTxResource.init handle ;;; Ret UB_RES_OK.

Definition ub_dist_tx_res_set (handle value : Z) : prog shm Z :=
  if handle =? 0 then Ret UB_RES_ERROR
  else if negb (handle mod UINT64_ALIGN =? 0) then Ret UB_RES_ERROR
  else DistributeTxResource.set handle value ;;; Ret UB_RES_OK.

Definition ub_dist_tx_res_get (handle : Z) (out_val : option Z) : prog shm (Z * option Z) :=
  match out_val with
  | None => Ret (UB_RES_ERROR, None)
  | Some out =>
      if handle =? 0 then Ret (UB_RES_ERROR, Some out)
      else if negb (handle mod UINT64_ALIGN =? 0) then Ret (UB_RES_ERROR, Some out)
      else do v <- DistributeTxResource.get handle; Ret (UB_RES_OK, Some v)
  end.

Definition ub_dist_tx_res_fetch_add (handle value : Z) (out_val : option Z)
    : prog shm (Z * option Z) :=
  match out_val with
  | None => Ret (UB_RES_ERROR, None)
  | Some out =>
      if handle =? 0 then Ret (UB_RES_ERROR, Some out)
      else if negb (handle mod UINT64_ALIGN =? 0) then Ret (UB_RES_ERROR, Some out)
      else do v <- DistributeTxResource.fetch_add handle value; Ret (UB_RES_OK, Some v)
  end.

(** The barrier an order emits on AArch64; every one is also a compiler barrier. *)
Inductive barrier : Set := CompilerOnly | DmbIshld | DmbIshst | DmbIsh | DsbIsh.

Definition UB_FENCE_RELAXED : Z := 0.
Definition UB_FENCE_ACQUIRE : Z := 1.
Definition UB_FENCE_RELEASE : Z := 2.
Definition UB_FENCE_ACQ_REL : Z := 3.
Definition UB_FENCE_SEQ_CST : Z := 4.

Definition ub_dist_tx_res_fence (order : Z) : Z * option barrier :=
  if order =? UB_FENCE_RELAXED then (UB_RES_OK, Some CompilerOnly)
  else if order =? UB_FENCE_ACQUIRE then (UB_RES_OK, Some DmbIshld)
  else if order =? UB_FENCE_RELEASE then (UB_RES_OK, Some DmbIshst)
  else if order =? UB_FENCE_ACQ_REL then (UB_RES_OK, Some DmbIsh)
  else if order =? UB_FENCE_SEQ_CST then (UB_RES_OK, Some DsbIsh)
  else (UB_RES_ERROR, None).

Definition ub_dist_tx_res_add (handle value : Z) : prog shm Z :=
  if handle =? 0 then Ret UB_RES_ERROR
  else if negb (handle mod UINT64_ALIGN =? 0) then Ret UB_RES_ERROR
  else DistributeTxResource.add handle value ;;; Ret UB_RES_OK.

Definition ub_dist_tx_res_fetch_xor (handle value : Z) (out_val : option Z)
    : prog shm (Z * option Z) :=
  match out_val with
  | None => Ret (UB_RES_ERROR, None)
  | Some out =>
      if handle =? 0 then Ret (UB_RES_ERROR, Some out)
      else if negb (handle mod UINT64_ALIGN =? 0) then Ret (UB_RES_ERROR, Some out)
      else do v <- DistributeTxResource.fetch_xor handle value; Ret (UB_RES_OK, Some v)
  end.

(** Returns the code, [*expected] and [*success] after the call. *)
Definition ub_dist_tx_res_compare_exchange (handle : Z) (expected : option Z) (desired : Z)
    (success : option Z) : prog shm (Z * option Z * option Z) :=
  match expected, success with
  | Some e, Some sc =>
      if handle =? 0 then Ret (UB_RES_ERROR, Some e, Some sc)
      else if negb (handle mod UINT64_ALIGN =? 0) then Ret (UB_RES_ERROR, Some e, Some sc)
      else
        do '(ok, e') <- DistributeTxResource.compare_exchange handle e desired;
        Ret (UB_RES_OK, Some e', Some (if ok then 1 else 0))
  | _, _ => Ret (UB_RES_ERROR, expected, success)
  end.

(** * Ticket clients *)

(** A client that draws [n] tickets from the counter at [handle]. *)
Fixpoint draw_tickets (handle : Z) (n : nat) (acc : list Z) : prog shm (list Z) :=
  match n with
  | O => Ret acc
  | S m =>
      do '(ret, out) <- ub_dist_tx_res_fetch_add handle 1 (Some 0);
      if ret =? UB_RES_OK then draw_tickets handle m (acc ++ [default 0 out])
      else draw_tickets handle m acc
  end.

(** * Lemmas *)

Lemma bad_handle_false handle :
  bad_handle handle = false ->
  (handle =? 0) = false /\ negb (handle mod UINT64_ALIGN =? 0) = false.
Proof. unfold bad_handle. intros H. by apply orb_false_elim in H. Qed.

Lemma bad_handle_true handle :
  bad_handle handle = true ->
  (handle =? 0) = true \/ (handle =? 0) = false /\ negb (handle mod UINT64_ALIGN =? 0) = true.
Proof. unfold bad_handle. destruct (handle =? 0); auto. Qed.

Lemma word_at_set ptr v (m : shm) : lget (word_at ptr) (<[ptr := v]> m) = v.
Proof. cbn. by rewrite lookup_insert_eq. Qed.

Ltac tx_run H :=
  first [ apply bad_handle_false in H as [? ?] | apply bad_handle_true in H as [?|[? ?]] ];
  repeat match goal with E : _ = _ :> bool |- _ => rewrite E; clear E end; try done.

(** Positions at which thread [i] occurs in a schedule of ticket draws. *)
Definition draws (v0 : Z) (i : nat) (order : list nat) : list Z :=
  (fun k : nat => u64 (v0 + Z.of_nat k)) <$>
    filter (fun k => order !! k = Some i) (seq 0 (length order)).

Lemma draws_snoc v0 i j order :
  draws v0 i (order ++ [j]) =
  draws v0 i order ++ (if decide (j = i) then [u64 (v0 + Z.of_nat (length order))] else []).
Proof.
  unfold draws. rewrite length_app, seq_app, filter_app, fmap_app. cbn. f_equal.
  - f_equal. apply list_filter_ext. intros k Hk%elem_of_seq. rewrite lookup_app_l; [done|lia].
  - rewrite lookup_app_r, Nat.sub_diag by lia. cbn. case_decide as E; case_decide; simplify_eq; done.
Qed.

Lemma draws_all v0 n order :
  Forall (fun i => (i < n)%nat) order ->
  concat ((fun i => draws v0 i order) <$> seq 0 n) ≡ₚ
  (fun k : nat => u64 (v0 + Z.of_nat k)) <$> seq 0 (length order).
Proof.
  induction order as [|j order IH] using rev_ind; intros Hall.
  - cbn. induction (seq 0 n) as [|a l IHl]; cbn; [done|]. exact IHl.
  - apply Forall_app in Hall as [Hall Hj]. specialize (IH Hall).
    rewrite Forall_singleton in Hj. rewrite length_app, seq_app, fmap_app. cbn.
    rewrite <- IH. clear IH Hall.
    set (t := u64 (v0 + Z.of_nat (length order))).
    set (d := fun i => draws v0 i order).
    assert (Hl : forall l : list nat, NoDup l ->
      concat ((fun i => draws v0 i (order ++ [j])) <$> l) ≡ₚ
      concat (d <$> l) ++ (if decide (j ∈ l) then [t] else [])).
    { induction l as [|a l IHl]; intros Hnd.
      - cbn. rewrite decide_False; [done|by intros ?%elem_of_nil].
      - apply NoDup_cons in Hnd as [Ha Hnd]. cbn. rewrite draws_snoc, IHl by done.
        fold (d a). fold t. destruct (decide (j = a)) as [->|Hne].
        + rewrite (decide_False (P := a ∈ l)), decide_True by (done || left). solve_Permutation.
        + destruct (decide (j ∈ l)).
          * rewrite decide_True by (by right). solve_Permutation.
          * rewrite decide_False by (intros [?|?]%elem_of_cons; done). solve_Permutation. }
    rewrite Hl by apply NoDup_seq. rewrite decide_True; [done|]. apply elem_of_seq. lia.
Qed.

(** ** Tickets under interleaving *)

Section TicketClients.
Variable handle v0 : Z.
Variable threads : nat.

(** The ghost state is the order in which threads drew. *)
Definition ticket_inv (m : shm) (order : list nat) : Prop :=
  lget (word_at handle) m = u64 (v0 + Z.of_nat (length order)) /\
  Forall (fun i => (i < threads)%nat) order.

(** A thread only appends draws of its own. *)
Definition ticket_guar (i : nat) (w w' : shm * list nat) : Prop :=
  exists k : nat, w'.2 = w.2 ++ replicate k i.

Definition ticket_post (n : nat) (i : nat) (acc : list Z) (m : shm) (order : list nat) : Prop :=
  acc = draws v0 i order /\ length acc = n.

Lemma draws_other i j k order :
  j <> i -> draws v0 i (order ++ replicate k j) = draws v0 i order.
Proof.
  intros Hne. induction k as [|k IH]; cbn [replicate]; [by rewrite app_nil_r|].
  rewrite replicate_cons_app, app_assoc, draws_snoc, decide_False by done.
  by rewrite app_nil_r.
Qed.

Lemma ticket_post_stable n i acc :
  stable ticket_inv ticket_guar i (ticket_post n i acc).
Proof.
  intros m g m' g' [Ha Hl] (j & Hj & [k Hk] & _ & _). cbn in Hk. subst g'.
  split; [by rewrite draws_other|done].
Qed.

Lemma ticket_inv_draw i m order :
  (i < threads)%nat -> ticket_inv m order ->
  ticket_inv (lset (word_at handle) (u64 (lget (word_at handle) m + 1)) m) (order ++ [i]).
Proof.
  intros Hi [Hw Hall]. split; [|by apply Forall_app; split; [|constructor]].
  rewrite Hw, length_app. cbn. rewrite lookup_insert_eq; cbn.
  unfold u64, wrap. rewrite Zplus_mod_idemp_l. f_equal. lia.
Qed.

Lemma draw_tickets_safe i n d acc m order :
  (i < threads)%nat -> bad_handle handle = false ->
  ticket_inv m order -> ticket_post d i acc m order ->
  safe any_answer ticket_inv ticket_guar i (draw_tickets handle n acc)
    (ticket_post (d + n) i) m order.
Proof.
  intros Hi [H1 H2]%bad_handle_false. revert d acc m order.
  induction n as [|n IH]; intros d acc m order HI HP.
  - apply safe_ret; [apply ticket_post_stable|]. by rewrite Nat.add_0_r.
  - cbn -[word_at]. rewrite H1, H2. cbn -[word_at].
    eapply safe_act; [apply ticket_post_stable|exact HP|].
    clear m order HI HP. intros m order HI [Ha Hl]; cbn -[word_at].
    exists (order ++ [i]).
    assert (HI' := ticket_inv_draw i m order Hi HI).
    split_and!; [done|by exists 1%nat|].
    replace (d + S n)%nat with (S d + n)%nat by lia. apply IH; [done|].
    split; [|rewrite length_app; cbn; lia].
    destruct HI as [HI _]. by rewrite draws_snoc, decide_True, <- Ha, <- HI by done.
Qed.
End TicketClients.

(** The pool: thread [i] draws [ns !! i] tickets. *)
Definition ticket_pool (handle : Z) (ns : list nat) : list (prog shm (list Z)) :=
  (fun n => draw_tickets handle n []) <$> ns.

Lemma ticket_pool_safe handle v0 ns m :
  bad_handle handle = false -> 0 <= v0 < 2 ^ 64 -> lget (word_at handle) m = v0 ->
  pool_safe any_answer (ticket_inv handle v0 (length ns)) ticket_guar
    (fun i a m g => exists n, ns !! i = Some n /\ ticket_post v0 n i a m g)
    (m, ticket_pool handle ns) [].
Proof.
  intros Hh Hv Hm. assert (HI : ticket_inv handle v0 (length ns) m []).
  { split; [|constructor]. rewrite Hm. cbn. rewrite Z.add_0_r. symmetry. by apply u64_small. }
  split; [done|]. intros i p Hi. cbn in *. apply list_lookup_fmap_Some in Hi as (n & -> & Hn).
  eapply safe_mono.
  - eapply (draw_tickets_safe handle v0 (length ns) i n 0); [by eapply lookup_lt_Some|done|done|done].
  - intros a s g _ Hp. by exists n.
Qed.

Lemma sum_list_concat_length {A} (rs : list (list A)) : length (concat rs) = sum_list (length <$> rs).
Proof. induction rs as [|r rs IH]; cbn; [done|]. by rewrite length_app, IH. Qed.

(** * Properties *)

(** C9: tickets drawn concurrently are partitioned.  Let any number of threads
    draw tickets from one 8-byte aligned counter with
    [ub_dist_tx_res_fetch_add(handle, 1, &out)], interleaved in any way.  Once all
    have returned, the tickets they got are, up to order, exactly
    [v0, v0 + 1, ..., v0 + N - 1] modulo [2^64], where [N] is the number of draws:
    none is lost and none is given twice; and the counter stands at [v0 + N]. *)
Theorem tickets_partition handle v0 m ns m' rs :
  bad_handle handle = false -> 0 <= v0 < 2 ^ 64 -> lget (word_at handle) m = v0 ->
  reachable any_answer (m, ticket_pool handle ns) (m', Ret <$> rs) ->
  concat rs ≡ₚ (fun k : nat => u64 (v0 + Z.of_nat k)) <$> seq 0 (sum_list ns) /\
  lget (word_at handle) m' = u64 (v0 + Z.of_nat (sum_list ns)).
Proof.
  intros Hh Hv Hm Hr.
  destruct (pool_safe_reachable _ _ _ _ _ _ _ (ticket_pool_safe _ _ ns _ Hh Hv Hm) Hr) as [order Hs].
  assert (Hlen : length rs = length ns).
  { apply reachable_length in Hr. cbn in Hr. unfold ticket_pool in Hr. by rewrite !length_fmap in Hr. }
  assert (Hrs : forall i r, rs !! i = Some r -> exists n, ns !! i = Some n /\ ticket_post v0 n i r m' order).
  { intros i r Hi. apply (pool_safe_ret _ _ _ _ _ _ i r Hs). cbn. by rewrite list_lookup_fmap, Hi. }
  assert (Heq : rs = (fun i => draws v0 i order) <$> seq 0 (length ns)).
  { apply list_eq. intros i. rewrite list_lookup_fmap.
    destruct (rs !! i) as [r|] eqn:Ei.
    - destruct (Hrs i r Ei) as (n & Hn & [-> _]).
      rewrite lookup_seq_lt by (by eapply lookup_lt_Some). done.
    - apply lookup_ge_None in Ei. by rewrite lookup_seq_ge by lia. }
  assert (Hns : length <$> rs = ns).
  { apply list_eq. intros i. rewrite list_lookup_fmap. destruct (rs !! i) as [r|] eqn:Ei; cbn.
    - destruct (Hrs i r Ei) as (n & Hn & [_ <-]). done.
    - symmetry. apply lookup_ge_None in Ei. apply lookup_ge_None. lia. }
  destruct Hs as [[Hw Hall] _]. assert (Hp := draws_all v0 _ _ Hall). rewrite <- Heq in Hp.
  assert (Ho : length order = sum_list ns).
  { rewrite <- Hns, <- sum_list_concat_length, Hp, length_fmap. by rewrite length_seq. }
  by rewrite <- Ho.
Qed.

Lemma tickets_partition_witness :
  concat [[5]; [6; 7]] ≡ₚ [5; 6; 7] /\
  lget (word_at 8) (sched (<[8 := 5]> ∅, ticket_pool 8 [1; 2]%nat) [(0%nat, 0); (1%nat, 0); (1%nat, 0)]).1 = 8.
Proof.
  refine (tickets_partition 8 5 (<[8 := 5]> ∅) [1; 2]%nat _ [[5]; [6; 7]] _ _ _ _).
  - reflexivity.
  - lia.
  - reflexivity.
  - apply sched_done. vm_compute. reflexivity.
Defined.

(** A null or misaligned handle is refused by every entry point with
    [UB_RES_ERROR], and neither the shared memory nor an output cell changes. *)
Theorem bad_handle_refused handle v d env m (out ex sc : option Z) :
  bad_handle handle = true ->
  run (ub_dist_tx_res_init handle) env m = (Some UB_RES_ERROR, env, m) /\
  run (ub_dist_tx_res_set handle v) env m = (Some UB_RES_ERROR, env, m) /\
  run (ub_dist_tx_res_get handle out) env m = (Some (UB_RES_ERROR, out), env, m) /\
  run (ub_dist_tx_res_fetch_add handle v out) env m = (Some (UB_RES_ERROR, out), env, m) /\
  run (ub_dist_tx_res_add handle v) env m = (Some UB_RES_ERROR, env, m) /\
  run (ub_dist_tx_res_fetch_xor handle v out) env m = (Some (UB_RES_ERROR, out), env, m) /\
  run (ub_dist_tx_res_compare_exchange handle ex d sc) env m = (Some (UB_RES_ERROR, ex, sc), env, m).
Proof.
  intros H. unfold ub_dist_tx_res_init, ub_dist_tx_res_set, ub_dist_tx_res_get,
    ub_dist_tx_res_fetch_add, ub_dist_tx_res_add, ub_dist_tx_res_fetch_xor,
    ub_dist_tx_res_compare_exchange.
  apply bad_handle_true in H as [->|[-> ->]]; destruct out, ex, sc; done.
Qed.

Lemma bad_handle_refused_witness :
  run (ub_dist_tx_res_set 12 7) [] ∅ = (Some UB_RES_ERROR, [], ∅).
Proof. apply (bad_handle_refused 12 7 0 [] ∅ None None None). reflexivity. Defined.

(** Compare-exchange on a valid handle.  It always returns [UB_RES_OK]; if the
    word equals [*expected] it becomes [desired], [*success] is 1 and [*expected]
    is unchanged; otherwise the memory is unchanged, [*success] is 0 and
    [*expected] holds the word's current value, so that retrying at once with it
    succeeds. *)
Theorem compare_exchange_spec handle e d sc env m :
  bad_handle handle = false ->
  let cur := lget (word_at handle) m in
  run (ub_dist_tx_res_compare_exchange handle (Some e) d (Some sc)) env m =
    (if cur =? e then (Some (UB_RES_OK, Some e, Some 1), env, <[handle := d]> m)
     else (Some (UB_RES_OK, Some cur, Some 0), env, m)) /\
  run (ub_dist_tx_res_compare_exchange handle (Some cur) d (Some sc)) env m =
    (Some (UB_RES_OK, Some cur, Some 1), env, <[handle := d]> m).
Proof.
  intros [H1 H2]%bad_handle_false cur. unfold ub_dist_tx_res_compare_exchange.
  rewrite H1, H2. unfold cur. cbn. rewrite Z.eqb_refl. by destruct (default 0 (m !! handle) =? e).
Qed.

Lemma compare_exchange_spec_witness :
  run (ub_dist_tx_res_compare_exchange 16 (Some 1) 9 (Some 0)) [] (<[16 := 4]> ∅) =
    (Some (UB_RES_OK, Some 4, Some 0), [], <[16 := 4]> ∅).
Proof. exact (proj1 (compare_exchange_spec 16 1 9 0 [] (<[16 := 4]> ∅) eq_refl)). Defined.

Lemma lxor_lxor_cancel a b : Z.lxor (Z.lxor a b) b = a.
Proof. by rewrite Z.lxor_assoc, Z.lxor_nilpotent, Z.lxor_0_r. Qed.

(** Reading and writing one resource.  On a valid handle, [set] then [get]
    gives the value set; [add] is [fetch_add] without the old value; and two
    [fetch_xor] with the same mask restore the word, each returning the value it
    replaced. *)
Theorem resource_roundtrips handle v env m o1 o2 :
  bad_handle handle = false ->
  let cur := lget (word_at handle) m in
  (run (do _ <- ub_dist_tx_res_set handle v; ub_dist_tx_res_get handle (Some o1)) env m =
     (Some (UB_RES_OK, Some v), env, <[handle := v]> m)) /\
  (run (ub_dist_tx_res_add handle v) env m =
     (Some UB_RES_OK, env, (run (ub_dist_tx_res_fetch_add handle v (Some o1)) env m).2)) /\
  run (do r1 <- ub_dist_tx_res_fetch_xor handle v (Some o1);
       do r2 <- ub_dist_tx_res_fetch_xor handle v (Some o2); Ret (r1, r2)) env m =
    (Some ((UB_RES_OK, Some cur), (UB_RES_OK, Some (Z.lxor cur v))), env, <[handle := cur]> m).
Proof.
  intros [H1 H2]%bad_handle_false cur.
  unfold ub_dist_tx_res_set, ub_dist_tx_res_get, ub_dist_tx_res_add, ub_dist_tx_res_fetch_add,
    ub_dist_tx_res_fetch_xor. rewrite H1, H2. cbn.
  rewrite !lookup_insert_eq; cbn. by rewrite insert_insert_eq, lxor_lxor_cancel.
Qed.

Lemma resource_roundtrips_witness :
  run (do _ <- ub_dist_tx_res_set 24 3; ub_dist_tx_res_get 24 (Some 0)) [] ∅ =
    (Some (UB_RES_OK, Some 3), [], <[24 := 3]> ∅).
Proof. exact (proj1 (resource_roundtrips 24 3 [] ∅ 0 0 eq_refl)). Defined.
