(* ===== verification/LockTypes.v ===== *)
(** Data shared by the three locks: [src/include/ub_dist_lock.h] and the constants
    and owner encoding of [src/src/ub_lock/local_lock.h]. *)

From S2P Require Import Prelude Atomic.

Inductive ub_lock_mode_t : Set := UB_LOCK_S | UB_LOCK_SX | UB_LOCK_X | UB_LOCK_I.
Inductive ub_lock_result_t : Set :=
  UB_LOCK_SUCCESS | UB_LOCK_TIMEOUT | UB_LOCK_CONFLICT | UB_LOCK_ERROR.

#[global] Instance ub_lock_mode_eq_dec : EqDecision ub_lock_mode_t.
Proof. solve_decision. Defined.
#[global] Instance ub_lock_result_eq_dec : EqDecision ub_lock_result_t.
Proof. solve_decision. Defined.

Definition is_success (r : ub_lock_result_t) : bool := bool_decide (r = UB_LOCK_SUCCESS).
Definition mode_eqb (m1 m2 : ub_lock_mode_t) : bool := bool_decide (m1 = m2).

(** [tid] is an [int32_t], [node_id] a [uint8_t]. *)
Record ub_location_t : Set := Location { tid : Z; node_id : Z }.

Definition valid_location (l : ub_location_t) : Prop :=
  - 2 ^ 31 <= tid l < 2 ^ 31 /\ 0 <= node_id l < 2 ^ 8.

Definition UB_MAX_CAPACITY : Z := 256.
Definition UB_MAX_NODES : Z := 16.
Definition LOCK_S_THRESHOLD : Z := 100.
Definition UB_CACHELINE_SIZE : Z := 64.
Definition SPIN_WAIT_ROUNDS : nat := 30.

Definition UB_LOCK_OWNER_NODE_SHIFT : Z := 32.
Definition X_LOCK_DECR : Z := Z.shiftl 1 16.
Definition X_LOCK_HALF_DECR : Z := Z.shiftl 1 15.
Definition LOCK_INVALID_OWNER : Z := Z.shiftl 255 32.

(** The 64-bit identity of an owner: node in the high half, thread in the low. *)
Definition make_global_owner (node tid : Z) : Z :=
  Z.lor (Z.shiftl node 32) (u32 tid).

Definition identify (l : ub_location_t) : Z := make_global_owner (node_id l) (tid l).

Definition is_invalid_node (node : Z) : bool := UB_MAX_NODES <=? node.

(** [owner_node]/[owner_tid] decode it; the spin and mutex locks have copies. *)
Definition owner_node (owner : Z) : Z :=
  if owner =? LOCK_INVALID_OWNER then u32 UB_MAX_NODES
  else u32 (Z.shiftr owner UB_LOCK_OWNER_NODE_SHIFT).

Definition owner_tid (owner : Z) : Z :=
  if owner =? LOCK_INVALID_OWNER then 0 else i32 (Z.land owner 0xFFFFFFFF).

Definition has_valid_owner (owner : Z) : bool := negb (owner =? LOCK_INVALID_OWNER).

(** * The encoding of owners *)

Lemma make_global_owner_arith node t :
  make_global_owner node t = node * 2 ^ 32 + u32 t.
Proof.
  assert (H0 : Z.land (Z.shiftl node 32) (u32 t) = 0).
  { apply Z.bits_inj'. intros n Hn. rewrite Z.land_spec, Z.bits_0.
    destruct (Z.lt_ge_cases n 32); [by rewrite Z.shiftl_spec_low|].
    unfold u32, wrap. by rewrite Z.mod_pow2_bits_high, andb_false_r by lia. }
  unfold make_global_owner. assert (Ha := Z.add_lor_land (Z.shiftl node 32) (u32 t)).
  rewrite H0, Z.shiftl_mul_pow2 in Ha by lia. rewrite Z.shiftl_mul_pow2 by lia. lia.
Qed.

Lemma i32_u32 z : - 2 ^ 31 <= z < 2 ^ 31 -> i32 (u32 z) = z.
Proof.
  intros Hz. unfold i32, u32, wrap. rewrite Zplus_mod_idemp_l, Z.mod_small; lia.
Qed.

Lemma identify_inj l1 l2 :
  valid_location l1 -> valid_location l2 -> identify l1 = identify l2 -> l1 = l2.
Proof.
  intros [Ht1 Hn1] [Ht2 Hn2] H. unfold identify in H. rewrite !make_global_owner_arith in H.
  assert (H1 := u32_bound (tid l1)). assert (H2 := u32_bound (tid l2)).
  assert (node_id l1 = node_id l2) by lia.
  assert (Hu : u32 (tid l1) = u32 (tid l2)) by lia.
  apply (f_equal i32) in Hu. rewrite !i32_u32 in Hu by done.
  destruct l1, l2; cbn in *; by subst.
Qed.

Lemma identify_not_invalid l :
  valid_location l -> is_invalid_node (node_id l) = false -> identify l <> LOCK_INVALID_OWNER.
Proof.
  intros [Ht Hn] Hi H. unfold is_invalid_node in Hi. apply Z.leb_gt in Hi.
  unfold identify in H. rewrite make_global_owner_arith in H.
  assert (Hu := u32_bound (tid l)). unfold LOCK_INVALID_OWNER, UB_MAX_NODES in *.
  rewrite Z.shiftl_mul_pow2 in H by lia. lia.
Qed.
#[export] Hint Resolve identify_inj identify_not_invalid : ub.

Lemma owner_decodes l :
  valid_location l -> is_invalid_node (node_id l) = false ->
  owner_node (identify l) = node_id l /\ owner_tid (identify l) = tid l.
Proof.
  intros Hv Hi. assert (Hne := identify_not_invalid l Hv Hi).
  destruct Hv as [Ht Hn]. apply Z.eqb_neq in Hne.
  unfold owner_node, owner_tid. rewrite Hne.
  unfold identify. rewrite make_global_owner_arith.
  assert (Hu := u32_bound (tid l)).
  change 0xFFFFFFFF with (Z.ones 32). rewrite Z.land_ones by lia.
  unfold UB_LOCK_OWNER_NODE_SHIFT. rewrite Z.shiftr_div_pow2 by lia.
  rewrite Z.div_add_l, Z.div_small, Z.add_0_r by lia.
  rewrite Z.add_comm, Z_mod_plus_full, Z.mod_small by lia.
  split; [apply u32_small; lia|by apply i32_u32].
Qed.

(** Owner identities round-trip.  For every participating node (id below
    [UB_MAX_NODES]) and every 32-bit thread id, decoding the owner word gives
    back the node and the thread, the word is a valid owner, and it fits 64 bits. *)
Theorem owner_roundtrip l :
  valid_location l -> is_invalid_node (node_id l) = false ->
  owner_node (identify l) = node_id l /\ owner_tid (identify l) = tid l /\
  has_valid_owner (identify l) = true /\ 0 <= identify l < 2 ^ 64.
Proof.
  intros Hv Hi. destruct (owner_decodes l Hv Hi) as [Hn Ht]. split; [done|]. split; [done|].
  assert (Hne := identify_not_invalid l Hv Hi). apply Z.eqb_neq in Hne. unfold has_valid_owner. rewrite Hne. split; [done|].
  unfold identify. rewrite make_global_owner_arith. assert (Hu := u32_bound (tid l)). destruct Hv. lia.
Qed.

Lemma owner_roundtrip_witness :
  owner_node (identify (Location (-7) 15)) = 15 /\ owner_tid (identify (Location (-7) 15)) = -7.
Proof.
  destruct (owner_roundtrip (Location (-7) 15)) as (H1 & H2 & _).
  - split; cbn; lia.
  - reflexivity.
  - exact (conj H1 H2).
Defined.

#[global] Arguments is_invalid_node : simpl never.
#[global] Arguments identify : simpl never.
#[global] Arguments LOCK_INVALID_OWNER : simpl never.
