(* ===== verification/OwnerLock.v ===== *)
(** Locks whose state is an owner word, and mutual exclusion for their clients.

    The spin lock and the mutex keep in memory words that are either
    [LOCK_INVALID_OWNER] or the identity of the thread that owns them: one word for
    the spin lock, one global word and one per process for the mutex.  A [guarded]
    structure says where these words are in the state of a component; the guarantee
    [own_guar] says that a thread changes a word only by taking it while it is free or
    while it owns it.  [Exclusive] is the interface a lock offers: what its lock and
    unlock operations do to the words.  [exclusion] is proved against that interface once:
    clients of the lock never meet in the critical section. *)

From S2P Require Import Prelude Atomic LockTypes.

Record guarded (S K : Type) := Guarded {
  g_owner : K -> S -> Z;
  g_main : K;                    (** the word that protects the critical section *)
  g_inside : S -> list nat;      (** the threads in the critical section *)
  g_enter : list nat -> S -> S;
  g_ready : S -> Prop;           (** what no operation changes *)
  g_owner_enter : forall k l s, g_owner k (g_enter l s) = g_owner k s;
  g_inside_enter : forall l s, g_inside (g_enter l s) = l;
  g_ready_enter : forall l s, g_ready s -> g_ready (g_enter l s) }.
Arguments g_owner {S K} _ _ _.
Arguments g_main {S K} _.
Arguments g_inside {S K} _ _.
Arguments g_enter {S K} _ _ _.
Arguments g_ready {S K} _ _.

Definition location_ok (l : ub_location_t) : Prop :=
  valid_location l /\ is_invalid_node (node_id l) = false.

(** The threads of a pool: valid, pairwise distinct locations. *)
Record wf_locs (locs : list ub_location_t) : Prop := {
  locs_valid : Forall location_ok locs;
  locs_distinct : NoDup locs }.

Section Ownership.
Context {S K : Type} (L : guarded S K) (locs : list ub_location_t).

Definition owns (k : K) (i : nat) (s : S) : Prop :=
  exists l, locs !! i = Some l /\ g_owner L k s = identify l.
Definition is_free (k : K) (s : S) : Prop := g_owner L k s = LOCK_INVALID_OWNER.

Definition own_inv (s : S) (_ : unit) : Prop :=
  g_ready L s /\ forall i, i ∈ g_inside L s -> g_inside L s = [i] /\ owns (g_main L) i s.

Definition word_step (i : nat) (s s' : S) (k : K) : Prop :=
  g_owner L k s' = g_owner L k s \/
  (owns k i s /\ (owns k i s' \/ is_free k s')) \/
  (is_free k s /\ owns k i s').

Definition own_guar (i : nat) (w w' : S * unit) : Prop :=
  (forall k, word_step i w.1 w'.1 k) /\
  (g_inside L w'.1 = g_inside L w.1 \/ owns (g_main L) i w.1).

(** Assertions of thread [i]. *)
Definition Owns (k : K) (i : nat) (s : S) (_ : unit) : Prop := owns k i s.
Definition Lacks (k : K) (i : nat) (s : S) (_ : unit) : Prop := ~ owns k i s.
Definition Inside (i : nat) (l : list nat) (s : S) (_ : unit) : Prop :=
  owns (g_main L) i s /\ g_inside L s = l.

Abbreviation osafe := (safe any_answer own_inv own_guar).
Abbreviation ostable := (stable own_inv own_guar).

Lemma stable_and i (P Q : S -> unit -> Prop) :
  ostable i P -> ostable i Q -> ostable i (fun s g => P s g /\ Q s g).
Proof. intros HP HQ s g s' g' [H1 H2] Hr. split; [by eapply HP|by eapply HQ]. Qed.

Lemma own_guar_refl i w : own_guar i w w.
Proof. split; [intros k; by left|by left]. Qed.

Section Distinct.
Hypothesis Hlocs : wf_locs locs.

Lemma owns_unique k i j s : owns k i s -> owns k j s -> i = j.
Proof.
  intros (l & Hi & Hl) (l' & Hj & Hl').
  assert (Hv := proj1 (Forall_lookup _ _) (locs_valid _ Hlocs)).
  destruct (Hv _ _ Hi) as [V1 _], (Hv _ _ Hj) as [V2 _].
  assert (l = l') as -> by (apply identify_inj; congruence).
  eapply NoDup_lookup; [apply Hlocs|done|done].
Qed.

Lemma owns_not_free k i s : owns k i s -> ~ is_free k s.
Proof.
  intros (l & Hi & Ho) Hf. destruct (proj1 (Forall_lookup _ _) (locs_valid _ Hlocs) _ _ Hi).
  destruct (identify_not_invalid l); [done|done|]. unfold is_free in Hf. congruence.
Qed.

Lemma owns_same k i s s' : g_owner L k s' = g_owner L k s -> owns k i s -> owns k i s'.
Proof. intros He (l & Hl & Ho). exists l. by rewrite He. Qed.

Lemma Owns_stable k i : ostable i (Owns k i).
Proof.
  intros s [] s' [] Ho (j & Hj & [Hg _] & _ & _). unfold Owns in *.
  destruct (Hg k) as [He|[[Ho' _]|[Hf _]]]; cbn in *.
  - by eapply owns_same; [exact He|].
  - by destruct Hj; eapply owns_unique.
  - by destruct (owns_not_free k i s Ho).
Qed.

Lemma Lacks_stable k i : ostable i (Lacks k i).
Proof.
  intros s [] s' [] Hn (j & Hj & [Hg _] & _ & _) Ho.
  destruct (Hg k) as [He|[[_ [Ho'|Hf]]|[_ Ho']]]; cbn in *.
  - apply Hn. by eapply owns_same; [symmetry; exact He|].
  - by apply Hj; eapply owns_unique.
  - by destruct (owns_not_free k i s' Ho).
  - by apply Hj; eapply owns_unique.
Qed.

Lemma Inside_stable i l : ostable i (Inside i l).
Proof.
  intros s [] s' [] [Ho Hin] (j & Hj & Hg & HI & HI'). split.
  - eapply (Owns_stable _ i s () s' ()); [done|by exists j].
  - destruct Hg as [_ [He|Ho']]; cbn in *; [congruence|].
    by destruct Hj; eapply owns_unique.
Qed.

(** ** Steps *)

(** A step that changes no owner word. *)
Definition keeps (s s' : S) : Prop :=
  (forall k, g_owner L k s' = g_owner L k s) /\ g_inside L s' = g_inside L s /\
  (g_ready L s -> g_ready L s').

Lemma keeps_inv i s s' : own_inv s () -> keeps s s' -> own_inv s' () /\ own_guar i (s, ()) (s', ()).
Proof.
  intros [Hr Hin] (Ho & Hi & Hrd). split; [split; [by apply Hrd|]|split; [intros k; left; apply Ho|by left]].
  intros j Hj. rewrite Hi in *. destruct (Hin j Hj) as [He Hoj]. split; [done|]. by eapply owns_same; [apply Ho|].
Qed.

(** An assertion about the owner words only. *)
Definition word_pred (P : S -> unit -> Prop) : Prop :=
  forall s s', keeps s s' -> P s () -> P s' ().

Lemma safe_keeps {A} i P (p : prog S A) s :
  only keeps p -> ostable i P -> word_pred P -> P s () -> osafe i p (fun _ => P) s ().
Proof.
  intros Hp Hst Hw HP. apply (safe_only _ _ _ i keeps); [done| | |done|done].
  - intros s1 s2 [] HI Hk. by apply keeps_inv.
  - intros s1 s2 [] _ H1 Hk. by eapply Hw.
Qed.

Lemma Owns_word k i : word_pred (Owns k i).
Proof. intros s s' [Ho _]. apply owns_same, Ho. Qed.

Lemma Lacks_word k i : word_pred (Lacks k i).
Proof. intros s s' [Ho _] Hn H. apply Hn. by eapply owns_same; [symmetry; apply Ho|]. Qed.

Lemma Inside_word i l : word_pred (Inside i l).
Proof. intros s s' (Ho & Hi & _) [H1 H2]. split; [by eapply owns_same; [apply Ho|]|by rewrite Hi]. Qed.

Lemma word_and P Q : word_pred P -> word_pred Q -> word_pred (fun s g => P s g /\ Q s g).
Proof. intros HP HQ s s' Hk [H1 H2]. split; [by eapply HP|by eapply HQ]. Qed.

(** A step that changes exactly the word [k]. *)
Definition rewrites (k : K) (s s' : S) : Prop :=
  (forall k', k' <> k -> g_owner L k' s' = g_owner L k' s) /\
  g_inside L s' = g_inside L s /\ (g_ready L s -> g_ready L s').

Lemma take_step k i l s s' :
  (forall k k' : K, {k = k'} + {k <> k'}) ->
  locs !! i = Some l -> own_inv s () -> is_free k s ->
  rewrites k s s' -> g_owner L k s' = identify l ->
  own_inv s' () /\ own_guar i (s, ()) (s', ()) /\ owns k i s' /\
  (k = g_main L -> g_inside L s' = []).
Proof.
  intros dec Hi [Hr Hin] Hf (Ho & Hins & Hrd) Hown.
  assert (Hk : owns k i s') by (by exists l).
  assert (Hnil : k = g_main L -> g_inside L s = []).
  { intros ->. destruct (g_inside L s) as [|j r] eqn:E; [done|].
    destruct (Hin j) as [_ Hoj]; [left|]. by destruct (owns_not_free _ _ _ Hoj). }
  split_and!; [split; [by apply Hrd|]| |done|by rewrite Hins].
  - intros j Hj. rewrite Hins in *. destruct (Hin j Hj) as [He Hoj]. split; [done|].
    destruct (dec (g_main L) k) as [<-|Hne]; [by rewrite Hnil in He|].
    eapply owns_same; [by apply Ho|done].
  - split; [|by left]. intros k'. destruct (dec k' k) as [->|Hne]; [by right; right|by left; apply Ho].
Qed.

Lemma release_step k i s s' :
  (forall k k' : K, {k = k'} + {k <> k'}) ->
  own_inv s () -> owns k i s -> (k = g_main L -> g_inside L s = []) ->
  rewrites k s s' -> is_free k s' ->
  own_inv s' () /\ own_guar i (s, ()) (s', ()) /\ ~ owns k i s'.
Proof.
  intros dec [Hr Hin] Hown Hnil (Ho & Hins & Hrd) Hf. split_and!; [split; [by apply Hrd|]| |].
  - intros j Hj. rewrite Hins in *. destruct (Hin j Hj) as [He Hoj]. split; [done|].
    destruct (dec (g_main L) k) as [<-|Hne]; [by rewrite Hnil in He|].
    eapply owns_same; [by apply Ho|done].
  - split; [|by left]. intros k'.
    destruct (dec k' k) as [->|Hne]; [right; left; by split; [|right]|by left; apply Ho].
  - intros Hown'. by destruct (owns_not_free _ _ _ Hown').
Qed.

Lemma enter_step i l s :
  (l = [] \/ l = [i]) -> own_inv s () -> owns (g_main L) i s ->
  let s' := g_enter L l s in
  own_inv s' () /\ own_guar i (s, ()) (s', ()) /\ Inside i l s' ().
Proof.
  intros Hl [Hr Hin] Ho s'.
  assert (Ho' : owns (g_main L) i s') by (eapply owns_same; [apply g_owner_enter|done]).
  assert (Hi' : g_inside L s' = l) by apply g_inside_enter. split_and!.
  - split; [by apply g_ready_enter|]. intros j. rewrite Hi'.
    destruct Hl as [-> | ->]; [by intros ?%elem_of_nil|]. by intros ->%list_elem_of_singleton.
  - split; [intros k; left; apply g_owner_enter|by right].
  - by split.
Qed.

Lemma exclusion_inv s : own_inv s () -> (length (g_inside L s) <= 1)%nat.
Proof.
  intros [_ Hin]. destruct (g_inside L s) as [|j r]; cbn; [lia|].
  destruct (Hin j) as [He _]; [left|]. by injection He as ->.
Qed.
End Distinct.
End Ownership.

(** * The interface of an exclusive lock, and its clients *)

(** [keys l]: the words the caller at location [l] owns while it holds the lock. *)
Class Exclusive {S K} (L : guarded S K) (keys : ub_location_t -> list K)
    (lock unlock : ub_location_t -> prog S ub_lock_result_t) : Prop := {
  ex_main : forall l, g_main L ∈ keys l;
  ex_lock : forall locs i l s, wf_locs locs -> locs !! i = Some l -> own_inv L locs s () ->
    (forall k, k ∈ keys l -> ~ owns L locs k i s) ->
    safe any_answer (own_inv L locs) (own_guar L locs) i (lock l)
      (fun r s _ => if is_success r
        then (forall k, k ∈ keys l -> owns L locs k i s) /\ g_inside L s = []
        else forall k, k ∈ keys l -> ~ owns L locs k i s) s ();
  ex_unlock : forall locs i l s, wf_locs locs -> locs !! i = Some l -> own_inv L locs s () ->
    (forall k, k ∈ keys l -> owns L locs k i s) -> g_inside L s = [] ->
    safe any_answer (own_inv L locs) (own_guar L locs) i (unlock l)
      (fun r s _ => r = UB_LOCK_SUCCESS /\ forall k, k ∈ keys l -> ~ owns L locs k i s) s () }.

(** [rounds] times: lock, enter and leave the critical section, unlock; the results of
    the unlocks are returned. *)
Fixpoint client {S K} (L : guarded S K) (lock unlock : ub_location_t -> prog S ub_lock_result_t)
    (i : nat) (l : ub_location_t) (rounds : nat) (acc : list ub_lock_result_t)
    : prog S (list ub_lock_result_t) :=
  match rounds with
  | O => Ret acc
  | Datatypes.S n =>
      do r <- lock l;
      if is_success r then
        store (fun s => g_enter L (i :: g_inside L s) s) ;;;
        store (fun s => g_enter L (filter (fun j => j <> i) (g_inside L s)) s) ;;;
        do u <- unlock l;
        client L lock unlock i l n (acc ++ [u])
      else client L lock unlock i l n acc
  end.

Section Clients.
Context {S K : Type} (L : guarded S K) (keys : ub_location_t -> list K)
  (lock unlock : ub_location_t -> prog S ub_lock_result_t) `{!Exclusive L keys lock unlock}.
Context (locs : list ub_location_t).
Hypothesis Hlocs : wf_locs locs.

Definition all_ok (acc : list ub_lock_result_t) : Prop := Forall (fun r => r = UB_LOCK_SUCCESS) acc.

Definition keys_owned (l : ub_location_t) (i : nat) (ins : list nat) (s : S) (_ : unit) : Prop :=
  (forall k, k ∈ keys l -> owns L locs k i s) /\ g_inside L s = ins.

Lemma keys_owned_stable l i ins : stable (own_inv L locs) (own_guar L locs) i (keys_owned l i ins).
Proof.
  intros s [] s' [] [Hk Hi] Hr. split.
  - intros k Hkl. by eapply (Owns_stable L locs Hlocs k i s () s' ()); [apply Hk|].
  - assert (Hm : owns L locs (g_main L) i s) by (apply Hk, ex_main).
    by apply (Inside_stable L locs Hlocs i ins s () s' () (conj Hm Hi) Hr).
Qed.

Lemma client_safe i l rounds acc s :
  locs !! i = Some l -> own_inv L locs s () -> all_ok acc ->
  (forall k, k ∈ keys l -> ~ owns L locs k i s) ->
  safe any_answer (own_inv L locs) (own_guar L locs) i (client L lock unlock i l rounds acc)
    (fun acc _ _ => all_ok acc) s ().
Proof.
  intros Hl. revert acc s. induction rounds as [|n IH]; intros acc s HI Hacc Hn.
  { apply safe_ret; [by intros ??????|done]. }
  cbn [client]. eapply safe_bind; [done|by eapply ex_lock|].
  clear s HI Hn. intros r s [] HI Hp. destruct (is_success r); [|by apply IH].
  apply (safe_act _ _ _ _ (keys_owned l i [])); [apply keys_owned_stable|done|].
  clear s HI Hp. intros s [] HI [Hk Hi]. exists (). cbn.
  destruct (enter_step L locs i [i] s) as (HI' & HG & HO & Hi'); [by right|done|apply Hk, ex_main|].
  rewrite Hi. split_and!; [done|done|].
  apply (safe_act _ _ _ _ (keys_owned l i [i])); [apply keys_owned_stable| |].
  { split; [|done]. intros k Hkl. eapply owns_same; [apply g_owner_enter|by apply Hk]. }
  clear s HI Hk Hi HI' HG HO Hi'. intros s [] HI [Hk Hi]. exists (). cbn.
  assert (Hnil : filter (fun j => j <> i) (g_inside L s) = []).
  { rewrite Hi, filter_cons, decide_False; [done|by intros H]. }
  destruct (enter_step L locs i [] s) as (HI' & HG & HO & Hi'); [by left|done|apply Hk, ex_main|].
  rewrite Hnil. split_and!; [done|done|].
  eapply safe_bind; [done| |].
  - eapply ex_unlock; [done|done|done| |done].
    intros k Hkl. eapply owns_same; [apply g_owner_enter|by apply Hk].
  - clear s HI Hk Hi Hnil HI' HG HO Hi'. intros u s [] HI [-> Hn].
    apply IH; [done| |done]. apply Forall_app. split; [done|by apply Forall_singleton].
Qed.

(** A pool of clients, with any number of other threads that leave the owner words
    alone. *)
Definition client_pool (rounds : list nat) (others : list (prog S (list ub_lock_result_t)))
    : list (prog S (list ub_lock_result_t)) :=
  zip_with (fun il n => client L lock unlock il.1 il.2 n []) (imap pair locs) rounds ++ others.

Lemma pool_exclusion rounds others s s' ps' :
  length rounds = length locs -> g_ready L s -> g_inside L s = [] ->
  (forall i l k, locs !! i = Some l -> k ∈ keys l -> g_owner L k s = LOCK_INVALID_OWNER) ->
  Forall (fun p => only (keeps L) p) others ->
  reachable any_answer (s, client_pool rounds others) (s', ps') ->
  (length (g_inside L s') <= 1)%nat /\
  forall i res, (i < length locs)%nat -> ps' !! i = Some (Ret res) -> all_ok res.
Proof.
  intros Hlen Hr Hi Hfree Hoth Hreach.
  assert (HI : own_inv L locs s ()) by (split; [done|]; rewrite Hi; by intros j ?%elem_of_nil).
  assert (Hs : pool_safe any_answer (own_inv L locs) (own_guar L locs)
    (fun i res _ _ => (i < length locs)%nat -> all_ok res) (s, client_pool rounds others) ()).
  { split; [done|]. intros i p Hp. cbn in Hp. apply lookup_app_Some in Hp as [Hp|[Hge Hp]].
    - apply lookup_zip_with_Some in Hp as ([j l] & n & -> & Hj & _).
      rewrite list_lookup_imap in Hj. apply fmap_Some in Hj as (l' & Hl & [= -> ->]).
      eapply safe_mono; [apply client_safe|]; [done|done|by apply Forall_nil| |by intros ??? _ ? _].
      intros k Hk Hown. destruct (owns_not_free L locs Hlocs _ _ _ Hown). by eapply Hfree.
    - apply Forall_lookup_1 with (1 := Hoth) in Hp as Ho.
      rewrite length_zip_with, length_imap, Hlen, Nat.min_id in Hge.
      eapply safe_mono;
        [apply (safe_keeps L locs i (fun _ _ => True)); [exact Ho|by intros ??????|by intros ????|done]|].
      intros a s1 [] _ _ Hlt. cbn in Hlt. lia. }
  destruct (pool_safe_reachable _ _ _ _ _ _ _ Hs Hreach) as [[] Hs'].
  split; [apply (exclusion_inv L locs), Hs'|].
  intros i res Hlt Hres. exact (pool_safe_ret _ _ _ _ _ _ _ _ Hs' Hres Hlt).
Qed.
End Clients.
