(* ===== verification/SpinLock.v ===== *)
(** The distributed spin lock: [src/src/ub_lock/ub_spin_lock.cpp].

    [SpinLock] transcribes the class, one definition per method, over the shared
    object [ub_spin_lock]; [ub_spin_*] are the C entry points.  [Clients] adds
    what mutual exclusion is about: threads that take the lock, enter a critical
    section, leave it and release the lock, each for any number of rounds.

    The clock is read in microseconds; a deadline is the clock plus the timeout.
    Loops take a fuel bounding the rounds unfolded; the theorems hold for every
    fuel, and [spin_lock_free_acquires] shows that a free lock is taken within
    one round. *)

From S2P Require Import Prelude Atomic LockTypes OwnerLock.

Record ub_spin_lock : Set := mkSpin { init_state : Z; lock_owner : Z }.

Definition l_init_state : lens ub_spin_lock Z :=
  Lens init_state (fun v s => mkSpin v (lock_owner s)).
Definition l_lock_owner : lens ub_spin_lock Z :=
  Lens lock_owner (fun v s => mkSpin (init_state s) v).

Definition SPIN_INIT_EMPTY : Z := 0.
Definition SPIN_INITING : Z := 1.
Definition SPIN_READY : Z := 2.
Definition DEFAULT_SPIN_TIMEOUT_MS : Z := 10000.
Definition SPIN_YIELD_INTERVAL : Z := 1024.
Definition SPIN_INIT_WAIT_ROUNDS : Z := 1024 * 1024.

Module SpinLock.
(** The wait of [lock_init] for another initializer: true once READY is seen. *)
Fixpoint wait_ready (rounds : nat) : prog ub_spin_lock bool :=
  match rounds with
  | O => Ret false
  | S n =>
      do st <- load init_state;
      if st =? SPIN_READY then Ret true else wait_ready n
  end.

Definition lock_init_round (_ : unit) : prog ub_spin_lock (unit + unit) :=
  do state <- load init_state;
  if state =? SPIN_READY then Ret (inr tt)
  else if (state =? SPIN_INIT_EMPTY) || (negb (state =? SPIN_INITING) && negb (state =? SPIN_READY))
  then
    do '(ok, _) <- cas_strong l_init_state state SPIN_INITING;
    if ok : bool then
      store (lset l_lock_owner LOCK_INVALID_OWNER) ;;;
      store (lset l_init_state SPIN_READY) ;;;
      Ret (inr tt)
    else Ret (inl tt)
  else
    do ready <- wait_ready (Z.to_nat SPIN_INIT_WAIT_ROUNDS);
    if ready : bool then Ret (inr tt)
    else
      do _ <- cas_strong l_init_state SPIN_INITING SPIN_INIT_EMPTY;
      Ret (inl tt).

Definition lock_init (fuel : nat) : prog ub_spin_lock unit := iter fuel lock_init_round tt.

Definition is_ready : prog ub_spin_lock bool :=
  do st <- load init_state; Ret (st =? SPIN_READY).

(** The guard of [lock] and [unlock]; the state is read only for a valid node. *)
Definition bad_parameter (location : ub_location_t) : prog ub_spin_lock bool :=
  if is_invalid_node (node_id location) then Ret true
  else do r <- is_ready; Ret (negb r).

(** [dump_spin_timeout_info] only reads the owner, for the log. *)
Definition dump_spin_timeout_info : prog ub_spin_lock unit :=
  do _ <- load lock_owner; Ret tt.

(** One round of the acquisition loop; the local state is [spin_round]. *)
Definition lock_round (identity deadline : Z) (spin_round : Z)
    : prog ub_spin_lock (Z + ub_lock_result_t) :=
  do '(ok, _) <- cas_weak l_lock_owner LOCK_INVALID_OWNER identity;
  if ok : bool then Ret (inr UB_LOCK_SUCCESS)
  else
    let spin_round' := u32 (spin_round + 1) in
    if spin_round' mod SPIN_YIELD_INTERVAL =? 0 then
      do now <- ask QSteady;
      if deadline <=? now then
        dump_spin_timeout_info ;;; Ret (inr UB_LOCK_TIMEOUT)
      else Ret (inl spin_round')
    else Ret (inl spin_round').

Definition lock (fuel : nat) (timeout_ms : Z) (location : ub_location_t)
    : prog ub_spin_lock ub_lock_result_t :=
  do bad <- bad_parameter location;
  if bad : bool then Ret UB_LOCK_ERROR
  else
    let identity := identify location in
    do owner <- load lock_owner;
    if owner =? identity then Ret UB_LOCK_ERROR
    else
      let effective_timeout := if timeout_ms =? 0 then DEFAULT_SPIN_TIMEOUT_MS else timeout_ms in
      do now <- ask QSteady;
      let deadline := now + effective_timeout * 1000 in
      iter fuel (lock_round identity deadline) 0.

Definition unlock (location : ub_location_t) : prog ub_spin_lock ub_lock_result_t :=
  do bad <- bad_parameter location;
  if bad : bool then Ret UB_LOCK_ERROR
  else
    let identity := identify location in
    do owner <- load lock_owner;
    if negb (owner =? identity) then Ret UB_LOCK_ERROR
    else
      do '(ok, _) <- cas_strong l_lock_owner identity LOCK_INVALID_OWNER;
      if ok : bool then Ret UB_LOCK_SUCCESS else Ret UB_LOCK_ERROR.
End SpinLock.

(** The C interface; [None] is a null location, and [lock_null] a null lock. *)
Definition ub_spin_lock_init (fuel : nat) (lock_null : bool) : prog ub_spin_lock unit :=
  if lock_null then Ret tt else SpinLock.lock_init fuel.

Definition ub_spin_lock_lock (fuel : nat) (lock_null : bool) (timeout_ms : Z)
    (location : option ub_location_t) : prog ub_spin_lock ub_lock_result_t :=
  match lock_null, location with
  | false, Some l => SpinLock.lock fuel timeout_ms l
  | _, _ => Ret UB_LOCK_ERROR
  end.

Definition ub_spin_unlock (lock_null : bool) (location : option ub_location_t)
    : prog ub_spin_lock ub_lock_result_t :=
  match lock_null, location with
  | false, Some l => SpinLock.unlock l
  | _, _ => Ret UB_LOCK_ERROR
  end.

(** * Mutual exclusion *)

(** The lock, with the threads that are in the critical section it protects. *)
Record spin_world : Set := mkSpinWorld { sw_lock : ub_spin_lock; inside : list nat }.

Definition l_sw_lock : lens spin_world ub_spin_lock :=
  Lens sw_lock (fun l w => mkSpinWorld l (inside w)).

Definition spin_guarded : guarded spin_world unit.
Proof.
  refine (Guarded _ _ (fun _ w => lock_owner (sw_lock w)) tt inside
    (fun l w => mkSpinWorld (sw_lock w) l) (fun w => init_state (sw_lock w) = SPIN_READY) _ _ _); done.
Defined.

(** What a client does, with its own fuel and timeout: initialize and lock; unlock. *)
Definition spin_acquire (cfg : ub_location_t -> nat * Z) (l : ub_location_t)
    : prog spin_world ub_lock_result_t :=
  lift l_sw_lock (ub_spin_lock_init (cfg l).1 false) ;;;
  lift l_sw_lock (ub_spin_lock_lock (cfg l).1 false (cfg l).2 (Some l)).
Definition spin_release (l : ub_location_t) : prog spin_world ub_lock_result_t :=
  lift l_sw_lock (ub_spin_unlock false (Some l)).

#[global] Arguments SpinLock.wait_ready : simpl never.

Section SpinExclusive.
Context (locs : list ub_location_t) (i : nat) (l : ub_location_t).
Hypothesis Hlocs : wf_locs locs.
Hypothesis Hl : locs !! i = Some l.

#[local] Abbreviation spin_inv := (own_inv spin_guarded locs).
#[local] Abbreviation spin_safe := (safe any_answer spin_inv (own_guar spin_guarded locs)).
#[local] Abbreviation not_holding := (Lacks spin_guarded locs () i).
#[local] Abbreviation holding := (Inside spin_guarded locs i []).

Lemma sw_eta (w : spin_world) : mkSpinWorld (sw_lock w) (inside w) = w.
Proof. by destruct w. Qed.

Lemma not_holding_stable : stable spin_inv (own_guar spin_guarded locs) i not_holding.
Proof. by apply Lacks_stable. Qed.
Lemma holding_stable : stable spin_inv (own_guar spin_guarded locs) i holding.
Proof. by apply Inside_stable. Qed.
#[local] Hint Resolve not_holding_stable holding_stable : core.

#[local] Tactic Notation "spin_read" constr(P) :=
  apply (safe_read _ _ _ _ P); [intros ?; apply sw_eta|apply own_guar_refl|auto|done|].

(** Initialization returns at once: the lock is ready. *)
Lemma lock_init_safe fuel w :
  spin_inv w () -> not_holding w () ->
  spin_safe i (lift l_sw_lock (ub_spin_lock_init fuel false)) (fun _ => not_holding) w ().
Proof.
  intros HI Hn. destruct fuel as [|n]; [done|]. cbn.
  spin_read not_holding. intros w' [] [Hr _] Hn'. cbn in *. rewrite Hr. cbn. by apply safe_ret.
Qed.

Definition lock_post (r : ub_lock_result_t) : spin_world -> unit -> Prop :=
  if is_success r then holding else not_holding.

Lemma lock_post_stable r : stable spin_inv (own_guar spin_guarded locs) i (lock_post r).
Proof. unfold lock_post. destruct (is_success r); auto. Qed.
#[local] Hint Resolve lock_post_stable : core.

Lemma lock_round_safe deadline n w :
  spin_inv w () -> not_holding w () ->
  spin_safe i (lift l_sw_lock (SpinLock.lock_round (identify l) deadline n))
    (fun r w g => match r with inl _ => not_holding w g | inr r => lock_post r w g end) w ().
Proof.
  intros HI Hn. cbn. apply safe_ask. intros sp.
  assert (Hfail : forall w, spin_inv w () -> not_holding w () ->
    spin_safe i (lift l_sw_lock (
      if u32 (n + 1) mod SPIN_YIELD_INTERVAL =? 0 then
        do now <- ask QSteady;
        if deadline <=? now then
          SpinLock.dump_spin_timeout_info ;;; Ret (inr UB_LOCK_TIMEOUT)
        else Ret (inl (u32 (n + 1)))
      else Ret (inl (u32 (n + 1)))))
    (fun r w g => match r with inl _ => not_holding w g | inr r => lock_post r w g end) w ()).
  { intros w1 HI1 Hn1. case_bool; cbn; [|by apply safe_ret].
    apply safe_ask. intros now. case_bool; cbn; [|by apply safe_ret].
    spin_read not_holding. intros w2 [] _ Hn2. by apply safe_ret. }
  destruct (sp =? 0); cbn.
  - apply (safe_act _ _ _ _ not_holding); [auto|done|].
    intros w1 [] HI1 Hn1. exists ().
    destruct (Z.eqb_spec (lock_owner (sw_lock w1)) LOCK_INVALID_OWNER) as [Hf|Hf]; cbn.
    + destruct (take_step spin_guarded locs Hlocs () i l w1
        (mkSpinWorld (mkSpin (init_state (sw_lock w1)) (identify l)) (inside w1))) as (H1 & H2 & H3 & H4);
        [apply unit_eq_dec|done|done|done| |done|].
      { split_and!; [by intros []|done|done]. }
      split_and!; [done|done|]. apply safe_ret; [apply lock_post_stable|].
      split; [done|]. by apply H4.
    + rewrite sw_eta. split_and!; [done|apply own_guar_refl|]. by apply Hfail.
  - spin_read not_holding. intros w1 [] HI1 Hn1. by apply Hfail.
Qed.

Lemma valid_node : is_invalid_node (node_id l) = false.
Proof. by destruct (proj1 (Forall_lookup _ _) (locs_valid _ Hlocs) _ _ Hl). Qed.

Lemma lock_safe fuel timeout w :
  spin_inv w () -> not_holding w () ->
  spin_safe i (lift l_sw_lock (ub_spin_lock_lock fuel false timeout (Some l))) lock_post w ().
Proof.
  intros HI Hn. cbn. unfold SpinLock.lock, SpinLock.bad_parameter. rewrite valid_node. cbn.
  spin_read not_holding. intros w1 [] HI1 Hn1. cbn.
  destruct HI1 as [Hr Hin]; cbn in Hr; rewrite Hr; cbn.
  spin_read not_holding. clear w1 Hr Hin Hn1. intros w1 [] HI1 Hn1. cbn.
  destruct (Z.eqb_spec (lock_owner (sw_lock w1)) (identify l)) as [He|He]; cbn.
  - destruct Hn1. by exists l.
  - apply safe_ask. intros now.
    apply (safe_lift_iter _ _ _ _ _ _ (fun _ => not_holding)); [|auto|done|done].
    intros n w2 [] HI2 Hn2. by apply lock_round_safe.
Qed.

Lemma unlock_safe w :
  spin_inv w () -> holding w () ->
  spin_safe i (lift l_sw_lock (ub_spin_unlock false (Some l)))
    (fun r w g => r = UB_LOCK_SUCCESS /\ not_holding w g) w ().
Proof.
  assert (Hown : forall w, holding w () -> lock_owner (sw_lock w) = identify l).
  { intros w1 [(l' & Hl' & Ho) _]. rewrite Hl in Hl'. by injection Hl' as <-. }
  intros HI Hh. cbn. unfold SpinLock.unlock, SpinLock.bad_parameter. rewrite valid_node. cbn.
  spin_read holding. intros w1 [] [Hr _] Hh1. cbn in *. rewrite Hr. cbn.
  spin_read holding. clear w1 Hr Hh1. intros w1 [] HI1 Hh1. cbn. rewrite (Hown _ Hh1), Z.eqb_refl. cbn.
  apply (safe_act _ _ _ _ holding); [auto|done|].
  clear w1 HI1 Hh1. intros w1 [] HI1 Hh1. exists (). rewrite (Hown _ Hh1), Z.eqb_refl. cbn.
  destruct (release_step spin_guarded locs Hlocs () i w1
    (mkSpinWorld (mkSpin (init_state (sw_lock w1)) LOCK_INVALID_OWNER) (inside w1))) as (H1 & H2 & H3);
    [apply unit_eq_dec|done|apply Hh1|intros _; apply Hh1| |done|].
  { split_and!; [by intros []|done|done]. }
  split_and!; [done|done|]. apply safe_ret; [|by split].
  intros w2 [] w3 [] [Hr Hn] Hrel. split; [done|]. by eapply not_holding_stable.
Qed.
End SpinExclusive.

(** The spin lock offers the interface of an exclusive lock. *)
#[global] Instance spin_exclusive cfg :
  Exclusive spin_guarded (fun _ => [tt]) (spin_acquire cfg) spin_release.
Proof.
  split.
  - intros l. left.
  - intros locs i l w Hlocs Hl HI Hn.
    eapply safe_bind; [done|apply lock_init_safe; [done|done|apply Hn; left]|].
    intros _ w' [] HI' Hn'. eapply safe_mono; [by apply lock_safe|].
    intros r w2 [] _ Hp. unfold lock_post in Hp. destruct (is_success r).
    + destruct Hp as [Ho Hi]. split; [|done]. by intros k ->%list_elem_of_singleton.
    + by intros k ->%list_elem_of_singleton.
  - intros locs i l w Hlocs Hl HI Ho Hi. eapply safe_mono;
      [apply (unlock_safe locs i l); [done|done|done|split; [apply Ho; left|done]]|].
    intros r w2 [] _ [Hr Hn]. split; [done|]. by intros k ->%list_elem_of_singleton.
Qed.

(** * Properties *)

Definition spin_ready : ub_spin_lock := mkSpin SPIN_READY LOCK_INVALID_OWNER.

Definition spin_pool (cfg : ub_location_t -> nat * Z) (locs : list ub_location_t) (rounds : list nat)
    : list (prog spin_world (list ub_lock_result_t)) :=
  client_pool spin_guarded (spin_acquire cfg) spin_release locs rounds [].

(** C8: the spin lock excludes.  Take any number of threads with distinct valid
    locations on participating nodes, each repeating any number of times: init,
    lock, enter the critical section, leave it, unlock.  Whatever the
    interleaving of their atomic accesses, the spurious failures of the weak
    compare-exchange and the clock, at most one thread is in the critical section,
    and every unlock by a holder succeeds. *)
Theorem spin_mutual_exclusion cfg locs rounds w' ps' :
  wf_locs locs -> length rounds = length locs ->
  reachable any_answer (mkSpinWorld spin_ready [], spin_pool cfg locs rounds) (w', ps') ->
  (length (inside w') <= 1)%nat /\
  forall i res, ps' !! i = Some (Ret res) -> all_ok res.
Proof.
  intros Hv Hlen Hr.
  destruct (pool_exclusion spin_guarded (fun _ => [tt]) (spin_acquire cfg) spin_release locs Hv
    rounds [] (mkSpinWorld spin_ready []) w' ps') as [H1 H2]; try done.
  split; [exact H1|]. intros i res Hres. apply (H2 i res); [|done].
  apply reachable_length in Hr. apply lookup_lt_Some in Hres. cbn in Hr. rewrite Hr in Hres.
  unfold spin_pool, client_pool in Hres.
  by rewrite length_app, length_zip_with, length_imap, Hlen, Nat.min_id, Nat.add_0_r in Hres.
Qed.

Definition spin_demo_locs : list ub_location_t := [Location 1 0; Location 1 1].
Definition spin_demo : config :=
  sched (mkSpinWorld spin_ready [], spin_pool (fun _ => (1%nat, 0)) spin_demo_locs [1; 1]%nat)
    (replicate 7 (0%nat, 0)).

Lemma spin_mutual_exclusion_witness :
  inside spin_demo.1 = [0%nat] /\ (length (inside spin_demo.1) <= 1)%nat.
Proof.
  split; [reflexivity|].
  refine (proj1 (spin_mutual_exclusion (fun _ => (1%nat, 0)) spin_demo_locs [1; 1]%nat
    spin_demo.1 spin_demo.2 _ eq_refl _)).
  - split.
    + repeat (apply Forall_cons; split); try apply Forall_nil; try done; split; cbn; lia.
    + apply NoDup_cons; split; [by intros ?%list_elem_of_singleton|apply NoDup_singleton].
  - exact (sched_done _ (replicate 7 (0%nat, 0)) _ eq_refl).
Defined.

Lemma wait_ready_initing n env s :
  init_state s = SPIN_INITING -> run (SpinLock.wait_ready n) env s = (Some false, env, s).
Proof.
  intros Hs. induction n as [|n IH]; [done|].
  change (run (SpinLock.wait_ready (S n)) env s)
    with (run (if init_state s =? SPIN_READY then Ret true else SpinLock.wait_ready n) env s).
  by rewrite Hs.
Qed.

Lemma lock_init_round_idle env s :
  init_state s <> SPIN_INITING ->
  run (SpinLock.lock_init_round tt) env s =
    (Some (inr tt), env,
     mkSpin SPIN_READY (if init_state s =? SPIN_READY then lock_owner s else LOCK_INVALID_OWNER)).
Proof.
  intros Hs. unfold SpinLock.lock_init_round. cbn. destruct s as [st ow]; cbn in *.
  destruct (Z.eqb_spec st SPIN_READY) as [->|Hr]; [done|]. rewrite (proj2 (Z.eqb_neq _ _) Hs).
  cbn. rewrite orb_true_r. cbn. by rewrite Z.eqb_refl.
Qed.

Lemma lock_init_round_initing env s :
  init_state s = SPIN_INITING ->
  run (SpinLock.lock_init_round tt) env s =
    (Some (inl tt), env, mkSpin SPIN_INIT_EMPTY (lock_owner s)).
Proof.
  intros Hs. unfold SpinLock.lock_init_round. cbn. rewrite Hs. cbn.
  rewrite run_bind, wait_ready_initing by done. cbn. by rewrite Hs.
Qed.

(** C30: initialization ends ready whatever the memory holds.  Run alone on a
    memory with any contents, [lock_init] returns within two rounds with the state
    READY; a lock that was already ready keeps its owner, any other memory
    (including one whose initializer died half-way) becomes a free lock. *)
Theorem spin_lock_init_ready fuel env s :
  (2 <= fuel)%nat ->
  run (ub_spin_lock_init fuel false) env s =
    (Some tt, env,
     mkSpin SPIN_READY (if init_state s =? SPIN_READY then lock_owner s else LOCK_INVALID_OWNER)).
Proof.
  intros Hf. destruct fuel as [|[|n]]; [lia|lia|].
  unfold ub_spin_lock_init, SpinLock.lock_init. cbn [iter]. rewrite run_bind.
  destruct (Z.eq_dec (init_state s) SPIN_INITING) as [Hs|Hs].
  - rewrite lock_init_round_initing by done. rewrite run_bind, lock_init_round_idle by done.
    by rewrite Hs.
  - by rewrite lock_init_round_idle.
Qed.

Lemma spin_lock_init_ready_witness :
  run (ub_spin_lock_init 2 false) [] (mkSpin SPIN_INITING 77) = (Some tt, [], spin_ready).
Proof. exact (spin_lock_init_ready 2 [] (mkSpin SPIN_INITING 77) (Nat.le_refl 2)). Defined.

Lemma lock_round_held fuel identity deadline n s sps late env :
  lock_owner s <> LOCK_INVALID_OWNER -> (length sps <= fuel)%nat -> deadline <= late ->
  0 <= n -> n + Z.of_nat (length sps) = SPIN_YIELD_INTERVAL -> sps <> [] ->
  run (iter fuel (SpinLock.lock_round identity deadline) n) (sps ++ late :: env) s =
    (Some UB_LOCK_TIMEOUT, env, s).
Proof.
  intros Ho Hf Hd. revert fuel n Hf. induction sps as [|sp sps IH]; intros fuel n Hf Hn Hlen Hne; [done|].
  destruct fuel as [|fuel]; cbn [length] in *; [lia|]. unfold SPIN_YIELD_INTERVAL in Hlen.
  apply Z.eqb_neq in Ho. cbn [iter]. rewrite run_bind. unfold SpinLock.lock_round at 1.
  assert (Hu : u32 (n + 1) = n + 1) by (apply u32_small; lia).
  destruct sps as [|sp' sps].
  - cbn [length] in Hlen. cbn. destruct (sp =? 0); cbn; rewrite ?Ho; cbn; rewrite Hu;
      (replace (n + 1) with SPIN_YIELD_INTERVAL by (unfold SPIN_YIELD_INTERVAL; lia));
      rewrite Z_mod_same_full; cbn; by rewrite (proj2 (Z.leb_le _ _) Hd).
  - cbn [length] in Hlen, Hf. assert (Hm : ((n + 1) mod SPIN_YIELD_INTERVAL =? 0) = false).
    { apply Z.eqb_neq. unfold SPIN_YIELD_INTERVAL. rewrite Z.mod_small; lia. }
    cbn. destruct (sp =? 0); cbn; rewrite ?Ho; cbn; rewrite Hu, Hm; cbn;
      apply IH; try done; cbn [length]; unfold SPIN_YIELD_INTERVAL; lia.
Qed.

(** The sequential contract of [lock] and [unlock] on a ready lock.  A free lock
    is taken by a valid caller in one round (with no spurious failure), and
    [unlock] by the owner frees it again; locking a lock one already owns,
    unlocking a lock one does not own, and an invalid node are refused with
    [UB_LOCK_ERROR] and change nothing. *)
Theorem spin_lock_contract fuel timeout l env now o :
  (1 <= fuel)%nat -> valid_location l -> is_invalid_node (node_id l) = false ->
  let locked := mkSpin SPIN_READY (identify l) in
  (run (ub_spin_lock_lock fuel false timeout (Some l)) (now :: 0 :: env) spin_ready =
     (Some UB_LOCK_SUCCESS, env, locked)) /\
  (run (ub_spin_unlock false (Some l)) env locked = (Some UB_LOCK_SUCCESS, env, spin_ready)) /\
  (run (ub_spin_lock_lock fuel false timeout (Some l)) env locked =
     (Some UB_LOCK_ERROR, env, locked)) /\
  (o <> identify l ->
     run (ub_spin_unlock false (Some l)) env (mkSpin SPIN_READY o) =
       (Some UB_LOCK_ERROR, env, mkSpin SPIN_READY o)) /\
  (forall l' s, is_invalid_node (node_id l') = true ->
     run (ub_spin_lock_lock fuel false timeout (Some l')) env s = (Some UB_LOCK_ERROR, env, s) /\
     run (ub_spin_unlock false (Some l')) env s = (Some UB_LOCK_ERROR, env, s)).
Proof.
  intros Hf Hv Hn locked. assert (Hne := identify_not_invalid l Hv Hn).
  destruct fuel as [|n]; [lia|]. cbn [ub_spin_lock_lock ub_spin_unlock].
  unfold SpinLock.lock, SpinLock.unlock, SpinLock.bad_parameter. rewrite Hn. cbn.
  rewrite !Z.eqb_refl. cbn. rewrite (proj2 (Z.eqb_neq LOCK_INVALID_OWNER (identify l))) by congruence.
  cbn. split_and!; [done|by rewrite Z.eqb_refl|done| |].
  - intros Ho. by rewrite (proj2 (Z.eqb_neq _ _) Ho).
  - intros l' s Hl'. by rewrite Hl'.
Qed.

Lemma spin_lock_contract_witness :
  run (ub_spin_lock_lock 1 false 0 (Some (Location 3 2))) [0; 0] spin_ready =
    (Some UB_LOCK_SUCCESS, [], mkSpin SPIN_READY (identify (Location 3 2))).
Proof.
  destruct (spin_lock_contract 1 0 (Location 3 2) [] 0 0) as [H _].
  - lia.
  - split; cbn; lia.
  - reflexivity.
  - exact H.
Defined.

(** Waiting is bounded by the timeout.  While another owner keeps the lock, a
    caller that finds the clock past its deadline (the default 10 s for timeout 0)
    when it checks, after [SPIN_YIELD_INTERVAL] rounds, returns [UB_LOCK_TIMEOUT]
    and leaves the lock as it was; a fuel of [SPIN_YIELD_INTERVAL] is enough. *)
Theorem spin_lock_times_out fuel timeout l o now sps late env :
  is_invalid_node (node_id l) = false -> o <> LOCK_INVALID_OWNER -> o <> identify l ->
  (Z.to_nat SPIN_YIELD_INTERVAL <= fuel)%nat -> length sps = Z.to_nat SPIN_YIELD_INTERVAL ->
  now + (if timeout =? 0 then DEFAULT_SPIN_TIMEOUT_MS else timeout) * 1000 <= late ->
  run (ub_spin_lock_lock fuel false timeout (Some l)) (now :: sps ++ late :: env)
    (mkSpin SPIN_READY o) = (Some UB_LOCK_TIMEOUT, env, mkSpin SPIN_READY o).
Proof.
  intros Hn Ho Hi Hf Hs Hl. cbn [ub_spin_lock_lock].
  unfold SpinLock.lock, SpinLock.bad_parameter. rewrite Hn. cbn.
  rewrite (proj2 (Z.eqb_neq _ _) Hi). cbn.
  apply lock_round_held; try done; rewrite ?Hs; try done.
  intros ->. by compute in Hs.
Qed.

Lemma spin_lock_times_out_witness :
  run (ub_spin_lock_lock 1024 false 1 (Some (Location 3 2)))
    (0 :: replicate 1024 0 ++ [1000]) (mkSpin SPIN_READY 5) =
  (Some UB_LOCK_TIMEOUT, [], mkSpin SPIN_READY 5).
Proof.
  apply (spin_lock_times_out 1024 1 (Location 3 2) 5 0 (replicate 1024 0) 1000 []).
  - reflexivity.
  - discriminate.
  - discriminate.
  - vm_compute. lia.
  - reflexivity.
  - vm_compute. discriminate.
Defined.
