(* ===== verification/LockRuntime.v ===== *)
(** What the locks use of the process they run in and of the other nodes.

    Every node runs one process.  A process has a [WaiterRegistry]
    (src/ub_lock/local_lock.h), the map from thread ids to the wait contexts of its
    blocked threads, and a handle on the transport that carries messages between
    nodes.  A lock that wakes a waiter of another node sends it a UB_GRANT message;
    the receiving process looks the thread up in its registry and notifies it
    (src/ub_lock/message_manage.cpp).

    A thread blocks in at most one wait context at a time and thread ids are
    unique in a process, so the registry is the map from thread ids to the
    [notified] flag of the registered context.  The transport is a list of
    accepted messages per destination; how the ring underneath delivers them is the subject
    of the MPSC files. *)

From S2P Require Import Prelude Atomic CommTypes LockTypes.

(** * Messages *)

Inductive ub_message_type_t : Set := UB_GRANT | UB_RELEASE | UB_UNKNOWN.

(** [addr] is a pointer, 0 the null pointer. *)
Record local_msg_body_t : Set := MsgBody {
  body_tid : Z; body_addr : Z; body_type : ub_message_type_t; body_mode : ub_lock_mode_t }.

Definition sizeof_local_msg_body : Z := 24.

(** A message with its body, [None] where the body pointer is null. *)
Record message_t : Set := Message { header : message_header_t; body : option local_msg_body_t }.

Definition LOCK_MSG_TYPE : Z := 0xFF.

(** [DistributedLock::create_message]; [create_mutex_message] builds the same message. *)
Definition create_message (location : ub_location_t) (node : Z) (b : local_msg_body_t) : message_t :=
  Message (Header 0 sizeof_local_msg_body (node_id location) node LOCK_MSG_TYPE 0) (Some b).

(** * Processes *)

Record runtime : Set := Runtime {
  waiter_map : gmap Z bool;   (** the registered wait contexts: thread id to [notified] *)
  transport : bool;           (** g_transport is not null *)
  msg_func : bool }.          (** message_process_thread_func is registered *)

Record network : Set := Network { procs : list runtime; inboxes : list (list message_t) }.

Definition no_runtime : runtime := Runtime ∅ false false.

Definition proc (net : network) (node : Z) : runtime := getZ no_runtime (procs net) node.
Definition set_proc (node : Z) (r : runtime) (net : network) : network :=
  Network (setZ (procs net) node r) (inboxes net).
Definition set_waiters (node : Z) (m : gmap Z bool) (net : network) : network :=
  set_proc node (Runtime m (transport (proc net node)) (msg_func (proc net node))) net.
Definition inbox (net : network) (node : Z) : list message_t := getZ [] (inboxes net) node.
Definition set_inbox (node : Z) (ms : list message_t) (net : network) : network :=
  Network (procs net) (setZ (inboxes net) node ms).

(** ** The waiter registry *)

(** A fresh context is not notified. *)
Definition register_waiter (node tid : Z) : prog network unit :=
  store (fun net => set_waiters node (<[tid := false]> (waiter_map (proc net node))) net).

Definition unregister_waiter (node tid : Z) : prog network unit :=
  store (fun net => set_waiters node (delete tid (waiter_map (proc net node))) net).

Definition notify_local_waiter (node tid : Z) : prog network bool :=
  act (fun net =>
    match waiter_map (proc net node) !! tid with
    | Some _ => (true, set_waiters node (<[tid := true]> (waiter_map (proc net node))) net)
    | None => (false, net)
    end).

(** [local_wait_ctx_t::wait]: [cv.wait_until] with the predicate [notified].  The
    predicate is tested once more after the deadline has passed. *)
Definition notified (node tid : Z) (net : network) : bool :=
  default false (waiter_map (proc net node) !! tid).
Definition wait_round (node tid deadline : Z) (_ : unit) : prog network (unit + bool) :=
  do n <- load (notified node tid);
  if n : bool then Ret (inr true) else
  do now <- ask QSteady;
  if deadline <=? now then do n' <- load (notified node tid); Ret (inr n')
  else Ret (inl tt).
Definition ctx_wait (fuel : nat) (node tid deadline : Z) : prog network bool :=
  iter fuel (wait_round node tid deadline) tt.

(** [WaiterGuard]: the context of [tid] is registered while [p] runs. *)
Definition with_waiter_guard {S A} (l : lens S network) (node tid : Z) (p : prog S A) : prog S A :=
  lift l (register_waiter node tid) ;;;
  do r <- p;
  lift l (unregister_waiter node tid) ;;;
  Ret r.

(** ** Sending *)

(** [g_transport->send]: the code is the transport's; 0 and UB_COMM_SEND_CONGESTED mean
    the message was accepted for delivery. *)
Definition transport_send (msg : message_t) : prog network Z :=
  do ret <- ask QExternal;
  if (ret =? UB_COMM_OK) || (ret =? UB_COMM_SEND_CONGESTED) then
    store (fun net => let d := dest_node_id (header msg) in set_inbox d (inbox net d ++ [msg]) net) ;;;
    Ret ret
  else Ret ret.

(** The pause before the next attempt, in microseconds. *)
Definition backoff_us (attempt : Z) : Z :=
  let us := u32 (Z.shiftl 50 (if 7 <? attempt then 7 else attempt)) in
  if 5000 <? us then 5000 else us.
Definition sleep_us {S} (us : Z) : prog S unit := Ret tt.

Fixpoint send_attempts (n : nat) (i : Z) (msg : message_t) : prog network ub_lock_result_t :=
  match n with
  | O => Ret UB_LOCK_ERROR
  | S n' =>
      do ret <- transport_send msg;
      if ret =? 0 then Ret UB_LOCK_SUCCESS
      else sleep_us (backoff_us i) ;;; send_attempts n' (i + 1) msg
  end.
Definition send_with_retry (msg : message_t) (max_attempts : nat) : prog network ub_lock_result_t :=
  send_attempts max_attempts 0 msg.

(** ** Receiving *)

Definition valid_node_id (node : Z) : bool := node <? UB_MAX_NODES.

(** [message_process_thread_func] of the process [node]; [on_release] is its
    UB_RELEASE case, which belongs to the read-write lock. *)
Definition message_process_thread_func {S} (l : lens S network) (node : Z)
    (on_release : message_t -> local_msg_body_t -> prog S unit)
    (msg : option message_t) : prog S unit :=
  match msg with
  | None => Ret tt
  | Some m =>
      match body m with
      | None => Ret tt
      | Some b =>
          if negb (body_length (header m) =? sizeof_local_msg_body) then Ret tt else
          if negb (valid_node_id (src_node_id (header m)))
             || negb (valid_node_id (dest_node_id (header m))) then Ret tt else
          match body_type b with
          | UB_GRANT => do _ <- lift l (notify_local_waiter node (body_tid b)); Ret tt
          | UB_RELEASE => on_release m b
          | UB_UNKNOWN => Ret tt
          end
      end
  end.

(** [register_message_process_func]: the first call with a transport registers the
    callback ([call_once]; a call that throws leaves the flag unset).
    [register_func_for_lock] is asked for its result. *)
Definition register_message_process_func (node : Z) : prog network unit :=
  do r <- load (fun net => proc net node);
  if msg_func r then Ret tt else
  if negb (transport r) then Ret tt else
  do ret <- ask QExternal;
  if ret =? 0 then
    store (fun net => set_proc node (Runtime (waiter_map (proc net node)) (transport (proc net node)) true) net)
  else Ret tt.

(** One step of the thread that hands received messages to the callback. *)
Definition receive (node : Z) : prog network (option message_t) :=
  act (fun net => match inbox net node with
                  | m :: ms => (Some m, set_inbox node ms net)
                  | [] => (None, net)
                  end).

(** * Lemmas *)

Definition accepted (ret : Z) : bool := (ret =? UB_COMM_OK) || (ret =? UB_COMM_SEND_CONGESTED).

(** The answers [send_with_retry] consumes: up to and including the first 0. *)
Fixpoint tried (answers : list Z) : list Z :=
  match answers with
  | [] => []
  | r :: rs => if r =? 0 then [r] else r :: tried rs
  end.
Definition copies (answers : list Z) : nat := length (filter (fun r => accepted r = true) (tried answers)).

Definition push (d : Z) (ms : list message_t) (net : network) : network := set_inbox d (inbox net d ++ ms) net.

Lemma push_push d ms ms' net :
  0 <= d < Z.of_nat (length (inboxes net)) -> push d ms' (push d ms net) = push d (ms ++ ms') net.
Proof.
  intros Hd. unfold push, set_inbox, inbox; cbn. f_equal. rewrite getZ_setZ_eq by lia. unfold setZ.
  by rewrite list_insert_insert_eq, app_assoc.
Qed.

Lemma push_nil d net : 0 <= d < Z.of_nat (length (inboxes net)) -> push d [] net = net.
Proof.
  intros Hd. unfold push, set_inbox, inbox, getZ, setZ. destruct net as [ps bs]; cbn in *. f_equal.
  rewrite app_nil_r. apply list_insert_id. destruct (lookup_lt_is_Some_2 bs (Z.to_nat d)) as [x Hx]; [lia|].
  by rewrite Hx.
Qed.

Lemma run_transport_send msg ret env net :
  run (transport_send msg) (ret :: env) net =
    (Some ret, env, if accepted ret then push (dest_node_id (header msg)) [msg] net else net).
Proof. unfold transport_send, accepted. cbn. by destruct (_ || _). Qed.

Lemma copies_cons ret rs :
  copies (ret :: rs) = ((if accepted ret then 1 else 0) + (if (ret =? 0)%Z then 0 else copies rs))%nat.
Proof.
  unfold copies. cbn [tried]. destruct (ret =? 0); rewrite filter_cons;
    destruct (accepted ret); case_decide; done.
Qed.

Lemma run_send_attempts msg answers i env net :
  let d := dest_node_id (header msg) in
  0 <= d < Z.of_nat (length (inboxes net)) ->
  run (send_attempts (length answers) i msg) (answers ++ env) net =
    (Some (if bool_decide (0 ∈ answers) then UB_LOCK_SUCCESS else UB_LOCK_ERROR),
     drop (length (tried answers)) answers ++ env,
     push d (replicate (copies answers) msg) net).
Proof.
  intros d. revert i net. induction answers as [|ret rs IH]; intros i net Hd.
  { cbn. by rewrite push_nil. }
  cbn [length app send_attempts]. rewrite run_bind, run_transport_send, copies_cons. cbn [tried].
  destruct (Z.eqb_spec ret 0) as [->|Hr].
  - cbn. rewrite drop_0. by rewrite bool_decide_true by left.
  - cbn [sleep_us bind]. rewrite IH.
    + f_equal; [f_equal|].
      * rewrite (bool_decide_ext (0 ∈ ret :: rs) (0 ∈ rs)); [done|]. rewrite elem_of_cons. intuition congruence.
      * destruct (accepted ret); [by rewrite push_push|done].
    + destruct (accepted ret); [|done]. unfold push, set_inbox; cbn. by rewrite length_setZ.
Qed.

(** * Properties *)

(** C33: what a send with retries delivers.  For any codes the transport answers with,
    [send_with_retry] reports success exactly when some attempt returned 0, stops
    at the first such attempt, and one copy of the message is delivered for every attempt the
    transport accepted.  So five attempts answered by UB_COMM_SEND_CONGESTED, which
    means accepted, deliver five copies and report an error. *)
Theorem send_with_retry_delivers msg answers env net :
  let d := dest_node_id (header msg) in
  0 <= d < Z.of_nat (length (inboxes net)) ->
  run (send_with_retry msg (length answers)) (answers ++ env) net =
    (Some (if bool_decide (0 ∈ answers) then UB_LOCK_SUCCESS else UB_LOCK_ERROR),
     drop (length (tried answers)) answers ++ env,
     push d (replicate (copies answers) msg) net).
Proof. intros d Hd. by apply run_send_attempts. Qed.

Definition grant_3 : message_t := create_message (Location 7 3) 1 (MsgBody 7 0 UB_GRANT UB_LOCK_X).

Lemma send_with_retry_delivers_witness :
  let net := Network (replicate 4 no_runtime) (replicate 4 []) in
  run (send_with_retry grant_3 5) (replicate 5 UB_COMM_SEND_CONGESTED) net =
    (Some UB_LOCK_ERROR, [], push 3 (replicate 5 grant_3) net).
Proof.
  intros net. assert (H : 0 <= 3 < 4) by lia.
  exact (send_with_retry_delivers grant_3 (replicate 5 UB_COMM_SEND_CONGESTED) [] net H).
Defined.

(** A grant wakes its waiter.  A UB_GRANT message for a thread of this node, from a
    valid node, marks exactly the registered context of that thread as notified
    and changes nothing if the thread is not waiting; a thread whose context is
    marked returns from its wait with success without looking at the clock. *)
Theorem grant_wakes_waiter {S} (l : lens S network) `{!LensLaws l} (wl : ub_location_t) src mode on_release env (s : S) :
  valid_node_id src = true -> valid_node_id (node_id wl) = true ->
  let node := node_id wl in
  let msg := create_message wl src (MsgBody (tid wl) 0 UB_GRANT mode) in
  let net := lget l s in
  run (message_process_thread_func l node on_release (Some msg)) env s =
    (Some tt, env,
     lset l (match waiter_map (proc net node) !! tid wl with
             | Some _ => set_waiters node (<[tid wl := true]> (waiter_map (proc net node))) net
             | None => net
             end) s) /\
  forall fuel deadline net', (1 <= fuel)%nat -> waiter_map (proc net' node) !! tid wl = Some true ->
    run (ctx_wait fuel node (tid wl) deadline) env net' = (Some true, env, net').
Proof.
  intros Hs Hd node msg net. split.
  - unfold message_process_thread_func, msg. cbn. rewrite Hs, Hd. cbn.
    destruct (waiter_map _ !! tid wl); cbn; done.
  - intros fuel deadline net' Hf Hn. unfold ctx_wait. rewrite iter_round, run_bind by done.
    cbn. unfold notified. by rewrite Hn.
Qed.

Lemma grant_wakes_waiter_witness :
  let net := set_waiters 3 {[ 7 := false ]} (Network (replicate 4 no_runtime) (replicate 4 [])) in
  (run (message_process_thread_func lens_id 3 (fun _ _ => Ret tt) (Some grant_3)) [] net).1.1 = Some tt.
Proof.
  intros net. destruct (grant_wakes_waiter lens_id (Location 7 3) 1 UB_LOCK_X (fun _ _ => Ret tt) [] net
    eq_refl eq_refl) as [H _].
  exact (f_equal (fun o => o.1.1) H).
Defined.
