(* ===== verification/RingQueue.v ===== *)
(** The wait queue (src/ub_lock/ring_queue.h): a ring of slots in which threads queue for
    a lock.  The read-write lock and the mutex keep one of [UB_MAX_NODES] slots in shared
    memory ([ub_waiter_t], the waiter is a location) and one of [UB_MAX_CAPACITY] slots
    in each process ([local_waiter_t], the waiter is a thread id); the operations
    are templates over the capacity and the slot type and so are the definitions here.

    A waiter enqueues itself (its ticket is the tail), the thread that releases the lock
    marks the slot at the head NOTIFIED and wakes its waiter, and the waiter pops the
    head when it has taken the lock; a waiter that gives up marks its slot TIMEOUT, and
    such slots are passed over when they reach the head.  [wait_queue_refines] says that this is
    a FIFO queue. *)

From S2P Require Import Prelude Atomic LockTypes.

Definition UB_WAIT_EMPTY : Z := 0.
Definition UB_WAIT_WRITING : Z := 1.
Definition UB_WAIT_WAITING : Z := 2.
Definition UB_WAIT_NOTIFIED : Z := 3.
Definition UB_WAIT_TIMEOUT : Z := 4.

(** The identity a slot holds, and what an unused slot holds instead. *)
Class Waiter (W : Type) := no_waiter : W.
#[global] Instance location_waiter : Waiter ub_location_t := Location 0 255.
#[global] Instance tid_waiter : Waiter Z := 0.

Record slot (W : Type) := Slot { seq : Z; mode : ub_lock_mode_t; who : W }.
Arguments Slot {W} _ _ _.
Arguments seq {W} _.
Arguments mode {W} _.
Arguments who {W} _.

(** head, tail and count are 32-bit counters. *)
Record wait_queue (W : Type) := WaitQueue {
  q_head : Z; q_tail : Z; q_count : Z; slots : list (slot W) }.
Arguments WaitQueue {W} _ _ _ _.
Arguments q_head {W} _.
Arguments q_tail {W} _.
Arguments q_count {W} _.
Arguments slots {W} _.

Section Operations.
Context {W : Type} `{!Waiter W}.
(** CAP, a power of two *)
Context (CAP : Z).

Definition l_head : lens (wait_queue W) Z :=
  Lens q_head (fun v q => WaitQueue v (q_tail q) (q_count q) (slots q)).
Definition l_tail : lens (wait_queue W) Z :=
  Lens q_tail (fun v q => WaitQueue (q_head q) v (q_count q) (slots q)).
Definition l_count : lens (wait_queue W) Z :=
  Lens q_count (fun v q => WaitQueue (q_head q) (q_tail q) v (slots q)).

Definition empty_slot : slot W := Slot UB_WAIT_EMPTY UB_LOCK_I no_waiter.
Definition slot_of (q : wait_queue W) (idx : Z) : slot W := getZ empty_slot (slots q) idx.
Definition set_slot (idx : Z) (s : slot W) (q : wait_queue W) : wait_queue W :=
  WaitQueue (q_head q) (q_tail q) (q_count q) (setZ (slots q) idx s).

Definition l_seq (idx : Z) : lens (wait_queue W) Z :=
  Lens (fun q => seq (slot_of q idx))
       (fun v q => set_slot idx (Slot v (mode (slot_of q idx)) (who (slot_of q idx))) q).

Definition store_mode (idx : Z) (m : ub_lock_mode_t) : prog (wait_queue W) unit :=
  store (fun q => set_slot idx (Slot (seq (slot_of q idx)) m (who (slot_of q idx))) q).
Definition store_who (idx : Z) (w : W) : prog (wait_queue W) unit :=
  store (fun q => set_slot idx (Slot (seq (slot_of q idx)) (mode (slot_of q idx)) w) q).

(** [ticket & (CAP - 1u)] *)
Definition index (ticket : Z) : Z := Z.land ticket (CAP - 1).

Definition ring_queue_reset_payload (idx : Z) : prog (wait_queue W) unit :=
  store_mode idx UB_LOCK_I ;;; store_who idx no_waiter.

Definition dec_count_round (cur : Z) : prog (wait_queue W) (Z + unit) :=
  if 0 <? cur then
    do '(ok, cur') <- cas_weak l_count cur (cur - 1);
    Ret (if ok : bool then inr tt else inl cur')
  else Ret (inr tt).
Definition ring_queue_try_dec_count (fuel : nat) : prog (wait_queue W) unit :=
  do cur <- load (lget l_count); iter fuel dec_count_round cur.

Definition mark_timeout_round (fuel : nat) (idx s : Z) : prog (wait_queue W) (Z + bool) :=
  if (s =? UB_WAIT_WRITING) || (s =? UB_WAIT_WAITING) || (s =? UB_WAIT_NOTIFIED) then
    do '(ok, s') <- cas_weak (l_seq idx) s UB_WAIT_TIMEOUT;
    if ok : bool then
      ring_queue_reset_payload idx ;;;
      ring_queue_try_dec_count fuel ;;;
      Ret (inr true)
    else Ret (inl s')
  else Ret (inr false).
Definition ring_queue_try_mark_timeout (fuel : nat) (idx : Z) : prog (wait_queue W) bool :=
  do s <- load (lget (l_seq idx)); iter fuel (mark_timeout_round fuel idx) s.

Definition ring_queue_init : prog (wait_queue W) unit :=
  store (lset l_head 0) ;;;
  store (lset l_tail 0) ;;;
  store (lset l_count 0) ;;;
  for_each (seqZ 0 CAP) (fun i =>
    store (lset (l_seq i) UB_WAIT_EMPTY) ;;;
    store_mode i UB_LOCK_I ;;;
    store_who i no_waiter).

Definition advance_round (_ : unit) : prog (wait_queue W) (unit + unit) :=
  do h <- load (lget l_head);
  do t <- load (lget l_tail);
  if h =? t then Ret (inr tt) else
  do s <- load (lget (l_seq (index h)));
  if s =? UB_WAIT_TIMEOUT then
    do _ <- cas_weak l_head h (u32 (h + 1)); Ret (inl tt)
  else Ret (inr tt).
Definition ring_queue_advance_dead_head (fuel : nat) : prog (wait_queue W) unit :=
  iter fuel advance_round tt.

Definition claim_round (_ : unit) : prog (wait_queue W) (unit + option Z) :=
  do h <- load (lget l_head);
  do t <- load (lget l_tail);
  if CAP <=? u32 (t - h) then Ret (inr None) else
  do '(ok, _) <- cas_weak l_tail t (u32 (t + 1));
  Ret (if ok : bool then inr (Some t) else inl tt).

Definition ring_queue_enqueue (fuel : nat) (m : ub_lock_mode_t) (w : W)
    : prog (wait_queue W) (ub_lock_result_t * Z) :=
  do r <- iter fuel claim_round tt;
  match r with
  | None => Ret (UB_LOCK_ERROR, 0)
  | Some ticket =>
      let idx := index ticket in
      do _ <- load (lget (l_seq idx));
      store (lset (l_seq idx) UB_WAIT_WRITING) ;;;
      store_mode idx m ;;;
      store_who idx w ;;;
      store (lset (l_seq idx) UB_WAIT_WAITING) ;;;
      rmw l_count (fun c => u32 (c + 1)) ;;;
      Ret (UB_LOCK_SUCCESS, ticket)
  end.

(** [None] is UB_LOCK_ERROR; otherwise the index of the slot that was marked. *)
Fixpoint outqueue_loop (sanity : nat) : prog (wait_queue W) (option Z) :=
  match sanity with
  | O => Ret None
  | S n =>
      do h <- load (lget l_head);
      let idx := index h in
      do s <- load (lget (l_seq idx));
      if s =? UB_WAIT_WRITING then outqueue_loop n
      else if s =? UB_WAIT_WAITING then
        do '(ok, _) <- cas_strong (l_seq idx) UB_WAIT_WAITING UB_WAIT_NOTIFIED;
        if ok : bool then Ret (Some idx) else outqueue_loop n
      else Ret None
  end.
Definition ring_queue_outqueue : prog (wait_queue W) (option Z) := outqueue_loop (Z.to_nat (CAP * 4)).

Definition ring_queue_clean_timeout (fuel : nat) (ticket : Z) : prog (wait_queue W) unit :=
  ring_queue_try_mark_timeout fuel (index ticket) ;;; Ret tt.

Definition peek_round (_ : unit) : prog (wait_queue W) (unit + option ub_lock_mode_t) :=
  do h <- load (lget l_head);
  do t <- load (lget l_tail);
  if h =? t then Ret (inr None) else
  let idx := index h in
  do s <- load (lget (l_seq idx));
  if s =? UB_WAIT_WRITING then Ret (inl tt)
  else if s =? UB_WAIT_WAITING then
    do m <- load (fun q => mode (slot_of q idx)); Ret (inr (Some m))
  else if s =? UB_WAIT_NOTIFIED then Ret (inr None)
  else if s =? UB_WAIT_TIMEOUT then
    do _ <- cas_weak l_head h (u32 (h + 1)); Ret (inl tt)
  else Ret (inr None).
Definition ring_queue_peek_head_mode_clean (fuel : nat)
    : prog (wait_queue W) (option ub_lock_mode_t) := iter fuel peek_round tt.

Definition ring_queue_pop_head (fuel : nat) (ticket : Z) : prog (wait_queue W) unit :=
  let idx := index ticket in
  store (lset (l_seq idx) UB_WAIT_EMPTY) ;;;
  ring_queue_reset_payload idx ;;;
  rmw l_head (fun h => u32 (h + 1)) ;;;
  ring_queue_try_dec_count fuel.

Definition ring_queue_try_self_handoff_if_head (ticket : Z) : prog (wait_queue W) bool :=
  do h <- load (lget l_head);
  do t <- load (lget l_tail);
  if h =? t then Ret false else
  if negb (h =? ticket) then Ret false else
  do '(ok, _) <- cas_strong (l_seq (index ticket)) UB_WAIT_WAITING UB_WAIT_NOTIFIED;
  Ret (ok : bool).

End Operations.

(** * The queue as a FIFO *)

Inductive wait_status : Set := Waiting | Notified | Dead.
#[global] Instance wait_status_eq_dec : EqDecision wait_status.
Proof. solve_decision. Defined.

Record entry (W : Type) := Entry { e_status : wait_status; e_mode : ub_lock_mode_t; e_who : W }.
Arguments Entry {W} _ _ _.
Arguments e_status {W} _.
Arguments e_mode {W} _.
Arguments e_who {W} _.

(** The abstract queue: the ticket of its first entry, and the entries in order. *)
Record fifo (W : Type) := Fifo { f_head : Z; f_entries : list (entry W) }.
Arguments Fifo {W} _ _.
Arguments f_head {W} _.
Arguments f_entries {W} _.

Definition is_dead {W} (e : entry W) : bool := bool_decide (e_status e = Dead).
Definition set_status {W} (st : wait_status) (e : entry W) : entry W := Entry st (e_mode e) (e_who e).

Fixpoint drop_dead {W} (h : Z) (l : list (entry W)) : fifo W :=
  match l with
  | e :: l' => if is_dead e then drop_dead (u32 (h + 1)) l' else Fifo h l
  | [] => Fifo h []
  end.

(** Operations on the queue and their results.  Waiters refer to their entry by
    its distance [k] from the head; [ticket_of] is the ticket. *)
Inductive queue_op (W : Type) :=
| OpEnqueue (m : ub_lock_mode_t) (w : W)
| OpOutqueue
| OpPop
| OpTimeout (k : nat)
| OpAdvance
| OpPeek
| OpHandoff (k : nat).
Arguments OpEnqueue {W} _ _.
Arguments OpOutqueue {W}.
Arguments OpPop {W}.
Arguments OpTimeout {W} _.
Arguments OpAdvance {W}.
Arguments OpPeek {W}.
Arguments OpHandoff {W} _.

Inductive queue_result : Type :=
| RTicket (r : ub_lock_result_t) (ticket : Z)
| RSlot (idx : option Z)
| RMode (m : option ub_lock_mode_t)
| RBool (b : bool)
| RUnit.

Section Fifo.
Context {W : Type} `{!Waiter W} (CAP : Z).

Definition ticket_of (f : fifo W) (k : nat) : Z := u32 (f_head f + Z.of_nat k).

(** What each operation does to the abstract queue. *)
Definition fifo_step (op : queue_op W) (f : fifo W) : queue_result * fifo W :=
  let h := f_head f in
  match op with
  | OpEnqueue m w =>
      if CAP <=? Z.of_nat (length (f_entries f)) then (RTicket UB_LOCK_ERROR 0, f)
      else (RTicket UB_LOCK_SUCCESS (ticket_of f (length (f_entries f))),
            Fifo h (f_entries f ++ [Entry Waiting m w]))
  | OpOutqueue =>
      match f_entries f with
      | Entry Waiting m w :: l => (RSlot (Some (index CAP h)), Fifo h (Entry Notified m w :: l))
      | _ => (RSlot None, f)
      end
  | OpPop => (RUnit, Fifo (u32 (h + 1)) (tail (f_entries f)))
  | OpTimeout k => (RUnit, Fifo h (alter (set_status Dead) k (f_entries f)))
  | OpAdvance => (RUnit, drop_dead h (f_entries f))
  | OpPeek =>
      let f' := drop_dead h (f_entries f) in
      (RMode (match f_entries f' with Entry Waiting m _ :: _ => Some m | _ => None end), f')
  | OpHandoff k =>
      match k, f_entries f with
      | O, Entry Waiting m w :: l => (RBool true, Fifo h (Entry Notified m w :: l))
      | _, _ => (RBool false, f)
      end
  end.

(** Tickets belong to queued waiters, and only a live head is popped. *)
Definition legal (op : queue_op W) (f : fifo W) : Prop :=
  match op with
  | OpPop => match f_entries f with e :: _ => is_dead e = false | [] => False end
  | OpTimeout k | OpHandoff k => (k < length (f_entries f))%nat
  | _ => True
  end.

(** The operation of the source for each of them. *)
Definition queue_call (fuel : nat) (f : fifo W) (op : queue_op W) : prog (wait_queue W) queue_result :=
  match op with
  | OpEnqueue m w => do '(r, t) <- ring_queue_enqueue CAP fuel m w; Ret (RTicket r t)
  | OpOutqueue => do r <- ring_queue_outqueue CAP; Ret (RSlot r)
  | OpPop => ring_queue_pop_head CAP fuel (f_head f) ;;; Ret RUnit
  | OpTimeout k => ring_queue_clean_timeout CAP fuel (ticket_of f k) ;;; Ret RUnit
  | OpAdvance => ring_queue_advance_dead_head CAP fuel ;;; Ret RUnit
  | OpPeek => do m <- ring_queue_peek_head_mode_clean CAP fuel; Ret (RMode m)
  | OpHandoff k => do b <- ring_queue_try_self_handoff_if_head CAP (ticket_of f k); Ret (RBool b)
  end.

Fixpoint run_calls (fuel : nat) (ops : list (queue_op W)) (f : fifo W) (q : wait_queue W)
    : list (option queue_result) * wait_queue W :=
  match ops with
  | [] => ([], q)
  | op :: ops' =>
      let p := queue_call fuel f op in
      let '(rs, q') := run_calls fuel ops' (fifo_step op f).2 (final p q) in
      (result p q :: rs, q')
  end.

Fixpoint run_fifo (ops : list (queue_op W)) (f : fifo W) : list queue_result * fifo W :=
  match ops with
  | [] => ([], f)
  | op :: ops' =>
      let '(r, f1) := fifo_step op f in
      let '(rs, f') := run_fifo ops' f1 in (r :: rs, f')
  end.

Fixpoint all_legal (ops : list (queue_op W)) (f : fifo W) : Prop :=
  match ops with
  | [] => True
  | op :: ops' => legal op f /\ all_legal ops' (fifo_step op f).2
  end.

(** ** Representation *)

Definition cell (e : entry W) : slot W :=
  match e_status e with
  | Waiting => Slot UB_WAIT_WAITING (e_mode e) (e_who e)
  | Notified => Slot UB_WAIT_NOTIFIED (e_mode e) (e_who e)
  | Dead => Slot UB_WAIT_TIMEOUT UB_LOCK_I no_waiter
  end.

Definition free_slot (s : slot W) : Prop := seq s = UB_WAIT_EMPTY \/ seq s = UB_WAIT_TIMEOUT.

Definition live (l : list (entry W)) : Z := Z.of_nat (length (filter (fun e => is_dead e = false) l)).

(** The slot of the [k]-th position from the head. *)
Definition at_pos (q : wait_queue W) (h : Z) (k : nat) : slot W :=
  slot_of q (index CAP (h + Z.of_nat k)).

Record rep (f : fifo W) (q : wait_queue W) : Prop := {
  rep_head : q_head q = f_head f;
  rep_range : 0 <= f_head f < 2 ^ 32;
  rep_tail : q_tail q = u32 (f_head f + Z.of_nat (length (f_entries f)));
  rep_count : q_count q = live (f_entries f);
  rep_size : Z.of_nat (length (slots q)) = CAP;
  rep_fits : Z.of_nat (length (f_entries f)) <= CAP;
  rep_used : forall k e, f_entries f !! k = Some e -> at_pos q (f_head f) k = cell e;
  rep_free : forall k, (length (f_entries f) <= k)%nat -> Z.of_nat k < CAP ->
    free_slot (at_pos q (f_head f) k) }.

End Fifo.

Section Refinement.
Context {W : Type} `{!Waiter W} (CAP : Z).
Hypothesis Hpow : is_pow2 CAP.
Hypothesis Hcap : CAP <= 2 ^ 31.
Implicit Types (q : wait_queue W) (e : entry W) (l : list (entry W)) (s : slot W).

Lemma queue_cap_pos : 0 < CAP.
Proof. by apply is_pow2_pos. Qed.

Lemma index_mod t : index CAP t = t mod CAP.
Proof. by apply land_pow2_mask. Qed.

Lemma index_u32 t : index CAP (u32 t) = index CAP t.
Proof.
  destruct Hpow as (k & Hk & HC). rewrite !index_mod. unfold u32, wrap. rewrite HC.
  assert (k < 32) by (apply (Z.pow_lt_mono_r_iff 2); lia).
  replace (2 ^ 32) with (2 ^ k * 2 ^ (32 - k)) by (rewrite <- Z.pow_add_r by lia; f_equal; lia).
  rewrite Z.rem_mul_r by lia. rewrite Z.mul_comm, Z.mod_add by lia. by apply Z.mod_mod; lia.
Qed.

Lemma index_range t : 0 <= index CAP t < CAP.
Proof. rewrite index_mod. apply Z.mod_pos_bound, queue_cap_pos. Qed.

Lemma index_window h j k :
  Z.of_nat j < CAP -> Z.of_nat k < CAP ->
  index CAP (h + Z.of_nat j) = index CAP (h + Z.of_nat k) -> j = k.
Proof.
  intros Hj Hk. rewrite !index_mod. intros He.
  assert (h + Z.of_nat j = h + Z.of_nat k); [|lia].
  apply (mod_window_inj CAP h); [apply queue_cap_pos|lia|lia|done].
Qed.

Definition sized q : Prop := Z.of_nat (length (slots q)) = CAP.

Lemma slot_of_set q i s : sized q -> 0 <= i < CAP -> slot_of (set_slot i s q) i = s.
Proof. intros Hs Hi. unfold slot_of, set_slot; cbn. apply getZ_setZ_eq. unfold sized in Hs. lia. Qed.

Lemma set_slot_set q i s s' : set_slot i s (set_slot i s' q) = set_slot i s q.
Proof. unfold set_slot; cbn. f_equal. unfold setZ. apply list_insert_insert_eq. Qed.

Lemma sized_set q i s : sized q -> sized (set_slot i s q).
Proof. unfold sized, set_slot; cbn. by rewrite length_setZ. Qed.

Lemma at_pos_set q h t c j k s :
  sized q -> Z.of_nat j < CAP -> Z.of_nat k < CAP ->
  at_pos CAP (WaitQueue h t c (setZ (slots q) (index CAP (h + Z.of_nat j)) s)) h k =
  if decide (k = j) then s else at_pos CAP q h k.
Proof.
  intros Hs Hj Hk. unfold at_pos, slot_of; cbn. case_decide as Hd.
  - subst. apply getZ_setZ_eq. assert (H := index_range (h + Z.of_nat j)). unfold sized in Hs. lia.
  - apply getZ_setZ_ne; [apply index_range|apply index_range|].
    intros He. by apply index_window in He.
Qed.

Lemma at_pos_succ q h t c k :
  at_pos CAP (WaitQueue (u32 (h + 1)) t c (slots q)) (u32 (h + 1)) k = at_pos CAP q h (S k).
Proof.
  unfold at_pos, slot_of; cbn. f_equal. assert (He := index_u32 (h + 1)). rewrite !index_mod in *.
  rewrite <- Zplus_mod_idemp_l, He, Zplus_mod_idemp_l. f_equal. lia.
Qed.

Lemma at_pos_wrap q h k : Z.of_nat k + 1 = CAP -> at_pos CAP q h (S k) = at_pos CAP q h 0.
Proof.
  intros Hk. unfold at_pos. f_equal. rewrite !index_mod.
  replace (h + Z.of_nat (S k)) with (h + Z.of_nat 0 + 1 * CAP) by lia. apply Z.mod_add. lia.
Qed.

(** Writing the slot at one position. *)
Lemma rep_write h l l' q j s t' c' :
  rep CAP (Fifo h l) q -> Z.of_nat j < CAP ->
  t' = u32 (h + Z.of_nat (length l')) -> c' = live l' -> Z.of_nat (length l') <= CAP ->
  (forall k, k <> j -> l' !! k = l !! k) ->
  match l' !! j with Some e => s = cell e | None => free_slot s end ->
  rep CAP (Fifo h l') (WaitQueue h t' c' (setZ (slots q) (index CAP (h + Z.of_nat j)) s)).
Proof.
  intros [Hh Hr Ht Hc Hs Hf Hu Hfr] Hj Htt Hcc Hlen Hsame Hat. cbn in *. split; cbn; try done.
  - by rewrite length_setZ.
  - intros k e Hk. assert (Hkl := lookup_lt_Some _ _ _ Hk).
    rewrite at_pos_set by (done || lia). case_decide as Hd; [subst; by rewrite Hk in Hat|].
    apply Hu. by rewrite <- Hsame.
  - intros k Hk HkC. rewrite at_pos_set by (done || lia). apply lookup_ge_None in Hk.
    case_decide as Hd; [subst; by rewrite Hk in Hat|]. rewrite Hsame in Hk by done.
    apply Hfr; [by apply lookup_ge_None|done].
Qed.

Lemma live_cons e l : live (e :: l) = (if is_dead e then 0 else 1) + live l.
Proof. unfold live. rewrite filter_cons. destruct (is_dead e); case_decide; try done; cbn [length]; lia. Qed.

Lemma live_le l : 0 <= live l <= Z.of_nat (length l).
Proof. unfold live. induction l as [|e l IH]; [done|]. rewrite filter_cons. destruct (decide _); cbn [length]; lia. Qed.

(** Moving the head past the first entry, whose slot has become free. *)
Lemma rep_shift h e l q q' :
  rep CAP (Fifo h (e :: l)) q -> sized q' ->
  (forall k, (0 < k)%nat -> Z.of_nat k < CAP -> at_pos CAP q' h k = at_pos CAP q h k) ->
  free_slot (at_pos CAP q' h 0) ->
  rep CAP (Fifo (u32 (h + 1)) l) (WaitQueue (u32 (h + 1)) (q_tail q) (live l) (slots q')).
Proof.
  intros [Hh Hr Ht Hc Hs Hf Hu Hfr] Hs' Hsame H0. cbn in *. split; cbn; try done; try lia.
  - apply u32_bound.
  - rewrite Ht. unfold u32, wrap. rewrite Zplus_mod_idemp_l. f_equal. lia.
  - intros k e' Hk. rewrite at_pos_succ. assert (Hlt := lookup_lt_Some _ _ _ Hk).
    rewrite Hsame by lia. by apply Hu.
  - intros k Hk HkC. rewrite at_pos_succ. destruct (Z.eq_dec (Z.of_nat k + 1) CAP) as [Hw|Hw].
    + by rewrite at_pos_wrap.
    + rewrite Hsame by lia. apply Hfr; cbn; lia.
Qed.

Lemma run_dec_count fuel q :
  (1 <= fuel)%nat ->
  run (ring_queue_try_dec_count fuel) [] q =
    (Some tt, [], WaitQueue (q_head q) (q_tail q)
                    (if 0 <? q_count q then q_count q - 1 else q_count q) (slots q)).
Proof.
  intros Hf. destruct fuel as [|n]; [lia|]. unfold ring_queue_try_dec_count. cbn.
  unfold dec_count_round. destruct (0 <? q_count q); cbn; [by rewrite Z.eqb_refl|by destruct q].
Qed.

Lemma run_reset_payload q i s0 :
  sized q -> 0 <= i < CAP ->
  run (ring_queue_reset_payload i) [] (set_slot i s0 q) =
    (Some tt, [], set_slot i (Slot (seq s0) UB_LOCK_I no_waiter) q).
Proof.
  intros Hs Hi. cbn. rewrite !slot_of_set, !set_slot_set by (done || by apply sized_set).
  done.
Qed.

Lemma u32_offset h n : 0 <= n < 2 ^ 32 -> u32 (u32 (h + n) - h) = n.
Proof.
  intros Hn. unfold u32, wrap. rewrite Zminus_mod_idemp_l.
  replace (h + n - h) with n by lia. by apply Z.mod_small.
Qed.

Ltac slot_simpl :=
  rewrite ?slot_of_set, ?set_slot_set by (apply index_range || (repeat apply sized_set; done)).

(** [queue_call] computes what [fifo_step] says, and keeps the representation. *)
Definition call_ok (fuel : nat) (f : fifo W) (op : queue_op W) (q : wait_queue W) : Prop :=
  exists q', run (queue_call CAP fuel f op) [] q = (Some (fifo_step CAP op f).1, [], q') /\
             rep CAP (fifo_step CAP op f).2 q'.

#[local] Arguments index : simpl never.
#[local] Arguments set_slot : simpl never.
#[local] Arguments slot_of : simpl never.
#[local] Arguments u32 : simpl never.

Lemma rep_len_ltb h l q :
  rep CAP (Fifo h l) q -> u32 (q_tail q - q_head q) = Z.of_nat (length l).
Proof.
  intros [Hh Hr Ht _ _ Hf _ _]. cbn in *. rewrite Hh, Ht. apply u32_offset. lia.
Qed.

Lemma rep_nonempty h e l q : rep CAP (Fifo h (e :: l)) q -> (q_head q =? q_tail q) = false.
Proof.
  intros Hrep. assert (H := rep_len_ltb _ _ _ Hrep). apply Z.eqb_neq. intros He.
  rewrite He, Z.sub_diag in H. cbn in H. change (u32 0) with 0 in H. lia.
Qed.

Lemma rep_empty h q : rep CAP (Fifo h []) q -> (q_head q =? q_tail q) = true.
Proof.
  intros [Hh Hr Ht _ _ Hf _ _]. cbn in *. apply Z.eqb_eq.
  rewrite Hh, Ht, Z.add_0_r, u32_small; done.
Qed.

Lemma rep_first h e l q : rep CAP (Fifo h (e :: l)) q -> slot_of q (index CAP h) = cell e.
Proof.
  intros Hrep. assert (H := rep_used _ _ _ Hrep 0%nat e eq_refl). unfold at_pos in H.
  by rewrite Z.add_0_r in H.
Qed.

Lemma rep_first_free h q : rep CAP (Fifo h []) q -> free_slot (slot_of q (index CAP h)).
Proof.
  intros Hrep. assert (H := rep_free _ _ _ Hrep 0%nat (Nat.le_refl _) queue_cap_pos). unfold at_pos in H.
  by rewrite Z.add_0_r in H.
Qed.

Lemma live_app l e : live (l ++ [e]) = live l + (if is_dead e then 0 else 1).
Proof. induction l as [|e' l IH]; cbn [app]; rewrite !live_cons; [change (live []) with 0|rewrite IH]; lia. Qed.

Lemma enqueue_ok fuel f m w q :
  (1 <= fuel)%nat -> rep CAP f q -> call_ok fuel f (OpEnqueue m w) q.
Proof.
  intros Hfu Hrep. destruct fuel as [|n]; [lia|]. destruct f as [h l].
  assert (Hlen := rep_len_ltb _ _ _ Hrep).
  unfold call_ok. cbn -[Z.of_nat]. rewrite Hlen. destruct (Z.leb_spec CAP (Z.of_nat (length l))) as [Hfull|Hroom].
  { exists q. done. }
  cbn -[Z.of_nat]. rewrite Z.eqb_refl. cbn -[Z.of_nat].
  assert (Hs : sized q) by apply Hrep.
  destruct q as [h0 t0 c0 sl]. assert (HT := rep_tail _ _ _ Hrep). assert (HH := rep_head _ _ _ Hrep).
  assert (HC := rep_count _ _ _ Hrep). cbn -[Z.of_nat] in *. subst.
  slot_simpl. eexists. split; [reflexivity|]. unfold set_slot. cbn -[Z.of_nat]. rewrite index_u32.
  eapply (rep_write h l _ _ (length l) _ _ _ Hrep); try done; try lia.
  - rewrite length_app. cbn -[Z.of_nat]. unfold u32, wrap.
    rewrite Zplus_mod_idemp_l. f_equal. lia.
  - rewrite live_app. change (is_dead (Entry Waiting m w)) with false. apply u32_small. assert (H := live_le l). lia.
  - rewrite length_app. cbn -[Z.of_nat]. lia.
  - intros k Hk. destruct (decide (k < length l)%nat) as [Hlt|Hge]; [by rewrite lookup_app_l|].
    rewrite !lookup_ge_None_2; [done|lia|rewrite length_app; cbn; lia].
  - by rewrite lookup_app_r, Nat.sub_diag by lia.
Qed.


(** Changing the status of the first entry, between live statuses. *)
Lemma rep_set_first h m w st st' l q :
  rep CAP (Fifo h (Entry st m w :: l)) q -> st <> Dead -> st' <> Dead ->
  rep CAP (Fifo h (Entry st' m w :: l)) (set_slot (index CAP h) (cell (Entry st' m w)) q).
Proof.
  intros Hrep Hst Hst'. unfold set_slot. rewrite (rep_head _ _ _ Hrep). cbn [f_head].
  replace (index CAP h) with (index CAP (h + Z.of_nat 0)) by (by rewrite Z.add_0_r).
  eapply (rep_write h (Entry st m w :: l) _ _ 0 _ _ _ Hrep); try done.
  - apply queue_cap_pos.
  - apply (rep_tail _ _ _ Hrep).
  - rewrite (rep_count _ _ _ Hrep). cbn [f_entries]. rewrite !live_cons. unfold is_dead. cbn.
    by rewrite !bool_decide_false.
  - apply (rep_fits _ _ _ Hrep).
  - by intros [|k].
Qed.

Lemma outqueue_ok fuel f q : rep CAP f q -> call_ok fuel f OpOutqueue q.
Proof.
  intros Hrep. destruct f as [h l]. unfold call_ok. cbn -[Z.of_nat].
  unfold ring_queue_outqueue. assert (Hp := queue_cap_pos).
  destruct (Z.to_nat (CAP * 4)) as [|n] eqn:E; [lia|]. cbn -[Z.of_nat].
  rewrite (rep_head _ _ _ Hrep). cbn [f_head]. destruct l as [|[st m w] l].
  - exists q. destruct (rep_first_free _ _ Hrep) as [-> | ->]; done.
  - rewrite (rep_first _ _ _ _ Hrep). destruct st; cbn -[Z.of_nat].
    + rewrite (rep_first _ _ _ _ Hrep). cbn. eexists. split; [reflexivity|].
      by apply (rep_set_first h m w Waiting).
    + by exists q.
    + by exists q.
Qed.

Lemma handoff_ok fuel f k q :
  rep CAP f q -> (k < length (f_entries f))%nat -> call_ok fuel f (OpHandoff k) q.
Proof.
  intros Hrep Hk. destruct f as [h l]. cbn in Hk. unfold call_ok. cbn -[Z.of_nat].
  destruct l as [|e l]; [cbn in Hk; lia|]. rewrite (rep_nonempty _ _ _ _ Hrep).
  cbn -[Z.of_nat]. rewrite (rep_head _ _ _ Hrep). unfold ticket_of. cbn [f_head].
  assert (Hr := rep_range _ _ _ Hrep). assert (Hf := rep_fits _ _ _ Hrep). cbn -[Z.of_nat] in Hr, Hf.
  destruct k as [|k].
  - rewrite Z.add_0_r, u32_small, Z.eqb_refl by done. cbn -[Z.of_nat].
    rewrite (rep_first _ _ _ _ Hrep). destruct e as [[] m w]; cbn -[Z.of_nat].
    + eexists. split; [reflexivity|]. by apply (rep_set_first h m w Waiting).
    + by exists q.
    + by exists q.
  - destruct (Z.eqb_spec h (u32 (h + Z.of_nat (S k)))) as [He|He].
    + exfalso. assert (H := u32_offset h (Z.of_nat (S k))). rewrite <- He, Z.sub_diag in H.
      change (u32 0) with 0 in H. cbn [length] in Hk. lia.
    + exists q. split; [|by destruct e as [[] ??]]. by destruct e as [[] ??].
Qed.

Lemma live_alter l k e :
  l !! k = Some e -> is_dead e = false -> live (alter (set_status Dead) k l) = live l - 1.
Proof.
  revert k. induction l as [|e' l IH]; intros [|k] Hk Hd; [done|done| |].
  - injection Hk as ->. change (alter (set_status Dead) 0%nat (e :: l)) with (set_status Dead e :: l).
    rewrite !live_cons, Hd. change (is_dead (set_status Dead e)) with true. cbv iota. lia.
  - change (alter (set_status Dead) (S k) (e' :: l)) with (e' :: alter (set_status Dead) k l).
    rewrite !live_cons, IH by done. lia.
Qed.

Lemma alter_dead l k e : l !! k = Some e -> is_dead e = true -> alter (set_status Dead) k l = l.
Proof.
  intros Hk Hd. apply list_eq. intros j. destruct (decide (j = k)) as [->|Hne].
  - rewrite list_lookup_alter_eq, Hk. cbn. apply bool_decide_eq_true in Hd. by destruct e as [[] ??].
  - by rewrite list_lookup_alter_ne by done.
Qed.

Lemma live_pos l k e : l !! k = Some e -> is_dead e = false -> 0 < live l.
Proof.
  intros Hk Hd. assert (H := live_alter _ _ _ Hk Hd).
  assert (H' := live_le (alter (set_status Dead) k l)). lia.
Qed.

Lemma cell_seq e :
  is_dead e = false -> seq (cell e) = UB_WAIT_WAITING \/ seq (cell e) = UB_WAIT_NOTIFIED.
Proof. intros Hd. apply bool_decide_eq_false in Hd. destruct e as [[] ??]; auto. done. Qed.

Lemma mark_timeout_live n i e q :
  slot_of q i = cell e -> is_dead e = false -> 0 < q_count q -> sized q -> 0 <= i < CAP ->
  run (mark_timeout_round (S n) i (seq (cell e))) [] q =
    (Some (inr true), [], WaitQueue (q_head q) (q_tail q) (q_count q - 1)
      (setZ (slots q) i (Slot UB_WAIT_TIMEOUT UB_LOCK_I no_waiter))).
Proof.
  intros Hat Hd Hc Hs Hi. unfold mark_timeout_round.
  assert (Hcond : ((seq (cell e) =? UB_WAIT_WRITING) || (seq (cell e) =? UB_WAIT_WAITING)
    || (seq (cell e) =? UB_WAIT_NOTIFIED))%bool = true) by (by destruct (cell_seq e Hd) as [-> | ->]).
  rewrite Hcond, run_bind.
  assert (Hcas : run (cas_weak (l_seq i) (seq (cell e)) UB_WAIT_TIMEOUT) [] q =
    (Some (true, seq (cell e)), [], set_slot i (Slot UB_WAIT_TIMEOUT (mode (cell e)) (who (cell e))) q))
    by (cbn; by rewrite Hat, Z.eqb_refl).
  rewrite Hcas, run_bind, run_reset_payload by done. rewrite run_bind, run_dec_count by lia.
  unfold set_slot. cbn. by rewrite (proj2 (Z.ltb_lt _ _) Hc).
Qed.

Lemma timeout_ok fuel f k q :
  (1 <= fuel)%nat -> rep CAP f q -> (k < length (f_entries f))%nat -> call_ok fuel f (OpTimeout k) q.
Proof.
  intros Hfu Hrep Hk. destruct f as [h l]. cbn in Hk. unfold call_ok.
  destruct (lookup_lt_is_Some_2 l k Hk) as [e He].
  assert (Hs : sized q) by apply Hrep. assert (Hf := rep_fits _ _ _ Hrep). cbn -[Z.of_nat] in Hf.
  assert (Hat := rep_used _ _ _ Hrep k e He). unfold at_pos in Hat.
  unfold queue_call, ring_queue_clean_timeout, ring_queue_try_mark_timeout, ticket_of.
  rewrite index_u32. cbn [f_head] in *. set (i := index CAP (h + Z.of_nat k)) in *.
  assert (Hi : 0 <= i < CAP) by apply index_range.
  assert (Hload : forall (A : Type) (p : Z -> prog (wait_queue W) A),
    run (bind (load (lget (l_seq i))) p) [] q = run (p (seq (cell e))) [] q)
    by (intros A p; cbn; by rewrite Hat).
  rewrite !bind_assoc, Hload. destruct fuel as [|n]; [lia|]. cbn [iter].
  rewrite !run_bind. destruct (is_dead e) eqn:Hd.
  - exists q. cbn [fifo_step snd f_entries]. rewrite (alter_dead _ _ _ He Hd). split; [|done].
    apply bool_decide_eq_true in Hd. destruct e as [st m w]; cbn in Hd; subst. done.
  - assert (Hc : 0 < q_count q) by (rewrite (rep_count _ _ _ Hrep); by eapply live_pos).
    rewrite mark_timeout_live by done. eexists. split; [reflexivity|].
    cbn [fifo_step snd f_head f_entries]. rewrite (rep_head _ _ _ Hrep). cbn [f_head].
    eapply (rep_write h l _ _ k _ _ _ Hrep); rewrite ?length_alter; try done; try lia.
    + apply (rep_tail _ _ _ Hrep).
    + by rewrite (live_alter _ _ e), (rep_count _ _ _ Hrep).
    + intros j Hj. by rewrite list_lookup_alter_ne.
    + by rewrite list_lookup_alter_eq, He.
Qed.


Lemma pop_ok fuel f q :
  (1 <= fuel)%nat -> rep CAP f q -> legal OpPop f -> call_ok fuel f OpPop q.
Proof.
  intros Hfu Hrep Hleg. destruct f as [h [|e l]]; cbn in Hleg; [done|]. unfold call_ok.
  assert (Hs : sized q) by apply Hrep. assert (Hi := index_range h).
  assert (Hc := rep_count _ _ _ Hrep). cbn [f_entries] in Hc. rewrite live_cons, Hleg in Hc.
  assert (Hll := live_le l). unfold queue_call, ring_queue_pop_head. cbn [f_head].
  assert (Hst : forall (A : Type) (p : unit -> prog (wait_queue W) A),
    run (bind (store (lset (l_seq (index CAP h)) UB_WAIT_EMPTY)) p) [] q =
    run (p tt) [] (set_slot (index CAP h) (Slot UB_WAIT_EMPTY (mode (slot_of q (index CAP h)))
      (who (slot_of q (index CAP h)))) q)) by done.
  rewrite !bind_assoc, Hst, !bind_assoc. rewrite run_bind, run_reset_payload by done.
  cbn [seq]. set (q1 := set_slot _ _ q).
  assert (Hrmw : forall (A : Type) (p : Z -> prog (wait_queue W) A),
    run (bind (rmw l_head (fun h => u32 (h + 1))) p) [] q1 =
    run (p (q_head q1)) [] (WaitQueue (u32 (q_head q1 + 1)) (q_tail q1) (q_count q1) (slots q1))) by done.
  rewrite bind_assoc, Hrmw, run_bind, run_dec_count by done.
  eexists. split; [reflexivity|]. subst q1. unfold set_slot.
  cbn [q_head q_tail q_count slots fifo_step snd f_head f_entries tail].
  rewrite (rep_head _ _ _ Hrep), (proj2 (Z.ltb_lt 0 (q_count q))) by lia. cbn [f_head].
  replace (q_count q - 1) with (live l) by lia.
  apply (rep_shift h e l q (set_slot (index CAP h) _ q) Hrep (sized_set _ _ _ Hs)).
  - intros k Hk HkC. unfold set_slot. rewrite (rep_head _ _ _ Hrep). cbn [f_head].
    replace (index CAP h) with (index CAP (h + Z.of_nat 0)) by (by rewrite Z.add_0_r).
    rewrite at_pos_set by (done || lia). by rewrite decide_False by lia.
  - left. unfold at_pos. rewrite Z.add_0_r, slot_of_set by done. done.
Qed.

(** Passing over a dead entry. *)
Lemma rep_skip h e l q :
  rep CAP (Fifo h (e :: l)) q -> is_dead e = true ->
  rep CAP (Fifo (u32 (h + 1)) l) (lset l_head (u32 (h + 1)) q).
Proof.
  intros Hrep Hd. assert (Hc := rep_count _ _ _ Hrep). cbn [f_entries] in Hc.
  rewrite live_cons, Hd in Hc. unfold l_head, lset. rewrite Hc.
  apply (rep_shift h e l q q Hrep); [apply Hrep|done|].
  assert (Hat := rep_used _ _ _ Hrep 0%nat e eq_refl). cbn [f_head] in Hat. rewrite Hat. right.
  apply bool_decide_eq_true in Hd. by destruct e as [[] ??].
Qed.

Lemma advance_run fuel h l q :
  (length l < fuel)%nat -> rep CAP (Fifo h l) q ->
  exists q', run (ring_queue_advance_dead_head CAP fuel) [] q = (Some tt, [], q') /\
             rep CAP (drop_dead h l) q'.
Proof.
  revert h l q. induction fuel as [|n IH]; intros h l q Hfu Hrep; cbn in Hfu; [lia|].
  cbn -[Z.of_nat]. destruct l as [|e l].
  { rewrite (rep_empty _ _ Hrep). by exists q. }
  rewrite (rep_nonempty _ _ _ _ Hrep). cbn -[Z.of_nat]. rewrite (rep_head _ _ _ Hrep). cbn [f_head].
  rewrite (rep_first _ _ _ _ Hrep). destruct (is_dead e) eqn:Hd.
  - assert (seq (cell e) = UB_WAIT_TIMEOUT) as -> by
      (apply bool_decide_eq_true in Hd; by destruct e as [[] ??]).
    cbn -[Z.of_nat]. rewrite (rep_head _ _ _ Hrep), Z.eqb_refl. cbn [f_head].
    apply IH; [cbn in Hfu; lia|]. by apply (rep_skip h e).
  - exists q. by destruct (cell_seq e Hd) as [-> | ->].
Qed.

Lemma peek_run fuel h l q :
  (length l < fuel)%nat -> rep CAP (Fifo h l) q ->
  exists q', run (ring_queue_peek_head_mode_clean CAP fuel) [] q =
    (Some (match f_entries (drop_dead h l) with Entry Waiting m _ :: _ => Some m | _ => None end), [], q') /\
    rep CAP (drop_dead h l) q'.
Proof.
  revert h l q. induction fuel as [|n IH]; intros h l q Hfu Hrep; cbn in Hfu; [lia|].
  cbn -[Z.of_nat]. destruct l as [|e l].
  { rewrite (rep_empty _ _ Hrep). by exists q. }
  rewrite (rep_nonempty _ _ _ _ Hrep). cbn -[Z.of_nat]. rewrite (rep_head _ _ _ Hrep). cbn [f_head].
  rewrite (rep_first _ _ _ _ Hrep). destruct (is_dead e) eqn:Hd.
  - assert (seq (cell e) = UB_WAIT_TIMEOUT) as -> by
      (apply bool_decide_eq_true in Hd; by destruct e as [[] ??]).
    cbn -[Z.of_nat]. rewrite (rep_head _ _ _ Hrep), Z.eqb_refl. cbn [f_head].
    apply IH; [cbn in Hfu; lia|]. by apply (rep_skip h e).
  - exists q. split; [|done]. destruct e as [[] m w]; cbn -[Z.of_nat]; [|done|done].
    by rewrite (rep_first _ _ _ _ Hrep).
Qed.

Lemma call_correct fuel f op q :
  (Z.to_nat CAP < fuel)%nat -> rep CAP f q -> legal op f -> call_ok fuel f op q.
Proof.
  intros Hfu Hrep Hl. assert (Hf := rep_fits _ _ _ Hrep). assert (Hp := queue_cap_pos).
  destruct op; [apply enqueue_ok|apply outqueue_ok|apply pop_ok|apply timeout_ok| | |apply handoff_ok];
    try (done || lia); unfold call_ok, queue_call; rewrite run_bind; destruct f as [h l].
  - destruct (advance_run fuel h l q) as (q' & -> & Hq'); [cbn in Hf; lia|done|]. by exists q'.
  - destruct (peek_run fuel h l q) as (q' & -> & Hq'); [cbn in Hf; lia|done|]. by exists q'.
Qed.

Lemma calls_correct fuel ops f q :
  (Z.to_nat CAP < fuel)%nat -> rep CAP f q -> all_legal CAP ops f ->
  (run_calls CAP fuel ops f q).1 = Some <$> (run_fifo CAP ops f).1 /\
  rep CAP (run_fifo CAP ops f).2 (run_calls CAP fuel ops f q).2.
Proof.
  intros Hfu. revert f q. induction ops as [|op ops IH]; intros f q Hrep Hleg; [done|].
  destruct Hleg as [Hl Hls]. destruct (call_correct fuel f op q Hfu Hrep Hl) as (q1 & Hrun & Hq1).
  cbn [run_calls run_fifo]. unfold result, final. rewrite Hrun. cbn [fst snd].
  destruct (fifo_step CAP op f) as [r f1]. cbn [fst snd] in *.
  destruct (IH f1 q1 Hq1 Hls) as [H1 H2].
  destruct (run_calls CAP fuel ops f1 q1) as [rs q'], (run_fifo CAP ops f1) as [rs' f'].
  cbn in *. by rewrite H1.
Qed.

(** The memory after initialization, whatever it held before. *)
Lemma init_slots (n : nat) (k : Z) env q :
  sized q -> 0 <= k -> k + Z.of_nat n <= CAP ->
  exists q', run (for_each (seqZ k (Z.of_nat n)) (fun i =>
      store (lset (l_seq i) UB_WAIT_EMPTY) ;;; store_mode i UB_LOCK_I ;;; store_who i no_waiter)) env q
    = (Some tt, env, q') /\ sized q' /\ q_head q' = q_head q /\ q_tail q' = q_tail q /\
    q_count q' = q_count q /\
    (forall j, 0 <= j < CAP -> seq (slot_of q' j) =
       if decide (k <= j < k + Z.of_nat n) then UB_WAIT_EMPTY else seq (slot_of q j)).
Proof.
  revert k q. induction n as [|n IH]; intros k q Hs Hk Hn.
  { exists q. rewrite seqZ_nil by lia. split_and!; try done. intros j Hj. by rewrite decide_False by lia. }
  rewrite seqZ_cons by lia. replace (Z.pred (Z.of_nat (S n))) with (Z.of_nat n) by lia.
  cbn [for_each]. rewrite run_bind.
  assert (Hc : 0 <= k < CAP) by lia.
  assert (run (store (lset (l_seq k) UB_WAIT_EMPTY) ;;; store_mode k UB_LOCK_I ;;; store_who k no_waiter) env q
    = (Some tt, env, set_slot k (Slot UB_WAIT_EMPTY UB_LOCK_I no_waiter) q)) as ->.
  { cbn. rewrite ?slot_of_set, ?set_slot_set by (done || (repeat apply sized_set; done)). done. }
  destruct (IH (k + 1) (set_slot k (Slot UB_WAIT_EMPTY UB_LOCK_I no_waiter) q)) as
    (q' & Hr & Hs' & H1 & H2 & H3 & H4); [by apply sized_set|lia|lia|].
  exists q'. split_and!; try done. intros j Hj. rewrite (H4 j Hj).
  repeat case_decide; try lia; try done.
  - assert (j = k) as -> by lia. by rewrite slot_of_set.
  - unfold slot_of, set_slot; cbn. rewrite getZ_setZ_ne by lia. done.
Qed.

Lemma init_rep env q :
  sized q -> exists q', run (ring_queue_init CAP) env q = (Some tt, env, q') /\ rep CAP (Fifo 0 []) q'.
Proof.
  intros Hs. assert (Hp := queue_cap_pos).
  destruct (init_slots (Z.to_nat CAP) 0 env (WaitQueue 0 0 0 (slots q))) as
    (q' & Hr & Hs' & H1 & H2 & H3 & H4); [done|lia|lia|].
  rewrite Z2Nat.id in * by lia. exists q'. split; [exact Hr|]. split; try done.
  - cbn. lia.
  - intros k _ Hk. left. unfold at_pos. rewrite H4 by apply index_range.
    rewrite decide_True; [done|]. apply index_range.
Qed.
End Refinement.

(** * Properties *)

(** C15: the wait queue is a bounded FIFO.  Initialize the queue over memory with any
    contents, then run any sequence of operations in which tickets are those of
    queued waiters and only a live head is popped.  Every operation returns, with the result
    of the abstract queue: an enqueue appends and hands out consecutive
    tickets modulo 2^32, or reports an error exactly when the queue holds [CAP]
    entries; a wake-up marks the oldest entry and only if it still waits; a
    timed-out entry keeps its place until it reaches the head and is then passed
    over; the counter is the number of entries that have not timed out.  A fuel of
    [CAP + 1] rounds is enough because at most [CAP] entries are passed over. *)
Theorem wait_queue_refines {W} `{!Waiter W} CAP fuel (ops : list (queue_op W)) q0 :
  is_pow2 CAP -> CAP <= 2 ^ 31 -> Z.of_nat (length (slots q0)) = CAP ->
  (Z.to_nat CAP < fuel)%nat -> all_legal CAP ops (Fifo 0 []) ->
  let q := final (ring_queue_init CAP) q0 in
  result (ring_queue_init CAP) q0 = Some tt /\
  (run_calls CAP fuel ops (Fifo 0 []) q).1 = Some <$> (run_fifo CAP ops (Fifo 0 [])).1 /\
  rep CAP (run_fifo CAP ops (Fifo 0 [])).2 (run_calls CAP fuel ops (Fifo 0 []) q).2.
Proof.
  intros Hp Hc Hs Hf Hl q. destruct (init_rep CAP Hp [] q0 Hs) as (q' & Hrun & Hrep).
  subst q. unfold result, final. rewrite Hrun. split; [done|]. by apply calls_correct.
Qed.

(** Two waiters queue, the head is notified and times out, the second reaches the head and
    is popped. *)
Definition queue_demo : list (queue_op Z) :=
  [OpEnqueue UB_LOCK_X 7; OpEnqueue UB_LOCK_S 8; OpOutqueue; OpTimeout 0; OpOutqueue; OpPeek;
   OpHandoff 0; OpPop; OpOutqueue].
Definition dirty_queue : wait_queue Z :=
  WaitQueue 9 5 77 (replicate 2 (Slot UB_WAIT_WAITING UB_LOCK_X 3)).

Lemma wait_queue_refines_witness :
  (run_calls 2 3 queue_demo (Fifo 0 []) (final (ring_queue_init 2) dirty_queue)).1 =
    Some <$> [RTicket UB_LOCK_SUCCESS 0; RTicket UB_LOCK_SUCCESS 1; RSlot (Some 0); RUnit; RSlot None;
              RMode (Some UB_LOCK_S); RBool true; RUnit; RSlot None].
Proof.
  destruct (wait_queue_refines 2 3 queue_demo dirty_queue) as (_ & H & _).
  - by exists 1.
  - lia.
  - reflexivity.
  - vm_compute. lia.
  - vm_compute. repeat split; lia.
  - rewrite H. reflexivity.
Defined.
