(* ===== verification/MutexLock.v ===== *)
(** The distributed mutex (src/ub_lock/ub_mutex_lock.cpp).

    The mutex has two levels.  A thread first takes the local lock of its process
    ([MutexLocalLock], one per process and mutex, found through a registry), so that
    one thread per node competes for the word [lock_owner] in shared memory.  Both levels spin
    for a while and then queue; the thread that releases a level wakes the head of its
    queue, by the waiter registry of its own process or by a UB_GRANT message to
    another node.

    The state is [mutex_world]: the shared structure, the registry of each process with
    the local locks it has created, and the processes' waiter registries and
    inboxes ([network]).  It has one mutex: the registry is the entry of that mutex in
    the C++ map.  A shared pointer to a local lock is an index into [objects], so a
    thread keeps its local lock when the registry drops it. *)

From S2P Require Import Prelude Atomic CommTypes LockTypes OwnerLock LockRuntime RingQueue.

Definition MUTEX_INIT_EMPTY : Z := 0.
Definition MUTEX_INITING : Z := 1.
Definition MUTEX_READY : Z := 2.
Definition DEFAULT_MUTEX_TIMEOUT_MS : Z := 10000.
Definition MUTEX_YIELD_INTERVAL : Z := 32.
Definition MUTEX_INIT_WAIT_ROUNDS : Z := 1024 * 1024.
Definition MUTEX_WAKE_SCAN_LIMIT : nat := Z.to_nat (UB_MAX_NODES * 2).

Record ub_mutex_lock := mkMutex {
  lock_owner : Z; mutex_q : wait_queue ub_location_t; is_inited : Z }.

Record MutexLocalLock := mkLocal { owner : Z; active_users : Z; local_q : wait_queue Z }.

Record local_registry := mkRegistry {
  reg_locked : bool;              (** a writer holds the registry's shared_mutex *)
  reg_entry : option nat;         (** map.find(shm) *)
  objects : list MutexLocalLock }.

Record mutex_world := mkMutexWorld {
  shm : ub_mutex_lock; regs : list local_registry; net : network; inside : list nat }.

(** ** Access to the parts *)

Definition l_shm : lens mutex_world ub_mutex_lock :=
  Lens shm (fun v w => mkMutexWorld v (regs w) (net w) (inside w)).
Definition l_net : lens mutex_world network :=
  Lens net (fun v w => mkMutexWorld (shm w) (regs w) v (inside w)).
Definition l_lock_owner : lens ub_mutex_lock Z :=
  Lens lock_owner (fun v m => mkMutex v (mutex_q m) (is_inited m)).
Definition l_mutex_q : lens ub_mutex_lock (wait_queue ub_location_t) :=
  Lens mutex_q (fun v m => mkMutex (lock_owner m) v (is_inited m)).
Definition l_is_inited : lens ub_mutex_lock Z :=
  Lens is_inited (fun v m => mkMutex (lock_owner m) (mutex_q m) v).
Definition l_owner : lens MutexLocalLock Z :=
  Lens owner (fun v o => mkLocal v (active_users o) (local_q o)).
Definition l_active_users : lens MutexLocalLock Z :=
  Lens active_users (fun v o => mkLocal (owner o) v (local_q o)).
Definition l_local_q : lens MutexLocalLock (wait_queue Z) :=
  Lens local_q (fun v o => mkLocal (owner o) (active_users o) v).

(** [MutexLocalLock()] *)
Definition new_wait_queue : wait_queue Z :=
  final (ring_queue_init UB_MAX_CAPACITY)
    (WaitQueue 0 0 0 (replicate (Z.to_nat UB_MAX_CAPACITY) empty_slot)).
Definition new_local_lock : MutexLocalLock := mkLocal LOCK_INVALID_OWNER 0 new_wait_queue.

Definition no_registry : local_registry := mkRegistry false None [].
Definition reg (w : mutex_world) (node : Z) : local_registry := getZ no_registry (regs w) node.
Definition set_reg (node : Z) (r : local_registry) (w : mutex_world) : mutex_world :=
  mkMutexWorld (shm w) (setZ (regs w) node r) (net w) (inside w).
Definition l_reg (node : Z) : lens mutex_world local_registry :=
  Lens (fun w => reg w node) (set_reg node).
(** The local lock a shared pointer refers to. *)
Definition l_object (id : nat) : lens local_registry MutexLocalLock :=
  Lens (fun r => default new_local_lock (objects r !! id))
       (fun o r => mkRegistry (reg_locked r) (reg_entry r) (<[id := o]> (objects r))).
Definition l_local (node : Z) (id : nat) : lens mutex_world MutexLocalLock :=
  lens_comp (l_reg node) (l_object id).

Abbreviation on_q := (lift (lens_comp l_shm l_mutex_q)).
Abbreviation on_local_q node id := (lift (lens_comp (l_local node id) l_local_q)).
Abbreviation on_shm := (lift l_shm).
Abbreviation on_net := (lift l_net).

Section Model.
(** Bound on the rounds of each retry loop. *)
Context (fuel : nat).

(** ** Diagnostics *)

(** The loads of [dump_mutex_timeout_info]; the text it logs is not modelled. *)
Definition dump_mutex_timeout_info (local : option (Z * nat)) : prog mutex_world unit :=
  on_shm (load lock_owner) ;;;
  on_q (load q_count) ;;;
  match local with
  | None => Ret tt
  | Some (node, id) =>
      lift (l_local node id) (load owner) ;;;
      lift (l_local node id) (load active_users) ;;;
      on_local_q node id (load q_count) ;;;
      Ret tt
  end.

(** ** The registry of local locks *)

(** A section under the shared (or a short one under the unique) registry lock. *)
Definition under_registry_lock {A} (node : Z) (f : local_registry -> A * local_registry)
    : prog mutex_world A :=
  iter fuel (fun _ => lift (l_reg node) (act (fun r =>
    if reg_locked r then (inl tt, r) else let '(a, r') := f r in (inr a, r')))) tt.

Definition lookup_mutex_local_lock (node : Z) : prog mutex_world (option nat) :=
  under_registry_lock node (fun r => (reg_entry r, r)).

Definition acquire_mutex_local_lock (node : Z) : prog mutex_world (option nat) :=
  under_registry_lock node (fun r =>
    match reg_entry r with
    | None => (None, r)
    | Some id =>
        let o := lget (l_object id) r in
        (Some id, lset (l_object id) (lset l_active_users (u32 (active_users o + 1)) o) r)
    end).

Definition release_mutex_local_lock (node : Z) (id : nat) : prog mutex_world unit :=
  lift (l_local node id) (rmw l_active_users (fun n => u32 (n - 1))) ;;; Ret tt.

(** [map.try_emplace(shm, make_shared<MutexLocalLock>())] *)
Definition register_mutex_local_lock (node : Z) : prog mutex_world unit :=
  under_registry_lock node (fun r =>
    match reg_entry r with
    | Some _ => (tt, r)
    | None => (tt, mkRegistry (reg_locked r) (Some (length (objects r))) (objects r ++ [new_local_lock]))
    end).

(** The three loads and the erasure happen under the unique lock; the local lock itself
    is not protected by it.  The result says whether the entry was erased. *)
Definition unregister_mutex_local_lock_if_idle (node : Z) : prog mutex_world bool :=
  under_registry_lock node (fun r => (tt, mkRegistry true (reg_entry r) (objects r))) ;;;
  do it <- lift (l_reg node) (load reg_entry);
  do idle <-
    match it with
    | None => Ret false
    | Some id =>
        do o <- lift (l_local node id) (load owner);
        if negb (o =? LOCK_INVALID_OWNER) then Ret false else
        do c <- on_local_q node id (load q_count);
        if negb (c =? 0) then Ret false else
        do u <- lift (l_local node id) (load active_users);
        Ret (u =? 0)
    end;
  (if idle : bool then lift (l_reg node) (store (fun r => mkRegistry (reg_locked r) None (objects r)))
   else Ret tt) ;;;
  lift (l_reg node) (store (fun r => mkRegistry false (reg_entry r) (objects r))) ;;;
  Ret idle.

(** ** The local lock *)

Definition enqueue_mutex_local_waiter (node : Z) (id : nat) (tid : Z)
    : prog mutex_world (ub_lock_result_t * Z) :=
  on_local_q node id (ring_queue_enqueue UB_MAX_CAPACITY fuel UB_LOCK_X tid).
Definition clean_mutex_local_timeout_waiter (node : Z) (id : nat) (ticket : Z) : prog mutex_world unit :=
  on_local_q node id (ring_queue_clean_timeout UB_MAX_CAPACITY fuel ticket).
Definition clean_mutex_local_outqueue_waiter (node : Z) (id : nat) (ticket : Z) : prog mutex_world unit :=
  on_local_q node id (ring_queue_pop_head UB_MAX_CAPACITY fuel ticket).

Fixpoint wake_local_scan (sanity : nat) (node : Z) (id : nat) : prog mutex_world unit :=
  match sanity with
  | O => Ret tt
  | S n =>
      on_local_q node id (ring_queue_advance_dead_head UB_MAX_CAPACITY fuel) ;;;
      do ticket <- on_local_q node id (load q_head);
      do waiter <- on_local_q node id (ring_queue_outqueue UB_MAX_CAPACITY);
      match waiter with
      | Some idx =>
          do tid <- on_local_q node id (load (fun q => who (slot_of q idx)));
          do found <- on_net (notify_local_waiter node tid);
          if found : bool then Ret tt else
          clean_mutex_local_outqueue_waiter node id ticket ;;;
          wake_local_scan n node id
      | None =>
          do c <- on_local_q node id (load q_count);
          if c =? 0 then Ret tt else wake_local_scan n node id
      end
  end.
Definition wake_one_mutex_local_waiter (node : Z) (id : nat) : prog mutex_world unit :=
  wake_local_scan (Z.to_nat (UB_MAX_CAPACITY * 2)) node id.

Definition try_claim_mutex_local (node : Z) (id : nat) (identity : Z) (is_awakened : bool) (slot : Z)
    : prog mutex_world bool :=
  do '(ok, _) <- lift (l_local node id) (cas_weak l_owner LOCK_INVALID_OWNER identity);
  if negb ok then Ret false else
  (if is_awakened then clean_mutex_local_outqueue_waiter node id slot else Ret tt) ;;;
  Ret true.

Inductive MutexLocalSpinResult : Set := ACQUIRED | NEED_WAIT | TIMEOUT.

Definition spin_awakened_round (node : Z) (id : nat) (identity deadline slot : Z) (_ : unit)
    : prog mutex_world (unit + MutexLocalSpinResult) :=
  do now <- ask QSteady;
  if now <=? deadline then
    do ok <- try_claim_mutex_local node id identity true slot;
    Ret (if ok : bool then inr ACQUIRED else inl tt)
  else
    dump_mutex_timeout_info (Some (node, id)) ;;;
    clean_mutex_local_timeout_waiter node id slot ;;;
    Ret (inr TIMEOUT).

Fixpoint spin_rounds (n : nat) (node : Z) (id : nat) (identity slot : Z)
    : prog mutex_world MutexLocalSpinResult :=
  match n with
  | O => Ret NEED_WAIT
  | S n' =>
      do c <- on_local_q node id (load q_count);
      if 0 <? c then Ret NEED_WAIT else
      do ok <- try_claim_mutex_local node id identity false slot;
      if ok : bool then Ret ACQUIRED else spin_rounds n' node id identity slot
  end.

Definition spin_try_mutex_local (node : Z) (id : nat) (identity deadline : Z) (is_awakened : bool)
    (slot : Z) : prog mutex_world MutexLocalSpinResult :=
  if is_awakened then iter fuel (spin_awakened_round node id identity deadline slot) tt
  else spin_rounds SPIN_WAIT_ROUNDS node id identity slot.

(** The result with the ticket of the slot. *)
Definition wait_mutex_local_handoff (location : ub_location_t) (id : nat) (deadline : Z)
    : prog mutex_world (ub_lock_result_t * Z) :=
  let node := node_id location in
  with_waiter_guard l_net node (tid location) (
    do '(ret, slot) <- enqueue_mutex_local_waiter node id (tid location);
    if negb (is_success ret) then Ret (ret, slot) else
    do o <- lift (l_local node id) (load owner);
    do self_handoff <-
      (if o =? LOCK_INVALID_OWNER then
         on_local_q node id (ring_queue_try_self_handoff_if_head UB_MAX_CAPACITY slot)
       else Ret false);
    if self_handoff : bool then Ret (UB_LOCK_SUCCESS, slot) else
    do awake <- on_net (ctx_wait fuel node (tid location) deadline);
    if awake : bool then Ret (UB_LOCK_SUCCESS, slot) else
    dump_mutex_timeout_info (Some (node, id)) ;;;
    clean_mutex_local_timeout_waiter node id slot ;;;
    Ret (UB_LOCK_TIMEOUT, slot)).

(** One round of the loop; the loop state is [is_awakened] and [slot]. *)
Definition lock_mutex_local_round (location : ub_location_t) (id : nat) (identity deadline : Z)
    (st : bool * Z) : prog mutex_world ((bool * Z) + ub_lock_result_t) :=
  let node := node_id location in
  let '(is_awakened, slot) := st in
  do now <- ask QSteady;
  if negb (now <=? deadline) then
    dump_mutex_timeout_info (Some (node, id)) ;;;
    Ret (inr UB_LOCK_TIMEOUT)
  else
    do r <- spin_try_mutex_local node id identity deadline is_awakened slot;
    match r with
    | ACQUIRED => Ret (inr UB_LOCK_SUCCESS)
    | TIMEOUT => Ret (inr UB_LOCK_TIMEOUT)
    | NEED_WAIT =>
        do '(ret, slot') <- wait_mutex_local_handoff location id deadline;
        Ret (if is_success ret then inl (true, slot') else inr ret)
    end.
Definition lock_mutex_local (location : ub_location_t) (id : nat) (identity deadline : Z)
    : prog mutex_world ub_lock_result_t :=
  iter fuel (lock_mutex_local_round location id identity deadline) (false, 0).

Definition unlock_mutex_local (node : Z) (id : nat) (identity : Z) : prog mutex_world unit :=
  do o <- lift (l_local node id) (load owner);
  if negb (o =? identity) then Ret tt else
  lift (l_local node id) (store (lset l_owner LOCK_INVALID_OWNER)) ;;;
  do c <- on_local_q node id (load q_count);
  if 0 <? c then wake_one_mutex_local_waiter node id else Ret tt.


(** ** The global lock *)

Definition create_wait_queue : prog mutex_world unit := on_q (ring_queue_init UB_MAX_NODES).
Definition enqueue_waiter (location : ub_location_t) : prog mutex_world (ub_lock_result_t * Z) :=
  on_q (ring_queue_enqueue UB_MAX_NODES fuel UB_LOCK_X location).
Definition clean_timeout_waiter (ticket : Z) : prog mutex_world unit :=
  on_q (ring_queue_clean_timeout UB_MAX_NODES fuel ticket).
Definition clean_outqueue_waiter (ticket : Z) : prog mutex_world unit :=
  on_q (ring_queue_pop_head UB_MAX_NODES fuel ticket).

(** [create_mutex_message] *)
Definition create_mutex_message (waiter_location : ub_location_t) (src : Z) : message_t :=
  create_message waiter_location src (MsgBody (tid waiter_location) 0 UB_GRANT UB_LOCK_X).

(** [mutex_send_with_retry] *)
Definition mutex_send_with_retry (node : Z) (msg : message_t) (max_attempts : nat)
    : prog mutex_world ub_lock_result_t :=
  do t <- on_net (load (fun n => transport (proc n node)));
  if negb t then Ret UB_LOCK_ERROR else on_net (send_with_retry msg max_attempts).

(** [waiter] is a reference to the slot [idx]: its fields are read where the code uses
    them. *)
Definition waiter_location (idx : Z) : prog mutex_world ub_location_t :=
  on_q (load (fun q => who (slot_of q idx))).
Definition notify_waiter (idx : Z) (location : ub_location_t) : prog mutex_world ub_lock_result_t :=
  do wl <- waiter_location idx;
  if node_id wl =? node_id location then
    do wl' <- waiter_location idx;
    do found <- on_net (notify_local_waiter (node_id location) (tid wl'));
    Ret (if found : bool then UB_LOCK_SUCCESS else UB_LOCK_ERROR)
  else
    do t <- on_net (load (fun n => transport (proc n (node_id location))));
    if negb t then Ret UB_LOCK_ERROR else
    do wl' <- waiter_location idx;
    mutex_send_with_retry (node_id location) (create_mutex_message wl' (node_id location)) 5.

Fixpoint wake_scan (sanity : nat) (location : ub_location_t) : prog mutex_world unit :=
  match sanity with
  | O => Ret tt
  | S n =>
      on_q (ring_queue_advance_dead_head UB_MAX_NODES fuel) ;;;
      do ticket <- on_q (load q_head);
      do waiter <- on_q (ring_queue_outqueue UB_MAX_NODES);
      match waiter with
      | Some idx =>
          do r <- notify_waiter idx location;
          if is_success r then Ret tt else
          clean_outqueue_waiter ticket ;;;
          wake_scan n location
      | None =>
          do c <- on_q (load q_count);
          if c =? 0 then Ret tt else wake_scan n location
      end
  end.
Definition wake_one_waiter (location : ub_location_t) : prog mutex_world unit :=
  wake_scan MUTEX_WAKE_SCAN_LIMIT location.

Definition try_lock_fast (identity : Z) (is_awakened : bool) (slot : Z) : prog mutex_world bool :=
  do c <- on_q (load q_count);
  if (0 <? c) && negb is_awakened then Ret false else
  do '(ok, _) <- on_shm (cas_weak l_lock_owner LOCK_INVALID_OWNER identity);
  if ok : bool then
    (if is_awakened then clean_outqueue_waiter slot else Ret tt) ;;;
    Ret true
  else Ret false.

Fixpoint wait_mutex_ready (rounds : nat) : prog mutex_world bool :=
  match rounds with
  | O => do st <- on_shm (load is_inited); Ret (st =? MUTEX_READY)
  | S n =>
      do st <- on_shm (load is_inited);
      if st =? MUTEX_READY then Ret true else wait_mutex_ready n
  end.

(** [None]: the mutex is not ready and the call gives up. *)
Definition init_shm : prog mutex_world (option unit) :=
  do state <- on_shm (load is_inited);
  if state =? MUTEX_READY then Ret (Some tt) else
  let can_init := (state =? MUTEX_INIT_EMPTY) || (state <? MUTEX_INIT_EMPTY) || (MUTEX_READY <? state) in
  do '(ok, expected) <- (if can_init then on_shm (cas_strong l_is_inited state MUTEX_INITING)
                         else Ret (false, state));
  if ok : bool then
    on_shm (store (lset l_lock_owner LOCK_INVALID_OWNER)) ;;;
    create_wait_queue ;;;
    on_shm (store (lset l_is_inited MUTEX_READY)) ;;;
    Ret (Some tt)
  else if expected =? MUTEX_READY then Ret (Some tt) else
    do ready <- wait_mutex_ready (Z.to_nat MUTEX_INIT_WAIT_ROUNDS);
    Ret (if ready : bool then Some tt else None).

Definition lock_create (node : Z) : prog mutex_world unit :=
  do r <- init_shm;
  match r with
  | None => Ret tt
  | Some _ =>
      do ll <- lookup_mutex_local_lock node;
      match ll with
      | Some _ => on_net (register_message_process_func node)
      | None => register_mutex_local_lock node ;;; on_net (register_message_process_func node)
      end
  end.

Definition lock_free (node : Z) : prog mutex_world unit :=
  do erased <- unregister_mutex_local_lock_if_idle node;
  if erased : bool then Ret tt else lookup_mutex_local_lock node ;;; Ret tt.

Definition is_ready : prog mutex_world bool :=
  do st <- on_shm (load is_inited); Ret (st =? MUTEX_READY).

Definition check_recursive_global_owner (identity : Z) : prog mutex_world ub_lock_result_t :=
  do o <- on_shm (load lock_owner);
  Ret (if o =? identity then UB_LOCK_ERROR else UB_LOCK_SUCCESS).

Definition wait_global_handoff (deadline : Z) (location : ub_location_t)
    : prog mutex_world (ub_lock_result_t * Z) :=
  with_waiter_guard l_net (node_id location) (tid location) (
    do '(ret, slot) <- enqueue_waiter location;
    if negb (is_success ret) then Ret (ret, slot) else
    do o <- on_shm (load lock_owner);
    do self_notify <-
      (if o =? LOCK_INVALID_OWNER then on_q (ring_queue_try_self_handoff_if_head UB_MAX_NODES slot)
       else Ret false);
    if self_notify : bool then Ret (UB_LOCK_SUCCESS, slot) else
    do awake <- on_net (ctx_wait fuel (node_id location) (tid location) deadline);
    if awake : bool then Ret (UB_LOCK_SUCCESS, slot) else
    dump_mutex_timeout_info None ;;;
    clean_timeout_waiter slot ;;;
    Ret (UB_LOCK_TIMEOUT, slot)).

(** One round of the loop; the loop state is [wait_round], [slot] and [is_awakened]. *)
Definition acquire_round (deadline : Z) (location : ub_location_t) (st : Z * Z * bool)
    : prog mutex_world ((Z * Z * bool) + ub_lock_result_t) :=
  let identity := identify location in
  let '(wait_round, slot, is_awakened) := st in
  do now <- ask QSteady;
  if negb (now <=? deadline) then
    dump_mutex_timeout_info None ;;;
    (if is_awakened then clean_timeout_waiter slot else Ret tt) ;;;
    Ret (inr UB_LOCK_TIMEOUT)
  else
    do ok <- try_lock_fast identity is_awakened slot;
    if ok : bool then Ret (inr UB_LOCK_SUCCESS) else
    do rec <- check_recursive_global_owner identity;
    if negb (is_success rec) then Ret (inr UB_LOCK_ERROR) else
    if is_awakened then Ret (inl (wait_round, slot, true)) else
    let wait_round' := u32 (wait_round + 1) in
    if wait_round' mod MUTEX_YIELD_INTERVAL =? 0 then
      do '(ret, slot') <- wait_global_handoff deadline location;
      Ret (if is_success ret then inl (wait_round', slot', true) else inr ret)
    else Ret (inl (wait_round', slot, false)).

Definition acquire_global (deadline : Z) (location : ub_location_t) : prog mutex_world ub_lock_result_t :=
  do rec <- check_recursive_global_owner (identify location);
  if negb (is_success rec) then Ret UB_LOCK_ERROR else
  iter fuel (acquire_round deadline location) (0, 0, false).

(** ** The operations *)

Definition lock (timeout_ms : Z) (location : ub_location_t) : prog mutex_world ub_lock_result_t :=
  let node := node_id location in
  if is_invalid_node node then Ret UB_LOCK_ERROR else
  do ready <- is_ready;
  if negb ready then Ret UB_LOCK_ERROR else
  let identity := identify location in
  do o <- on_shm (load lock_owner);
  if o =? identity then Ret UB_LOCK_ERROR else
  do ll <- acquire_mutex_local_lock node;
  match ll with
  | None => Ret UB_LOCK_ERROR
  | Some id =>
      let effective_timeout := if timeout_ms =? 0 then DEFAULT_MUTEX_TIMEOUT_MS else timeout_ms in
      do now <- ask QSteady;
      let deadline := now + effective_timeout * 1000 in
      do lo <- lift (l_local node id) (load owner);
      if lo =? identity then release_mutex_local_lock node id ;;; Ret UB_LOCK_ERROR else
      do local_ret <- lock_mutex_local location id identity deadline;
      if negb (is_success local_ret) then release_mutex_local_lock node id ;;; Ret local_ret else
      do ret <- acquire_global deadline location;
      if is_success ret then release_mutex_local_lock node id ;;; Ret UB_LOCK_SUCCESS else
      unlock_mutex_local node id identity ;;;
      release_mutex_local_lock node id ;;;
      Ret ret
  end.

Definition unlock (location : ub_location_t) : prog mutex_world ub_lock_result_t :=
  let node := node_id location in
  if is_invalid_node node then Ret UB_LOCK_ERROR else
  do ready <- is_ready;
  if negb ready then Ret UB_LOCK_ERROR else
  let identity := identify location in
  do o <- on_shm (load lock_owner);
  if negb (o =? identity) then Ret UB_LOCK_ERROR else
  do ll <- acquire_mutex_local_lock node;
  match ll with
  | None => Ret UB_LOCK_ERROR
  | Some id =>
      do lo <- lift (l_local node id) (load owner);
      if negb (lo =? identity) then release_mutex_local_lock node id ;;; Ret UB_LOCK_ERROR else
      do '(ok, _) <- on_shm (cas_strong l_lock_owner identity LOCK_INVALID_OWNER);
      if negb ok then release_mutex_local_lock node id ;;; Ret UB_LOCK_ERROR else
      do c <- on_q (load q_count);
      (if 0 <? c then wake_one_waiter location else Ret tt) ;;;
      unlock_mutex_local node id identity ;;;
      release_mutex_local_lock node id ;;;
      Ret UB_LOCK_SUCCESS
  end.

(** ** The C entry points; [null] says that the lock pointer is null. *)

Definition ub_mutex_lock_create (null : bool) (node : Z) : prog mutex_world unit :=
  if null then Ret tt else lock_create node.
Definition ub_mutex_lock_free (null : bool) (node : Z) : prog mutex_world unit :=
  if null then Ret tt else lock_free node.
Definition ub_mutex_lock_lock (null : bool) (timeout_ms : Z) (location : option ub_location_t)
    : prog mutex_world ub_lock_result_t :=
  match location with
  | Some l => if null then Ret UB_LOCK_ERROR else lock timeout_ms l
  | None => Ret UB_LOCK_ERROR
  end.
Definition ub_mutex_unlock (null : bool) (location : option ub_location_t)
    : prog mutex_world ub_lock_result_t :=
  match location with
  | Some l => if null then Ret UB_LOCK_ERROR else unlock l
  | None => Ret UB_LOCK_ERROR
  end.

(** The receiving thread of a process: it takes a message and runs the callback (there is
    no read-write lock in this world for a release message to concern). *)
Definition mutex_receive (node : Z) : prog mutex_world unit :=
  do m <- on_net (receive node);
  message_process_thread_func l_net node (fun _ _ => Ret tt) m.
End Model.
