(* ===== verification/MutexExcl.v ===== *)
(** The mutex excludes (MutexLock.v, interleaved reading).

    The owner words of the mutex are the global word and the local word of each process.  A
    holder owns the global word and the local word of its process; every other
    access of the operations leaves the words alone ([MutexKeeps]).  With this the
    mutex is an instance of [Exclusive] and [pool_exclusion] applies.  The second
    part is the creation of the mutex: it establishes the free state that the
    exclusion theorem starts from. *)

From S2P Require Import Prelude Atomic CommTypes LockTypes OwnerLock LockRuntime RingQueue MutexLock.

(** * Mutual exclusion *)

(** The owner words: the global one, and the one of each process. *)
Inductive mutex_key : Set := KGlobal | KLocal (node : nat).
#[global] Instance mutex_key_eq_dec : EqDecision mutex_key.
Proof. solve_decision. Defined.

(** [ids] is the local lock each process has registered. *)
Definition local_of (ids : nat -> nat) (n : nat) (w : mutex_world) : MutexLocalLock :=
  lget (l_object (ids n)) (default no_registry (regs w !! n)).

Definition mutex_owner (ids : nat -> nat) (k : mutex_key) (w : mutex_world) : Z :=
  match k with KGlobal => lock_owner (shm w) | KLocal n => owner (local_of ids n w) end.

(** The mutex has been created, and by every process. *)
Definition mutex_ready (ids : nat -> nat) (w : mutex_world) : Prop :=
  is_inited (shm w) = MUTEX_READY /\
  forall n, (n < Z.to_nat UB_MAX_NODES)%nat ->
    exists r, regs w !! n = Some r /\ reg_entry r = Some (ids n) /\ (ids n < length (objects r))%nat.

Definition mutex_guarded (ids : nat -> nat) : guarded mutex_world mutex_key := {|
  g_owner := mutex_owner ids;
  g_main := KGlobal;
  g_inside := inside;
  g_enter l w := mkMutexWorld (shm w) (regs w) (net w) l;
  g_ready := mutex_ready ids;
  g_owner_enter k l w := ltac:(by destruct k);
  g_inside_enter l w := eq_refl;
  g_ready_enter l w H := H |}.

Definition mutex_keys (l : ub_location_t) : list mutex_key := [KGlobal; KLocal (Z.to_nat (node_id l))].

Section MutexKeeps.
Context (fuel : nat) (ids : nat -> nat).
Abbreviation mkeeps := (keeps (mutex_guarded ids)).

Lemma mkeeps_refl w : mkeeps w w.
Proof. by split_and!. Qed.

(** A change of a registry that moves no lock and changes no owner. *)
Definition same_owners (r r' : local_registry) : Prop :=
  reg_entry r' = reg_entry r /\ length (objects r') = length (objects r) /\
  forall id, owner (lget (l_object id) r') = owner (lget (l_object id) r).

Lemma keeps_reg node r' w : same_owners (reg w node) r' -> mkeeps w (set_reg node r' w).
Proof.
  intros (He & Hl & Ho).
  assert (Hat : forall n, default no_registry (setZ (regs w) node r' !! n) = default no_registry (regs w !! n) \/
    default no_registry (setZ (regs w) node r' !! n) = r' /\ default no_registry (regs w !! n) = reg w node).
  { intros n. unfold setZ, reg, getZ. destruct (decide (n = Z.to_nat node)) as [->|Hne].
    - destruct (decide (Z.to_nat node < length (regs w))%nat) as [Hlt|Hge].
      + right. by rewrite list_lookup_insert_eq.
      + left. by rewrite list_insert_ge by lia.
    - left. by rewrite list_lookup_insert_ne. }
  split_and!; [|done|].
  - intros [|n]; [done|]. cbn. unfold local_of. cbn [regs set_reg].
    destruct (Hat n) as [-> | [-> ->]]; [done|]. apply Ho.
  - intros [Hi Hr]. split; [done|]. intros n Hn. destruct (Hr n Hn) as (r & Hrn & Hre & Hlt).
    cbn [regs set_reg]. unfold setZ. destruct (decide (n = Z.to_nat node)) as [->|Hne].
    + exists r'. rewrite list_lookup_insert_eq by (by eapply lookup_lt_Some).
      unfold reg, getZ in He, Hl. rewrite Hrn in He, Hl. cbn in He, Hl. by rewrite He, Hl.
    + exists r. by rewrite list_lookup_insert_ne.
Qed.

Lemma same_owners_insert b r id o :
  owner o = owner (lget (l_object id) r) ->
  same_owners r (mkRegistry b (reg_entry r) (<[id := o]> (objects r))).
Proof.
  intros Ho. split_and!; [done|cbn; by rewrite length_insert|]. intros id'. cbn.
  destruct (decide (id = id')) as [<-|Hne]; [|by rewrite list_lookup_insert_ne].
  destruct (decide (id < length (objects r))%nat) as [Hlt|Hge].
  - by rewrite list_lookup_insert_eq.
  - by rewrite list_insert_ge by lia.
Qed.

Lemma same_owners_object r id o :
  owner o = owner (lget (l_object id) r) -> same_owners r (lset (l_object id) o r).
Proof. apply same_owners_insert. Qed.

(** Operations on everything but the owner words. *)
Lemma only_q {A} (p : prog (wait_queue ub_location_t) A) : only mkeeps (on_q p).
Proof. eapply only_lift; [|apply only_any]. intros w t _. split_and!; [by intros []|done|done]. Qed.

Lemma only_net {A} (p : prog network A) : only mkeeps (on_net p).
Proof. eapply only_lift; [|apply only_any]. intros w t _. split_and!; [by intros []|done|done]. Qed.

Lemma only_local {A} node id (p : prog MutexLocalLock A) :
  only (fun o o' => owner o' = owner o) p -> only mkeeps (lift (l_local node id) p).
Proof.
  apply only_lift. intros w o Ho. apply (keeps_reg node). by apply same_owners_object.
Qed.

Lemma only_local_q {A} node id (p : prog (wait_queue Z) A) : only mkeeps (on_local_q node id p).
Proof.
  eapply only_lift; [|apply only_any]. intros w q _. apply (keeps_reg node). by apply same_owners_object.
Qed.

Lemma only_shm {A} (p : prog ub_mutex_lock A) :
  only (fun m m' => lock_owner m' = lock_owner m /\ is_inited m' = is_inited m) p ->
  only mkeeps (on_shm p).
Proof.
  apply only_lift. intros w m [Ho Hi]. split_and!; [by intros []|done|].
  intros [Hr H]. split; [cbn in *; congruence|done].
Qed.

Lemma only_registry {A} node (f : local_registry -> A * local_registry) :
  (forall r, same_owners r (f r).2) -> only mkeeps (under_registry_lock fuel node f).
Proof.
  intros Hf. apply only_iter. intros _. apply (only_lift _ same_owners).
  - intros w r. apply keeps_reg.
  - intros r. split; [|by intros []]. destruct (reg_locked r); [done|]. specialize (Hf r).
    by destruct (f r).
Qed.


Lemma only_active_users node id : only mkeeps (release_mutex_local_lock node id).
Proof. apply only_bind; [|done]. apply only_local. by intros o. Qed.

Lemma only_acquire node : only mkeeps (acquire_mutex_local_lock fuel node).
Proof.
  apply only_registry. intros r. destruct (reg_entry r) as [id|] eqn:E; [|by split_and!].
  by apply same_owners_object.
Qed.

Ltac only_step :=
  match goal with
  | |- forall _, _ => intros ?
  | |- only _ (Ret _) => exact I
  | |- only _ (on_q _) => apply only_q
  | |- only _ (on_net _) => apply only_net
  | |- only _ (on_local_q _ _ _) => apply only_local_q
  | |- only _ (on_shm (load _)) => apply only_shm; by intros ?
  | |- only _ (lift (l_local _ _) (load _)) => apply only_local; by intros ?
  | |- only _ (release_mutex_local_lock _ _) => apply only_active_users
  | |- only _ (bind (ask _) _) => cbn [bind ask only]
  | |- only _ (bind _ _) => apply only_bind
  | |- only _ (match ?b with _ => _ end) => destruct b
  | |- only _ (iter _ _ _) => apply only_iter
  end.
Ltac only_tac := repeat only_step; auto.

Lemma only_dump o : only mkeeps (dump_mutex_timeout_info o).
Proof. unfold dump_mutex_timeout_info. only_tac. Qed.

Lemma only_wake_local_scan n node id : only mkeeps (wake_local_scan fuel n node id).
Proof.
  induction n as [|n IH]; cbn [wake_local_scan]; [done|].
  unfold clean_mutex_local_outqueue_waiter. only_tac.
Qed.

Lemma only_notify_waiter idx l : only mkeeps (notify_waiter idx l).
Proof. unfold notify_waiter, waiter_location, mutex_send_with_retry. only_tac. Qed.
#[local] Hint Resolve only_dump only_notify_waiter : core.

Lemma only_wake_scan n l : only mkeeps (wake_scan fuel n l).
Proof. induction n as [|n IH]; cbn [wake_scan]; [done|]. unfold clean_outqueue_waiter. only_tac. Qed.

Lemma only_wait_local l id deadline : only mkeeps (wait_mutex_local_handoff fuel l id deadline).
Proof.
  unfold wait_mutex_local_handoff, with_waiter_guard, enqueue_mutex_local_waiter,
    clean_mutex_local_timeout_waiter. only_tac.
Qed.

Lemma only_wait_global deadline l : only mkeeps (wait_global_handoff fuel deadline l).
Proof.
  unfold wait_global_handoff, with_waiter_guard, enqueue_waiter, clean_timeout_waiter. only_tac.
Qed.

Lemma only_receive node : only mkeeps (mutex_receive node).
Proof. unfold mutex_receive, message_process_thread_func. only_tac. Qed.
End MutexKeeps.

Section MutexExclusive.
Context (fuel : nat) (ids : nat -> nat) (locs : list ub_location_t) (i : nat) (l : ub_location_t).
Hypothesis Hlocs : wf_locs locs.
Hypothesis Hl : locs !! i = Some l.
Abbreviation M := (mutex_guarded ids).
Abbreviation inv := (own_inv M locs).
Abbreviation msafe := (safe any_answer inv (own_guar M locs)).
Abbreviation mstable := (stable inv (own_guar M locs)).
Abbreviation node := (Z.to_nat (node_id l)).
Abbreviation KL := (KLocal node).

(** The stages of a thread: it owns nothing, the local word, both words. *)
Definition stage0 (w : mutex_world) (_ : unit) : Prop := ~ owns M locs KL i w /\ ~ owns M locs KGlobal i w.
Definition stage1 (w : mutex_world) (_ : unit) : Prop := owns M locs KL i w /\ ~ owns M locs KGlobal i w.
Definition stage2 : mutex_world -> unit -> Prop := keys_owned M mutex_keys locs l i [].

Lemma stage0_stable : mstable i stage0.
Proof. apply stable_and; by apply Lacks_stable. Qed.
Lemma stage1_stable : mstable i stage1.
Proof. apply stable_and; [by apply Owns_stable|by apply Lacks_stable]. Qed.

Lemma stage2_alt w : stage2 w () <-> owns M locs KL i w /\ Inside M locs i [] w ().
Proof.
  split.
  - intros [Hk Hi]. split; [apply Hk; right; left|split; [apply Hk; left|done]].
  - intros [Ho [Hg Hi]]. split; [|done]. intros k Hk. unfold mutex_keys in Hk.
    apply elem_of_cons in Hk as [-> |Hk]; [done|]. by apply list_elem_of_singleton in Hk as ->.
Qed.

Lemma stage2_stable : mstable i stage2.
Proof.
  intros w [] w' [] Hw Hr. apply stage2_alt in Hw as [Ho Hi]. apply stage2_alt. split.
  - by eapply (Owns_stable M locs Hlocs KL i w () w' ()).
  - by eapply (Inside_stable M locs Hlocs i [] w () w' ()).
Qed.

Lemma stage0_word : word_pred M stage0.
Proof. apply word_and; apply Lacks_word. Qed.
Lemma stage1_word : word_pred M stage1.
Proof. apply word_and; [apply Owns_word|apply Lacks_word]. Qed.
Lemma stage2_word : word_pred M stage2.
Proof.
  intros w w' Hk Hw. apply stage2_alt in Hw as [Ho Hi]. apply stage2_alt. split.
  - by eapply (Owns_word M locs KL i w w').
  - by eapply (Inside_word M locs i [] w w').
Qed.
#[local] Hint Resolve stage0_stable stage1_stable stage2_stable stage0_word stage1_word stage2_word : core.

(** A program that keeps the words, followed by the rest. *)
Lemma bind_keeps {A B} P (p : prog mutex_world A) (f : A -> prog mutex_world B) Q w :
  inv w () -> P w () -> mstable i P -> word_pred M P -> only (keeps M) p ->
  (forall a w, inv w () -> P w () -> msafe i (f a) Q w ()) ->
  msafe i (bind p f) Q w ().
Proof.
  intros HI HP Hst Hw Ho Hf. eapply safe_bind; [done|by apply (safe_keeps _ _ _ P)|].
  intros a w1 [] HI1 HP1. by apply Hf.
Qed.

Lemma ret_stage {A} (Q : A -> mutex_world -> unit -> Prop) a w :
  mstable i (Q a) -> Q a w () -> msafe i (Ret a) Q w ().
Proof. apply safe_ret. Qed.

Lemma valid_location_node : is_invalid_node (node_id l) = false.
Proof. by destruct (proj1 (Forall_lookup _ _) (locs_valid _ Hlocs) _ _ Hl). Qed.

Lemma node_bound : (node < Z.to_nat UB_MAX_NODES)%nat /\ 0 <= node_id l.
Proof.
  assert (H := valid_location_node). unfold is_invalid_node in H. apply Z.leb_gt in H.
  destruct (proj1 (Forall_lookup _ _) (locs_valid _ Hlocs) _ _ Hl) as [[_ Hv] _].
  unfold UB_MAX_NODES in *. lia.
Qed.

(** The lens on the local lock of this process reads and writes [KL]. *)
Lemma local_get w : lget (l_local (node_id l) (ids node)) w = local_of ids node w.
Proof. done. Qed.

Lemma local_set w v :
  mutex_ready ids w ->
  let w' := lset (l_local (node_id l) (ids node)) (lset l_owner v (local_of ids node w)) w in
  rewrites M KL w w' /\ mutex_owner ids KL w' = v.
Proof.
  intros [Hi Hr] w'. destruct node_bound as [Hn Hp]. destruct (Hr node Hn) as (r & Hrn & Hre & Hlt).
  assert (Hreg : reg w (node_id l) = r) by (unfold reg, getZ; by rewrite Hrn).
  assert (Hlen := lookup_lt_Some _ _ _ Hrn).
  assert (Hw' : regs w' = <[node := lset (l_object (ids node)) (lset l_owner v (local_of ids node w)) r]> (regs w))
    by (unfold w'; cbn; by rewrite Hreg).
  split; [split_and!; [|done|]|].
  - intros [|n] Hne; [done|]. cbn [g_owner mutex_guarded mutex_owner]. unfold local_of. rewrite Hw'.
    rewrite list_lookup_insert_ne; [done|congruence].
  - intros _. split; [done|]. intros n Hn'. rewrite Hw'. destruct (decide (n = node)) as [->|Hne].
    + eexists. rewrite list_lookup_insert_eq by done. split_and!; [done|done|]. cbn. by rewrite length_insert.
    + rewrite list_lookup_insert_ne by done. by apply Hr.
  - cbn [mutex_owner]. unfold local_of at 1. rewrite Hw', list_lookup_insert_eq by done. cbn.
    by rewrite list_lookup_insert_eq.
Qed.

Lemma global_set w v :
  let w' := lset l_shm (lset l_lock_owner v (shm w)) w in
  rewrites M KGlobal w w' /\ mutex_owner ids KGlobal w' = v.
Proof. split; [split_and!; [by intros []|done|done]|done]. Qed.

Lemma owns_value k w : owns M locs k i w -> mutex_owner ids k w = identify l.
Proof. intros (l' & Hl' & Ho). rewrite Hl in Hl'. by injection Hl' as <-. Qed.

Lemma key_dec (k k' : mutex_key) : {k = k'} + {k <> k'}.
Proof. apply mutex_key_eq_dec. Qed.

(** ** The local lock *)

Lemma local_noop w :
  inv w () -> stage0 w () ->
  let w' := lset (l_local (node_id l) (ids node)) (local_of ids node w) w in
  inv w' () /\ own_guar M locs i (w, ()) (w', ()) /\ stage0 w' ().
Proof.
  intros HI H0 w'. assert (Hk : keeps M w w') by (apply keeps_reg; by apply same_owners_object).
  destruct (keeps_inv M locs i _ _ HI Hk). split_and!; [done|done|by apply (stage0_word w)].
Qed.

Lemma claim_local_safe w :
  inv w () -> stage0 w () ->
  msafe i (lift (l_local (node_id l) (ids node)) (cas_weak l_owner LOCK_INVALID_OWNER (identify l)))
    (fun r => if r.1 then stage1 else stage0) w ().
Proof.
  intros HI H0. cbn. apply safe_ask. intros sp.
  destruct (sp =? 0); cbn; (apply (safe_act _ _ _ _ stage0); [auto|done|]); clear w HI H0;
    intros w [] HI H0; exists ();
    change (default new_local_lock (objects (reg w (node_id l)) !! ids node)) with (local_of ids node w);
    destruct (local_noop w HI H0) as (N1 & N2 & N3).
  - destruct (Z.eqb_spec (owner (local_of ids node w)) LOCK_INVALID_OWNER) as [Hf|Hf]; cbn.
    + destruct (local_set w (identify l)) as [Hrw Hv]; [apply HI|].
      destruct (take_step M locs Hlocs KL i l w _ key_dec Hl HI Hf Hrw Hv) as (H1 & H2 & H3 & _).
      split_and!; [done|done|]. apply safe_ret; [auto|]. split; [done|].
      intros HG. apply H0. by eapply owns_same; [|exact HG].
    + split_and!; [done|done|]. by apply safe_ret.
  - split_and!; [done|done|]. by apply safe_ret.
Qed.

Lemma try_claim_safe aw slot w :
  inv w () -> stage0 w () ->
  msafe i (try_claim_mutex_local fuel (node_id l) (ids node) (identify l) aw slot)
    (fun ok => if ok : bool then stage1 else stage0) w ().
Proof.
  intros HI H0. eapply safe_bind; [done|by apply claim_local_safe|].
  clear w HI H0. intros [[] e] w [] HI Hp; cbn [negb fst] in *; [|by apply safe_ret].
  destruct aw.
  - apply (bind_keeps stage1); auto; [apply only_local_q|]. intros _ w1 HI1 H1. by apply safe_ret.
  - by apply safe_ret.
Qed.

Definition spin_post (r : MutexLocalSpinResult) : mutex_world -> unit -> Prop :=
  match r with ACQUIRED => stage1 | _ => stage0 end.
Lemma spin_post_stable r : mstable i (spin_post r).
Proof. destruct r; cbn; auto. Qed.
#[local] Hint Resolve spin_post_stable : core.

Lemma spin_rounds_safe n slot w :
  inv w () -> stage0 w () ->
  msafe i (spin_rounds fuel n (node_id l) (ids node) (identify l) slot) spin_post w ().
Proof.
  revert w. induction n as [|n IH]; intros w HI H0; cbn [spin_rounds]; [by apply safe_ret|].
  apply (bind_keeps stage0); auto; [apply only_local_q|]. clear w HI H0. intros c w HI H0.
  case_bool; [by apply safe_ret|]. eapply safe_bind; [done|by apply try_claim_safe|].
  clear w HI H0. intros [] w [] HI Hp; [by apply safe_ret|by apply IH].
Qed.

Lemma spin_try_safe deadline aw slot w :
  inv w () -> stage0 w () ->
  msafe i (spin_try_mutex_local fuel (node_id l) (ids node) (identify l) deadline aw slot) spin_post w ().
Proof.
  intros HI H0. destruct aw; cbn [spin_try_mutex_local]; [|by apply spin_rounds_safe].
  apply (safe_iter _ _ _ _ _ (fun _ => stage0)); [|auto|done|done].
  clear w HI H0. intros [] w [] HI H0. unfold spin_awakened_round. cbn [bind ask]. apply safe_ask. intros now.
  case_bool.
  - eapply safe_bind; [done|by apply try_claim_safe|]. clear w HI H0.
    intros [] w [] HI Hp; by apply safe_ret.
  - apply (bind_keeps stage0); auto; [apply only_dump|]. clear w HI H0. intros _ w HI H0.
    apply (bind_keeps stage0); auto; [apply only_local_q|]. clear w HI H0. intros _ w HI H0.
    by apply safe_ret.
Qed.

Definition local_post (r : ub_lock_result_t) : mutex_world -> unit -> Prop :=
  if is_success r then stage1 else stage0.
Lemma local_post_stable r : mstable i (local_post r).
Proof. unfold local_post. case_bool; auto. Qed.
#[local] Hint Resolve local_post_stable : core.

Lemma local_post_fail r : is_success r = false -> local_post r = stage0.
Proof. unfold local_post. by intros ->. Qed.

Lemma lock_local_safe deadline w :
  inv w () -> stage0 w () ->
  msafe i (lock_mutex_local fuel l (ids node) (identify l) deadline) local_post w ().
Proof.
  intros HI H0. apply (safe_iter _ _ _ _ _ (fun _ => stage0)); [|auto|done|done].
  clear w HI H0. intros [aw slot] w [] HI H0. unfold lock_mutex_local_round. cbn [bind ask].
  apply safe_ask. intros now. case_bool.
  - apply (bind_keeps stage0); auto; [apply only_dump|]. clear w HI H0. intros _ w HI H0.
    by apply safe_ret.
  - eapply safe_bind; [done|by apply spin_try_safe|]. clear w HI H0. intros [] w [] HI Hp.
    + by apply safe_ret.
    + apply (bind_keeps stage0); auto; [apply only_wait_local|]. clear w HI Hp. intros [ret slot'] w HI H0.
      destruct (is_success ret) eqn:Er; apply safe_ret; auto. by rewrite local_post_fail.
    + by apply safe_ret.
Qed.

(** Reading one's own local word. *)
Lemma read_local_safe {A} P (k : Z -> prog mutex_world A) Q w :
  inv w () -> P w () -> mstable i P -> word_pred M P ->
  (forall w, inv w () -> P w () -> exists v, mutex_owner ids KL w = v /\
     forall w', inv w' () -> P w' () -> msafe i (k v) Q w' ()) ->
  msafe i (bind (lift (l_local (node_id l) (ids node)) (load owner)) k) Q w ().
Proof.
  intros HI HP Hst Hw Hk. cbn. apply (safe_act _ _ _ _ P); [done|done|].
  clear w HI HP. intros w [] HI HP. exists (). cbn.
  assert (Hkp : keeps M w (set_reg (node_id l)
    (lset (l_object (ids node)) (local_of ids node w) (reg w (node_id l))) w))
    by (apply keeps_reg; by apply same_owners_object).
  destruct (keeps_inv M locs i _ _ HI Hkp). split_and!; [done|done|].
  destruct (Hk w HI HP) as (v & <- & Hs). apply Hs; [done|by apply (Hw w)].
Qed.

(** Releasing the local word. *)
Lemma unlock_local_safe w :
  inv w () -> stage1 w () ->
  msafe i (unlock_mutex_local fuel (node_id l) (ids node) (identify l)) (fun _ => stage0) w ().
Proof.
  intros HI H1. unfold unlock_mutex_local. apply (read_local_safe stage1); auto.
  clear w HI H1. intros w _ [Ho _]. exists (identify l). split; [by apply owns_value|].
  clear w Ho. intros w HI H1. rewrite Z.eqb_refl. cbn.
  apply (safe_act _ _ _ _ stage1); [auto|done|]. clear w HI H1. intros w [] HI [HL HG]. exists (). cbn.
  destruct (local_set w LOCK_INVALID_OWNER) as [Hrw Hv]; [apply HI|].
  destruct (release_step M locs Hlocs KL i w _ key_dec HI HL ltac:(done) Hrw Hv) as (H1 & H2 & H3).
  assert (H0 : stage0 (lset (l_local (node_id l) (ids node))
    (lset l_owner LOCK_INVALID_OWNER (local_of ids node w)) w) ()).
  { split; [done|]. intros HG'. apply HG. by eapply owns_same; [|exact HG']. }
  split_and!; [done|done|]. apply (safe_keeps _ _ _ stage0); auto.
  apply (only_bind _ (on_local_q (node_id l) (ids node) (load q_count))); [apply only_local_q|].
  intros c. case_bool; [apply only_wake_local_scan|done].
Qed.

(** ** The global lock *)

Lemma read_global_safe {A} P (k : Z -> prog mutex_world A) Q w :
  P w () -> mstable i P ->
  (forall w, inv w () -> P w () -> msafe i (k (mutex_owner ids KGlobal w)) Q w ()) ->
  msafe i (bind (on_shm (load lock_owner)) k) Q w ().
Proof.
  intros HP Hst Hk. cbn. apply (safe_read _ _ _ _ P); [by intros [[] ???]|apply own_guar_refl|done|done|].
  intros w' []. apply Hk.
Qed.

Lemma claim_global_safe w :
  inv w () -> stage1 w () ->
  msafe i (on_shm (cas_weak l_lock_owner LOCK_INVALID_OWNER (identify l)))
    (fun r => if r.1 then stage2 else stage1) w ().
Proof.
  intros HI H1. cbn. apply safe_ask. intros sp. destruct (sp =? 0); cbn.
  - apply (safe_act _ _ _ _ stage1); [auto|done|]. clear w HI H1. intros w [] HI H1. exists ().
    destruct (Z.eqb_spec (lock_owner (shm w)) LOCK_INVALID_OWNER) as [Hf|Hf]; cbn.
    + destruct (global_set w (identify l)) as [Hrw Hv].
      destruct (take_step M locs Hlocs KGlobal i l w _ key_dec Hl HI Hf Hrw Hv) as (T1 & T2 & T3 & T4).
      split_and!; [done|done|]. apply safe_ret; [apply stage2_stable|]. apply stage2_alt.
      split; [eapply owns_same; [|apply H1]; done|split; [done|by apply T4]].
    + destruct w as [[] ? ? ?]. split_and!; [done|apply own_guar_refl|]. by apply safe_ret.
  - apply (safe_read _ _ _ _ stage1); [by intros [[] ???]|apply own_guar_refl|auto|done|].
    intros w' [] HI' H1'. by apply safe_ret.
Qed.

Lemma try_lock_fast_safe aw slot w :
  inv w () -> stage1 w () ->
  msafe i (try_lock_fast fuel (identify l) aw slot) (fun ok => if ok : bool then stage2 else stage1) w ().
Proof.
  intros HI H1. unfold try_lock_fast. apply (bind_keeps stage1); auto; [apply only_q|].
  clear w HI H1. intros c w HI H1. case_bool; [by apply safe_ret|].
  eapply safe_bind; [done|by apply claim_global_safe|]. clear w HI H1.
  intros [[] e] w [] HI Hp; cbn [fst] in Hp; [|by apply safe_ret].
  destruct aw; [|by apply safe_ret].
  apply (bind_keeps stage2); auto; [apply only_q|]. intros _ w1 HI1 H2. by apply safe_ret.
Qed.

Lemma check_recursive_safe {A} (k : ub_lock_result_t -> prog mutex_world A) Q w :
  inv w () -> stage1 w () ->
  (forall w, inv w () -> stage1 w () -> msafe i (k UB_LOCK_SUCCESS) Q w ()) ->
  msafe i (bind (check_recursive_global_owner (identify l)) k) Q w ().
Proof.
  intros HI H1 Hk. cbn. apply (safe_read _ _ _ _ stage1); [by intros [[] ???]|apply own_guar_refl|auto|done|].
  intros w' [] HI' H1'. cbn. destruct (Z.eqb_spec (lock_owner (shm w')) (identify l)) as [He|He]; cbn.
  - destruct (proj2 H1'). by exists l.
  - by apply Hk.
Qed.

Definition global_post (r : ub_lock_result_t) : mutex_world -> unit -> Prop :=
  if is_success r then stage2 else stage1.
Lemma global_post_stable r : mstable i (global_post r).
Proof. unfold global_post. case_bool; auto. Qed.
#[local] Hint Resolve global_post_stable : core.

Lemma global_post_fail r : is_success r = false -> global_post r = stage1.
Proof. unfold global_post. by intros ->. Qed.

Lemma acquire_global_safe deadline w :
  inv w () -> stage1 w () -> msafe i (acquire_global fuel deadline l) global_post w ().
Proof.
  intros HI H1. apply check_recursive_safe; [done|done|]. clear w HI H1. intros w HI H1. change (negb (is_success UB_LOCK_SUCCESS)) with false; cbv iota.
  apply (safe_iter _ _ _ _ _ (fun _ => stage1)); [|auto|done|done].
  clear w HI H1. intros [[wr slot] aw] w [] HI H1. unfold acquire_round. cbn [bind ask].
  apply safe_ask. intros now. case_bool.
  - apply (bind_keeps stage1); auto; [apply only_dump|]. clear w HI H1. intros _ w HI H1.
    destruct aw; [|by apply safe_ret].
    apply (bind_keeps stage1); auto; [apply only_q|]. clear w HI H1. intros _ w HI H1. by apply safe_ret.
  - eapply safe_bind; [done|by apply try_lock_fast_safe|]. clear w HI H1.
    intros [] w [] HI Hp; [by apply safe_ret|].
    apply check_recursive_safe; [done|done|]. clear w HI Hp. intros w HI H1. change (negb (is_success UB_LOCK_SUCCESS)) with false; cbv iota.
    destruct aw; [by apply safe_ret|]. case_bool; [|by apply safe_ret].
    apply (bind_keeps stage1); auto; [apply only_wait_global|]. clear w HI H1. intros [ret slot'] w HI H1.
    destruct (is_success ret) eqn:Er; apply safe_ret; auto. by rewrite global_post_fail.
Qed.

(** ** The operations *)

Lemma ready_safe {A} P (k : bool -> prog mutex_world A) Q w :
  P w () -> mstable i P ->
  (forall w, inv w () -> P w () -> msafe i (k true) Q w ()) ->
  msafe i (bind is_ready k) Q w ().
Proof.
  intros HP Hst Hk. cbn. apply (safe_read _ _ _ _ P); [by intros [[] ???]|apply own_guar_refl|done|done|].
  intros w' [] [[Hi Hr] Hin] HP'. cbn. rewrite Hi. by apply Hk.
Qed.

(** The registry has the local lock of this process. *)
Lemma acquire_local_safe P w :
  inv w () -> P w () -> mstable i P -> word_pred M P ->
  msafe i (acquire_mutex_local_lock fuel (node_id l)) (fun r w g => r = Some (ids node) /\ P w g) w ().
Proof.
  intros HI HP Hst Hw. assert (Hst' : forall r, mstable i (fun w g => r = Some (ids node) /\ P w g)).
  { intros r w1 [] w2 [] [Hr H] Hrel. split; [done|]. by eapply Hst. }
  apply (safe_iter _ _ _ _ _ (fun _ => P)); [|done|done|done].
  clear w HI HP. intros [] w [] HI HP. cbn. apply (safe_act _ _ _ _ P); [done|done|].
  clear w HI HP. intros w [] HI HP. exists (). destruct HI as [[Hi Hr] Hin].
  destruct (Hr node) as (r & Hrn & Hre & Hlt); [apply node_bound|].
  assert (Hreg : reg w (node_id l) = r) by (unfold reg, getZ; by rewrite Hrn).
  rewrite Hreg. set (w' := (let '(b, t) := _ in (b, set_reg (node_id l) t w))).
  assert (Hk : keeps M w w'.2 /\ (w'.1 = inl tt \/ w'.1 = inr (Some (ids node)))).
  { unfold w'. destruct (reg_locked r).
    - split; [|by left]. apply keeps_reg. rewrite Hreg. by split_and!.
    - rewrite Hre. split; [|by right]. apply keeps_reg. rewrite Hreg. cbn [snd].
      rewrite <- Hre. by apply same_owners_insert. }
  destruct Hk as [Hk Hb]. destruct (keeps_inv M locs i w _ (conj (conj Hi Hr) Hin) Hk) as [H1 H2].
  split_and!; [done|done|]. destruct Hb as [-> | ->].
  - apply safe_ret; [done|]. by apply (Hw w).
  - apply safe_ret; [apply Hst'|]. split; [done|]. by apply (Hw w).
Qed.

Lemma mutex_lock_safe timeout w :
  inv w () -> stage0 w () ->
  msafe i (lock fuel timeout l) (fun r => if is_success r then stage2 else stage0) w ().
Proof.
  assert (Hpost : forall r, mstable i (if is_success r then stage2 else stage0)) by (intros r; case_bool; auto).
  assert (Hrel : forall P r w, inv w () -> P w () -> mstable i P -> word_pred M P ->
    (if is_success r then stage2 else stage0) = P ->
    msafe i (release_mutex_local_lock (node_id l) (ids node) ;;; Ret r)
      (fun r => if is_success r then stage2 else stage0) w ()).
  { intros P r w1 HI HP Hst Hw He. apply (bind_keeps P); auto; [apply only_active_users|].
    intros _ w2 HI2 HP2. apply safe_ret; [auto|]. by rewrite He. }
  intros HI H0. unfold lock. rewrite valid_location_node. apply (ready_safe stage0); auto.
  clear w HI H0. intros w HI H0. cbn [negb]. apply (read_global_safe stage0); auto.
  clear w HI H0. intros w HI H0. destruct (Z.eqb_spec (mutex_owner ids KGlobal w) (identify l)) as [He|_].
  { destruct (proj2 H0). by exists l. }
  eapply safe_bind; [done|by apply (acquire_local_safe stage0)|]. clear w HI H0. intros ll w [] HI [-> H0].
  cbn [bind ask]. apply safe_ask. intros now. apply (read_local_safe stage0); auto.
  clear w HI H0. intros w HI H0. eexists. split; [done|]. intros w' HI' H0'.
  destruct (Z.eqb_spec (mutex_owner ids KL w) (identify l)) as [He|_].
  { destruct (proj1 H0). by exists l. }
  clear w HI H0. eapply safe_bind; [done|by apply lock_local_safe|]. clear w' HI' H0'.
  intros lr w [] HI Hp. destruct (is_success lr) eqn:Elr; cbn [negb].
  - unfold local_post in Hp. rewrite Elr in Hp. eapply safe_bind; [done|by apply acquire_global_safe|].
    clear w HI Hp. intros gr w [] HI Hp. destruct (is_success gr) eqn:Egr.
    + unfold global_post in Hp. rewrite Egr in Hp. by apply (Hrel stage2).
    + rewrite global_post_fail in Hp by done. eapply safe_bind; [done|by apply unlock_local_safe|].
      clear w HI Hp. intros _ w [] HI H0. apply (Hrel stage0); auto. by rewrite Egr.
  - rewrite local_post_fail in Hp by done. apply (Hrel stage0); auto. by rewrite Elr.
Qed.

Lemma release_global_safe w :
  inv w () -> stage2 w () ->
  msafe i (on_shm (cas_strong l_lock_owner (identify l) LOCK_INVALID_OWNER))
    (fun r w g => r.1 = true /\ stage1 w g) w ().
Proof.
  intros HI H2. apply (safe_act _ _ _ _ stage2); [auto|done|].
  clear w HI H2. intros w [] HI H2. exists ().
  assert (He : lock_owner (shm w) = identify l) by (apply (owns_value KGlobal), H2; left).
  destruct (global_set w LOCK_INVALID_OWNER) as [Hrw Hv].
  assert (HG : owns M locs KGlobal i w) by (apply H2; left).
  destruct (release_step M locs Hlocs KGlobal i w _ key_dec HI HG ltac:(intros _; apply H2) Hrw Hv) as (R1 & R2 & R3).
  cbn. rewrite He, Z.eqb_refl. cbn. split_and!; [done|done|]. apply safe_ret.
  - intros w6 [] w7 [] [Hr H6] Hrel. split; [done|]. by eapply stage1_stable.
  - split; [done|]. split; [|done]. eapply owns_same; [|apply H2; right; left]. done.
Qed.

Lemma mutex_unlock_safe w :
  inv w () -> stage2 w () ->
  msafe i (unlock fuel l) (fun r w g => r = UB_LOCK_SUCCESS /\ stage0 w g) w ().
Proof.
  intros HI H2. unfold unlock. rewrite valid_location_node. apply (ready_safe stage2); auto.
  clear w HI H2. intros w HI H2. cbn [negb]. apply (read_global_safe stage2); auto.
  clear w HI H2. intros w HI H2. rewrite (owns_value KGlobal) by (apply H2; left). rewrite Z.eqb_refl. cbn [negb].
  eapply safe_bind; [done|by apply (acquire_local_safe stage2)|]. clear w HI H2. intros ll w [] HI [-> H2].
  apply (read_local_safe stage2); auto. clear w HI H2. intros w HI H2. exists (identify l).
  split; [apply owns_value, H2; right; left|]. clear w HI H2. intros w HI H2. rewrite Z.eqb_refl. cbn [negb].
  eapply safe_bind; [done|by apply release_global_safe|]. clear w HI H2. intros [ok e] w [] HI [Hok H1].
  cbn [fst] in Hok. subst ok. cbn [negb].
  apply (bind_keeps stage1); auto; [apply only_q|]. intros c w2 HI2 H12.
  apply (bind_keeps stage1); auto; [case_bool; [apply only_wake_scan|done]|]. intros _ w3 HI3 H13.
  eapply safe_bind; [done|by apply unlock_local_safe|]. intros _ w4 [] HI4 H04.
  apply (bind_keeps stage0); auto; [apply only_active_users|]. intros _ w5 HI5 H05.
  apply safe_ret; [|done]. intros w6 [] w7 [] [Hr H06] Hrel. split; [done|]. by eapply stage0_stable.
Qed.
End MutexExclusive.

Definition mutex_acquire (fuel : nat) (timeout : ub_location_t -> Z) (l : ub_location_t)
    : prog mutex_world ub_lock_result_t := ub_mutex_lock_lock fuel false (timeout l) (Some l).
Definition mutex_release (fuel : nat) (l : ub_location_t) : prog mutex_world ub_lock_result_t :=
  ub_mutex_unlock fuel false (Some l).

(** The mutex offers the interface of an exclusive lock. *)
#[global] Instance mutex_exclusive fuel timeout ids :
  Exclusive (mutex_guarded ids) mutex_keys (mutex_acquire fuel timeout) (mutex_release fuel).
Proof.
  split.
  - intros l. left.
  - intros locs i l w Hlocs Hl HI Hn.
    assert (H0 : stage0 ids locs i l w ()) by (split; apply Hn; [right; left|left]).
    eapply safe_mono; [by apply mutex_lock_safe|]. intros r w2 [] _ Hp. destruct (is_success r).
    + exact Hp.
    + intros k Hk. destruct Hp as [HL HG]. unfold mutex_keys in Hk.
      apply elem_of_cons in Hk as [-> |Hk]; [done|]. by apply list_elem_of_singleton in Hk as ->.
  - intros locs i l w Hlocs Hl HI Ho Hi. eapply safe_mono; [apply (mutex_unlock_safe fuel ids locs i l); try done|].
    intros r w2 [] _ [-> [HL HG]]. split; [done|]. intros k Hk. unfold mutex_keys in Hk.
    apply elem_of_cons in Hk as [-> |Hk]; [done|]. by apply list_elem_of_singleton in Hk as ->.
Qed.

(** * Free mutexes *)

(** A mutex every process has created and nobody holds. *)
Record mutex_free (ids : nat -> nat) (w : mutex_world) : Prop := {
  free_ready : mutex_ready ids w;
  free_global : lock_owner (shm w) = LOCK_INVALID_OWNER;
  free_local : forall n, (n < Z.to_nat UB_MAX_NODES)%nat -> owner (local_of ids n w) = LOCK_INVALID_OWNER;
  free_inside : inside w = [] }.

(** The receiving thread of a process, for a number of messages. *)
Definition receiver (node : Z) (n : nat) : prog mutex_world (list ub_lock_result_t) :=
  for_each (replicate n tt) (fun _ => mutex_receive node) ;;; Ret [].

Definition mutex_pool (ids : nat -> nat) (fuel : nat) (timeout : ub_location_t -> Z) (locs : list ub_location_t)
    (rounds : list nat) (receivers : list (Z * nat)) : list (prog mutex_world (list ub_lock_result_t)) :=
  client_pool (mutex_guarded ids) (mutex_acquire fuel timeout) (mutex_release fuel) locs rounds
    ((fun nm => receiver nm.1 nm.2) <$> receivers).

Lemma receiver_keeps ids node n : only (keeps (mutex_guarded ids)) (receiver node n).
Proof.
  apply only_bind; [|done]. generalize (replicate n tt). intros xs. induction xs as [|x xs IH]; [done|].
  apply only_bind; [apply only_receive|auto].
Qed.

Section Creation.
Context (fuel : nat).

(** What the shared memory may hold before the first creation: anything but the mark of
    an initialization in progress. *)
Definition creatable (m : ub_mutex_lock) : Prop :=
  is_inited m <> MUTEX_INITING /\ Z.of_nat (length (slots (mutex_q m))) = UB_MAX_NODES /\
  (is_inited m = MUTEX_READY -> lock_owner m = LOCK_INVALID_OWNER).

Definition created (m : ub_mutex_lock) : Prop :=
  is_inited m = MUTEX_READY /\ lock_owner m = LOCK_INVALID_OWNER.

#[local] Instance q_lens_laws : LensLaws (lens_comp l_shm l_mutex_q).
Proof. split; [done|done|by intros [[] ???]]. Qed.
#[local] Instance net_lens_laws : LensLaws l_net.
Proof. split; [done|done|by intros []]. Qed.

Lemma run_create_wait_queue env w :
  Z.of_nat (length (slots (mutex_q (shm w)))) = UB_MAX_NODES ->
  exists q, run create_wait_queue env w =
    (Some tt, env, lset (lens_comp l_shm l_mutex_q) q w) /\ Z.of_nat (length (slots q)) = UB_MAX_NODES.
Proof.
  intros Hs. unfold create_wait_queue. rewrite run_lift by apply _.
  destruct (init_rep (W := ub_location_t) UB_MAX_NODES ltac:(by exists 4) env (mutex_q (shm w)) Hs)
    as (q & Hrun & Hrep).
  cbn [lget lens_comp l_mutex_q l_shm]. rewrite Hrun. exists q. split; [done|apply Hrep].
Qed.

Lemma run_init_shm env w :
  creatable (shm w) -> exists m, run init_shm env w =
    (Some (Some tt), env, mkMutexWorld m (regs w) (net w) (inside w)) /\ creatable m /\ created m.
Proof.
  intros (Hni & Hsz & Hrd). unfold init_shm. assert (Hq := run_create_wait_queue).
  revert Hq. generalize create_wait_queue, (Z.to_nat MUTEX_INIT_WAIT_ROUNDS). intros cwq rounds Hq.
  destruct w as [[o q st] rs nt ins]. cbn in *. destruct (Z.eqb_spec st MUTEX_READY) as [->|Hr].
  { eexists. split; [done|]. split; [done|]. split; [done|]. by apply Hrd. }
  assert (Hcan : ((st =? MUTEX_INIT_EMPTY) || (st <? MUTEX_INIT_EMPTY) || (MUTEX_READY <? st))%bool = true).
  { unfold MUTEX_READY, MUTEX_INITING, MUTEX_INIT_EMPTY in *. destruct (Z.eqb_spec st 0); [done|].
    destruct (Z.ltb_spec st 0); [done|]. cbn. apply Z.ltb_lt. lia. }
  rewrite Hcan. cbn. rewrite Z.eqb_refl. cbn. rewrite run_bind.
  destruct (Hq env (mkMutexWorld (mkMutex LOCK_INVALID_OWNER q MUTEX_INITING) rs nt ins) Hsz)
    as (q' & -> & Hs').
  cbn. eexists. split; [reflexivity|]. done.
Qed.

Lemma run_register_func node env n :
  exists env' n', run (register_message_process_func node) env n = (Some tt, env', n').
Proof.
  unfold register_message_process_func. cbn. repeat (case_bool; [eauto|]). cbn.
  destruct env as [|z env]; cbn; [eauto|]. case_bool; cbn; eauto.
Qed.

Lemma run_lock_create node r env w :
  (1 <= fuel)%nat -> creatable (shm w) -> 0 <= node -> regs w !! Z.to_nat node = Some r ->
  reg_locked r = false -> reg_entry r = None ->
  exists env' w', run (lock_create fuel node) env w = (Some tt, env', w') /\
    creatable (shm w') /\ created (shm w') /\ inside w' = inside w /\
    regs w' = <[Z.to_nat node := mkRegistry false (Some (length (objects r))) (objects r ++ [new_local_lock])]> (regs w).
Proof.
  intros Hfuel Hc Hn Hr Hlk He. destruct fuel as [|fu]; [lia|]. unfold lock_create. rewrite run_bind.
  destruct (run_init_shm env w Hc) as (m & -> & Hc' & Hd').
  assert (Hlen := lookup_lt_Some _ _ _ Hr).
  set (w1 := mkMutexWorld m (regs w) (net w) (inside w)).
  assert (Hreg : reg w1 node = r) by (unfold reg, getZ; cbn; by rewrite Hr).
  assert (Hlook : run (lookup_mutex_local_lock (S fu) node) env w1 = (Some None, env, set_reg node r w1)).
  { unfold lookup_mutex_local_lock, under_registry_lock. cbn. by rewrite Hreg, Hlk, He. }
  rewrite run_bind, Hlook. rewrite run_bind.
  assert (Hreg' : reg (set_reg node r w1) node = r).
  { unfold reg, set_reg, getZ, setZ. cbn. by rewrite list_lookup_insert_eq. }
  set (r' := mkRegistry false (Some (length (objects r))) (objects r ++ [new_local_lock])).
  assert (Hregi : run (register_mutex_local_lock (S fu) node) env (set_reg node r w1) =
    (Some tt, env, set_reg node r' (set_reg node r w1))).
  { unfold register_mutex_local_lock, under_registry_lock. cbn. by rewrite Hreg', Hlk, He. }
  rewrite Hregi, run_lift by apply _.
  destruct (run_register_func node env (lget l_net (set_reg node r' (set_reg node r w1)))) as (env' & n' & ->).
  exists env'. eexists. split; [reflexivity|]. split_and!; try done. cbn. unfold setZ. apply list_insert_insert_eq.
Qed.

(** Every process creates the mutex, one after the other. *)
Definition create_all : prog mutex_world unit := for_each (seqZ 0 UB_MAX_NODES) (lock_create fuel).

Definition first_registry : local_registry := mkRegistry false (Some 0%nat) [new_local_lock].

Lemma run_create_from (n k : nat) env w :
  (1 <= fuel)%nat ->
  (k + n = Z.to_nat UB_MAX_NODES)%nat -> creatable (shm w) -> (k <> 0%nat -> created (shm w)) ->
  regs w = replicate k first_registry ++ replicate n no_registry ->
  exists env' w', run (for_each (seqZ (Z.of_nat k) (Z.of_nat n)) (lock_create fuel)) env w = (Some tt, env', w') /\
    ((0 < k + n)%nat -> created (shm w')) /\ inside w' = inside w /\
    regs w' = replicate (Z.to_nat UB_MAX_NODES) first_registry.
Proof.
  intros Hfuel. revert k env w. induction n as [|n IH]; intros k env w Hk Hc Hd Hregs.
  { exists env, w. rewrite seqZ_nil by lia. split_and!; [done| |done|].
    - intros Hp. apply Hd. lia.
    - rewrite Hregs, app_nil_r. f_equal. lia. }
  rewrite seqZ_cons by lia. replace (Z.pred (Z.of_nat (S n))) with (Z.of_nat n) by lia.
  replace (Z.of_nat k + 1) with (Z.of_nat (S k)) by lia.
  replace (Z.succ (Z.of_nat k)) with (Z.of_nat (S k)) by lia. cbn [for_each]. rewrite run_bind.
  destruct (run_lock_create (Z.of_nat k) no_registry env w) as (env1 & w1 & -> & Hc1 & Hd1 & Hi1 & Hr1);
    [done|done|lia| |done|done|].
  { rewrite Hregs, Nat2Z.id, lookup_app_r by (rewrite length_replicate; lia).
    by rewrite length_replicate, Nat.sub_diag. }
  destruct (IH (S k) env1 w1) as (env' & w' & Hrun & H1 & H2 & H3); [lia|done|done| |].
  - rewrite Hr1, Hregs, Nat2Z.id. rewrite insert_app_r_alt by (rewrite length_replicate; lia).
    rewrite length_replicate, Nat.sub_diag, (replicate_S_end k first_registry), <- app_assoc. done.
  - exists env', w'. split_and!; [done|intros _; apply H1; lia|congruence|done].
Qed.
End Creation.

Lemma free_intro w :
  created (shm w) -> inside w = [] -> regs w = replicate (Z.to_nat UB_MAX_NODES) first_registry ->
  mutex_free (fun _ => 0%nat) w.
Proof.
  intros [Hi Ho] Hin Hr. split; [split; [done|]|done| |done].
  - intros n Hn. exists first_registry. rewrite Hr. split_and!; [by apply lookup_replicate_2|done|cbn; lia].
  - intros n Hn. unfold local_of. by rewrite Hr, lookup_replicate_2.
Qed.

(** * Properties *)

(** C6: the mutex excludes across nodes.  Take a mutex that every process has
    created and nobody holds, any number of threads on any nodes (distinct
    valid locations), each repeating any number of times: lock with any timeout,
    enter the critical section, leave it, unlock; and any number of message threads that deliver
    wake-ups.  Whatever the interleaving of their atomic accesses, the outcome
    of every send, spurious failures and the clock (so with any timeouts, lost
    wake-ups and cancelled waits), at most one thread is in the critical section, and
    every unlock by a holder succeeds. *)
Theorem mutex_mutual_exclusion fuel timeout ids locs rounds receivers w w' ps' :
  mutex_free ids w -> wf_locs locs -> length rounds = length locs ->
  reachable any_answer (w, mutex_pool ids fuel timeout locs rounds receivers) (w', ps') ->
  (length (inside w') <= 1)%nat /\
  forall i res, (i < length locs)%nat -> ps' !! i = Some (Ret res) -> all_ok res.
Proof.
  intros [Hr Hg Hlo Hi] Hv Hlen Hreach.
  apply (pool_exclusion (mutex_guarded ids) mutex_keys (mutex_acquire fuel timeout) (mutex_release fuel)
    locs Hv rounds ((fun nm => receiver nm.1 nm.2) <$> receivers) w w' ps'); try done.
  - intros i l k Hl Hk. unfold mutex_keys in Hk. apply elem_of_cons in Hk as [-> |Hk]; [done|].
    apply list_elem_of_singleton in Hk as ->. apply Hlo. by eapply node_bound.
  - apply Forall_fmap, Forall_forall. intros [n m] _. apply receiver_keeps.
Qed.

(** Creation makes the mutex usable.  Whatever the shared memory holds (except the
    mark of an initialization that never finished), after every process has
    created the mutex it is ready, free, and every process has a free local lock of its own;
    one round of the registry lock is enough fuel when nobody contends for it. *)
Theorem mutex_create_free fuel env w :
  (1 <= fuel)%nat -> creatable (shm w) -> inside w = [] ->
  regs w = replicate (Z.to_nat UB_MAX_NODES) no_registry ->
  exists env' w', run (create_all fuel) env w = (Some tt, env', w') /\ mutex_free (fun _ => 0%nat) w'.
Proof.
  intros Hf Hc Hin Hr.
  destruct (run_create_from fuel (Z.to_nat UB_MAX_NODES) 0 env w Hf) as (env' & w' & Hrun & H1 & H2 & H3);
    [done|done|done|done|].
  exists env', w'. split; [exact Hrun|]. apply free_intro; [apply H1; cbv; lia|congruence|done].
Qed.

(** Memory nobody has initialized, and processes with a transport. *)
Definition mutex_blank : mutex_world :=
  mkMutexWorld (mkMutex 77 (WaitQueue 3 1 9 (replicate (Z.to_nat UB_MAX_NODES) (Slot 2 UB_LOCK_S (Location 5 5)))) 0)
    (replicate (Z.to_nat UB_MAX_NODES) no_registry)
    (Network (replicate (Z.to_nat UB_MAX_NODES) (Runtime ∅ true false)) (replicate (Z.to_nat UB_MAX_NODES) [])) [].

Lemma mutex_create_free_witness :
  creatable (shm mutex_blank) /\
  exists env' w', run (create_all 1) [] mutex_blank = (Some tt, env', w') /\ mutex_free (fun _ => 0%nat) w'.
Proof.
  assert (Hc : creatable (shm mutex_blank)) by (split; [discriminate|split; [reflexivity|discriminate]]).
  split; [exact Hc|]. exact (mutex_create_free 1 [] mutex_blank (Nat.le_refl 1) Hc eq_refl eq_refl).
Defined.

Definition mutex_fresh : mutex_world := Eval vm_compute in final (create_all 1) mutex_blank.

(** Two threads of node 0 and one of node 1; the first is scheduled into the critical section. *)
Definition mutex_demo_locs : list ub_location_t := [Location 1 0; Location 2 0; Location 1 1].
Definition mutex_demo : config :=
  sched (mutex_fresh, mutex_pool (fun _ => 0%nat) 3 (fun _ => 0) mutex_demo_locs [1; 1; 1]%nat [(0, 1%nat)])
    (replicate 16 (0%nat, 0)).

Lemma mutex_mutual_exclusion_witness :
  inside mutex_demo.1 = [0%nat] /\ (length (inside mutex_demo.1) <= 1)%nat.
Proof.
  split; [vm_compute; reflexivity|].
  refine (proj1 (mutex_mutual_exclusion 3 (fun _ => 0) (fun _ => 0%nat) mutex_demo_locs [1; 1; 1]%nat [(0, 1%nat)]
    mutex_fresh mutex_demo.1 mutex_demo.2 _ _ eq_refl _)).
  - apply free_intro; vm_compute; repeat split; reflexivity.
  - split.
    + repeat (apply Forall_cons; split); try apply Forall_nil; try done; split; cbn; lia.
    + repeat (apply NoDup_cons; split); try apply NoDup_nil_2;
        repeat first [apply not_elem_of_cons; split; [discriminate|] | apply not_elem_of_nil].
  - exact (sched_done _ (replicate 16 (0%nat, 0)) _ eq_refl).
Defined.
