(* ===== verification/MutexSeq.v ===== *)
(** The mutex one operation at a time (MutexLock.v, sequential reading): the contract of
    lock and unlock on every branch that does not wait, and two executions in
    which the mutex does not do what it means to. *)

From S2P Require Import Prelude Atomic CommTypes LockTypes OwnerLock LockRuntime RingQueue MutexLock.

Section Contract.
Context (fuel : nat) (w : mutex_world) (l : ub_location_t) (id : nat).
Abbreviation node := (node_id l).

(** The process of the caller has registered the local lock [id]. *)
Record registered : Prop := {
  reg_node : is_invalid_node node = false;
  reg_there : exists r, regs w !! Z.to_nat node = Some r /\ reg_locked r = false /\
    reg_entry r = Some id /\ (id < length (objects r))%nat }.

Definition local : MutexLocalLock := lget (l_local node id) w.

(** [w] with the shared structure [m] and the local lock [o]. *)
Definition put (m : ub_mutex_lock) (o : MutexLocalLock) : mutex_world := lset l_shm m (lset (l_local node id) o w).

Hypothesis Hreg : registered.

Lemma reg_at (v : mutex_world) :
  (exists m o, v = put m o) -> exists r, regs v !! Z.to_nat node = Some r /\
    reg_locked r = false /\ reg_entry r = Some id /\ (id < length (objects r))%nat.
Proof.
  intros (m & o & ->). destruct (reg_there Hreg) as (r & Hr & Hk & He & Hl).
  eexists. cbn. unfold setZ. rewrite list_lookup_insert_eq by (by eapply lookup_lt_Some).
  split; [done|]. unfold reg, getZ. rewrite Hr. cbn. by rewrite length_insert.
Qed.

Lemma put_reg m o : reg (put m o) node = lset (l_object id) o (reg w node).
Proof.
  destruct (reg_there Hreg) as (r & Hr & _). unfold reg at 1, getZ. cbn. unfold setZ.
  by rewrite list_lookup_insert_eq by (by eapply lookup_lt_Some).
Qed.

Lemma reg_w : exists r, regs w !! Z.to_nat node = Some r /\ reg w node = r /\ reg_locked r = false /\
  reg_entry r = Some id /\ (id < length (objects r))%nat.
Proof.
  destruct (reg_there Hreg) as (r & Hr & Hk & He & Hl). exists r. unfold reg, getZ. by rewrite Hr.
Qed.

Lemma get_put m o : lget (l_local node id) (put m o) = o.
Proof.
  destruct reg_w as (r & Hr & Hrw & Hk & He & Hl). unfold l_local, lens_comp. cbn [lget l_reg].
  rewrite put_reg, Hrw. cbn. by rewrite list_lookup_insert_eq.
Qed.

Lemma set_put m o o' : lset (l_local node id) o' (put m o) = put m o'.
Proof.
  change (lset (l_local node id) o' (put m o)) with
    (set_reg node (lset (l_object id) o' (reg (put m o) node)) (put m o)).
  rewrite put_reg. unfold put, set_reg. cbn. unfold setZ. by rewrite !list_insert_insert_eq.
Qed.

Lemma put_id : put (shm w) local = w.
Proof.
  destruct reg_w as (r & Hr & Hrw & Hk & He & Hl). unfold put, local, l_local, lens_comp. cbn.
  destruct w as [m rs n ins]. cbn in *. f_equal. unfold setZ. apply list_insert_id.
  rewrite Hrw, Hr. f_equal. destruct r as [lk en os]. cbn. f_equal.
  destruct (lookup_lt_is_Some_2 os id Hl) as [o Ho]. rewrite Ho. cbn. by rewrite list_insert_id.
Qed.

(** Running an operation of one of the two parts. *)
Lemma run_shm {A} (p : prog ub_mutex_lock A) env m o :
  run (on_shm p) env (put m o) = let '(r, env', m') := run p env m in (r, env', put m' o).
Proof.
  rewrite (run_lift_at l_shm (fun _ => True)); try done. by intros [] _.
Qed.

Lemma run_q {A} (p : prog (wait_queue ub_location_t) A) env m o :
  run (on_q p) env (put m o) =
  let '(r, env', q) := run p env (mutex_q m) in (r, env', put (lset l_mutex_q q m) o).
Proof.
  rewrite (run_lift_at _ (fun _ => True)); try done. by intros [[] ???] _.
Qed.

Lemma run_local {A} (p : prog MutexLocalLock A) env m o :
  run (lift (l_local node id) p) env (put m o) =
  let '(r, env', o') := run p env o in (r, env', put m o').
Proof.
  rewrite (run_lift_at _ (fun v => exists m o, v = put m o)).
  - rewrite get_put. destruct (run p env o) as [[r env'] o']. by rewrite set_put.
  - intros v o' (m1 & o1 & ->). rewrite set_put. eauto.
  - intros v o' (m1 & o1 & ->). by rewrite set_put, get_put.
  - intros v o1 o2 (m1 & o3 & ->). by rewrite !set_put.
  - intros v (m1 & o1 & ->). by rewrite get_put, set_put.
  - eauto.
Qed.

Lemma run_local_q {A} (p : prog (wait_queue Z) A) env m o :
  run (on_local_q node id p) env (put m o) =
  let '(r, env', q) := run p env (local_q o) in (r, env', put m (lset l_local_q q o)).
Proof.
  assert (Hg : forall v, lget (lens_comp (l_local node id) l_local_q) v = local_q (lget (l_local node id) v)) by done.
  assert (Hs : forall q v, lset (lens_comp (l_local node id) l_local_q) q v =
    lset (l_local node id) (lset l_local_q q (lget (l_local node id) v)) v) by done.
  rewrite (run_lift_at _ (fun v => exists m o, v = put m o)).
  - rewrite Hg, get_put. destruct (run p env (local_q o)) as [[r env'] q]. by rewrite Hs, get_put, set_put.
  - intros v q (m1 & o1 & ->). rewrite Hs, get_put, set_put. eauto.
  - intros v q (m1 & o1 & ->). by rewrite Hg, Hs, get_put, set_put, get_put.
  - intros v q1 q2 (m1 & o1 & ->). by rewrite !Hs, !get_put, !set_put, get_put.
  - intros v (m1 & o1 & ->). rewrite Hg, Hs, get_put, set_put. by destruct o1.
  - eauto.
Qed.

Lemma run_acquire env m o :
  (1 <= fuel)%nat ->
  run (acquire_mutex_local_lock fuel node) env (put m o) =
    (Some (Some id), env, put m (lset l_active_users (u32 (active_users o + 1)) o)).
Proof.
  intros Hf. destruct fuel as [|n]; [lia|]. destruct reg_w as (r & Hr & Hrw & Hk & He & Hl).
  assert (Hlk : reg_locked (reg (put m o) node) = false) by (by rewrite put_reg, Hrw).
  assert (Hen : reg_entry (reg (put m o) node) = Some id) by (by rewrite put_reg, Hrw).
  unfold acquire_mutex_local_lock, under_registry_lock. cbn [iter]. rewrite run_bind.
  cbn [lift act run l_reg lget lset]. rewrite Hlk, Hen. cbn [run].
  change (set_reg node _ (put m o)) with (lset (l_local node id)
    (lset l_active_users (u32 (active_users (lget (l_local node id) (put m o)) + 1))
       (lget (l_local node id) (put m o))) (put m o)).
  by rewrite get_put, set_put.
Qed.

Lemma run_release env m o :
  run (release_mutex_local_lock node id) env (put m o) =
    (Some tt, env, put m (lset l_active_users (u32 (active_users o - 1)) o)).
Proof. unfold release_mutex_local_lock. by rewrite run_bind, run_local. Qed.


Definition own (m : ub_mutex_lock) : ub_mutex_lock := lset l_lock_owner (identify l) m.
Definition own_local (o : MutexLocalLock) : MutexLocalLock := lset l_owner (identify l) o.

#[local] Arguments put : simpl never.

Ltac run_simpl :=
  repeat (rewrite ?run_bind, ?run_shm, ?run_q, ?run_local, ?run_local_q; cbn [run load store act]).

(** A free local lock with no waiters is taken in the first round. *)
Lemma run_lock_local deadline t1 env m o :
  (1 <= fuel)%nat -> t1 <= deadline -> owner o = LOCK_INVALID_OWNER -> q_count (local_q o) = 0 ->
  run (lock_mutex_local fuel l id (identify l) deadline) (t1 :: 0 :: env) (put m o) =
    (Some UB_LOCK_SUCCESS, env, put m (own_local o)).
Proof.
  intros Hf Ht Ho Hc. destruct fuel as [|n]; [lia|]. unfold lock_mutex_local. cbn [iter]. rewrite run_bind.
  unfold lock_mutex_local_round, spin_try_mutex_local, SPIN_WAIT_ROUNDS. cbn [spin_rounds].
  rewrite run_bind. cbn [ask run]. rewrite (proj2 (Z.leb_le _ _) Ht). cbn [negb].
  run_simpl. rewrite Hc, Z.ltb_irrefl. cbn [run]. unfold try_claim_mutex_local. run_simpl.
  cbn. rewrite Ho. cbn. by destruct o.
Qed.

Lemma run_try_lock_fast env m o :
  lock_owner m = LOCK_INVALID_OWNER -> q_count (mutex_q m) = 0 ->
  run (try_lock_fast fuel (identify l) false 0) (0 :: env) (put m o) = (Some true, env, put (own m) o).
Proof.
  intros Ho Hc. unfold try_lock_fast. run_simpl. rewrite Hc, Z.ltb_irrefl. cbn [andb]. run_simpl.
  cbn. rewrite Ho. cbn. by destruct m.
Qed.


Lemma run_acquire_global deadline t2 env m o :
  (1 <= fuel)%nat -> t2 <= deadline -> lock_owner m = LOCK_INVALID_OWNER -> q_count (mutex_q m) = 0 ->
  identify l <> LOCK_INVALID_OWNER ->
  run (acquire_global fuel deadline l) (t2 :: 0 :: env) (put m o) = (Some UB_LOCK_SUCCESS, env, put (own m) o).
Proof.
  intros Hf Ht Ho Hc Hne. unfold acquire_global, check_recursive_global_owner. run_simpl.
  rewrite Ho, (proj2 (Z.eqb_neq LOCK_INVALID_OWNER (identify l))) by congruence. run_simpl.
  change (negb (is_success UB_LOCK_SUCCESS)) with false. cbv iota.
  rewrite iter_round, run_bind by done. unfold acquire_round at 1.
  rewrite run_bind. cbn [ask run]. rewrite (proj2 (Z.leb_le _ _) Ht). cbn [negb].
  rewrite run_bind, run_try_lock_fast by done. done.
Qed.

Lemma users_restored a : 0 <= a < 2 ^ 32 -> u32 (u32 (a + 1) - 1) = a.
Proof.
  intros Ha. unfold u32, wrap. rewrite Zminus_mod_idemp_l. replace (a + 1 - 1) with a by lia.
  by apply Z.mod_small.
Qed.

(** Nobody holds or waits for the mutex in the caller's process or globally. *)
Record quiet (m : ub_mutex_lock) (o : MutexLocalLock) : Prop := {
  quiet_ready : is_inited m = MUTEX_READY;
  quiet_owner : lock_owner m = LOCK_INVALID_OWNER;
  quiet_waiters : q_count (mutex_q m) = 0;
  quiet_local_owner : owner o = LOCK_INVALID_OWNER;
  quiet_local_waiters : q_count (local_q o) = 0;
  quiet_users : 0 <= active_users o < 2 ^ 32 }.

Lemma run_is_ready env m o :
  run is_ready env (put m o) = (Some (is_inited m =? MUTEX_READY), env, put m o).
Proof. unfold is_ready. by run_simpl. Qed.

Lemma run_lock timeout now t1 t2 env m o :
  (1 <= fuel)%nat -> valid_location l -> quiet m o ->
  t1 <= now + (if timeout =? 0 then DEFAULT_MUTEX_TIMEOUT_MS else timeout) * 1000 ->
  t2 <= now + (if timeout =? 0 then DEFAULT_MUTEX_TIMEOUT_MS else timeout) * 1000 ->
  run (lock fuel timeout l) (now :: t1 :: 0 :: t2 :: 0 :: env) (put m o) =
    (Some UB_LOCK_SUCCESS, env, put (own m) (own_local o)).
Proof.
  intros Hf Hv [Hr Ho Hw Hlo Hlw Hu] Ht1 Ht2. assert (Hn := reg_node Hreg).
  assert (Hne : identify l <> LOCK_INVALID_OWNER) by (by apply identify_not_invalid).
  assert (Hne' : (LOCK_INVALID_OWNER =? identify l) = false) by (apply Z.eqb_neq; congruence).
  unfold lock. rewrite Hn, run_bind, run_is_ready, Hr, Z.eqb_refl. cbn [negb]. run_simpl.
  rewrite Ho, Hne', run_bind, run_acquire by done. rewrite run_bind. cbn [ask run]. run_simpl.
  cbn [owner lset l_active_users]. rewrite Hlo, Hne', run_bind, run_lock_local by done.
  change (negb (is_success UB_LOCK_SUCCESS)) with false. cbv iota.
  rewrite run_bind, run_acquire_global by done. change (is_success UB_LOCK_SUCCESS) with true. cbv iota.
  rewrite run_bind, run_release. cbn [run]. do 2 f_equal. destruct o as [oo a q].
  cbn in *. unfold own_local. cbn. by rewrite users_restored.
Qed.

Lemma run_unlock env m o :
  (1 <= fuel)%nat -> quiet m o ->
  run (unlock fuel l) env (put (own m) (own_local o)) = (Some UB_LOCK_SUCCESS, env, put m o).
Proof.
  intros Hf [Hr Ho Hw Hlo Hlw Hu]. assert (Hn := reg_node Hreg).
  unfold unlock. rewrite Hn, run_bind, run_is_ready. cbn [is_inited own lset l_lock_owner].
  rewrite Hr, Z.eqb_refl. cbn [negb]. run_simpl. cbn [lock_owner own lset l_lock_owner].
  rewrite Z.eqb_refl. cbn [negb]. rewrite run_bind, run_acquire by done. run_simpl.
  cbn [owner own_local lset l_owner l_active_users]. rewrite Z.eqb_refl. cbn [negb].
  rewrite run_bind, run_shm. cbn [cas_strong act run own lset lget l_lock_owner lock_owner].
  rewrite Z.eqb_refl. cbn [negb]. run_simpl. cbn [mutex_q]. rewrite Hw, Z.ltb_irrefl. cbn [run].
  unfold unlock_mutex_local. run_simpl. cbn [owner]. rewrite Z.eqb_refl. cbn [negb store]. run_simpl.
  cbn [lset l_owner local_q q_count]. rewrite Hlw, Z.ltb_irrefl. cbn [run].
  run_simpl. rewrite run_release. cbn. rewrite users_restored by done. destruct m, o. cbn in *. by subst.
Qed.
End Contract.

(** ** Calls that are refused, whatever the state *)

Section Refusals.
Context (fuel : nat) (timeout : Z) (w : mutex_world) (l : ub_location_t) (env : list Z).

Lemma refused_node :
  is_invalid_node (node_id l) = true ->
  run (lock fuel timeout l) env w = (Some UB_LOCK_ERROR, env, w) /\ run (unlock fuel l) env w = (Some UB_LOCK_ERROR, env, w).
Proof. intros Hn. unfold lock, unlock. by rewrite Hn. Qed.

(** The word is read before anything of the process is. *)
Lemma refused_not_ready :
  is_inited (shm w) <> MUTEX_READY ->
  run (lock fuel timeout l) env w = (Some UB_LOCK_ERROR, env, w) /\ run (unlock fuel l) env w = (Some UB_LOCK_ERROR, env, w).
Proof.
  intros Hr. destruct (is_invalid_node (node_id l)) eqn:Hn; [by apply refused_node|]. apply Z.eqb_neq in Hr.
  unfold lock, unlock. rewrite Hn. cbn. rewrite Hr. by destruct w.
Qed.

Lemma refused_recursive :
  lock_owner (shm w) = identify l -> run (lock fuel timeout l) env w = (Some UB_LOCK_ERROR, env, w).
Proof.
  intros Ho. destruct (is_invalid_node (node_id l)) eqn:Hn; [by apply refused_node|].
  destruct (decide (is_inited (shm w) = MUTEX_READY)) as [Hr|Hr]; [|by apply refused_not_ready].
  unfold lock. rewrite Hn. cbn. rewrite Hr. cbn. rewrite Ho, Z.eqb_refl. by destruct w.
Qed.

Lemma refused_foreign :
  lock_owner (shm w) <> identify l -> run (unlock fuel l) env w = (Some UB_LOCK_ERROR, env, w).
Proof.
  intros Ho. destruct (is_invalid_node (node_id l)) eqn:Hn; [by apply refused_node|].
  destruct (decide (is_inited (shm w) = MUTEX_READY)) as [Hr|Hr]; [|by apply refused_not_ready].
  unfold unlock. rewrite Hn. cbn. rewrite Hr. cbn. rewrite (proj2 (Z.eqb_neq _ _) Ho). by destruct w.
Qed.
End Refusals.

(** * Properties *)

(** C29: the sequential contract of the mutex.  In a process that has created it, on a mutex
    that nobody holds or waits for, [lock] by a valid caller succeeds at once
    for every timeout that has not passed on the clock, and changes exactly the global and the
    local owner word; [unlock] by the holder succeeds and restores the exact state
    from before the lock (the count of active users included); a second lock by the holder, an
    unlock of the held mutex by any other caller (another thread or another node), and an unlock of the free mutex by
    anyone are refused with [UB_LOCK_ERROR] and change nothing. *)
Theorem mutex_contract fuel timeout w l id now t1 t2 env :
  (1 <= fuel)%nat -> valid_location l -> registered w l id -> quiet (shm w) (local w l id) ->
  let deadline := now + (if timeout =? 0 then DEFAULT_MUTEX_TIMEOUT_MS else timeout) * 1000 in
  let held := put w l id (own l (shm w)) (own_local l (local w l id)) in
  t1 <= deadline -> t2 <= deadline ->
  run (ub_mutex_lock_lock fuel false timeout (Some l)) (now :: t1 :: 0 :: t2 :: 0 :: env) w =
    (Some UB_LOCK_SUCCESS, env, held) /\
  run (ub_mutex_unlock fuel false (Some l)) env held = (Some UB_LOCK_SUCCESS, env, w) /\
  run (ub_mutex_lock_lock fuel false timeout (Some l)) env held = (Some UB_LOCK_ERROR, env, held) /\
  (forall l', valid_location l' -> l' <> l ->
     run (ub_mutex_unlock fuel false (Some l')) env held = (Some UB_LOCK_ERROR, env, held)) /\
  (forall l', valid_location l' ->
     run (ub_mutex_unlock fuel false (Some l')) env w = (Some UB_LOCK_ERROR, env, w)).
Proof.
  intros Hf Hv Hreg Hq deadline held Ht1 Ht2.
  assert (Hw := put_id w l id Hreg). cbn [ub_mutex_lock_lock ub_mutex_unlock]. split_and!.
  - assert (H := run_lock fuel w l id Hreg timeout now t1 t2 env _ _ Hf Hv Hq Ht1 Ht2). by rewrite Hw in H.
  - assert (H := run_unlock fuel w l id Hreg env _ _ Hf Hq). by rewrite Hw in H.
  - by apply refused_recursive.
  - intros l' Hv' Hne. apply (refused_foreign fuel timeout). change (identify l <> identify l'). intros E. by apply Hne, identify_inj.
  - intros l' Hv'. destruct (is_invalid_node (node_id l')) eqn:Hn'; [by apply (refused_node fuel timeout)|]. apply (refused_foreign fuel timeout).
    rewrite (quiet_owner _ _ Hq). intros E. by eapply identify_not_invalid.
Qed.

(** A mutex created by the process of node 2 only. *)
Definition mutex_single : mutex_world := Eval vm_compute in
  final (lock_create 1 2)
    (mkMutexWorld (mkMutex 0 (WaitQueue 0 0 0 (replicate (Z.to_nat UB_MAX_NODES) empty_slot)) 0)
       (replicate (Z.to_nat UB_MAX_NODES) no_registry)
       (Network (replicate (Z.to_nat UB_MAX_NODES) no_runtime) (replicate (Z.to_nat UB_MAX_NODES) [])) []).

Lemma mutex_contract_witness :
  exists held, run (ub_mutex_lock_lock 1 false 5 (Some (Location 9 2))) [100; 100; 0; 5100; 0] mutex_single =
      (Some UB_LOCK_SUCCESS, [], held) /\
    lock_owner (shm held) = identify (Location 9 2) /\
    run (ub_mutex_unlock 1 false (Some (Location 8 2))) [] held = (Some UB_LOCK_ERROR, [], held).
Proof.
  destruct (mutex_contract 1 5 mutex_single (Location 9 2) 0 100 100 5100 []) as (H & _ & _ & Hf & _).
  - lia.
  - split; cbn; lia.
  - split; [reflexivity|]. eexists. split; [reflexivity|]. vm_compute. repeat split. lia.
  - split; vm_compute; intuition congruence.
  - vm_compute. discriminate.
  - vm_compute. discriminate.
  - eexists. split; [exact H|]. split; [reflexivity|]. apply Hf; [split; cbn; lia|discriminate].
Defined.

(** C36: calls the mutex refuses, each for its own reason and in every state of the lock, the process and the network: with
    a null lock or location; by a node that does not take part; on a mutex whose shared memory is not set up; a lock by
    the caller the global word names as the holder; an unlock by a caller it does not name.  Lock and unlock then return
    [UB_LOCK_ERROR] without waiting for anything and change nothing, neither the shared words nor the process (not
    even its count of active users, and also while another thread holds the lock of the registry). *)
Theorem mutex_refuses fuel timeout w env :
  (forall null l, null = true \/ l = None ->
     run (ub_mutex_lock_lock fuel null timeout l) env w = (Some UB_LOCK_ERROR, env, w) /\
     run (ub_mutex_unlock fuel null l) env w = (Some UB_LOCK_ERROR, env, w)) /\
  (forall l, is_invalid_node (node_id l) = true ->
     run (ub_mutex_lock_lock fuel false timeout (Some l)) env w = (Some UB_LOCK_ERROR, env, w) /\
     run (ub_mutex_unlock fuel false (Some l)) env w = (Some UB_LOCK_ERROR, env, w)) /\
  (is_inited (shm w) <> MUTEX_READY -> forall l,
     run (ub_mutex_lock_lock fuel false timeout (Some l)) env w = (Some UB_LOCK_ERROR, env, w) /\
     run (ub_mutex_unlock fuel false (Some l)) env w = (Some UB_LOCK_ERROR, env, w)) /\
  (forall l, lock_owner (shm w) = identify l ->
     run (ub_mutex_lock_lock fuel false timeout (Some l)) env w = (Some UB_LOCK_ERROR, env, w)) /\
  (forall l, lock_owner (shm w) <> identify l ->
     run (ub_mutex_unlock fuel false (Some l)) env w = (Some UB_LOCK_ERROR, env, w)).
Proof.
  split_and!.
  - intros null l H. destruct l as [l|]; [|done]. by destruct H as [-> |].
  - intros l. apply refused_node.
  - intros Hr l. by apply refused_not_ready.
  - intros l. apply refused_recursive.
  - intros l. apply (refused_foreign fuel timeout).
Qed.

(** The mutex of [mutex_single] is ready and free; the first two cases and the last do not need it to be anything else. *)
Lemma mutex_refuses_witness :
  is_inited (shm mutex_single) = MUTEX_READY /\
  run (ub_mutex_lock_lock 1 true 0 (Some (Location 9 2))) [] mutex_single = (Some UB_LOCK_ERROR, [], mutex_single) /\
  run (ub_mutex_lock_lock 1 false 0 (Some (Location 9 16))) [] mutex_single = (Some UB_LOCK_ERROR, [], mutex_single) /\
  run (ub_mutex_unlock 1 false (Some (Location 9 2))) [] mutex_single = (Some UB_LOCK_ERROR, [], mutex_single) /\
  let w := mkMutexWorld (mkMutex 0 (mutex_q (shm mutex_single)) MUTEX_INITING) (regs mutex_single) (net mutex_single) [] in
  run (ub_mutex_lock_lock 1 false 0 (Some (Location 9 2))) [] w = (Some UB_LOCK_ERROR, [], w).
Proof.
  split; [reflexivity|]. destruct (mutex_refuses 1 0 mutex_single []) as (H1 & H2 & _ & _ & H5). split_and!.
  - apply H1. by left.
  - apply H2. reflexivity.
  - apply H5. vm_compute. discriminate.
  - intros w. destruct (mutex_refuses 1 0 w []) as (_ & _ & H3 & _). apply H3. discriminate.
Defined.

(** ** Two executions that go wrong *)

Definition wedge_holder : prog mutex_world ub_lock_result_t :=
  do _ <- ub_mutex_lock_lock 9 false 5 (Some (Location 1 2)); ub_mutex_unlock 9 false (Some (Location 1 2)).
Definition wedge_waiter : prog mutex_world ub_lock_result_t := ub_mutex_lock_lock 9 false 5 (Some (Location 2 2)).

(** Thread 1 takes the mutex, thread 2 waits in the local queue, thread 1 unlocks and wakes it;
    when thread 2 then reads the clock its deadline has passed. *)
Definition wedge_schedule : list (nat * Z) :=
  replicate 15 (0%nat, 0) ++ replicate 115 (1%nat, 0) ++ replicate 40 (0%nat, 0) ++ replicate 40 (1%nat, 100000).

Definition local_queue (w : mutex_world) : wait_queue Z := local_q (lget (l_local 2 0) w).

(** A wake-up that meets the deadline blocks the process for good.  There is an
    execution of one lock/unlock and one lock with a timeout, on a free mutex, after which
    both calls have returned (the second with TIMEOUT), both owner words are free and
    nobody is registered as waiting, but the local queue still starts with the
    slot of the timed-out waiter, marked NOTIFIED and counted.  A later lock by a third thread
    of this process, with nobody else active, finds a waiter before it, queues behind it
    and times out, and leaves the dead slot at the head: no thread of the process can
    take the mutex again.  ([lock_mutex_local] returns from its loop without
    [clean_mutex_local_timeout_waiter] when the deadline passes after the hand-off;
    [acquire_global] does clean up there.) *)
Theorem mutex_local_timeout_wedges :
  exists w ps, reachable any_answer (mutex_single, [wedge_holder; wedge_waiter]) (w, ps) /\
    ps = [Ret UB_LOCK_SUCCESS; Ret UB_LOCK_TIMEOUT] /\
    lock_owner (shm w) = LOCK_INVALID_OWNER /\ owner (lget (l_local 2 0) w) = LOCK_INVALID_OWNER /\
    waiter_map (proc (net w) 2) = ∅ /\
    (q_head (local_queue w) = 0 /\ q_count (local_queue w) = 1 /\
     seq (slot_of (local_queue w) 0) = UB_WAIT_NOTIFIED) /\
    let '(r, _, w') := run (ub_mutex_lock_lock 9 false 5 (Some (Location 3 2))) [0; 0; 0; 6000] w in
    r = Some UB_LOCK_TIMEOUT /\ q_head (local_queue w') = 0 /\ q_count (local_queue w') = 1 /\
    seq (slot_of (local_queue w') 0) = UB_WAIT_NOTIFIED.
Proof.
  exists (sched (mutex_single, [wedge_holder; wedge_waiter]) wedge_schedule).1, [Ret UB_LOCK_SUCCESS; Ret UB_LOCK_TIMEOUT].
  split; [apply sched_done; vm_compute; reflexivity|]. vm_compute. repeat split.
Qed.

Definition race_locker : prog mutex_world ub_lock_result_t := ub_mutex_lock_lock 9 false 5 (Some (Location 1 2)).
Definition race_free : prog mutex_world ub_lock_result_t := ub_mutex_lock_free 9 false 2 ;;; Ret UB_LOCK_SUCCESS.
Definition race_schedule : list (nat * Z) :=
  replicate 3 (0%nat, 0) ++ replicate 4 (1%nat, 0) ++ replicate 12 (0%nat, 0) ++ replicate 3 (1%nat, 0).

(** A free that races with a lock can strand the mutex.
    [unregister_mutex_local_lock_if_idle] reads the owner before the number of active users, so a
    thread that was already in [lock] can take the local lock after the first
    read and leave the count before the last one.  The local lock is then dropped
    although it is held; the holder's unlock fails with [UB_LOCK_ERROR] and the global word keeps
    its owner. *)
Theorem mutex_free_race_strands :
  exists w ps, reachable any_answer (mutex_single, [race_locker; race_free]) (w, ps) /\
    ps = [Ret UB_LOCK_SUCCESS; Ret UB_LOCK_SUCCESS] /\
    lock_owner (shm w) = identify (Location 1 2) /\ reg_entry (reg w 2) = None /\
    let '(r, _, w') := run (ub_mutex_unlock 9 false (Some (Location 1 2))) [] w in
    r = Some UB_LOCK_ERROR /\ lock_owner (shm w') = identify (Location 1 2).
Proof.
  exists (sched (mutex_single, [race_locker; race_free]) race_schedule).1, [Ret UB_LOCK_SUCCESS; Ret UB_LOCK_SUCCESS].
  split; [apply sched_done; vm_compute; reflexivity|]. vm_compute. repeat split.
Qed.
