(* ===== verification/LocalLock.v ===== *)
(** The process-local read-write lock (src/ub_lock/local_lock.h, lock_optimization.cpp).

    Threads of one process first take the local lock; it has the modes S (shared), SX
    (shared-exclusive: one, with readers) and X (exclusive).  Its state is one 64-bit
    word of four 16-bit lanes: a reader counts in the lane of its thread id with a
    compare-exchange of that lane, SX is the high bit of lane 0, and X replaces an
    idle word by [LOCAL_LOCK_X_STATE], which puts a sentinel into every lane.  Threads that do not
    get the lock spin, then queue (RingQueue.v) and wait to be notified.

    The state [local_world] is the lock, the process's view of the network (its waiter
    registry) and the counter [waiting_count] of the global lock, which [lock_s] reads;
    [in_cs] is the list of clients in their critical sections, which only the theorems use. *)

From S2P Require Import Prelude Atomic CommTypes LockTypes LockRuntime RingQueue.

(** * The state word *)

Definition LOCAL_LOCK_READER_LANES : Z := 4.
Definition LOCAL_LOCK_READER_LANE_BITS : Z := 16.
Definition LOCAL_LOCK_READER_COUNT_MASK : Z := 0x3FFF.
Definition LOCAL_LOCK_READER_SENTINEL : Z := 0x4000.
Definition LOCAL_LOCK_SX_LANE : Z := 0.
Definition LOCAL_LOCK_SX_FLAG : Z := 0x8000.
Definition LOCAL_LOCK_X_FLAG : Z := Z.shiftl 0x8000 LOCAL_LOCK_READER_LANE_BITS.

Definition make_local_lock_lane_mask (lane_mask : Z) : Z :=
  foldl (fun mask i => Z.lor mask (Z.shiftl lane_mask (i * LOCAL_LOCK_READER_LANE_BITS))) 0
    (seqZ 0 LOCAL_LOCK_READER_LANES).
Definition LOCAL_LOCK_READER_SENTINEL_MASK : Z := make_local_lock_lane_mask LOCAL_LOCK_READER_SENTINEL.
Definition LOCAL_LOCK_X_STATE : Z := Z.lor LOCAL_LOCK_X_FLAG LOCAL_LOCK_READER_SENTINEL_MASK.

Definition local_lock_lane_for_tid (tid : Z) : Z := Z.land (u32 tid) (LOCAL_LOCK_READER_LANES - 1).
Definition local_lock_lane_value (state lane : Z) : Z :=
  u16 (Z.land (Z.shiftr state (lane * LOCAL_LOCK_READER_LANE_BITS)) 0xFFFF).
Definition local_lock_reader_count (state : Z) : Z :=
  foldl (fun count lane => u32 (count + Z.land (local_lock_lane_value state lane) LOCAL_LOCK_READER_COUNT_MASK)) 0
    (seqZ 0 LOCAL_LOCK_READER_LANES).

(** Storing the 16 bits of one lane. *)
Definition set_lane (lane v state : Z) : Z :=
  state + (v - local_lock_lane_value state lane) * 2 ^ (lane * LOCAL_LOCK_READER_LANE_BITS).

Definition local_lock_state_is_idle (state : Z) : bool := state =? 0.

(** * The lock *)

Definition GLOBAL_IDLE : Z := 0.
Definition GLOBAL_PENDING : Z := 1.
Definition GLOBAL_HELD : Z := 2.

Record LocalLock := mkLocalLock {
  lock_word : Z;
  queue : wait_queue Z;            (** q, q_head, q_tail and waiting_count *)
  read_count : Z;
  lock_x_owner : Z; lock_sx_owner : Z;
  x_recursive : Z; sx_recursive : Z;
  local_is_reserve_lock : ub_lock_mode_t;
  remote_release_in_progress : bool;
  hold_global : bool;
  global_state : Z;
  global_read_ref_count : Z }.

Record local_world := mkLocalWorld {
  ll : LocalLock; lnet : network; ub_waiting_count : Z; in_cs : list (nat * ub_lock_mode_t) }.

Definition l_word : lens LocalLock Z := Lens lock_word (fun v o =>
  mkLocalLock v (queue o) (read_count o) (lock_x_owner o) (lock_sx_owner o) (x_recursive o) (sx_recursive o)
    (local_is_reserve_lock o) (remote_release_in_progress o) (hold_global o) (global_state o) (global_read_ref_count o)).
Definition l_queue : lens LocalLock (wait_queue Z) := Lens queue (fun v o =>
  mkLocalLock (lock_word o) v (read_count o) (lock_x_owner o) (lock_sx_owner o) (x_recursive o) (sx_recursive o)
    (local_is_reserve_lock o) (remote_release_in_progress o) (hold_global o) (global_state o) (global_read_ref_count o)).
Definition l_read_count : lens LocalLock Z := Lens read_count (fun v o =>
  mkLocalLock (lock_word o) (queue o) v (lock_x_owner o) (lock_sx_owner o) (x_recursive o) (sx_recursive o)
    (local_is_reserve_lock o) (remote_release_in_progress o) (hold_global o) (global_state o) (global_read_ref_count o)).
Definition l_x_owner : lens LocalLock Z := Lens lock_x_owner (fun v o =>
  mkLocalLock (lock_word o) (queue o) (read_count o) v (lock_sx_owner o) (x_recursive o) (sx_recursive o)
    (local_is_reserve_lock o) (remote_release_in_progress o) (hold_global o) (global_state o) (global_read_ref_count o)).
Definition l_sx_owner : lens LocalLock Z := Lens lock_sx_owner (fun v o =>
  mkLocalLock (lock_word o) (queue o) (read_count o) (lock_x_owner o) v (x_recursive o) (sx_recursive o)
    (local_is_reserve_lock o) (remote_release_in_progress o) (hold_global o) (global_state o) (global_read_ref_count o)).
Definition l_x_recursive : lens LocalLock Z := Lens x_recursive (fun v o =>
  mkLocalLock (lock_word o) (queue o) (read_count o) (lock_x_owner o) (lock_sx_owner o) v (sx_recursive o)
    (local_is_reserve_lock o) (remote_release_in_progress o) (hold_global o) (global_state o) (global_read_ref_count o)).
Definition l_sx_recursive : lens LocalLock Z := Lens sx_recursive (fun v o =>
  mkLocalLock (lock_word o) (queue o) (read_count o) (lock_x_owner o) (lock_sx_owner o) (x_recursive o) v
    (local_is_reserve_lock o) (remote_release_in_progress o) (hold_global o) (global_state o) (global_read_ref_count o)).
Definition l_reserve : lens LocalLock ub_lock_mode_t := Lens local_is_reserve_lock (fun v o =>
  mkLocalLock (lock_word o) (queue o) (read_count o) (lock_x_owner o) (lock_sx_owner o) (x_recursive o)
    (sx_recursive o) v (remote_release_in_progress o) (hold_global o) (global_state o) (global_read_ref_count o)).
Definition l_remote_release : lens LocalLock bool := Lens remote_release_in_progress (fun v o =>
  mkLocalLock (lock_word o) (queue o) (read_count o) (lock_x_owner o) (lock_sx_owner o) (x_recursive o)
    (sx_recursive o) (local_is_reserve_lock o) v (hold_global o) (global_state o) (global_read_ref_count o)).
Definition l_hold_global : lens LocalLock bool := Lens hold_global (fun v o =>
  mkLocalLock (lock_word o) (queue o) (read_count o) (lock_x_owner o) (lock_sx_owner o) (x_recursive o)
    (sx_recursive o) (local_is_reserve_lock o) (remote_release_in_progress o) v (global_state o) (global_read_ref_count o)).
Definition l_global_state : lens LocalLock Z := Lens global_state (fun v o =>
  mkLocalLock (lock_word o) (queue o) (read_count o) (lock_x_owner o) (lock_sx_owner o) (x_recursive o)
    (sx_recursive o) (local_is_reserve_lock o) (remote_release_in_progress o) (hold_global o) v (global_read_ref_count o)).
Definition l_global_ref : lens LocalLock Z := Lens global_read_ref_count (fun v o =>
  mkLocalLock (lock_word o) (queue o) (read_count o) (lock_x_owner o) (lock_sx_owner o) (x_recursive o)
    (sx_recursive o) (local_is_reserve_lock o) (remote_release_in_progress o) (hold_global o) (global_state o) v).

Definition l_ll : lens local_world LocalLock :=
  Lens ll (fun v w => mkLocalWorld v (lnet w) (ub_waiting_count w) (in_cs w)).
Definition l_lnet : lens local_world network :=
  Lens lnet (fun v w => mkLocalWorld (ll w) v (ub_waiting_count w) (in_cs w)).
(** The lane of the word as a field of its own. *)
Definition l_lane (lane : Z) : lens LocalLock Z :=
  Lens (fun o => local_lock_lane_value (lock_word o) lane) (fun v o => lset l_word (set_lane lane v (lock_word o)) o).

Abbreviation on_ll := (lift l_ll).
Abbreviation on_queue := (lift (lens_comp l_ll l_queue)).
Abbreviation on_lnet := (lift l_lnet).

(** ** Single attempts on the word *)

Definition local_lock_try_acquire_s (tid : Z) : prog LocalLock bool :=
  let lane := local_lock_lane_for_tid tid in
  do state <- load lock_word;
  if negb (Z.land state LOCAL_LOCK_X_FLAG =? 0) then Ret false else
  let lane_value := local_lock_lane_value state lane in
  if negb (Z.land lane_value LOCAL_LOCK_READER_SENTINEL =? 0) then Ret false else
  let count := u16 (Z.land lane_value LOCAL_LOCK_READER_COUNT_MASK) in
  if count =? LOCAL_LOCK_READER_COUNT_MASK then Ret false else
  let desired := u16 (Z.lor (Z.land lane_value (Z.lnot LOCAL_LOCK_READER_COUNT_MASK)) (count + 1)) in
  do '(ok, _) <- cas_weak (l_lane lane) lane_value desired;
  Ret (ok : bool).

(** The state read after the release, [None] when there was nothing to release. *)
Definition release_s_round (lane lane_value : Z) : prog LocalLock (Z + option Z) :=
  if Z.land lane_value LOCAL_LOCK_READER_SENTINEL =? 0 then
    let count := u16 (Z.land lane_value LOCAL_LOCK_READER_COUNT_MASK) in
    if count =? 0 then Ret (inr None) else
    let desired := u16 (Z.lor (Z.land lane_value (Z.lnot LOCAL_LOCK_READER_COUNT_MASK)) (count - 1)) in
    do '(ok, lane_value') <- cas_strong (l_lane lane) lane_value desired;
    if ok : bool then do state <- load lock_word; Ret (inr (Some state))
    else Ret (inl lane_value')
  else Ret (inr None).
Definition local_lock_try_release_s (fuel : nat) (tid : Z) : prog LocalLock (option Z) :=
  let lane := local_lock_lane_for_tid tid in
  do state <- load lock_word;
  iter fuel (release_s_round lane) (local_lock_lane_value state lane).

Definition local_lock_try_acquire_x : prog LocalLock bool :=
  do state <- load lock_word;
  if negb (local_lock_state_is_idle state) then Ret false else
  do '(ok, _) <- cas_weak l_word state LOCAL_LOCK_X_STATE;
  Ret (ok : bool).

Definition local_lock_try_acquire_sx : prog LocalLock bool :=
  do state <- load lock_word;
  if negb (Z.land state (Z.lor (Z.lor LOCAL_LOCK_SX_FLAG LOCAL_LOCK_X_FLAG) LOCAL_LOCK_READER_SENTINEL_MASK) =? 0)
  then Ret false else
  let lane_value := local_lock_lane_value state LOCAL_LOCK_SX_LANE in
  if negb (Z.land lane_value (Z.lor LOCAL_LOCK_SX_FLAG LOCAL_LOCK_READER_SENTINEL) =? 0) then Ret false else
  let desired := u16 (Z.lor lane_value LOCAL_LOCK_SX_FLAG) in
  do '(ok, _) <- cas_weak (l_lane LOCAL_LOCK_SX_LANE) lane_value desired;
  Ret (ok : bool).

Definition local_lock_try_release_sx : prog LocalLock (option Z) :=
  do old_lane <- rmw (l_lane LOCAL_LOCK_SX_LANE) (fun v => Z.land v (u16 (Z.lnot LOCAL_LOCK_SX_FLAG)));
  if Z.land old_lane LOCAL_LOCK_SX_FLAG =? 0 then Ret None else
  do state <- load lock_word; Ret (Some state).

Section Model.
(** The node of the process, and a bound on the rounds of each retry loop. *)
Context (node : Z) (fuel : nat).

(** ** The queue *)

Definition create_wait_queue : prog LocalLock unit := lift l_queue (ring_queue_init UB_MAX_CAPACITY).
Definition enqueue_waiter (m : ub_lock_mode_t) (tid : Z) : prog local_world (ub_lock_result_t * Z) :=
  on_queue (ring_queue_enqueue UB_MAX_CAPACITY fuel m tid).
Definition outqueue_waiter : prog local_world (option Z) := on_queue (ring_queue_outqueue UB_MAX_CAPACITY).
Definition clean_timeout_waiter (ticket : Z) : prog local_world unit :=
  on_queue (ring_queue_clean_timeout UB_MAX_CAPACITY fuel ticket).
Definition clean_outqueue_waiter (ticket : Z) : prog local_world unit :=
  on_queue (ring_queue_pop_head UB_MAX_CAPACITY fuel ticket).
Definition peek_head_waiting_mode_clean : prog local_world (option ub_lock_mode_t) :=
  on_queue (ring_queue_peek_head_mode_clean UB_MAX_CAPACITY fuel).
Definition waiting_count : prog local_world Z := on_queue (load q_count).

(** ** Construction and flags *)

Definition init_ : prog LocalLock unit :=
  store (lset l_word 0) ;;;
  store (lset l_read_count 0) ;;;
  lift l_queue (store (lset l_count 0)) ;;;
  store (lset l_x_owner 0) ;;;
  store (lset l_sx_owner 0) ;;;
  store (lset l_x_recursive 0) ;;;
  store (lset l_sx_recursive 0) ;;;
  store (lset l_reserve UB_LOCK_I) ;;;
  store (lset l_remote_release false) ;;;
  store (lset l_hold_global false) ;;;
  store (lset l_global_state GLOBAL_IDLE) ;;;
  store (lset l_global_ref 0) ;;;
  create_wait_queue.

Definition try_begin_remote_release : prog LocalLock bool :=
  act (fun o => if remote_release_in_progress o then (false, o) else (true, lset l_remote_release true o)).
Definition end_remote_release : prog LocalLock unit := store (lset l_remote_release false).
Definition is_held : prog LocalLock bool :=
  do state <- load lock_word; Ret (negb (local_lock_state_is_idle state)).

Definition inc_ref_round (ref : Z) : prog LocalLock (Z + bool) :=
  if 0 <? ref then
    if INT32_MAX <=? ref then Ret (inr false) else
    do st <- load global_state;
    if negb (st =? GLOBAL_HELD) then Ret (inr false) else
    do '(ok, ref') <- cas_weak l_global_ref ref (ref + 1);
    Ret (if ok : bool then inr true else inl ref')
  else Ret (inr false).
Definition try_inc_global_ref : prog LocalLock bool :=
  do st <- load global_state;
  if negb (st =? GLOBAL_HELD) then Ret false else
  do ref <- load global_read_ref_count;
  iter fuel inc_ref_round ref.

(** ** Waking *)

Definition notify_one (idx : Z) : prog local_world bool :=
  do tid <- on_queue (load (fun q => who (slot_of q idx)));
  on_lnet (notify_local_waiter node tid).

Fixpoint dequeue_scan (sanity : nat) : prog local_world unit :=
  match sanity with
  | O => Ret tt
  | S n =>
      do w <- outqueue_waiter;
      match w with
      | Some idx => do _ <- notify_one idx; Ret tt
      | None => dequeue_scan n
      end
  end.
Definition dequeue_and_notify_one : prog local_world unit := dequeue_scan (Z.to_nat (UB_MAX_CAPACITY * 2)).

(** After a reader: further readers, and one SX. *)
Definition wake_readers_round (meet_sx : bool) : prog local_world (bool + unit) :=
  do m <- peek_head_waiting_mode_clean;
  match m with
  | Some UB_LOCK_S => dequeue_and_notify_one ;;; Ret (inl meet_sx)
  | Some UB_LOCK_SX => if meet_sx then Ret (inr tt) else dequeue_and_notify_one ;;; Ret (inl true)
  | _ => Ret (inr tt)
  end.
(** After an SX: further readers only. *)
Definition wake_shared_round (_ : unit) : prog local_world (unit + unit) :=
  do m <- peek_head_waiting_mode_clean;
  match m with
  | Some UB_LOCK_S => dequeue_and_notify_one ;;; Ret (inl tt)
  | _ => Ret (inr tt)
  end.
Definition wake_after_unlock_exclusive : prog local_world unit :=
  do head_mode <- peek_head_waiting_mode_clean;
  match head_mode with
  | Some UB_LOCK_X => dequeue_and_notify_one
  | Some UB_LOCK_S => dequeue_and_notify_one ;;; iter fuel wake_readers_round false
  | Some UB_LOCK_SX => dequeue_and_notify_one ;;; iter fuel wake_shared_round tt
  | _ => Ret tt
  end.

(** ** Locking *)

(** How the spinning phase ends: with a result, or by queueing. *)
Definition spin_end : Type := option ub_lock_result_t.

(** The queueing phase; the result is the ticket, or the result of the lock. *)
Definition queue_phase (enq : prog local_world (ub_lock_result_t * Z)) (tid deadline : Z)
    : prog local_world (Z + ub_lock_result_t) :=
  with_waiter_guard l_lnet node tid (
    do '(ret, slot) <- enq;
    if negb (is_success ret) then Ret (inr ret) else
    do current <- on_ll (load lock_word);
    do self_handoff <-
      (if local_lock_state_is_idle current
       then on_queue (ring_queue_try_self_handoff_if_head UB_MAX_CAPACITY slot)
       else Ret false);
    if self_handoff : bool then Ret (inl slot) else
    do awake <- on_lnet (ctx_wait fuel node tid deadline);
    if awake : bool then Ret (inl slot) else
    clean_timeout_waiter slot ;;;
    Ret (inr UB_LOCK_TIMEOUT)).

(** What an awakened thread does when an attempt failed: it stays in the loop at the same
    [i] until the deadline. *)
Definition awakened_retry (deadline slot i : Z) : prog local_world (Z + spin_end) :=
  do now <- ask QSteady;
  if deadline <? now then clean_timeout_waiter slot ;;; Ret (inr (Some UB_LOCK_TIMEOUT))
  else Ret (inl i).

Definition spin_s_round (tid deadline : Z) (is_awakened : bool) (slot i : Z) : prog local_world (Z + spin_end) :=
  if negb (i <? Z.of_nat SPIN_WAIT_ROUNDS) then Ret (inr None) else
  do c <- waiting_count;
  if (0 <? c) && negb is_awakened then Ret (inr None) else
  do rc <- on_ll (load read_count);
  do go <-
    (if (LOCK_S_THRESHOLD <? rc) && negb is_awakened then
       do g <- load ub_waiting_count;
       if 0 <? g then Ret false else on_ll (store (lset l_read_count 0)) ;;; Ret true
     else Ret true);
  if negb go then Ret (inr None) else
  do ok <- on_ll (local_lock_try_acquire_s tid);
  if ok : bool then
    on_ll (rmw l_read_count (fun c => u32 (c + 1))) ;;;
    (if is_awakened then clean_outqueue_waiter slot else Ret tt) ;;;
    Ret (inr (Some UB_LOCK_SUCCESS))
  else if is_awakened then awakened_retry deadline slot i
  else Ret (inl (u32 (i + 1))).

(** One round of the outer loop; the loop state is [is_awakened] and [slot]. *)
Definition lock_round (enq : bool -> Z -> prog local_world (ub_lock_result_t * Z))
    (spin : bool -> Z -> Z -> prog local_world (Z + spin_end)) (tid deadline : Z) (st : bool * Z)
    : prog local_world ((bool * Z) + ub_lock_result_t) :=
  let '(is_awakened, slot) := st in
  do e <- iter fuel (spin is_awakened slot) 0;
  match e with
  | Some r => Ret (inr r)
  | None =>
      do r <- queue_phase (enq is_awakened slot) tid deadline;
      Ret (match r with inl slot' => inl (true, slot') | inr ret => inr ret end)
  end.

Definition lock_s (tid deadline : Z) : prog local_world ub_lock_result_t :=
  iter fuel (lock_round (fun _ _ => enqueue_waiter UB_LOCK_S tid) (spin_s_round tid deadline) tid deadline)
    (false, 0).

Definition spin_x_round (tid deadline : Z) (is_awakened : bool) (slot i : Z) : prog local_world (Z + spin_end) :=
  if negb (i <? Z.of_nat SPIN_WAIT_ROUNDS) then Ret (inr None) else
  do c <- waiting_count;
  if (0 <? c) && negb is_awakened then Ret (inr None) else
  do ok <- on_ll local_lock_try_acquire_x;
  if ok : bool then
    on_ll (store (lset l_x_owner tid)) ;;;
    on_ll (store (lset l_x_recursive 1)) ;;;
    (if is_awakened then clean_outqueue_waiter slot else Ret tt) ;;;
    Ret (inr (Some UB_LOCK_SUCCESS))
  else if is_awakened then awakened_retry deadline slot i
  else Ret (inl (u32 (i + 1))).

Definition lock_x (allow_recursive : bool) (tid deadline : Z) : prog local_world ub_lock_result_t :=
  do o <- on_ll (load lock_x_owner);
  if o =? tid then
    if allow_recursive then on_ll (rmw l_x_recursive (fun n => u32 (n + 1))) ;;; Ret UB_LOCK_SUCCESS
    else Ret UB_LOCK_CONFLICT
  else
    iter fuel (lock_round (fun _ _ => enqueue_waiter UB_LOCK_X tid) (spin_x_round tid deadline) tid deadline)
      (false, 0).

Definition finish_local_sx_acquire (is_awakened : bool) (slot tid : Z) : prog local_world ub_lock_result_t :=
  on_ll (store (lset l_sx_owner tid)) ;;;
  on_ll (store (lset l_sx_recursive 1)) ;;;
  (if is_awakened then clean_outqueue_waiter slot else Ret tt) ;;;
  Ret UB_LOCK_SUCCESS.

Definition enqueue_sx_waiter_if_needed (is_awakened : bool) (tid slot : Z) : prog local_world (ub_lock_result_t * Z) :=
  if is_awakened then Ret (UB_LOCK_SUCCESS, slot) else enqueue_waiter UB_LOCK_SX tid.

Definition spin_sx_round (tid deadline : Z) (is_awakened : bool) (slot i : Z) : prog local_world (Z + spin_end) :=
  if negb (i <? Z.of_nat SPIN_WAIT_ROUNDS) then Ret (inr None) else
  do c <- waiting_count;
  if (0 <? c) && negb is_awakened then Ret (inr None) else
  do ok <- on_ll local_lock_try_acquire_sx;
  if ok : bool then
    do r <- finish_local_sx_acquire is_awakened slot tid; Ret (inr (Some r))
  else if is_awakened then awakened_retry deadline slot i
  else Ret (inl (u32 (i + 1))).

Definition lock_sx (allow_recursive : bool) (tid deadline : Z) : prog local_world ub_lock_result_t :=
  do o <- on_ll (load lock_sx_owner);
  if o =? tid then
    if allow_recursive then on_ll (rmw l_sx_recursive (fun n => u32 (n + 1))) ;;; Ret UB_LOCK_SUCCESS
    else Ret UB_LOCK_CONFLICT
  else
    iter fuel (lock_round (fun aw slot => enqueue_sx_waiter_if_needed aw tid slot)
      (spin_sx_round tid deadline) tid deadline) (false, 0).

(** ** Unlocking *)

Definition unlock_s (tid : Z) : prog local_world ub_lock_result_t :=
  do r <- on_ll (local_lock_try_release_s fuel tid);
  match r with
  | None => Ret UB_LOCK_ERROR
  | Some state_after_release =>
      if local_lock_state_is_idle state_after_release then
        do c <- waiting_count;
        (if 0 <? c then wake_after_unlock_exclusive else Ret tt) ;;;
        Ret UB_LOCK_SUCCESS
      else Ret UB_LOCK_SUCCESS
  end.

Definition unlock_x (allow_recursive : bool) (tid : Z) : prog local_world ub_lock_result_t :=
  do o <- on_ll (load lock_x_owner);
  if negb (o =? tid) then Ret UB_LOCK_ERROR else
  do old <- (if allow_recursive then on_ll (rmw l_x_recursive (fun n => u32 (n - 1))) else Ret 0);
  if allow_recursive && (1 <? old) then Ret UB_LOCK_SUCCESS else
  on_ll (store (lset l_x_recursive 0)) ;;;
  on_ll (store (lset l_x_owner 0)) ;;;
  on_ll (store (lset l_word 0)) ;;;
  do c <- waiting_count;
  (if 0 <? c then wake_after_unlock_exclusive else Ret tt) ;;;
  Ret UB_LOCK_SUCCESS.

Definition unlock_sx (allow_recursive : bool) (tid : Z) : prog local_world ub_lock_result_t :=
  do o <- on_ll (load lock_sx_owner);
  if negb (o =? tid) then Ret UB_LOCK_ERROR else
  do state <- on_ll (load lock_word);
  if Z.land state LOCAL_LOCK_SX_FLAG =? 0 then
    on_ll (load sx_recursive) ;;; Ret UB_LOCK_ERROR
  else
  do old <- (if allow_recursive then on_ll (rmw l_sx_recursive (fun n => u32 (n - 1))) else Ret 0);
  if allow_recursive && (1 <? old) then Ret UB_LOCK_SUCCESS else
  on_ll (store (lset l_sx_recursive 0)) ;;;
  on_ll (store (lset l_sx_owner 0)) ;;;
  do r <- on_ll local_lock_try_release_sx;
  match r with
  | None => Ret UB_LOCK_ERROR
  | Some state_after_release =>
      do c <- waiting_count;
      (if 0 <? c then
         if local_lock_state_is_idle state_after_release then wake_after_unlock_exclusive
         else
           do head_mode <- peek_head_waiting_mode_clean;
           match head_mode with
           | Some UB_LOCK_SX => wake_after_unlock_exclusive
           | _ => Ret tt
           end
       else Ret tt) ;;;
      Ret UB_LOCK_SUCCESS
  end.
End Model.
