(* ===== verification/LocalExcl.v ===== *)
(** The local lock keeps its modes apart (LocalLock.v, interleaved reading).

    The ghost state says what each thread holds.  The word encodes it: every lane counts
    the readers of its threads, SX and X are flags ([word_ok]); the owner fields
    never name a thread that does not hold.  [local_lock_compat] follows: whatever the
    interleaving, X excludes everybody, and SX excludes SX. *)

From S2P Require Import Prelude Atomic CommTypes LockTypes LockRuntime RingQueue OwnerLock LocalLock.

(** * Lanes *)

Lemma lane_value_div w k : 0 <= k -> local_lock_lane_value w k = (w / 2 ^ (16 * k)) mod 2 ^ 16.
Proof.
  intros Hk. unfold local_lock_lane_value, LOCAL_LOCK_READER_LANE_BITS, u16, wrap.
  change 0xFFFF with (2 ^ 16 - 1). rewrite land_mask, Z.mod_mod, Z.shiftr_div_pow2 by lia.
  do 2 f_equal. f_equal. lia.
Qed.

Lemma lane_value_range w k : 0 <= local_lock_lane_value w k < 2 ^ 16.
Proof. apply wrap_bound. lia. Qed.

Definition lane_ok (k : Z) : Prop := k = 0 \/ k = 1 \/ k = 2 \/ k = 3.

Lemma lane_for_tid_ok t : lane_ok (local_lock_lane_for_tid t).
Proof.
  unfold local_lock_lane_for_tid, LOCAL_LOCK_READER_LANES. change (4 - 1) with (2 ^ 2 - 1).
  rewrite land_mask by lia. unfold lane_ok. assert (H := Z.mod_pos_bound (u32 t) (2 ^ 2)). lia.
Qed.

Ltac lanes H := destruct H as [-> | [-> | [-> | ->]]].

Lemma lane_set w k j v :
  lane_ok k -> lane_ok j -> 0 <= w < 2 ^ 64 -> 0 <= v < 2 ^ 16 ->
  local_lock_lane_value (set_lane k v w) j = (if k =? j then v else local_lock_lane_value w j) /\
  0 <= set_lane k v w < 2 ^ 64.
Proof.
  intros Hk Hj Hw Hv. assert (0 <= k /\ 0 <= j) as [Hk0 Hj0] by (unfold lane_ok in *; lia).
  unfold set_lane, LOCAL_LOCK_READER_LANE_BITS. rewrite (Z.mul_comm k 16), !lane_value_div by done.
  lanes Hk; lanes Hj; cbn -[Z.pow Z.mul Z.div Z.modulo]; split;
    Z.div_mod_to_equations; lia.
Qed.

(** A word is determined by its lanes. *)
Lemma lanes_zero w :
  0 <= w < 2 ^ 64 -> (forall k, lane_ok k -> local_lock_lane_value w k = 0) -> w = 0.
Proof.
  intros Hw H. assert (H0 := H 0). assert (H1 := H 1). assert (H2 := H 2). assert (H3 := H 3).
  rewrite lane_value_div in H0, H1, H2, H3 by lia. unfold lane_ok in *.
  cbn -[Z.pow Z.div Z.modulo] in *. Z.div_mod_to_equations. lia.
Qed.

(** The counter arithmetic of the source, on any lane value. *)
Lemma count_of v : 0 <= v < 2 ^ 16 -> u16 (Z.land v LOCAL_LOCK_READER_COUNT_MASK) = v mod 2 ^ 14.
Proof.
  intros Hv. change LOCAL_LOCK_READER_COUNT_MASK with (2 ^ 14 - 1). rewrite land_mask by lia.
  apply u16_small. assert (H := Z.mod_pos_bound v (2 ^ 14)). lia.
Qed.

Lemma count_replace v c :
  0 <= v < 2 ^ 16 -> 0 <= c < 2 ^ 14 ->
  u16 (Z.lor (Z.land v (Z.lnot LOCAL_LOCK_READER_COUNT_MASK)) c) = v - v mod 2 ^ 14 + c.
Proof.
  intros Hv Hc. change LOCAL_LOCK_READER_COUNT_MASK with (2 ^ 14 - 1).
  rewrite land_lnot_ones, lor_shift_add by lia.
  assert (Hd := Z.div_mod v (2 ^ 14)). rewrite u16_small; [lia|].
  assert (0 <= v / 2 ^ 14 < 4); [|lia]. split; [apply Z.div_pos; lia|apply Z.div_lt_upper_bound; lia].
Qed.

Lemma sentinel_clear v :
  0 <= v < 2 ^ 16 -> (Z.land v LOCAL_LOCK_READER_SENTINEL =? 0) = (v mod 2 ^ 15 <? 2 ^ 14).
Proof.
  intros Hv. change LOCAL_LOCK_READER_SENTINEL with (2 ^ 14). rewrite land_bit by lia.
  destruct (Z.eqb_spec (v / 2 ^ 14 mod 2 * 2 ^ 14) 0), (Z.ltb_spec (v mod 2 ^ 15) (2 ^ 14)); try done;
    Z.div_mod_to_equations; lia.
Qed.

Lemma sx_clear v : 0 <= v < 2 ^ 16 -> (Z.land v LOCAL_LOCK_SX_FLAG =? 0) = (v <? 2 ^ 15).
Proof.
  intros Hv. change LOCAL_LOCK_SX_FLAG with (2 ^ 15). rewrite land_bit by lia.
  destruct (Z.eqb_spec (v / 2 ^ 15 mod 2 * 2 ^ 15) 0), (Z.ltb_spec v (2 ^ 15)); try done;
    Z.div_mod_to_equations; lia.
Qed.

Lemma set_sx v : 0 <= v < 2 ^ 15 -> u16 (Z.lor v LOCAL_LOCK_SX_FLAG) = v + 2 ^ 15.
Proof.
  intros Hv. change LOCAL_LOCK_SX_FLAG with (1 * 2 ^ 15). rewrite Z.lor_comm, lor_shift_add by lia.
  rewrite u16_small; lia.
Qed.

Lemma clear_sx v : 0 <= v < 2 ^ 16 -> Z.land v (u16 (Z.lnot LOCAL_LOCK_SX_FLAG)) = v mod 2 ^ 15.
Proof. intros Hv. change (u16 (Z.lnot LOCAL_LOCK_SX_FLAG)) with (2 ^ 15 - 1). by apply land_mask. Qed.

(** No flag and no sentinel in the lane. *)
Lemma lane_plain v :
  0 <= v < 2 ^ 16 -> Z.land v (Z.lor LOCAL_LOCK_SX_FLAG LOCAL_LOCK_READER_SENTINEL) = 0 -> v < 2 ^ 14.
Proof.
  intros Hv H0. rewrite Z.land_lor_distr_r in H0. apply Z.lor_eq_0_iff in H0 as [H1 H2].
  apply Z.eqb_eq in H1, H2. rewrite sx_clear in H1 by done. rewrite sentinel_clear in H2 by done.
  bool_to_prop. rewrite Z.mod_small in *; lia.
Qed.

(** * What threads hold *)

Inductive hold : Set := HNone | HS | HSX | HX.
#[global] Instance hold_eq_dec : EqDecision hold.
Proof. solve_decision. Defined.

Definition hold_of (m : ub_lock_mode_t) : hold :=
  match m with UB_LOCK_S => HS | UB_LOCK_SX => HSX | UB_LOCK_X => HX | UB_LOCK_I => HNone end.

(** Two threads may hold these at the same time. *)
Definition compatible (h h' : hold) : Prop :=
  match h, h' with
  | HNone, _ | _, HNone | HS, HS | HS, HSX | HSX, HS => True
  | _, _ => False
  end.

Definition upd (g : nat -> hold) (i : nat) (h : hold) : nat -> hold :=
  fun j => if decide (j = i) then h else g j.

Lemma upd_eq g i h : upd g i h i = h.
Proof. unfold upd. by rewrite decide_True. Qed.
Lemma upd_ne g i j h : j <> i -> upd g i h j = g j.
Proof. intros Hj. unfold upd. by rewrite decide_False. Qed.

Section Word.
Context (tids : list Z).

Definition is_reader (g : nat -> hold) (k : Z) (it : nat * Z) : nat :=
  if bool_decide (g it.1 = HS) && (local_lock_lane_for_tid it.2 =? k) then 1 else 0.
Definition is_sx (g : nat -> hold) (it : nat * Z) : nat := if bool_decide (g it.1 = HSX) then 1 else 0.
Definition readers (g : nat -> hold) (k : Z) : Z :=
  Z.of_nat (sum_list_with (is_reader g k) (imap pair tids)).
Definition sxs (g : nat -> hold) : Z := Z.of_nat (sum_list_with (is_sx g) (imap pair tids)).

(** The lanes count the readers, and SX is the high bit of lane 0. *)
Record shared_word (w : Z) (g : nat -> hold) : Prop := {
  sw_range : 0 <= w < 2 ^ 64;
  sw_lane : forall k, lane_ok k ->
    local_lock_lane_value w k = readers g k + (if k =? LOCAL_LOCK_SX_LANE then sxs g * 2 ^ 15 else 0);
  sw_readers : forall k, lane_ok k -> readers g k < 2 ^ 14;
  sw_sx : sxs g <= 1;
  sw_no_x : forall i, g i <> HX }.

Definition exclusive_word (w : Z) (g : nat -> hold) (i : nat) : Prop :=
  g i = HX /\ (forall j, j <> i -> g j = HNone) /\ w = LOCAL_LOCK_X_STATE.

Definition word_ok (w : Z) (g : nat -> hold) : Prop := shared_word w g \/ exists i, exclusive_word w g i.

Lemma imap_pair_lookup i t : tids !! i = Some t -> imap pair tids !! i = Some (i, t).
Proof. intros Hi. by rewrite list_lookup_imap, Hi. Qed.

Lemma imap_pair_index j (p : nat * Z) : imap pair tids !! j = Some p -> p.1 = j.
Proof. rewrite list_lookup_imap. intros (t & _ & ->)%fmap_Some. done. Qed.

Lemma readers_upd g i t h k :
  tids !! i = Some t ->
  readers (upd g i h) k = readers g k
    - (if bool_decide (g i = HS) && (local_lock_lane_for_tid t =? k) then 1 else 0)
    + (if bool_decide (h = HS) && (local_lock_lane_for_tid t =? k) then 1 else 0).
Proof.
  intros Hi. assert (H := sum_list_with_update (is_reader g k) (is_reader (upd g i h) k)
    (imap pair tids) i (i, t) (imap_pair_lookup i t Hi)).
  assert (H' : forall j y, j <> i -> imap pair tids !! j = Some y ->
    is_reader (upd g i h) k y = is_reader g k y).
  { intros j y Hj Hy. apply imap_pair_index in Hy. unfold is_reader. by rewrite upd_ne by lia. }
  specialize (H H'). unfold is_reader at 2 4 in H. cbn [fst snd] in H. rewrite upd_eq in H.
  unfold readers. do 2 case_match; lia.
Qed.

Lemma sxs_upd g i t h :
  tids !! i = Some t ->
  sxs (upd g i h) = sxs g - (if bool_decide (g i = HSX) then 1 else 0) + (if bool_decide (h = HSX) then 1 else 0).
Proof.
  intros Hi. assert (H := sum_list_with_update (is_sx g) (is_sx (upd g i h))
    (imap pair tids) i (i, t) (imap_pair_lookup i t Hi)).
  assert (H' : forall j y, j <> i -> imap pair tids !! j = Some y -> is_sx (upd g i h) y = is_sx g y).
  { intros j y Hj Hy. apply imap_pair_index in Hy. unfold is_sx. by rewrite upd_ne by lia. }
  specialize (H H'). unfold is_sx at 2 4 in H. cbn [fst snd] in H. rewrite upd_eq in H.
  unfold sxs. do 2 case_match; lia.
Qed.

Lemma sum_term_le {A} (f : A -> nat) (l : list A) i x : l !! i = Some x -> (f x <= sum_list_with f l)%nat.
Proof.
  revert i. induction l as [|y l IH]; intros [|i] Hi; [done|done| |]; cbn.
  - injection Hi as ->. lia.
  - specialize (IH i Hi). lia.
Qed.

Lemma reader_counted g i t : tids !! i = Some t -> g i = HS -> 1 <= readers g (local_lock_lane_for_tid t).
Proof.
  intros Hi Hg. assert (H := sum_term_le (is_reader g (local_lock_lane_for_tid t)) _ _ _ (imap_pair_lookup i t Hi)).
  unfold is_reader at 1 in H. cbn in H. rewrite bool_decide_true, Z.eqb_refl in H by done. cbn in H.
  unfold readers. lia.
Qed.

Lemma sx_counted g i t : tids !! i = Some t -> g i = HSX -> 1 <= sxs g.
Proof.
  intros Hi Hg. assert (H := sum_term_le (is_sx g) _ _ _ (imap_pair_lookup i t Hi)).
  unfold is_sx at 1 in H. cbn in H. rewrite bool_decide_true in H by done. unfold sxs. lia.
Qed.

Lemma readers_nonneg g k : 0 <= readers g k.
Proof. unfold readers. lia. Qed.
Lemma sxs_nonneg g : 0 <= sxs g.
Proof. unfold sxs. lia. Qed.


Lemma two_sx g i j ti tj :
  tids !! i = Some ti -> tids !! j = Some tj -> i <> j -> g i = HSX -> g j = HSX -> 2 <= sxs g.
Proof.
  intros Hi Hj Hne Hgi Hgj. assert (H := sxs_upd g i ti HNone Hi).
  assert (H' := sx_counted (upd g i HNone) j tj Hj). rewrite upd_ne in H' by congruence.
  rewrite bool_decide_true in H by done. rewrite bool_decide_false in H by done. specialize (H' Hgj). lia.
Qed.

(** The X state has the sentinel in every lane. *)
Lemma x_state_sentinel k :
  lane_ok k -> (Z.land (local_lock_lane_value LOCAL_LOCK_X_STATE k) LOCAL_LOCK_READER_SENTINEL =? 0) = false.
Proof. intros Hk. lanes Hk; vm_compute; reflexivity. Qed.

Lemma x_state_lane0 :
  Z.land (local_lock_lane_value LOCAL_LOCK_X_STATE LOCAL_LOCK_SX_LANE)
    (Z.lor LOCAL_LOCK_SX_FLAG LOCAL_LOCK_READER_SENTINEL) <> 0.
Proof. vm_compute. discriminate. Qed.

(** The count of a lane in the shared state. *)
Lemma lane_count w g k :
  shared_word w g -> lane_ok k -> local_lock_lane_value w k mod 2 ^ 14 = readers g k.
Proof.
  intros Hs Hk. rewrite (sw_lane _ _ Hs k Hk). assert (H1 := sw_readers _ _ Hs k Hk).
  assert (H2 := readers_nonneg g k). case_match.
  - replace (sxs g * 2 ^ 15) with (sxs g * 2 * 2 ^ 14) by lia. rewrite Z.mod_add by lia.
    by apply Z.mod_small.
  - rewrite Z.add_0_r. by apply Z.mod_small.
Qed.

Lemma upd_no_x g i h : (forall j, g j <> HX) -> h <> HX -> forall j, upd g i h j <> HX.
Proof. intros Hg Hh j. unfold upd. by case_decide. Qed.

(** Moving the count of one lane together with the hold of a thread of that lane. *)
Lemma shared_count w g i t h d :
  let k := local_lock_lane_for_tid t in
  shared_word w g -> tids !! i = Some t -> h <> HX -> (h = HSX <-> g i = HSX) ->
  readers (upd g i h) k = readers g k + d -> 0 <= readers g k + d < 2 ^ 14 ->
  shared_word (set_lane k (local_lock_lane_value w k + d) w) (upd g i h).
Proof.
  intros k Hs Hi Hh Hsx Hd Hr. assert (Hk : lane_ok k) by apply lane_for_tid_ok.
  assert (Hsxs : sxs (upd g i h) = sxs g).
  { rewrite (sxs_upd g i t h Hi). do 2 case_bool_decide; try lia; tauto. }
  assert (Hv : 0 <= local_lock_lane_value w k + d < 2 ^ 16).
  { rewrite (sw_lane _ _ Hs k Hk). assert (H1 := sw_sx _ _ Hs). assert (H2 := sxs_nonneg g). case_match; lia. }
  assert (Hoth : forall k', k' <> k -> readers (upd g i h) k' = readers g k').
  { intros k' Hne. rewrite (readers_upd g i t h k' Hi). fold k.
    rewrite (proj2 (Z.eqb_neq k k')), !andb_false_r by congruence. lia. }
  split.
  - by apply (lane_set w k k); [| |apply Hs|].
  - intros k' Hk'. destruct (lane_set w k k' (local_lock_lane_value w k + d)) as [-> _]; [done|done|apply Hs|done|].
    rewrite Hsxs. destruct (Z.eqb_spec k k') as [<-|Hne].
    + rewrite (sw_lane _ _ Hs k Hk), Hd. lia.
    + rewrite Hoth by congruence. by apply Hs.
  - intros k' Hk'. destruct (Z.eq_dec k' k) as [->|Hne]; [lia|]. rewrite Hoth by done. by apply Hs.
  - rewrite Hsxs. apply Hs.
  - apply upd_no_x; [apply Hs|done].
Qed.

Lemma acquire_s_word w g i t :
  let k := local_lock_lane_for_tid t in
  shared_word w g -> tids !! i = Some t -> g i = HNone ->
  local_lock_lane_value w k mod 2 ^ 14 <> 2 ^ 14 - 1 ->
  shared_word (set_lane k (local_lock_lane_value w k + 1) w) (upd g i HS).
Proof.
  intros k Hs Hi Hg Hc. assert (Hk : lane_ok k) by apply lane_for_tid_ok.
  rewrite (lane_count w g k Hs Hk) in Hc. assert (H1 := sw_readers _ _ Hs k Hk).
  assert (H2 := readers_nonneg g k). apply shared_count; try done; [by rewrite Hg| |fold k; lia].
  rewrite (readers_upd g i t HS _ Hi), Hg. fold k. rewrite bool_decide_false, bool_decide_true, Z.eqb_refl by done. cbn. lia.
Qed.

Lemma release_s_word w g i t :
  let k := local_lock_lane_for_tid t in
  shared_word w g -> tids !! i = Some t -> g i = HS ->
  shared_word (set_lane k (local_lock_lane_value w k - 1) w) (upd g i HNone).
Proof.
  intros k Hs Hi Hg. assert (Hk : lane_ok k) by apply lane_for_tid_ok.
  assert (H1 := sw_readers _ _ Hs k Hk). assert (H2 := reader_counted g i t Hi Hg). fold k in H2.
  apply (shared_count w g i t HNone (-1)); try done; [by rewrite Hg| |fold k; lia].
  rewrite (readers_upd g i t HNone _ Hi), Hg. fold k.
  rewrite bool_decide_true, bool_decide_false, Z.eqb_refl by done. cbn. lia.
Qed.

(** Setting and clearing SX in lane 0. *)
Lemma shared_sx w g i t h v :
  shared_word w g -> tids !! i = Some t -> h <> HX -> h <> HS -> g i <> HS ->
  v = readers g LOCAL_LOCK_SX_LANE + sxs (upd g i h) * 2 ^ 15 -> sxs (upd g i h) <= 1 ->
  shared_word (set_lane LOCAL_LOCK_SX_LANE v w) (upd g i h).
Proof.
  intros Hs Hi Hh Hh' Hg -> Hle. assert (Hk : lane_ok LOCAL_LOCK_SX_LANE) by (by left).
  assert (H1 := sw_readers _ _ Hs _ Hk). assert (H2 := readers_nonneg g LOCAL_LOCK_SX_LANE).
  assert (H3 := sxs_nonneg (upd g i h)).
  assert (Hr : forall k, readers (upd g i h) k = readers g k).
  { intros k. rewrite (readers_upd g i t h k Hi). rewrite !bool_decide_false by done. cbn. lia. }
  set (v := readers g LOCAL_LOCK_SX_LANE + sxs (upd g i h) * 2 ^ 15).
  assert (Hv : 0 <= v < 2 ^ 16) by (unfold v; lia). split.
  - by apply (lane_set w _ 0); [| |apply Hs|].
  - intros k Hk'. destruct (lane_set w LOCAL_LOCK_SX_LANE k v) as [-> _]; [done|done|apply Hs|done|].
    rewrite Hr, (Z.eqb_sym k). destruct (Z.eqb_spec LOCAL_LOCK_SX_LANE k) as [<-|Hne]; [done|].
    rewrite (sw_lane _ _ Hs k Hk'), (proj2 (Z.eqb_neq k _)) by congruence. done.
  - intros k Hk'. rewrite Hr. by apply Hs.
  - done.
  - apply upd_no_x; [apply Hs|done].
Qed.

Lemma acquire_sx_word w g i t :
  let v := local_lock_lane_value w LOCAL_LOCK_SX_LANE in
  shared_word w g -> tids !! i = Some t -> g i = HNone -> v < 2 ^ 14 ->
  shared_word (set_lane LOCAL_LOCK_SX_LANE (v + 2 ^ 15) w) (upd g i HSX) /\ forall j, g j <> HSX \/ (length tids <= j)%nat.
Proof.
  intros v Hs Hi Hg Hv. assert (Hk : lane_ok LOCAL_LOCK_SX_LANE) by (by left).
  assert (Hl := sw_lane _ _ Hs _ Hk). rewrite Z.eqb_refl in Hl. fold v in Hl.
  assert (H2 := readers_nonneg g LOCAL_LOCK_SX_LANE). assert (H3 := sxs_nonneg g).
  assert (Hsx : sxs g = 0) by lia.
  assert (Hsx' : sxs (upd g i HSX) = 1).
  { rewrite (sxs_upd g i t HSX Hi), Hg, Hsx. by rewrite bool_decide_false, bool_decide_true. }
  split.
  - apply (shared_sx w g i t); try done; rewrite ?Hg, ?Hsx'; try done; lia.
  - intros j. destruct (decide (length tids <= j)%nat); [by right|left]. intros Hj.
    destruct (lookup_lt_is_Some_2 tids j) as [tj Htj]; [lia|]. assert (H := sx_counted g j tj Htj Hj). lia.
Qed.

Lemma release_sx_word w g i t :
  let v := local_lock_lane_value w LOCAL_LOCK_SX_LANE in
  shared_word w g -> tids !! i = Some t -> g i = HSX ->
  2 ^ 15 <= v /\ shared_word (set_lane LOCAL_LOCK_SX_LANE (v mod 2 ^ 15) w) (upd g i HNone).
Proof.
  intros v Hs Hi Hg. assert (Hk : lane_ok LOCAL_LOCK_SX_LANE) by (by left).
  assert (Hl := sw_lane _ _ Hs _ Hk). rewrite Z.eqb_refl in Hl. fold v in Hl.
  assert (H1 := sw_readers _ _ Hs _ Hk). assert (H2 := readers_nonneg g LOCAL_LOCK_SX_LANE).
  assert (H3 := sx_counted g i t Hi Hg). assert (H4 := sw_sx _ _ Hs).
  assert (Hsx' : sxs (upd g i HNone) = 0).
  { rewrite (sxs_upd g i t HNone Hi), Hg. rewrite bool_decide_true, bool_decide_false by done. lia. }
  split; [lia|]. apply (shared_sx w g i t); try done; rewrite ?Hg, ?Hsx'; try done.
  replace v with (readers g LOCAL_LOCK_SX_LANE + 1 * 2 ^ 15) by lia. rewrite Z.mod_add, Z.mod_small by lia. lia.
Qed.

(** An idle word has no holders. *)
Lemma idle_word g : (forall i, (length tids <= i)%nat -> g i = HNone) -> word_ok 0 g -> forall i, g i = HNone.
Proof.
  intros Hfin [Hs|(i & _ & _ & Hx)]; [|by vm_compute in Hx].
  intros i. destruct (decide (length tids <= i)%nat) as [Hge|Hlt]; [by apply Hfin|].
  destruct (lookup_lt_is_Some_2 tids i) as [t Ht]; [lia|].
  assert (Hz : forall k, lane_ok k -> readers g k = 0 /\ (k = 0 -> sxs g = 0)).
  { intros k Hk. assert (Hl := sw_lane _ _ Hs k Hk). assert (H2 := readers_nonneg g k). assert (H3 := sxs_nonneg g).
    assert (local_lock_lane_value 0 k = 0) as H0 by (lanes Hk; reflexivity). rewrite H0 in Hl.
    unfold LOCAL_LOCK_SX_LANE in Hl. destruct (Z.eqb_spec k 0); lia. }
  destruct (g i) eqn:Hg; [done| | |].
  - assert (H := reader_counted g i t Ht Hg). destruct (Hz _ (lane_for_tid_ok t)). lia.
  - assert (H := sx_counted g i t Ht Hg). destruct (Hz 0) as [_ Hs0]; [by left|]. specialize (Hs0 eq_refl). lia.
  - by destruct (sw_no_x _ _ Hs i).
Qed.

Lemma empty_word g : (forall i, g i = HNone) -> shared_word 0 g.
Proof.
  intros Hg.
  assert (Hr : forall k, readers g k = 0).
  { intros k. unfold readers. rewrite (sum_list_with_ext _ (fun _ => 0%nat)); [|intros x _; unfold is_reader; by rewrite Hg].
    induction (imap pair tids); cbn; lia. }
  assert (Hsx : sxs g = 0).
  { unfold sxs. rewrite (sum_list_with_ext _ (fun _ => 0%nat)); [|intros x _; unfold is_sx; by rewrite Hg].
    induction (imap pair tids); cbn; lia. }
  split; [lia| | |lia|intros i; by rewrite Hg].
  - intros k Hk. rewrite Hr, Hsx. lanes Hk; reflexivity.
  - intros k _. rewrite Hr. lia.
Qed.

(** What the word says about two holders. *)
Lemma word_compatible w g i j :
  (forall k, (length tids <= k)%nat -> g k = HNone) -> word_ok w g -> i <> j -> compatible (g i) (g j).
Proof.
  intros Hfin [Hs|(k & Hk & Hoth & _)] Hne.
  - assert (Hx := sw_no_x _ _ Hs). assert (Hxi := Hx i). assert (Hxj := Hx j).
    destruct (g i) eqn:Hi, (g j) eqn:Hj; cbn; try done.
    assert (forall n, g n = HSX -> exists t, tids !! n = Some t) as Hin.
    { intros n Hn. apply lookup_lt_is_Some_2. destruct (decide (n < length tids)%nat); [done|].
      rewrite Hfin in Hn by lia. done. }
    destruct (Hin i Hi) as [ti Hti], (Hin j Hj) as [tj Htj].
    assert (H := two_sx g i j ti tj Hti Htj Hne Hi Hj). assert (H' := sw_sx _ _ Hs). lia.
  - destruct (decide (i = k)) as [->|Hik].
    + rewrite (Hoth j) by congruence. by destruct (g k).
    + by rewrite (Hoth i).
Qed.
End Word.

(** * Clients *)

(** A client takes the lock in its mode, enters, makes [cdepth] nested requests, leaves and
    releases; the result says whether every release succeeded. *)
Record client_spec := Client {
  ctid : Z; cmode : ub_lock_mode_t; crec : bool; cdeadline : Z; cdepth : nat }.

Definition enter (i : nat) (m : ub_lock_mode_t) (w : local_world) : local_world :=
  mkLocalWorld (ll w) (lnet w) (ub_waiting_count w) ((i, m) :: in_cs w).
Definition leave (i : nat) (w : local_world) : local_world :=
  mkLocalWorld (ll w) (lnet w) (ub_waiting_count w) (filter (fun p => p.1 <> i) (in_cs w)).

Section Clients.
Context (node : Z) (fuel : nat).

Definition lock_mode (m : ub_lock_mode_t) (rec : bool) (tid deadline : Z) : prog local_world ub_lock_result_t :=
  match m with
  | UB_LOCK_S => lock_s node fuel tid deadline
  | UB_LOCK_SX => lock_sx node fuel rec tid deadline
  | UB_LOCK_X => lock_x node fuel rec tid deadline
  | UB_LOCK_I => Ret UB_LOCK_ERROR
  end.
Definition unlock_mode (m : ub_lock_mode_t) (rec : bool) (tid : Z) : prog local_world ub_lock_result_t :=
  match m with
  | UB_LOCK_S => unlock_s node fuel tid
  | UB_LOCK_SX => unlock_sx node fuel rec tid
  | UB_LOCK_X => unlock_x node fuel rec tid
  | UB_LOCK_I => Ret UB_LOCK_ERROR
  end.

Fixpoint nest (m : ub_lock_mode_t) (rec : bool) (tid deadline : Z) (d : nat) : prog local_world bool :=
  match d with
  | O => Ret true
  | S d' =>
      do r <- lock_mode m rec tid deadline;
      if is_success r then
        do ok <- nest m rec tid deadline d';
        do u <- unlock_mode m rec tid;
        Ret (ok && is_success u)
      else Ret true
  end.

Definition client (i : nat) (c : client_spec) : prog local_world bool :=
  do r <- lock_mode (cmode c) (crec c) (ctid c) (cdeadline c);
  if negb (is_success r) then Ret true else
  store (enter i (cmode c)) ;;;
  do ok <- nest (cmode c) (crec c) (ctid c) (cdeadline c) (cdepth c);
  store (leave i) ;;;
  do u <- unlock_mode (cmode c) (crec c) (ctid c);
  Ret (ok && is_success u).
End Clients.

(** A mode of the lock; nested requests, for SX and X only, fewer than the 32-bit counter holds. *)
Record wf_client (c : client_spec) : Prop := {
  wf_mode : cmode c <> UB_LOCK_I;
  wf_depth : Z.of_nat (cdepth c) < 2 ^ 32 - 1;
  wf_shared : cmode c = UB_LOCK_S -> cdepth c = 0%nat }.

(** * The invariant *)

(** The threads: distinct ids, none of them 0, which the owner fields use for nobody. *)
Record wf_tids (tids : list Z) : Prop := {
  tids_distinct : NoDup tids;
  tids_nonzero : Forall (fun t => t <> 0) tids }.

Section Local.
Context (tids : list Z).
Hypothesis Htids : wf_tids tids.
Implicit Types (w : local_world) (g : nat -> hold) (i j : nat).

(** An owner field is 0 or names a thread that holds. *)
Definition owner_ok (o : Z) (h : hold) g : Prop := o = 0 \/ exists i, tids !! i = Some o /\ g i = h.

Record linv w g : Prop := {
  inv_word : word_ok tids (lock_word (ll w)) g;
  inv_x : owner_ok (lock_x_owner (ll w)) HX g;
  inv_sx : owner_ok (lock_sx_owner (ll w)) HSX g;
  inv_fin : forall i, (length tids <= i)%nat -> g i = HNone;
  inv_cs : forall i m, (i, m) ∈ in_cs w -> g i = hold_of m }.

Definition x_part w : Z * Z := (lock_x_owner (ll w), x_recursive (ll w)).
Definition sx_part w : Z * Z := (lock_sx_owner (ll w), sx_recursive (ll w)).
Definition cs_of i w : list (nat * ub_lock_mode_t) := filter (fun p => p.1 = i) (in_cs w).

(** A thread changes what it holds itself, and the owner fields of a mode only while it
    holds that mode. *)
Definition lguar i (s s' : local_world * (nat -> hold)) : Prop :=
  (forall j, j <> i -> s'.2 j = s.2 j) /\
  (x_part s'.1 = x_part s.1 \/ (s.2 i = HX /\ s'.2 i = HX)) /\
  (sx_part s'.1 = sx_part s.1 \/ (s.2 i = HSX /\ s'.2 i = HSX)) /\
  (forall j, j <> i -> cs_of j s'.1 = cs_of j s.1).

Abbreviation lsafe := (safe any_answer linv lguar).
Abbreviation lstable := (stable linv lguar).

(** Thread [i] holds [h]; while it does, the owner and recursion fields of that mode
    satisfy [P], and its entries among the critical sections are [cs]. *)
Definition At i (h : hold) (P : Z * Z -> Prop) (cs : list (nat * ub_lock_mode_t)) w g : Prop :=
  g i = h /\ (h = HX -> P (x_part w)) /\ (h = HSX -> P (sx_part w)) /\ cs_of i w = cs.

Lemma At_stable i h P cs : lstable i (At i h P cs).
Proof.
  intros w g w' g' (Hg & Hx & Hsx & Hcs) (j & Hj & (Hoth & Hxg & Hsxg & Hcsg) & HI & HI').
  cbn in *. assert (Hgi : g' i = g i) by (by apply Hoth). split_and!.
  - congruence.
  - intros ->. specialize (Hx eq_refl). destruct Hxg as [-> |[H1 _]]; [done|].
    assert (H := word_compatible tids _ g i j (inv_fin _ _ HI) (inv_word _ _ HI)).
    rewrite Hg, H1 in H. by destruct H.
  - intros ->. specialize (Hsx eq_refl). destruct Hsxg as [-> |[H1 _]]; [done|].
    assert (H := word_compatible tids _ g i j (inv_fin _ _ HI) (inv_word _ _ HI)).
    rewrite Hg, H1 in H. by destruct H.
  - rewrite Hcsg by done. done.
Qed.
#[local] Hint Resolve At_stable : core.

(** ** Steps that change nothing the invariant speaks of *)

Definition lkeeps w w' : Prop :=
  lock_word (ll w') = lock_word (ll w) /\ x_part w' = x_part w /\ sx_part w' = sx_part w /\ in_cs w' = in_cs w.

Lemma lkeeps_inv i w w' g : linv w g -> lkeeps w w' -> linv w' g /\ lguar i (w, g) (w', g).
Proof.
  intros [H1 H2 H3 H4 H5] (Hw & Hx & Hsx & Hcs). unfold x_part, sx_part in *. injection Hx as Hx Hxr.
  injection Hsx as Hsx Hsxr. split.
  - split; rewrite ?Hw, ?Hx, ?Hsx, ?Hcs; done.
  - unfold lguar, x_part, sx_part, cs_of; cbn. rewrite Hx, Hxr, Hsx, Hsxr, Hcs. auto.
Qed.

Lemma At_keeps i h P cs w w' g : lkeeps w w' -> At i h P cs w g -> At i h P cs w' g.
Proof.
  intros (Hw & Hx & Hsx & Hcs) (Hg & H1 & H2 & H3). unfold At, cs_of. rewrite Hx, Hsx, Hcs. done.
Qed.

Lemma safe_lkeeps {A} i h P cs (pr : prog local_world A) w g :
  only lkeeps pr -> At i h P cs w g -> lsafe i pr (fun _ => At i h P cs) w g.
Proof.
  intros Ho HA. apply (safe_only _ _ _ i lkeeps); [done| | |auto|done].
  - intros w1 w2 g1 HI Hk. by apply lkeeps_inv.
  - intros w1 w2 g1 _ H1 Hk. by eapply At_keeps.
Qed.

Lemma lguar_refl i s : lguar i s s.
Proof. unfold lguar. auto. Qed.

Lemma only_queue {A} (p : prog (wait_queue Z) A) : only lkeeps (on_queue p).
Proof. eapply only_lift; [|apply only_any]. by intros w q _. Qed.
Lemma only_lnet {A} (p : prog network A) : only lkeeps (on_lnet p).
Proof. eapply only_lift; [|apply only_any]. by intros w n _. Qed.

(** Fields of the lock other than the word and the owners. *)
Definition llkeeps (o o' : LocalLock) : Prop :=
  lock_word o' = lock_word o /\ lock_x_owner o' = lock_x_owner o /\ x_recursive o' = x_recursive o /\
  lock_sx_owner o' = lock_sx_owner o /\ sx_recursive o' = sx_recursive o.
#[global] Instance llkeeps_preorder : PreOrder llkeeps.
Proof. split; [by intros o|]. unfold llkeeps. intros o1 o2 o3 H1 H2. destruct_and?. split_and!; congruence. Qed.

Lemma only_ll {A} (p : prog LocalLock A) : only llkeeps p -> only lkeeps (on_ll p).
Proof.
  apply only_lift. intros w o (H1 & H2 & H3 & H4 & H5). unfold lkeeps, x_part, sx_part. cbn.
  by rewrite H1, H2, H3, H4, H5.
Qed.

Ltac lonly_step :=
  match goal with
  | |- forall _, _ => intros ?
  | |- only _ (Ret _) => exact I
  | |- only _ (on_queue _) => apply only_queue
  | |- only _ (on_lnet _) => apply only_lnet
  | |- only _ (on_ll (load _)) => apply only_ll; by intros ?
  | |- only _ (load _) => by apply only_load
  | |- only _ (bind (ask _) _) => cbn [bind ask only]
  | |- only _ (bind _ _) => apply only_bind
  | |- only _ (match ?b with _ => _ end) => destruct b
  | |- only _ (iter _ _ _) => apply only_iter
  end.
Ltac lonly := repeat lonly_step; auto.

Context (node : Z) (fuel : nat).

Lemma only_dequeue_scan n : only lkeeps (dequeue_scan node n).
Proof. induction n as [|n IH]; cbn [dequeue_scan]; [done|]. unfold outqueue_waiter, notify_one. lonly. Qed.
#[local] Hint Resolve only_dequeue_scan : core.

Lemma only_wake : only lkeeps (wake_after_unlock_exclusive node fuel).
Proof.
  unfold wake_after_unlock_exclusive, wake_readers_round, wake_shared_round, dequeue_and_notify_one,
    peek_head_waiting_mode_clean. lonly.
Qed.
#[local] Hint Resolve only_wake : core.

Lemma only_awakened_retry deadline slot k : only lkeeps (awakened_retry fuel deadline slot k).
Proof. unfold awakened_retry, clean_timeout_waiter. lonly. Qed.

Lemma only_queue_phase enq t deadline :
  only lkeeps enq -> only lkeeps (queue_phase node fuel enq t deadline).
Proof. intros He. unfold queue_phase, with_waiter_guard, clean_timeout_waiter. lonly. Qed.

(** ** One thread *)

Section Thread.
Context (i : nat) (t : Z).
Hypothesis Ht : tids !! i = Some t.

Definition anything (p : Z * Z) : Prop := True.
Definition Free : local_world -> (nat -> hold) -> Prop := At i HNone anything [].

Lemma bind_lkeeps {A B} h P cs (p : prog local_world A) (f : A -> prog local_world B) Q w g :
  linv w g -> At i h P cs w g -> only lkeeps p ->
  (forall a w g, linv w g -> At i h P cs w g -> lsafe i (f a) Q w g) ->
  lsafe i (bind p f) Q w g.
Proof. intros HI HA Ho Hf. eapply safe_bind; [done|by apply (safe_lkeeps i h P cs)|done]. Qed.

Lemma t_nonzero : t <> 0.
Proof. exact (proj1 (Forall_lookup _ _) (tids_nonzero _ Htids) i t Ht). Qed.

Lemma owner_is_me o h g : owner_ok o h g -> o = t -> g i = h.
Proof.
  intros [->|(j & Hj & Hg)] He; [by destruct t_nonzero|]. subst.
  by rewrite (NoDup_lookup _ _ _ _ (tids_distinct _ Htids) Ht Hj).
Qed.

(** A change of what this thread holds. *)
Lemma hold_step h' w w' g :
  linv w g -> cs_of i w = [] -> word_ok tids (lock_word (ll w')) (upd g i h') ->
  x_part w' = x_part w -> sx_part w' = sx_part w -> in_cs w' = in_cs w ->
  (g i = HX -> lock_x_owner (ll w) = 0) -> (g i = HSX -> lock_sx_owner (ll w) = 0) ->
  linv w' (upd g i h') /\ lguar i (w, g) (w', upd g i h').
Proof.
  intros [H1 H2 H3 H4 H5] Hcs Hw Hx Hsx Hin Hox Hosx.
  assert (Hown : forall o h, owner_ok o h g -> (g i = h -> o = 0) -> owner_ok o h (upd g i h')).
  { intros o h [->|(j & Hj & Hg)] Hz; [by left|]. destruct (decide (j = i)) as [->|Hne].
    - left. auto.
    - right. exists j. by rewrite upd_ne. }
  unfold x_part, sx_part in *. injection Hx as Hx Hxr. injection Hsx as Hsx Hsxr. split; [split|].
  - done.
  - rewrite Hx. by apply Hown.
  - rewrite Hsx. by apply Hown.
  - intros j Hj. rewrite upd_ne; [by apply H4|]. intros ->. apply lookup_lt_Some in Ht. lia.
  - intros j m Hj. rewrite Hin in Hj. rewrite upd_ne; [by apply H5|]. intros ->.
    assert (Hel : (i, m) ∈ cs_of i w) by (by apply list_elem_of_filter). rewrite Hcs in Hel. by apply elem_of_nil in Hel.
  - split_and!; cbn.
    + intros j Hj. by apply upd_ne.
    + left. unfold x_part. by rewrite Hx, Hxr.
    + left. unfold sx_part. by rewrite Hsx, Hsxr.
    + intros j _. unfold cs_of. by rewrite Hin.
Qed.

(** A write to one's own owner fields. *)
Lemma owner_step P cs w w' g h :
  linv w g -> At i h P cs w g -> h = HX \/ h = HSX ->
  lock_word (ll w') = lock_word (ll w) -> in_cs w' = in_cs w ->
  (h = HX -> sx_part w' = sx_part w /\ (lock_x_owner (ll w') = 0 \/ lock_x_owner (ll w') = t)) ->
  (h = HSX -> x_part w' = x_part w /\ (lock_sx_owner (ll w') = 0 \/ lock_sx_owner (ll w') = t)) ->
  linv w' g /\ lguar i (w, g) (w', g) /\ cs_of i w' = cs.
Proof.
  intros [H1 H2 H3 H4 H5] (Hg & _ & _ & Hcs) Hh Hw Hin Hx Hsx.
  assert (Hcs' : cs_of i w' = cs) by (unfold cs_of; by rewrite Hin).
  destruct Hh as [-> | ->].
  - destruct (Hx eq_refl) as [Hs Ho]. unfold sx_part in Hs. injection Hs as Hs Hsr. split_and!; [|split_and!|done]; cbn.
    + split; rewrite ?Hw, ?Hs, ?Hin; try done. destruct Ho as [-> | ->]; [by left|right]. by exists i.
    + done.
    + by right.
    + left. unfold sx_part. by rewrite Hs, Hsr.
    + intros j _. unfold cs_of. by rewrite Hin.
  - destruct (Hsx eq_refl) as [Hs Ho]. unfold x_part in Hs. injection Hs as Hs Hsr. split_and!; [|split_and!|done]; cbn.
    + split; rewrite ?Hw, ?Hs, ?Hin; try done. destruct Ho as [-> | ->]; [by left|right]. by exists i.
    + done.
    + left. unfold x_part. by rewrite Hs, Hsr.
    + by right.
    + intros j _. unfold cs_of. by rewrite Hin.
Qed.

Lemma lw_eta w : lset l_ll (ll w) w = w.
Proof. by destruct w. Qed.

Lemma Free_stable : lstable i Free.
Proof. apply At_stable. Qed.
#[local] Hint Resolve Free_stable : core.

(** A read of the lock. *)
Lemma read_ll {A B} h P cs (f : LocalLock -> B) (k : B -> prog LocalLock A) Q w g :
  linv w g -> At i h P cs w g ->
  (forall w g, linv w g -> At i h P cs w g -> lsafe i (on_ll (k (f (ll w)))) Q w g) ->
  lsafe i (on_ll (bind (load f) k)) Q w g.
Proof.
  intros HI HA Hk. cbn. apply (safe_read _ _ _ _ (At i h P cs)); [apply lw_eta|apply lguar_refl|auto|done|].
  intros w' g' HI' HA'. by apply Hk.
Qed.

(** A compare-exchange from [Free] to holding [h]; the update is justified when it succeeds. *)
Lemma cas_ll h (l : lens LocalLock Z) expected desired w g :
  h <> HNone ->
  linv w g -> Free w g ->
  (forall w g, linv w g -> g i = HNone -> lget l (ll w) = expected ->
     let o' := lset l desired (ll w) in
     word_ok tids (lock_word o') (upd g i h) /\ lock_x_owner o' = lock_x_owner (ll w) /\
     x_recursive o' = x_recursive (ll w) /\ lock_sx_owner o' = lock_sx_owner (ll w) /\
     sx_recursive o' = sx_recursive (ll w)) ->
  lsafe i (on_ll (do '(ok, _) <- cas_weak l expected desired; Ret (ok : bool)))
    (fun ok => if ok : bool then At i h anything [] else Free) w g.
Proof.
  intros Hh HI HF Hup. cbn. apply safe_ask. intros sp. destruct (sp =? 0); cbn.
  - apply (safe_act _ _ _ _ Free); [auto|done|]. clear w g HI HF. intros w g HI HF.
    destruct (Z.eqb_spec (lget l (ll w)) expected) as [He|He]; cbn.
    + destruct HF as (Hg & _ & _ & Hcs). destruct (Hup w g HI Hg He) as (Hw & H1 & H2 & H3 & H4).
      exists (upd g i h). destruct (hold_step h w (lset l_ll (lset l desired (ll w)) w) g) as [HI' HG'];
        try done; unfold x_part, sx_part; cbn; rewrite ?H1, ?H2, ?H3, ?H4, ?Hg; try done.
      split_and!; [done|done|]. apply safe_ret; [apply At_stable|]. split_and!; [apply upd_eq|done|done|done].
    + exists g. change (mkLocalWorld (ll w) (lnet w) (ub_waiting_count w) (in_cs w)) with (lset l_ll (ll w) w).
      rewrite lw_eta. split_and!; [done|apply lguar_refl|]. by apply safe_ret.
  - apply (safe_read _ _ _ _ Free); [apply lw_eta|apply lguar_refl|auto|done|].
    clear w g HI HF. intros w g HI HF. by apply safe_ret.
Qed.

Definition acquired (h : hold) (ok : bool) : local_world -> (nat -> hold) -> Prop :=
  if ok then At i h anything [] else Free.

Lemma acquire_s_safe w g :
  linv w g -> Free w g -> lsafe i (on_ll (local_lock_try_acquire_s t)) (acquired HS) w g.
Proof.
  intros HI HF. unfold local_lock_try_acquire_s. apply (read_ll HNone anything []); [done|done|].
  clear w g HI HF. intros w0 g HI HF. case_bool; [by apply safe_ret|].
  set (v := local_lock_lane_value (lock_word (ll w0)) (local_lock_lane_for_tid t)).
  assert (Hv : 0 <= v < 2 ^ 16) by apply lane_value_range. generalize dependent v. intros v Hv.
  case_bool; [by apply safe_ret|]. case_bool; [by apply safe_ret|].
  bool_to_prop. rewrite count_of in * by done. unfold LOCAL_LOCK_READER_COUNT_MASK in E1.
  assert (Hm := Z.mod_pos_bound v (2 ^ 14)). rewrite count_replace by lia.
  replace (v - v mod 2 ^ 14 + (v mod 2 ^ 14 + 1)) with (v + 1) by lia.
  apply cas_ll; [done|done|done|]. clear w0 g HI HF E. intros w g HI Hg He. cbn in He. subst v.
  cbn. split_and!; try done. assert (Hk := lane_for_tid_ok t).
  destruct (inv_word _ _ HI) as [Hs|(j & _ & _ & Hx)].
  - left. by apply acquire_s_word.
  - rewrite Hx in E0. assert (Hsen := x_state_sentinel _ Hk). apply Z.eqb_neq in Hsen. done.
Qed.

Lemma acquire_sx_safe w g :
  linv w g -> Free w g -> lsafe i (on_ll local_lock_try_acquire_sx) (acquired HSX) w g.
Proof.
  intros HI HF. unfold local_lock_try_acquire_sx. apply (read_ll HNone anything []); [done|done|].
  clear w g HI HF. intros w0 g HI HF. case_bool; [by apply safe_ret|].
  set (v := local_lock_lane_value (lock_word (ll w0)) LOCAL_LOCK_SX_LANE).
  assert (Hv : 0 <= v < 2 ^ 16) by apply lane_value_range. generalize dependent v. intros v Hv.
  case_bool; [by apply safe_ret|]. bool_to_prop. assert (Hp := lane_plain v Hv E0).
  rewrite set_sx by lia. apply cas_ll; [done|done|done|]. clear w0 g HI HF E. intros w g HI Hg He.
  cbn in He. subst v. cbn. split_and!; try done. destruct (inv_word _ _ HI) as [Hs|(j & _ & _ & Hx)].
  - left. by apply (acquire_sx_word tids _ _ _ t).
  - rewrite Hx in E0. by destruct x_state_lane0.
Qed.

Lemma acquire_x_safe w g :
  linv w g -> Free w g -> lsafe i (on_ll local_lock_try_acquire_x) (acquired HX) w g.
Proof.
  intros HI HF. unfold local_lock_try_acquire_x. apply (read_ll HNone anything []); [done|done|].
  clear w g HI HF. intros w0 g HI HF. case_bool; [by apply safe_ret|].
  unfold local_lock_state_is_idle in E. bool_to_prop. rewrite E.
  apply cas_ll; [done|done|done|]. clear w0 g HI HF E. intros w g HI Hg He. cbn in He. cbn.
  split_and!; try done. right. exists i. split_and!; [apply upd_eq| |done]. intros j Hj. rewrite upd_ne by done.
  apply (idle_word tids g (inv_fin _ _ HI)). rewrite <- He. apply HI.
Qed.

(** The owner and recursion fields of a mode. *)
Definition opart (h : hold) (o : LocalLock) : Z * Z :=
  match h with HSX => (lock_sx_owner o, sx_recursive o) | _ => (lock_x_owner o, x_recursive o) end.
Definition other (h : hold) : hold := match h with HSX => HX | _ => HSX end.

Lemma write_owner {B} h P P' cs (R : B -> Prop) (f : LocalLock -> B * LocalLock) w g :
  h = HX \/ h = HSX -> linv w g -> At i h P cs w g ->
  (forall o, P (opart h o) ->
     let o' := (f o).2 in
     lock_word o' = lock_word o /\ opart (other h) o' = opart (other h) o /\
     ((opart h o').1 = 0 \/ (opart h o').1 = t) /\ P' (opart h o') /\ R (f o).1) ->
  lsafe i (on_ll (act f)) (fun b w g => At i h P' cs w g /\ R b) w g.
Proof.
  intros Hh HI HA Hf. cbn. apply (safe_act _ _ _ _ (At i h P cs)); [auto|done|].
  clear w g HI HA. intros w g HI HA. exists g.
  assert (HP : P (opart h (ll w))).
  { destruct HA as (_ & H1 & H2 & _). destruct Hh as [-> | ->]; [by apply H1|by apply H2]. }
  destruct (Hf (ll w) HP) as (Hw & Ho & Hme & HP' & HR). destruct (f (ll w)) as [b o'] eqn:Ef. cbn [fst snd] in *.
  destruct (owner_step P cs w (lset l_ll o' w) g h HI HA Hh Hw eq_refl) as (HI' & HG' & Hcs).
  { intros ->. by split. }
  { intros ->. by split. }
  split_and!; [done|done|]. apply safe_ret.
  - intros w1 g1 w2 g2 [HA1 Hr] Hrel. split; [by eapply At_stable|done].
  - split; [|done]. destruct HA as (Hg & _). split_and!; [done| | |done]; intros ->; done.
Qed.

(** The two stores that complete an acquisition. *)
Lemma claim_owner h (l1 l2 : lens LocalLock Z) {B} (k : prog local_world B) Q w g :
  h = HX \/ h = HSX ->
  (forall v o, opart h (lset l1 v o) = (v, (opart h o).2) /\ opart (other h) (lset l1 v o) = opart (other h) o /\
     lock_word (lset l1 v o) = lock_word o) ->
  (forall v o, opart h (lset l2 v o) = ((opart h o).1, v) /\ opart (other h) (lset l2 v o) = opart (other h) o /\
     lock_word (lset l2 v o) = lock_word o) ->
  linv w g -> At i h anything [] w g ->
  (forall w g, linv w g -> At i h (eq (t, 1)) [] w g -> lsafe i k Q w g) ->
  lsafe i (on_ll (store (lset l1 t)) ;;; on_ll (store (lset l2 1)) ;;; k) Q w g.
Proof.
  intros Hh H1 H2 HI HA Hk. eapply safe_bind; [done| |].
  { apply (write_owner h anything (fun p => p.1 = t) [] (fun _ => True)); [done|done|done|].
    intros o _. cbn. destruct (H1 t o) as (-> & -> & ->). auto. }
  clear w g HI HA. intros _ w g HI [HA _]. eapply safe_bind; [done| |].
  { apply (write_owner h (fun p => p.1 = t) (eq (t, 1)) [] (fun _ => True)); [done|done|exact HA|].
    intros o Ho. cbn. destruct (H2 1 o) as (-> & -> & ->). cbn. rewrite Ho. auto. }
  clear w g HI HA. intros _ w g HI [HA _]. by apply Hk.
Qed.

(** ** Locking *)

Definition full (h : hold) : Z * Z -> Prop :=
  match h with HX | HSX => eq (t, 1) | _ => anything end.
Definition lock_post (h : hold) (r : ub_lock_result_t) : local_world -> (nat -> hold) -> Prop :=
  if is_success r then At i h (full h) [] else Free.
Definition spin_post (h : hold) (r : Z + spin_end) : local_world -> (nat -> hold) -> Prop :=
  match r with inr (Some r) => lock_post h r | _ => Free end.

Lemma rw_post_stable h r : lstable i (lock_post h r).
Proof. unfold lock_post. case_bool; auto. Qed.
Lemma local_spin_stable h r : lstable i (spin_post h r).
Proof. unfold spin_post. destruct r as [|[r|]]; auto using rw_post_stable. Qed.
#[local] Hint Resolve rw_post_stable local_spin_stable : core.

Lemma awakened_retry_safe h deadline slot k w g :
  linv w g -> Free w g -> lsafe i (awakened_retry fuel deadline slot k) (spin_post h) w g.
Proof.
  intros HI HF. unfold awakened_retry. cbn [bind ask]. apply safe_ask. intros now.
  case_bool; [|by apply safe_ret]. apply (bind_lkeeps HNone anything []); [done|done|apply only_queue|].
  intros _ w1 g1 HI1 HF1. by apply safe_ret.
Qed.

(** The common shape of the three spin rounds. *)
Lemma finish_spin h (aw : bool) slot w g :
  linv w g -> At i h (full h) [] w g ->
  lsafe i ((if aw then clean_outqueue_waiter fuel slot else Ret tt) ;;; Ret (inr (Some UB_LOCK_SUCCESS)))
    (spin_post h) w g.
Proof.
  intros HI HA. destruct aw.
  - apply (bind_lkeeps h (full h) []); [done|done|apply only_queue|]. intros _ w1 g1 HI1 HA1. by apply safe_ret.
  - by apply safe_ret.
Qed.

Lemma spin_x_safe deadline aw slot k w g :
  linv w g -> Free w g -> lsafe i (spin_x_round fuel t deadline aw slot k) (spin_post HX) w g.
Proof.
  intros HI HF. unfold spin_x_round. case_bool; [by apply safe_ret|].
  apply (bind_lkeeps HNone anything []); [done|done|apply only_queue|]. clear w g HI HF. intros c w g HI HF.
  case_bool; [by apply safe_ret|]. eapply safe_bind; [done|by apply acquire_x_safe|].
  clear w g HI HF. intros [] w g HI HA; cbn in HA.
  - apply (claim_owner HX); [by left|done|done|done|done|]. intros w1 g1 HI1 HA1. by apply finish_spin.
  - destruct aw; [by apply awakened_retry_safe|by apply safe_ret].
Qed.

Lemma spin_sx_safe deadline aw slot k w g :
  linv w g -> Free w g -> lsafe i (spin_sx_round fuel t deadline aw slot k) (spin_post HSX) w g.
Proof.
  intros HI HF. unfold spin_sx_round. case_bool; [by apply safe_ret|].
  apply (bind_lkeeps HNone anything []); [done|done|apply only_queue|]. clear w g HI HF. intros c w g HI HF.
  case_bool; [by apply safe_ret|]. eapply safe_bind; [done|by apply acquire_sx_safe|].
  clear w g HI HF. intros [] w g HI HA; cbn in HA.
  - eapply safe_bind; [done| |].
    + unfold finish_local_sx_acquire. apply (claim_owner HSX); [by right|done|done|done|done|].
      clear w g HI HA. intros w g HI HA. apply (bind_lkeeps HSX (full HSX) []); [done|done| |].
      { destruct aw; [apply only_queue|done]. }
      intros _ w1 g1 HI1 HA1. apply (safe_ret _ _ _ i UB_LOCK_SUCCESS (lock_post HSX)); [auto|done].
    + clear w g HI HA. intros r w g HI Hp. by apply safe_ret.
  - destruct aw; [by apply awakened_retry_safe|by apply safe_ret].
Qed.

Lemma spin_s_safe deadline aw slot k w g :
  linv w g -> Free w g -> lsafe i (spin_s_round fuel t deadline aw slot k) (spin_post HS) w g.
Proof.
  intros HI HF. unfold spin_s_round. case_bool; [by apply safe_ret|].
  apply (bind_lkeeps HNone anything []); [done|done|apply only_queue|]. clear w g HI HF. intros c w g HI HF.
  case_bool; [by apply safe_ret|].
  apply (bind_lkeeps HNone anything []); [done|done|lonly|]. clear w g HI HF. intros rc w g HI HF.
  apply (bind_lkeeps HNone anything []); [done|done| |].
  { case_bool; [|done]. apply only_bind; [by apply only_load|]. intros gw. case_bool; [done|].
    apply only_bind; [|done]. apply only_ll. by intros o. }
  clear w g HI HF. intros go w g HI HF. case_bool; [by apply safe_ret|].
  eapply safe_bind; [done|by apply acquire_s_safe|]. clear w g HI HF. intros [] w g HI HA; cbn in HA.
  - apply (bind_lkeeps HS anything []); [done|done| |]. { apply only_ll. by intros o. }
    clear w g HI HA. intros _ w g HI HA. by apply (finish_spin HS).
  - destruct aw; [by apply awakened_retry_safe|by apply safe_ret].
Qed.

(** The queueing phase ends the call only with a failure. *)
Lemma queue_phase_fails enq deadline :
  returns (fun r => match r with inl _ => True | inr r => is_success r = false end)
    (queue_phase node fuel enq t deadline).
Proof.
  unfold queue_phase, with_waiter_guard. apply returns_bind. intros _.
  apply (returns_seq (fun r => match r with inl _ => True | inr r => is_success r = false end)).
  - apply returns_bind. intros [ret slot]. destruct (is_success ret) eqn:Er; cbn [negb]; [|exact Er].
    apply returns_bind. intros cur. apply returns_bind. intros []; [done|].
    apply returns_bind. intros []; [done|]. apply returns_bind. done.
  - intros r Hr. apply returns_bind. by intros _.
Qed.

Lemma lock_loop_safe h enq spin deadline w g :
  (forall aw slot, only lkeeps (enq aw slot)) ->
  (forall aw slot k w g, linv w g -> Free w g -> lsafe i (spin aw slot k) (spin_post h) w g) ->
  linv w g -> Free w g ->
  lsafe i (iter fuel (lock_round node fuel enq spin t deadline) (false, 0)) (lock_post h) w g.
Proof.
  intros Henq Hspin HI HF. apply (safe_iter _ _ _ _ _ (fun _ => Free)); [|auto|done|done].
  clear w g HI HF. intros [aw slot] w g HI HF. unfold lock_round.
  eapply safe_bind; [done| |].
  { apply (safe_iter _ _ _ _ _ (fun _ => Free) (fun e => spin_post h (inr e))); [|auto|done|done].
    clear w g HI HF. intros k w g HI HF. eapply safe_mono; [by apply Hspin|]. by intros [] w1 g1. }
  clear w g HI HF. intros [r|] w g HI Hp; [by apply safe_ret|].
  eapply safe_bind; [done| |].
  { eapply safe_returns; [apply queue_phase_fails|].
    apply (safe_lkeeps i HNone anything []); [by apply only_queue_phase|done]. }
  clear w g HI Hp. intros [slot'|r] w g HI [HF Hr]; apply safe_ret; auto. cbn in Hr.
  unfold lock_post. by rewrite Hr.
Qed.
(** A read followed by the rest of the operation. *)
Lemma read_then {A B} h P cs (f : LocalLock -> B) (k : B -> prog local_world A) Q w g :
  linv w g -> At i h P cs w g ->
  (forall w g, linv w g -> At i h P cs w g -> lsafe i (k (f (ll w))) Q w g) ->
  lsafe i (bind (on_ll (load f)) k) Q w g.
Proof.
  intros HI HA Hk. cbn. apply (safe_read _ _ _ _ (At i h P cs)); [apply lw_eta|apply lguar_refl|auto|done|].
  intros w' g' HI' HA'. by apply Hk.
Qed.

Lemma lock_s_safe deadline w g :
  linv w g -> Free w g -> lsafe i (lock_s node fuel t deadline) (lock_post HS) w g.
Proof.
  intros HI HF. apply lock_loop_safe; [intros; apply only_queue| |done|done].
  intros. by apply spin_s_safe.
Qed.

Lemma lock_x_safe rec deadline w g :
  linv w g -> Free w g -> lsafe i (lock_x node fuel rec t deadline) (lock_post HX) w g.
Proof.
  intros HI HF. unfold lock_x. apply (read_then HNone anything []); [done|done|].
  clear w g HI HF. intros w g HI HF. destruct (Z.eqb_spec (lock_x_owner (ll w)) t) as [He|He].
  - assert (Hg := owner_is_me _ _ _ (inv_x _ _ HI) He). by destruct HF as [HF _]; rewrite HF in Hg.
  - apply lock_loop_safe; [intros; apply only_queue| |done|done]. intros. by apply spin_x_safe.
Qed.

Lemma lock_sx_safe rec deadline w g :
  linv w g -> Free w g -> lsafe i (lock_sx node fuel rec t deadline) (lock_post HSX) w g.
Proof.
  intros HI HF. unfold lock_sx. apply (read_then HNone anything []); [done|done|].
  clear w g HI HF. intros w g HI HF. destruct (Z.eqb_spec (lock_sx_owner (ll w)) t) as [He|He].
  - assert (Hg := owner_is_me _ _ _ (inv_sx _ _ HI) He). by destruct HF as [HF _]; rewrite HF in Hg.
  - apply lock_loop_safe; [|intros; by apply spin_sx_safe|done|done].
    intros [] slot; [done|apply only_queue].
Qed.

(** A nested request of the owner: counted when recursion is allowed, refused when not. *)
Definition nested (h : hold) (rec : bool) (n : Z) cs (r : ub_lock_result_t) w g : Prop :=
  r = (if rec then UB_LOCK_SUCCESS else UB_LOCK_CONFLICT) /\
  At i h (eq (t, if rec then u32 (n + 1) else n)) cs w g.

Lemma nested_stable h rec n cs r : lstable i (nested h rec n cs r).
Proof. intros w g w' g' [Hr HA] Hrel. split; [done|by eapply At_stable]. Qed.
#[local] Hint Resolve nested_stable : core.

(** The rest of a nested request, once the owner field was read. *)
Lemma nested_request h rec n cs (l : lens LocalLock Z) w g :
  h = HX \/ h = HSX ->
  (forall o, lget l o = (opart h o).2) ->
  (forall v o, opart h (lset l v o) = ((opart h o).1, v) /\ opart (other h) (lset l v o) = opart (other h) o /\
     lock_word (lset l v o) = lock_word o) ->
  linv w g -> At i h (eq (t, n)) cs w g ->
  lsafe i (if rec : bool then on_ll (rmw l (fun n => u32 (n + 1))) ;;; Ret UB_LOCK_SUCCESS else Ret UB_LOCK_CONFLICT)
    (nested h rec n cs) w g.
Proof.
  intros Hh Hl1 Hl2 HI HA. destruct rec; [|by apply safe_ret]. eapply safe_bind; [done| |].
  { apply (write_owner h (eq (t, n)) (eq (t, u32 (n + 1))) cs (fun _ => True)); [done|done|done|].
    intros o Ho. cbn. rewrite Hl1. destruct (Hl2 (u32 ((opart h o).2 + 1)) o) as (-> & -> & ->).
    rewrite <- Ho. cbn. auto. }
  clear w g HI HA. intros _ w g HI [HA _]. by apply safe_ret.
Qed.

Lemma lock_x_nested rec deadline n cs w g :
  linv w g -> At i HX (eq (t, n)) cs w g ->
  lsafe i (lock_x node fuel rec t deadline) (nested HX rec n cs) w g.
Proof.
  intros HI HA. unfold lock_x. apply (read_then HX (eq (t, n)) cs); [done|done|].
  clear w g HI HA. intros w g HI HA. destruct HA as (Hg & Hx & Hsx & Hcs). assert (Hx' := Hx eq_refl).
  injection Hx' as Hx1 Hx2. rewrite <- Hx1, Z.eqb_refl. apply nested_request; [by left|done|done|done|by repeat split].
Qed.

Lemma lock_sx_nested rec deadline n cs w g :
  linv w g -> At i HSX (eq (t, n)) cs w g ->
  lsafe i (lock_sx node fuel rec t deadline) (nested HSX rec n cs) w g.
Proof.
  intros HI HA. unfold lock_sx. apply (read_then HSX (eq (t, n)) cs); [done|done|].
  clear w g HI HA. intros w g HI HA. destruct HA as (Hg & Hx & Hsx & Hcs). assert (Hx' := Hsx eq_refl).
  injection Hx' as Hx1 Hx2. rewrite <- Hx1, Z.eqb_refl. apply nested_request; [by right|done|done|done|by repeat split].
Qed.

(** ** Unlocking *)

Definition released (r : ub_lock_result_t) w g : Prop := r = UB_LOCK_SUCCESS /\ Free w g.
Lemma released_stable r : lstable i (released r).
Proof. intros w g w' g' [Hr HF] Hrel. split; [done|by eapply Free_stable]. Qed.
#[local] Hint Resolve released_stable : core.

(** Nothing is lost by waking somebody before returning. *)
Lemma wake_then (p : prog local_world unit) w g :
  linv w g -> Free w g -> only lkeeps p -> lsafe i (p ;;; Ret UB_LOCK_SUCCESS) released w g.
Proof.
  intros HI HF Ho. apply (bind_lkeeps HNone anything []); [done|done|done|].
  intros _ w1 g1 HI1 HF1. by apply safe_ret.
Qed.

Lemma wake_waiters w g :
  linv w g -> Free w g ->
  lsafe i (do c <- waiting_count; (if 0 <? c then wake_after_unlock_exclusive node fuel else Ret tt) ;;; Ret UB_LOCK_SUCCESS)
    released w g.
Proof.
  intros HI HF. apply (bind_lkeeps HNone anything []); [done|done|apply only_queue|].
  intros c w1 g1 HI1 HF1. apply wake_then; [done|done|]. case_bool; auto. done.
Qed.

(** A lane value a reader of the lane may see. *)
Definition reader_lane (v : Z) : Prop := 0 <= v < 2 ^ 16 /\ v mod 2 ^ 15 < 2 ^ 14 /\ 1 <= v mod 2 ^ 14.

Lemma reader_sees w g :
  linv w g -> g i = HS ->
  shared_word tids (lock_word (ll w)) g /\ reader_lane (local_lock_lane_value (lock_word (ll w)) (local_lock_lane_for_tid t)).
Proof.
  intros HI Hg. destruct (inv_word _ _ HI) as [Hs|(j & Hj & Hoth & _)].
  - split; [done|]. assert (Hk := lane_for_tid_ok t). split; [apply lane_value_range|split].
    + rewrite (sw_lane _ _ _ Hs _ Hk). assert (H1 := sw_readers _ _ _ Hs _ Hk).
      assert (H2 := readers_nonneg tids g (local_lock_lane_for_tid t)). case_match.
      * rewrite Z.mod_add, Z.mod_small; lia.
      * rewrite Z.add_0_r, Z.mod_small; lia.
    + rewrite (lane_count _ _ _ _ Hs Hk). by apply (reader_counted tids g i t).
  - destruct (decide (i = j)) as [->|Hne]; [congruence|]. rewrite Hoth in Hg by done. done.
Qed.

Lemma release_s_round_safe v w g :
  linv w g -> At i HS anything [] w g -> reader_lane v ->
  lsafe i (on_ll (release_s_round (local_lock_lane_for_tid t) v))
    (fun r w g => match r with
                  | inl v => At i HS anything [] w g /\ reader_lane v
                  | inr r => (exists state, r = Some state) /\ Free w g end) w g.
Proof.
  intros HI HA (Hv & Hs & Hc). unfold release_s_round.
  rewrite sentinel_clear, (proj2 (Z.ltb_lt _ _)), count_of by done. rewrite (proj2 (Z.eqb_neq _ _)) by lia.
  assert (Hm := Z.mod_pos_bound v (2 ^ 14)). rewrite count_replace by lia.
  replace (v - v mod 2 ^ 14 + (v mod 2 ^ 14 - 1)) with (v - 1) by lia.
  cbn. apply (safe_act _ _ _ _ (At i HS anything [])); [auto|done|]. clear w g HI HA. intros w g HI HA.
  destruct (reader_sees w g HI (proj1 HA)) as [Hsw Hrl].
  destruct (Z.eqb_spec (local_lock_lane_value (lock_word (ll w)) (local_lock_lane_for_tid t)) v) as [He|He]; cbn.
  - exists (upd g i HNone). destruct HA as (Hg & _ & _ & Hcs).
    destruct (hold_step HNone w (lset l_ll (lset (l_lane (local_lock_lane_for_tid t)) (v - 1) (ll w)) w) g)
      as [HI' HG']; try done; try congruence.
    { left. rewrite <- He. by apply release_s_word. }
    split_and!; [done|done|]. apply (safe_read _ _ _ _ Free); [apply lw_eta|apply lguar_refl|auto| |].
    { unfold Free, At. rewrite upd_eq. done. }
    intros w1 g1 HI1 HF1. apply safe_ret; [|by split; [eexists|]].
    intros w2 g2 w3 g3 [Hr HF] Hrel. split; [done|by eapply Free_stable].
  - exists g. change (mkLocalWorld (ll w) (lnet w) (ub_waiting_count w) (in_cs w)) with (lset l_ll (ll w) w).
    rewrite lw_eta. split_and!; [done|apply lguar_refl|]. apply safe_ret; [|done].
    intros w2 g2 w3 g3 [HA2 Hr] Hrel. split; [by eapply At_stable|done].
Qed.

Lemma unlock_s_safe w g :
  linv w g -> At i HS anything [] w g -> lsafe i (unlock_s node fuel t) released w g.
Proof.
  intros HI HA. unfold unlock_s. eapply (safe_bind _ _ _ _ _ _ (fun r w g => (exists state, r = Some state) /\ Free w g)); [done| |].
  - unfold local_lock_try_release_s. apply (read_ll HS anything []); [done|done|]. clear w g HI HA. intros w g HI HA.
    apply (safe_lift_iter _ _ _ _ _ _ (fun v w g => At i HS anything [] w g /\ reader_lane v)).
    + clear w g HI HA. intros v w g HI [HA Hv]. by apply release_s_round_safe.
    + intros r w2 g2 w3 g3 [Hr HF] Hrel. split; [done|by eapply Free_stable].
    + done.
    + split; [done|]. by apply (reader_sees w g HI (proj1 HA)).
  - clear w g HI HA. intros r w g HI [[state ->] HF]. case_bool; [by apply wake_waiters|]. by apply safe_ret.
Qed.

(** The recursion count of a release. *)
Lemma drop_level h rec n cs (l : lens LocalLock Z) w g :
  h = HX \/ h = HSX ->
  (forall o, lget l o = (opart h o).2) ->
  (forall v o, opart h (lset l v o) = ((opart h o).1, v) /\ opart (other h) (lset l v o) = opart (other h) o /\
     lock_word (lset l v o) = lock_word o) ->
  linv w g -> At i h (eq (t, n)) cs w g ->
  lsafe i (if rec : bool then on_ll (rmw l (fun n => u32 (n - 1))) else Ret 0)
    (fun old w g => At i h (eq (t, if rec then u32 (n - 1) else n)) cs w g /\ (rec = true -> old = n)) w g.
Proof.
  intros Hh Hl1 Hl2 HI HA. destruct rec.
  - eapply safe_mono.
    + apply (write_owner h (eq (t, n)) (eq (t, u32 (n - 1))) cs (fun old => old = n)); [done|done|done|].
      intros o Ho. cbn. rewrite Hl1. destruct (Hl2 (u32 ((opart h o).2 - 1)) o) as (-> & -> & ->).
      rewrite <- Ho. cbn. auto.
    + cbn. intros b w1 g1 _ [H1 H2]. auto.
  - apply safe_ret; [|done]. intros w2 g2 w3 g3 [HA2 _] Hrel. split; [by eapply At_stable|done].
Qed.

(** The two stores that give up ownership. *)
Lemma drop_owner h n (l1 l2 : lens LocalLock Z) {B} (k : prog local_world B) Q w g :
  h = HX \/ h = HSX ->
  (forall v o, opart h (lset l1 v o) = (v, (opart h o).2) /\ opart (other h) (lset l1 v o) = opart (other h) o /\
     lock_word (lset l1 v o) = lock_word o) ->
  (forall v o, opart h (lset l2 v o) = ((opart h o).1, v) /\ opart (other h) (lset l2 v o) = opart (other h) o /\
     lock_word (lset l2 v o) = lock_word o) ->
  linv w g -> At i h (eq (t, n)) [] w g ->
  (forall w g, linv w g -> At i h (fun p => p.1 = 0) [] w g -> lsafe i k Q w g) ->
  lsafe i (on_ll (store (lset l2 0)) ;;; on_ll (store (lset l1 0)) ;;; k) Q w g.
Proof.
  intros Hh H1 H2 HI HA Hk. eapply safe_bind; [done| |].
  { apply (write_owner h (eq (t, n)) (fun p => p.1 = t) [] (fun _ => True)); [done|done|exact HA|].
    intros o Ho. cbn. destruct (H2 0 o) as (-> & -> & ->). cbn. rewrite <- Ho. auto. }
  clear w g HI HA. intros _ w g HI [HA _]. eapply safe_bind; [done| |].
  { apply (write_owner h (fun p => p.1 = t) (fun p => p.1 = 0) [] (fun _ => True)); [done|done|exact HA|].
    intros o Ho. cbn. destruct (H1 0 o) as (-> & -> & ->). auto. }
  clear w g HI HA. intros _ w g HI [HA _]. by apply Hk.
Qed.

(** A nested release only counts down. *)
Definition dropped (h : hold) (n : Z) cs (r : ub_lock_result_t) w g : Prop :=
  r = UB_LOCK_SUCCESS /\ At i h (eq (t, n - 1)) cs w g.
Lemma dropped_stable h n cs r : lstable i (dropped h n cs r).
Proof. intros w g w' g' [Hr HA] Hrel. split; [done|by eapply At_stable]. Qed.
#[local] Hint Resolve dropped_stable : core.

Lemma unlock_x_nested n cs w g :
  linv w g -> At i HX (eq (t, n)) cs w g -> 1 < n < 2 ^ 32 ->
  lsafe i (unlock_x node fuel true t) (dropped HX n cs) w g.
Proof.
  intros HI HA Hn. unfold unlock_x. apply (read_then HX (eq (t, n)) cs); [done|done|].
  clear w g HI HA. intros w g HI HA. assert (Hx := proj1 (proj2 HA) eq_refl). injection Hx as Hx1 Hx2.
  rewrite <- Hx1, Z.eqb_refl. cbn [negb]. eapply safe_bind; [done|by apply (drop_level HX true n cs); [left|..]|].
  clear w g HI HA Hx1 Hx2. intros old w g HI [HA Ho]. cbn beta iota zeta in HA. rewrite (Ho eq_refl). cbn [andb].
  rewrite (proj2 (Z.ltb_lt _ _)) by lia. apply safe_ret; [auto|]. split; [done|]. rewrite u32_small in HA by lia. done.
Qed.


Lemma sx_holder_sees w g :
  linv w g -> g i = HSX ->
  shared_word tids (lock_word (ll w)) g /\ 2 ^ 15 <= local_lock_lane_value (lock_word (ll w)) LOCAL_LOCK_SX_LANE /\
  (Z.land (lock_word (ll w)) LOCAL_LOCK_SX_FLAG =? 0) = false.
Proof.
  intros HI Hg. destruct (inv_word _ _ HI) as [Hs|(j & Hj & Hoth & _)].
  - destruct (release_sx_word tids _ g i t Hs Ht Hg) as [Hv _]. split_and!; [done|done|]. apply Z.eqb_neq.
    assert (Hr := sw_range _ _ _ Hs). change LOCAL_LOCK_SX_FLAG with (2 ^ 15). rewrite land_bit by lia.
    rewrite lane_value_div in Hv by done. change (2 ^ (16 * LOCAL_LOCK_SX_LANE)) with 1 in Hv. rewrite Z.div_1_r in Hv.
    Z.div_mod_to_equations. lia.
  - destruct (decide (i = j)) as [->|Hne]; [congruence|]. rewrite Hoth in Hg by done. done.
Qed.

(** The reads at the start of a release of SX. *)
Lemma unlock_sx_reads rec n cs Q w g :
  linv w g -> At i HSX (eq (t, n)) cs w g ->
  (forall old w g, linv w g -> At i HSX (eq (t, if rec : bool then u32 (n - 1) else n)) cs w g /\ (rec = true -> old = n) ->
     lsafe i (if rec && (1 <? old) then Ret UB_LOCK_SUCCESS else
       on_ll (store (lset l_sx_recursive 0)) ;;;
       on_ll (store (lset l_sx_owner 0)) ;;;
       do r <- on_ll local_lock_try_release_sx;
       match r with
       | None => Ret UB_LOCK_ERROR
       | Some state_after_release =>
           do c <- waiting_count;
           (if 0 <? c then
              if local_lock_state_is_idle state_after_release then wake_after_unlock_exclusive node fuel
              else
                do head_mode <- peek_head_waiting_mode_clean fuel;
                match head_mode with
                | Some UB_LOCK_SX => wake_after_unlock_exclusive node fuel
                | _ => Ret tt
                end
            else Ret tt) ;;;
           Ret UB_LOCK_SUCCESS
       end) Q w g) ->
  lsafe i (unlock_sx node fuel rec t) Q w g.
Proof.
  intros HI HA Hk. unfold unlock_sx. apply (read_then HSX (eq (t, n)) cs); [done|done|].
  clear w g HI HA. intros w g HI HA. assert (Hx := proj1 (proj2 (proj2 HA)) eq_refl). injection Hx as Hx1 Hx2.
  rewrite <- Hx1, Z.eqb_refl. cbn [negb]. apply (read_then HSX (eq (t, n)) cs); [done|done|].
  clear w g HI HA Hx1 Hx2. intros w g HI HA. rewrite (proj2 (proj2 (sx_holder_sees w g HI (proj1 HA)))).
  eapply safe_bind; [done|by apply (drop_level HSX rec n cs); [right|..]|].
  clear w g HI HA. intros old w g HI HA. by apply Hk.
Qed.

Lemma unlock_sx_nested n cs w g :
  linv w g -> At i HSX (eq (t, n)) cs w g -> 1 < n < 2 ^ 32 ->
  lsafe i (unlock_sx node fuel true t) (dropped HSX n cs) w g.
Proof.
  intros HI HA Hn. apply (unlock_sx_reads true n cs); [done|done|].
  clear w g HI HA. intros old w g HI [HA Ho]. rewrite (Ho eq_refl), (proj2 (Z.ltb_lt _ _)) by lia. cbn [andb].
  apply safe_ret; [auto|]. split; [done|]. cbn beta iota zeta in HA. by rewrite u32_small in HA by lia.
Qed.

Lemma release_sx_safe w g :
  linv w g -> At i HSX (fun p => p.1 = 0) [] w g ->
  lsafe i (on_ll local_lock_try_release_sx) (fun r w g => (exists state, r = Some state) /\ Free w g) w g.
Proof.
  intros HI HA. unfold local_lock_try_release_sx. cbn [bind rmw act lift].
  apply (safe_act _ _ _ _ (At i HSX (fun p => p.1 = 0) [])); [auto|done|]. clear w g HI HA. intros w g HI HA.
  destruct HA as (Hg & _ & Hsx & Hcs). specialize (Hsx eq_refl). destruct (sx_holder_sees w g HI Hg) as (Hsw & Hv & _).
  assert (Hr := lane_value_range (lock_word (ll w)) LOCAL_LOCK_SX_LANE).
  destruct (release_sx_word tids _ g i t Hsw Ht Hg) as [_ Hsw'].
  exists (upd g i HNone). cbn [fst snd lget lset l_lane]. rewrite clear_sx by done.
  destruct (hold_step HNone w (lset l_ll (lset (l_lane LOCAL_LOCK_SX_LANE) (local_lock_lane_value (lock_word (ll w)) LOCAL_LOCK_SX_LANE mod 2 ^ 15) (ll w)) w) g)
    as [HI' HG']; try done; try congruence.
  { by left. }
  split_and!; [done|done|]. rewrite sx_clear, (proj2 (Z.ltb_ge _ _)) by done.
  cbn [bind load act lift]. apply (safe_read _ _ _ _ Free); [apply lw_eta|apply lguar_refl|auto| |].
  { unfold Free, At. rewrite upd_eq. done. }
  intros w1 g1 HI1 HF1. apply safe_ret; [|by split; [eexists|]].
  intros w2 g2 w3 g3 [Hr' HF] Hrel. split; [done|by eapply Free_stable].
Qed.

Lemma unlock_sx_safe rec n w g :
  linv w g -> At i HSX (eq (t, n)) [] w g -> (rec = true -> n = 1) ->
  lsafe i (unlock_sx node fuel rec t) released w g.
Proof.
  intros HI HA Hn. apply (unlock_sx_reads rec n []); [done|done|].
  clear w g HI HA. intros old w g HI [HA Ho].
  assert (rec && (1 <? old) = false) as -> by (destruct rec; [rewrite Ho, Hn|]; done).
  eapply drop_owner; [by right|done|done|done|exact HA|]. clear w g HI HA. intros w g HI HA.
  eapply safe_bind; [done|by apply release_sx_safe|]. clear w g HI HA. intros r w g HI [[state ->] HF].
  apply (bind_lkeeps HNone anything []); [done|done|apply only_queue|].
  intros c w1 g1 HI1 HF1. apply wake_then; [done|done|]. unfold peek_head_waiting_mode_clean. lonly.
Qed.

Lemma unlock_x_safe rec n w g :
  linv w g -> At i HX (eq (t, n)) [] w g -> (rec = true -> n = 1) ->
  lsafe i (unlock_x node fuel rec t) released w g.
Proof.
  intros HI HA Hn. unfold unlock_x. apply (read_then HX (eq (t, n)) []); [done|done|].
  clear w g HI HA. intros w g HI HA. assert (Hx := proj1 (proj2 HA) eq_refl). injection Hx as Hx1 Hx2.
  rewrite <- Hx1, Z.eqb_refl. cbn [negb]. eapply safe_bind; [done|by apply (drop_level HX rec n []); [left|..]|].
  clear w g HI HA Hx1 Hx2. intros old w g HI [HA Ho].
  assert (rec && (1 <? old) = false) as -> by (destruct rec; [rewrite Ho, Hn|]; done).
  eapply drop_owner; [by left|done|done|done|exact HA|]. clear w g HI HA Ho. intros w g HI HA.
  eapply (safe_bind _ _ _ _ _ _ (fun _ => Free)); [done| |intros _ w1 g1 HI1 HF1; by apply wake_waiters].
  cbn [on_ll store act lift]. apply (safe_act _ _ _ _ (At i HX (fun p => p.1 = 0) [])); [auto|done|].
  clear w g HI HA. intros w g HI (Hg & Hx & _ & Hcs). exists (upd g i HNone). cbn [fst snd].
  destruct (hold_step HNone w (lset l_ll (lset l_word 0 (ll w)) w) g) as [HI' HG']; try done; try congruence.
  { left. apply empty_word. intros j. unfold upd. case_decide; [done|].
    destruct (inv_word _ _ HI) as [Hs|(m & Hm & Hoth & _)]; [by destruct (sw_no_x _ _ _ Hs i)|].
    destruct (decide (i = m)) as [->|Hne]; [by apply Hoth|]. rewrite Hoth in Hg by done. done. }
  { by intros _; apply Hx. }
  split_and!; [done|done|]. apply safe_ret; [auto|]. unfold Free, At. rewrite upd_eq. done.
Qed.
(** ** Critical sections *)

Lemma local_enter_step m h P w g :
  linv w g -> At i h P [] w g -> h = hold_of m ->
  linv (enter i m w) g /\ lguar i (w, g) (enter i m w, g) /\ At i h P [(i, m)] (enter i m w) g.
Proof.
  intros [H1 H2 H3 H4 H5] (Hg & Hx & Hsx & Hcs) Hh. split_and!.
  - split; try done. intros j m' [He|Hin]%elem_of_cons; [|by apply H5]. injection He as -> ->. congruence.
  - split_and!; [done|by left|by left|]. intros j Hj. unfold cs_of, enter. cbn [fst in_cs].
    rewrite filter_cons, decide_False by (cbn; congruence). done.
  - split_and!; try done. unfold cs_of, enter in *. cbn [in_cs]. rewrite filter_cons, decide_True by done. by rewrite Hcs.
Qed.

Lemma local_leave_step h P cs w g :
  linv w g -> At i h P cs w g ->
  linv (leave i w) g /\ lguar i (w, g) (leave i w, g) /\ At i h P [] (leave i w) g.
Proof.
  intros [H1 H2 H3 H4 H5] (Hg & Hx & Hsx & Hcs).
  assert (Hf : forall j, cs_of j (leave i w) = if decide (j = i) then [] else cs_of j w).
  { intros j. unfold cs_of, leave. cbn [in_cs]. clear Hcs H5. induction (in_cs w) as [|p l IH]; [by case_decide|].
    rewrite filter_cons. destruct (decide (p.1 <> i)) as [Hp|Hp]; rewrite ?filter_cons; repeat case_decide;
      try congruence; subst; try done; exfalso; by apply Hp. }
  split_and!.
  - split; try done. intros j m [_ Hin]%list_elem_of_filter. by apply H5.
  - split_and!; [done|by left|by left|]. intros j Hj. cbn [fst]. rewrite Hf. by rewrite decide_False.
  - split_and!; try done. rewrite Hf. by rewrite decide_True.
Qed.

Lemma lock_mode_safe m rec deadline w g :
  m <> UB_LOCK_I -> linv w g -> Free w g ->
  lsafe i (lock_mode node fuel m rec t deadline) (lock_post (hold_of m)) w g.
Proof.
  intros Hm HI HF. destruct m; try done; [by apply lock_s_safe|by apply lock_sx_safe|by apply lock_x_safe].
Qed.

Lemma unlock_mode_safe m rec w g :
  m <> UB_LOCK_I -> linv w g -> At i (hold_of m) (full (hold_of m)) [] w g ->
  lsafe i (unlock_mode node fuel m rec t) released w g.
Proof.
  intros Hm HI HA. destruct m; try done.
  - by apply unlock_s_safe.
  - by apply (unlock_sx_safe rec 1).
  - by apply (unlock_x_safe rec 1).
Qed.

(** Nested requests of SX and X leave the recursion count where it was. *)
Lemma nest_safe m rec deadline d n cs w g :
  m = UB_LOCK_SX \/ m = UB_LOCK_X -> 1 <= n -> n + Z.of_nat d < 2 ^ 32 ->
  linv w g -> At i (hold_of m) (eq (t, n)) cs w g ->
  lsafe i (nest node fuel m rec t deadline d) (fun ok w g => ok = true /\ At i (hold_of m) (eq (t, n)) cs w g) w g.
Proof.
  intros Hm. revert n w g. induction d as [|d IH]; intros n w g Hn Hd HI HA; cbn [nest].
  - apply safe_ret; [|done]. intros w2 g2 w3 g3 [_ HA2] Hrel. split; [done|by eapply At_stable].
  - apply (safe_bind _ _ _ _ _ _ (nested (hold_of m) rec n cs)); [done| |].
    { destruct Hm as [-> | ->]; [by apply lock_sx_nested|by apply lock_x_nested]. }
    clear w g HI HA. intros r w g HI [-> HA]. destruct rec; cbn [is_success]; cbn beta iota zeta in HA.
    + rewrite u32_small in HA by lia. change (is_success UB_LOCK_SUCCESS) with true. cbv iota.
      eapply safe_bind; [done|apply (IH (n + 1)); [lia|lia|done|done]|]. clear w g HI HA. intros ok w g HI [-> HA].
      apply (safe_bind _ _ _ _ _ _ (dropped (hold_of m) (n + 1) cs)); [done| |].
      { destruct Hm as [-> | ->]; [apply unlock_sx_nested; [done|done|lia]|apply unlock_x_nested; [done|done|lia]]. }
      clear w g HI HA. intros r w g HI [-> HA]. apply safe_ret.
      * intros w2 g2 w3 g3 [_ HA2] Hrel. split; [done|by eapply At_stable].
      * split; [done|]. replace (n + 1 - 1) with n in HA by lia. done.
    + change (is_success UB_LOCK_CONFLICT) with false. cbv iota. apply safe_ret; [|done].
      intros w2 g2 w3 g3 [_ HA2] Hrel. split; [done|by eapply At_stable].
Qed.

Lemma local_client_safe (c : client_spec) w g :
  wf_client c -> ctid c = t -> linv w g -> Free w g ->
  lsafe i (client node fuel i c) (fun ok _ _ => ok = true) w g.
Proof.
  intros [Hm Hdep Hs] Hc HI HF. unfold client. rewrite Hc.
  eapply safe_bind; [done|by apply lock_mode_safe|]. clear w g HI HF. intros r w g HI HA.
  unfold lock_post in HA. destruct (is_success r); cbn [negb]; [|by apply safe_ret].
  cbn [bind store act]. apply (safe_act _ _ _ _ (At i (hold_of (cmode c)) (full (hold_of (cmode c))) [])); [auto|done|].
  clear w g HI HA. intros w g HI HA. exists g. cbn [fst snd].
  destruct (local_enter_step (cmode c) _ _ w g HI HA eq_refl) as (HI' & HG' & HA'). split_and!; [done|done|].
  eapply (safe_bind _ _ _ _ _ _ (fun ok w g => ok = true /\
    At i (hold_of (cmode c)) (full (hold_of (cmode c))) [(i, cmode c)] w g)); [done| |].
  { destruct (cmode c) eqn:Em; try done.
    - rewrite Hs by done. apply safe_ret; [|done]. intros w2 g2 w3 g3 [_ HA2] Hrel. split; [done|by eapply At_stable].
    - apply (nest_safe UB_LOCK_SX); [by left|lia|lia|done|done].
    - apply (nest_safe UB_LOCK_X); [by right|lia|lia|done|done]. }
  intros ok w1 g1 HI1 [-> HA1]. cbn [bind store act].
  apply (safe_act _ _ _ _ (At i (hold_of (cmode c)) (full (hold_of (cmode c))) [(i, cmode c)])); [auto|done|].
  clear w g HI HA HI' HG' HA' w1 g1 HI1 HA1. intros w g HI HA. exists g. cbn [fst snd].
  destruct (local_leave_step _ _ _ w g HI HA) as (HI' & HG' & HA'). split_and!; [done|done|].
  eapply safe_bind; [done|by apply unlock_mode_safe|]. intros u w1 g1 HI1 [-> _]. by apply safe_ret.
Qed.
End Thread.
End Local.

(** * The theorem *)

Definition idle_lock (o : LocalLock) : Prop := lock_word o = 0 /\ lock_x_owner o = 0 /\ lock_sx_owner o = 0.

Lemma init_idle env o : idle_lock (run init_ env o).2.
Proof.
  assert (H : forall p : prog LocalLock unit, only llkeeps p -> forall o, idle_lock o -> idle_lock (run p env o).2).
  { intros p Hp o' (H1 & H2 & H3). assert (H := run_only llkeeps p env o' Hp). destruct H as (E1 & E2 & _ & E3 & _).
    unfold idle_lock. by rewrite E1, E2, E3. }
  unfold init_. assert (Hq : only llkeeps create_wait_queue).
  { unfold create_wait_queue. eapply only_lift; [|apply only_any]. by intros o' q _. }
  generalize dependent create_wait_queue. intros p Hp. cbn. apply H; [done|]. by split_and!.
Qed.

(** C7: the local lock keeps its modes apart.  Threads with distinct non-zero ids use a lock
    that [init_] set up, each in its mode, with nested requests, timeouts, spurious failures
    and wake-ups in any interleaving: two threads that are inside at the same time are
    compatible (X with nobody, SX not with SX), and every release of a thread that
    got the lock succeeds. *)
Theorem local_lock_compat node fuel clients env o net waiting w' ps' :
  wf_tids (ctid <$> clients) -> Forall wf_client clients ->
  reachable any_answer (mkLocalWorld (run init_ env o).2 net waiting [], imap (client node fuel) clients) (w', ps') ->
  (forall i j m m', i <> j -> (i, m) ∈ in_cs w' -> (j, m') ∈ in_cs w' -> compatible (hold_of m) (hold_of m')) /\
  (forall i ok, ps' !! i = Some (Ret ok) -> ok = true).
Proof.
  intros Ht Hc. generalize (init_idle env o). generalize ((run init_ env o).2). intros o0 (Hw & Hx & Hsx) Hr.
  set (tids := ctid <$> clients) in *. set (w0 := mkLocalWorld o0 net waiting []) in *.
  assert (HI0 : linv tids w0 (fun _ => HNone)).
  { split; cbn; rewrite ?Hw, ?Hx, ?Hsx; try (by left); try done.
    - left. by apply empty_word.
    - intros i m H. by apply elem_of_nil in H. }
  destruct (pool_safe_reachable any_answer (linv tids) lguar (fun _ (ok : bool) _ _ => ok = true)
    (w0, imap (client node fuel) clients) (w', ps') (fun _ => HNone)) as [g Hg]; [|exact Hr|].
  - split; [done|]. intros i p Hp. cbn in Hp. rewrite list_lookup_imap in Hp.
    apply fmap_Some in Hp as (c & Hi & ->).
    apply (local_client_safe tids Ht node fuel i (ctid c)); [|by apply (Forall_lookup_1 _ _ _ _ Hc Hi)|done|done|done].
    unfold tids. by rewrite list_lookup_fmap, Hi.
  - split; [|intros i ok Hi; by apply (pool_safe_ret _ _ _ _ _ _ _ _ Hg Hi)].
    destruct Hg as [HI _]. intros i j m m' Hne Hi Hj.
    rewrite <- (inv_cs _ _ _ HI i m Hi), <- (inv_cs _ _ _ HI j m' Hj).
    exact (word_compatible tids (lock_word (ll w')) g i j (inv_fin _ _ _ HI) (inv_word _ _ _ HI) Hne).
Qed.

(** A reader, an SX thread with a nested request and an X thread; the first two are inside. *)
Definition local_clients : list client_spec :=
  [Client 1 UB_LOCK_S false 0 0; Client 2 UB_LOCK_SX true 0 1; Client 3 UB_LOCK_X false 0 0].
Definition local_blank : LocalLock :=
  mkLocalLock 5 (WaitQueue 3 1 9 (replicate (Z.to_nat UB_MAX_CAPACITY) (Slot 2 UB_LOCK_S 5))) 1 2 3 4 5 UB_LOCK_S
    true true GLOBAL_HELD 9.
Definition local_start : config (S := local_world) (A := bool) :=
  (mkLocalWorld (run init_ [] local_blank).2 (Network [no_runtime] []) 0 [], imap (client 0 3) local_clients).
Definition local_demo : config := sched local_start (replicate 7 (0%nat, 0) ++ replicate 8 (1%nat, 0)).

Lemma local_clients_tids : wf_tids (ctid <$> local_clients).
Proof.
  change (ctid <$> local_clients) with [1; 2; 3].
  split; [apply (bool_decide_unpack _); vm_compute; exact I|repeat constructor; lia].
Qed.
Lemma local_clients_wf : Forall wf_client local_clients.
Proof. repeat constructor; cbn; try discriminate; lia. Qed.

Lemma local_demo_reachable : reachable any_answer local_start (local_demo.1, local_demo.2).
Proof. rewrite <- surjective_pairing. apply sched_reachable. Qed.

Lemma local_lock_compat_witness :
  in_cs local_demo.1 = [(1%nat, UB_LOCK_SX); (0%nat, UB_LOCK_S)] /\ compatible (hold_of UB_LOCK_SX) (hold_of UB_LOCK_S).
Proof.
  assert (Hin : in_cs local_demo.1 = [(1%nat, UB_LOCK_SX); (0%nat, UB_LOCK_S)]) by (vm_compute; reflexivity).
  split; [exact Hin|]. assert (Hr := local_demo_reachable). unfold local_start in Hr.
  refine (proj1 (local_lock_compat 0 3 local_clients [] local_blank (Network [no_runtime] []) 0 local_demo.1 local_demo.2
    local_clients_tids local_clients_wf Hr)
    1%nat 0%nat UB_LOCK_SX UB_LOCK_S _ _ _).
  - discriminate.
  - rewrite Hin. apply list_elem_of_here.
  - rewrite Hin. apply list_elem_of_further, list_elem_of_here.
Defined.
