(* ===== verification/LocalSeq.v ===== *)
(** The local lock, one operation at a time (LocalLock.v, sequential reading).

    The state word is an encoding of an abstract read-write lock: [local_word_refines]
    says that each of the six attempts on the word does what the abstract lock
    does.  [local_release_wakes_head] describes a release with waiters in the queue,
    [try_inc_terminates] the reference count on the global lock. *)

From S2P Require Import Prelude Atomic CommTypes LockTypes LockRuntime RingQueue LocalLock LocalExcl.

(** * The word as an abstract lock *)

(** Either X, or the number of readers of each lane and whether SX is held. *)
Inductive lock_abs : Type := Exclusive | Shared (c0 c1 c2 c3 : Z) (sx : bool).

Definition count_at (c0 c1 c2 c3 k : Z) : Z :=
  if k =? 0 then c0 else if k =? 1 then c1 else if k =? 2 then c2 else c3.
Definition with_count (c0 c1 c2 c3 : Z) (sx : bool) (k v : Z) : lock_abs :=
  if k =? 0 then Shared v c1 c2 c3 sx else if k =? 1 then Shared c0 v c2 c3 sx
  else if k =? 2 then Shared c0 c1 v c3 sx else Shared c0 c1 c2 v sx.

Definition encode (a : lock_abs) : Z :=
  match a with
  | Exclusive => LOCAL_LOCK_X_STATE
  | Shared c0 c1 c2 c3 sx => c0 + (if sx then 2 ^ 15 else 0) + c1 * 2 ^ 16 + c2 * 2 ^ 32 + c3 * 2 ^ 48
  end.

Definition wf_abs (a : lock_abs) : Prop :=
  match a with
  | Exclusive => True
  | Shared c0 c1 c2 c3 _ => 0 <= c0 < 2 ^ 14 /\ 0 <= c1 < 2 ^ 14 /\ 0 <= c2 < 2 ^ 14 /\ 0 <= c3 < 2 ^ 14
  end.

(** The abstract operations; a reader is refused by X and by a full lane, SX by X and SX,
    X by everybody. *)
Definition abs_acquire_s (k : Z) (a : lock_abs) : bool * lock_abs :=
  match a with
  | Shared c0 c1 c2 c3 sx =>
      if count_at c0 c1 c2 c3 k =? 2 ^ 14 - 1 then (false, a)
      else (true, with_count c0 c1 c2 c3 sx k (count_at c0 c1 c2 c3 k + 1))
  | Exclusive => (false, a)
  end.
Definition abs_release_s (k : Z) (a : lock_abs) : bool * lock_abs :=
  match a with
  | Shared c0 c1 c2 c3 sx =>
      if count_at c0 c1 c2 c3 k =? 0 then (false, a)
      else (true, with_count c0 c1 c2 c3 sx k (count_at c0 c1 c2 c3 k - 1))
  | Exclusive => (false, a)
  end.
Definition abs_acquire_x (a : lock_abs) : bool * lock_abs :=
  match a with
  | Shared 0 0 0 0 false => (true, Exclusive)
  | _ => (false, a)
  end.
Definition abs_acquire_sx (a : lock_abs) : bool * lock_abs :=
  match a with
  | Shared c0 c1 c2 c3 false => (true, Shared c0 c1 c2 c3 true)
  | _ => (false, a)
  end.
Definition abs_release_sx (a : lock_abs) : bool * lock_abs :=
  match a with
  | Shared c0 c1 c2 c3 true => (true, Shared c0 c1 c2 c3 false)
  | _ => (false, a)
  end.
Definition abs_readers (a : lock_abs) : Z :=
  match a with Shared c0 c1 c2 c3 _ => c0 + c1 + c2 + c3 | Exclusive => 0 end.

#[local] Arguments Z.mul : simpl never.
#[local] Arguments Z.add : simpl never.
#[local] Arguments Z.sub : simpl never.

Ltac words := Z.div_mod_to_equations; lia.

Lemma encode_range a : wf_abs a -> 0 <= encode a < 2 ^ 64.
Proof. destruct a as [|c0 c1 c2 c3 sx]; cbn [wf_abs encode]; [by vm_compute|]. intros. case_bool; lia. Qed.

Lemma encode_lane c0 c1 c2 c3 sx k :
  lane_ok k -> wf_abs (Shared c0 c1 c2 c3 sx) ->
  local_lock_lane_value (encode (Shared c0 c1 c2 c3 sx)) k =
  count_at c0 c1 c2 c3 k + (if (k =? 0) && sx then 2 ^ 15 else 0).
Proof.
  intros Hk (H0 & H1 & H2 & H3). cbn [encode]. rewrite lane_value_div by (unfold lane_ok in Hk; lia).
  destruct sx; lanes Hk; cbn [count_at Z.eqb andb]; cbv [count_at]; cbn [Z.eqb Pos.eqb andb];
    words.
Qed.

(** Replacing the contents of a lane. *)
Lemma encode_set_lane c0 c1 c2 c3 sx k v :
  lane_ok k -> wf_abs (Shared c0 c1 c2 c3 sx) ->
  set_lane k (v + (if (k =? 0) && sx then 2 ^ 15 else 0)) (encode (Shared c0 c1 c2 c3 sx)) =
  encode (with_count c0 c1 c2 c3 sx k v).
Proof.
  intros Hk Hw. unfold set_lane. rewrite encode_lane by done. unfold LOCAL_LOCK_READER_LANE_BITS.
  lanes Hk; cbv [count_at with_count]; cbn [Z.eqb Pos.eqb andb encode]; destruct sx; lia.
Qed.

Lemma with_count_wf c0 c1 c2 c3 sx k v :
  wf_abs (Shared c0 c1 c2 c3 sx) -> 0 <= v < 2 ^ 14 -> wf_abs (with_count c0 c1 c2 c3 sx k v).
Proof. intros (? & ? & ? & ?) Hv. unfold with_count. repeat case_bool; cbn; lia. Qed.

Lemma count_at_wf c0 c1 c2 c3 sx k :
  wf_abs (Shared c0 c1 c2 c3 sx) -> 0 <= count_at c0 c1 c2 c3 k < 2 ^ 14.
Proof. intros (? & ? & ? & ?). unfold count_at. repeat case_bool; lia. Qed.

Lemma x_flag_clear c0 c1 c2 c3 sx :
  wf_abs (Shared c0 c1 c2 c3 sx) -> (Z.land (encode (Shared c0 c1 c2 c3 sx)) LOCAL_LOCK_X_FLAG =? 0) = true.
Proof.
  intros Hw. change LOCAL_LOCK_X_FLAG with (2 ^ 31). rewrite land_bit by lia. apply Z.eqb_eq.
  assert (H := encode_range _ Hw). destruct Hw as (? & ? & ? & ?). cbn [encode] in *. destruct sx; words.
Qed.

(** The fields of a lane that holds [c] readers. *)
Lemma lane_fields c (b : bool) :
  0 <= c < 2 ^ 14 ->
  let v := c + (if b then 2 ^ 15 else 0) in
  0 <= v < 2 ^ 16 /\ v mod 2 ^ 14 = c /\ v mod 2 ^ 15 < 2 ^ 14 /\ (v <? 2 ^ 15) = negb b.
Proof.
  intros Hc v. unfold v. destruct b; split_and!; words.
Qed.

Definition spurious (env : list Z) : bool := match env with z :: _ => negb (z =? 0) | [] => false end.

(** A single compare-exchange attempt: [r] unless it fails spuriously. *)
Definition attempts (p : prog LocalLock bool) (env : list Z) (o : LocalLock) (a : lock_abs) (r : bool * lock_abs) : Prop :=
  exists env', run p env o =
    (Some (r.1 && negb (spurious env)), env', lset l_word (encode (if spurious env then a else r.2)) o).

Lemma word_eta o : lset l_word (lock_word o) o = o.
Proof. by destruct o. Qed.

Lemma fails_attempt p env o a : lock_word o = encode a -> run p env o = (Some false, env, o) -> attempts p env o a (false, a).
Proof. intros He Hr. exists env. rewrite Hr. cbn [fst snd andb]. case_bool; by rewrite <- He, word_eta. Qed.

(** The compare-exchange at the end of an attempt. *)
Lemma cas_attempt (l : lens LocalLock Z) v v' env o a a' :
  lock_word o = encode a -> lget l o = v -> lset l v' o = lset l_word (encode a') o ->
  attempts (do '(ok, _) <- cas_weak l v v'; Ret (ok : bool)) env o a (true, a').
Proof.
  intros He Hg Hs. unfold attempts, cas_weak. destruct env as [|z env]; cbn [bind ask run spurious].
  - cbn. rewrite Hg, Z.eqb_refl. cbn. exists []. by rewrite Hs.
  - destruct (z =? 0); cbn; exists env.
    + rewrite Hg, Z.eqb_refl. cbn. by rewrite Hs.
    + destruct o. cbn in *. by rewrite He.
Qed.

Lemma acquire_s_refines t env a o :
  wf_abs a -> lock_word o = encode a ->
  attempts (local_lock_try_acquire_s t) env o a (abs_acquire_s (local_lock_lane_for_tid t) a).
Proof.
  intros Hw He. assert (Hk := lane_for_tid_ok t). unfold local_lock_try_acquire_s.
  generalize dependent (local_lock_lane_for_tid t). intros k Hk. cbn [bind load act]. unfold attempts.
  rewrite run_act. cbn [fst snd]. rewrite He. destruct a as [|c0 c1 c2 c3 sx].
  { apply fails_attempt; [done|]. by lanes Hk. }
  rewrite x_flag_clear, encode_lane by done. cbn [negb abs_acquire_s].
  assert (Hc := count_at_wf _ _ _ _ _ k Hw). destruct (lane_fields _ ((k =? 0) && sx) Hc) as (Hv & Hm & Hm' & _).
  rewrite sentinel_clear, (proj2 (Z.ltb_lt _ _)) by done. cbn [negb]. rewrite count_of, Hm by done.
  change LOCAL_LOCK_READER_COUNT_MASK with (2 ^ 14 - 1) at 1.
  destruct (Z.eqb_spec (count_at c0 c1 c2 c3 k) (2 ^ 14 - 1)); [by apply fails_attempt|].
  rewrite count_replace, Hm by lia. apply cas_attempt; [done| |].
  - cbn. by rewrite He, encode_lane.
  - unfold l_lane. cbn [lset]. f_equal. rewrite He, <- encode_set_lane by done. f_equal. lia.
Qed.

Lemma acquire_x_refines env a o :
  wf_abs a -> lock_word o = encode a -> attempts local_lock_try_acquire_x env o a (abs_acquire_x a).
Proof.
  intros Hw He. unfold local_lock_try_acquire_x. cbn [bind load act]. unfold attempts. rewrite run_act.
  cbn [fst snd]. rewrite He. unfold local_lock_state_is_idle. destruct (Z.eqb_spec (encode a) 0) as [Hz|Hz]; cbn [negb].
  - assert (abs_acquire_x a = (true, Exclusive)) as ->.
    { destruct a as [|c0 c1 c2 c3 sx]; [by vm_compute in Hz|]. destruct Hw as (? & ? & ? & ?). cbn [encode] in Hz.
      destruct sx; [lia|]. assert (c0 = 0 /\ c1 = 0 /\ c2 = 0 /\ c3 = 0) as (-> & -> & -> & ->) by lia. done. }
    by apply cas_attempt.
  - assert (abs_acquire_x a = (false, a)) as ->; [|by apply fails_attempt].
    destruct a as [|c0 c1 c2 c3 sx]; [done|]. by destruct c0, c1, c2, c3, sx.
Qed.

Lemma sx_mask_test c0 c1 c2 c3 sx :
  wf_abs (Shared c0 c1 c2 c3 sx) ->
  (Z.land (encode (Shared c0 c1 c2 c3 sx))
     (Z.lor (Z.lor LOCAL_LOCK_SX_FLAG LOCAL_LOCK_X_FLAG) LOCAL_LOCK_READER_SENTINEL_MASK) =? 0) = negb sx.
Proof.
  intros Hw. change (Z.lor (Z.lor LOCAL_LOCK_SX_FLAG LOCAL_LOCK_X_FLAG) LOCAL_LOCK_READER_SENTINEL_MASK)
    with (Z.lor (2 ^ 15) (Z.lor (2 ^ 31) (Z.lor (2 ^ 14) (Z.lor (2 ^ 30) (Z.lor (2 ^ 46) (2 ^ 62)))))).
  assert (He := encode_range _ Hw). destruct Hw as (? & ? & ? & ?).
  assert (Hbit : forall n, 0 <= n -> (encode (Shared c0 c1 c2 c3 sx) / 2 ^ n) mod 2 = 0 ->
    Z.land (encode (Shared c0 c1 c2 c3 sx)) (2 ^ n) = 0).
  { intros n Hn Hz. rewrite land_bit, Hz by lia. lia. }
  rewrite !Z.land_lor_distr_r. rewrite (Hbit 31), (Hbit 14), (Hbit 30), (Hbit 46), (Hbit 62);
    try lia; try (cbn [encode] in *; destruct sx; words).
  rewrite !Z.lor_0_r, land_bit by lia. destruct sx; [apply Z.eqb_neq|apply Z.eqb_eq]; cbn [encode] in *; words.
Qed.

Lemma acquire_sx_refines env a o :
  wf_abs a -> lock_word o = encode a -> attempts local_lock_try_acquire_sx env o a (abs_acquire_sx a).
Proof.
  intros Hw He. unfold local_lock_try_acquire_sx. cbn [bind load act]. unfold attempts. rewrite run_act.
  cbn [fst snd]. rewrite He. destruct a as [|c0 c1 c2 c3 sx]; [by apply fails_attempt|].
  rewrite sx_mask_test, encode_lane by (done || by left). rewrite negb_involutive.
  destruct sx; cbn [abs_acquire_sx andb Z.eqb]; [by apply fails_attempt|].
  change (count_at c0 c1 c2 c3 LOCAL_LOCK_SX_LANE) with c0. rewrite andb_false_r, Z.add_0_r.
  assert (Hc := Hw). destruct Hc as (Hc & _).
  assert (Z.land c0 (Z.lor LOCAL_LOCK_SX_FLAG LOCAL_LOCK_READER_SENTINEL) = 0) as ->.
  { rewrite Z.land_lor_distr_r. apply Z.lor_eq_0_iff. split; apply Z.eqb_eq;
      [rewrite sx_clear by lia|rewrite sentinel_clear by lia]; apply Z.ltb_lt; [lia|rewrite Z.mod_small; lia]. }
  cbn [negb Z.eqb]. rewrite set_sx by lia. apply cas_attempt; [done| |].
  - cbn. rewrite He, encode_lane by (done || by left). cbn. lia.
  - unfold l_lane. cbn [lset]. f_equal. rewrite He. unfold set_lane. rewrite encode_lane by (done || by left).
    cbn [encode]. unfold LOCAL_LOCK_SX_LANE, LOCAL_LOCK_READER_LANE_BITS. cbv [count_at]. cbn. lia.
Qed.

(** A release: the state it leaves, read back. *)
Definition releases (p : prog LocalLock (option Z)) (env : list Z) (o : LocalLock) (r : bool * lock_abs) : Prop :=
  run p env o = (Some (if r.1 then Some (encode r.2) else None), env, lset l_word (encode r.2) o).

Lemma fails_release p env o a : lock_word o = encode a -> run p env o = (Some None, env, o) -> releases p env o (false, a).
Proof. intros He Hr. unfold releases. rewrite Hr. cbn [fst snd]. by rewrite <- He, word_eta. Qed.

Lemma release_s_refines fuel t env a o :
  (1 <= fuel)%nat -> wf_abs a -> lock_word o = encode a ->
  releases (local_lock_try_release_s fuel t) env o (abs_release_s (local_lock_lane_for_tid t) a).
Proof.
  intros Hf Hw He. assert (Hk := lane_for_tid_ok t). unfold local_lock_try_release_s.
  generalize dependent (local_lock_lane_for_tid t). intros k Hk. cbn [bind load act]. unfold releases.
  rewrite run_act, iter_round by done. cbn [fst snd]. rewrite He. unfold release_s_round. destruct a as [|c0 c1 c2 c3 sx].
  { apply fails_release; [done|]. by lanes Hk. }
  rewrite encode_lane by done. cbn [abs_release_s].
  assert (Hc := count_at_wf _ _ _ _ _ k Hw). destruct (lane_fields _ ((k =? 0) && sx) Hc) as (Hv & Hm & Hm' & _).
  rewrite sentinel_clear, (proj2 (Z.ltb_lt _ _)), count_of, Hm by done.
  destruct (Z.eqb_spec (count_at c0 c1 c2 c3 k) 0); [by apply fails_release|].
  rewrite count_replace, Hm by lia. cbn [bind cas_strong act]. rewrite run_act. cbn [lget l_lane].
  rewrite He, encode_lane, Z.eqb_refl by done. cbn [fst snd bind load act run lset]. cbn [run lock_word lset l_word].
  replace (_ - _ + (_ - 1)) with (count_at c0 c1 c2 c3 k - 1 + (if (k =? 0) && sx then 2 ^ 15 else 0)) by lia.
  rewrite <- encode_set_lane by done. cbn [lset l_lane l_word lock_word]. by rewrite He.
Qed.

Lemma release_sx_refines env a o :
  wf_abs a -> lock_word o = encode a -> a <> Exclusive -> releases local_lock_try_release_sx env o (abs_release_sx a).
Proof.
  intros Hw He Ha. unfold local_lock_try_release_sx, releases. destruct a as [|c0 c1 c2 c3 sx]; [done|].
  cbn [bind rmw act]. rewrite run_act. cbn [lget lset l_lane fst snd].
  assert (Hl := encode_lane c0 c1 c2 c3 sx LOCAL_LOCK_SX_LANE (or_introl eq_refl) Hw).
  change (count_at c0 c1 c2 c3 LOCAL_LOCK_SX_LANE) with c0 in Hl.
  assert (Hc := Hw). destruct Hc as (Hc & _). destruct (lane_fields c0 sx Hc) as (Hv & _ & Hm & Hb).
  rewrite Z.eqb_refl in Hl. cbn [andb] in Hl. rewrite He, Hl, sx_clear, clear_sx, Hb by done.
  assert (Hs : set_lane LOCAL_LOCK_SX_LANE ((c0 + (if sx then 2 ^ 15 else 0)) mod 2 ^ 15) (encode (Shared c0 c1 c2 c3 sx))
    = encode (Shared c0 c1 c2 c3 false)).
  { unfold set_lane. rewrite Hl. unfold LOCAL_LOCK_SX_LANE, LOCAL_LOCK_READER_LANE_BITS. cbn [encode].
    destruct sx; words. }
  rewrite Hs. destruct sx; cbn [negb]; cbn [bind load act run abs_release_sx fst snd]; [|done].
  cbn [run lock_word lset l_word]. done.
Qed.

Lemma reader_count_encode a : wf_abs a -> local_lock_reader_count (encode a) = abs_readers a.
Proof.
  intros Hw. unfold local_lock_reader_count. change (seqZ 0 LOCAL_LOCK_READER_LANES) with [0; 1; 2; 3].
  destruct a as [|c0 c1 c2 c3 sx]; [by vm_compute|].
  assert (Hl : forall k, lane_ok k ->
    Z.land (local_lock_lane_value (encode (Shared c0 c1 c2 c3 sx)) k) LOCAL_LOCK_READER_COUNT_MASK = count_at c0 c1 c2 c3 k).
  { intros k Hk. rewrite encode_lane by done. change LOCAL_LOCK_READER_COUNT_MASK with (2 ^ 14 - 1). rewrite land_mask by lia.
    by apply (lane_fields _ ((k =? 0) && sx) (count_at_wf _ _ _ _ _ k Hw)). }
  cbn [foldl]. rewrite !Hl by (unfold lane_ok; lia). destruct Hw as (? & ? & ? & ?). cbv [count_at]. cbn [Z.eqb Pos.eqb abs_readers].
  rewrite (u32_small (0 + c0)), (u32_small (0 + c0 + c1)), (u32_small (0 + c0 + c1 + c2)), u32_small; lia.
Qed.

Lemma idle_encode a : wf_abs a -> local_lock_state_is_idle (encode a) = (abs_acquire_x a).1.
Proof.
  intros Hw. unfold local_lock_state_is_idle. destruct a as [|c0 c1 c2 c3 sx]; [done|].
  assert (H := Hw). destruct H as (? & ? & ? & ?). cbn [encode].
  destruct (Z.eqb_spec (c0 + (if sx then 2 ^ 15 else 0) + c1 * 2 ^ 16 + c2 * 2 ^ 32 + c3 * 2 ^ 48) 0) as [Hz|Hz].
  - destruct sx; [lia|]. assert (c0 = 0 /\ c1 = 0 /\ c2 = 0 /\ c3 = 0) as (-> & -> & -> & ->) by lia. done.
  - destruct sx; [by destruct c0, c1, c2, c3|]. by destruct c0, c1, c2, c3.
Qed.

(** C16: the 64-bit word implements an abstract read-write lock with a reader count per lane.
    On the encoding of any well-formed abstract state, every attempt succeeds exactly when
    the abstract lock admits the request (a weak compare-exchange may fail spuriously and then
    changes nothing) and leaves the encoding of the abstract result; a release
    reports the state it leaves, or that there was nothing to release; the word is idle
    exactly when X can be taken, and the reader count is the sum of the lanes. *)
Theorem local_word_refines fuel t env a o :
  (1 <= fuel)%nat -> wf_abs a -> lock_word o = encode a ->
  let k := local_lock_lane_for_tid t in
  attempts (local_lock_try_acquire_s t) env o a (abs_acquire_s k a) /\
  attempts local_lock_try_acquire_sx env o a (abs_acquire_sx a) /\
  attempts local_lock_try_acquire_x env o a (abs_acquire_x a) /\
  releases (local_lock_try_release_s fuel t) env o (abs_release_s k a) /\
  (a <> Exclusive -> releases local_lock_try_release_sx env o (abs_release_sx a)) /\
  local_lock_state_is_idle (encode a) = (abs_acquire_x a).1 /\
  local_lock_reader_count (encode a) = abs_readers a.
Proof.
  intros Hf Hw He k. split_and!; [by apply acquire_s_refines|by apply acquire_sx_refines|by apply acquire_x_refines|
    by apply release_s_refines|intros; by apply release_sx_refines|by apply idle_encode|by apply reader_count_encode].
Qed.

(** Two readers in lane 1 and SX. *)
Definition word_demo : LocalLock :=
  mkLocalLock 0x28000 (WaitQueue 0 0 0 []) 0 0 0 0 0 UB_LOCK_I false false GLOBAL_IDLE 0.

Lemma local_word_refines_witness :
  encode (Shared 0 2 0 0 true) = lock_word word_demo /\
  releases (local_lock_try_release_s 1 5) [] word_demo (true, Shared 0 1 0 0 true).
Proof.
  split; [vm_compute; reflexivity|].
  exact (proj1 (proj2 (proj2 (proj2 (local_word_refines 1 5 [] (Shared 0 2 0 0 true) word_demo
    (Nat.le_refl 1) ltac:(cbn; lia) ltac:(vm_compute; reflexivity)))))).
Defined.

(** * The reference count on the global lock *)

Definition may_inc (o : LocalLock) : bool :=
  (global_state o =? GLOBAL_HELD) && (0 <? global_read_ref_count o) && (global_read_ref_count o <? INT32_MAX).
Definition inc_ref (o : LocalLock) : LocalLock := lset l_global_ref (global_read_ref_count o + 1) o.

Lemma inc_ref_loop fuel env o :
  (length env < fuel)%nat -> global_state o = GLOBAL_HELD ->
  exists env', run (iter fuel inc_ref_round (global_read_ref_count o)) env o =
    (Some (may_inc o), env', if may_inc o then inc_ref o else o).
Proof.
  intros Hf Hst. unfold may_inc. rewrite Hst. cbn [Z.eqb GLOBAL_HELD Pos.eqb andb].
  revert env Hf. induction fuel as [|n IH]; intros env Hf; [lia|]. rewrite iter_round by lia. unfold inc_ref_round.
  destruct (Z.ltb_spec 0 (global_read_ref_count o)) as [Hp|Hp]; cbn [andb]; [|by exists env].
  rewrite Z.leb_antisym. destruct (Z.ltb_spec (global_read_ref_count o) INT32_MAX) as [Hm|Hm]; cbn [negb]; [|by exists env].
  cbn [bind load act]. rewrite run_act. cbn [fst snd]. rewrite Hst. cbn [Z.eqb GLOBAL_HELD Pos.eqb negb].
  unfold cas_weak. destruct env as [|z env]; cbn [bind ask run]; rewrite ?run_bind.
  - cbn. rewrite Z.eqb_refl. cbn. by exists [].
  - destruct (z =? 0); cbn -[iter].
    + rewrite Z.eqb_refl. cbn. by exists env.
    + apply IH. cbn in Hf. lia.
Qed.

(** C31: taking a reference on the global lock always returns, after at most one round per spurious
    failure: it succeeds exactly when the global lock is held and referenced and the
    32-bit counter has room, and changes nothing else, so that the counter never
    overflows. *)
Theorem try_inc_terminates fuel env o :
  (length env < fuel)%nat ->
  exists env', run (try_inc_global_ref fuel) env o =
    (Some (may_inc o), env', if may_inc o then inc_ref o else o) /\
  (global_read_ref_count o <= INT32_MAX -> global_read_ref_count (if may_inc o then inc_ref o else o) <= INT32_MAX).
Proof.
  intros Hf. assert (Hb : global_read_ref_count o <= INT32_MAX ->
    global_read_ref_count (if may_inc o then inc_ref o else o) <= INT32_MAX).
  { intros Hm. destruct (may_inc o) eqn:E; [|done]. unfold may_inc in E. bool_to_prop. cbn. lia. }
  unfold try_inc_global_ref. cbn [bind load act]. rewrite run_act. cbn [fst snd].
  destruct (Z.eqb_spec (global_state o) GLOBAL_HELD) as [He|He]; cbn [negb].
  - rewrite run_act. cbn [fst snd]. destruct (inc_ref_loop fuel env o Hf He) as [env' ->]. by exists env'.
  - exists env. split; [|done]. assert (may_inc o = false) as -> by (unfold may_inc; by rewrite (proj2 (Z.eqb_neq _ _))). done.
Qed.

(** Two spurious failures. *)
Definition held_demo : LocalLock :=
  mkLocalLock 1 (WaitQueue 0 0 0 []) 0 0 0 0 0 UB_LOCK_I false true GLOBAL_HELD 1.
Lemma try_inc_terminates_witness :
  (length [1; 1] < 3)%nat /\ (run (try_inc_global_ref 3) [1; 1] held_demo).1.1 = Some true.
Proof.
  assert (Hf : (length [1; 1] < 3)%nat) by (cbn; lia). split; [exact Hf|].
  destruct (try_inc_terminates 3 [1; 1] held_demo Hf) as (env' & H & _). rewrite H. reflexivity.
Defined.

(** * Handing the lock over *)

#[local] Instance l_queue_laws : LensLaws (lens_comp l_ll l_queue).
Proof. split; intros; by repeat match goal with x : local_world |- _ => destruct x | x : LocalLock |- _ => destruct x end. Qed.

Definition wq (q : wait_queue Z) (w : local_world) : local_world := lset (lens_comp l_ll l_queue) q w.

Lemma run_on_queue {A} (p : prog (wait_queue Z) A) env w :
  run (on_queue p) env w = let '(r, env', q) := run p env (queue (ll w)) in (r, env', wq q w).
Proof. apply (run_lift (lens_comp l_ll l_queue)). Qed.

Lemma wq_queue q w : queue (ll (wq q w)) = q.
Proof. done. Qed.
Lemma wq_wq q q' w : wq q (wq q' w) = wq q w.
Proof. done. Qed.

Lemma local_cap : is_pow2 UB_MAX_CAPACITY /\ UB_MAX_CAPACITY <= 2 ^ 31.
Proof. split; [|done]. exists (Z.log2 UB_MAX_CAPACITY). by vm_compute. Qed.

Lemma outqueue_head (C : Z) (Hp : is_pow2 C) (Hc : C <= 2 ^ 31) h m t l (q : wait_queue Z) :
  rep C (Fifo h (Entry Waiting m t :: l)) q ->
  exists q', run (ring_queue_outqueue C) [] q = (Some (Some (index C h)), [], q') /\
    rep C (Fifo h (Entry Notified m t :: l)) q'.
Proof.
  intros Hrep. destruct (outqueue_ok C Hp Hc 0 _ _ Hrep) as (q' & Hrun & Hq'). exists q'. split; [|exact Hq'].
  unfold queue_call in Hrun. rewrite run_bind in Hrun.
  destruct (run (ring_queue_outqueue C) [] q) as [[[r|] e] q1]; [|done]. cbn in Hrun. by injection Hrun as -> -> ->.
Qed.

(** The waiter at the head of the queue, after the timed-out ones were passed over, and
    the queue in which it was notified. *)
Definition wake_head (f : fifo Z) : option Z * fifo Z :=
  let f' := drop_dead (f_head f) (f_entries f) in
  match f_entries f' with
  | Entry Waiting UB_LOCK_I _ :: _ => (None, f')
  | Entry Waiting m t :: l => (Some t, Fifo (f_head f') (Entry Notified m t :: l))
  | _ => (None, f')
  end.

(** The wait context of a registered thread is notified. *)
Definition notify_net (node : Z) (o : option Z) (net : network) : network :=
  match o with Some t => (run (notify_local_waiter node t) [] net).2 | None => net end.
Definition wnet (net : network) (w : local_world) : local_world := lset l_lnet net w.

Section Wake.
Context (node : Z) (fuel : nat).
Hypothesis Hfuel : (Z.to_nat UB_MAX_CAPACITY < fuel)%nat.
Abbreviation CAP := UB_MAX_CAPACITY.

Lemma run_notify_one idx w :
  run (notify_one node idx) [] w =
  (Some (bool_decide (is_Some (waiter_map (proc (lnet w) node) !! who (slot_of (queue (ll w)) idx)))), [],
   wnet (notify_net node (Some (who (slot_of (queue (ll w)) idx))) (lnet w)) w).
Proof.
  unfold notify_one. rewrite run_bind, run_on_queue. cbn [load act run]. cbn.
  destruct (waiter_map (proc (lnet w) node) !! who (slot_of (queue (ll w)) idx)) eqn:E;
    [rewrite bool_decide_true by eauto|rewrite bool_decide_false by (by intros [])]; by destruct w as [[] ? ? ?].
Qed.

Lemma run_dequeue_scan n h m t l w :
  rep CAP (Fifo h (Entry Waiting m t :: l)) (queue (ll w)) ->
  exists q', rep CAP (Fifo h (Entry Notified m t :: l)) q' /\
    run (dequeue_scan node (S n)) [] w = (Some tt, [], wnet (notify_net node (Some t) (lnet w)) (wq q' w)).
Proof.
  intros Hrep. destruct (outqueue_head CAP (proj1 local_cap) (proj2 local_cap) h m t l _ Hrep) as (q' & Hrun & Hq').
  exists q'. split; [exact Hq'|]. cbn [dequeue_scan]. unfold outqueue_waiter.
  rewrite run_bind, run_on_queue, Hrun, run_bind, run_notify_one, wq_queue, (rep_first CAP _ _ _ _ Hq'). reflexivity.
Qed.

Lemma run_dequeue h m t l w :
  rep CAP (Fifo h (Entry Waiting m t :: l)) (queue (ll w)) ->
  exists q', rep CAP (Fifo h (Entry Notified m t :: l)) q' /\
    run (dequeue_and_notify_one node) [] w = (Some tt, [], wnet (notify_net node (Some t) (lnet w)) (wq q' w)).
Proof.
  intros Hrep. unfold dequeue_and_notify_one.
  assert (Hn : Z.to_nat (CAP * 2) = S (Nat.pred (Z.to_nat (CAP * 2)))) by (unfold CAP; lia).
  rewrite Hn. by apply run_dequeue_scan.
Qed.

Lemma run_peek f w :
  rep CAP f (queue (ll w)) ->
  exists q', rep CAP (drop_dead (f_head f) (f_entries f)) q' /\
    run (peek_head_waiting_mode_clean fuel) [] w =
      (Some (match f_entries (drop_dead (f_head f) (f_entries f)) with Entry Waiting m _ :: _ => Some m | _ => None end),
       [], wq q' w).
Proof.
  destruct f as [h l]. intros Hrep. destruct (peek_run CAP (proj1 local_cap) (proj2 local_cap) fuel h l (queue (ll w))) as (q' & Hrun & Hq').
  - assert (H := rep_fits _ _ _ Hrep). cbn [f_entries] in H. lia.
  - done.
  - exists q'. split; [done|]. unfold peek_head_waiting_mode_clean. by rewrite run_on_queue, Hrun.
Qed.

(** A notified head ends the wake-up loops. *)
Lemma peek_notified h m t l w :
  rep CAP (Fifo h (Entry Notified m t :: l)) (queue (ll w)) ->
  exists q', rep CAP (Fifo h (Entry Notified m t :: l)) q' /\
    run (peek_head_waiting_mode_clean fuel) [] w = (Some None, [], wq q' w).
Proof. intros Hrep. destruct (run_peek _ w Hrep) as (q' & Hq' & Hrun). by exists q'. Qed.

Lemma run_wake_loop {L} (body : L -> prog local_world (L + unit)) st h m t l w :
  (forall q, run (peek_head_waiting_mode_clean fuel) [] w = (Some None, [], wq q w) ->
     run (body st) [] w = (Some (inr tt), [], wq q w)) ->
  rep CAP (Fifo h (Entry Notified m t :: l)) (queue (ll w)) ->
  exists q', rep CAP (Fifo h (Entry Notified m t :: l)) q' /\ run (iter fuel body st) [] w = (Some tt, [], wq q' w).
Proof.
  intros Hb Hrep. destruct (peek_notified h m t l w Hrep) as (q' & Hq' & Hrun). exists q'. split; [done|].
  rewrite iter_round, run_bind, (Hb q' Hrun) by lia. done.
Qed.

Lemma wake_unit_round q w :
  run (peek_head_waiting_mode_clean fuel) [] w = (Some None, [], wq q w) ->
  (forall b, run (wake_readers_round node fuel b) [] w = (Some (inr tt), [], wq q w)) /\
  run (wake_shared_round node fuel tt) [] w = (Some (inr tt), [], wq q w).
Proof. intros H. unfold wake_readers_round, wake_shared_round. split; [intros b|]; by rewrite run_bind, H. Qed.

Lemma run_wake f w :
  rep CAP f (queue (ll w)) ->
  exists q', rep CAP (wake_head f).2 q' /\
    run (wake_after_unlock_exclusive node fuel) [] w =
      (Some tt, [], wnet (notify_net node (wake_head f).1 (lnet w)) (wq q' w)).
Proof.
  intros Hrep. unfold wake_after_unlock_exclusive, wake_head.
  destruct (run_peek f w Hrep) as (q1 & Hq1 & Hp). rewrite run_bind, Hp. clear Hp.
  destruct (drop_dead (f_head f) (f_entries f)) as [h l0]. cbn [f_entries f_head] in *.
  assert (Hnone : exists q', rep CAP (Fifo h l0) q' /\
    run (Ret tt) [] (wq q1 w) = (Some tt, [], wnet (notify_net node None (lnet w)) (wq q' w))) by (by exists q1; destruct w).
  destruct l0 as [|[[] m t] l]; try exact Hnone.
  destruct (run_dequeue h m t l (wq q1 w) Hq1) as (q2 & Hq2 & Hd).
  set (w2 := wnet (notify_net node (Some t) (lnet (wq q1 w))) (wq q2 (wq q1 w))) in *.
  destruct m; cbn [fst snd]; [| | |exact Hnone].
  - destruct (run_wake_loop (wake_readers_round node fuel) false h UB_LOCK_S t l w2) as (q3 & Hq3 & Hl); [|done|].
    { intros q Hq. by apply wake_unit_round. }
    exists q3. split; [done|]. by rewrite run_bind, Hd, Hl.
  - destruct (run_wake_loop (wake_shared_round node fuel) tt h UB_LOCK_SX t l w2) as (q3 & Hq3 & Hl); [|done|].
    { intros q Hq. by apply wake_unit_round. }
    exists q3. split; [done|]. by rewrite run_bind, Hd, Hl.
  - exists q2. split; [done|]. by rewrite Hd.
Qed.
End Wake.

(** The lock after its X holder has given it up, before anybody is woken. *)
Definition x_idle (w : local_world) : local_world :=
  lset l_ll (lset l_word 0 (lset l_x_owner 0 (lset l_x_recursive 0 (ll w)))) w.

(** C32: releasing X hands the lock over to the head of the queue.  The owner's last release
    succeeds, leaves the word idle and the owner fields clear, and, when somebody waits,
    drops the timed-out entries at the head of the queue and notifies the next waiter:
    its entry is marked and its wait context, if registered, is signalled.
    Nobody else is woken, also when readers are queued behind it. *)
Theorem local_release_wakes_head node fuel rec t f w :
  (Z.to_nat UB_MAX_CAPACITY < fuel)%nat -> rep UB_MAX_CAPACITY f (queue (ll w)) ->
  lock_x_owner (ll w) = t -> (rec = true -> x_recursive (ll w) <= 1) ->
  let '(o, f') := if 0 <? live (f_entries f) then wake_head f else (None, f) in
  exists q', rep UB_MAX_CAPACITY f' q' /\
    run (unlock_x node fuel rec t) [] w = (Some UB_LOCK_SUCCESS, [], wnet (notify_net node o (lnet w)) (wq q' (x_idle w))).
Proof.
  intros Hf Hrep Ho Hrec.
  assert (Hrun : run (unlock_x node fuel rec t) [] w = run (do c <- waiting_count;
    (if 0 <? c then wake_after_unlock_exclusive node fuel else Ret tt) ;;; Ret UB_LOCK_SUCCESS) [] (x_idle w)).
  { unfold unlock_x. generalize (do c <- waiting_count; (if 0 <? c then wake_after_unlock_exclusive node fuel else Ret tt) ;;;
      Ret UB_LOCK_SUCCESS). intros p. cbn [bind lift load act]. rewrite run_act. cbn [lget l_ll fst snd]. rewrite Ho, Z.eqb_refl.
    destruct rec; cbn [negb andb bind lift rmw store act]; rewrite !run_act; [|by destruct w as [[] ? ? ?]].
    cbn [lget l_ll l_x_recursive fst snd]. rewrite (proj2 (Z.ltb_ge _ _)) by (cbn; auto).
    cbn [bind lift store act]. rewrite !run_act. by destruct w as [[] ? ? ?]. }
  rewrite Hrun. clear Hrun. rewrite run_bind. unfold waiting_count. rewrite run_on_queue.
  change (queue (ll (x_idle w))) with (queue (ll w)). cbn [load act run].
  rewrite (rep_count _ _ _ Hrep). change (wq (queue (ll w)) (x_idle w)) with (x_idle w).
  destruct (0 <? live (f_entries f)).
  - destruct (run_wake node fuel Hf f (x_idle w) Hrep) as (q' & Hq' & Hw). rewrite run_bind, Hw.
    destruct (wake_head f) as [o f']. by exists q'.
  - exists (queue (ll w)). by split.
Qed.

(** An X holder (thread 5), and a queue in which a waiter timed out before two readers. *)
Definition waiting_demo : local_world :=
  mkLocalWorld
    (mkLocalLock LOCAL_LOCK_X_STATE
       (WaitQueue 0 3 2 (Slot UB_WAIT_TIMEOUT UB_LOCK_I 0 :: Slot UB_WAIT_WAITING UB_LOCK_S 7 ::
          Slot UB_WAIT_WAITING UB_LOCK_S 8 :: replicate 253 empty_slot))
       0 5 0 1 0 UB_LOCK_I false false GLOBAL_IDLE 0)
    (Network [Runtime {[7 := false; 8 := false]} false false] []) 0 [].
Definition waiting_fifo : fifo Z :=
  Fifo 0 [Entry Dead UB_LOCK_X 6; Entry Waiting UB_LOCK_S 7; Entry Waiting UB_LOCK_S 8].

Lemma waiting_demo_rep : rep UB_MAX_CAPACITY waiting_fifo (queue (ll waiting_demo)).
Proof.
  split; [reflexivity|vm_compute; split; congruence|reflexivity|reflexivity|reflexivity|vm_compute; congruence| |].
  - intros k e Hk. do 3 (destruct k as [|k]; [by injection Hk as <-|]). discriminate.
  - intros k Hk Hc. left. unfold at_pos, slot_of, getZ. cbn in Hk. unfold UB_MAX_CAPACITY in *.
    change (index 256 (f_head waiting_fifo + Z.of_nat k)) with (Z.land (Z.of_nat k) (2 ^ 8 - 1)).
    rewrite land_mask, Z.mod_small, Nat2Z.id by lia. do 3 (destruct k as [|k]; [lia|]). cbn [slots queue ll waiting_demo lookup list_lookup].
    unfold lookup, list_lookup. fold (@list_lookup (slot Z)). change (list_lookup k (replicate 253 empty_slot)) with (replicate 253 (empty_slot (W := Z)) !! k).
    by rewrite lookup_replicate_2 by lia.
Qed.

Lemma local_release_wakes_head_witness :
  (wake_head waiting_fifo).1 = Some 7 /\
  exists q', rep UB_MAX_CAPACITY (wake_head waiting_fifo).2 q' /\
    run (unlock_x 0 300 true 5) [] waiting_demo =
      (Some UB_LOCK_SUCCESS, [], wnet (notify_net 0 (Some 7) (lnet waiting_demo)) (wq q' (x_idle waiting_demo))).
Proof.
  split; [reflexivity|].
  exact (local_release_wakes_head 0 300 true 5 waiting_fifo waiting_demo ltac:(unfold UB_MAX_CAPACITY; lia)
    waiting_demo_rep eq_refl ltac:(intros _; cbn; lia)).
Defined.

(** Thread id 0 passes the local lock without taking it.  The owner fields use 0 for
    nobody, so a recursive X request of thread 0 finds itself the owner of any lock that nobody
    holds in X mode: it returns success and leaves the word as it is, readers included,
    and X remains free for others. *)
Theorem tid_zero_not_excluded node fuel deadline env w :
  lock_x_owner (ll w) = 0 ->
  run (lock_x node fuel true 0 deadline) env w =
    (Some UB_LOCK_SUCCESS, env, lset l_ll (lset l_x_recursive (u32 (x_recursive (ll w) + 1)) (ll w)) w).
Proof.
  intros Ho. unfold lock_x. cbn [bind lift load act]. rewrite run_act. cbn [lget l_ll fst snd]. rewrite Ho. cbn.
  by destruct w as [[] ? ? ?].
Qed.

(** A lock with two readers. *)
Lemma tid_zero_not_excluded_witness :
  lock_x_owner word_demo = 0 /\
  (run (lock_x 0 1 true 0 0) [] (mkLocalWorld word_demo (Network [] []) 0 [])).1.1 = Some UB_LOCK_SUCCESS.
Proof.
  split; [reflexivity|].
  rewrite (tid_zero_not_excluded 0 1 0 [] (mkLocalWorld word_demo (Network [] []) 0 []) eq_refl). reflexivity.
Defined.

(** * Uncontended use *)

(** Nobody holds the lock and nobody waits. *)
Record free_lock (o : LocalLock) : Prop := {
  fl_word : lock_word o = 0; fl_x : lock_x_owner o = 0; fl_sx : lock_sx_owner o = 0;
  fl_xr : x_recursive o = 0; fl_sxr : sx_recursive o = 0; fl_count : q_count (queue o) = 0; fl_reads : read_count o = 0 }.

Definition x_taken (t : Z) (o : LocalLock) : LocalLock :=
  lset l_x_recursive 1 (lset l_x_owner t (lset l_word LOCAL_LOCK_X_STATE o)).
Definition sx_taken (t : Z) (o : LocalLock) : LocalLock :=
  lset l_sx_recursive 1 (lset l_sx_owner t (lset l_word LOCAL_LOCK_SX_FLAG o)).
(** The word with one reader, in the lane of its thread. *)
Definition one_reader (t : Z) : Z := encode (with_count 0 0 0 0 false (local_lock_lane_for_tid t) 1).
Definition s_taken (t : Z) (o : LocalLock) : LocalLock := lset l_read_count 1 (lset l_word (one_reader t) o).

#[local] Arguments index : simpl never.
#[local] Arguments set_lane : simpl never.
#[local] Arguments encode : simpl never.

#[local] Instance l_ll_laws : LensLaws l_ll.
Proof. split; intros; by repeat match goal with x : local_world |- _ => destruct x end. Qed.

Lemma run_lift_ll {A} (p : prog LocalLock A) env w :
  run (on_ll p) env w = let '(r, env', o) := run p env (ll w) in (r, env', lset l_ll o w).
Proof. apply (run_lift l_ll). Qed.

Section Uncontended.
Context (node : Z) (fuel : nat).
Hypothesis Hfuel : (1 <= fuel)%nat.

(** The first round of the loops. *)
Lemma run_lock_round enq spin t deadline r env w w' :
  run (spin false 0 0) env w = (Some (inr (Some r)), env, w') ->
  run (iter fuel (lock_round node fuel enq spin t deadline) (false, 0)) env w = (Some r, env, w').
Proof.
  intros Hs. rewrite iter_round by done. rewrite run_bind. unfold lock_round. rewrite run_bind.
  rewrite (iter_round fuel (spin false 0)) by done. rewrite run_bind, Hs. done.
Qed.

Lemma run_lock_x rec t deadline o n c i :
  free_lock o -> t <> 0 ->
  run (lock_x node fuel rec t deadline) [] (mkLocalWorld o n c i) = (Some UB_LOCK_SUCCESS, [], mkLocalWorld (x_taken t o) n c i).
Proof.
  intros [Hw Hx _ _ _ Hc _] Ht. unfold lock_x. cbn [bind lift load act]. rewrite run_act. cbn [lget l_ll fst snd ll].
  rewrite Hx, (proj2 (Z.eqb_neq 0 t)) by congruence. cbn [lset l_ll]. apply run_lock_round.
  unfold spin_x_round. change (negb (0 <? Z.of_nat SPIN_WAIT_ROUNDS)) with false. cbv iota. cbn. rewrite Hc. cbn.
  rewrite ?Hw. cbn. rewrite ?Hw. cbn. by destruct o.
Qed.

Lemma run_unlock_x rec t o n c i :
  free_lock o -> t <> 0 ->
  run (unlock_x node fuel rec t) [] (mkLocalWorld (x_taken t o) n c i) = (Some UB_LOCK_SUCCESS, [], mkLocalWorld o n c i).
Proof.
  intros [Hw Hx _ Hr _ Hc _] Ht. unfold unlock_x. destruct rec; cbn; rewrite Z.eqb_refl; cbn; rewrite ?Z.ltb_irrefl; cbn;
    rewrite Hc, Z.ltb_irrefl; cbn; destruct o; cbn in *; by subst.
Qed.

Lemma run_lock_sx rec t deadline o n c i :
  free_lock o -> t <> 0 ->
  run (lock_sx node fuel rec t deadline) [] (mkLocalWorld o n c i) = (Some UB_LOCK_SUCCESS, [], mkLocalWorld (sx_taken t o) n c i).
Proof.
  intros [Hw _ Hsx _ _ Hc _] Ht. unfold lock_sx. cbn [bind lift load act]. rewrite run_act. cbn [lget l_ll fst snd ll].
  rewrite Hsx, (proj2 (Z.eqb_neq 0 t)) by congruence. cbn [lset l_ll]. apply run_lock_round.
  unfold spin_sx_round. change (negb (0 <? Z.of_nat SPIN_WAIT_ROUNDS)) with false. cbv iota. cbn. rewrite Hc. cbn.
  rewrite ?Hw. cbn. rewrite ?Hw. cbn. destruct o; cbn in *. by subst.
Qed.

Lemma run_try_release_sx o env :
  lock_word o = LOCAL_LOCK_SX_FLAG -> run local_lock_try_release_sx env o = (Some (Some 0), env, lset l_word 0 o).
Proof.
  intros Hw. assert (He : lock_word o = encode (Shared 0 0 0 0 true)) by done.
  assert (H := release_sx_refines env (Shared 0 0 0 0 true) o ltac:(cbn; lia) He ltac:(done)). exact H.
Qed.

Lemma run_unlock_sx rec t o n c i :
  free_lock o -> t <> 0 ->
  run (unlock_sx node fuel rec t) [] (mkLocalWorld (sx_taken t o) n c i) = (Some UB_LOCK_SUCCESS, [], mkLocalWorld o n c i).
Proof.
  intros [Hw _ Hx _ Hr Hc _] Ht. unfold unlock_sx.
  destruct rec; cbn -[local_lock_try_release_sx]; rewrite Z.eqb_refl; cbn -[local_lock_try_release_sx];
    change (Z.land LOCAL_LOCK_SX_FLAG LOCAL_LOCK_SX_FLAG =? 0) with false; cbn -[local_lock_try_release_sx];
    rewrite ?Z.ltb_irrefl; cbn -[local_lock_try_release_sx]; rewrite run_bind, run_lift_ll, run_try_release_sx by done;
    cbn; rewrite Hc, Z.ltb_irrefl; cbn; destruct o; cbn in *; by subst.
Qed.

Lemma encode_idle : encode (Shared 0 0 0 0 false) = 0.
Proof. reflexivity. Qed.

Lemma run_try_acquire_s t o :
  lock_word o = 0 -> run (local_lock_try_acquire_s t) [] o = (Some true, [], lset l_word (one_reader t) o).
Proof.
  intros Hw. assert (He : lock_word o = encode (Shared 0 0 0 0 false)) by (by rewrite encode_idle).
  destruct (acquire_s_refines t [] (Shared 0 0 0 0 false) o ltac:(cbn; lia) He) as [env' Hr].
  assert (Ha : abs_acquire_s (local_lock_lane_for_tid t) (Shared 0 0 0 0 false) =
    (true, with_count 0 0 0 0 false (local_lock_lane_for_tid t) 1)).
  { unfold abs_acquire_s. by assert (count_at 0 0 0 0 (local_lock_lane_for_tid t) = 0) as -> by (unfold count_at; by repeat case_bool). }
  rewrite Ha in Hr. cbn [fst snd spurious negb andb] in Hr. unfold one_reader. rewrite Hr. f_equal. f_equal.
  assert (Henv : forall p : prog LocalLock bool, (run p [] o).1.2 = []).
  { intros p. generalize o. induction p as [x|C g k IH|q k IH|]; intros s; cbn; [done| |by apply IH|done].
    destruct (g s). apply IH. }
  specialize (Henv (local_lock_try_acquire_s t)). by rewrite Hr in Henv.
Qed.

Lemma run_lock_s t deadline o n c i :
  free_lock o ->
  run (lock_s node fuel t deadline) [] (mkLocalWorld o n c i) = (Some UB_LOCK_SUCCESS, [], mkLocalWorld (s_taken t o) n c i).
Proof.
  intros [Hw _ _ _ _ Hc Hr]. apply run_lock_round. unfold spin_s_round.
  change (negb (0 <? Z.of_nat SPIN_WAIT_ROUNDS)) with false. cbv iota.
  unfold waiting_count. rewrite run_bind, run_on_queue. cbn [load act run queue ll]. rewrite Hc, Z.ltb_irrefl. cbn [andb].
  rewrite run_bind, run_lift_ll. cbn [load act run ll wq lset lens_comp l_ll l_queue lget]. cbn [read_count]. rewrite Hr.
  change (LOCK_S_THRESHOLD <? 0) with false. cbn [andb bind negb].
  rewrite run_bind, (run_lift_ll (local_lock_try_acquire_s t)). cbn [ll]. rewrite run_try_acquire_s by done.
  cbn. destruct o; cbn in *; by subst.
Qed.

Lemma run_try_release_s t o env :
  lock_word o = one_reader t -> run (local_lock_try_release_s fuel t) env o = (Some (Some 0), env, lset l_word 0 o).
Proof.
  intros Hw. set (k := local_lock_lane_for_tid t). assert (Hk := lane_for_tid_ok t). fold k in Hk.
  assert (Hwf : wf_abs (with_count 0 0 0 0 false k 1)) by (apply with_count_wf; cbn; lia).
  assert (H := release_s_refines fuel t env _ o Hfuel Hwf Hw). fold k in H.
  assert (abs_release_s k (with_count 0 0 0 0 false k 1) = (true, Shared 0 0 0 0 false)) as Ha by (by lanes Hk).
  rewrite Ha in H. exact H.
Qed.

Lemma run_unlock_s t o n c i :
  free_lock o ->
  run (unlock_s node fuel t) [] (mkLocalWorld (lset l_read_count 0 (s_taken t o)) n c i)
    = (Some UB_LOCK_SUCCESS, [], mkLocalWorld o n c i).
Proof.
  intros [Hw _ _ _ _ Hc Hr]. unfold unlock_s. rewrite run_bind, run_lift_ll, run_try_release_s by done.
  cbn [local_lock_state_is_idle Z.eqb]. unfold waiting_count. rewrite run_bind, run_on_queue. cbn. rewrite Hc, Z.ltb_irrefl. cbn.
  destruct o; cbn in *; by subst.
Qed.
End Uncontended.
