(* ===== verification/RwLock.v ===== *)
(** The distributed read-write lock (src/ub_lock/ub_distribute_lock.cpp, the delayed release of
    lock_optimization.cpp and the lock messages of message_manage.cpp).

    The lock has two levels.  A thread first takes the local lock of its process (LocalLock.v)
    in its mode; then its process takes the global lock, the word in shared memory: it starts
    at [X_LOCK_DECR], a reading process subtracts 1, SX subtracts [X_LOCK_HALF_DECR], X
    replaces the whole value by 0.  Of the readers of one process the first (the leader)
    takes the global lock, the others share it by a reference count.  Processes that do not get
    the word queue in shared memory; a release wakes the head, by the waiter registry of the
    process or by a UB_GRANT message.  With [allow_delay_release] the last unlock may keep the
    global lock for the process: it leaves a token ([local_is_reserve_lock],
    [reserve_owner]) that a later lock of the process inherits, or that another
    process asks to be given up by a UB_RELEASE message.

    The state is [rw_world].  A lock is identified by its address, which is the same in all
    processes; a shared pointer to a local lock is an index into [heap], so a thread keeps its
    local lock when the registry drops it.  [self] is the node of the process that runs an operation,
    [a] the lock.  The padding of the structure, which is only zeroed, is left out. *)

From S2P Require Import Prelude Atomic CommTypes LockTypes LockRuntime RingQueue LocalLock.

Record ub_rw_lock := mkRwLock {
  word : Z;
  rw_q : wait_queue ub_location_t;   (** queue_head, queue_tail, waiting_count, wait_queue *)
  owner_x : Z; owner_sx : Z; reserve_owner : Z;
  sx_rec : Z; x_rec : Z;
  rw_inited : Z;
  shared_bitmap : Z;
  node_registry : list Z }.

Record rw_world := mkRwWorld {
  mem : gmap Z ub_rw_lock;
  heap : list (LocalLock * Z);       (** local locks with their [ub_lock_ptr_] *)
  registry : list (gmap Z nat);      (** [g_ll_registry.map] of each process *)
  rw_net : network;
  rw_in : list (nat * ub_lock_mode_t) }.

Record ub_lock_policy_t := Policy { timeout_ts : Z; allow_delay_release : bool; recursive : bool }.

(** ** Access to the parts *)

Definition lg_word : lens ub_rw_lock Z := Lens word (fun v m =>
  mkRwLock v (rw_q m) (owner_x m) (owner_sx m) (reserve_owner m) (sx_rec m) (x_rec m) (rw_inited m) (shared_bitmap m) (node_registry m)).
Definition lg_q : lens ub_rw_lock (wait_queue ub_location_t) := Lens rw_q (fun v m =>
  mkRwLock (word m) v (owner_x m) (owner_sx m) (reserve_owner m) (sx_rec m) (x_rec m) (rw_inited m) (shared_bitmap m) (node_registry m)).
Definition lg_owner_x : lens ub_rw_lock Z := Lens owner_x (fun v m =>
  mkRwLock (word m) (rw_q m) v (owner_sx m) (reserve_owner m) (sx_rec m) (x_rec m) (rw_inited m) (shared_bitmap m) (node_registry m)).
Definition lg_owner_sx : lens ub_rw_lock Z := Lens owner_sx (fun v m =>
  mkRwLock (word m) (rw_q m) (owner_x m) v (reserve_owner m) (sx_rec m) (x_rec m) (rw_inited m) (shared_bitmap m) (node_registry m)).
Definition lg_reserve : lens ub_rw_lock Z := Lens reserve_owner (fun v m =>
  mkRwLock (word m) (rw_q m) (owner_x m) (owner_sx m) v (sx_rec m) (x_rec m) (rw_inited m) (shared_bitmap m) (node_registry m)).
Definition lg_sx_rec : lens ub_rw_lock Z := Lens sx_rec (fun v m =>
  mkRwLock (word m) (rw_q m) (owner_x m) (owner_sx m) (reserve_owner m) v (x_rec m) (rw_inited m) (shared_bitmap m) (node_registry m)).
Definition lg_x_rec : lens ub_rw_lock Z := Lens x_rec (fun v m =>
  mkRwLock (word m) (rw_q m) (owner_x m) (owner_sx m) (reserve_owner m) (sx_rec m) v (rw_inited m) (shared_bitmap m) (node_registry m)).
Definition lg_inited : lens ub_rw_lock Z := Lens rw_inited (fun v m =>
  mkRwLock (word m) (rw_q m) (owner_x m) (owner_sx m) (reserve_owner m) (sx_rec m) (x_rec m) v (shared_bitmap m) (node_registry m)).
Definition lg_bitmap : lens ub_rw_lock Z := Lens shared_bitmap (fun v m =>
  mkRwLock (word m) (rw_q m) (owner_x m) (owner_sx m) (reserve_owner m) (sx_rec m) (x_rec m) (rw_inited m) v (node_registry m)).
Definition lg_registry : lens ub_rw_lock (list Z) := Lens node_registry (fun v m =>
  mkRwLock (word m) (rw_q m) (owner_x m) (owner_sx m) (reserve_owner m) (sx_rec m) (x_rec m) (rw_inited m) (shared_bitmap m) v).

(** Memory nobody has written. *)
Definition zero_rw_lock : ub_rw_lock :=
  mkRwLock 0 (WaitQueue 0 0 0 (replicate (Z.to_nat UB_MAX_NODES) (Slot UB_WAIT_EMPTY UB_LOCK_S (Location 0 0))))
    0 0 0 0 0 0 0 (replicate (Z.to_nat UB_MAX_NODES) 0).
Definition lock_at (w : rw_world) (a : Z) : ub_rw_lock := default zero_rw_lock (mem w !! a).

Definition l_mem (a : Z) : lens rw_world ub_rw_lock :=
  Lens (fun w => lock_at w a) (fun v w => mkRwWorld (<[a := v]> (mem w)) (heap w) (registry w) (rw_net w) (rw_in w)).
Definition l_rw_net : lens rw_world network :=
  Lens rw_net (fun v w => mkRwWorld (mem w) (heap w) (registry w) v (rw_in w)).

(** [LocalLock(shm)] *)
Definition new_local_lock : LocalLock :=
  final init_ (mkLocalLock 0 (WaitQueue 0 0 0 (replicate (Z.to_nat UB_MAX_CAPACITY) empty_slot)) 0 0 0 0 0
    UB_LOCK_I false false GLOBAL_IDLE 0).
Definition heap_get (w : rw_world) (h : nat) : LocalLock * Z := default (new_local_lock, 0) (heap w !! h).

(** What an operation of the local lock sees: the local lock [h], the process's registries,
    and [waiting_count] of the lock it points to. *)
Definition l_local (h : nat) : lens rw_world local_world :=
  Lens
    (fun w => mkLocalWorld (heap_get w h).1 (rw_net w) (q_count (rw_q (lock_at w (heap_get w h).2))) (rw_in w))
    (fun v w =>
       let p := (heap_get w h).2 in
       let m := lock_at w p in
       mkRwWorld (<[p := lset lg_q (lset l_count (ub_waiting_count v) (rw_q m)) m]> (mem w))
         (<[h := (ll v, p)]> (heap w)) (registry w) (lnet v) (in_cs v)).
Abbreviation on_local h := (lift (l_local h)).
(** A field of the local lock itself. *)
Definition l_lobj (h : nat) : lens rw_world LocalLock :=
  Lens (fun w => (heap_get w h).1)
       (fun o w => mkRwWorld (mem w) (<[h := (o, (heap_get w h).2)]> (heap w)) (registry w) (rw_net w) (rw_in w)).
Abbreviation on_lobj h := (lift (l_lobj h)).
Abbreviation on_rw_net := (lift l_rw_net).

(** The registry of a process, under its mutex. *)
Definition reg_of (w : rw_world) (node : Z) : gmap Z nat := getZ ∅ (registry w) node.
Definition set_reg (node : Z) (r : gmap Z nat) (w : rw_world) : rw_world :=
  mkRwWorld (mem w) (heap w) (setZ (registry w) node r) (rw_net w) (rw_in w).

Section Model.
(** The process that runs, the lock, and a bound on the rounds of each retry loop. *)
Context (self a : Z) (fuel : nat).

Abbreviation on_shm := (lift (l_mem a)).
Abbreviation on_q := (lift (lens_comp (l_mem a) lg_q)).

(** ** Small helpers *)

Definition verify_param (location : ub_location_t) : ub_lock_result_t :=
  if UB_MAX_NODES <=? node_id location then UB_LOCK_ERROR else UB_LOCK_SUCCESS.

Definition lookup_local_lock (addr : Z) : prog rw_world (option nat) := load (fun w => reg_of w self !! addr).
(** [map.try_emplace(shm, make_shared<LocalLock>(shm))] *)
Definition register_local_lock (addr : Z) : prog rw_world unit :=
  store (fun w =>
    match reg_of w self !! addr with
    | Some _ => w
    | None =>
        set_reg self (<[addr := length (heap w)]> (reg_of w self))
          (mkRwWorld (mem w) (heap w ++ [(new_local_lock, addr)]) (registry w) (rw_net w) (rw_in w))
    end).
Definition unregister_local_lock (addr : Z) : prog rw_world (option nat) :=
  act (fun w => (reg_of w self !! addr, set_reg self (delete addr (reg_of w self)) w)).

Definition set_shared_owner_bitmap (process_id : Z) : prog rw_world unit :=
  if 32 <=? process_id then Ret tt else
  do _ <- on_shm (rmw lg_bitmap (fun b => Z.lor b (u32 (Z.shiftl 1 process_id)))); Ret tt.
Definition clear_shared_owner_bitmap (process_id : Z) : prog rw_world unit :=
  if 32 <=? process_id then Ret tt else
  do _ <- on_shm (rmw lg_bitmap (fun b => Z.land b (u32 (Z.lnot (u32 (Z.shiftl 1 process_id)))))); Ret tt.

Definition try_claim_delayed_owner (identity : Z) : prog rw_world bool :=
  do '(ok, _) <- on_shm (cas_strong lg_reserve LOCK_INVALID_OWNER identity); Ret (ok : bool).

(** ** The queue (wait_queue.cpp) *)

Definition create_wait_queue : prog rw_world unit := on_q (ring_queue_init UB_MAX_NODES).
Definition enqueue_waiter (m : ub_lock_mode_t) (location : ub_location_t) : prog rw_world (ub_lock_result_t * Z) :=
  on_q (ring_queue_enqueue UB_MAX_NODES fuel m location).
Definition outqueue_waiter : prog rw_world (option Z) := on_q (ring_queue_outqueue UB_MAX_NODES).
Definition clean_timeout_waiter (ticket : Z) : prog rw_world unit :=
  on_q (ring_queue_clean_timeout UB_MAX_NODES fuel ticket).
Definition clean_outqueue_waiter (ticket : Z) : prog rw_world unit :=
  on_q (ring_queue_pop_head UB_MAX_NODES fuel ticket).
Definition peek_head_waiting_mode_clean : prog rw_world (option ub_lock_mode_t) :=
  on_q (ring_queue_peek_head_mode_clean UB_MAX_NODES fuel).
Definition waiting_count : prog rw_world Z := on_q (load q_count).

(** ** Waking *)

(** [waiter] is a reference to the slot [idx]: its fields are read where the code uses them. *)
Definition waiter_slot (idx : Z) : prog rw_world (slot ub_location_t) := on_q (load (fun q => slot_of q idx)).

Definition advance_head_after_send_fail (idx : Z) : prog rw_world unit :=
  do h <- on_q (load q_head);
  if index UB_MAX_NODES h =? idx then do _ <- on_q (cas_strong l_head h (u32 (h + 1))); Ret tt else Ret tt.

Definition notify_waiters (idx : Z) (location : ub_location_t) : prog rw_world ub_lock_result_t :=
  do s <- waiter_slot idx;
  if node_id (who s) =? node_id location then
    do s' <- waiter_slot idx;
    do found <- on_rw_net (notify_local_waiter self (tid (who s')));
    Ret (if found : bool then UB_LOCK_SUCCESS else UB_LOCK_ERROR)
  else
    do t <- on_rw_net (load (fun n => transport (proc n self)));
    if negb t then Ret UB_LOCK_ERROR else
    do s' <- waiter_slot idx;
    let b := MsgBody (tid (who s')) 0 UB_GRANT (mode s') in
    do s'' <- waiter_slot idx;
    do ret <- on_rw_net (send_with_retry (create_message (who s'') (node_id location) b) 5);
    if negb (is_success ret) then advance_head_after_send_fail idx ;;; Ret UB_LOCK_ERROR
    else Ret UB_LOCK_SUCCESS.

Fixpoint dequeue_scan (sanity : nat) (location : ub_location_t) : prog rw_world unit :=
  match sanity with
  | O => Ret tt
  | S n =>
      do w <- outqueue_waiter;
      match w with
      | Some idx => do _ <- notify_waiters idx location; Ret tt
      | None => dequeue_scan n location
      end
  end.
Definition dequeue_and_notify_one (location : ub_location_t) : prog rw_world unit :=
  dequeue_scan (Z.to_nat (UB_MAX_CAPACITY * 2)) location.

Definition wake_s_round (location : ub_location_t) (meet_sx : bool) : prog rw_world (bool + unit) :=
  do m <- peek_head_waiting_mode_clean;
  match m with
  | Some UB_LOCK_S => dequeue_and_notify_one location ;;; Ret (inl meet_sx)
  | Some UB_LOCK_SX => if meet_sx then Ret (inr tt) else dequeue_and_notify_one location ;;; Ret (inl true)
  | _ => Ret (inr tt)
  end.
Definition wake_s_chain (location : ub_location_t) : prog rw_world unit :=
  dequeue_and_notify_one location ;;; iter fuel (wake_s_round location) false.

Definition wake_sx_round (location : ub_location_t) (_ : unit) : prog rw_world (unit + unit) :=
  do m <- peek_head_waiting_mode_clean;
  match m with
  | Some UB_LOCK_S => dequeue_and_notify_one location ;;; Ret (inl tt)
  | _ => Ret (inr tt)
  end.
Definition wake_sx_chain (location : ub_location_t) : prog rw_world unit :=
  dequeue_and_notify_one location ;;; iter fuel (wake_sx_round location) tt.

Definition wake_after_unlock_exclusive (location : ub_location_t) : prog rw_world unit :=
  do head_mode <- peek_head_waiting_mode_clean;
  match head_mode with
  | Some UB_LOCK_X => dequeue_and_notify_one location
  | Some UB_LOCK_S => wake_s_chain location
  | Some UB_LOCK_SX => wake_sx_chain location
  | _ => Ret tt
  end.

(** What a release of SX does about waiters: with readers left only another SX can enter.
    [false]: the peek found nobody. *)
Definition wake_after_sx (now : Z) (location : ub_location_t) : prog rw_world bool :=
  do c <- waiting_count;
  if 0 <? c then
    if now =? X_LOCK_DECR then wake_after_unlock_exclusive location ;;; Ret true
    else
      do head_mode <- peek_head_waiting_mode_clean;
      match head_mode with
      | None => Ret false
      | Some UB_LOCK_SX => wake_after_unlock_exclusive location ;;; Ret true
      | Some _ => Ret true
      end
  else Ret true.

(** ** Delayed release *)

Definition delay_unlock (m : ub_lock_mode_t) (node : Z) : prog rw_world ub_lock_result_t :=
  if UB_MAX_NODES <=? node then Ret UB_LOCK_ERROR else
  on_shm (store (lset lg_reserve LOCK_INVALID_OWNER)) ;;;
  let location := Location 0 node in
  match m with
  | UB_LOCK_S =>
      do old <- on_shm (rmw lg_word (fun v => i32 (v + 1)));
      let now := old + 1 in
      (if now =? X_LOCK_DECR then
         do c <- waiting_count;
         if 0 <? c then wake_after_unlock_exclusive location else Ret tt
       else Ret tt) ;;;
      clear_shared_owner_bitmap node ;;;
      Ret UB_LOCK_SUCCESS
  | UB_LOCK_SX =>
      on_shm (store (lset lg_owner_sx LOCK_INVALID_OWNER)) ;;;
      on_shm (store (lset lg_sx_rec 0)) ;;;
      do old <- on_shm (rmw lg_word (fun v => i32 (v + X_LOCK_HALF_DECR)));
      do _ <- wake_after_sx (old + X_LOCK_HALF_DECR) location;
      Ret UB_LOCK_SUCCESS
  | UB_LOCK_X =>
      on_shm (store (lset lg_owner_x LOCK_INVALID_OWNER)) ;;;
      on_shm (store (lset lg_x_rec 0)) ;;;
      on_shm (store (lset lg_word X_LOCK_DECR)) ;;;
      do c <- waiting_count;
      (if 0 <? c then wake_after_unlock_exclusive location else Ret tt) ;;;
      Ret UB_LOCK_SUCCESS
  | UB_LOCK_I => Ret UB_LOCK_ERROR
  end.

(** UB_LOCK_CONFLICT: the caller inherits the lock its process had kept. *)
Definition delay_release_local_lock (h : nat) (m : ub_lock_mode_t) (location : ub_location_t)
    : prog rw_world ub_lock_result_t :=
  do reserve_mode <- on_lobj h (rmw l_reserve (fun _ => UB_LOCK_I));
  if negb (mode_eqb reserve_mode UB_LOCK_I) then
    if mode_eqb reserve_mode m then
      on_shm (store (lset lg_reserve LOCK_INVALID_OWNER)) ;;;
      Ret UB_LOCK_CONFLICT
    else delay_unlock reserve_mode (node_id location) ;;; Ret UB_LOCK_SUCCESS
  else Ret UB_LOCK_SUCCESS.

Definition notify_unlock (location : ub_location_t) (node : Z) (b : local_msg_body_t)
    : prog rw_world ub_lock_result_t :=
  do t <- on_rw_net (load (fun n => transport (proc n self)));
  if negb t then Ret UB_LOCK_ERROR else
  do ret <- on_rw_net (send_with_retry (create_message location node b) 5);
  Ret (if is_success ret then UB_LOCK_SUCCESS else UB_LOCK_ERROR).

Definition delay_release_ub_lock (m : ub_lock_mode_t) (location : ub_location_t) : prog rw_world ub_lock_result_t :=
  do reserve <- on_shm (load reserve_owner);
  if reserve =? LOCK_INVALID_OWNER then Ret UB_LOCK_SUCCESS else
  let owner := Location 0 (u8 (Z.land (Z.shiftr reserve 32) 0xFF)) in
  if node_id owner =? node_id location then Ret UB_LOCK_SUCCESS else
  if UB_MAX_NODES <=? node_id owner then
    on_shm (store (lset lg_reserve LOCK_INVALID_OWNER)) ;;; Ret UB_LOCK_ERROR
  else
  do remote_lock <- on_shm (load (fun s => getZ 0 (node_registry s) (node_id owner)));
  if remote_lock =? 0 then Ret UB_LOCK_SUCCESS else
  if negb (remote_lock mod UB_CACHELINE_SIZE =? 0) then
    on_shm (store (lset lg_reserve LOCK_INVALID_OWNER)) ;;; Ret UB_LOCK_ERROR
  else notify_unlock owner (node_id location) (MsgBody 0 remote_lock UB_RELEASE m).
(** ** Diagnostics *)

Record TimeoutGlobalSnapshot := GlobalSnapshot {
  gs_lock_word : Z; gs_owner_x : Z; gs_owner_sx : Z; gs_reserve_owner : Z; gs_shared_bitmap : Z; gs_waiting_count : Z }.
Record TimeoutLocalSnapshot := LocalSnapshot {
  ls_lock_word : Z; ls_read_count : Z; ls_waiting_count : Z; ls_owner_x : Z; ls_owner_sx : Z; ls_reserve_mode : ub_lock_mode_t }.

Definition collect_global_timeout_snapshot : prog rw_world TimeoutGlobalSnapshot :=
  do w <- on_shm (load word);
  do x <- on_shm (load owner_x);
  do sx <- on_shm (load owner_sx);
  do r <- on_shm (load reserve_owner);
  do b <- on_shm (load shared_bitmap);
  do c <- waiting_count;
  Ret (GlobalSnapshot w x sx r b c).

Definition collect_local_timeout_snapshot (h : nat) : prog rw_world TimeoutLocalSnapshot :=
  do w <- on_lobj h (load lock_word);
  do c <- on_lobj h (load (fun o => q_count (queue o)));
  do x <- on_lobj h (load lock_x_owner);
  do sx <- on_lobj h (load lock_sx_owner);
  do r <- on_lobj h (load local_is_reserve_lock);
  Ret (LocalSnapshot w (local_lock_reader_count w) c x sx r).

(** The loads of [dump_timeout_holder_info]; TimeoutReport.v adds the text it logs. *)
Definition dump_timeout_holder_info (h : nat) : prog rw_world unit :=
  do _ <- collect_global_timeout_snapshot;
  do _ <- collect_local_timeout_snapshot h;
  Ret tt.

(** ** Creation *)

Definition CREATE_INIT_IN_PROGRESS : Z := -2.
Definition CREATE_INIT_WAIT_ROUNDS : Z := 1024 * 1024.

Definition clear_node_registry_for_rebuild : prog rw_world unit :=
  for_each (seqZ 0 UB_MAX_NODES) (fun i => on_shm (store (fun m => lset lg_registry (setZ (node_registry m) i 0) m))).

(** One round of the loop that claims the initialization or a reference; the result says
    whether to initialize, [None] that the call gives up. *)
Definition create_round (st : Z * Z) : prog rw_world ((Z * Z) + option bool) :=
  let '(wait_rounds, state) := st in
  if state =? CREATE_INIT_IN_PROGRESS then
    let wait_rounds' := u32 (wait_rounds + 1) in
    if CREATE_INIT_WAIT_ROUNDS <=? wait_rounds' then Ret (inr None) else
    do state' <- on_shm (load rw_inited);
    Ret (inl (wait_rounds', state'))
  else if (state <? 0) || (state =? INT32_MAX) then Ret (inr None) else
  let initialize := state =? 0 in
  let next := if initialize then CREATE_INIT_IN_PROGRESS else state + 1 in
  do '(ok, state') <- on_shm (cas_weak lg_inited state next);
  Ret (if ok : bool then inr (Some initialize) else inl (wait_rounds, state')).

Definition init_shared : prog rw_world unit :=
  on_shm (store (lset lg_word X_LOCK_DECR)) ;;;
  on_shm (store (lset lg_bitmap 0)) ;;;
  on_shm (store (lset lg_x_rec 0)) ;;;
  on_shm (store (lset lg_sx_rec 0)) ;;;
  on_shm (store (lset lg_reserve LOCK_INVALID_OWNER)) ;;;
  on_shm (store (lset lg_owner_x LOCK_INVALID_OWNER)) ;;;
  on_shm (store (lset lg_owner_sx LOCK_INVALID_OWNER)) ;;;
  create_wait_queue ;;;
  clear_node_registry_for_rebuild ;;;
  on_shm (store (lset lg_inited 1)).

(** The environment says whether the allocation of the local lock throws. *)
Definition lock_create (location : ub_location_t) : prog rw_world unit :=
  if UB_MAX_NODES <=? node_id location then Ret tt else
  do state <- on_shm (load rw_inited);
  do r <- iter fuel create_round (0, state);
  match r with
  | None => Ret tt
  | Some initialize =>
      (if initialize : bool then init_shared else Ret tt) ;;;
      do ll <- lookup_local_lock a;
      do ok <-
        match ll with
        | Some _ => Ret true
        | None =>
            do oom <- ask QExternal;
            if oom =? 0 then register_local_lock a ;;; Ret true else Ret false
        end;
      if ok : bool then
        on_shm (store (fun m => lset lg_registry (setZ (node_registry m) (node_id location) a) m)) ;;;
        on_rw_net (register_message_process_func self)
      else do _ <- on_shm (rmw lg_inited (fun v => i32 (v - 1))); Ret tt
  end.

Definition free_round (cur : Z) : prog rw_world (Z + unit) :=
  if 0 <? cur then
    do '(ok, cur') <- on_shm (cas_weak lg_inited cur (cur - 1));
    Ret (if ok : bool then inr tt else inl cur')
  else Ret (inr tt).
Definition lock_free (location : ub_location_t) : prog rw_world unit :=
  if UB_MAX_NODES <=? node_id location then Ret tt else
  do cur <- on_shm (load rw_inited);
  if cur <? 0 then Ret tt else
  on_shm (store (fun m => lset lg_registry (setZ (node_registry m) (node_id location) 0) m)) ;;;
  do _ <- unregister_local_lock a;
  iter fuel free_round cur.

(** ** Locking *)

Definition deadline_of (policy : ub_lock_policy_t) : prog rw_world Z :=
  do now <- ask QSteady; Ret (now + timeout_ts policy * 1000).

(** The loop around a spinning and a queueing phase, as in LocalLock.v. *)
Definition rw_round (spin : bool -> Z -> Z -> prog rw_world (Z + spin_end))
    (queue : prog rw_world (Z + ub_lock_result_t)) (st : bool * Z) : prog rw_world ((bool * Z) + ub_lock_result_t) :=
  let '(is_awakened, slot) := st in
  do e <- iter fuel (spin is_awakened slot) 0;
  match e with
  | Some r => Ret (inr r)
  | None =>
      do r <- queue;
      Ret (match r with inl slot' => inl (true, slot') | inr ret => inr ret end)
  end.

(** The queueing phase of a mode; [abandon] releases the local lock. *)
Definition rw_queue_phase (m : ub_lock_mode_t) (location : ub_location_t) (h : nat) (deadline : Z)
    (abandon : prog rw_world unit) : prog rw_world (Z + ub_lock_result_t) :=
  with_waiter_guard l_rw_net self (tid location) (
    do '(ret, slot) <- enqueue_waiter m location;
    if negb (is_success ret) then abandon ;;; Ret (inr ret) else
    do current <- on_shm (load word);
    do self_handoff <-
      (if current =? X_LOCK_DECR then on_q (ring_queue_try_self_handoff_if_head UB_MAX_NODES slot) else Ret false);
    do _ <- delay_release_ub_lock m location;
    if self_handoff : bool then Ret (inl slot) else
    do awake <- on_rw_net (ctx_wait fuel self (tid location) deadline);
    if awake : bool then Ret (inl slot) else
    dump_timeout_holder_info h ;;;
    clean_timeout_waiter slot ;;;
    abandon ;;;
    Ret (inr UB_LOCK_TIMEOUT)).

(** What an awakened thread does when its attempt failed. *)
Definition rw_awakened_retry (h : nat) (deadline slot i : Z) (abandon : prog rw_world unit)
    : prog rw_world (Z + spin_end) :=
  do now <- ask QSteady;
  if deadline <? now then
    dump_timeout_holder_info h ;;;
    clean_timeout_waiter slot ;;;
    abandon ;;;
    Ret (inr (Some UB_LOCK_TIMEOUT))
  else Ret (inl i).

(** *** S *)

Definition cleanup_and_unlock_local (h : nat) (t : Z) : prog rw_world unit :=
  on_lobj h (store (lset l_global_state GLOBAL_IDLE)) ;;;
  on_lobj h (store (lset l_global_ref 0)) ;;;
  on_lobj h (store (lset l_hold_global false)) ;;;
  do _ <- on_local h (LocalLock.unlock_s self fuel t);
  Ret tt.

(** The leader publishes the global lock for the readers of its process. *)
Definition publish_global_s (h : nat) : prog rw_world unit :=
  on_lobj h (store (lset l_global_ref 1)) ;;;
  on_lobj h (store (lset l_hold_global true)) ;;;
  on_lobj h (store (lset l_global_state GLOBAL_HELD)).

(** [global_pending_cv_.wait_until] with its predicate. *)
Definition follower_round (h : nat) (deadline : Z) (_ : unit) : prog rw_world (unit + bool) :=
  do st <- on_lobj h (load global_state);
  if negb (st =? GLOBAL_PENDING) then Ret (inr true) else
  do now <- ask QSteady;
  if deadline <=? now then do st' <- on_lobj h (load global_state); Ret (inr (negb (st' =? GLOBAL_PENDING)))
  else Ret (inl tt).
Definition wait_follower_s (h : nat) (deadline : Z) : prog rw_world bool :=
  do ok <- iter fuel (follower_round h deadline) tt;
  if ok : bool then Ret true else dump_timeout_holder_info h ;;; Ret false.

(** The result, and whether the caller became the leader. *)
Definition claim_s_round (location : ub_location_t) (h : nat) (deadline : Z) (_ : unit)
    : prog rw_world (unit + (ub_lock_result_t * bool)) :=
  do ok <- on_lobj h (try_inc_global_ref fuel);
  if ok : bool then Ret (inr (UB_LOCK_SUCCESS, false)) else
  do st <- on_lobj h (load global_state);
  if st =? GLOBAL_IDLE then
    do '(won, _) <- on_lobj h (cas_strong l_global_state GLOBAL_IDLE GLOBAL_PENDING);
    Ret (if won : bool then inr (UB_LOCK_SUCCESS, true) else inl tt)
  else if st =? GLOBAL_PENDING then
    do ok <- wait_follower_s h deadline;
    if ok : bool then Ret (inl tt) else
    do _ <- on_local h (LocalLock.unlock_s self fuel (tid location));
    Ret (inr (UB_LOCK_TIMEOUT, false))
  else
    do now <- ask QSteady;
    if deadline <? now then
      dump_timeout_holder_info h ;;;
      do _ <- on_local h (LocalLock.unlock_s self fuel (tid location));
      Ret (inr (UB_LOCK_TIMEOUT, false))
    else Ret (inl tt).
Definition wait_or_claim_global_s (location : ub_location_t) (h : nat) (deadline : Z)
    : prog rw_world (ub_lock_result_t * bool) := iter fuel (claim_s_round location h deadline) tt.

Definition spin_wait_s_round (location : ub_location_t) (h : nat) (deadline : Z) (is_awakened : bool) (slot i : Z)
    : prog rw_world (Z + spin_end) :=
  if negb (i <? Z.of_nat SPIN_WAIT_ROUNDS) then Ret (inr None) else
  do c <- waiting_count;
  if (0 <? c) && negb is_awakened then Ret (inr None) else
  do cur <- on_shm (load word);
  do '(ok, _) <- (if 0 <? cur then on_shm (cas_weak lg_word cur (cur - 1)) else Ret (false, cur));
  if ok : bool then
    (if is_awakened then clean_outqueue_waiter slot else Ret tt) ;;;
    publish_global_s h ;;;
    set_shared_owner_bitmap (node_id location) ;;;
    Ret (inr (Some UB_LOCK_SUCCESS))
  else if is_awakened then
    rw_awakened_retry h deadline slot i (cleanup_and_unlock_local h (tid location))
  else Ret (inl (u32 (i + 1))).
Definition spin_wait_s_loop (location : ub_location_t) (h : nat) (deadline : Z) : prog rw_world ub_lock_result_t :=
  iter fuel (rw_round (spin_wait_s_round location h deadline)
    (rw_queue_phase UB_LOCK_S location h deadline (cleanup_and_unlock_local h (tid location)))) (false, 0).

Definition lock_s (policy : ub_lock_policy_t) (location : ub_location_t) : prog rw_world ub_lock_result_t :=
  if negb (is_success (verify_param location)) then Ret UB_LOCK_ERROR else
  do deadline <- deadline_of policy;
  do ll <- lookup_local_lock a;
  match ll with
  | None => Ret UB_LOCK_ERROR
  | Some h =>
      do ret <- on_local h (LocalLock.lock_s self fuel (tid location) deadline);
      if negb (is_success ret) then
        (if bool_decide (ret = UB_LOCK_TIMEOUT) then dump_timeout_holder_info h else Ret tt) ;;;
        Ret ret
      else
        do '(ret, became_leader) <- wait_or_claim_global_s location h deadline;
        if negb (is_success ret) || negb became_leader then Ret ret else
        do ret <- delay_release_local_lock h UB_LOCK_S location;
        if bool_decide (ret = UB_LOCK_CONFLICT) then
          publish_global_s h ;;;
          set_shared_owner_bitmap (node_id location) ;;;
          Ret UB_LOCK_SUCCESS
        else spin_wait_s_loop location h deadline
  end.

(** Whether the last release keeps the global lock for the process. *)
Definition use_delay (policy : ub_lock_policy_t) (h : nat) (identity : Z) : prog rw_world bool :=
  if negb (allow_delay_release policy) then Ret false else
  do c <- waiting_count;
  if negb (c =? 0) then Ret false else
  do lc <- on_lobj h (load (fun o => q_count (queue o)));
  if negb (lc =? 0) then Ret false else
  try_claim_delayed_owner identity.

Definition unlock_s (policy : ub_lock_policy_t) (location : ub_location_t) : prog rw_world ub_lock_result_t :=
  if negb (is_success (verify_param location)) then Ret UB_LOCK_ERROR else
  do ll <- lookup_local_lock a;
  match ll with
  | None => Ret UB_LOCK_ERROR
  | Some h =>
      do local_state <- on_lobj h (load lock_word);
      let lane := local_lock_lane_value local_state (local_lock_lane_for_tid (tid location)) in
      if negb (Z.land lane LOCAL_LOCK_READER_SENTINEL =? 0) || (Z.land lane LOCAL_LOCK_READER_COUNT_MASK =? 0)
      then Ret UB_LOCK_ERROR else
      do old_ref <- on_lobj h (rmw l_global_ref (fun r => i32 (r - 1)));
      if 1 <? old_ref then on_local h (LocalLock.unlock_s self fuel (tid location)) else
      if old_ref <=? 0 then
        on_lobj h (rmw l_global_ref (fun r => i32 (r + 1))) ;;; Ret UB_LOCK_ERROR
      else
      do delay <- use_delay policy h (identify location);
      do ok <-
        (if negb delay then
           on_lobj h (store (lset l_reserve UB_LOCK_I)) ;;;
           do old <- on_shm (rmw lg_word (fun v => i32 (v + 1)));
           let now := old + 1 in
           if X_LOCK_DECR <? now then
             on_shm (rmw lg_word (fun v => i32 (v - 1))) ;;; Ret false
           else
             (if now =? X_LOCK_DECR then
                do c <- waiting_count;
                if 0 <? c then wake_after_unlock_exclusive location else Ret tt
              else Ret tt) ;;;
             clear_shared_owner_bitmap (node_id location) ;;;
             Ret true
         else on_lobj h (store (lset l_reserve UB_LOCK_S)) ;;; Ret true);
      if negb ok then Ret UB_LOCK_ERROR else
      on_lobj h (store (lset l_hold_global false)) ;;;
      do _ <- on_lobj h (cas_strong l_global_state GLOBAL_HELD GLOBAL_IDLE);
      on_lobj h (store (lset l_read_count 0)) ;;;
      on_local h (LocalLock.unlock_s self fuel (tid location))
  end.
(** *** X *)

Definition give_up_x (h : nat) (rec : bool) (t : Z) : prog rw_world unit :=
  do _ <- on_local h (LocalLock.unlock_x self fuel rec t); Ret tt.

Definition spin_wait_x_round (location : ub_location_t) (h : nat) (deadline : Z) (rec : bool) (is_awakened : bool) (slot i : Z)
    : prog rw_world (Z + spin_end) :=
  if negb (i <? Z.of_nat SPIN_WAIT_ROUNDS) then Ret (inr None) else
  do c <- waiting_count;
  if (0 <? c) && negb is_awakened then Ret (inr None) else
  do cur <- on_shm (load word);
  do '(ok, _) <- (if cur =? X_LOCK_DECR then on_shm (cas_weak lg_word cur 0) else Ret (false, cur));
  if ok : bool then
    on_shm (store (lset lg_owner_x (identify location))) ;;;
    on_shm (store (lset lg_x_rec 1)) ;;;
    on_lobj h (store (lset l_hold_global true)) ;;;
    (if is_awakened then clean_outqueue_waiter slot else Ret tt) ;;;
    Ret (inr (Some UB_LOCK_SUCCESS))
  else if is_awakened then rw_awakened_retry h deadline slot i (give_up_x h rec (tid location))
  else Ret (inl (u32 (i + 1))).
Definition spin_wait_x_loop (location : ub_location_t) (h : nat) (deadline : Z) (rec : bool) : prog rw_world ub_lock_result_t :=
  iter fuel (rw_round (spin_wait_x_round location h deadline rec)
    (rw_queue_phase UB_LOCK_X location h deadline (give_up_x h rec (tid location)))) (false, 0).

Definition lock_x (policy : ub_lock_policy_t) (location : ub_location_t) : prog rw_world ub_lock_result_t :=
  if negb (is_success (verify_param location)) then Ret UB_LOCK_ERROR else
  do deadline <- deadline_of policy;
  do ll <- lookup_local_lock a;
  match ll with
  | None => Ret UB_LOCK_ERROR
  | Some h =>
      do ret <- on_local h (LocalLock.lock_x self fuel (recursive policy) (tid location) deadline);
      if negb (is_success ret) then
        (if bool_decide (ret = UB_LOCK_TIMEOUT) then dump_timeout_holder_info h else Ret tt) ;;;
        Ret ret
      else
        do ret <- delay_release_local_lock h UB_LOCK_X location;
        if bool_decide (ret = UB_LOCK_CONFLICT) then
          on_shm (store (lset lg_owner_x (identify location))) ;;;
          on_shm (store (lset lg_x_rec 1)) ;;;
          on_lobj h (store (lset l_hold_global true)) ;;;
          Ret UB_LOCK_SUCCESS
        else
        do owner <- on_shm (load owner_x);
        if owner =? identify location then
          if recursive policy then
            on_lobj h (store (lset l_hold_global true)) ;;;
            on_shm (rmw lg_x_rec (fun n => u32 (n + 1))) ;;;
            Ret UB_LOCK_SUCCESS
          else
            on_local h (LocalLock.unlock_x self fuel (recursive policy) (tid location)) ;;;
            Ret UB_LOCK_ERROR
        else spin_wait_x_loop location h deadline (recursive policy)
  end.

Definition unlock_x (policy : ub_lock_policy_t) (location : ub_location_t) : prog rw_world ub_lock_result_t :=
  if negb (is_success (verify_param location)) then Ret UB_LOCK_ERROR else
  do ll <- lookup_local_lock a;
  match ll with
  | None => Ret UB_LOCK_ERROR
  | Some h =>
      do delay <- use_delay policy h (identify location);
      do ok <-
        (if negb delay then
           do owner <- on_shm (load owner_x);
           if negb (owner =? identify location) then Ret false else
           do old <- (if recursive policy then on_shm (rmw lg_x_rec (fun n => u32 (n - 1))) else Ret 0);
           if recursive policy && (1 <? old) then Ret true else
           on_lobj h (store (lset l_reserve UB_LOCK_I)) ;;;
           on_lobj h (store (lset l_hold_global false)) ;;;
           on_shm (store (lset lg_owner_x LOCK_INVALID_OWNER)) ;;;
           on_shm (store (lset lg_x_rec 0)) ;;;
           on_shm (store (lset lg_word X_LOCK_DECR)) ;;;
           do c <- waiting_count;
           (if 0 <? c then wake_after_unlock_exclusive location else Ret tt) ;;;
           Ret true
         else
           on_lobj h (store (lset l_reserve UB_LOCK_X)) ;;;
           on_lobj h (store (lset l_hold_global false)) ;;;
           Ret true);
      if negb ok then Ret UB_LOCK_ERROR else
      on_lobj h (store (lset l_global_state GLOBAL_IDLE)) ;;;
      on_local h (LocalLock.unlock_x self fuel (recursive policy) (tid location))
  end.

(** *** SX *)

Definition give_up_sx (h : nat) (rec : bool) (t : Z) : prog rw_world unit :=
  do _ <- on_local h (LocalLock.unlock_sx self fuel rec t); Ret tt.

Definition spin_wait_sx_round (location : ub_location_t) (h : nat) (deadline : Z) (rec : bool) (is_awakened : bool) (slot i : Z)
    : prog rw_world (Z + spin_end) :=
  if negb (i <? Z.of_nat SPIN_WAIT_ROUNDS) then Ret (inr None) else
  do c <- waiting_count;
  if (0 <? c) && negb is_awakened then Ret (inr None) else
  do cur <- on_shm (load word);
  do '(ok, _) <- (if X_LOCK_HALF_DECR <? cur then on_shm (cas_weak lg_word cur (cur - X_LOCK_HALF_DECR))
                  else Ret (false, cur));
  if ok : bool then
    on_shm (store (lset lg_owner_sx (identify location))) ;;;
    on_shm (store (lset lg_sx_rec 1)) ;;;
    on_lobj h (store (lset l_hold_global true)) ;;;
    (if is_awakened then clean_outqueue_waiter slot else Ret tt) ;;;
    Ret (inr (Some UB_LOCK_SUCCESS))
  else if is_awakened then rw_awakened_retry h deadline slot i (give_up_sx h rec (tid location))
  else Ret (inl (u32 (i + 1))).
Definition spin_wait_sx_loop (location : ub_location_t) (h : nat) (deadline : Z) (rec : bool) : prog rw_world ub_lock_result_t :=
  iter fuel (rw_round (spin_wait_sx_round location h deadline rec)
    (rw_queue_phase UB_LOCK_SX location h deadline (give_up_sx h rec (tid location)))) (false, 0).

Definition lock_sx (policy : ub_lock_policy_t) (location : ub_location_t) : prog rw_world ub_lock_result_t :=
  if negb (is_success (verify_param location)) then Ret UB_LOCK_ERROR else
  do deadline <- deadline_of policy;
  do ll <- lookup_local_lock a;
  match ll with
  | None => Ret UB_LOCK_ERROR
  | Some h =>
      do ret <- on_local h (LocalLock.lock_sx self fuel (recursive policy) (tid location) deadline);
      if negb (is_success ret) then
        (if bool_decide (ret = UB_LOCK_TIMEOUT) then dump_timeout_holder_info h else Ret tt) ;;;
        Ret ret
      else
        do ret <- delay_release_local_lock h UB_LOCK_SX location;
        if bool_decide (ret = UB_LOCK_CONFLICT) then
          on_shm (store (lset lg_owner_sx (identify location))) ;;;
          on_shm (store (lset lg_sx_rec 1)) ;;;
          on_lobj h (store (lset l_hold_global true)) ;;;
          Ret UB_LOCK_SUCCESS
        else
        do owner <- on_shm (load owner_sx);
        if owner =? identify location then
          if recursive policy then
            on_lobj h (store (lset l_hold_global true)) ;;;
            on_shm (rmw lg_sx_rec (fun n => u32 (n + 1))) ;;;
            Ret UB_LOCK_SUCCESS
          else
            on_local h (LocalLock.unlock_sx self fuel (recursive policy) (tid location)) ;;;
            Ret UB_LOCK_ERROR
        else spin_wait_sx_loop location h deadline (recursive policy)
  end.

(** How the global part of [unlock_sx] ends. *)
Inductive sx_release : Set := SxRefused | SxReturned | SxReleased.

Definition unlock_sx (policy : ub_lock_policy_t) (location : ub_location_t) : prog rw_world ub_lock_result_t :=
  if negb (is_success (verify_param location)) then Ret UB_LOCK_ERROR else
  do ll <- lookup_local_lock a;
  match ll with
  | None => Ret UB_LOCK_ERROR
  | Some h =>
      do delay <- use_delay policy h (identify location);
      do r <-
        (if negb delay then
           do owner <- on_shm (load owner_sx);
           if negb (owner =? identify location) then Ret SxRefused else
           do old <- (if recursive policy then on_shm (rmw lg_sx_rec (fun n => u32 (n - 1))) else Ret 0);
           if recursive policy && (1 <? old) then Ret SxReleased else
           on_lobj h (store (lset l_reserve UB_LOCK_I)) ;;;
           on_lobj h (store (lset l_hold_global false)) ;;;
           on_shm (store (lset lg_owner_sx LOCK_INVALID_OWNER)) ;;;
           on_shm (store (lset lg_sx_rec 0)) ;;;
           do sx_old <- on_shm (rmw lg_word (fun v => i32 (v + X_LOCK_HALF_DECR)));
           do found <- wake_after_sx (sx_old + X_LOCK_HALF_DECR) location;
           Ret (if found : bool then SxReleased else SxReturned)
         else
           on_lobj h (store (lset l_reserve UB_LOCK_SX)) ;;;
           on_lobj h (store (lset l_hold_global false)) ;;;
           Ret SxReleased);
      match r with
      | SxRefused => Ret UB_LOCK_ERROR
      | SxReturned => Ret UB_LOCK_SUCCESS
      | SxReleased =>
          on_lobj h (store (lset l_global_state GLOBAL_IDLE)) ;;;
          on_local h (LocalLock.unlock_sx self fuel (recursive policy) (tid location))
      end
  end.
End Model.

(** ** Messages *)

Section Messages.
Context (self : Z) (fuel : nat).

Definition validate_release_lock_pointer (addr : Z) : prog rw_world (option nat) :=
  if addr =? 0 then Ret None else
  if negb (addr mod UB_CACHELINE_SIZE =? 0) then Ret None else
  do ll <- lookup_local_lock self addr;
  match ll with
  | None => Ret None
  | Some h =>
      do p <- load (fun w => (heap_get w h).2);
      Ret (if p =? addr then Some h else None)
  end.

(** The UB_RELEASE case of [message_process_thread_func]. *)
Definition on_release (msg : message_t) (b : local_msg_body_t) : prog rw_world unit :=
  do ll <- validate_release_lock_pointer (body_addr b);
  match ll with
  | None => Ret tt
  | Some h =>
      do ok <- on_lobj h try_begin_remote_release;
      if negb ok then Ret tt else
      do old_mode <- on_lobj h (rmw l_reserve (fun _ => UB_LOCK_I));
      if mode_eqb old_mode UB_LOCK_I then on_lobj h end_remote_release else
      do held <- on_lobj h is_held;
      if held : bool then on_lobj h end_remote_release else
      delay_unlock self (body_addr b) fuel old_mode (dest_node_id (header msg)) ;;;
      on_lobj h end_remote_release
  end.

(** The receiving thread of a process. *)
Definition rw_receive : prog rw_world unit :=
  do m <- on_rw_net (receive self);
  message_process_thread_func l_rw_net self on_release m.
End Messages.
