(* ===== verification/RwRecover.v ===== *)
(** Recovery of the read-write lock (src/ub_lock/ub_distribute_lock.cpp, query_holder, rebuild
    and recover) and its C interface (ub_distribute_lock_api.cpp).

    [recover] releases what a failed process held.  [query_holder] reports what a process
    holds from its local lock; [rebuild] constructs the lock in fresh shared memory from the
    reports of all processes and moves the local lock over to it. *)

From S2P Require Import Prelude Atomic CommTypes LockTypes LockRuntime RingQueue LocalLock RwLock.

(** * Query *)

Record ub_lock_query_result_t := QueryResult {
  q_node : Z; held_mode : ub_lock_mode_t; holder_tid : Z; recursive_count : Z; has_shared_ref : bool;
  reserve_mode : ub_lock_mode_t }.

Section Query.
Context (self a : Z).

Definition at_least_one (n : Z) : Z := if n =? 0 then 1 else n.

(** The result code with [result] when it was written. *)
Definition query_holder (location : ub_location_t) : prog rw_world (ub_lock_result_t * option ub_lock_query_result_t) :=
  if negb (is_success (verify_param location)) then Ret (UB_LOCK_ERROR, None) else
  let node := node_id location in
  do ll <- lookup_local_lock self a;
  match ll with
  | None => Ret (UB_LOCK_SUCCESS, Some (QueryResult node UB_LOCK_I 0 0 false UB_LOCK_I))
  | Some h =>
      do reserve <- on_lobj h (load local_is_reserve_lock);
      do ref <- on_lobj h (load global_read_ref_count);
      let shared := 0 <? ref in
      do hold <- on_lobj h (load hold_global);
      do x <- on_lobj h (load lock_x_owner);
      if hold && negb (x =? 0) then
        do n <- on_lobj h (load x_recursive);
        Ret (UB_LOCK_SUCCESS, Some (QueryResult node UB_LOCK_X x (at_least_one n) shared reserve))
      else
        do sx <- on_lobj h (load lock_sx_owner);
        if hold && negb (sx =? 0) then
          do n <- on_lobj h (load sx_recursive);
          Ret (UB_LOCK_SUCCESS, Some (QueryResult node UB_LOCK_SX sx (at_least_one n) shared reserve))
        else
          Ret (UB_LOCK_SUCCESS, Some (QueryResult node (if shared then UB_LOCK_S else UB_LOCK_I) 0 0 shared reserve))
  end.
End Query.

(** * Rebuild *)

(** The enumeration has no other values. *)
Definition is_valid_rebuild_mode (m : ub_lock_mode_t) : bool :=
  mode_eqb m UB_LOCK_I || mode_eqb m UB_LOCK_S || mode_eqb m UB_LOCK_SX || mode_eqb m UB_LOCK_X.

Definition is_valid_query_result_entry (e : ub_lock_query_result_t) : bool :=
  match held_mode e with
  | UB_LOCK_I => (holder_tid e =? 0) && (recursive_count e =? 0) && negb (has_shared_ref e)
  | UB_LOCK_S => (holder_tid e =? 0) && (recursive_count e =? 0) && has_shared_ref e
  | UB_LOCK_X => negb (holder_tid e =? 0) && (0 <? recursive_count e) && negb (has_shared_ref e)
  | UB_LOCK_SX => negb (holder_tid e =? 0) && (0 <? recursive_count e)
  end.

(** A null pointer. *)
Definition is_none {A} (o : option A) : bool := match o with None => true | Some _ => false end.

Definition is_valid_delayed_release_rebuild_state (reserve_entry x_holder sx_holder : option ub_lock_query_result_t)
    (shared_count : Z) : bool :=
  match reserve_entry with
  | None => true
  | Some e =>
      let no_x := is_none x_holder in
      let no_sx := is_none sx_holder in
      match reserve_mode e with
      | UB_LOCK_X => no_x && no_sx && (shared_count =? 0)
      | UB_LOCK_SX => no_x && no_sx
      | UB_LOCK_S => no_x
      | UB_LOCK_I => false
      end
  end.

(** What the loop over the entries accumulates. *)
Record scan_state := Scan {
  x_holder : option ub_lock_query_result_t; sx_holder : option ub_lock_query_result_t;
  reserve_entry : option ub_lock_query_result_t; bitmap : Z; shared_count : Z; seen_nodes : list Z }.

(** [None]: the entry is refused. *)
Definition scan_entry (s : scan_state) (e : ub_lock_query_result_t) : option scan_state :=
  if (UB_MAX_NODES <=? q_node e) || bool_decide (q_node e ∈ seen_nodes s) || negb (is_valid_rebuild_mode (held_mode e))
     || negb (is_valid_rebuild_mode (reserve_mode e)) || negb (is_valid_query_result_entry e) then None else
  let seen := q_node e :: seen_nodes s in
  let reserved := negb (mode_eqb (reserve_mode e) UB_LOCK_I) in
  let delayed_with_shared := mode_eqb (held_mode e) UB_LOCK_S && has_shared_ref e in
  if reserved && ((negb (mode_eqb (held_mode e) UB_LOCK_I) && negb delayed_with_shared) || negb (is_none (reserve_entry s)))
  then None else
  let reserve := if reserved then Some e else reserve_entry s in
  let bm := if has_shared_ref e then Z.lor (bitmap s) (u32 (Z.shiftl 1 (q_node e))) else bitmap s in
  let n := if has_shared_ref e then u32 (shared_count s + 1) else shared_count s in
  match held_mode e with
  | UB_LOCK_I | UB_LOCK_S => Some (Scan (x_holder s) (sx_holder s) reserve bm n seen)
  | UB_LOCK_X =>
      if negb (is_none (x_holder s)) || negb (is_none (sx_holder s)) || (0 <? n) then None
      else Some (Scan (Some e) (sx_holder s) reserve bm n seen)
  | UB_LOCK_SX =>
      if negb (is_none (sx_holder s)) || negb (is_none (x_holder s)) then None
      else Some (Scan (x_holder s) (Some e) reserve bm n seen)
  end.
Fixpoint scan_entries (es : list ub_lock_query_result_t) (s : scan_state) : option scan_state :=
  match es with
  | [] => Some s
  | e :: es' => match scan_entry s e with Some s' => scan_entries es' s' | None => None end
  end.
Definition scan_start : scan_state := Scan None None None 0 0 [].

Definition find_query_result_for_node (es : list ub_lock_query_result_t) (node : Z) : option ub_lock_query_result_t :=
  find (fun e => q_node e =? node) es.

(** [query_results] is null or an array of [query_result_count] entries. *)
Record ub_lock_rebuild_info_t := RebuildInfo {
  query_results : option (list ub_lock_query_result_t); query_result_count : Z }.

Definition REBUILD_INIT_IN_PROGRESS : Z := -1.

Section Rebuild.
(** [a] is the new lock. *)
Context (self a : Z) (fuel : nat).
Abbreviation on_shm := (lift (l_mem a)).
Abbreviation on_q := (lift (lens_comp (l_mem a) lg_q)).

Definition reset_shared_lock_for_rebuild : prog rw_world unit :=
  on_shm (store (lset lg_word X_LOCK_DECR)) ;;;
  on_q (store (lset l_count 0)) ;;;
  on_q (store (lset l_head 0)) ;;;
  on_q (store (lset l_tail 0)) ;;;
  on_shm (store (lset lg_bitmap 0)) ;;;
  on_shm (store (lset lg_owner_x LOCK_INVALID_OWNER)) ;;;
  on_shm (store (lset lg_owner_sx LOCK_INVALID_OWNER)) ;;;
  on_shm (store (lset lg_reserve LOCK_INVALID_OWNER)) ;;;
  on_shm (store (lset lg_sx_rec 0)) ;;;
  on_shm (store (lset lg_x_rec 0)) ;;;
  for_each (seqZ 0 UB_MAX_NODES) (fun i =>
    on_q (store (lset (l_seq i) UB_WAIT_EMPTY)) ;;;
    on_q (store_mode i UB_LOCK_I) ;;;
    on_q (store_who i (Location 0xFF 0))).

Definition try_begin_shared_rebuild_init : prog rw_world bool :=
  do '(ok, _) <- on_shm (cas_strong lg_inited 0 REBUILD_INIT_IN_PROGRESS); Ret (ok : bool).

Definition wait_rebuild_round (_ : unit) : prog rw_world (unit + unit) :=
  do st <- on_shm (load rw_inited);
  Ret (if st =? REBUILD_INIT_IN_PROGRESS then inl tt else inr tt).
Definition wait_shared_rebuild_init_done : prog rw_world unit := iter fuel wait_rebuild_round tt.

(** The bitmap and the count of readers with the delayed reader added. *)
Definition replay_delayed_release_state (e : ub_lock_query_result_t) (bm n : Z) (sx : option ub_lock_query_result_t)
    (owner : Z) : prog rw_world (Z * Z) :=
  on_shm (store (lset lg_reserve owner)) ;;;
  match reserve_mode e with
  | UB_LOCK_X =>
      on_shm (store (lset lg_word 0)) ;;;
      on_shm (store (lset lg_owner_x owner)) ;;;
      on_shm (store (lset lg_x_rec 1)) ;;;
      Ret (bm, n)
  | UB_LOCK_SX =>
      on_shm (store (lset lg_word (i32 (X_LOCK_HALF_DECR - n)))) ;;;
      on_shm (store (lset lg_owner_sx owner)) ;;;
      on_shm (store (lset lg_sx_rec 1)) ;;;
      Ret (bm, n)
  | UB_LOCK_S =>
      let bit := u32 (Z.shiftl 1 (q_node e)) in
      let '(bm', n') := if Z.land bm bit =? 0 then (Z.lor bm bit, u32 (n + 1)) else (bm, n) in
      on_shm (store (lset lg_word (i32 ((if is_none sx then X_LOCK_DECR else X_LOCK_HALF_DECR) - n')))) ;;;
      Ret (bm', n')
  | UB_LOCK_I => Ret (bm, n)
  end.

(** Everything of the shared state but the queue and the registry of nodes. *)
Definition restore_holders (s : scan_state) : prog rw_world unit :=
  match x_holder s with
  | Some e =>
      on_shm (store (lset lg_word 0)) ;;;
      on_shm (store (lset lg_owner_x (make_global_owner (q_node e) (holder_tid e)))) ;;;
      on_shm (store (lset lg_x_rec (recursive_count e)))
  | None =>
      match sx_holder s with
      | Some e =>
          on_shm (store (lset lg_word (i32 (X_LOCK_HALF_DECR - shared_count s)))) ;;;
          on_shm (store (lset lg_owner_sx (make_global_owner (q_node e) (holder_tid e)))) ;;;
          on_shm (store (lset lg_sx_rec (recursive_count e)))
      | None =>
          if 0 <? shared_count s then on_shm (store (lset lg_word (i32 (X_LOCK_DECR - shared_count s)))) else Ret tt
      end
  end.

Definition rebuild_shared (s : scan_state) : prog rw_world unit :=
  clear_node_registry_for_rebuild a ;;;
  reset_shared_lock_for_rebuild ;;;
  restore_holders s ;;;
  do '(bm, _) <-
    match reserve_entry s with
    | Some e =>
        replay_delayed_release_state e (bitmap s) (shared_count s) (sx_holder s) (make_global_owner (q_node e) 0)
    | None => Ret (bitmap s, shared_count s)
    end;
  on_shm (store (lset lg_bitmap bm)).

(** [switch_local_lock_binding] holds the registry's mutex throughout; [oom] says that
    [emplace] throws.  [inr None] is a null result, [inl tt] the exception. *)
Definition point_to (h : nat) (addr : Z) (w : rw_world) : rw_world :=
  mkRwWorld (mem w) (<[h := ((heap_get w h).1, addr)]> (heap w)) (registry w) (rw_net w) (rw_in w).
Definition switch_local_lock_binding (old_lock new_lock : Z) (oom : bool) : prog rw_world (unit + option nat) :=
  if (old_lock =? 0) || (new_lock =? 0) then Ret (inr None) else
  act (fun w =>
    let r := reg_of w self in
    let keep := match r !! new_lock with
                | None => (inr None, w)
                | Some h => (inr (Some h), point_to h new_lock w)
                end in
    if old_lock =? new_lock then keep else
    match r !! old_lock with
    | None => keep
    | Some h =>
        if is_none (r !! new_lock) && oom then (inl tt, w) else
        (inr (Some h), point_to h new_lock (set_reg self (delete old_lock (<[new_lock := h]> r)) w))
    end).

Definition rebuild (old_lock : Z) (info : ub_lock_rebuild_info_t) (location : ub_location_t)
    : prog rw_world ub_lock_result_t :=
  let n := query_result_count info in
  match query_results info with
  | None => Ret UB_LOCK_ERROR
  | Some results =>
      if (old_lock =? 0) || (UB_MAX_NODES <=? node_id location) || (n =? 0) || (UB_MAX_NODES <? n)
      then Ret UB_LOCK_ERROR else
      let entries := take (Z.to_nat n) results in
      if is_none (find_query_result_for_node entries (node_id location)) then Ret UB_LOCK_ERROR else
      match scan_entries entries scan_start with
      | None => Ret UB_LOCK_ERROR
      | Some s =>
          if negb (is_none (x_holder s)) && (negb (is_none (sx_holder s)) || (0 <? shared_count s)) then Ret UB_LOCK_ERROR else
          if negb (is_valid_delayed_release_rebuild_state (reserve_entry s) (x_holder s) (sx_holder s) (shared_count s))
          then Ret UB_LOCK_ERROR else
          do old_ll <- lookup_local_lock self old_lock;
          if is_none old_ll then Ret UB_LOCK_ERROR else
          do do_shared_init <- try_begin_shared_rebuild_init;
          do ready <-
            (if do_shared_init : bool then Ret true else
             wait_shared_rebuild_init_done ;;;
             do st <- on_shm (load rw_inited); Ret (negb (st <=? 0)));
          if negb ready then Ret UB_LOCK_ERROR else
          (if do_shared_init : bool then rebuild_shared s else Ret tt) ;;;
          do oom <- ask QExternal;
          do ll <- switch_local_lock_binding old_lock a (negb (oom =? 0));
          match ll with
          | inr (Some _) =>
              on_shm (store (fun m => lset lg_registry (setZ (node_registry m) (node_id location) a) m)) ;;;
              on_rw_net (register_message_process_func self) ;;;
              (if do_shared_init : bool then on_shm (store (lset lg_inited (i32 n))) else Ret tt) ;;;
              Ret UB_LOCK_SUCCESS
          | _ =>
              (if do_shared_init : bool then on_shm (store (lset lg_inited 0)) else Ret tt) ;;;
              Ret UB_LOCK_ERROR
          end
      end
  end.

(** * Recovery of a failed process *)

Definition parse_owner_pid (owner : Z) : Z := u32 (Z.shiftr owner 32).

(** The loop clears the lowest set bit; 32 rounds are enough for 32 bits. *)
Fixpoint bit_count_loop (n : nat) (value count : Z) : Z :=
  match n with
  | O => count
  | S n' => if value =? 0 then count else bit_count_loop n' (Z.land value (u32 (value - 1))) (u32 (count + 1))
  end.
Definition bit_count_u32 (value : Z) : Z := bit_count_loop 32 value 0.

Definition valid_shared_owner_count (bm : Z) : Z :=
  bit_count_u32 (Z.land bm (if 32 <=? UB_MAX_NODES then 0xFFFFFFFF else u32 (Z.shiftl 1 UB_MAX_NODES) - 1)).

Definition expected_shared_owner_count (w : Z) : Z :=
  if (0 <? w) && (w <? X_LOCK_HALF_DECR) then u32 (X_LOCK_HALF_DECR - w) else
  if (X_LOCK_HALF_DECR <? w) && (w <? X_LOCK_DECR) then u32 (X_LOCK_DECR - w) else 0.

(** Nothing calls it in this version. *)
Definition release_one_round (cur : Z) : prog ub_rw_lock (Z + bool) :=
  let attempt upper_bound :=
    let next := i32 (cur + 1) in
    if upper_bound <? next then Ret (inr false) else
    do '(ok, cur') <- cas_weak lg_word cur next;
    Ret (if ok : bool then inr true else inl cur') in
  if (0 <? cur) && (cur <? X_LOCK_HALF_DECR) then attempt X_LOCK_HALF_DECR
  else if (X_LOCK_HALF_DECR <? cur) && (cur <? X_LOCK_DECR) then attempt X_LOCK_DECR
  else Ret (inr false).
Definition try_release_one_shared_owner : prog ub_rw_lock bool := do cur <- load word; iter fuel release_one_round cur.

(** The owner that was taken; [None] when there was none or every attempt failed. *)
Fixpoint try_take_valid_owner (retry_times : nat) (l : lens ub_rw_lock Z) : prog rw_world (option Z) :=
  match retry_times with
  | O => Ret None
  | S n =>
      do owner <- on_shm (load (lget l));
      do '(ok, _) <- (if negb (owner =? LOCK_INVALID_OWNER) then on_shm (cas_weak l owner LOCK_INVALID_OWNER)
                      else Ret (false, owner));
      if ok : bool then Ret (Some owner) else try_take_valid_owner n l
  end.

Definition clear_bit_round (mask bm : Z) : prog rw_world (Z + bool) :=
  if negb (Z.land bm mask =? 0) then
    do '(ok, bm') <- on_shm (cas_weak lg_bitmap bm (Z.land bm (u32 (Z.lnot mask))));
    Ret (if ok : bool then inr true else inl bm')
  else Ret (inr false).
Definition clear_failed_owner_bit (mask : Z) : prog rw_world bool :=
  do bm <- on_shm (load shared_bitmap); iter fuel (clear_bit_round mask) bm.

Definition force_round (actual old : Z) : prog rw_world (Z + unit) :=
  let expected_now := expected_shared_owner_count old in
  if expected_now <=? actual then Ret (inr tt) else
  do '(ok, old') <- on_shm (cas_weak lg_word old (old + (expected_now - actual)));
  Ret (if ok : bool then inr tt else inl old').
Definition force_release_to_bitmap (actual : Z) : prog rw_world unit :=
  do old <- on_shm (load word); iter fuel (force_round actual) old.

Definition recover_shared_lock (process_id : Z) : prog rw_world unit :=
  if UB_MAX_NODES <=? process_id then Ret tt else
  let mask := u32 (Z.shiftl 1 process_id) in
  do cur <- on_shm (load word);
  let expected := expected_shared_owner_count cur in
  do bm <- on_shm (load shared_bitmap);
  let actual := valid_shared_owner_count bm in
  if actual =? expected then
    do cleared <- clear_failed_owner_bit mask;
    if cleared : bool then
      on_shm (store (lset lg_reserve LOCK_INVALID_OWNER)) ;;;
      do _ <- on_shm (rmw lg_word (fun v => i32 (v + 1))); Ret tt
    else Ret tt
  else if actual <? expected then
    do _ <- clear_failed_owner_bit mask;
    on_shm (store (lset lg_reserve LOCK_INVALID_OWNER)) ;;;
    force_release_to_bitmap actual
  else
    do cleared <- clear_failed_owner_bit mask;
    if cleared : bool then on_shm (store (lset lg_reserve LOCK_INVALID_OWNER)) else Ret tt.

(** [recover_exclusive_x] and [recover_exclusive_sx] differ in the fields of the owner. *)
Definition recover_exclusive (l_own l_rec : lens ub_rw_lock Z) (process_id : Z) : prog rw_world unit :=
  let release :=
    on_shm (store (lset lg_reserve LOCK_INVALID_OWNER)) ;;;
    on_shm (store (lset l_rec 0)) ;;;
    on_shm (store (lset lg_word X_LOCK_DECR)) in
  do taken <- try_take_valid_owner 5 l_own;
  match taken with
  | None => release
  | Some owner =>
      if negb (parse_owner_pid owner =? process_id) then on_shm (store (lset l_own owner)) else release
  end.
Definition recover_exclusive_x : Z -> prog rw_world unit := recover_exclusive lg_owner_x lg_x_rec.
Definition recover_exclusive_sx : Z -> prog rw_world unit := recover_exclusive lg_owner_sx lg_sx_rec.

Definition recover_shared_sx_s (process_id : Z) : prog rw_world unit :=
  do taken <- try_take_valid_owner 5 lg_owner_sx;
  let release :=
    on_shm (store (lset lg_reserve LOCK_INVALID_OWNER)) ;;;
    on_shm (store (lset lg_sx_rec 0)) ;;;
    do _ <- on_shm (rmw lg_word (fun v => i32 (v + X_LOCK_HALF_DECR))); Ret tt in
  match taken with
  | None => release
  | Some owner => if parse_owner_pid owner =? process_id then release else on_shm (store (lset lg_owner_sx owner))
  end ;;;
  recover_shared_lock process_id.

Definition recover_slot (process_id i : Z) : prog rw_world unit :=
  do seq <- on_q (load (lget (l_seq i)));
  if seq =? UB_WAIT_WRITING then do _ <- on_q (ring_queue_try_mark_timeout fuel i); Ret tt else
  do pid <- on_q (load (fun q => node_id (who (slot_of q i))));
  if negb (pid =? process_id) then Ret tt else
  do _ <- on_q (ring_queue_try_mark_timeout fuel i); Ret tt.

Definition drop_ref_round (cur : Z) : prog rw_world (Z + unit) :=
  if 1 <? cur then
    do '(ok, cur') <- on_shm (cas_weak lg_inited cur (cur - 1));
    Ret (if ok : bool then inr tt else inl cur')
  else Ret (inr tt).

Definition recover_word (process_id : Z) : prog rw_world unit :=
  do cur <- on_shm (load word);
  if cur =? 0 then recover_exclusive_x process_id
  else if cur =? X_LOCK_HALF_DECR then recover_exclusive_sx process_id
  else if (0 <? cur) && (cur <? X_LOCK_HALF_DECR) then recover_shared_sx_s process_id
  else if (X_LOCK_HALF_DECR <? cur) && (cur <? X_LOCK_DECR) then recover_shared_lock process_id
  else Ret tt.

Definition recover (process_id : Z) (location : ub_location_t) : prog rw_world ub_lock_result_t :=
  if UB_MAX_NODES <=? process_id then Ret UB_LOCK_ERROR else
  do init_state <- on_shm (load rw_inited);
  if init_state <? 0 then Ret UB_LOCK_ERROR else
  recover_word process_id ;;;
  for_each (seqZ 0 UB_MAX_NODES) (recover_slot process_id) ;;;
  do w <- on_shm (load word);
  (if w =? X_LOCK_DECR then wake_after_unlock_exclusive self a fuel location else Ret tt) ;;;
  do cur <- on_shm (load rw_inited);
  iter fuel drop_ref_round cur ;;;
  Ret UB_LOCK_SUCCESS.
End Rebuild.

(** * The C interface *)

(** Pointers are [None] where they are null; [a] is the address of the lock, 0 for null. *)
Definition kDefaultPolicy : ub_lock_policy_t := Policy 10000 false false.

Section Api.
Context (self a : Z) (fuel : nat).

Definition ub_rw_lock_create (location : option ub_location_t) : prog rw_world unit :=
  match location with Some l => if a =? 0 then Ret tt else lock_create self a fuel l | None => Ret tt end.
Definition ub_rw_lock_free (location : option ub_location_t) : prog rw_world unit :=
  match location with Some l => if a =? 0 then Ret tt else lock_free self a fuel l | None => Ret tt end.

Definition with_policy (op : ub_lock_policy_t -> ub_location_t -> prog rw_world ub_lock_result_t)
    (policy : option ub_lock_policy_t) (location : option ub_location_t) : prog rw_world ub_lock_result_t :=
  match location with
  | Some l => if a =? 0 then Ret UB_LOCK_ERROR else op (default kDefaultPolicy policy) l
  | None => Ret UB_LOCK_ERROR
  end.
Definition ub_rw_lock_s_lock := with_policy (lock_s self a fuel).
Definition ub_rw_lock_x_lock := with_policy (lock_x self a fuel).
Definition ub_rw_lock_sx_lock := with_policy (lock_sx self a fuel).
Definition ub_rw_lock_s_unlock := with_policy (unlock_s self a fuel).
Definition ub_rw_lock_x_unlock := with_policy (unlock_x self a fuel).
Definition ub_rw_lock_sx_unlock := with_policy (unlock_sx self a fuel).

Definition ub_rw_lock_recover (process_id : Z) (location : option ub_location_t) : prog rw_world ub_lock_result_t :=
  match location with Some l => if a =? 0 then Ret UB_LOCK_ERROR else recover self a fuel process_id l | None => Ret UB_LOCK_ERROR end.
Definition ub_rw_lock_query_holder (location : option ub_location_t) (null_result : bool)
    : prog rw_world (ub_lock_result_t * option ub_lock_query_result_t) :=
  match location with
  | Some l => if (a =? 0) || null_result then Ret (UB_LOCK_ERROR, None) else query_holder self a l
  | None => Ret (UB_LOCK_ERROR, None)
  end.
(** [a] is the new lock. *)
Definition ub_rw_lock_rebuild (old_lock : Z) (info : option ub_lock_rebuild_info_t) (location : option ub_location_t)
    : prog rw_world ub_lock_result_t :=
  match info, location with
  | Some i, Some l => if (old_lock =? 0) || (a =? 0) then Ret UB_LOCK_ERROR else rebuild self a fuel old_lock i l
  | _, _ => Ret UB_LOCK_ERROR
  end.
End Api.
