(* ===== verification/RwSeq.v ===== *)
(** The read-write lock, one operation at a time (RwLock.v, sequential reading).

    The shared lock and the local lock of the running process are the two parts of the world an
    operation touches; [view] puts them back into a world, and the lemmas of [View] move a run
    of either part into the world.  On top of it: the contract of the three modes. *)

From S2P Require Import Prelude Atomic CommTypes LockTypes LockRuntime RingQueue LocalLock LocalExcl LocalSeq RwLock.

(** * A world seen as its two parts *)

Section View.
Context (a : Z) (h : nat) (M : gmap Z ub_rw_lock) (H : list (LocalLock * Z)) (R : list (gmap Z nat)).
Hypothesis Hh : (h < length H)%nat.
Implicit Types (m : ub_rw_lock) (o : LocalLock) (n : network) (i : list (nat * ub_lock_mode_t)).

Definition view m o n i : rw_world := mkRwWorld (<[a := m]> M) (<[h := (o, a)]> H) R n i.

Lemma view_lock m o n i : lock_at (view m o n i) a = m.
Proof. unfold lock_at, view. cbn. by rewrite lookup_insert_eq. Qed.
Lemma view_heap m o n i : heap_get (view m o n i) h = (o, a).
Proof. unfold heap_get, view. cbn. by rewrite list_lookup_insert_eq. Qed.
Lemma view_set_lock m m' o n i : lset (l_mem a) m' (view m o n i) = view m' o n i.
Proof. unfold view. cbn. by rewrite insert_insert_eq. Qed.
Lemma view_set_obj m o o' n i : lset (l_lobj h) o' (view m o n i) = view m o' n i.
Proof. unfold l_lobj. cbn [lset]. rewrite view_heap. unfold view. cbn. by rewrite list_insert_insert_eq. Qed.

Lemma run_on_shm {A} (p : prog ub_rw_lock A) env m o n i :
  run (lift (l_mem a) p) env (view m o n i) = let '(r, env', m') := run p env m in (r, env', view m' o n i).
Proof.
  revert env m. induction p as [x|C g k IH|q k IH|]; intros env m; cbn [lift run].
  - done.
  - change (lget (l_mem a) (view m o n i)) with (lock_at (view m o n i) a). rewrite view_lock.
    destruct (g m) as [b m']. cbn zeta. rewrite view_set_lock. apply IH.
  - destruct env; apply IH.
  - done.
Qed.

Lemma run_obj {A} (p : prog LocalLock A) env m o n i :
  run (lift (l_lobj h) p) env (view m o n i) = let '(r, env', o') := run p env o in (r, env', view m o' n i).
Proof.
  revert env o. induction p as [x|C g k IH|q k IH|]; intros env o; cbn [lift run].
  - done.
  - change (lget (l_lobj h) (view m o n i)) with (heap_get (view m o n i) h).1. rewrite view_heap. cbn [fst].
    destruct (g o) as [b o']. cbn zeta. rewrite view_set_obj. apply IH.
  - destruct env; apply IH.
  - done.
Qed.

Lemma run_rw_net {A} (p : prog network A) env m o n i :
  run (lift l_rw_net p) env (view m o n i) = let '(r, env', n') := run p env n in (r, env', view m o n' i).
Proof.
  revert env n. induction p as [x|C g k IH|q k IH|]; intros env n; cbn [lift run].
  - done.
  - change (lget l_rw_net (view m o n i)) with n. destruct (g n) as [b n']. cbn zeta.
    change (lset l_rw_net n' (view m o n i)) with (view m o n' i). apply IH.
  - destruct env; apply IH.
  - done.
Qed.

(** [waiting_count] of the lock, which operations of the local lock read. *)
Definition set_count (c : Z) m : ub_rw_lock := lset lg_q (lset l_count c (rw_q m)) m.

Lemma set_count_id m : set_count (q_count (rw_q m)) m = m.
Proof. by destruct m as [? [] ? ? ? ? ? ? ? ?]. Qed.

Lemma run_on_local {A} (p : prog local_world A) env m o n i :
  run (lift (l_local h) p) env (view m o n i) =
    let '(r, env', v) := run p env (mkLocalWorld o n (q_count (rw_q m)) i) in
    (r, env', view (set_count (ub_waiting_count v) m) (ll v) (lnet v) (in_cs v)).
Proof.
  assert (Hget : forall m o n i, lget (l_local h) (view m o n i) = mkLocalWorld o n (q_count (rw_q m)) i).
  { intros. unfold l_local. cbn [lget]. rewrite view_heap. cbn [fst snd]. by rewrite view_lock. }
  assert (Hset : forall v m o n i, lset (l_local h) v (view m o n i) = view (set_count (ub_waiting_count v) m) (ll v) (lnet v) (in_cs v)).
  { intros. unfold l_local. cbn [lset]. rewrite view_heap. cbn [fst snd]. rewrite view_lock. unfold view. cbn.
    by rewrite insert_insert_eq, list_insert_insert_eq. }
  revert env m o n i. induction p as [x|C g k IH|q k IH|]; intros env m o n i; cbn [lift run].
  - cbn [ub_waiting_count ll lnet in_cs]. by rewrite set_count_id.
  - rewrite Hget. destruct (g (mkLocalWorld o n (q_count (rw_q m)) i)) as [b v]. cbn zeta. rewrite Hset, IH.
    destruct v as [o1 n1 c1 i1]. cbn [ll lnet ub_waiting_count in_cs]. change (q_count (rw_q (set_count c1 m))) with c1.
    destruct (run (k b) env (mkLocalWorld o1 n1 c1 i1)) as [[r e] v2]. done.
  - destruct env; apply IH.
  - cbn [ub_waiting_count ll lnet in_cs]. by rewrite set_count_id.
Qed.
End View.

(** * The contract of the three modes *)

(** Nobody holds the global lock and nobody waits for it. *)
Record free_rw (m : ub_rw_lock) : Prop := {
  fr_word : word m = X_LOCK_DECR; fr_x : owner_x m = LOCK_INVALID_OWNER; fr_sx : owner_sx m = LOCK_INVALID_OWNER;
  fr_reserve : reserve_owner m = LOCK_INVALID_OWNER; fr_sxr : sx_rec m = 0; fr_xr : x_rec m = 0;
  fr_bitmap : shared_bitmap m = 0; fr_count : q_count (rw_q m) = 0 }.

(** The process has no thread that holds the local lock, and keeps no global lock. *)
Record free_local (o : LocalLock) : Prop := {
  fo_lock : free_lock o; fo_reserve : local_is_reserve_lock o = UB_LOCK_I; fo_hold : hold_global o = false;
  fo_state : global_state o = GLOBAL_IDLE; fo_ref : global_read_ref_count o = 0 }.

(** The states in between. *)
Definition rw_x_held (id : Z) (m : ub_rw_lock) : ub_rw_lock := lset lg_x_rec 1 (lset lg_owner_x id (lset lg_word 0 m)).
Definition rw_sx_held (id : Z) (m : ub_rw_lock) : ub_rw_lock :=
  lset lg_sx_rec 1 (lset lg_owner_sx id (lset lg_word X_LOCK_HALF_DECR m)).
Definition rw_s_held (node : Z) (m : ub_rw_lock) : ub_rw_lock :=
  lset lg_bitmap (u32 (Z.shiftl 1 node)) (lset lg_word (X_LOCK_DECR - 1) m).
Definition local_s_held (t : Z) (o : LocalLock) : LocalLock :=
  lset l_global_state GLOBAL_HELD (lset l_hold_global true (lset l_global_ref 1 (s_taken t o))).

Section Contract.
Context (self a : Z) (h : nat) (fuel : nat) (M : gmap Z ub_rw_lock) (H : list (LocalLock * Z)) (R : list (gmap Z nat)).
Context (policy : ub_lock_policy_t) (loc : ub_location_t).
Hypothesis Hh : (h < length H)%nat.
Hypothesis Hreg : getZ ∅ R self !! a = Some h.
Hypothesis Hfuel : (1 <= fuel)%nat.
Hypothesis Hdelay : allow_delay_release policy = false.
Hypothesis Hloc : valid_location loc.
Hypothesis Hnode : is_invalid_node (node_id loc) = false.
Hypothesis Htid : tid loc <> 0.
Abbreviation V := (view a h M H R).

Lemma verify_ok : is_success (verify_param loc) = true.
Proof. unfold verify_param. unfold is_invalid_node in Hnode. by rewrite Hnode. Qed.

Lemma run_lookup env m o n i : run (lookup_local_lock self a) env (V m o n i) = (Some (Some h), env, V m o n i).
Proof. unfold lookup_local_lock. cbn [load act run]. unfold reg_of. cbn [registry view]. by rewrite Hreg. Qed.

Lemma run_deadline w : run (deadline_of policy) [] w = (Some (0 + timeout_ts policy * 1000), [], w).
Proof. done. Qed.

Lemma run_count env m o n i : run (waiting_count a) env (V m o n i) = (Some (q_count (rw_q m)), env, V m o n i).
Proof.
  unfold waiting_count, load, act. cbn [lift]. rewrite run_act. unfold lens_comp. cbn [lget lset fst snd].
  change (lget (l_mem a) (V m o n i)) with (lock_at (V m o n i) a). rewrite view_lock. cbn [lg_q lget lset].
  rewrite view_set_lock. cbn [run]. by destruct m.
Qed.

(** The token of a delayed release is absent. *)
Lemma run_no_token md env m o n i :
  local_is_reserve_lock o = UB_LOCK_I ->
  run (delay_release_local_lock self a fuel h md loc) env (V m o n i) = (Some UB_LOCK_SUCCESS, env, V m o n i).
Proof.
  intros Hr. unfold delay_release_local_lock. rewrite run_bind, run_obj by done. cbn [run rmw act lget lset l_reserve fst snd].
  rewrite Hr. change (mode_eqb UB_LOCK_I UB_LOCK_I) with true. cbn [negb run]. do 2 f_equal. destruct o; cbn in *. by subst.
Qed.

Lemma run_no_delay env id w : run (use_delay a policy h id) env w = (Some false, env, w).
Proof. unfold use_delay. by rewrite Hdelay. Qed.

Lemma own_id_valid : (LOCK_INVALID_OWNER =? identify loc) = false.
Proof. apply Z.eqb_neq. intros He. by apply (identify_not_invalid loc). Qed.

(** The first round of the loop of a mode. *)
Lemma run_rw_loop spin q r env w w' :
  run (spin false 0 0) env w = (Some (inr (Some r)), env, w') ->
  run (iter fuel (rw_round fuel spin q) (false, 0)) env w = (Some r, env, w').
Proof.
  intros Hs. rewrite iter_round by done. rewrite run_bind. unfold rw_round. rewrite run_bind.
  rewrite (iter_round fuel (spin false 0)) by done. rewrite run_bind, Hs. done.
Qed.

(** Loads and stores of the two parts. *)
Ltac shm := rewrite ?run_bind, run_on_shm by done; cbn [run load store rmw act].
Ltac obj := rewrite ?run_bind, run_obj by done; cbn [run load store rmw act].

Lemma run_rw_lock_x m o n i :
  free_rw m -> free_local o ->
  run (lock_x self a fuel policy loc) [] (V m o n i) =
    (Some UB_LOCK_SUCCESS, [], V (rw_x_held (identify loc) m) (lset l_hold_global true (x_taken (tid loc) o)) n i).
Proof.
  intros [Fw Fx Fsx Fr Fsr Fxr Fb Fc] [Fl Fres Fh Fs Fref]. unfold lock_x. rewrite verify_ok. cbn [negb].
  rewrite run_bind, run_deadline, run_bind, run_lookup, run_bind, run_on_local, run_lock_x by done.
  cbn [ub_waiting_count ll lnet in_cs]. rewrite set_count_id. change (negb (is_success UB_LOCK_SUCCESS)) with false. cbv iota.
  rewrite run_bind, run_no_token by done. cbn [bool_decide]. rewrite bool_decide_false by done.
  shm. rewrite Fx, own_id_valid. apply run_rw_loop.
  unfold spin_wait_x_round. change (negb (0 <? Z.of_nat SPIN_WAIT_ROUNDS)) with false. cbv iota.
  rewrite run_bind, run_count, Fc, Z.ltb_irrefl. cbn [andb]. shm.
  rewrite Fw, Z.eqb_refl, run_bind, run_on_shm by done.
  assert (run (cas_weak lg_word X_LOCK_DECR 0) [] m = (Some (true, X_LOCK_DECR), [], lset lg_word 0 m)) as ->.
  { cbn. by rewrite Fw, Z.eqb_refl. }
  do 2 shm. obj. done.
Qed.

Lemma lock_result_ok (r : ub_lock_result_t) : r = UB_LOCK_SUCCESS -> negb (is_success r) = false.
Proof. by intros ->. Qed.

Lemma run_rw_unlock_x m o n i :
  free_rw m -> free_local o ->
  run (unlock_x self a fuel policy loc) []
    (V (rw_x_held (identify loc) m) (lset l_hold_global true (x_taken (tid loc) o)) n i) = (Some UB_LOCK_SUCCESS, [], V m o n i).
Proof.
  intros [Fw Fx Fsx Fr Fsr Fxr Fb Fc] [Fl Fres Fh Fs Fref]. unfold unlock_x. rewrite verify_ok. cbn [negb].
  rewrite run_bind, run_lookup, run_bind, run_no_delay. cbn [negb]. shm.
  change (owner_x (rw_x_held (identify loc) m)) with (identify loc). rewrite Z.eqb_refl. cbn [negb]. rewrite ?run_bind.
  assert (Hold : exists x, run (if recursive policy then lift (l_mem a) (rmw lg_x_rec (fun n => u32 (n - 1))) else Ret 0) []
    (V (rw_x_held (identify loc) m) (lset l_hold_global true (x_taken (tid loc) o)) n i) =
    (Some (if recursive policy then 1 else 0), [], V (lset lg_x_rec x (rw_x_held (identify loc) m)) (lset l_hold_global true (x_taken (tid loc) o)) n i)).
  { destruct (recursive policy); [exists 0|exists 1]; [|done]. by rewrite run_on_shm. }
  destruct Hold as [x ->]. assert (recursive policy && (1 <? (if recursive policy then 1 else 0)) = false) as ->
    by (by destruct (recursive policy)).
  do 2 obj. do 3 shm. rewrite run_bind, run_count.
  match goal with |- context [q_count (rw_q ?x)] => change (q_count (rw_q x)) with (q_count (rw_q m)) end. rewrite Fc, Z.ltb_irrefl. cbn [bind run negb]. obj. rewrite run_on_local by done.
  assert (Heq : lset l_global_state GLOBAL_IDLE (lset l_hold_global false (lset l_reserve UB_LOCK_I
    (lset l_hold_global true (x_taken (tid loc) o)))) = x_taken (tid loc) o).
  { destruct o; cbn in *. by subst. }
  rewrite Heq, run_unlock_x by done. cbn [ub_waiting_count ll lnet in_cs]. rewrite set_count_id. do 2 f_equal.
  destruct m; cbn in *. by subst.
Qed.
Lemma run_rw_lock_sx m o n i :
  free_rw m -> free_local o ->
  run (lock_sx self a fuel policy loc) [] (V m o n i) =
    (Some UB_LOCK_SUCCESS, [], V (rw_sx_held (identify loc) m) (lset l_hold_global true (sx_taken (tid loc) o)) n i).
Proof.
  intros [Fw Fx Fsx Fr Fsr Fxr Fb Fc] [Fl Fres Fh Fs Fref]. unfold lock_sx. rewrite verify_ok. cbn [negb].
  rewrite run_bind, run_deadline, run_bind, run_lookup, run_bind, run_on_local, run_lock_sx by done.
  cbn [ub_waiting_count ll lnet in_cs]. rewrite set_count_id. change (negb (is_success UB_LOCK_SUCCESS)) with false. cbv iota.
  rewrite run_bind, run_no_token by done. cbn [bool_decide]. rewrite bool_decide_false by done.
  shm. rewrite Fsx, own_id_valid. apply run_rw_loop.
  unfold spin_wait_sx_round. change (negb (0 <? Z.of_nat SPIN_WAIT_ROUNDS)) with false. cbv iota.
  rewrite run_bind, run_count, Fc, Z.ltb_irrefl. cbn [andb]. shm.
  rewrite Fw. change (X_LOCK_HALF_DECR <? X_LOCK_DECR) with true. cbv iota. rewrite run_bind, run_on_shm by done.
  assert (run (cas_weak lg_word X_LOCK_DECR (X_LOCK_DECR - X_LOCK_HALF_DECR)) [] m =
    (Some (true, X_LOCK_DECR), [], lset lg_word X_LOCK_HALF_DECR m)) as ->.
  { cbn. by rewrite Fw, Z.eqb_refl. }
  do 2 shm. obj. done.
Qed.

Lemma run_rw_unlock_sx m o n i :
  free_rw m -> free_local o ->
  run (unlock_sx self a fuel policy loc) []
    (V (rw_sx_held (identify loc) m) (lset l_hold_global true (sx_taken (tid loc) o)) n i) = (Some UB_LOCK_SUCCESS, [], V m o n i).
Proof.
  intros [Fw Fx Fsx Fr Fsr Fxr Fb Fc] [Fl Fres Fh Fs Fref]. unfold unlock_sx. rewrite verify_ok. cbn [negb].
  rewrite run_bind, run_lookup, run_bind, run_no_delay. cbn [negb]. shm.
  change (owner_sx (rw_sx_held (identify loc) m)) with (identify loc). rewrite Z.eqb_refl. cbn [negb]. rewrite ?run_bind.
  assert (Hold : exists x, run (if recursive policy then lift (l_mem a) (rmw lg_sx_rec (fun n => u32 (n - 1))) else Ret 0) []
    (V (rw_sx_held (identify loc) m) (lset l_hold_global true (sx_taken (tid loc) o)) n i) =
    (Some (if recursive policy then 1 else 0), [], V (lset lg_sx_rec x (rw_sx_held (identify loc) m)) (lset l_hold_global true (sx_taken (tid loc) o)) n i)).
  { destruct (recursive policy); [exists 0|exists 1]; [|done]. by rewrite run_on_shm. }
  destruct Hold as [x ->]. assert (recursive policy && (1 <? (if recursive policy then 1 else 0)) = false) as ->
    by (by destruct (recursive policy)).
  do 2 obj. do 3 shm. rewrite run_bind. unfold wake_after_sx. rewrite run_bind, run_count.
  match goal with |- context [q_count (rw_q ?x)] => change (q_count (rw_q x)) with (q_count (rw_q m)) end.
  rewrite Fc, Z.ltb_irrefl. cbn [bind run negb]. obj. rewrite run_on_local by done.
  assert (Heq : lset l_global_state GLOBAL_IDLE (lset l_hold_global false (lset l_reserve UB_LOCK_I
    (lset l_hold_global true (sx_taken (tid loc) o)))) = sx_taken (tid loc) o).
  { destruct o; cbn in *. by subst. }
  rewrite Heq, run_unlock_sx by done. cbn [ub_waiting_count ll lnet in_cs]. rewrite set_count_id. do 2 f_equal.
  destruct m; cbn in *. by subst.
Qed.

(** The first reader of a process becomes its leader. *)
Lemma run_claim_s deadline m o n i :
  global_state o = GLOBAL_IDLE ->
  run (wait_or_claim_global_s self a fuel loc h deadline) [] (V m o n i) =
    (Some (UB_LOCK_SUCCESS, true), [], V m (lset l_global_state GLOBAL_PENDING o) n i).
Proof.
  intros Hs. unfold wait_or_claim_global_s. rewrite iter_round by done. rewrite run_bind. unfold claim_s_round.
  rewrite run_bind, run_obj by done.
  assert (run (try_inc_global_ref fuel) [] o = (Some false, [], o)) as ->.
  { unfold try_inc_global_ref. cbn. by rewrite Hs. }
  obj. rewrite Hs. change (GLOBAL_IDLE =? GLOBAL_IDLE) with true. cbv iota. rewrite run_bind, run_obj by done.
  assert (run (cas_strong l_global_state GLOBAL_IDLE GLOBAL_PENDING) [] o =
    (Some (true, GLOBAL_IDLE), [], lset l_global_state GLOBAL_PENDING o)) as ->.
  { cbn. by rewrite Hs. }
  done.
Qed.

Lemma node_small : 0 <= node_id loc < 16.
Proof. destruct Hloc as [_ Hn]. unfold is_invalid_node, UB_MAX_NODES in Hnode. apply Z.leb_gt in Hnode. lia. Qed.

Lemma run_set_bitmap m o n i :
  shared_bitmap m = 0 ->
  run (set_shared_owner_bitmap a (node_id loc)) [] (V m o n i) =
    (Some tt, [], V (lset lg_bitmap (u32 (Z.shiftl 1 (node_id loc))) m) o n i).
Proof.
  intros Hb. unfold set_shared_owner_bitmap. assert (Hn := node_small).
  rewrite (proj2 (Z.leb_gt 32 (node_id loc))) by lia. rewrite run_bind, run_on_shm by done. cbn. by rewrite Hb.
Qed.

Lemma run_clear_bitmap m o n i :
  shared_bitmap m = u32 (Z.shiftl 1 (node_id loc)) ->
  run (clear_shared_owner_bitmap a (node_id loc)) [] (V m o n i) = (Some tt, [], V (lset lg_bitmap 0 m) o n i).
Proof.
  intros Hb. unfold clear_shared_owner_bitmap. assert (Hn := node_small).
  rewrite (proj2 (Z.leb_gt 32 (node_id loc))) by lia. rewrite run_bind, run_on_shm by done. cbn [run rmw act lget lset lg_bitmap].
  rewrite Hb. set (b := u32 (Z.shiftl 1 (node_id loc))). change (u32 (Z.lnot b)) with (Z.lnot b mod 2 ^ 32).
  by rewrite <- Z.land_ones, Z.land_assoc, Z.land_lnot_diag by lia.
Qed.

Lemma run_rw_lock_s m o n i :
  free_rw m -> free_local o ->
  run (lock_s self a fuel policy loc) [] (V m o n i) =
    (Some UB_LOCK_SUCCESS, [], V (rw_s_held (node_id loc) m) (local_s_held (tid loc) o) n i).
Proof.
  intros [Fw Fx Fsx Fr Fsr Fxr Fb Fc] [Fl Fres Fh Fs Fref]. unfold lock_s. rewrite verify_ok. cbn [negb].
  rewrite run_bind, run_deadline, run_bind, run_lookup, run_bind, run_on_local, run_lock_s by done.
  cbn [ub_waiting_count ll lnet in_cs]. rewrite set_count_id. change (negb (is_success UB_LOCK_SUCCESS)) with false. cbv iota.
  rewrite run_bind, run_claim_s by done. change (negb (is_success UB_LOCK_SUCCESS) || negb true) with false. cbv iota.
  rewrite run_bind, run_no_token by done. cbn [bool_decide]. rewrite bool_decide_false by done. apply run_rw_loop.
  unfold spin_wait_s_round. change (negb (0 <? Z.of_nat SPIN_WAIT_ROUNDS)) with false. cbv iota.
  rewrite run_bind, run_count, Fc, Z.ltb_irrefl. cbn [andb]. shm.
  rewrite Fw. change (0 <? X_LOCK_DECR) with true. cbv iota. rewrite run_bind, run_on_shm by done.
  assert (run (cas_weak lg_word X_LOCK_DECR (X_LOCK_DECR - 1)) [] m =
    (Some (true, X_LOCK_DECR), [], lset lg_word (X_LOCK_DECR - 1) m)) as ->.
  { cbn. by rewrite Fw, Z.eqb_refl. }
  rewrite run_bind. cbn [run]. rewrite run_bind. unfold publish_global_s. do 2 obj. rewrite run_obj by done. cbn [run store act].
  rewrite run_bind, run_set_bitmap by done. done.
Qed.

(** The lane of the only reader. *)
Lemma one_reader_lane t :
  let lane := local_lock_lane_value (one_reader t) (local_lock_lane_for_tid t) in
  Z.land lane LOCAL_LOCK_READER_SENTINEL = 0 /\ Z.land lane LOCAL_LOCK_READER_COUNT_MASK = 1.
Proof. unfold one_reader. assert (Hk := lane_for_tid_ok t). by lanes Hk. Qed.

Lemma run_rw_unlock_s m o n i :
  free_rw m -> free_local o ->
  run (unlock_s self a fuel policy loc) [] (V (rw_s_held (node_id loc) m) (local_s_held (tid loc) o) n i) =
    (Some UB_LOCK_SUCCESS, [], V m o n i).
Proof.
  intros [Fw Fx Fsx Fr Fsr Fxr Fb Fc] [Fl Fres Fh Fs Fref]. unfold unlock_s. rewrite verify_ok. cbn [negb].
  rewrite run_bind, run_lookup. obj. change (lock_word (local_s_held (tid loc) o)) with (one_reader (tid loc)).
  destruct (one_reader_lane (tid loc)) as [-> ->]. cbn [Z.eqb negb orb]. obj.
  change (lget l_global_ref (local_s_held (tid loc) o)) with 1. change (1 <? 1) with false. change (1 <=? 0) with false.
  cbv iota. rewrite run_bind, run_no_delay. cbn [negb]. obj. shm.
  change (lget lg_word (rw_s_held (node_id loc) m)) with (X_LOCK_DECR - 1).
  change (X_LOCK_DECR - 1 + 1) with X_LOCK_DECR. rewrite Z.ltb_irrefl, Z.eqb_refl. rewrite ?run_bind, run_count.
  match goal with |- context [q_count (rw_q ?x)] => change (q_count (rw_q x)) with (q_count (rw_q m)) end.
  rewrite Fc, Z.ltb_irrefl. cbn [run]. rewrite run_bind, run_clear_bitmap by done. cbn [bind run negb]. obj.
  rewrite ?run_bind, run_obj by done.
  match goal with |- context [run (cas_strong l_global_state GLOBAL_HELD GLOBAL_IDLE) [] ?x] =>
    change (run (cas_strong l_global_state GLOBAL_HELD GLOBAL_IDLE) [] x)
      with (Some (true, GLOBAL_HELD), @nil Z, lset l_global_state GLOBAL_IDLE x) end.
  cbv beta iota. obj. rewrite run_on_local by done.
  match goal with |- context [mkLocalWorld ?x _ _ _] =>
    assert (x = lset l_read_count 0 (s_taken (tid loc) o)) as -> by (destruct o; cbn in *; by subst) end.
  rewrite run_unlock_s by done. cbn [ub_waiting_count ll lnet in_cs]. rewrite set_count_id. do 2 f_equal.
  destruct m; cbn in *. by subst.
Qed.

(** Without a delayed release only the owner can release X. *)
Lemma run_foreign_unlock_x loc' m o n i :
  is_invalid_node (node_id loc') = false -> identify loc' <> owner_x m ->
  run (unlock_x self a fuel policy loc') [] (V m o n i) = (Some UB_LOCK_ERROR, [], V m o n i).
Proof.
  intros Hn Hne. unfold unlock_x. unfold verify_param. unfold is_invalid_node in Hn. rewrite Hn.
  change (negb (is_success UB_LOCK_SUCCESS)) with false. cbv iota.
  rewrite run_bind, run_lookup, run_bind, run_no_delay. cbn [negb]. shm. by rewrite (proj2 (Z.eqb_neq (owner_x m) (identify loc'))).
Qed.
End Contract.

(** C14: the contract of the read-write lock, one call at a time and without delayed release.
    On a free lock that the process has created, a thread with a valid location (its id not
    0) gets every mode at once; X leaves the word 0 and the thread as owner, SX subtracts the half,
    S subtracts 1 and marks the node in the bitmap; the local lock is held in the same mode.
    The release by the same thread succeeds and restores the exact state, and a release
    of X by anybody else fails and changes nothing. *)
Theorem rw_contract self a h fuel M H R policy loc m o n i :
  (h < length H)%nat -> getZ ∅ R self !! a = Some h -> (1 <= fuel)%nat ->
  allow_delay_release policy = false -> valid_location loc -> is_invalid_node (node_id loc) = false -> tid loc <> 0 ->
  free_rw m -> free_local o ->
  let w := view a h M H R m o n i in
  let wx := view a h M H R (rw_x_held (identify loc) m) (lset l_hold_global true (x_taken (tid loc) o)) n i in
  let wsx := view a h M H R (rw_sx_held (identify loc) m) (lset l_hold_global true (sx_taken (tid loc) o)) n i in
  let ws := view a h M H R (rw_s_held (node_id loc) m) (local_s_held (tid loc) o) n i in
  let ok w := (Some UB_LOCK_SUCCESS, @nil Z, w) in
  (run (lock_x self a fuel policy loc) [] w = ok wx /\ run (unlock_x self a fuel policy loc) [] wx = ok w) /\
  (run (lock_sx self a fuel policy loc) [] w = ok wsx /\ run (unlock_sx self a fuel policy loc) [] wsx = ok w) /\
  (run (lock_s self a fuel policy loc) [] w = ok ws /\ run (unlock_s self a fuel policy loc) [] ws = ok w) /\
  (forall loc', is_invalid_node (node_id loc') = false -> identify loc' <> identify loc ->
     run (unlock_x self a fuel policy loc') [] wx = (Some UB_LOCK_ERROR, [], wx)).
Proof.
  intros Hh Hr Hf Hd Hl Hn Ht Fm Fo w wx wsx ws ok. split_and!.
  - by apply run_rw_lock_x.
  - by apply run_rw_unlock_x.
  - by apply run_rw_lock_sx.
  - by apply run_rw_unlock_sx.
  - by apply run_rw_lock_s.
  - by apply run_rw_unlock_s.
  - intros loc' Hn' Hne. by apply run_foreign_unlock_x.
Qed.

Definition free_lock_demo : ub_rw_lock := Eval vm_compute in
  lset lg_word X_LOCK_DECR (lset lg_owner_x LOCK_INVALID_OWNER (lset lg_owner_sx LOCK_INVALID_OWNER
    (lset lg_reserve LOCK_INVALID_OWNER zero_rw_lock))).
Definition fresh_local : LocalLock := Eval vm_compute in new_local_lock.

Lemma fresh_local_free : free_local fresh_local.
Proof. repeat split. Qed.
Lemma free_lock_demo_free : free_rw free_lock_demo.
Proof. repeat split. Qed.

Lemma rw_contract_witness :
  let w := view 4096 0 ∅ [(fresh_local, 4096)] [{[ 4096 := 0%nat ]}] free_lock_demo fresh_local (Network [] []) [] in
  (run (lock_s 0 4096 1 (Policy 10 false false) (Location 7 0)) [] w).1.1 = Some UB_LOCK_SUCCESS.
Proof.
  intros w.
  destruct (rw_contract 0 4096 0 1 ∅ [(fresh_local, 4096)] [{[ 4096 := 0%nat ]}] (Policy 10 false false) (Location 7 0)
    free_lock_demo fresh_local (Network [] []) [] ltac:(cbn; lia) eq_refl (Nat.le_refl 1) eq_refl
    ltac:(split; cbn; lia) eq_refl ltac:(discriminate) free_lock_demo_free fresh_local_free) as (_ & _ & [Hs _] & _).
  unfold w. rewrite Hs. reflexivity.
Defined.
