(* ===== verification/RwRebuild.v ===== *)
(** Rebuilding makes the read-write lock consistent (RwRecover.v).

    [rw_consistent] ties the fields of the shared lock together: the word counts the
    reading nodes of the bitmap and the SX holder, or is 0 under X.  [rebuild_restores] says that
    [rebuild] establishes it from the reports of the nodes, with exactly the reported
    holders.  [scan_ok] is the invariant of the loop over the reports. *)

From S2P Require Import Prelude Atomic CommTypes LockTypes LockRuntime RingQueue LocalLock RwLock RwRecover.

(** * Counting the reading nodes *)

Lemma bit_count_loop_spec n v c :
  0 <= v < 2 ^ 32 -> nbits 32 v <= Z.of_nat n -> 0 <= c -> c + nbits 32 v < 2 ^ 32 ->
  bit_count_loop n v c = c + nbits 32 v.
Proof.
  revert v c. induction n as [|n IH]; intros v c Hv Hn Hc Hs; cbn [bit_count_loop].
  - assert (Hr := nbits_range 32 v). lia.
  - destruct (Z.eqb_spec v 0) as [->|Hne]; [change (nbits 32 0) with 0; lia|].
    destruct (lowest_bit v) as (k & Hk & Hb & Hl); [lia|].
    assert (Hk32 : k < 32).
    { destruct (Z.lt_ge_cases k 32) as [|Hge]; [done|]. rewrite <- (Z.mod_small v (2 ^ 32)), Z.mod_pow2_bits_high in Hb by lia. done. }
    rewrite u32_small, Hl by lia. assert (Hcl := nbits_clear 32 v k). rewrite Hb in Hcl.
    assert (Hr := nbits_range 32 (Z.land v (Z.lnot (2 ^ k)))).
    assert (Hla := land_range 32 v (Z.lnot (2 ^ k))). rewrite (u32_small (c + 1)), IH; lia.
Qed.

(** Clearing the lowest bit until none is left counts the bits of a 32-bit value. *)
Lemma bit_count_counts v : 0 <= v < 2 ^ 32 -> bit_count_u32 v = nbits 32 v.
Proof.
  intros Hv. assert (Hr := nbits_range 32 v). unfold bit_count_u32. rewrite bit_count_loop_spec; lia.
Qed.

(** * The reports of the nodes *)

(** The fields of an entry have the ranges of their C types. *)
Definition wf_entry (e : ub_lock_query_result_t) : Prop :=
  0 <= q_node e < 2 ^ 8 /\ - 2 ^ 31 <= holder_tid e < 2 ^ 31.

(** What the loop knows after the entries [es]. *)
Record scan_ok (es : list ub_lock_query_result_t) (s : scan_state) : Prop := {
  so_seen : forall k, k ∈ seen_nodes s <-> exists e, e ∈ es /\ q_node e = k;
  so_nodes : forall e, e ∈ es -> wf_entry e /\ q_node e < 16 /\ is_valid_query_result_entry e = true;
  so_distinct : forall e e', e ∈ es -> e' ∈ es -> q_node e = q_node e' -> e = e';
  so_x : forall e, x_holder s = Some e <-> e ∈ es /\ held_mode e = UB_LOCK_X;
  so_sx : forall e, sx_holder s = Some e <-> e ∈ es /\ held_mode e = UB_LOCK_SX;
  so_reserve : forall e, reserve_entry s = Some e <-> e ∈ es /\ reserve_mode e <> UB_LOCK_I;
  so_range : 0 <= bitmap s < 2 ^ 16;
  so_bits : forall k, 0 <= k -> Z.testbit (bitmap s) k = true <-> exists e, e ∈ es /\ q_node e = k /\ has_shared_ref e = true;
  so_count : shared_count s = nbits 16 (bitmap s) }.

Lemma scan_start_ok : scan_ok [] scan_start.
Proof.
  split; cbn; try done; try (intros; split; [done|intros [H _]; by apply elem_of_nil in H]).
  - intros k. split; [intros H; by apply elem_of_nil in H|intros (e & H & _); by apply elem_of_nil in H].
  - intros e H. by apply elem_of_nil in H.
  - intros e e' H. by apply elem_of_nil in H.
  - intros k Hk. rewrite Z.testbit_0_l. split; [done|]. intros (e & H & _). by apply elem_of_nil in H.
Qed.

Lemma elem_snoc (es : list ub_lock_query_result_t) e x : x ∈ es ++ [e] <-> x ∈ es \/ x = e.
Proof. rewrite elem_of_app, list_elem_of_singleton. done. Qed.

(** Recording an entry in one of the three slots. *)
Lemma holder_snoc (P : ub_lock_query_result_t -> Prop) (o o' : option ub_lock_query_result_t) es e :
  (forall x, o = Some x <-> x ∈ es /\ P x) -> (P e -> o = None /\ o' = Some e) -> (~ P e -> o' = o) ->
  (P e \/ ~ P e) -> forall x, o' = Some x <-> x ∈ es ++ [e] /\ P x.
Proof.
  intros Ho Hy Hn Hd x. rewrite elem_snoc. destruct Hd as [HP|HP].
  - destruct (Hy HP) as [Hno ->]. split.
    + intros [= <-]. auto.
    + intros [[Hx| ->] HPx]; [|done]. assert (o = Some x) by (by apply Ho). congruence.
  - rewrite (Hn HP), Ho. split; [intros []; auto|]. intros [[Hx| ->] HPx]; [auto|done].
Qed.

Lemma shared_bit k : 0 <= k < 16 -> u32 (Z.shiftl 1 k) = 2 ^ k.
Proof.
  intros Hk. rewrite Z.shiftl_1_l. apply u32_small. split; [lia|]. apply Z.pow_lt_mono_r; lia.
Qed.

Lemma land_pow2 v k : 0 <= k -> (Z.land v (2 ^ k) =? 0) = negb (Z.testbit v k).
Proof.
  intros Hk. destruct (Z.eqb_spec (Z.land v (2 ^ k)) 0) as [Hz|Hz]; symmetry.
  - apply negb_true_iff. apply (f_equal (fun z => Z.testbit z k)) in Hz.
    rewrite Z.land_spec, testbit_pow2, Z.eqb_refl, andb_true_r, Z.testbit_0_l in Hz by lia. done.
  - apply negb_false_iff, not_false_is_true. intros Hf. apply Hz, Z.bits_inj'. intros j Hj.
    rewrite Z.land_spec, testbit_pow2, Z.testbit_0_l by lia. destruct (Z.eqb_spec j k) as [->|]; [by rewrite Hf|apply andb_false_r].
Qed.

Lemma nbits_small n k v : 0 <= v < 2 ^ Z.of_nat n -> nbits (k + n) v = nbits n v.
Proof.
  intros Hv. induction k as [|k IH]; [done|]. cbn [Nat.add nbits]. rewrite IH.
  rewrite <- (Z.mod_small v (2 ^ Z.of_nat n)) at 2 by done. rewrite Z.mod_pow2_bits_high by lia. cbn. lia.
Qed.

(** The readers after one more entry. *)
Lemma scan_bits es s e :
  scan_ok es s -> 0 <= q_node e < 16 -> q_node e ∉ seen_nodes s ->
  let bm := if has_shared_ref e then Z.lor (bitmap s) (u32 (Z.shiftl 1 (q_node e))) else bitmap s in
  let n := if has_shared_ref e then u32 (shared_count s + 1) else shared_count s in
  0 <= bm < 2 ^ 16 /\ n = nbits 16 bm /\
  forall k, 0 <= k -> Z.testbit bm k = true <-> exists x, x ∈ es ++ [e] /\ q_node x = k /\ has_shared_ref x = true.
Proof.
  intros Hs Hn Hnew bm n.
  assert (Hold : Z.testbit (bitmap s) (q_node e) = false).
  { apply not_true_iff_false. intros Hb. apply (so_bits _ _ Hs) in Hb as (x & Hx & Hq & _); [|lia].
    apply Hnew, (so_seen _ _ Hs). eauto. }
  assert (Hr := so_range _ _ Hs). assert (Hc := so_count _ _ Hs). assert (Hnb := nbits_range 16 (bitmap s)).
  unfold bm, n. destruct (has_shared_ref e) eqn:He.
  - rewrite shared_bit by done. split; [|split].
    + apply lor_range; [lia|done|]. split; [lia|apply Z.pow_lt_mono_r; lia].
    + rewrite nbits_set, Hold, u32_small by lia. lia.
    + intros k Hk. rewrite Z.lor_spec, testbit_pow2 by lia. setoid_rewrite elem_snoc. split.
      * intros [Hb|Hb]%orb_prop.
        -- apply (so_bits _ _ Hs) in Hb as (x & Hx & Hq); [|done]. exists x. auto.
        -- apply Z.eqb_eq in Hb as ->. exists e. auto.
      * intros (x & [Hx| ->] & Hq & Hsh); [|rewrite Hq, Z.eqb_refl; apply orb_true_r].
        rewrite (proj2 (so_bits _ _ Hs k Hk)) by eauto. done.
  - split_and!; [lia|lia|done|]. intros k Hk. rewrite (so_bits _ _ Hs k Hk). setoid_rewrite elem_snoc. split.
    + intros (x & Hx & Hq). exists x. auto.
    + intros (x & [Hx| ->] & Hq & Hsh); [eauto|congruence].
Qed.

Lemma is_none_true {A} (o : option A) : is_none o = true <-> o = None.
Proof. by destruct o. Qed.

(** The next test of a function that refuses by [None]. *)
Ltac refused H := match type of H with (if ?b then _ else _) = _ => let E := fresh "E" in destruct b eqn:E; [done|] end.

Lemma scan_entry_ok es s e s' :
  scan_ok es s -> wf_entry e -> scan_entry s e = Some s' -> scan_ok (es ++ [e]) s'.
Proof.
  intros Hs Hwf Hscan. unfold scan_entry in Hscan. refused Hscan. bool_to_prop.
  repeat match goal with H : (_ || _) = false |- _ => apply orb_false_elim in H as [? ?] end. bool_to_prop.
  assert (Hnew : q_node e ∉ seen_nodes s)
    by (match goal with H : bool_decide _ = false |- _ => exact (bool_decide_eq_false_1 _ H) end).
  assert (Hn : 0 <= q_node e < 16) by (unfold UB_MAX_NODES in *; destruct Hwf; lia).
  destruct (scan_bits es s e Hs Hn Hnew) as (Hr & Hc & Hb). cbn zeta in Hscan.
  refused Hscan.
  assert (Hres : forall x, (if negb (mode_eqb (reserve_mode e) UB_LOCK_I) then Some e else reserve_entry s) = Some x <->
    x ∈ es ++ [e] /\ reserve_mode x <> UB_LOCK_I).
  { apply (holder_snoc (fun x => reserve_mode x <> UB_LOCK_I) (reserve_entry s)); [apply Hs| | |].
    - intros Hm. unfold mode_eqb in *. rewrite bool_decide_false in * by done. cbn [negb andb] in *. split; [|done].
      apply orb_false_elim in E as [_ E]. apply negb_false_iff, is_none_true in E. done.
    - intros Hm. unfold mode_eqb. rewrite bool_decide_true; [done|]. by destruct (reserve_mode e); try (exfalso; by apply Hm).
    - destruct (reserve_mode e); auto. }
  assert (Hgen : forall x' sx', (forall x, x' = Some x <-> x ∈ es ++ [e] /\ held_mode x = UB_LOCK_X) ->
    (forall x, sx' = Some x <-> x ∈ es ++ [e] /\ held_mode x = UB_LOCK_SX) ->
    scan_ok (es ++ [e]) (Scan x' sx' (if negb (mode_eqb (reserve_mode e) UB_LOCK_I) then Some e else reserve_entry s)
      (if has_shared_ref e then Z.lor (bitmap s) (u32 (Z.shiftl 1 (q_node e))) else bitmap s)
      (if has_shared_ref e then u32 (shared_count s + 1) else shared_count s) (q_node e :: seen_nodes s))).
  { intros x' sx' Hx' Hsx'. split; try done.
    - intros k. cbn [seen_nodes]. rewrite elem_of_cons, (so_seen _ _ Hs). setoid_rewrite elem_snoc. split.
      + intros [-> |(x & Hx & Hq)]; eauto.
      + intros (x & [Hx| ->] & Hq); eauto.
    - intros x [Hx| ->]%elem_snoc; [by apply Hs|]. split_and!; try done; lia.
    - intros x y [Hx| ->]%elem_snoc [Hy| ->]%elem_snoc Hq; [by apply (so_distinct _ _ Hs)| | |done];
        destruct Hnew; apply (so_seen _ _ Hs); eauto. }
  assert (Hkeep : forall md (o : option ub_lock_query_result_t), held_mode e <> md ->
    (forall x, o = Some x <-> x ∈ es /\ held_mode x = md) -> forall x, o = Some x <-> x ∈ es ++ [e] /\ held_mode x = md).
  { intros md o Hne Ho. apply (holder_snoc (fun x => held_mode x = md) o); [done|by intros|done|by right]. }
  assert (Hadd : forall md (o : option ub_lock_query_result_t), held_mode e = md -> o = None ->
    (forall x, o = Some x <-> x ∈ es /\ held_mode x = md) -> forall x, Some e = Some x <-> x ∈ es ++ [e] /\ held_mode x = md).
  { intros md o Hm Hno Ho. apply (holder_snoc (fun x => held_mode x = md) o); [done|done|by intros []|by left]. }
  destruct (held_mode e) eqn:Hm.
  - injection Hscan as <-. apply Hgen; apply Hkeep; try done; apply Hs.
  - refused Hscan. apply orb_false_elim in E0 as [E0 _]. apply negb_false_iff, is_none_true in E0.
    injection Hscan as <-. apply Hgen; [apply Hkeep; [done|apply Hs]|]. apply (Hadd UB_LOCK_SX (sx_holder s)); [done|done|apply Hs].
  - refused Hscan. apply orb_false_elim in E0 as [E0 _]. apply orb_false_elim in E0 as [E0 _].
    apply negb_false_iff, is_none_true in E0. injection Hscan as <-.
    apply Hgen; [|apply Hkeep; [done|apply Hs]]. apply (Hadd UB_LOCK_X (x_holder s)); [done|done|apply Hs].
  - injection Hscan as <-. apply Hgen; apply Hkeep; try done; apply Hs.
Qed.

Lemma scan_entries_ok es s es' s' :
  scan_ok es s -> Forall wf_entry es' -> scan_entries es' s = Some s' -> scan_ok (es ++ es') s'.
Proof.
  revert es s. induction es' as [|e es' IH]; intros es s Hs Hwf Hscan; cbn in Hscan.
  - injection Hscan as <-. by rewrite app_nil_r.
  - apply Forall_cons in Hwf as [He Hwf]. destruct (scan_entry s e) as [s1|] eqn:E; [|done].
    rewrite (cons_middle e es es'), app_assoc. apply (IH _ s1); [by apply (scan_entry_ok es s)|done|done].
Qed.

(** * Running on one lock *)

Definition put (a : Z) (m : ub_rw_lock) (w : rw_world) : rw_world := lset (l_mem a) m w.

Lemma put_lookup a m w : mem (put a m w) !! a = Some m.
Proof. unfold put. cbn. apply lookup_insert_eq. Qed.
Lemma put_put a m m' w : put a m' (put a m w) = put a m' w.
Proof. unfold put. cbn. by rewrite insert_insert_eq. Qed.
Lemma put_same a m w : mem w !! a = Some m -> put a m w = w.
Proof. intros Hm. destruct w. unfold put. cbn in *. by rewrite insert_id. Qed.

Lemma lock_at_mem a w m : mem w !! a = Some m -> lock_at w a = m.
Proof. intros Hm. unfold lock_at. by rewrite Hm. Qed.

Lemma run_mem {A} a (p : prog ub_rw_lock A) env w m :
  mem w !! a = Some m ->
  run (lift (l_mem a) p) env w = let '(r, env', m') := run p env m in (r, env', put a m' w).
Proof.
  revert env w m. induction p as [x|C g k IH|q k IH|]; intros env w m Hm; cbn [lift run].
  - by rewrite put_same.
  - change (lget (l_mem a) w) with (lock_at w a). rewrite (lock_at_mem a w m Hm). destruct (g m) as [b m'].
    cbn zeta. change (lset (l_mem a) m' w) with (put a m' w). rewrite (IH b env (put a m' w) m') by apply put_lookup. destruct (run (k b) env m') as [[r e] m2]. by rewrite put_put.
  - destruct env; by apply IH.
  - by rewrite put_same.
Qed.

Lemma run_memq {A} a (p : prog (wait_queue ub_location_t) A) env w m :
  mem w !! a = Some m ->
  run (lift (lens_comp (l_mem a) lg_q) p) env w =
    let '(r, env', q') := run p env (rw_q m) in (r, env', put a (lset lg_q q' m) w).
Proof.
  assert (Hid : forall m, lset lg_q (rw_q m) m = m) by (by intros []).
  revert env w m. induction p as [x|C g k IH|q k IH|]; intros env w m Hm; cbn [lift run].
  - rewrite Hid. by rewrite put_same.
  - change (lget (lens_comp (l_mem a) lg_q) w) with (rw_q (lock_at w a)). rewrite (lock_at_mem a w m Hm).
    destruct (g (rw_q m)) as [b q']. cbn zeta.
    assert (lset (lens_comp (l_mem a) lg_q) q' w = put a (lset lg_q q' m) w) as ->.
    { unfold put, lens_comp, l_mem. cbn. unfold lock_at. by rewrite Hm. }
    rewrite (IH b env (put a (lset lg_q q' m) w) (lset lg_q q' m)) by apply put_lookup.
    change (rw_q (lset lg_q q' m)) with q'. destruct (run (k b) env q') as [[r e] q2]. by rewrite put_put.
  - destruct env; by apply IH.
  - rewrite Hid. by rewrite put_same.
Qed.

(** Everything but the slots of the queue and the registry of nodes. *)
Definition core (m : ub_rw_lock) : Z * Z * Z * Z * Z * Z * Z * Z * Z * Z * Z :=
  (word m, owner_x m, owner_sx m, reserve_owner m, sx_rec m, x_rec m, rw_inited m, shared_bitmap m,
   q_head (rw_q m), q_tail (rw_q m), q_count (rw_q m)).

(** A loop whose rounds keep [core]. *)
Lemma run_for_each_core {X} a (xs : list X) (body : X -> prog rw_world unit) env w m :
  (forall x w m, mem w !! a = Some m -> exists m', run (body x) env w = (Some tt, env, put a m' w) /\ core m' = core m) ->
  mem w !! a = Some m ->
  exists m', run (for_each xs body) env w = (Some tt, env, put a m' w) /\ core m' = core m.
Proof.
  intros Hb. revert w m. induction xs as [|x xs IH]; intros w m Hm; cbn [for_each].
  - exists m. cbn [run]. by rewrite put_same.
  - destruct (Hb x w m Hm) as (m1 & Hr & Hc). rewrite run_bind, Hr.
    destruct (IH (put a m1 w) m1) as (m2 & Hr2 & Hc2); [apply put_lookup|]. exists m2. rewrite Hr2, put_put. split; congruence.
Qed.

Lemma run_clear_registry a env w m :
  mem w !! a = Some m ->
  exists m', run (clear_node_registry_for_rebuild a) env w = (Some tt, env, put a m' w) /\ core m' = core m.
Proof.
  intros Hm. apply run_for_each_core; [|done]. intros x w0 m0 H0. rewrite (run_mem a _ env w0 m0 H0). cbn. by eexists.
Qed.

Ltac mem_store H :=
  cbv beta iota zeta; cbn [bind run]; rewrite ?run_bind; first [rewrite (run_mem _ _ _ _ _ H) | rewrite (run_memq _ _ _ _ _ H)];
  cbn [run store act]; clear H;
  match goal with |- context [put ?a ?m ?w] => assert (H := put_lookup a m w) end.

Lemma run_reset a env w m :
  mem w !! a = Some m ->
  exists m', run (reset_shared_lock_for_rebuild a) env w = (Some tt, env, put a m' w) /\
    core m' = (X_LOCK_DECR, LOCK_INVALID_OWNER, LOCK_INVALID_OWNER, LOCK_INVALID_OWNER, 0, 0, rw_inited m, 0, 0, 0, 0).
Proof.
  intros Hm. unfold reset_shared_lock_for_rebuild.
  do 10 (mem_store Hm; rewrite ?put_put in *).
  match type of Hm with mem (put a ?m1 w) !! a = _ => set (m1' := m1) in * end.
  destruct (run_for_each_core a (seqZ 0 UB_MAX_NODES) (fun i =>
    lift (lens_comp (l_mem a) lg_q) (store (lset (l_seq i) UB_WAIT_EMPTY)) ;;;
    lift (lens_comp (l_mem a) lg_q) (store_mode i UB_LOCK_I) ;;;
    lift (lens_comp (l_mem a) lg_q) (store_who i (Location 0xFF 0))) env (put a m1' w) m1') as (m2 & Hr & Hc); [|done|].
  - intros i w0 m0 H0. mem_store H0. unfold store_mode, store_who. do 2 (mem_store H0; rewrite ?put_put in * ). by eexists.
  - exists m2. rewrite Hr, put_put. split; [done|]. rewrite Hc. by destruct m.
Qed.

(** * The rebuilt lock *)

(** The readers with the delayed reader of [r] added. *)
Definition add_delayed (r : ub_lock_query_result_t) (bm n : Z) : Z * Z :=
  if Z.land bm (u32 (Z.shiftl 1 (q_node r))) =? 0 then (Z.lor bm (u32 (Z.shiftl 1 (q_node r))), u32 (n + 1)) else (bm, n).

Definition entry_owner (e : ub_lock_query_result_t) : Z := make_global_owner (q_node e) (holder_tid e).
Definition token_owner (e : ub_lock_query_result_t) : Z := make_global_owner (q_node e) 0.

(** The fields [rebuild_shared] leaves. *)
Definition rebuilt_core (s : scan_state) (i : Z) : Z * Z * Z * Z * Z * Z * Z * Z * Z * Z * Z :=
  let inv := LOCK_INVALID_OWNER in
  let n := shared_count s in
  match x_holder s, sx_holder s, reserve_entry s with
  | Some e, _, _ => (0, entry_owner e, inv, inv, 0, recursive_count e, i, bitmap s, 0, 0, 0)
  | None, Some e, None => (i32 (X_LOCK_HALF_DECR - n), inv, entry_owner e, inv, recursive_count e, 0, i, bitmap s, 0, 0, 0)
  | None, Some e, Some r =>
      let '(bm', n') := add_delayed r (bitmap s) n in
      (i32 (X_LOCK_HALF_DECR - n'), inv, entry_owner e, token_owner r, recursive_count e, 0, i, bm', 0, 0, 0)
  | None, None, None => (if 0 <? n then i32 (X_LOCK_DECR - n) else X_LOCK_DECR, inv, inv, inv, 0, 0, i, bitmap s, 0, 0, 0)
  | None, None, Some r =>
      match reserve_mode r with
      | UB_LOCK_X => (0, token_owner r, inv, token_owner r, 0, 1, i, bitmap s, 0, 0, 0)
      | UB_LOCK_SX => (i32 (X_LOCK_HALF_DECR - n), inv, token_owner r, token_owner r, 1, 0, i, bitmap s, 0, 0, 0)
      | _ =>
          let '(bm', n') := add_delayed r (bitmap s) n in
          (i32 (X_LOCK_DECR - n'), inv, inv, token_owner r, 0, 0, i, bm', 0, 0, 0)
      end
  end.

(** The combinations [rebuild] accepts after the loop. *)
Definition scan_accepted (s : scan_state) : bool :=
  negb (negb (is_none (x_holder s)) && (negb (is_none (sx_holder s)) || (0 <? shared_count s))) &&
  is_valid_delayed_release_rebuild_state (reserve_entry s) (x_holder s) (sx_holder s) (shared_count s).

Lemma accepted_cases s :
  scan_accepted s = true ->
  match x_holder s, sx_holder s, reserve_entry s with
  | Some _, None, None => ~ 0 < shared_count s
  | None, Some _, None => True
  | None, Some _, Some r => reserve_mode r = UB_LOCK_S
  | None, None, None => True
  | None, None, Some r => reserve_mode r <> UB_LOCK_I /\ (reserve_mode r = UB_LOCK_X -> shared_count s = 0)
  | _, _, _ => False
  end.
Proof.
  intros H. unfold scan_accepted in H. apply andb_prop in H. destruct H as [H1 H2].
  unfold is_valid_delayed_release_rebuild_state in H2.
  destruct (x_holder s), (sx_holder s), (reserve_entry s) as [r|]; cbn [is_none negb andb orb] in *;
    try (destruct (reserve_mode r)); cbn [andb] in *; try discriminate; try exact I; try reflexivity.
  - apply negb_true_iff, Z.ltb_ge in H1. lia.
  - by split.
  - by split.
  - split; [done|]. intros _. by apply Z.eqb_eq in H2.
Qed.

Ltac finish_core Hc :=
  eexists; split; [reflexivity|]; revert Hc; unfold core, entry_owner, token_owner; cbn; congruence.

Lemma run_rebuild_shared a s env w m :
  scan_accepted s = true -> mem w !! a = Some m ->
  exists m', run (rebuild_shared a s) env w = (Some tt, env, put a m' w) /\ core m' = rebuilt_core s (rw_inited m).
Proof.
  intros Ha Hm. apply accepted_cases in Ha. unfold rebuild_shared.
  destruct (run_clear_registry a env w m Hm) as (m1 & Hr1 & Hc1). rewrite run_bind, Hr1.
  assert (Hm1 := put_lookup a m1 w). destruct (run_reset a env _ m1 Hm1) as (m2 & Hr2 & Hc2).
  rewrite run_bind, Hr2, put_put. assert (Hm2 := put_lookup a m2 w).
  assert (Hi : rw_inited m1 = rw_inited m) by (unfold core in Hc1; congruence). rewrite Hi in Hc2.
  unfold restore_holders, rebuilt_core, replay_delayed_release_state.
  destruct (x_holder s) as [ex|]; [destruct (sx_holder s), (reserve_entry s); try contradiction|].
  - do 4 (mem_store Hm2; rewrite ?put_put in *). finish_core Hc2.
  - destruct (sx_holder s) as [es|], (reserve_entry s) as [r|].
    + rewrite Ha. unfold add_delayed. do 4 (mem_store Hm2; rewrite ?put_put in * ).
      cbn [is_none]. destruct (Z.land (bitmap s) (u32 (Z.shiftl 1 (q_node r))) =? 0); do 2 (mem_store Hm2; rewrite ?put_put in * );
        finish_core Hc2.
    + do 4 (mem_store Hm2; rewrite ?put_put in * ). finish_core Hc2.
    + destruct Ha as [Hi' _]. assert (Hn : exists v m3, run (if 0 <? shared_count s then lift (l_mem a) (store (lset lg_word (i32 (X_LOCK_DECR - shared_count s)))) else Ret tt)
        env (put a m2 w) = (Some tt, env, put a m3 w) /\
        core m3 = (v, LOCK_INVALID_OWNER, LOCK_INVALID_OWNER, LOCK_INVALID_OWNER, 0, 0, rw_inited m, 0, 0, 0, 0)).
      { case_bool; [rewrite (run_mem _ _ _ _ _ Hm2); cbn [run store act]; rewrite put_put|]; do 2 eexists; (split; [reflexivity|]);
          revert Hc2; unfold core; cbn; [|exact id]. intros Hc2. injection Hc2 as _ -> -> -> -> -> -> -> -> -> ->. reflexivity. }
      destruct Hn as (v & m3 & Hr3 & Hc3). rewrite run_bind, Hr3. assert (Hm3 := put_lookup a m3 w). clear Hm2 Hc2.
      unfold add_delayed. cbn [is_none].
      destruct (reserve_mode r); [|do 5 (mem_store Hm3; rewrite ?put_put in * )|do 5 (mem_store Hm3; rewrite ?put_put in * )|destruct Hi'; reflexivity].
      * mem_store Hm3. rewrite ?put_put in *.
        destruct (Z.land (bitmap s) (u32 (Z.shiftl 1 (q_node r))) =? 0); do 2 (mem_store Hm3; rewrite ?put_put in * ); finish_core Hc3.
      * finish_core Hc3.
      * finish_core Hc3.
    + case_bool; [do 2 (mem_store Hm2; rewrite ?put_put in * )|mem_store Hm2; rewrite ?put_put in *];
        finish_core Hc2.
Qed.

(** ** The reported holders *)

Definition counted_readers (m : ub_rw_lock) : Z := nbits 16 (shared_bitmap m).

(** The word is what the holders add up to. *)
Definition rw_consistent (m : ub_rw_lock) : Prop :=
  0 <= shared_bitmap m < 2 ^ 16 /\
  if owner_x m =? LOCK_INVALID_OWNER then
    word m = X_LOCK_DECR - counted_readers m - (if owner_sx m =? LOCK_INVALID_OWNER then 0 else X_LOCK_HALF_DECR)
  else word m = 0 /\ owner_sx m = LOCK_INVALID_OWNER /\ shared_bitmap m = 0.

(** The lock holds what the entries report and nothing else. *)
Record restored (es : list ub_lock_query_result_t) (m : ub_rw_lock) : Prop := {
  rs_consistent : rw_consistent m;
  rs_queue : q_head (rw_q m) = 0 /\ q_tail (rw_q m) = 0 /\ q_count (rw_q m) = 0;
  rs_x : forall e, e ∈ es -> held_mode e = UB_LOCK_X -> owner_x m = entry_owner e /\ x_rec m = recursive_count e;
  rs_x_delayed : forall e, e ∈ es -> reserve_mode e = UB_LOCK_X -> owner_x m = token_owner e /\ x_rec m = 1;
  rs_no_x : (forall e, e ∈ es -> held_mode e <> UB_LOCK_X /\ reserve_mode e <> UB_LOCK_X) ->
    owner_x m = LOCK_INVALID_OWNER /\ x_rec m = 0;
  rs_sx : forall e, e ∈ es -> held_mode e = UB_LOCK_SX -> owner_sx m = entry_owner e /\ sx_rec m = recursive_count e;
  rs_sx_delayed : forall e, e ∈ es -> reserve_mode e = UB_LOCK_SX -> owner_sx m = token_owner e /\ sx_rec m = 1;
  rs_no_sx : (forall e, e ∈ es -> held_mode e <> UB_LOCK_SX /\ reserve_mode e <> UB_LOCK_SX) ->
    owner_sx m = LOCK_INVALID_OWNER /\ sx_rec m = 0;
  rs_readers : forall k, 0 <= k -> Z.testbit (shared_bitmap m) k = true <->
    exists e, e ∈ es /\ q_node e = k /\ (has_shared_ref e = true \/ reserve_mode e = UB_LOCK_S);
  rs_token : forall e, e ∈ es -> reserve_mode e <> UB_LOCK_I -> reserve_owner m = token_owner e;
  rs_no_token : (forall e, e ∈ es -> reserve_mode e = UB_LOCK_I) -> reserve_owner m = LOCK_INVALID_OWNER }.

Lemma owner_valid node t : 0 <= node < 16 -> (make_global_owner node t =? LOCK_INVALID_OWNER) = false.
Proof.
  intros Hn. apply Z.eqb_neq. rewrite make_global_owner_arith. assert (Hu := u32_bound t).
  change LOCK_INVALID_OWNER with (255 * 2 ^ 32). lia.
Qed.

(** The readers with the delayed one. *)
Lemma add_delayed_ok es s r :
  scan_ok es s -> reserve_entry s = Some r ->
  let '(bm, n) := add_delayed r (bitmap s) (shared_count s) in
  0 <= bm < 2 ^ 16 /\ n = nbits 16 bm /\
  forall k, 0 <= k -> Z.testbit bm k = true <->
    (exists e, e ∈ es /\ q_node e = k /\ has_shared_ref e = true) \/ k = q_node r.
Proof.
  intros Hs Hr. apply (so_reserve _ _ Hs) in Hr as [Hr _]. destruct (so_nodes _ _ Hs r Hr) as ((Hq & _) & Hq16 & _).
  assert (Hb := so_bits _ _ Hs). assert (Hrg := so_range _ _ Hs). assert (Hc := so_count _ _ Hs).
  assert (Hn := nbits_range 16 (bitmap s)). unfold add_delayed. rewrite shared_bit by lia.
  rewrite land_pow2 by lia. destruct (Z.testbit (bitmap s) (q_node r)) eqn:Ht; cbn [negb].
  - split_and!; [lia|lia|done|]. intros k Hk. rewrite Hb by done. split; [auto|]. intros [He| ->]; [done|]. by apply Hb.
  - split; [|split].
    + apply lor_range; [lia|done|]. split; [lia|apply Z.pow_lt_mono_r; lia].
    + rewrite nbits_set, Ht, u32_small by lia. lia.
    + intros k Hk. rewrite Z.lor_spec, testbit_pow2, orb_true_iff, Hb, Z.eqb_eq by lia. done.
Qed.

Section Restored.
Context (es : list ub_lock_query_result_t) (s : scan_state) (m : ub_rw_lock) (i : Z).
Hypothesis Hs : scan_ok es s.
Hypothesis Hc : core m = rebuilt_core s i.

Lemma sc_x e : e ∈ es -> held_mode e = UB_LOCK_X -> x_holder s = Some e.
Proof. intros. by apply (so_x _ _ Hs). Qed.
Lemma sc_sx e : e ∈ es -> held_mode e = UB_LOCK_SX -> sx_holder s = Some e.
Proof. intros. by apply (so_sx _ _ Hs). Qed.
Lemma sc_reserve e : e ∈ es -> reserve_mode e <> UB_LOCK_I -> reserve_entry s = Some e.
Proof. intros. by apply (so_reserve _ _ Hs). Qed.
Lemma sc_owner e t : e ∈ es -> (make_global_owner (q_node e) t =? LOCK_INVALID_OWNER) = false.
Proof. intros He. apply owner_valid. destruct (so_nodes _ _ Hs e He) as ((? & _) & ? & _). lia. Qed.

(** No delayed reader. *)
Lemma sc_readers :
  (forall r, reserve_entry s = Some r -> reserve_mode r <> UB_LOCK_S) ->
  forall k, 0 <= k -> Z.testbit (bitmap s) k = true <->
    exists e, e ∈ es /\ q_node e = k /\ (has_shared_ref e = true \/ reserve_mode e = UB_LOCK_S).
Proof.
  intros Hn k Hk. rewrite (so_bits _ _ Hs) by done. split; [intros (e & ? & ? & ?); eauto|].
  intros (e & He & Hq & [Hh|Hd]); [eauto|]. destruct (Hn e); [|done]. apply sc_reserve; congruence.
Qed.
(** The delayed reader [r]. *)
Lemma sc_readers_delayed r :
  reserve_entry s = Some r -> reserve_mode r = UB_LOCK_S ->
  forall k, 0 <= k -> Z.testbit (add_delayed r (bitmap s) (shared_count s)).1 k = true <->
    exists e, e ∈ es /\ q_node e = k /\ (has_shared_ref e = true \/ reserve_mode e = UB_LOCK_S).
Proof.
  intros Hr Hm k Hk. assert (Ha := add_delayed_ok es s r Hs Hr). destruct (add_delayed _ _ _) as [bm n]. destruct Ha as (_ & _ & Hb).
  cbn [fst]. rewrite Hb by done. assert (Hin := proj1 (so_reserve _ _ Hs r) Hr). split.
  - intros [(e & ? & ? & ?)| ->]; [eauto|]. exists r. destruct Hin. auto.
  - intros (e & He & Hq & [Hh|Hd]); [eauto|]. assert (Hr' : reserve_entry s = Some e) by (apply sc_reserve; congruence). right. congruence.
Qed.

(** Owner and recursion depth of an exclusive mode: its holder, or the delayed one. *)
Definition exclusive_of (md : ub_lock_mode_t) (holder : option ub_lock_query_result_t) : Z * Z :=
  match holder, reserve_entry s with
  | Some e, _ => (entry_owner e, recursive_count e)
  | None, Some r => if decide (reserve_mode r = md) then (token_owner r, 1) else (LOCK_INVALID_OWNER, 0)
  | None, None => (LOCK_INVALID_OWNER, 0)
  end.
Definition readers_of : Z * Z :=
  match reserve_entry s with
  | Some r => if decide (reserve_mode r = UB_LOCK_S) then add_delayed r (bitmap s) (shared_count s) else (bitmap s, shared_count s)
  | None => (bitmap s, shared_count s)
  end.

Hypothesis Ha : scan_accepted s = true.

Ltac fields := let E := fresh in intros E; injection E; intros; split_and!; repeat case_decide; cbn [fst]; congruence.

Lemma restored_fields :
  (owner_x m, x_rec m) = exclusive_of UB_LOCK_X (x_holder s) /\
  (owner_sx m, sx_rec m) = exclusive_of UB_LOCK_SX (sx_holder s) /\
  reserve_owner m = from_option token_owner LOCK_INVALID_OWNER (reserve_entry s) /\
  shared_bitmap m = readers_of.1 /\ q_head (rw_q m) = 0 /\ q_tail (rw_q m) = 0 /\ q_count (rw_q m) = 0.
Proof.
  revert Hc. apply accepted_cases in Ha. unfold core, rebuilt_core, exclusive_of, readers_of.
  destruct (x_holder s) as [ex|], (sx_holder s) as [esx|], (reserve_entry s) as [r|]; try contradiction; cbn.
  - fields.
  - rewrite Ha. cbn. destruct (add_delayed _ _ _). fields.
  - fields.
  - destruct Ha as [Hi _]. destruct (reserve_mode r); try contradiction; cbn; [destruct (add_delayed _ _ _)| |]; fields.
  - fields.
Qed.

Lemma exclusive_held md o e :
  (forall x, o = Some x <-> x ∈ es /\ held_mode x = md) -> e ∈ es -> held_mode e = md ->
  exclusive_of md o = (entry_owner e, recursive_count e).
Proof. intros Ho He Hm. unfold exclusive_of. by rewrite (proj2 (Ho e)). Qed.
Lemma exclusive_delayed md o e :
  o = None -> md <> UB_LOCK_I -> e ∈ es -> reserve_mode e = md -> exclusive_of md o = (token_owner e, 1).
Proof.
  intros -> Hmd He Hm. unfold exclusive_of. rewrite (sc_reserve e He) by congruence. by rewrite decide_True.
Qed.
Lemma exclusive_none md o :
  (forall x, o = Some x <-> x ∈ es /\ held_mode x = md) -> (forall e, e ∈ es -> held_mode e <> md /\ reserve_mode e <> md) ->
  exclusive_of md o = (LOCK_INVALID_OWNER, 0).
Proof.
  intros Ho Hall. unfold exclusive_of. destruct o as [e|]; [destruct (proj1 (Ho e) eq_refl) as [He Hm]; by destruct (Hall e He)|].
  destruct (reserve_entry s) as [r|] eqn:Hr; [|done]. apply (so_reserve _ _ Hs) in Hr as [He _].
  rewrite decide_False; [done|]. by apply Hall.
Qed.

Lemma readers_ok :
  0 <= readers_of.1 < 2 ^ 16 /\ readers_of.2 = nbits 16 readers_of.1 /\
  forall k, 0 <= k -> Z.testbit readers_of.1 k = true <->
    exists e, e ∈ es /\ q_node e = k /\ (has_shared_ref e = true \/ reserve_mode e = UB_LOCK_S).
Proof.
  assert (Hn := sc_readers). assert (Hd := sc_readers_delayed). unfold readers_of.
  assert (Hrg := so_range _ _ Hs). assert (Hct := so_count _ _ Hs).
  destruct (reserve_entry s) as [r|] eqn:Hr; [|split_and!; [apply Hrg..|done|by apply Hn]].
  case_decide as Hm; [|split_and!; [apply Hrg..|done|apply Hn; by intros ? [= <-]]].
  assert (Hadd := add_delayed_ok es s r Hs Hr). specialize (Hd r eq_refl Hm). destruct (add_delayed _ _ _) as [bm n].
  destruct Hadd as (Hb & Hnb & _). cbn [fst snd]. split_and!; [apply Hb..|done|exact Hd].
Qed.

(** One case of [restored_word], by the value the code stores. *)
Ltac word_case Hi :=
  let E := fresh in intros E Hn; injection E; intros; repeat case_decide; try congruence; cbn [fst snd] in *;
  split; [intros Hx | intros Hx; try congruence; split_and!; try congruence];
  try (match goal with |- _ = _ - (if ?b =? _ then _ else _) => destruct (Z.eqb_spec b LOCK_INVALID_OWNER) end;
       try congruence; repeat match goal with H : word m = i32 _ |- _ => rewrite Hi in H by lia end; lia).

(** The word: 0 under X, otherwise the initial value less the SX share and the readers. *)
Lemma restored_word :
  (owner_x m = LOCK_INVALID_OWNER ->
   word m = X_LOCK_DECR - readers_of.2 - (if owner_sx m =? LOCK_INVALID_OWNER then 0 else X_LOCK_HALF_DECR)) /\
  (owner_x m <> LOCK_INVALID_OWNER -> word m = 0 /\ owner_sx m = LOCK_INVALID_OWNER /\ readers_of.2 = 0).
Proof.
  assert (Hox : forall e t, e ∈ es -> make_global_owner (q_node e) t <> LOCK_INVALID_OWNER) by (intros e t He; by apply Z.eqb_neq, sc_owner).
  assert (Hxe := so_x _ _ Hs). assert (Hsxe := so_sx _ _ Hs). assert (Hre := so_reserve _ _ Hs). assert (Hsc := so_count _ _ Hs).
  assert (Hn : 0 <= readers_of.2 <= 16) by (destruct readers_ok as (_ & -> & _); apply (nbits_range 16)).
  assert (Hn' := nbits_range 16 (bitmap s)). rewrite <- Hsc in Hn'. clear Hsc.
  assert (Hi : forall v, - 2 ^ 31 <= v < 2 ^ 31 -> i32 v = v) by apply i32_small.
  assert (HD : X_LOCK_DECR = 65536 /\ X_LOCK_HALF_DECR = 32768) by done. destruct HD as [HD1 HD2].
  apply accepted_cases in Ha. revert Hc Hn. unfold core, rebuilt_core, readers_of, entry_owner, token_owner.
  destruct (x_holder s) as [ex|], (sx_holder s) as [esx|], (reserve_entry s) as [r|]; try contradiction; cbn [fst snd].
  - assert (Hv := Hox ex (holder_tid ex) (proj1 (proj1 (Hxe ex) eq_refl))). word_case Hi. lia.
  - assert (Hv := Hox esx (holder_tid esx) (proj1 (proj1 (Hsxe esx) eq_refl))). rewrite Ha. cbn. destruct (add_delayed _ _ _). word_case Hi.
  - assert (Hv := Hox esx (holder_tid esx) (proj1 (proj1 (Hsxe esx) eq_refl))). word_case Hi.
  - assert (Hv := Hox r 0 (proj1 (proj1 (Hre r) eq_refl))). destruct Ha as [Hi' Hx0].
    destruct (reserve_mode r); try contradiction; cbn; [destruct (add_delayed _ _ _)| |]; word_case Hi. by apply Hx0.
  - case_bool; bool_to_prop; word_case Hi.
Qed.

Lemma restored_consistent : rw_consistent m.
Proof.
  destruct restored_fields as (_ & _ & _ & Hb & _). destruct readers_ok as (Hrg & Hn & _). destruct restored_word as [Hw Hwx].
  unfold rw_consistent, counted_readers. split; [by rewrite Hb|]. rewrite Hb, <- Hn.
  destruct (Z.eqb_spec (owner_x m) LOCK_INVALID_OWNER) as [Hx|Hx]; [by apply Hw|]. destruct (Hwx Hx) as (Hw0 & Hsx & Hn0).
  split_and!; [done|done|]. rewrite Hn in Hn0. by apply (nbits_zero 16).
Qed.

Lemma rebuilt_restored : restored es m.
Proof.
  destruct restored_fields as (Hx & Hsx & Ht & Hb & Hq). destruct readers_ok as (_ & _ & Hrd).
  assert (Hnx : forall e, e ∈ es -> reserve_mode e = UB_LOCK_X -> x_holder s = None).
  { intros e He Hm. assert (Hr := sc_reserve e He). specialize (Hr ltac:(congruence)). apply accepted_cases in Ha. rewrite Hr in Ha.
    destruct (x_holder s), (sx_holder s); tauto. }
  assert (Hnsx : forall e, e ∈ es -> reserve_mode e = UB_LOCK_SX -> sx_holder s = None).
  { intros e He Hm. assert (Hr := sc_reserve e He). specialize (Hr ltac:(congruence)). apply accepted_cases in Ha. rewrite Hr in Ha.
    destruct (x_holder s), (sx_holder s); try contradiction; [congruence|done]. }
  assert (Hsplit : forall u v p q : Z, (u, v) = (p, q) -> u = p /\ v = q) by (by intros ? ? ? ? [= -> ->]).
  split; [exact restored_consistent|exact Hq|..].
  - intros e He Hm. apply Hsplit. rewrite Hx. apply exclusive_held; [apply Hs|done|done].
  - intros e He Hm. apply Hsplit. rewrite Hx. apply exclusive_delayed; [by eapply Hnx|done|done|done].
  - intros Hall. apply Hsplit. rewrite Hx. apply exclusive_none; [apply Hs|done].
  - intros e He Hm. apply Hsplit. rewrite Hsx. apply exclusive_held; [apply Hs|done|done].
  - intros e He Hm. apply Hsplit. rewrite Hsx. apply exclusive_delayed; [by eapply Hnsx|done|done|done].
  - intros Hall. apply Hsplit. rewrite Hsx. apply exclusive_none; [apply Hs|done].
  - intros k Hk. rewrite Hb. by apply Hrd.
  - intros e He Hm. by rewrite Ht, (sc_reserve e He Hm).
  - intros Hall. rewrite Ht. destruct (reserve_entry s) as [r|] eqn:Hr; [|done].
    apply (so_reserve _ _ Hs) in Hr as [He Hm]. by destruct Hm; apply Hall.
Qed.
End Restored.

(** * Rebuild *)

(** The checks before anything is written. *)
Definition rebuild_accepts (self old_lock : Z) (info : ub_lock_rebuild_info_t) (location : ub_location_t) (w : rw_world) : bool :=
  match query_results info with
  | None => false
  | Some results =>
      let n := query_result_count info in
      let entries := take (Z.to_nat n) results in
      negb ((old_lock =? 0) || (UB_MAX_NODES <=? node_id location) || (n =? 0) || (UB_MAX_NODES <? n)) &&
      negb (is_none (find_query_result_for_node entries (node_id location))) &&
      match scan_entries entries scan_start with None => false | Some s => scan_accepted s end &&
      negb (is_none (reg_of w self !! old_lock))
  end.

Lemma run_register_net self env w :
  exists env' n', run (on_rw_net (register_message_process_func self)) env w = (Some tt, env', lset l_rw_net n' w).
Proof.
  unfold register_message_process_func. cbn.
  destruct (msg_func (proc (rw_net w) self)); cbn; [exists env, (rw_net w); by destruct w|].
  destruct (transport (proc (rw_net w) self)); cbn; [|exists env, (rw_net w); by destruct w].
  destruct env as [|z env]; cbn; [by eexists _, _|]. case_bool; cbn; [by eexists _, _|]. exists env, (rw_net w). by destruct w.
Qed.

(** The local lock [h] of the old lock serves the new one. *)
Definition moved (self a : Z) (h : nat) (w w' : rw_world) : Prop :=
  reg_of w' self !! a = Some h /\ heap w' = <[h := ((heap_get w h).1, a)]> (heap w).

Lemma reg_of_bound self w a h : reg_of w self !! a = Some h -> (Z.to_nat self < length (registry w))%nat.
Proof.
  unfold reg_of, getZ. intros Hr. destruct (registry w !! Z.to_nat self) eqn:E; [by apply lookup_lt_Some in E|].
  cbn in Hr. by rewrite lookup_empty in Hr.
Qed.

(** The binding moves; the shared memory stays. *)
Lemma run_switch self old a oom env w h :
  old <> 0 -> a <> 0 -> reg_of w self !! old = Some h ->
  exists r w', run (switch_local_lock_binding self old a oom) env w = (Some r, env, w') /\ mem w' = mem w /\
    (oom = false -> exists h', r = inr (Some h')) /\ (forall h', r = inr (Some h') -> h' = h /\ moved self a h w w').
Proof.
  intros Ho Ha Hr. assert (Hl := reg_of_bound self w old h Hr). unfold switch_local_lock_binding, moved.
  rewrite (proj2 (Z.eqb_neq old 0)), (proj2 (Z.eqb_neq a 0)) by done. cbn [orb run act].
  destruct (Z.eqb_spec old a) as [->|Hne].
  - rewrite Hr. do 2 eexists. split; [reflexivity|]. split_and!; [done|by eexists|by intros ? [= <-]].
  - rewrite Hr. destruct (is_none (reg_of w self !! a) && oom) eqn:E.
    + do 2 eexists. split; [reflexivity|]. split_and!; [done|intros ->; by rewrite andb_false_r in E|done].
    + do 2 eexists. split; [reflexivity|]. split_and!; [done|by eexists|]. intros ? [= <-]. split; [done|]. split; [|done].
      unfold reg_of, point_to, set_reg. cbn [registry]. rewrite getZ_setZ_eq by done.
      rewrite lookup_delete_ne by done. apply lookup_insert_eq.
Qed.

Lemma core_inited s i j m : core m = rebuilt_core s i -> core (lset lg_inited j m) = rebuilt_core s j.
Proof.
  unfold core, rebuilt_core. cbn. intros E.
  destruct (x_holder s), (sx_holder s), (reserve_entry s) as [r|]; try (destruct (reserve_mode r)); try (destruct (add_delayed _ _ _));
    injection E; intros; congruence.
Qed.

Section RunRebuild.
Context (self a : Z) (fuel : nat) (old : Z) (info : ub_lock_rebuild_info_t) (loc : ub_location_t).
Context (results : list ub_lock_query_result_t).
Hypothesis Hres : query_results info = Some results.
Hypothesis Hcount : 0 <= query_result_count info.

Lemma run_rebuild_refused env w :
  rebuild_accepts self old info loc w = false ->
  run (rebuild self a fuel old info loc) env w = (Some UB_LOCK_ERROR, env, w).
Proof.
  unfold rebuild_accepts, rebuild, scan_accepted. rewrite Hres. cbn zeta.
  case_bool; [done|]. case_bool; [done|]. destruct (scan_entries _ _) as [s|]; [|done]. cbn [negb andb].
  case_bool; [done|]. case_bool; [done|]. apply negb_false_iff in E2. rewrite E2. cbn [negb andb]. intros Hr. rewrite run_bind. cbn [lookup_local_lock load act run].
  apply negb_false_iff in Hr. by rewrite Hr.
Qed.

Lemma run_rebuild_accepted env w m :
  rebuild_accepts self old info loc w = true -> a <> 0 -> mem w !! a = Some m -> rw_inited m = 0 ->
  exists s h, scan_entries (take (Z.to_nat (query_result_count info)) results) scan_start = Some s /\ scan_accepted s = true /\
    reg_of w self !! old = Some h /\ 0 < query_result_count info <= 16 /\
    exists env' w' m', mem w' !! a = Some m' /\
      ((run (rebuild self a fuel old info loc) env w = (Some UB_LOCK_SUCCESS, env', w') /\
        core m' = rebuilt_core s (query_result_count info) /\ moved self a h w w') \/
       (run (rebuild self a fuel old info loc) env w = (Some UB_LOCK_ERROR, env', w') /\ rw_inited m' = 0 /\ hd 0 env <> 0)).
Proof.
  intros Hok Ha Hm Hi. unfold rebuild_accepts, scan_accepted in Hok. rewrite Hres in Hok. cbn zeta in Hok.
  apply andb_prop in Hok as [Hok Hreg]. apply andb_prop in Hok as [Hok Hscan]. apply andb_prop in Hok as [Hpar Hfind].
  destruct (scan_entries _ _) as [s|] eqn:Hs; [|done]. assert (Hacc := Hscan). apply andb_prop in Hscan as [Hx Hd].
  destruct (reg_of w self !! old) as [h|] eqn:Hh; [|done]. apply negb_true_iff in Hpar, Hfind, Hx.
  assert (Hp : old <> 0 /\ 0 < query_result_count info <= 16).
  { clear -Hpar Hcount. repeat (apply orb_false_elim in Hpar as [Hpar ?]). bool_to_prop. unfold UB_MAX_NODES in *. lia. }
  destruct Hp as [Hold Hn]. exists s, h. split_and!; [done|done|done|lia|lia|].
  unfold rebuild. rewrite Hres. cbn zeta. rewrite Hpar, Hfind, Hs, Hx, Hd. cbn [negb].
  rewrite run_bind. unfold lookup_local_lock. cbn [load act run]. rewrite Hh. cbn [is_none].
  unfold try_begin_shared_rebuild_init. rewrite !run_bind, (run_mem a _ env w m Hm). unfold cas_strong. cbn [act run lget lg_inited].
  rewrite Hi, Z.eqb_refl. cbn [run bind negb]. set (m1 := lset lg_inited REBUILD_INIT_IN_PROGRESS m).
  assert (Hm1 := put_lookup a m1 w). 
  destruct (run_rebuild_shared a s env _ m1 Hacc Hm1) as (m2 & Hr2 & Hc2). rewrite run_bind, Hr2, put_put.
  set (oom := hd 0 env).
  assert (Hask : forall k : Z -> prog rw_world ub_lock_result_t, run (bind (ask QExternal) k) env (put a m2 w) = run (k oom) (tl env) (put a m2 w))
    by (intros; by destruct env).
  rewrite Hask. rewrite run_bind.
  destruct (run_switch self old a (negb (oom =? 0)) (tl env) (put a m2 w) h Hold Ha Hh) as (r & w3 & Hr3 & Hmem & Hno & Hmv).
  assert (Hm3 : mem w3 !! a = Some m2) by (rewrite Hmem; apply put_lookup). rewrite Hr3.
  assert (Hfail : forall r0, r = r0 -> (forall h', r0 <> inr (Some h')) -> oom <> 0).
  { intros r0 -> Hr0 E. destruct (Hno ltac:(by rewrite E)) as [h' Hh']. by destruct (Hr0 h'). }
  destruct r as [u|[h'|]].
  - rewrite run_bind, (run_mem a _ _ w3 m2 Hm3). cbn [run store act]. do 3 eexists. split; [apply put_lookup|]. right.
    split; [reflexivity|]. split; [done|]. by eapply Hfail.
  - destruct (Hmv h' eq_refl) as [-> Hmoved]. rewrite !run_bind, (run_mem a _ _ w3 m2 Hm3). cbn [run store act].
    match goal with |- context [put a ?x w3] => set (m3 := x) end.
    destruct (run_register_net self (tl env) (put a m3 w3)) as (env' & n' & Hr4). rewrite run_bind, Hr4.
    rewrite run_bind, (run_mem a _ _ _ m3) by (cbn; apply lookup_insert_eq). cbn [run store act].
    do 3 eexists. split; [apply put_lookup|]. left. split; [reflexivity|]. split; [|exact Hmoved].
    rewrite i32_small by lia. apply (core_inited s (rw_inited m1)). rewrite <- Hc2. reflexivity.
  - rewrite run_bind, (run_mem a _ _ w3 m2 Hm3). cbn [run store act]. do 3 eexists. split; [apply put_lookup|]. right.
    split; [reflexivity|]. split; [done|]. by eapply Hfail.
Qed.
End RunRebuild.

(** C10: [rebuild] on a lock nobody has set up yet either refuses the reports and leaves the lock
    unusable, or leaves exactly the reported holders, delayed releases and readers in a
    consistent lock whose reference count is the number of reports, and moves the local lock of the process over to it. *)
Theorem rebuild_restores self a fuel old info loc results env w m :
  a <> 0 -> mem w !! a = Some m -> rw_inited m = 0 ->
  query_results info = Some results -> 0 <= query_result_count info -> Forall wf_entry results ->
  exists r env' w' m', run (rebuild self a fuel old info loc) env w = (Some r, env', w') /\ mem w' !! a = Some m' /\
    (rebuild_accepts self old info loc w = true -> hd 0 env = 0 -> r = UB_LOCK_SUCCESS) /\
    ((r = UB_LOCK_SUCCESS /\ restored (take (Z.to_nat (query_result_count info)) results) m' /\
      rw_inited m' = query_result_count info /\ exists h, reg_of w self !! old = Some h /\ moved self a h w w') \/
     (r = UB_LOCK_ERROR /\ rw_inited m' = 0)).
Proof.
  intros Ha Hm Hi Hres Hn Hwf. destruct (rebuild_accepts self old info loc w) eqn:Hok.
  - destruct (run_rebuild_accepted self a fuel old info loc results Hres Hn env w m Hok Ha Hm Hi)
      as (s & h & Hs & Hacc & Hh & Hc & env' & w' & m' & Hm' & [(Hr & Hcore & Hmv)|(Hr & Hi' & Hoom)]).
    + exists UB_LOCK_SUCCESS, env', w', m'. split; [exact Hr|]. split; [exact Hm'|]. split; [by intros|]. left.
      split; [done|]. split; [|split; [|by exists h]].
      * apply (rebuilt_restored _ s m' (query_result_count info)); [|exact Hcore|exact Hacc].
        apply (scan_entries_ok [] scan_start); [apply scan_start_ok|by apply Forall_take|exact Hs].
      * revert Hcore. unfold core, rebuilt_core. destruct (x_holder s), (sx_holder s), (reserve_entry s) as [r|];
          try (destruct (reserve_mode r)); try (destruct (add_delayed _ _ _)); congruence.
    + exists UB_LOCK_ERROR, env', w', m'. split; [exact Hr|]. split; [exact Hm'|]. split; [by intros _ ?|]. by right.
  - exists UB_LOCK_ERROR, env, w, m. split; [by apply (run_rebuild_refused self a fuel old info loc results)|]. split; [done|]. split; [done|]. by right.
Qed.

(** Node 0 holds SX twice, node 1 reads, node 2 keeps a delayed read. *)
Definition reports3 : list ub_lock_query_result_t :=
  [QueryResult 0 UB_LOCK_SX 7 2 false UB_LOCK_I; QueryResult 1 UB_LOCK_S 0 0 true UB_LOCK_I;
   QueryResult 2 UB_LOCK_I 0 0 false UB_LOCK_S].
Definition world3 : rw_world :=
  mkRwWorld {[ 4096 := zero_rw_lock ]} [(new_local_lock, 8192)] [{[ 8192 := 0%nat ]}] (Network [no_runtime] [[]]) [].

Lemma rebuild_restores_witness :
  exists env' w' m', run (rebuild 0 4096 5 8192 (RebuildInfo (Some reports3) 3) (Location 7 0)) [] world3 = (Some UB_LOCK_SUCCESS, env', w') /\
    mem w' !! 4096 = Some m' /\ restored reports3 m' /\ reg_of w' 0 !! 4096 = Some 0%nat.
Proof.
  destruct (rebuild_restores 0 4096 5 8192 (RebuildInfo (Some reports3) 3) (Location 7 0) reports3 [] world3 zero_rw_lock)
    as (r & env' & w' & m' & Hrun & Hm' & Hok & Hcase).
  1-5: done.
  { repeat constructor; cbn; lia. }
  assert (Hr : r = UB_LOCK_SUCCESS) by (apply Hok; vm_compute; reflexivity). subst r.
  destruct Hcase as [(_ & Hres & _ & h & Hh & Hmv)|[? _]]; [|discriminate].
  exists env', w', m'. split; [exact Hrun|]. split; [exact Hm'|]. split; [exact Hres|].
  destruct Hmv as [-> _]. exact (eq_sym Hh).
Defined.
