(* ===== verification/RwRaces.v ===== *)
(** Executions in which the read-write lock loses its promise (RwLock.v, RwRecover.v).

    Two processes, node 0 and node 1, share the lock at address 4096.  The first two
    executions run one call after the other; the third interleaves the receiving thread of a
    process with one of its threads; the fourth is a recovery.  In each nothing fails and no answer
    of the environment is unusual. *)

From S2P Require Import Prelude Atomic CommTypes LockTypes LockRuntime RingQueue LocalLock RwLock RwRecover.

Definition LOCK : Z := 4096.
Definition nodes2 : rw_world :=
  final (lock_create 0 LOCK 5 (Location 1 0) ;;; lock_create 1 LOCK 5 (Location 1 1))
    (mkRwWorld ∅ [] [∅; ∅] (Network [no_runtime; no_runtime] [[]; []]) []).
Definition plain : ub_lock_policy_t := Policy 10 false false.
Definition delaying : ub_lock_policy_t := Policy 10 true false.

Definition local_of (w : rw_world) (node : nat) : LocalLock := (heap_get w node).1.

(** ** A stranger's delayed unlock *)

(** Thread 1 of node 0 takes X; thread 2 of node 1, which holds nothing, unlocks X with a
    delayed release and locks X. *)
Definition stranger_unlock : prog rw_world (list ub_lock_result_t) :=
  do r1 <- lock_x 0 LOCK 5 plain (Location 1 0);
  do r2 <- unlock_x 1 LOCK 5 delaying (Location 2 1);
  do r3 <- lock_x 1 LOCK 5 plain (Location 2 1);
  Ret [r1; r2; r3].

(** [unlock_x] with a delayed release leaves the token of the global lock before it has
    tested who holds it.  The call of a thread that holds nothing returns an error, but its process
    can then inherit a lock it never had: two threads hold X at once. *)
Theorem delayed_unlock_unchecked :
  result stranger_unlock nodes2 = Some [UB_LOCK_SUCCESS; UB_LOCK_ERROR; UB_LOCK_SUCCESS] /\
  lock_x_owner (local_of (final stranger_unlock nodes2) 0) = 1 /\
  lock_x_owner (local_of (final stranger_unlock nodes2) 1) = 2.
Proof. vm_compute. auto. Qed.

(** ** Readers of a process that held SX *)

(** Of node 0, thread 1 reads, thread 2 takes and releases SX, thread 3 reads; then both readers
    unlock. *)
Definition sx_among_readers : prog rw_world (list ub_lock_result_t) :=
  do r1 <- lock_s 0 LOCK 5 plain (Location 1 0);
  do r2 <- lock_sx 0 LOCK 5 plain (Location 2 0);
  do r3 <- unlock_sx 0 LOCK 5 plain (Location 2 0);
  do r4 <- lock_s 0 LOCK 5 plain (Location 3 0);
  do r5 <- unlock_s 0 LOCK 5 plain (Location 1 0);
  do r6 <- unlock_s 0 LOCK 5 plain (Location 3 0);
  Ret [r1; r2; r3; r4; r5; r6].

(** [unlock_sx] marks the global lock as not held by its process although readers of the
    process hold it, so the next reader takes it a second time and resets the reference
    count.  The last reader's unlock fails and the word keeps a reader that does
    not exist: X is never granted again. *)
Theorem sx_unlock_forgets_readers :
  result sx_among_readers nodes2 =
    Some [UB_LOCK_SUCCESS; UB_LOCK_SUCCESS; UB_LOCK_SUCCESS; UB_LOCK_SUCCESS; UB_LOCK_SUCCESS; UB_LOCK_ERROR] /\
  word (lock_at (final sx_among_readers nodes2) LOCK) = X_LOCK_DECR - 1 /\
  shared_bitmap (lock_at (final sx_among_readers nodes2) LOCK) = 0.
Proof. vm_compute. auto. Qed.

(** ** A release message and a local request *)

(** Node 0 keeps X with a delayed release. *)
Definition kept_x : rw_world :=
  final (lock_x 0 LOCK 5 plain (Location 1 0) ;;; unlock_x 0 LOCK 5 delaying (Location 1 0)) nodes2.
(** Its receiving thread handles node 1's request to give it up while its thread 2 asks for X. *)
Definition release_and_lock : list (prog rw_world ub_lock_result_t) :=
  let body := MsgBody 0 LOCK UB_RELEASE UB_LOCK_X in
  [on_release 0 5 (create_message (Location 0 0) 1 body) body ;;; Ret UB_LOCK_SUCCESS; lock_x 0 LOCK 300 plain (Location 2 0)].
(** The handler takes the token; thread 2 takes the local lock and finds no token; the
    handler finds the local lock held; thread 2 waits until its deadline. *)
Definition lost_schedule : list (nat * Z) :=
  replicate 4 (0%nat, 0) ++ replicate 40 (1%nat, 0) ++ replicate 10 (0%nat, 0) ++
  replicate 400 (1%nat, 0) ++ replicate 2 (1%nat, 10000000) ++ replicate 60 (1%nat, 0).
Definition lost : config := sched (kept_x, release_and_lock) lost_schedule.

(** The handler of UB_RELEASE takes the token of a delayed release and drops it when a
    thread has taken the local lock meanwhile.  A reachable state in which both have returned,
    the handler's call and a request that timed out, has the global lock taken by X while
    no thread holds it and no process has its token. *)
Theorem release_message_loses_lock :
  reachable any_answer (kept_x, release_and_lock) (lost.1, [Ret UB_LOCK_SUCCESS; Ret UB_LOCK_TIMEOUT]) /\
  word (lock_at lost.1 LOCK) = 0 /\ owner_x (lock_at lost.1 LOCK) = identify (Location 1 0) /\
  (forall node, (node < 2)%nat -> lock_word (local_of lost.1 node) = 0 /\ local_is_reserve_lock (local_of lost.1 node) = UB_LOCK_I).
Proof.
  split; [apply sched_done; vm_compute; reflexivity|]. split; [vm_compute; reflexivity|]. split; [vm_compute; reflexivity|].
  intros [|[|node]] Hn; [vm_compute; auto|vm_compute; auto|lia].
Qed.

(** ** Recovery and the token of another process *)

(** Node 0 reads; node 1 reads and keeps the lock with a delayed release; node 0 fails. *)
Definition recover_reader : prog rw_world (list ub_lock_result_t) :=
  do r1 <- lock_s 0 LOCK 5 plain (Location 1 0);
  do r2 <- lock_s 1 LOCK 5 plain (Location 2 1);
  do r3 <- unlock_s 1 LOCK 5 delaying (Location 2 1);
  do r4 <- recover 1 LOCK 5 0 (Location 2 1);
  Ret [r1; r2; r3; r4].

(** [recover] clears [reserve_owner] whenever the failed process was a reader, also when
    another process has left its token there.  That process still keeps the global lock in S mode, and a
    process that wants X no longer learns whom to ask: [delay_release_ub_lock] changes nothing. *)
Theorem recover_clears_foreign_token :
  let w := final recover_reader nodes2 in
  result recover_reader nodes2 = Some [UB_LOCK_SUCCESS; UB_LOCK_SUCCESS; UB_LOCK_SUCCESS; UB_LOCK_SUCCESS] /\
  local_is_reserve_lock (local_of w 1) = UB_LOCK_S /\ word (lock_at w LOCK) = X_LOCK_DECR - 1 /\
  reserve_owner (lock_at w LOCK) = LOCK_INVALID_OWNER /\
  run (delay_release_ub_lock 0 LOCK UB_LOCK_X (Location 3 0)) [] w = (Some UB_LOCK_SUCCESS, [], w).
Proof. vm_compute. auto 10. Qed.
