(* ===== verification/TimeoutReport.v ===== *)
(** The report of a lock that times out: who blocks the request (ub_distribute_lock.cpp, ub_mutex_lock.cpp, ub_spin_lock.cpp).

    A request that times out logs a line with the owners, the readers and the waiters it sees, and names one of them
    as the blocker.  The text is built here from the snapshots that RwLock.v, MutexLock.v and SpinLock.v load.
    [std::to_string] is [pretty]; what [%p] prints is implementation-defined, hence a parameter.
    [rw_report_names_blocker] says that the blocker that is named is one: it holds the lock in a mode that conflicts with the request. *)

From Stdlib Require Import Ascii.
From stdpp Require Import strings pretty.
From S2P Require Import Prelude Atomic Log CommTypes LockTypes LockRuntime RingQueue LocalLock LocalExcl LocalSeq RwLock RwRecover RwRebuild.

#[local] Open Scope string_scope.
#[local] Infix "+++" := String.app (at level 60, right associativity).

(** * Names and owners *)

Definition lock_mode_name (m : ub_lock_mode_t) : string :=
  match m with UB_LOCK_S => "S" | UB_LOCK_SX => "SX" | UB_LOCK_X => "X" | UB_LOCK_I => "I" end.

Definition owner_text (owner : Z) : string :=
  "node=" +++ pretty (owner_node owner) +++ ",tid=" +++ pretty (owner_tid owner).
(** [format_owner], and its copies [format_mutex_owner] and [format_spin_owner]. *)
Definition format_owner (owner : Z) : string := if has_valid_owner owner then owner_text owner else "none".

(** * The read-write lock *)

Definition format_global_blocker (request_mode : ub_lock_mode_t) (s : TimeoutGlobalSnapshot) : string :=
  if has_valid_owner (gs_owner_x s) then "X(" +++ owner_text (gs_owner_x s) +++ ")"
  else if (mode_eqb request_mode UB_LOCK_X || mode_eqb request_mode UB_LOCK_SX) && has_valid_owner (gs_owner_sx s)
  then "SX(" +++ owner_text (gs_owner_sx s) +++ ")"
  else if mode_eqb request_mode UB_LOCK_X && negb (gs_shared_bitmap s =? 0)%Z then "S"
  else if mode_eqb request_mode UB_LOCK_SX && (gs_lock_word s <=? X_LOCK_HALF_DECR)%Z && negb (gs_shared_bitmap s =? 0)%Z then "S"
  else if has_valid_owner (gs_reserve_owner s) then "DELAYED(" +++ owner_text (gs_reserve_owner s) +++ ")"
  else if negb (gs_shared_bitmap s =? 0)%Z then "S"
  else if (0 <? gs_waiting_count s)%Z then "WAITERS(count=" +++ pretty (gs_waiting_count s) +++ ")"
  else "UNKNOWN".

(** The reason is a C string, [None] a null pointer; the first character of an empty string is 0. *)
Definition starts_with (c : Ascii.ascii) (reason : option string) : bool :=
  match reason with Some (String.String c' _) => Ascii.eqb c' c | _ => false end.
Definition timeout_is_local_wait (reason : option string) : bool := starts_with "l"%char reason.
Definition timeout_is_same_node_wait (reason : option string) : bool := starts_with "f"%char reason.
Definition timeout_wait_scope_name (reason : option string) : string :=
  if timeout_is_local_wait reason then "local"
  else if timeout_is_same_node_wait reason then "same_node" else "global".

Definition whose (owner request_tid : Z) : string := if (owner =? request_tid)%Z then "self" else "other".
Definition format_local_blocker (request_mode : ub_lock_mode_t) (request_tid : Z) (s : TimeoutLocalSnapshot) : string :=
  let wants_exclusion := mode_eqb request_mode UB_LOCK_X || mode_eqb request_mode UB_LOCK_SX in
  if negb (ls_owner_x s =? 0)%Z then "X(tid=" +++ pretty (ls_owner_x s) +++ "," +++ whose (ls_owner_x s) request_tid +++ ")"
  else if negb (Z.land (ls_lock_word s) (Z.lor LOCAL_LOCK_X_FLAG LOCAL_LOCK_READER_SENTINEL_MASK) =? 0)%Z then "X(tid=unknown)"
  else if wants_exclusion && negb (ls_owner_sx s =? 0)%Z
  then "SX(tid=" +++ pretty (ls_owner_sx s) +++ "," +++ whose (ls_owner_sx s) request_tid +++ ")"
  else if wants_exclusion && negb (Z.land (ls_lock_word s) LOCAL_LOCK_SX_FLAG =? 0)%Z then "SX(tid=unknown)"
  else if mode_eqb request_mode UB_LOCK_X && negb (ls_read_count s =? 0)%Z then "S(read_count=" +++ pretty (ls_read_count s) +++ ")"
  else if negb (ls_waiting_count s =? 0)%Z then "WAITERS(count=" +++ pretty (ls_waiting_count s) +++ ")"
  else "UNKNOWN".

Record TimeoutGlobalLogInfo := GlobalLogInfo {
  g_snapshot : TimeoutGlobalSnapshot; owner_x_desc : string; owner_sx_desc : string; reserve_owner_desc : string;
  g_blocker_desc : string }.
Record TimeoutLocalLogInfo := LocalLogInfo { l_snapshot : TimeoutLocalSnapshot; l_blocker_desc : string }.
(** What the two functions build from the snapshot they collect. *)
Definition global_info (request_mode : ub_lock_mode_t) (s : TimeoutGlobalSnapshot) : TimeoutGlobalLogInfo :=
  GlobalLogInfo s (format_owner (gs_owner_x s)) (format_owner (gs_owner_sx s)) (format_owner (gs_reserve_owner s))
    (format_global_blocker request_mode s).
Definition local_info (request_mode : ub_lock_mode_t) (request_tid : Z) (s : TimeoutLocalSnapshot) : TimeoutLocalLogInfo :=
  LocalLogInfo s (format_local_blocker request_mode request_tid s).
Definition make_global_timeout_log_info (request_mode : ub_lock_mode_t) (a : Z) : prog rw_world TimeoutGlobalLogInfo :=
  do s <- collect_global_timeout_snapshot a; Ret (global_info request_mode s).
Definition make_local_timeout_log_info (request_mode : ub_lock_mode_t) (request_tid : Z) (h : nat) : prog rw_world TimeoutLocalLogInfo :=
  do s <- collect_local_timeout_snapshot h; Ret (local_info request_mode request_tid s).

Definition select_timeout_blocker (reason : option string) (g : TimeoutGlobalLogInfo) (l : TimeoutLocalLogInfo) : string :=
  if timeout_is_local_wait reason then l_blocker_desc l
  else if timeout_is_same_node_wait reason then "same_node_s_leader"
  else g_blocker_desc g.

(** ** The line that is logged *)

(** The digits of [%llx]; 64 bits have at most sixteen. *)
Definition hex_digit (z : Z) : string :=
  match String.get (Z.to_nat z) "0123456789abcdef" with Some c => String.String c "" | None => "" end.
Fixpoint hex_go (n : nat) (z : Z) (acc : string) : string :=
  match n with
  | O => acc
  | S n' => if (z <? 16)%Z then hex_digit z +++ acc else hex_go n' (z / 16) (hex_digit (z mod 16) +++ acc)
  end.
Definition hex (z : Z) : string := hex_go 16 z "".

Section Line.
Variable fmt_p : Z -> string.

Record TimeoutLogContext := LogContext {
  ctx_location : ub_location_t; ctx_request_mode : ub_lock_mode_t; ctx_wait_scope : string; ctx_blocker : string; ctx_lock : Z }.

Definition request_text (ctx : TimeoutLogContext) : string :=
  "UB lock timeout: wait=" +++ ctx_wait_scope ctx +++ " request=" +++ lock_mode_name (ctx_request_mode ctx) +++
  " node=" +++ pretty (node_id (ctx_location ctx)) +++ " tid=" +++ pretty (tid (ctx_location ctx)).
Definition global_text (g : TimeoutGlobalLogInfo) : string :=
  " global[x=" +++ owner_x_desc g +++ " sx=" +++ owner_sx_desc g +++ " reserve=" +++ reserve_owner_desc g +++
  " waiters=" +++ pretty (gs_waiting_count (g_snapshot g)) +++ "]".

Definition log_timeout_null_lock (ctx : TimeoutLogContext) : string := request_text ctx +++ " lock=null".
Definition log_timeout_without_local (ctx : TimeoutLogContext) (g : TimeoutGlobalLogInfo) : string :=
  request_text ctx +++ " lock=" +++ fmt_p (ctx_lock ctx) +++ " blocker=" +++ g_blocker_desc g +++ global_text g +++ " local=null".
Definition log_timeout_with_local (ctx : TimeoutLogContext) (g : TimeoutGlobalLogInfo) (l : TimeoutLocalLogInfo) : string :=
  let s := l_snapshot l in
  request_text ctx +++ " lock=" +++ fmt_p (ctx_lock ctx) +++ " blocker=" +++ ctx_blocker ctx +++ global_text g +++
  " local[state=0x" +++ hex (ls_lock_word s) +++ " x=" +++ pretty (ls_owner_x s) +++ " sx=" +++ pretty (ls_owner_sx s) +++
  " readers=" +++ pretty (ls_read_count s) +++ " waiters=" +++ pretty (ls_waiting_count s) +++
  " reserve=" +++ lock_mode_name (ls_reserve_mode s) +++ "]".

(** The whole of [dump_timeout_holder_info], for a lock at [a] (0: null) and a local lock that may be missing: it loads the
    snapshots and logs one line. *)
Definition l_rw : lens (rw_world * log_state) rw_world := Lens fst (fun x s => (x, s.2)).
Definition l_log : lens (rw_world * log_state) log_state := Lens snd (fun x s => (s.1, x)).
Definition dump_and_log (a : Z) (location : ub_location_t) (request_mode : ub_lock_mode_t) (local_lock : option nat)
    (reason : option string) : prog (rw_world * log_state) unit :=
  let ctx b := LogContext location request_mode (timeout_wait_scope_name reason) b a in
  let log text := lift l_log (ATOMIC_LOG LOG_LEVEL_ERROR (Some text)) in
  if (a =? 0)%Z then log (log_timeout_null_lock (ctx "")) else
  do g <- lift l_rw (make_global_timeout_log_info request_mode a);
  match local_lock with
  | None => log (log_timeout_without_local (ctx "") g)
  | Some h =>
      do l <- lift l_rw (make_local_timeout_log_info request_mode (tid location) h);
      log (log_timeout_with_local (ctx (select_timeout_blocker reason g l)) g l)
  end.

(** ** The spin lock and the mutex *)

Definition spin_timeout_text (a owner : Z) (location : ub_location_t) : string :=
  "UB spin lock timeout: request=X node=" +++ pretty (node_id location) +++ " tid=" +++ pretty (tid location) +++
  " lock=" +++ fmt_p a +++ " owner=" +++ format_owner owner.

Definition mutex_timeout_is_local (wait_scope : option string) : bool := starts_with "l"%char wait_scope.
Definition format_mutex_blocker (wait_scope : option string) (global_owner global_waiters local_owner : Z) : string :=
  if mutex_timeout_is_local wait_scope then
    if has_valid_owner local_owner then "local_owner(" +++ format_owner local_owner +++ ")" else "local_mutex"
  else if has_valid_owner global_owner then "global_owner(" +++ format_owner global_owner +++ ")"
  else if negb (global_waiters =? 0)%Z then "WAITERS(count=" +++ pretty global_waiters +++ ")"
  else "UNKNOWN".
(** [local]: owner, waiters and active users of the lock of the process, when there is one. *)
Definition mutex_timeout_text (a : Z) (location : ub_location_t) (wait_scope : string) (global_owner global_waiters : Z)
    (local : option (Z * Z * Z)) : string :=
  let '(local_owner, local_waiters, local_active_users) := default (LOCK_INVALID_OWNER, 0, 0)%Z local in
  "UB mutex lock timeout: wait=" +++ wait_scope +++ " request=X node=" +++ pretty (node_id location) +++
  " tid=" +++ pretty (tid location) +++ " lock=" +++ fmt_p a +++
  " blocker=" +++ format_mutex_blocker (Some wait_scope) global_owner global_waiters local_owner +++
  " global[owner=" +++ format_owner global_owner +++ " waiters=" +++ pretty global_waiters +++
  "] local[owner=" +++ format_owner local_owner +++ " waiters=" +++ pretty local_waiters +++
  " active_users=" +++ pretty local_active_users +++ "]".
End Line.

(** * The blocker that is named *)

#[local] Open Scope Z_scope.

Definition place_text (l : ub_location_t) : string := "node=" +++ pretty (node_id l) +++ ",tid=" +++ pretty (tid l).
Definition owner_named (o : Z) (l : ub_location_t) : Prop :=
  valid_location l /\ is_invalid_node (node_id l) = false /\ o = identify l.
Definition owner_slot_ok (o : Z) : Prop := o = LOCK_INVALID_OWNER \/ exists l, owner_named o l.

Lemma named_text o l : owner_named o l -> has_valid_owner o = true /\ owner_text o = place_text l.
Proof.
  intros (Hv & Hn & ->). unfold owner_text, place_text.
  assert (Hne := identify_not_invalid l Hv Hn). assert (Hi : has_valid_owner (identify l) = true).
  { unfold has_valid_owner. by rewrite (proj2 (Z.eqb_neq _ _) Hne). }
  split; [done|]. destruct (owner_decodes l Hv Hn) as [-> ->]. done.
Qed.

Lemma invalid_owner : has_valid_owner LOCK_INVALID_OWNER = false.
Proof. reflexivity. Qed.

Lemma nonzero_bit b : 0 <= b < 2 ^ 16 -> b <> 0 -> exists k, 0 <= k < 16 /\ Z.testbit b k = true.
Proof.
  intros Hb H0. destruct (lowest_bit b) as (k & Hk & Hbit & _); [lia|]. exists k. split; [|done]. split; [done|].
  destruct (Z.lt_ge_cases k 16) as [|Hge]; [done|].
  rewrite <- (Z.mod_small b (2 ^ 16)), Z.mod_pow2_bits_high in Hbit by lia. done.
Qed.

(** The test of the three modes on the word of the global lock. *)
Definition admits (mode : ub_lock_mode_t) (w : Z) : bool :=
  match mode with UB_LOCK_S => 0 <? w | UB_LOCK_SX => X_LOCK_HALF_DECR <? w | UB_LOCK_X => w =? X_LOCK_DECR | UB_LOCK_I => true end.
Definition snapshot_of (m : ub_rw_lock) : TimeoutGlobalSnapshot :=
  GlobalSnapshot (word m) (owner_x m) (owner_sx m) (reserve_owner m) (shared_bitmap m) (q_count (rw_q m)).

Lemma refused_modes mode w r (free : bool) :
  0 <= r <= 16 -> w = X_LOCK_DECR - r - (if free then 0 else X_LOCK_HALF_DECR) -> admits mode w = false ->
  mode <> UB_LOCK_S /\ mode <> UB_LOCK_I /\ (free = true -> mode = UB_LOCK_X /\ r <> 0).
Proof.
  assert (HD : X_LOCK_DECR = 65536) by reflexivity. assert (HH : X_LOCK_HALF_DECR = 32768) by reflexivity.
  intros Hr Hw Ha. unfold admits in Ha. rewrite HD, HH in *.
  destruct mode; bool_to_prop; destruct free; try lia; repeat split; try done; lia.
Qed.

Lemma refused_word m mode :
  rw_consistent m -> owner_x m = LOCK_INVALID_OWNER -> admits mode (word m) = false ->
  mode <> UB_LOCK_S /\ mode <> UB_LOCK_I /\
  (owner_sx m = LOCK_INVALID_OWNER -> mode = UB_LOCK_X /\ exists k, 0 <= k < 16 /\ Z.testbit (shared_bitmap m) k = true).
Proof.
  intros [Hb Hw] Hx Ha. rewrite Hx, Z.eqb_refl in Hw.
  assert (Hn : 0 <= counted_readers m <= 16) by exact (nbits_range 16 (shared_bitmap m)).
  destruct (refused_modes mode (word m) (counted_readers m) (owner_sx m =? LOCK_INVALID_OWNER) Hn Hw Ha) as (H1 & H2 & H3).
  split; [exact H1|]. split; [exact H2|]. intros Hsx. rewrite Hsx, Z.eqb_refl in H3. destruct (H3 eq_refl) as [Hm Hr].
  split; [exact Hm|]. apply nonzero_bit; [exact Hb|]. intros H0. apply Hr. unfold counted_readers. rewrite H0. reflexivity.
Qed.

Lemma mode_not_s mode : mode <> UB_LOCK_S -> mode <> UB_LOCK_I -> mode_eqb mode UB_LOCK_X || mode_eqb mode UB_LOCK_SX = true.
Proof. by destruct mode. Qed.

Definition names_global_holder (m : ub_rw_lock) (mode : ub_lock_mode_t) (b : string) : Prop :=
  (exists l, owner_named (owner_x m) l /\ b = "X(" +++ place_text l +++ ")") \/
  (mode <> UB_LOCK_S /\ exists l, owner_named (owner_sx m) l /\ b = "SX(" +++ place_text l +++ ")") \/
  (mode = UB_LOCK_X /\ b = "S" /\ exists k, 0 <= k < 16 /\ Z.testbit (shared_bitmap m) k = true).

Lemma global_blocker_named m mode :
  rw_consistent m -> owner_slot_ok (owner_x m) -> owner_slot_ok (owner_sx m) -> admits mode (word m) = false ->
  names_global_holder m mode (format_global_blocker mode (snapshot_of m)).
Proof.
  intros Hc Hx Hsx Ha. unfold names_global_holder, format_global_blocker. cbn [snapshot_of gs_owner_x gs_owner_sx gs_shared_bitmap gs_lock_word].
  destruct Hx as [Hx|(l & Hl)]; [|left; exists l; destruct (named_text _ _ Hl) as [-> ->]; split; [exact Hl|reflexivity]].
  destruct (refused_word m mode Hc Hx Ha) as (H1 & H2 & H3).
  rewrite Hx, invalid_owner, mode_not_s by done. cbn [andb].
  destruct Hsx as [Hsx|(l & Hl)].
  - right; right. destruct (H3 Hsx) as (-> & k & Hk & Hbit). rewrite Hsx, invalid_owner. cbn [mode_eqb andb].
    split; [reflexivity|]. split; [|by exists k].
    destruct (Z.eqb_spec (shared_bitmap m) 0) as [H0|H0]; [by rewrite H0, Z.bits_0 in Hbit|reflexivity].
  - right; left. split; [exact H1|]. exists l. destruct (named_text _ _ Hl) as [-> ->]. split; [exact Hl|reflexivity].
Qed.

(** ** The lock of the process *)

Lemma x_mask_test c0 c1 c2 c3 sx :
  wf_abs (Shared c0 c1 c2 c3 sx) ->
  (Z.land (encode (Shared c0 c1 c2 c3 sx)) (Z.lor LOCAL_LOCK_X_FLAG LOCAL_LOCK_READER_SENTINEL_MASK) =? 0) = true.
Proof.
  intros Hw. change (Z.lor LOCAL_LOCK_X_FLAG LOCAL_LOCK_READER_SENTINEL_MASK)
    with (Z.lor (2 ^ 31) (Z.lor (2 ^ 14) (Z.lor (2 ^ 30) (Z.lor (2 ^ 46) (2 ^ 62))))).
  assert (He := encode_range _ Hw). destruct Hw as (? & ? & ? & ?).
  assert (Hbit : forall n, 0 <= n -> (encode (Shared c0 c1 c2 c3 sx) / 2 ^ n) mod 2 = 0 ->
    Z.land (encode (Shared c0 c1 c2 c3 sx)) (2 ^ n) = 0).
  { intros n Hn Hz. rewrite land_bit, Hz by lia. lia. }
  rewrite !Z.land_lor_distr_r. rewrite (Hbit 31), (Hbit 14), (Hbit 30), (Hbit 46), (Hbit 62);
    try lia; try (cbn [encode] in *; destruct sx; words). done.
Qed.

Lemma sx_flag_test c0 c1 c2 c3 sx :
  wf_abs (Shared c0 c1 c2 c3 sx) -> (Z.land (encode (Shared c0 c1 c2 c3 sx)) LOCAL_LOCK_SX_FLAG =? 0) = negb sx.
Proof.
  intros Hw. change LOCAL_LOCK_SX_FLAG with (2 ^ 15). assert (He := encode_range _ Hw). destruct Hw as (? & ? & ? & ?).
  rewrite land_bit by lia. destruct sx; [apply Z.eqb_neq|apply Z.eqb_eq]; cbn [encode] in *; words.
Qed.

(** The abstract lock of LocalSeq.v does not admit the request; a reader may also find its lane full, which the report does
    not distinguish. *)
Definition refuses (mode : ub_lock_mode_t) (a : lock_abs) : Prop :=
  match mode with
  | UB_LOCK_S => a = Exclusive
  | UB_LOCK_SX => (abs_acquire_sx a).1 = false
  | UB_LOCK_X => (abs_acquire_x a).1 = false
  | UB_LOCK_I => False
  end.

(** A snapshot of a local lock that holds [a]; an owner field is set after the word and cleared before it. *)
Record shows (s : TimeoutLocalSnapshot) (a : lock_abs) : Prop := {
  sh_wf : wf_abs a; sh_word : ls_lock_word s = encode a; sh_readers : ls_read_count s = local_lock_reader_count (encode a);
  sh_x : ls_owner_x s <> 0 -> a = Exclusive;
  sh_sx : ls_owner_sx s <> 0 -> match a with Shared _ _ _ _ sx => sx = true | Exclusive => True end }.

Definition holder_text (name : string) (owner request_tid : Z) : string :=
  name +++ "(tid=" +++ (if owner =? 0 then "unknown)" else pretty owner +++ "," +++ whose owner request_tid +++ ")").

Definition names_local_holder (s : TimeoutLocalSnapshot) (a : lock_abs) (t : Z) (b : string) : Prop :=
  b = match a with
      | Exclusive => holder_text "X" (ls_owner_x s) t
      | Shared _ _ _ _ true => holder_text "SX" (ls_owner_sx s) t
      | Shared _ _ _ _ false => "S(read_count=" +++ pretty (abs_readers a) +++ ")"
      end.

Lemma local_blocker_named s a mode t :
  shows s a -> refuses mode a -> names_local_holder s a t (format_local_blocker mode t s).
Proof.
  intros [Hwf Hw Hr Hx Hsx] Href. unfold names_local_holder, format_local_blocker, holder_text.
  destruct a as [|c0 c1 c2 c3 sx].
  { rewrite Hw. by destruct (Z.eqb_spec (ls_owner_x s) 0). }
  destruct (Z.eqb_spec (ls_owner_x s) 0) as [_|Hne]; [|by specialize (Hx Hne)]. cbn [negb].
  rewrite Hw, x_mask_test, sx_flag_test by done. cbn [negb]. rewrite negb_involutive.
  rewrite mode_not_s by (intros ->; by cbn in Href). cbn [andb].
  destruct sx.
  - destruct (Z.eqb_spec (ls_owner_sx s) 0); done.
  - destruct (Z.eqb_spec (ls_owner_sx s) 0) as [_|Hne]; [|by specialize (Hsx Hne)]. cbn [negb].
    rewrite Hr, reader_count_encode by done. destruct mode; try done. cbn [mode_eqb refuses] in Href |- *.
    cbn [abs_readers]. destruct Hwf as (? & ? & ? & ?).
    destruct (Z.eqb_spec (c0 + c1 + c2 + c3) 0) as [Hz|Hz]; [|done].
    assert (c0 = 0 /\ c1 = 0 /\ c2 = 0 /\ c3 = 0) as (-> & -> & -> & ->) by lia. done.
Qed.

(** The reports of the other two locks name the owner the lock has, by node and thread. *)
Lemma owner_reported o l waiters local :
  owner_named o l ->
  format_owner o = place_text l /\
  format_mutex_blocker (Some "global") o waiters local = "global_owner(" +++ place_text l +++ ")" /\
  format_mutex_blocker (Some "local") local waiters o = "local_owner(" +++ place_text l +++ ")".
Proof.
  intros Hl. unfold format_mutex_blocker, format_owner. destruct (named_text o l Hl) as [-> ->]. by repeat split.
Qed.

(** ** The line *)

#[global] Instance l_rw_laws : LensLaws l_rw.
Proof. by split; intros []. Qed.
#[global] Instance l_log_laws : LensLaws l_log.
Proof. by split; intros []. Qed.

Definition local_snapshot_of (o : LocalLock) : TimeoutLocalSnapshot :=
  LocalSnapshot (lock_word o) (local_lock_reader_count (lock_word o)) (q_count (queue o)) (lock_x_owner o) (lock_sx_owner o)
    (local_is_reserve_lock o).

Lemma run_global_info a mode env w m :
  mem w !! a = Some m -> run (make_global_timeout_log_info mode a) env w = (Some (global_info mode (snapshot_of m)), env, w).
Proof.
  intros Hm. unfold make_global_timeout_log_info, collect_global_timeout_snapshot, waiting_count.
  assert (Hid : lset (l_mem a) (lock_at w a) w = w) by (rewrite (lock_at_mem a w m Hm); by apply put_same).
  assert (Hq : lset (lens_comp (l_mem a) lg_q) (rw_q (lock_at w a)) w = w).
  { cbn. rewrite (lock_at_mem a w m Hm). destruct m, w. cbn in *. by rewrite insert_id. }
  cbn [bind lift load act run lget l_mem]. rewrite !Hid, (lock_at_mem a w m Hm).
  change (lget (lens_comp (l_mem a) lg_q) w) with (rw_q (lock_at w a)). by rewrite Hq, (lock_at_mem a w m Hm).
Qed.

Lemma run_local_info h mode t env w :
  run (make_local_timeout_log_info mode t h) env w = (Some (local_info mode t (local_snapshot_of (heap_get w h).1)), env, w).
Proof.
  assert (Hid : lset (l_lobj h) (lget (l_lobj h) w) w = w).
  { destruct w as [m hp rg n i]. cbn. f_equal. unfold heap_get. cbn. destruct (hp !! h) as [[o p]|] eqn:E; cbn;
      [by apply list_insert_id|by apply list_insert_ge, lookup_ge_None]. }
  unfold make_local_timeout_log_info, collect_local_timeout_snapshot. cbn [bind lift load act run].
  by rewrite !Hid.
Qed.

(** The wait is for the global lock. *)
Definition global_wait (reason : option string) : Prop := timeout_is_local_wait reason = false /\ timeout_is_same_node_wait reason = false.
(** C28: a request for the read-write lock that times out logs one line, and the blocker it names does block the request.
    The report only loads: it changes neither the lock nor the local lock, and the line goes to the application as every line of
    the error level.  When the wait was for the global lock, its fields agree and its word
    refuses the mode, the line names the holder of X, or, for an SX or X request, the holder of SX, by node and thread, or, for an X request, the readers, of
    which the bitmap then has at least one: it never falls through to the waiters or to UNKNOWN.  When the wait was for the lock of the process and that
    refuses the mode, the line names its holder of X, its holder of SX, or the number of readers. *)
Theorem rw_report_names_blocker fmt_p a location mode h reason env w lg m :
  a <> 0 -> mem w !! a = Some m ->
  let o := (heap_get w h).1 in
  let g := global_info mode (snapshot_of m) in
  let l := local_info mode (tid location) (local_snapshot_of o) in
  let b := select_timeout_blocker reason g l in
  let line := log_timeout_with_local fmt_p (LogContext location mode (timeout_wait_scope_name reason) b a) g l in
  (exists lg', run (dump_and_log fmt_p a location mode (Some h) reason) env (w, lg) = (Some tt, env, (w, lg')) /\
     printed lg' = (printed lg ++ lines lg LOG_LEVEL_ERROR (Some line))%list) /\
  (global_wait reason -> rw_consistent m -> owner_slot_ok (owner_x m) -> owner_slot_ok (owner_sx m) -> admits mode (word m) = false ->
     names_global_holder m mode b) /\
  (forall ab, timeout_is_local_wait reason = true -> shows (local_snapshot_of o) ab -> refuses mode ab ->
     names_local_holder (local_snapshot_of o) ab (tid location) b).
Proof.
  intros Ha Hm o g l b line. split; [|split].
  - unfold dump_and_log. rewrite (proj2 (Z.eqb_neq _ _) Ha), run_bind, (run_lift l_rw). cbn [lget l_rw fst].
    rewrite (run_global_info a mode env w m Hm). cbn [lset l_rw]. rewrite run_bind, (run_lift l_rw). cbn [lget l_rw fst snd].
    rewrite run_local_info. cbn [lset l_rw snd]. rewrite (run_lift l_log). cbn [lget l_log snd].
    destruct (run_log LOG_LEVEL_ERROR (Some line) env lg) as (lg' & Hrun & Hp & _).
    exists lg'. split; [|exact Hp]. unfold line, b, g, l, o in Hrun. rewrite Hrun. reflexivity.
  - intros [H1 H2] Hc Hx Hsx Href. unfold b, select_timeout_blocker. rewrite H1, H2. by apply global_blocker_named.
  - intros ab H1 Hs Href. unfold b, select_timeout_blocker. rewrite H1.
    exact (local_blocker_named _ ab mode (tid location) Hs Href).
Qed.

(** Node 3 holds X in thread 17 and a writer of node 1 gives up; then a writer of its process holds the local lock. *)
Definition held_lock : ub_rw_lock :=
  lset lg_owner_x (identify (Location 17 3)) (lset lg_owner_sx LOCK_INVALID_OWNER (lset lg_reserve LOCK_INVALID_OWNER zero_rw_lock)).
Definition held_world : rw_world :=
  mkRwWorld {[ 4096 := held_lock ]} [(lset l_x_owner 8 (lset l_word (encode Exclusive) new_local_lock), 4096)] [] (Network [] []) [].
Definition app_log : log_state := LogState LOG_LEVEL_ERROR (func_app 1) [].
Definition no_pointer (_ : Z) : string := "?".

Lemma rw_report_names_blocker_witness :
  (exists lg', run (dump_and_log no_pointer 4096 (Location 9 1) UB_LOCK_X (Some 0%nat) (Some "global_queue_wait")) [] (held_world, app_log)
     = (Some tt, [], (held_world, lg'))) /\
  names_global_holder held_lock UB_LOCK_X (format_global_blocker UB_LOCK_X (snapshot_of held_lock)) /\
  names_local_holder (local_snapshot_of (heap_get held_world 0).1) Exclusive 9
    (select_timeout_blocker (Some "local_wait") (global_info UB_LOCK_X (snapshot_of held_lock))
       (local_info UB_LOCK_X 9 (local_snapshot_of (heap_get held_world 0).1))).
Proof.
  assert (Hm : mem held_world !! 4096 = Some held_lock) by reflexivity.
  destruct (rw_report_names_blocker no_pointer 4096 (Location 9 1) UB_LOCK_X 0 (Some "global_queue_wait") [] held_world app_log
    held_lock ltac:(done) Hm) as ((lg' & Hrun & _) & Hg & _).
  destruct (rw_report_names_blocker no_pointer 4096 (Location 9 1) UB_LOCK_X 0 (Some "local_wait") [] held_world app_log
    held_lock ltac:(done) Hm) as (_ & _ & Hl).
  split; [by exists lg'|]. split.
  - assert (Hc : rw_consistent held_lock) by (split; [split|]; vm_compute; [discriminate|reflexivity|repeat split]).
    assert (Hx : owner_slot_ok (owner_x held_lock)).
    { right. exists (Location 17 3). split; [unfold valid_location; cbn [tid node_id]; lia|]. split; [reflexivity|vm_compute; reflexivity]. }
    exact (Hg (conj eq_refl eq_refl) Hc Hx (or_introl eq_refl) eq_refl).
  - apply Hl; [done| |done]. split; by vm_compute.
Defined.

Example held_line :
  printed (run (dump_and_log no_pointer 4096 (Location 9 1) UB_LOCK_X (Some 0%nat) (Some "global_queue_wait")) [] (held_world, app_log)).2.2 =
  [(1, 3, "UB lock timeout: wait=global request=X node=1 tid=9 lock=? blocker=X(node=3,tid=17) global[x=node=3,tid=17 sx=none reserve=none waiters=0] local[state=0x40004000c0004000 x=8 sx=0 readers=0 waiters=0 reserve=I]")].
Proof. vm_compute. reflexivity. Qed.
