(* ===== verification/MPSCRing.v ===== *)
(** The multi-producer single-consumer ring of the communication queue
    (src/ub_comm_queue/MPSCRingBuffer.cpp).

    A ring lives in shared memory: a control block and [entry_num] entries of
    [entry_stride] bytes, each a [ready_seq] word and a payload.  Producers reserve
    a ticket by advancing [tail], copy the message byte by byte into the entry of the
    ticket and publish it by storing ticket + 1 into [ready_seq]; the consumer reads the
    entry at [head] when its [ready_seq] is head + 1, clears it and advances
    [head].  Every access to shared memory, each byte of a copy included, is one
    atomic step.

    The state is [mpsc_world]: the ring, one [peer_cache] for every remote process
    that sends to it (the values a sender caches outside the ring), and the
    thread-local variables of the consumer thread.  The statistics compiled in by
    UB_COMM_QUEUE_ENABLE_DEBUG_STATS, which are off by default, are left out. *)

From S2P Require Import Prelude Atomic CommTypes.

(** * State *)

Record entry : Set := Entry { ready_seq : Z; data : list Z }.

(** The fields the constructor fixes. *)
Record geometry : Set := Geometry {
  entry_stride : Z; entry_num : Z; max_msg_size : Z; index_mask : Z }.

Record ring : Set := Ring {
  geom : geometry;
  head : Z; tail : Z;
  local_producer_cached_head : Z;
  congestion_threshold : Z; congestion_threshold_version : Z;
  congested : Z; max_depth : Z;
  entries : list entry;
  overrun : bool (* a write left the payload of its entry *) }.

(** What a remote sender caches about the ring. *)
Record peer_cache : Set := PeerCache {
  shadow_head : Z; cached_threshold : Z; cached_threshold_version : Z }.

(** thread_local state of the consumer *)
Record stale_state : Set := StaleState { st_ring : Z; head_seq : Z; first_seen_us : Z }.
Record consumer_tls : Set := ConsumerTls {
  stale_reserved_probe : Z; stale_states : list stale_state }.

Record mpsc_world : Set := World {
  w_ring : ring; peers : list peer_cache; tls : consumer_tls }.

Definition on_ring (f : ring -> ring) (w : mpsc_world) : mpsc_world :=
  World (f (w_ring w)) (peers w) (tls w).

Definition set_head (v : Z) : mpsc_world -> mpsc_world := on_ring (fun r =>
  Ring (geom r) v (tail r) (local_producer_cached_head r) (congestion_threshold r)
    (congestion_threshold_version r) (congested r) (max_depth r) (entries r) (overrun r)).
Definition set_tail (v : Z) : mpsc_world -> mpsc_world := on_ring (fun r =>
  Ring (geom r) (head r) v (local_producer_cached_head r) (congestion_threshold r)
    (congestion_threshold_version r) (congested r) (max_depth r) (entries r) (overrun r)).
Definition set_local_cached (v : Z) : mpsc_world -> mpsc_world := on_ring (fun r =>
  Ring (geom r) (head r) (tail r) v (congestion_threshold r)
    (congestion_threshold_version r) (congested r) (max_depth r) (entries r) (overrun r)).
Definition set_threshold (v : Z) : mpsc_world -> mpsc_world := on_ring (fun r =>
  Ring (geom r) (head r) (tail r) (local_producer_cached_head r) v
    (congestion_threshold_version r) (congested r) (max_depth r) (entries r) (overrun r)).
Definition set_version (v : Z) : mpsc_world -> mpsc_world := on_ring (fun r =>
  Ring (geom r) (head r) (tail r) (local_producer_cached_head r) (congestion_threshold r)
    v (congested r) (max_depth r) (entries r) (overrun r)).
Definition set_congested (v : Z) : mpsc_world -> mpsc_world := on_ring (fun r =>
  Ring (geom r) (head r) (tail r) (local_producer_cached_head r) (congestion_threshold r)
    (congestion_threshold_version r) v (max_depth r) (entries r) (overrun r)).
Definition set_max_depth (v : Z) : mpsc_world -> mpsc_world := on_ring (fun r =>
  Ring (geom r) (head r) (tail r) (local_producer_cached_head r) (congestion_threshold r)
    (congestion_threshold_version r) (congested r) v (entries r) (overrun r)).
Definition set_entries (es : list entry) (o : bool) : mpsc_world -> mpsc_world := on_ring (fun r =>
  Ring (geom r) (head r) (tail r) (local_producer_cached_head r) (congestion_threshold r)
    (congestion_threshold_version r) (congested r) (max_depth r) es o).
Definition set_tls (t : consumer_tls) (w : mpsc_world) : mpsc_world :=
  World (w_ring w) (peers w) t.

Definition l_tail : lens mpsc_world Z := Lens (fun w => tail (w_ring w)) set_tail.
Definition l_version : lens mpsc_world Z :=
  Lens (fun w => congestion_threshold_version (w_ring w)) set_version.
Definition l_congested : lens mpsc_world Z := Lens (fun w => congested (w_ring w)) set_congested.
Definition l_max_depth : lens mpsc_world Z := Lens (fun w => max_depth (w_ring w)) set_max_depth.

(** The cached head a producer uses: its own ring's field for a local producer, the
    shadow of the sending process for a remote one. *)
Definition l_local_cached : lens mpsc_world Z :=
  Lens (fun w => local_producer_cached_head (w_ring w)) set_local_cached.
Definition no_cache : peer_cache := PeerCache 0 0 0.
Definition on_peer (j : nat) (f : peer_cache -> peer_cache) (w : mpsc_world) : mpsc_world :=
  World (w_ring w) (alter f j (peers w)) (tls w).
Definition peer (j : nat) (w : mpsc_world) : peer_cache := default no_cache (peers w !! j).
Definition l_shadow (j : nat) : lens mpsc_world Z :=
  Lens (fun w => shadow_head (peer j w))
       (fun v => on_peer j (fun c => PeerCache v (cached_threshold c) (cached_threshold_version c))).
Definition l_cthr (j : nat) : lens mpsc_world Z :=
  Lens (fun w => cached_threshold (peer j w))
       (fun v => on_peer j (fun c => PeerCache (shadow_head c) v (cached_threshold_version c))).
Definition l_cver (j : nat) : lens mpsc_world Z :=
  Lens (fun w => cached_threshold_version (peer j w))
       (fun v => on_peer j (fun c => PeerCache (shadow_head c) (cached_threshold c) v)).

(** * Layout *)

Definition CACHELINE_SIZE : Z := 64.
Definition SIZEOF_ENTRY : Z := 8.
(** sizeof(MPSCRingBuffer): head and tail on cache lines of their own, the read-only fields
    after tail, the flow-control fields on a third line. *)
Definition SIZEOF_RING : Z := 192.
Definition GetDataOffset : Z := Z.land (SIZEOF_RING + 63) (Z.lnot 63).

Definition align_entry (size : Z) : Z :=
  if size mod CACHELINE_SIZE =? 0 then size
  else size + (CACHELINE_SIZE - size mod CACHELINE_SIZE).

Definition CalculateMemorySize (capacity max_size : Z) : Z :=
  u64 (GetDataOffset + u64 (align_entry (SIZEOF_ENTRY + max_size) * capacity)).

(** The address of entry [idx] of the ring at address [self]. *)
Definition get_entry (self : Z) (g : geometry) (idx : Z) : Z :=
  self + GetDataOffset + idx * entry_stride g.

(** The entry that starts [off] bytes into the data area. *)
Definition slot_at (g : geometry) (off : Z) : Z := off / entry_stride g.

Definition no_entry : entry := Entry 0 [].
Definition entry_at (w : mpsc_world) (slot : Z) : entry := getZ no_entry (entries (w_ring w)) slot.

Definition store_seq (slot v : Z) (w : mpsc_world) : mpsc_world :=
  set_entries (setZ (entries (w_ring w)) slot (Entry v (data (entry_at w slot))))
    (overrun (w_ring w)) w.

Definition store_byte (slot off b : Z) (w : mpsc_world) : mpsc_world :=
  let e := entry_at w slot in
  if off <? Z.of_nat (length (data e)) then
    set_entries (setZ (entries (w_ring w)) slot (Entry (ready_seq e) (setZ (data e) off b)))
      (overrun (w_ring w)) w
  else set_entries (entries (w_ring w)) true w.

(** memcpy into, and out of, the payload of an entry. *)
Fixpoint memcpy_in (slot off : Z) (bs : list Z) : prog mpsc_world unit :=
  match bs with
  | [] => Ret tt
  | b :: bs' => store (store_byte slot off b) ;;; memcpy_in slot (off + 1) bs'
  end.
Fixpoint memcpy_out (slot off : Z) (n : nat) (acc : list Z) : prog mpsc_world (list Z) :=
  match n with
  | O => Ret acc
  | S n' => do b <- load (fun w => getZ 0 (data (entry_at w slot)) off);
            memcpy_out slot (off + 1) n' (acc ++ [b])
  end.

(** * Construction *)

Definition DEFAULT_CONGESTION_THRESHOLD_PERCENT : Z := 80.

Definition calculate_flow_threshold (capacity percent : Z) : Z :=
  let threshold := u64 (u64 (capacity * percent) + 99) / 100 in
  let threshold := if negb (percent =? 0) && (threshold =? 0) then 1 else threshold in
  let threshold := if capacity <? threshold then capacity else threshold in
  u32 threshold.

(** [None] where the constructor throws; [raw] is what the memory held. *)
Definition make_ring (raw : list (list Z)) (capacity max_size : Z) : option ring :=
  if (capacity =? 0) || negb (Z.land capacity (u32 (capacity - 1)) =? 0) then None
  else
    let stride := align_entry (SIZEOF_ENTRY + max_size) in
    let fresh i := Entry 0 (take (Z.to_nat (stride - SIZEOF_ENTRY))
        (default [] (raw !! i) ++ replicate (Z.to_nat (stride - SIZEOF_ENTRY)) 0)) in
    Some (Ring (Geometry stride capacity max_size (u32 (capacity - 1))) 0 0 0
            (calculate_flow_threshold capacity DEFAULT_CONGESTION_THRESHOLD_PERCENT) 1 0 0
            (fresh <$> seq 0 (Z.to_nat capacity)) false).

(** * Operations *)

Module MPSCRingBuffer.

Definition MAX_CAS_RETRIES : Z := 1000.
Definition FLOW_CONFIG_REFRESH_INTERVAL : Z := 1024.
Definition HALF_WRITE_TIMEOUT_US : Z := 5000000.
Definition STALE_RESERVED_PROBE_MASK : Z := 511.
Definition LOCAL_STALE_STATE_SLOTS : Z := 32.

(** Reading the fields fixed at construction. *)
Definition get_geometry : prog mpsc_world geometry := load (fun w => geom (w_ring w)).
Definition get_entry_num : prog mpsc_world Z := load (fun w => entry_num (geom (w_ring w))).
Definition get_max_msg_size : prog mpsc_world Z := load (fun w => max_msg_size (geom (w_ring w))).
Definition get_entry_stride : prog mpsc_world Z := load (fun w => entry_stride (geom (w_ring w))).

Definition get_flow_threshold : prog mpsc_world Z :=
  load (fun w => congestion_threshold (w_ring w)).
Definition get_congestion_threshold : prog mpsc_world Z := get_flow_threshold.
Definition get_congestion_threshold_version : prog mpsc_world Z := load (lget l_version).

Definition record_depth_round (used old : Z) : prog mpsc_world (Z + unit) :=
  if old <? used then
    do '(ok, old') <- cas_weak l_max_depth old used;
    Ret (if ok : bool then inr tt else inl old')
  else Ret (inr tt).

Definition record_depth (fuel : nat) (used : Z) : prog mpsc_world unit :=
  do old <- load (lget l_max_depth);
  iter fuel (record_depth_round used) old.

(** Empty unless the debug statistics are compiled in. *)
Definition record_full_fail : prog mpsc_world unit := Ret tt.
Definition record_cas_fail : prog mpsc_world unit := Ret tt.

(** The values the log line prints are read, the line itself is not modelled. *)
Definition log_flow_edge : prog mpsc_world unit :=
  do _ <- get_flow_threshold; do _ <- load (lget l_max_depth); Ret tt.

Definition sample_flow_state (fuel : nat) (used : Z) : prog mpsc_world Z :=
  do n <- get_entry_num;
  let used := if n <? used then n else used in
  record_depth fuel used ;;;
  do threshold <- get_flow_threshold;
  if threshold <=? used then
    do c <- load (lget l_congested);
    if negb (c =? 0) then Ret UB_COMM_SEND_CONGESTED else
    do '(ok, _) <- cas_strong l_congested 0 1;
    (if ok : bool then do _ <- ask QRealtime; log_flow_edge else Ret tt) ;;;
    Ret UB_COMM_SEND_CONGESTED
  else
    do c <- load (lget l_congested);
    if c =? 0 then Ret UB_COMM_OK else
    do '(ok, _) <- cas_strong l_congested 1 0;
    if ok : bool then
      do _ <- ask QRealtime; log_flow_edge ;;; Ret UB_COMM_OK
    else
      do c' <- load (lget l_congested);
      Ret (if negb (c' =? 0) then UB_COMM_SEND_CONGESTED else UB_COMM_OK).

Definition approximate_used : prog mpsc_world Z :=
  do t <- load (lget l_tail);
  do h <- load (fun w => head (w_ring w));
  let used := if h <=? t then t - h else 0 in
  do n <- get_entry_num;
  Ret (if n <? used then n else used).

(** ** The half-written entry left by a producer that died *)

Definition no_state : stale_state := StaleState 0 UINT64_MAX 0.

(** The slots of the thread-local table in probing order. *)
Definition stale_probes (self : Z) : list Z :=
  let start := Z.land (Z.shiftr self 6) (LOCAL_STALE_STATE_SLOTS - 1) in
  (fun i => Z.land (start + i) (LOCAL_STALE_STATE_SLOTS - 1)) <$> seqZ 0 LOCAL_STALE_STATE_SLOTS.

(** The index of the table entry for the ring, and the table with it claimed. *)
Definition claim_stale_state (self : Z) (t : consumer_tls) : Z * consumer_tls :=
  let states := stale_states t in
  let usable idx := bool_decide (st_ring (getZ no_state states idx) = self \/
                                 st_ring (getZ no_state states idx) = 0) in
  let idx := default (Z.land (Z.shiftr self 6) (LOCAL_STALE_STATE_SLOTS - 1))
               (List.find usable (stale_probes self)) in
  let old := if usable idx then getZ no_state states idx else no_state in
  (idx, ConsumerTls (stale_reserved_probe t)
          (setZ states idx (StaleState self (head_seq old) (first_seen_us old)))).

Definition get_local_stale_state (self : Z) : prog mpsc_world Z :=
  act (fun w => let r := claim_stale_state self (tls w) in (r.1, set_tls r.2 w)).

Definition stale_get (idx : Z) : prog mpsc_world stale_state :=
  load (fun w => getZ no_state (stale_states (tls w)) idx).
Definition stale_set (idx hs fs : Z) : prog mpsc_world unit :=
  store (fun w => let st := getZ no_state (stale_states (tls w)) idx in
    set_tls (ConsumerTls (stale_reserved_probe (tls w))
      (setZ (stale_states (tls w)) idx (StaleState (st_ring st) hs fs))) w).

Definition load_seq (slot : Z) : prog mpsc_world Z := load (fun w => ready_seq (entry_at w slot)).

(** After an entry was consumed or skipped, flow control is sampled while congested. *)
Definition sample_if_congested (fuel : nat) : prog mpsc_world unit :=
  do c <- load (lget l_congested);
  if negb (c =? 0) then
    do used <- approximate_used; sample_flow_state fuel used ;;; Ret tt
  else Ret tt.

Definition try_skip_stale_reserved_entry (fuel : nat) (self slot cur_head : Z)
    : prog mpsc_world bool :=
  do t <- load (lget l_tail);
  if t <=? cur_head then Ret false else
  let expected_seq := u64 (cur_head + 1) in
  do s <- load_seq slot;
  if s =? expected_seq then Ret false else
  do idx <- get_local_stale_state self;
  do now <- ask QSteady;
  do st <- stale_get idx;
  if negb (head_seq st =? cur_head) then
    stale_set idx cur_head now ;;; Ret false
  else if (first_seen_us st =? 0) || (now <? first_seen_us st) ||
          (now - first_seen_us st <? HALF_WRITE_TIMEOUT_US) then Ret false
  else
    do s' <- load_seq slot;
    if s' =? expected_seq then
      stale_set idx UINT64_MAX 0 ;;; Ret false
    else
      store (store_seq slot 0) ;;;
      store (set_head expected_seq) ;;;
      stale_set idx UINT64_MAX 0 ;;;
      sample_if_congested fuel ;;;
      Ret true.

(** ** Flow control after an enqueue *)

Definition flow_result_after_enqueue (fuel : nat) (new_tail : Z) (cached_head : lens mpsc_world Z)
    : prog mpsc_world Z :=
  do threshold <- get_flow_threshold;
  do cached <- load (lget cached_head);
  let used := if cached <=? new_tail then new_tail - cached else 0 in
  if used <? threshold then Ret UB_COMM_OK else
  do fresh <- load (fun w => head (w_ring w));
  store (lset cached_head fresh) ;;;
  let used := if fresh <=? new_tail then new_tail - fresh else 0 in
  sample_flow_state fuel used.

Definition refresh_cached_threshold (j : nat) : prog mpsc_world Z :=
  do remote_version <- get_congestion_threshold_version;
  do v <- load (lget (l_cver j));
  (if negb (remote_version =? v) then
     do t <- get_flow_threshold;
     store (lset (l_cthr j) t) ;;;
     store (lset (l_cver j) remote_version)
   else Ret tt) ;;;
  load (lget (l_cthr j)).

Definition flow_result_after_enqueue_cached (fuel : nat) (new_tail : Z) (j : nat)
    : prog mpsc_world Z :=
  do threshold <- load (lget (l_cthr j));
  do v <- load (lget (l_cver j));
  do threshold <-
    (if (v =? 0) || (Z.land new_tail (FLOW_CONFIG_REFRESH_INTERVAL - 1) =? 0)
     then refresh_cached_threshold j else Ret threshold);
  if threshold =? 0 then Ret UB_COMM_SEND_CONGESTED else
  do cached <- load (lget (l_shadow j));
  let used := if cached <=? new_tail then new_tail - cached else 0 in
  if used <? threshold then Ret UB_COMM_OK else
  refresh_cached_threshold j ;;;
  do fresh <- load (fun w => head (w_ring w));
  store (lset (l_shadow j) fresh) ;;;
  let used := if fresh <=? new_tail then new_tail - fresh else 0 in
  sample_flow_state fuel used.

Definition configure_congestion_threshold (fuel : nat) (percent : Z) : prog mpsc_world Z :=
  if 100 <? percent then Ret (- EINVAL) else
  do n <- get_entry_num;
  store (set_threshold (calculate_flow_threshold (u32 n) percent)) ;;;
  rmw l_version (fun v => u64 (v + 1)) ;;;
  do used <- approximate_used;
  sample_flow_state fuel used ;;;
  Ret UB_COMM_OK.

Inductive queue_state : Set :=
| UB_COMM_QUEUE_IDLE | UB_COMM_QUEUE_NORMAL | UB_COMM_QUEUE_CONGESTED | UB_COMM_QUEUE_FULL.

Record queue_status : Set := Status {
  st_used : Z; st_total : Z; st_free : Z; st_state : queue_state;
  st_threshold : Z; st_max_depth : Z }.

Definition get_status (fuel : nat) : prog mpsc_world queue_status :=
  do used <- approximate_used;
  record_depth fuel used ;;;
  do n <- get_entry_num;
  do threshold <- get_flow_threshold;
  do depth <- load (lget l_max_depth);
  Ret (Status used n (if n <=? used then 0 else n - used)
        (if n <=? used then UB_COMM_QUEUE_FULL
         else if (threshold =? 0) || (threshold <=? used) then UB_COMM_QUEUE_CONGESTED
         else if used =? 0 then UB_COMM_QUEUE_IDLE
         else UB_COMM_QUEUE_NORMAL)
        threshold depth).

(** ** Enqueue *)

(** One round of the reservation loop: either the ring is full, or the ticket
    [curr_tail] is claimed, or the loop goes on with the tail another producer left. *)
Definition reserve_round (fuel : nat) (cached_head : lens mpsc_world Z) (capacity curr_tail : Z)
    : prog mpsc_world (Z + (Z + Z)) :=
  let claim :=
    do '(ok, seen) <- cas_weak l_tail curr_tail (u64 (curr_tail + 1));
    if ok : bool then Ret (inr (inr curr_tail))
    else record_cas_fail ;;; Ret (inl seen) in
  do cached <- load (lget cached_head);
  if u64 (cached + capacity) <=? curr_tail then
    do fresh <- load (fun w => head (w_ring w));
    store (lset cached_head fresh) ;;;
    if u64 (fresh + capacity) <=? curr_tail then
      record_full_fail ;;;
      sample_flow_state fuel capacity ;;;
      Ret (inr (inl UB_COMM_ERR_RING_FULL))
    else claim
  else claim.

(** Copy the message into the entry and publish it. *)
Definition write_entry (slot curr_tail : Z) (hdr : message_header_t) (body : option (list Z))
    (body_len : Z) : prog mpsc_world unit :=
  (if 0 <? body_len then
     memcpy_in slot 0 (encode_header hdr) ;;;
     memcpy_in slot MSG_HEADER_LEN (take (Z.to_nat body_len) (default [] body))
   else memcpy_in slot 0 (encode_header hdr)) ;;;
  store (store_seq slot (u64 (curr_tail + 1))).

Definition bad_buffers (hdr : option message_header_t) (body : option (list Z)) (body_len : Z)
    : bool :=
  bool_decide (hdr = None) || ((0 <? body_len) && bool_decide (body = None)).

Definition default_header : message_header_t := Header 0 0 0 0 0 0.

Definition enqueue_local (fuel : nat) (hdr : option message_header_t) (body : option (list Z))
    (body_len : Z) : prog mpsc_world Z :=
  let total_len := u32 (MSG_HEADER_LEN + body_len) in
  if bad_buffers hdr body body_len then Ret (- EINVAL) else
  do g <- get_geometry;
  if max_msg_size g <? total_len then Ret (- EMSGSIZE) else
  do curr_tail <- load (lget l_tail);
  do r <- iter fuel (reserve_round fuel l_local_cached (entry_num g)) curr_tail;
  match r with
  | inl err => Ret err
  | inr ticket =>
      let slot := slot_at g (Z.land ticket (index_mask g) * entry_stride g) in
      write_entry slot ticket (default default_header hdr) body body_len ;;;
      flow_result_after_enqueue fuel (u64 (ticket + 1)) l_local_cached
  end.

(** The remote loop gives up after [MAX_CAS_RETRIES]; its local state is the retry
    counter and the tail. *)
Definition remote_round (fuel : nat) (j : nat) (capacity : Z) (l : Z * Z)
    : prog mpsc_world ((Z * Z) + (Z + Z)) :=
  let '(retry_count, curr_tail) := l in
  if MAX_CAS_RETRIES <? retry_count then record_cas_fail ;;; Ret (inr (inl UB_COMM_ERR_RING_BUSY))
  else
    do r <- reserve_round fuel (l_shadow j) capacity curr_tail;
    match r with
    | inl seen => Ret (inl (retry_count + 1, seen))
    | inr res => Ret (inr res)
    end.

Definition REMOTE_ROUNDS : nat := 1002.

Definition enqueue_remote (fuel : nat) (remote_null : bool) (hdr : option message_header_t)
    (body : option (list Z)) (body_len mask stride max_size : Z) (j : nat) : prog mpsc_world Z :=
  if remote_null || bad_buffers hdr body body_len then Ret (- EINVAL) else
  let total_len := u32 (MSG_HEADER_LEN + body_len) in
  if max_size <? total_len then Ret (- EMSGSIZE) else
  do curr_tail <- load (lget l_tail);
  let capacity := u32 (mask + 1) in
  do r <- iter REMOTE_ROUNDS (remote_round fuel j capacity) (0, curr_tail);
  match r with
  | inl err => Ret err
  | inr ticket =>
      do g <- get_geometry;
      let slot := slot_at g (Z.land ticket mask * stride) in
      write_entry slot ticket (default default_header hdr) body body_len ;;;
      flow_result_after_enqueue_cached fuel (u64 (ticket + 1)) j
  end.

(** ** Dequeue *)

(** The number of bytes read (0: nothing) and the bytes copied to the buffer. *)
Definition dequeue (fuel : nat) (self buffer_cap : Z) : prog mpsc_world (Z * list Z) :=
  do cur_head <- load (fun w => head (w_ring w));
  do g <- get_geometry;
  let slot := slot_at g (Z.land cur_head (index_mask g) * entry_stride g) in
  let expected_seq := u64 (cur_head + 1) in
  do s <- load_seq slot;
  if negb (s =? expected_seq) then
    do probe <- act (fun w =>
      let probe := u32 (stale_reserved_probe (tls w) + 1) in
      (probe, set_tls (ConsumerTls probe (stale_states (tls w))) w));
    if negb (Z.land probe STALE_RESERVED_PROBE_MASK =? 0) then Ret (0, []) else
    try_skip_stale_reserved_entry fuel self slot cur_head ;;; Ret (0, [])
  else
    do len <- load (fun w => body_length (decode_header (data (entry_at w slot))));
    let real_len := MSG_HEADER_LEN + len in
    if max_msg_size g <? real_len then
      store (store_seq slot 0) ;;;
      store (set_head expected_seq) ;;;
      Ret (0, [])
    else
      let copy_len := if buffer_cap <? real_len then buffer_cap else u32 real_len in
      do buffer <- memcpy_out slot 0 (Z.to_nat copy_len) [];
      store (store_seq slot 0) ;;;
      store (set_head expected_seq) ;;;
      sample_if_congested fuel ;;;
      Ret (copy_len, buffer).

Definition trigger_force_full : prog mpsc_world unit :=
  do curr_tail <- load (lget l_tail);
  do n <- get_entry_num;
  store (set_head (u64 (curr_tail - n))).

End MPSCRingBuffer.

(** * Lemmas on messages and layout *)

Definition wf_header (h : message_header_t) : Prop :=
  0 <= src_thread_id h < 2 ^ 64 /\ 0 <= body_length h < 2 ^ 32 /\
  Forall (fun b => 0 <= b < 256) [dest_node_id h; src_node_id h; msg_type h; priority h].

Lemma length_le_bytes n z : length (le_bytes n z) = n.
Proof. revert z. induction n as [|n IH]; intros z; cbn; [done|]. by rewrite IH. Qed.

Lemma le_value_bytes n z : 0 <= z < 2 ^ (8 * Z.of_nat n) -> le_value (le_bytes n z) = z.
Proof.
  revert z. induction n as [|n IH]; intros z Hz; cbn.
  - change (2 ^ (8 * Z.of_nat 0)) with 1 in Hz. lia.
  - rewrite IH; [pose proof (Z.div_mod z 256); lia|].
    replace (8 * Z.of_nat (S n)) with (8 + 8 * Z.of_nat n) in Hz by lia.
    rewrite Z.pow_add_r in Hz by lia. change (2 ^ 8) with 256 in Hz.
    split; [apply Z.div_pos; lia|]. apply Z.div_lt_upper_bound; lia.
Qed.

Lemma length_encode_header h : length (encode_header h) = 16%nat.
Proof. unfold encode_header. by rewrite !length_app, !length_le_bytes. Qed.

Lemma decode_encode_header h rest :
  wf_header h -> decode_header (encode_header h ++ rest) = h.
Proof.
  intros (Hs & Hb & _). unfold decode_header, encode_header.
  rewrite <- !(assoc_L (++)).
  rewrite take_app_length' by (by rewrite length_le_bytes).
  rewrite drop_app_length' by (by rewrite length_le_bytes).
  rewrite take_app_length' by (by rewrite length_le_bytes).
  rewrite !le_value_bytes by done. by destruct h.
Qed.

(** The geometry the constructor sets up. *)
Definition wf_geometry (g : geometry) : Prop :=
  is_pow2 (entry_num g) /\ entry_num g < 2 ^ 32 /\ index_mask g = entry_num g - 1 /\
  entry_stride g = align_entry (SIZEOF_ENTRY + max_msg_size g) /\
  0 <= max_msg_size g < 2 ^ 32.

Lemma align_entry_ge size : size <= align_entry size.
Proof. unfold align_entry, CACHELINE_SIZE. pose proof (Z.mod_pos_bound size 64). case_bool; lia. Qed.

Lemma wf_stride g : wf_geometry g -> max_msg_size g + SIZEOF_ENTRY <= entry_stride g.
Proof. intros (_ & _ & _ & -> & _). pose proof (align_entry_ge (SIZEOF_ENTRY + max_msg_size g)). lia. Qed.

Lemma wf_cap g : wf_geometry g -> 0 < entry_num g < 2 ^ 32.
Proof. intros (H & Hb & _). split; [by apply is_pow2_pos|done]. Qed.

Lemma slot_of_ticket g t :
  wf_geometry g ->
  slot_at g (Z.land t (index_mask g) * entry_stride g) = t mod entry_num g.
Proof.
  intros Hg. pose proof (wf_stride g Hg) as Hs. destruct Hg as (Hp & _ & -> & _ & Hm).
  unfold slot_at. rewrite land_pow2_mask by done. apply Z.div_mul. unfold SIZEOF_ENTRY in Hs. lia.
Qed.

(** The constructor establishes the geometry and clean entries. *)
Lemma make_ring_spec raw capacity max_size r :
  make_ring raw capacity max_size = Some r ->
  0 <= capacity < 2 ^ 32 -> 0 <= max_size < 2 ^ 32 ->
  wf_geometry (geom r) /\ entry_num (geom r) = capacity /\ max_msg_size (geom r) = max_size /\
  head r = 0 /\ tail r = 0 /\ local_producer_cached_head r = 0 /\ overrun r = false /\
  length (entries r) = Z.to_nat capacity /\
  forall k, 0 <= k < capacity -> ready_seq (getZ no_entry (entries r) k) = 0 /\
    length (data (getZ no_entry (entries r) k)) = Z.to_nat (entry_stride (geom r) - SIZEOF_ENTRY).
Proof.
  unfold make_ring. intros Hm Hc Hs. case_bool; [done|]. bool_to_prop. injection Hm as <-. cbn.
  rewrite u32_small in * by lia. split_and!; try done; try lia.
  - split; [apply land_pred_pow2; [cbn; lia|done]|]. cbn. split_and!; done || lia.
  - by rewrite length_fmap, length_seq.
  - intros k Hk. unfold getZ. rewrite list_lookup_fmap, lookup_seq_lt by lia. cbn.
    split; [done|]. rewrite length_take, length_app, length_replicate. lia.
Qed.

(** Reading an entry after one was stored. *)
Lemma entry_at_store cap s e o w k :
  length (entries (w_ring w)) = Z.to_nat cap -> 0 <= s < cap -> 0 <= k < cap ->
  entry_at (set_entries (setZ (entries (w_ring w)) s e) o w) k =
  if decide (k = s) then e else entry_at w k.
Proof.
  intros Hl Hs Hk. unfold entry_at. cbn. case_decide as He.
  - subst k. rewrite getZ_setZ_eq; [done|lia].
  - rewrite getZ_setZ_ne; [done|lia|lia|congruence].
Qed.
