(* ===== verification/MPSCConc.v ===== *)
(** The ring under concurrency: many producers, local and remote, and one consumer.

    [fifo_delivery] is proved here by rely-guarantee reasoning: under every
    interleaving of the producers' and the consumer's memory accesses (each byte of
    a payload is a separate access), the consumer receives an initial segment of one
    global history of messages in which each producer's accepted messages
    appear in its order, complete and uncorrupted.  The assumption on time
    ([timely]) is that no producer leaves a reserved entry unwritten for the half-write
    timeout; [late_producer_corrupts] shows what happens when one does. *)

From S2P Require Import Prelude Atomic CommTypes MPSCRing.
Import MPSCRingBuffer.

(** * Clients of the ring *)

Definition msg : Set := message_header_t * list Z.
Definition bytes (m : msg) : list Z := encode_header m.1 ++ m.2.

Definition wf_msg (g : geometry) (m : msg) : Prop :=
  wf_header m.1 /\ body_length m.1 = Z.of_nat (length m.2) /\
  MSG_HEADER_LEN + body_length m.1 <= max_msg_size g.

(** A producer of the ring's own process, or one of the sending process [j]. *)
Inductive route : Set := Local | Remote (j : nat).

Definition send (fuel : nat) (g : geometry) (r : route) (m : msg) : prog mpsc_world Z :=
  match r with
  | Local => enqueue_local fuel (Some m.1) (Some m.2) (body_length m.1)
  | Remote j => enqueue_remote fuel false (Some m.1) (Some m.2) (body_length m.1)
                  (index_mask g) (entry_stride g) (max_msg_size g) j
  end.

(** Sends the messages in turn; returns each result with the bytes sent. *)
Fixpoint producer (fuel : nat) (g : geometry) (r : route) (ms : list msg)
    (acc : list (Z * list Z)) : prog mpsc_world (list (Z * list Z)) :=
  match ms with
  | [] => Ret acc
  | m :: ms' => do res <- send fuel g r m; producer fuel g r ms' (acc ++ [(res, bytes m)])
  end.

(** Polls [n] times; returns what was received. *)
Fixpoint consumer (fuel : nat) (self buffer_cap : Z) (n : nat) (acc : list (Z * list Z))
    : prog mpsc_world (list (Z * list Z)) :=
  match n with
  | O => Ret acc
  | S n' => do '(len, buf) <- dequeue fuel self buffer_cap;
            consumer fuel self buffer_cap n' (if len =? 0 then acc else acc ++ [(len, buf)])
  end.

(** The messages a producer was told are in the ring: OK or CONGESTED. *)
Definition accepted (acc : list (Z * list Z)) : list (list Z) :=
  (filter (fun x => 0 <= x.1) acc).*2.

(** The messages of producer [i] in a history. *)
Definition proj (i : nat) (h : list (nat * msg)) : list msg :=
  (filter (fun x => x.1 = i) h).*2.

(** The clock readings of a run in which no reserved entry stays unwritten for the
    half-write timeout after the consumer first found it so. *)
Definition timely (self : Z) (w : mpsc_world) (q : query) (now : Z) : Prop :=
  q = QSteady ->
  head (w_ring w) < tail (w_ring w) ->
  ready_seq (entry_at w (head (w_ring w) mod entry_num (geom (w_ring w)))) <> head (w_ring w) + 1 ->
  forall st, st ∈ stale_states (tls w) -> st_ring st = self -> head_seq st = head (w_ring w) ->
  now - first_seen_us st < HALF_WRITE_TIMEOUT_US.

(** ** Lemmas on messages *)

Lemma length_bytes g m :
  wf_msg g m -> Z.of_nat (length (bytes m)) = MSG_HEADER_LEN + body_length m.1.
Proof.
  intros (_ & Hb & _). unfold bytes. rewrite length_app, length_encode_header, Hb.
  unfold MSG_HEADER_LEN. lia.
Qed.

(** The size checks let the message pass: its length does not wrap. *)
Lemma size_ok g m :
  wf_geometry g -> wf_msg g m ->
  (max_msg_size g <? u32 (MSG_HEADER_LEN + body_length m.1)) = false /\
  bad_buffers (Some m.1) (Some m.2) (body_length m.1) = false.
Proof.
  intros (_ & _ & _ & _ & Hmax) ((_ & Hl & _) & Hb & Hs). unfold MSG_HEADER_LEN in *. split.
  - apply Z.ltb_ge. rewrite u32_small; lia.
  - unfold bad_buffers. rewrite !bool_decide_eq_false_2 by done. by rewrite andb_false_r.
Qed.

Lemma remote_capacity g : wf_geometry g -> u32 (index_mask g + 1) = entry_num g.
Proof.
  intros Hg. pose proof (wf_cap g Hg). destruct Hg as (_ & _ & -> & _). rewrite u32_small; lia.
Qed.

(** ** Lemmas on histories *)

Lemma proj_snoc i j m h : proj i (h ++ [(j, m)]) = proj i h ++ (if decide (j = i) then [m] else []).
Proof.
  unfold proj. rewrite filter_app, fmap_app. f_equal.
  rewrite filter_cons. cbn. by destruct (decide (j = i)).
Qed.

Lemma sum_indicator (i n : nat) (f : nat -> nat) :
  (i < n)%nat ->
  sum_list_with (fun k => (if decide (i = k) then 1 else 0) + f k)%nat (seq 0 n) =
  S (sum_list_with f (seq 0 n)).
Proof.
  intros Hi. induction n as [|n IH]; [lia|].
  rewrite seq_S, !sum_list_with_app. cbn.
  destruct (decide (i = n)) as [->|Hne].
  - rewrite (sum_list_with_ext _ f (seq 0 n)); [lia|].
    intros x Hx%elem_of_seq. case_decide; lia.
  - rewrite IH by lia. lia.
Qed.

Lemma length_by_proj (n : nat) (h : list (nat * msg)) :
  (forall i m, (i, m) ∈ h -> (i < n)%nat) ->
  length h = sum_list_with (fun i => length (proj i h)) (seq 0 n).
Proof.
  induction h as [|[i m] h IH]; intros Hh.
  - cbn. induction (seq 0 n) as [|x l IHl]; [done|]. cbn. by rewrite <- IHl.
  - cbn [length]. rewrite IH by (intros ???; eapply Hh; by right).
    rewrite <- (sum_indicator i n) by (eapply Hh; left).
    apply sum_list_with_ext. intros k _. unfold proj.
    rewrite filter_cons. cbn. by destruct (decide (i = k)).
Qed.

(** * The invariant *)

Section Delivery.
Context (g : geometry) (self : Z) (plan : nat -> list msg) (n : nat).
Hypothesis Hg : wf_geometry g.
Hypothesis plan_wf : forall i, Forall (wf_msg g) (plan i).
Hypothesis plan_n : forall i, (n <= i)%nat -> plan i = [].
Hypothesis plan_total :
  Z.of_nat (sum_list_with (fun i => length (plan i)) (seq 0 n)) + entry_num g < 2 ^ 64 - 1.

#[local] Abbreviation cap := (entry_num g).
#[local] Abbreviation hd w := (head (w_ring w)).
#[local] Abbreviation tl w := (tail (w_ring w)).
Definition seqof (w : mpsc_world) (k : Z) : Z := ready_seq (entry_at w k).
Definition dat (w : mpsc_world) (k : Z) : list Z := data (entry_at w k).

(** Ghost state: every message reserved so far in ticket order, and the ticket each
    producer is writing. *)
Record ghost := Ghost { hist : list (nat * msg); writing : gmap nat Z }.

Record inv (w : mpsc_world) (gh : ghost) : Prop := {
  inv_geom : geom (w_ring w) = g;
  inv_len : length (entries (w_ring w)) = Z.to_nat cap;
  inv_data : forall k, 0 <= k < cap ->
    length (dat w k) = Z.to_nat (entry_stride g - SIZEOF_ENTRY);
  inv_tail : tl w = Z.of_nat (length (hist gh));
  inv_head : 0 <= hd w <= tl w;
  inv_room : tl w <= hd w + cap;
  inv_local : 0 <= local_producer_cached_head (w_ring w) <= hd w;
  inv_shadow : forall j, 0 <= shadow_head (peer j w) <= hd w;
  inv_ready : forall k, 0 <= k < cap -> seqof w k = 0 \/
    exists t i m, hd w <= t < tl w /\ t mod cap = k /\ seqof w k = t + 1 /\
      hist gh !! Z.to_nat t = Some (i, m) /\ take (length (bytes m)) (dat w k) = bytes m;
  inv_writing : forall j t, writing gh !! j = Some t ->
    hd w <= t < tl w /\ seqof w (t mod cap) = 0 /\ exists m, hist gh !! Z.to_nat t = Some (j, m);
  inv_plan : forall i m, (i, m) ∈ hist gh -> m ∈ plan i;
  inv_limit : forall i, (length (proj i (hist gh)) <= length (plan i))%nat;
  inv_overrun : overrun (w_ring w) = false }.

Record guar (j : nat) (x x' : mpsc_world * ghost) : Prop := {
  g_hist : hist x'.2 = hist x.2 \/ exists m, hist x'.2 = hist x.2 ++ [(j, m)];
  g_writing : forall i, i <> j -> writing x'.2 !! i = writing x.2 !! i;
  g_mine : forall t, writing x'.2 !! j = Some t -> writing x.2 !! j = Some t \/ t = tl x.1;
  g_head : hd x.1 <= hd x'.1;
  g_cons : j <> 0%nat -> hd x'.1 = hd x.1 /\ tls x'.1 = tls x.1;
  g_data : forall k, 0 <= k < cap -> dat x'.1 k = dat x.1 k \/
    exists t, writing x.2 !! j = Some t /\ k = t mod cap;
  g_seq : j <> 0%nat -> forall k, 0 <= k < cap -> seqof x'.1 k = seqof x.1 k \/
    exists t, writing x.2 !! j = Some t /\ k = t mod cap }.

(** ** Consequences of the invariant *)

Lemma cap_pos : 0 < cap < 2 ^ 32.
Proof. by apply wf_cap. Qed.

Lemma slot_range t : 0 <= t mod cap < cap.
Proof. apply Z.mod_pos_bound, cap_pos. Qed.

(** Two tickets of one window of [cap] tickets have different entries. *)
Lemma slot_inj h t t' :
  h <= t < h + cap -> h <= t' < h + cap -> t mod cap = t' mod cap -> t = t'.
Proof.
  apply mod_window_inj, cap_pos.
Qed.

Lemma inv_bound w gh : inv w gh -> tl w + cap < 2 ^ 64 - 1.
Proof.
  intros HI. rewrite (inv_tail w gh HI), (length_by_proj n).
  - assert (Hle : (sum_list_with (fun i => length (proj i (hist gh))) (seq 0 n) <=
      sum_list_with (fun i => length (plan i)) (seq 0 n))%nat).
    { apply sum_list_with_le. intros i _. apply (inv_limit w gh HI). }
    lia.
  - intros i m Hm. destruct (decide (i < n)%nat) as [|Hge]; [done|].
    apply (inv_plan w gh HI) in Hm. rewrite plan_n in Hm by lia. by apply elem_of_nil in Hm.
Qed.

Lemma hist_lookup_plan w gh t i m : inv w gh -> hist gh !! t = Some (i, m) -> wf_msg g m.
Proof.
  intros HI Ht. apply list_elem_of_lookup_2, (inv_plan w gh HI) in Ht.
  by eapply Forall_forall; [apply plan_wf|].
Qed.

Lemma guar_prefix j x x' : guar j x x' -> hist x.2 `prefix_of` hist x'.2.
Proof.
  intros HG. destruct (g_hist _ _ _ HG) as [->|[m ->]]; [done|]. by apply prefix_app_r.
Qed.

Lemma guar_hist j x x' t v : guar j x x' -> hist x.2 !! t = Some v -> hist x'.2 !! t = Some v.
Proof. intros HG%guar_prefix Ht. by eapply prefix_lookup_Some. Qed.

Lemma guar_tail j w gh w' gh' :
  guar j (w, gh) (w', gh') -> inv w gh -> inv w' gh' -> tl w <= tl w'.
Proof.
  intros HG%guar_prefix HI HI'. rewrite (inv_tail _ _ HI), (inv_tail _ _ HI').
  apply prefix_length in HG. cbn in *. lia.
Qed.

Lemma guar_proj i j x x' : i <> j -> guar j x x' -> proj i (hist x'.2) = proj i (hist x.2).
Proof.
  intros Hne HG. destruct (g_hist _ _ _ HG) as [->|[m ->]]; [done|].
  rewrite proj_snoc, decide_False by done. by rewrite app_nil_r.
Qed.

(** The entries two producers write are different, and neither is a published one. *)
Lemma writers_disjoint w gh i j t t' :
  inv w gh -> writing gh !! i = Some t -> writing gh !! j = Some t' ->
  t mod cap = t' mod cap -> i = j.
Proof.
  intros HI Hi Hj He.
  destruct (inv_writing _ _ HI _ _ Hi) as (Ht & _ & m & Hm).
  destruct (inv_writing _ _ HI _ _ Hj) as (Ht' & _ & m' & Hm').
  pose proof (inv_room _ _ HI).
  assert (t = t') as -> by (apply (slot_inj (hd w)); lia || done). congruence.
Qed.

(** ** Accesses that leave the queue itself alone *)

Definition core (w : mpsc_world) :=
  (geom (w_ring w), hd w, tl w, entries (w_ring w), overrun (w_ring w), tls w).

(** Flow-control statistics and cached thresholds change, nothing else does. *)
Definition quiet (w w' : mpsc_world) : Prop :=
  core w' = core w /\
  local_producer_cached_head (w_ring w') = local_producer_cached_head (w_ring w) /\
  forall j, shadow_head (peer j w') = shadow_head (peer j w).

(** An assertion that does not mention them. *)
Definition core_pred (P : mpsc_world -> ghost -> Prop) : Prop :=
  forall w w' gh, core w' = core w -> P w gh -> P w' gh.

#[local] Abbreviation qsafe := (safe (timely self) inv guar).
#[local] Abbreviation qstable := (stable inv guar).

Lemma guar_core i w w' gh : core w' = core w -> guar i (w, gh) (w', gh).
Proof.
  intros He. destruct w as [[] ? ?], w' as [[] ? ?]. unfold core in He. cbn in He. simplify_eq.
  constructor; cbn; auto; try lia.
Qed.

Lemma inv_core w w' gh :
  inv w gh -> core w' = core w ->
  0 <= local_producer_cached_head (w_ring w') <= hd w ->
  (forall j, 0 <= shadow_head (peer j w') <= hd w) -> inv w' gh.
Proof.
  intros [] He Hl Hs. destruct w as [[] ? ?], w' as [[] ? ?]. unfold core in He. cbn in *.
  simplify_eq. by constructor.
Qed.

Lemma inv_quiet i w w' gh :
  inv w gh -> quiet w w' -> inv w' gh /\ guar i (w, gh) (w', gh).
Proof.
  intros HI (Hc & Hl & Hs). split; [|by apply guar_core]. apply (inv_core w); [done|done| |].
  - rewrite Hl. apply (inv_local _ _ HI).
  - intros j. rewrite Hs. apply (inv_shadow _ _ HI).
Qed.

Lemma safe_quiet {A} i P (p : prog mpsc_world A) w gh :
  only quiet p -> qstable i P -> core_pred P -> P w gh -> qsafe i p (fun _ => P) w gh.
Proof.
  intros Ho Hst Hc HP. apply (safe_only _ _ _ i quiet); [done| | |done|done].
  - intros s s' gh'. apply inv_quiet.
  - intros s s' gh' _ HPs (He & _). by apply (Hc s).
Qed.

Lemma quiet_refl w : quiet w w.
Proof. by split_and!. Qed.

Lemma peer_on_peer j j' f w :
  (forall c, shadow_head (f c) = shadow_head c) ->
  shadow_head (peer j' (on_peer j f w)) = shadow_head (peer j' w).
Proof.
  intros Hf. unfold peer, on_peer. cbn.
  destruct (decide (j = j')) as [<-|Hne].
  - rewrite list_lookup_alter_eq. destruct (peers w !! j); cbn; auto.
  - by rewrite list_lookup_alter_ne.
Qed.

Lemma quiet_cthr j v w : quiet w (lset (l_cthr j) v w).
Proof. split_and!; [done|done|]. intros j'. by apply peer_on_peer. Qed.

Lemma quiet_cver j v w : quiet w (lset (l_cver j) v w).
Proof. split_and!; [done|done|]. intros j'. by apply peer_on_peer. Qed.

Lemma quiet_cas (l : lens mpsc_world Z) (e d : Z) :
  (forall v w, quiet w (lset l v w)) -> only quiet (cas_strong l e d).
Proof. intros Hl w. split; [|done]. cbn. case_bool; cbn; [apply Hl|apply quiet_refl]. Qed.

Lemma quiet_cas_weak (l : lens mpsc_world Z) (e d : Z) :
  (forall v w, quiet w (lset l v w)) -> only quiet (cas_weak l e d).
Proof.
  intros Hl z. unfold ask; cbn [bind]. destruct (z =? 0); [by apply quiet_cas|].
  intros w. split; [apply quiet_refl|done].
Qed.

Lemma quiet_max_depth v w : quiet w (lset l_max_depth v w).
Proof. by split_and!. Qed.

Lemma quiet_congested v w : quiet w (lset l_congested v w).
Proof. by split_and!. Qed.

Lemma quiet_load {B} (f : mpsc_world -> B) : only quiet (load f).
Proof. apply only_load, quiet_refl. Qed.

Lemma quiet_ask q : only quiet (ask q).
Proof. done. Qed.

Create HintDb quiet.
#[local] Hint Unfold get_entry_num get_flow_threshold get_geometry
  get_congestion_threshold_version : quiet.
#[local] Hint Resolve quiet_refl quiet_cthr quiet_cver quiet_cas quiet_cas_weak quiet_max_depth
  quiet_congested quiet_load quiet_ask : quiet.
#[local] Ltac solve_quiet :=
  repeat first
    [ solve [eauto with quiet]
    | apply only_iter
    | apply only_bind
    | match goal with
      | |- forall _, _ => intros
      | |- only _ (let '_ := ?x in _) => destruct x
      | |- only _ (if ?b then _ else _) => destruct b
      | |- only _ (Ret _) => exact I
      | |- only _ (store _) => split; [|done]
      end ].

Lemma record_depth_quiet fuel used : only quiet (record_depth fuel used).
Proof. unfold record_depth, record_depth_round. solve_quiet. Qed.

Lemma sample_flow_state_quiet fuel used : only quiet (sample_flow_state fuel used).
Proof.
  pose proof record_depth_quiet. unfold sample_flow_state, log_flow_edge. solve_quiet.
Qed.

Lemma refresh_cached_threshold_quiet j : only quiet (refresh_cached_threshold j).
Proof. unfold refresh_cached_threshold. solve_quiet. Qed.

Lemma sample_if_congested_quiet fuel : only quiet (sample_if_congested fuel).
Proof.
  pose proof sample_flow_state_quiet. unfold sample_if_congested, approximate_used. solve_quiet.
Qed.

(** ** Assertions of a producer *)

(** Producer [i] has no ticket; its messages in the history are [done]. *)
Definition idle (i : nat) (done : list msg) (w : mpsc_world) (gh : ghost) : Prop :=
  writing gh !! i = None /\ proj i (hist gh) = done.

(** Producer [i] holds ticket [t] for [m] and has written its first [k] bytes. *)
Definition filling (i : nat) (t : Z) (m : msg) (k : nat) (done : list msg)
    (w : mpsc_world) (gh : ghost) : Prop :=
  writing gh !! i = Some t /\ hist gh !! Z.to_nat t = Some (i, m) /\
  take k (dat w (t mod cap)) = take k (bytes m) /\ proj i (hist gh) = done.

Definition head_above (c : Z) (P : mpsc_world -> ghost -> Prop) (w : mpsc_world) (gh : ghost) : Prop :=
  P w gh /\ 0 <= c <= hd w.

Lemma stable_intro i (P : mpsc_world -> ghost -> Prop) :
  (forall j w gh w' gh', j <> i -> inv w gh -> inv w' gh' -> guar j (w, gh) (w', gh') ->
     P w gh -> P w' gh') -> qstable i P.
Proof. intros H w gh w' gh' HP (j & Hj & HG & HI & HI'). exact (H j w gh w' gh' Hj HI HI' HG HP). Qed.

Lemma idle_stable i done : qstable i (idle i done).
Proof.
  apply stable_intro. intros j w gh w' gh' Hj _ _ HG [Hw Hp]. split.
  - rewrite <- Hw. by apply (g_writing _ _ _ HG).
  - rewrite <- Hp. by apply (guar_proj i j (w, gh) (w', gh')).
Qed.

Lemma filling_stable i t m k done : qstable i (filling i t m k done).
Proof.
  apply stable_intro. intros j w gh w' gh' Hj HI _ HG (Hw & Hh & Hd & Hp). split_and!.
  - rewrite <- Hw. by apply (g_writing _ _ _ HG).
  - by apply (guar_hist j (w, gh) (w', gh')).
  - destruct (g_data _ _ _ HG (t mod cap) (slot_range t)) as [Hs|(t' & Ht' & He)].
    + cbn in Hs. by rewrite Hs.
    + destruct Hj. symmetry. by eapply writers_disjoint.
  - rewrite <- Hp. by apply (guar_proj i j (w, gh) (w', gh')).
Qed.

Lemma head_above_stable i c P : qstable i P -> qstable i (head_above c P).
Proof.
  intros HP w gh w' gh' [Hw Hc] Hr. split; [by eapply HP|].
  destruct Hr as (j & _ & HG & _). pose proof (g_head _ _ _ HG). cbn in *. lia.
Qed.

Lemma entry_at_core w w' k : core w' = core w -> entry_at w' k = entry_at w k.
Proof. intros He. injection He as _ _ _ He _ _. unfold entry_at. by rewrite He. Qed.

Lemma head_core w w' : core w' = core w -> hd w' = hd w.
Proof. intros He. by injection He. Qed.

Lemma idle_core i done : core_pred (idle i done).
Proof. by intros w w' gh _. Qed.

Lemma filling_core i t m k done : core_pred (filling i t m k done).
Proof.
  intros w w' gh He (? & ? & Hd & ?). split_and!; try done. unfold dat.
  by rewrite (entry_at_core w w').
Qed.

Lemma head_above_core c P : core_pred P -> core_pred (head_above c P).
Proof.
  intros HP w w' gh He [Hw Hc]. split; [by apply (HP w)|]. by rewrite (head_core w w').
Qed.

#[local] Hint Resolve idle_stable filling_stable head_above_stable idle_core filling_core
  head_above_core : quiet.

Lemma guar_refl i x : guar i x x.
Proof. destruct x. by apply guar_core. Qed.

(** ** Cached heads *)

Record is_cache (cl : lens mpsc_world Z) : Prop := {
  cache_core : forall v w, core (lset cl v w) = core w;
  cache_get : forall w gh, inv w gh -> 0 <= lget cl w <= hd w;
  cache_set : forall v w gh, inv w gh -> 0 <= v <= hd w -> inv (lset cl v w) gh }.

Lemma local_is_cache : is_cache l_local_cached.
Proof.
  split; [done|by intros w gh []|]. intros v w gh HI Hv.
  apply (inv_core w); [done|done|done|apply (inv_shadow _ _ HI)].
Qed.

Lemma shadow_is_cache j : is_cache (l_shadow j).
Proof.
  split; [done|intros w gh HI; apply (inv_shadow _ _ HI)|]. intros v w gh HI Hv.
  apply (inv_core w); [done|done|apply (inv_local _ _ HI)|]. intros j'.
  pose proof (inv_shadow _ _ HI j') as Hj'. revert Hj'. unfold peer; cbn.
  destruct (decide (j = j')) as [<-|Hne].
  - rewrite list_lookup_alter_eq. by destruct (peers w !! j).
  - by rewrite list_lookup_alter_ne.
Qed.

Lemma load_cache_safe {A} i cl P (k : Z -> prog mpsc_world A) Q w gh :
  is_cache cl -> qstable i P -> P w gh ->
  (forall c w gh, inv w gh -> head_above c P w gh -> qsafe i (k c) Q w gh) ->
  qsafe i (bind (load (lget cl)) k) Q w gh.
Proof.
  intros Hcl Hst HP Hk. apply (safe_read _ _ _ _ P); [done|apply guar_refl|done|done|].
  intros w' gh' HI HP'. apply Hk; [done|]. split; [done|by apply (cache_get cl Hcl w' gh')].
Qed.

Lemma refresh_safe {A} i cl P (k : Z -> prog mpsc_world A) Q w gh :
  is_cache cl -> qstable i P -> core_pred P -> P w gh ->
  (forall c w gh, inv w gh -> head_above c P w gh -> qsafe i (k c) Q w gh) ->
  qsafe i (do fresh <- load (fun w => hd w); store (lset cl fresh) ;;; k fresh) Q w gh.
Proof.
  intros Hcl Hst Hc HP Hk. apply (safe_read _ _ _ _ P); [done|apply guar_refl|done|done|].
  intros w1 gh1 HI1 HP1. cbn. apply (safe_act _ _ _ _ (head_above (hd w1) P)).
  - by apply head_above_stable.
  - split; [done|]. pose proof (inv_head _ _ HI1). lia.
  - intros w2 gh2 HI2 HP2. exists gh2. cbn.
    assert (Hw : inv (lset cl (hd w1) w2) gh2) by (apply (cache_set cl Hcl); [done|apply HP2]).
    split_and!; [done|apply guar_core, (cache_core cl Hcl)|].
    apply Hk; [done|]. eapply head_above_core; [done|apply (cache_core cl Hcl)|done].
Qed.

(** ** Reserving a ticket *)

Lemma free_slot w gh t :
  inv w gh -> tl w <= t < hd w + cap -> seqof w (t mod cap) = 0.
Proof.
  intros HI Ht. destruct (inv_ready _ _ HI _ (slot_range t)) as [|(t' & i & m & Ht' & He & _)]; [done|].
  pose proof (inv_room _ _ HI). pose proof (inv_head _ _ HI).
  assert (t' = t) by (apply (slot_inj (hd w)); lia || done). lia.
Qed.

Lemma reserve_step i m w gh :
  inv w gh -> m ∈ plan i -> (length (proj i (hist gh)) < length (plan i))%nat ->
  tl w < hd w + cap ->
  let w' := set_tail (tl w + 1) w in
  let gh' := Ghost (hist gh ++ [(i, m)]) (<[i := tl w]> (writing gh)) in
  inv w' gh' /\ guar i (w, gh) (w', gh').
Proof.
  intros HI Hm Hl Hroom w' gh'. pose proof (inv_head _ _ HI) as Hh. pose proof (inv_tail _ _ HI) as Ht.
  assert (tl w' = tl w + 1 /\ hd w' = hd w) as [? ?] by done.
  split; constructor; cbn [fst snd hist writing gh']; try (apply HI).
  - rewrite length_app. cbn. lia.
  - lia.
  - lia.
  - intros k Hk. destruct (inv_ready _ _ HI k Hk) as [|(t & j & m' & Htt & He & Hs & Hj & Hd)]; [by left|].
    right. exists t, j, m'. split_and!; [lia|lia|done|done| |done]. by apply lookup_app_l_Some.
  - intros j t. destruct (decide (i = j)) as [<-|Hne].
    + rewrite lookup_insert_eq. intros [= <-]. split_and!; [lia|lia|by apply (free_slot w gh)|].
      exists m. rewrite lookup_app_r by lia. by replace (_ - _)%nat with 0%nat by lia.
    + rewrite lookup_insert_ne by done. intros (Htt & Hs & m' & Hj)%(inv_writing _ _ HI).
      split_and!; [lia|lia|done|]. exists m'. by apply lookup_app_l_Some.
  - intros j m' [Hj|Hj]%elem_of_app; [by apply (inv_plan _ _ HI)|].
    apply list_elem_of_singleton in Hj. by simplify_eq.
  - intros j. rewrite proj_snoc, length_app. pose proof (inv_limit _ _ HI j).
    destruct (decide (i = j)) as [<-|]; cbn; lia.
  - right. by exists m.
  - intros j Hj. by rewrite lookup_insert_ne.
  - intros t. rewrite lookup_insert_eq. intros [= <-]. by right.
  - lia.
  - done.
  - intros k _. by left.
  - intros _ k _. by left.
Qed.

Section Producer.
Context (i : nat) (m : msg) (done : list msg).
Hypothesis Hplan : m ∈ plan i.
Hypothesis Hroom : (length done < length (plan i))%nat.

Definition reserved (r : Z + Z) : mpsc_world -> ghost -> Prop :=
  match r with
  | inl err => fun w gh => idle i done w gh /\ err < 0
  | inr t => fun w gh => filling i t m 0 (done ++ [m]) w gh
  end.

Lemma claim_safe c ct w gh :
  inv w gh -> head_above c (idle i done) w gh -> ct < u64 (c + cap) ->
  qsafe i (cas_weak l_tail ct (u64 (ct + 1)))
    (fun r w gh => if r.1 : bool then filling i ct m 0 (done ++ [m]) w gh else idle i done w gh) w gh.
Proof.
  intros HI HP Hct. apply safe_ask. intros sp. case_bool.
  - apply (safe_act _ _ _ _ (head_above c (idle i done))); [by eauto with quiet|done|].
    clear w gh HI HP. intros w gh HI [[Hw Hp] Hc]. pose proof (inv_bound _ _ HI). pose proof (inv_head _ _ HI).
    pose proof cap_pos. rewrite u64_small in Hct by lia. cbn. case_bool; bool_to_prop; cbn.
    + subst ct. exists (Ghost (hist gh ++ [(i, m)]) (<[i := tl w]> (writing gh))).
      rewrite u64_small by lia. destruct (reserve_step i m w gh) as [HI' HG]; [done|done|by rewrite Hp|lia|].
      split_and!; [done|done|]. apply safe_ret; [apply filling_stable|]. split_and!; cbn [hist writing].
      * by rewrite lookup_insert_eq.
      * rewrite lookup_app_r; rewrite (inv_tail _ _ HI); [|lia].
        by replace (_ - _)%nat with 0%nat by lia.
      * done.
      * by rewrite proj_snoc, decide_True, Hp.
    + exists gh. split_and!; [done|apply guar_refl|]. apply safe_ret; [apply idle_stable|done].
  - apply (safe_read _ _ _ _ (head_above c (idle i done)));
      [done|apply guar_refl|by eauto with quiet|done|].
    intros w' gh' HI' [? _]. apply safe_ret; [apply idle_stable|done].
Qed.

Lemma reserve_round_safe fuel cl ct w gh :
  is_cache cl -> inv w gh -> idle i done w gh ->
  qsafe i (reserve_round fuel cl cap ct)
    (fun r w gh => match r with inl _ => idle i done w gh | inr r => reserved r w gh end) w gh.
Proof.
  intros Hcl HI HP. unfold reserve_round.
  assert (Hclaim : forall c w gh, inv w gh -> head_above c (idle i done) w gh -> ct < u64 (c + cap) ->
    qsafe i (do '(ok, seen) <- cas_weak l_tail ct (u64 (ct + 1));
             if ok : bool then Ret (inr (inr ct)) else record_cas_fail ;;; Ret (inl seen))
      (fun r w gh => match r with inl _ => idle i done w gh | inr r => reserved r w gh end) w gh).
  { clear w gh HI HP. intros c w gh HI HP Hct. eapply safe_bind; [done|by apply (claim_safe c)|].
    intros [[] seen] w' gh' HI' HQ; cbn in *; apply safe_ret; by eauto with quiet. }
  eapply load_cache_safe; [done|apply idle_stable|done|].
  clear w gh HI HP. intros c w gh HI HP. case_bool; bool_to_prop; [|by apply (Hclaim c)].
  eapply refresh_safe; [done|apply idle_stable|apply idle_core|apply HP|].
  clear w gh HI HP. intros c' w gh HI HP. case_bool; bool_to_prop; [|by apply (Hclaim c')].
  cbn [record_full_fail bind]. eapply safe_bind; [done| |].
  - apply (safe_quiet i (idle i done)); [apply sample_flow_state_quiet|apply idle_stable|apply idle_core|apply HP].
  - intros r w' gh' HI' HQ. apply safe_ret; [|by split].
    intros w1 gh1 w2 gh2 [H1 H2] Hr. split; [|done]. by eapply idle_stable.
Qed.
End Producer.

(** ** Filling and publishing an entry *)

(** A message fits the payload of an entry. *)
Lemma bytes_fit w gh k m :
  inv w gh -> wf_msg g m -> 0 <= k < cap -> (length (bytes m) <= length (dat w k))%nat.
Proof.
  intros HI Hm Hk. pose proof (length_bytes g m Hm). rewrite (inv_data _ _ HI k Hk).
  destruct Hm as (_ & _ & Hm). pose proof (wf_stride g Hg). lia.
Qed.

Lemma fill_step i t m k done b w gh :
  inv w gh -> filling i t m k done w gh -> bytes m !! k = Some b ->
  let w' := store_byte (t mod cap) (Z.of_nat k) b w in
  inv w' gh /\ guar i (w, gh) (w', gh) /\ filling i t m (S k) done w' gh.
Proof.
  intros HI (Hw & Hh & Hd & Hp) Hb w'. pose proof (slot_range t) as Hr.
  assert (Hk : (k < length (dat w (t mod cap)))%nat).
  { eapply Nat.lt_le_trans; [by eapply lookup_lt_Some|].
    apply (bytes_fit w gh); [done|by eapply hist_lookup_plan|done]. }
  destruct (inv_writing _ _ HI _ _ Hw) as (Ht & Hs0 & _).
  assert (Hw' : w' = set_entries (setZ (entries (w_ring w)) (t mod cap)
      (Entry 0 (<[k := b]> (dat w (t mod cap))))) (overrun (w_ring w)) w).
  { unfold w', store_byte. unfold dat in *. rewrite (proj2 (Z.ltb_lt _ _)) by lia.
    unfold setZ at 2. rewrite Nat2Z.id. unfold seqof in Hs0. by rewrite Hs0. }
  assert (He : forall x, 0 <= x < cap -> entry_at w' x =
      if decide (x = t mod cap) then Entry 0 (<[k := b]> (dat w (t mod cap))) else entry_at w x).
  { intros x Hx. rewrite Hw'. apply (entry_at_store cap); [apply (inv_len _ _ HI)|done|done]. }
  assert (Hseq : forall x, 0 <= x < cap -> seqof w' x = seqof w x).
  { intros x Hx. unfold seqof at 1. rewrite He by done. case_decide; [by subst|done]. }
  assert (Hdat : forall x, 0 <= x < cap -> x <> t mod cap -> dat w' x = dat w x).
  { intros x Hx Hne. unfold dat. by rewrite He, decide_False. }
  assert (Hdt : dat w' (t mod cap) = <[k := b]> (dat w (t mod cap))).
  { unfold dat at 1. by rewrite He, decide_True. }
  split_and!.
  - constructor; try (rewrite ?Hw'; apply HI).
    + rewrite Hw'. cbn. rewrite length_setZ. apply (inv_len _ _ HI).
    + intros x Hx. destruct (decide (x = t mod cap)) as [->|Hne].
      * rewrite Hdt, length_insert. by apply (inv_data _ _ HI).
      * rewrite Hdat by done. by apply (inv_data _ _ HI).
    + intros x Hx. rewrite Hseq by done. destruct (decide (x = t mod cap)) as [->|Hne]; [by left|].
      rewrite Hdat by done. rewrite Hw'. by apply (inv_ready _ _ HI).
    + intros j t' Hj. rewrite Hseq by apply slot_range. rewrite Hw'. by apply (inv_writing _ _ HI).
  - constructor; cbn [fst snd]; try (rewrite ?Hw'; done); auto.
    + intros x Hx. destruct (decide (x = t mod cap)) as [->|Hne]; [right; by exists t|].
      left. by apply Hdat.
  - split_and!; [done|done| |done]. rewrite Hdt, take_S_insert, Hd by done. by rewrite <- take_S_r.
Qed.

Lemma memcpy_in_safe i t m done bs k w gh :
  bs `prefix_of` drop k (bytes m) -> inv w gh -> filling i t m k done w gh ->
  qsafe i (memcpy_in (t mod cap) (Z.of_nat k) bs)
    (fun _ => filling i t m (k + length bs) done) w gh.
Proof.
  revert k w gh. induction bs as [|b bs IH]; intros k w gh Hb HI HF.
  - cbn. rewrite Nat.add_0_r. apply safe_ret; [apply filling_stable|done].
  - cbn [memcpy_in]. destruct Hb as [r Hb].
    assert (Hk : bytes m !! k = Some b).
    { rewrite <- (Nat.add_0_r k), <- lookup_drop, Hb. done. }
    apply (safe_act _ _ _ _ (filling i t m k done)); [apply filling_stable|done|].
    clear w gh HI HF. intros w gh HI HF. exists gh. cbn.
    destruct (fill_step i t m k done b w gh) as (HI' & HG & HF'); [done|done|done|].
    split_and!; [done|done|].
    replace (Z.of_nat k + 1) with (Z.of_nat (S k)) by lia.
    replace (k + S (length bs))%nat with (S k + length bs)%nat by lia.
    apply IH; [|done|done]. exists r. change (S k) with (1 + k)%nat.
    by rewrite <- Nat.add_1_r, <- drop_drop, Hb.
Qed.

Lemma seqof_store_seq s v w k :
  length (entries (w_ring w)) = Z.to_nat cap -> 0 <= s < cap -> 0 <= k < cap ->
  seqof (store_seq s v w) k = if decide (k = s) then v else seqof w k.
Proof.
  intros Hl Hs Hk. unfold seqof, store_seq. rewrite (entry_at_store cap) by done. by case_decide.
Qed.

Lemma dat_store_seq s v w k :
  length (entries (w_ring w)) = Z.to_nat cap -> 0 <= s < cap -> 0 <= k < cap ->
  dat (store_seq s v w) k = dat w k.
Proof.
  intros Hl Hs Hk. unfold dat, store_seq. rewrite (entry_at_store cap) by done.
  case_decide; [by subst|done].
Qed.

Lemma publish_step i t m done w gh :
  inv w gh -> filling i t m (length (bytes m)) done w gh ->
  let w' := store_seq (t mod cap) (t + 1) w in
  let gh' := Ghost (hist gh) (delete i (writing gh)) in
  inv w' gh' /\ guar i (w, gh) (w', gh') /\ idle i done w' gh'.
Proof.
  intros HI (Hw & Hh & Hd & Hp) w' gh'. pose proof (slot_range t) as Hr.
  pose proof (inv_len _ _ HI) as Hl.
  destruct (inv_writing _ _ HI _ _ Hw) as (Ht & Hs0 & _).
  assert (Hseq : forall k, 0 <= k < cap ->
    seqof w' k = if decide (k = t mod cap) then t + 1 else seqof w k)
    by (intros; by apply seqof_store_seq).
  assert (Hdat : forall k, 0 <= k < cap -> dat w' k = dat w k) by (intros; by apply dat_store_seq).
  split_and!.
  - constructor; try (apply HI).
    + cbn. rewrite length_setZ. apply HI.
    + intros k Hk. rewrite Hdat by done. by apply (inv_data _ _ HI).
    + intros k Hk. rewrite Hseq, Hdat by done. case_decide as He.
      * right. exists t, i, m. subst k. split_and!; [apply Ht|apply Ht|done|done|done|].
        by rewrite Hd, take_ge.
      * destruct (inv_ready _ _ HI k Hk) as [|?]; [by left|by right].
    + intros j t'. cbn [writing gh']. rewrite lookup_delete_Some. intros [Hne Hj].
      destruct (inv_writing _ _ HI _ _ Hj) as (Ht' & Hs & Hm).
      rewrite Hseq by apply slot_range. split_and!; [apply Ht'|apply Ht'| |done].
      rewrite decide_False; [done|]. intros He. destruct Hne. by eapply writers_disjoint.
  - constructor; cbn [fst snd]; auto.
    + intros j Hj. by apply lookup_delete_ne.
    + intros t'. cbn [writing gh']. by rewrite lookup_delete_eq.
    + cbn. lia.
    + intros _ k Hk. rewrite Hseq by done. case_decide; [right; by exists t|by left].
  - split; [apply lookup_delete_eq|done].
Qed.

Lemma write_entry_safe i t m done w gh :
  wf_msg g m -> inv w gh -> filling i t m 0 done w gh ->
  qsafe i (write_entry (t mod cap) t m.1 (Some m.2) (body_length m.1)) (fun _ => idle i done) w gh.
Proof.
  intros Hm HI HF. unfold write_entry.
  eapply (safe_bind _ _ _ _ _ _ (fun _ => filling i t m (length (bytes m)) done)); [done| |].
  - destruct Hm as (_ & Hb & _). change (default [] (Some m.2)) with m.2. rewrite Hb, Nat2Z.id, take_ge by lia.
    assert (Hlen : length (bytes m) = (0 + length (encode_header m.1) + length m.2)%nat)
      by (unfold bytes; by rewrite length_app).
    assert (Hhdr : qsafe i (memcpy_in (t mod cap) 0 (encode_header m.1))
      (fun _ => filling i t m (0 + length (encode_header m.1)) done) w gh).
    { apply (memcpy_in_safe i t m done _ 0 w gh); [by exists m.2|done|done]. }
    case_bool; bool_to_prop.
    + eapply safe_bind; [done|exact Hhdr|]. intros r w1 gh1 HI1 HF1. rewrite Hlen.
      change MSG_HEADER_LEN with (Z.of_nat 16). rewrite length_encode_header in *.
      apply memcpy_in_safe; [|done|done]. exists []. rewrite app_nil_r. unfold bytes.
      by rewrite drop_app_length' by (by rewrite length_encode_header).
    + rewrite Hlen. replace (length m.2) with 0%nat by lia. rewrite Nat.add_0_r. exact Hhdr.
  - intros r w1 gh1 HI1 HF1. apply (safe_act _ _ _ _ (filling i t m (length (bytes m)) done));
      [apply filling_stable|done|].
    intros w2 gh2 HI2 HF2. exists (Ghost (hist gh2) (delete i (writing gh2))). cbn.
    pose proof (inv_bound _ _ HI2). pose proof cap_pos. pose proof (inv_head _ _ HI2).
    destruct (inv_writing _ _ HI2 i t) as (Ht & _); [apply HF2|]. rewrite u64_small by lia.
    destruct (publish_step i t m done w2 gh2) as (HI' & HG & HP); [done|done|].
    split_and!; [done|done|]. apply safe_ret; [apply idle_stable|done].
Qed.

(** ** Enqueue *)

Definition is_flow (r : Z) : Prop := r = UB_COMM_OK \/ r = UB_COMM_SEND_CONGESTED.

Lemma sample_flow_state_returns fuel used : returns is_flow (sample_flow_state fuel used).
Proof.
  unfold sample_flow_state. repeat first
    [ apply returns_bind; intros | case_bool | by left | by right
    | match goal with |- returns _ (let '_ := ?x in _) => destruct x end ].
Qed.

(** The result of an enqueue: on success the message joined the history. *)
Definition enqueued (i : nat) (m : msg) (done : list msg) (r : Z) (w : mpsc_world) (gh : ghost) : Prop :=
  idle i (if decide (0 <= r) then done ++ [m] else done) w gh.

Lemma flow_enqueued i m done r w gh :
  is_flow r -> idle i (done ++ [m]) w gh -> enqueued i m done r w gh.
Proof. intros [-> | ->] H; done. Qed.

Lemma sample_enqueued i m done fuel used w gh :
  inv w gh -> idle i (done ++ [m]) w gh ->
  qsafe i (sample_flow_state fuel used) (enqueued i m done) w gh.
Proof.
  intros HI HP. eapply safe_mono.
  - apply safe_returns; [apply sample_flow_state_returns|].
    apply (safe_quiet i (idle i (done ++ [m])));
      [apply sample_flow_state_quiet|apply idle_stable|apply idle_core|done].
  - intros r w' gh' _ [HP' Hr]. by apply flow_enqueued.
Qed.

Lemma enqueued_ret i m done r w gh :
  enqueued i m done r w gh -> qsafe i (Ret r) (enqueued i m done) w gh.
Proof. intros HP. apply safe_ret; [apply idle_stable|done]. Qed.

Lemma idle_read {A B} i done (f : mpsc_world -> B) (k : B -> prog mpsc_world A) Q w gh :
  idle i done w gh ->
  (forall b w gh, inv w gh -> idle i done w gh -> qsafe i (k b) Q w gh) ->
  qsafe i (bind (load f) k) Q w gh.
Proof.
  intros HP Hk. apply (safe_read _ _ _ _ (idle i done)); [done|apply guar_refl|apply idle_stable|done|].
  intros w' gh' HI' HP'. by apply Hk.
Qed.

Lemma flow_result_safe i m done fuel nt cl w gh :
  is_cache cl -> inv w gh -> idle i (done ++ [m]) w gh ->
  qsafe i (flow_result_after_enqueue fuel nt cl) (enqueued i m done) w gh.
Proof.
  intros Hcl HI HP. unfold flow_result_after_enqueue.
  apply (idle_read i (done ++ [m])); [done|]. clear w gh HI HP. intros thr w gh HI HP.
  apply (idle_read i (done ++ [m])); [done|]. clear w gh HI HP. intros c w gh HI HP.
  case_bool; [by apply enqueued_ret, flow_enqueued; [left|]|].
  eapply refresh_safe; [done|apply idle_stable|apply idle_core|done|].
  clear w gh HI HP. intros fr w gh HI [HP _]. by apply sample_enqueued.
Qed.

Lemma refresh_threshold_safe i done j w gh :
  idle i done w gh -> qsafe i (refresh_cached_threshold j) (fun _ => idle i done) w gh.
Proof.
  intros HP. apply safe_quiet;
    [apply refresh_cached_threshold_quiet|apply idle_stable|apply idle_core|done].
Qed.

Lemma flow_result_cached_safe i m done fuel nt j w gh :
  inv w gh -> idle i (done ++ [m]) w gh ->
  qsafe i (flow_result_after_enqueue_cached fuel nt j) (enqueued i m done) w gh.
Proof.
  intros HI HP. unfold flow_result_after_enqueue_cached.
  apply (idle_read i (done ++ [m])); [done|]. clear w gh HI HP. intros thr w gh HI HP.
  apply (idle_read i (done ++ [m])); [done|]. clear w gh HI HP. intros ver w gh HI HP.
  eapply (safe_bind _ _ _ _ _ _ (fun _ => idle i (done ++ [m]))); [done| |].
  { case_bool; [by apply refresh_threshold_safe|]. apply safe_ret; [apply idle_stable|done]. }
  clear w gh HI HP. intros thr' w gh HI HP.
  case_bool; [by apply enqueued_ret, flow_enqueued; [right|]|].
  apply (idle_read i (done ++ [m])); [done|]. clear w gh HI HP. intros c w gh HI HP.
  case_bool; [by apply enqueued_ret, flow_enqueued; [left|]|].
  eapply safe_bind; [done|by apply refresh_threshold_safe|].
  clear w gh HI HP. intros thr'' w gh HI HP.
  eapply refresh_safe; [apply shadow_is_cache|apply idle_stable|apply idle_core|exact HP|].
  clear w gh HI HP. intros fr w gh HI [HP _]. by apply sample_enqueued.
Qed.

Section Enqueue.
Context (i : nat) (m : msg) (done : list msg).
Hypothesis Hplan : m ∈ plan i.
Hypothesis Hroom : (length done < length (plan i))%nat.

Lemma reserved_stable r : qstable i (reserved i m done r).
Proof.
  destruct r as [e|t]; [|apply filling_stable].
  intros w gh w' gh' [H He] Hr. split; [|done]. by eapply idle_stable.
Qed.

Lemma plan_msg : wf_msg g m.
Proof. by eapply Forall_forall; [apply plan_wf|]. Qed.

Lemma enqueue_local_safe fuel w gh :
  inv w gh -> idle i done w gh ->
  qsafe i (send fuel g Local m) (enqueued i m done) w gh.
Proof.
  intros HI HP. cbn [send]. unfold enqueue_local. destruct (size_ok g m Hg plan_msg) as [Hsz Hbb]. rewrite Hbb.
  apply (safe_read _ _ _ _ (idle i done)); [done|apply guar_refl|apply idle_stable|done|].
  clear w gh HI HP. intros w gh HI HP. cbn [act load fst]. rewrite (inv_geom _ _ HI), Hsz.
  apply (idle_read i done); [done|]. clear w gh HI HP. intros ct w gh HI HP.
  eapply (safe_bind _ _ _ _ _ _ (reserved i m done)); [done| |].
  - apply (safe_iter _ _ _ i _ (fun _ => idle i done)); [|apply reserved_stable|done|done].
    clear ct w gh HI HP. intros ct w gh HI HP.
    apply reserve_round_safe; [done|done|apply local_is_cache|done|done].
  - clear ct w gh HI HP. intros [err|t] w gh HI HP; cbn in HP.
    + apply enqueued_ret. unfold enqueued. rewrite decide_False by lia. apply HP.
    + rewrite slot_of_ticket by done. eapply safe_bind; [done| |].
      * change (default default_header (Some m.1)) with m.1.
        apply write_entry_safe; [apply plan_msg|done|done].
      * intros r w' gh' HI' HP'. apply flow_result_safe; [apply local_is_cache|done|done].
Qed.

Lemma enqueue_remote_safe fuel j w gh :
  inv w gh -> idle i done w gh ->
  qsafe i (send fuel g (Remote j) m) (enqueued i m done) w gh.
Proof.
  intros HI HP. cbn [send]. unfold enqueue_remote. destruct (size_ok g m Hg plan_msg) as [Hsz Hbb].
  rewrite Hbb, Hsz, (remote_capacity g Hg). cbn [orb].
  apply (idle_read i done); [done|]. clear w gh HI HP. intros ct w gh HI HP.
  eapply (safe_bind _ _ _ _ _ _ (reserved i m done)); [done| |].
  - apply (safe_iter _ _ _ i _ (fun _ => idle i done)); [|apply reserved_stable|done|done].
    clear ct w gh HI HP. intros [rc ct] w gh HI HP. unfold remote_round. case_bool.
    + apply safe_ret; [apply (reserved_stable (inl _))|by split].
    + eapply safe_bind; [done| |].
      * apply reserve_round_safe; [done|done|apply shadow_is_cache|done|done].
      * intros [seen|res] w' gh' HI' HP'; apply safe_ret; by (apply idle_stable || apply reserved_stable || done).
  - clear ct w gh HI HP. intros [err|t] w gh HI HP; cbn in HP.
    + apply enqueued_ret. unfold enqueued. rewrite decide_False by lia. apply HP.
    + apply (safe_read _ _ _ _ (filling i t m 0 (done ++ [m])));
        [done|apply guar_refl|apply filling_stable|done|].
      clear w gh HI HP. intros w gh HI HP. cbn [act load fst].
      rewrite (inv_geom _ _ HI), slot_of_ticket by done. eapply safe_bind; [done| |].
      * change (default default_header (Some m.1)) with m.1.
        apply write_entry_safe; [apply plan_msg|done|done].
      * intros r w' gh' HI' HP'. by apply flow_result_cached_safe.
Qed.
End Enqueue.

Definition produced (i : nat) (acc : list (Z * list Z)) (w : mpsc_world) (gh : ghost) : Prop :=
  accepted acc = bytes <$> proj i (hist gh).

Lemma accepted_snoc acc r b :
  accepted (acc ++ [(r, b)]) = accepted acc ++ (if decide (0 <= r) then [b] else []).
Proof.
  unfold accepted. rewrite filter_app, fmap_app. f_equal. rewrite filter_cons. cbn.
  by destruct (decide (0 <= r)).
Qed.

(** Sending keeps account: what was accepted is what the history holds. *)
Lemma producer_safe i fuel r ms done acc w gh :
  (forall m, m ∈ ms -> m ∈ plan i) -> (length done + length ms <= length (plan i))%nat ->
  accepted acc = bytes <$> done -> inv w gh -> idle i done w gh ->
  qsafe i (producer fuel g r ms acc) (produced i) w gh.
Proof.
  revert done acc w gh. induction ms as [|m ms IH]; intros done acc w gh Hin Hlen Hacc HI HP.
  - cbn. intros w' gh' Hr HI'. destruct (stable_rtc _ _ _ _ _ _ _ _ (idle_stable i done) HP Hr) as [_ Hd].
    unfold produced. by rewrite Hd.
  - cbn [producer length] in *. eapply (safe_bind _ _ _ _ _ _ (enqueued i m done)); [done| |].
    + destruct r as [|j]; [apply enqueue_local_safe|apply enqueue_remote_safe];
        try done; try lia; apply Hin; left.
    + intros res w' gh' HI' HQ. unfold enqueued in HQ.
      eapply IH; [intros m' Hm'; apply Hin; by right| | |done|exact HQ].
      * case_decide; rewrite ?length_app; cbn; lia.
      * rewrite accepted_snoc, Hacc. case_decide; [by rewrite fmap_app|by rewrite app_nil_r].
Qed.

(** ** The consumer *)

Definition at_head (h : Z) (T : consumer_tls) (w : mpsc_world) (gh : ghost) : Prop :=
  hd w = h /\ tls w = T.

(** The entry at the head holds the published message [m]. *)
Definition loaded (h : Z) (T : consumer_tls) (i : nat) (m : msg) (w : mpsc_world) (gh : ghost) : Prop :=
  at_head h T w gh /\ hist gh !! Z.to_nat h = Some (i, m) /\ seqof w (h mod cap) = h + 1 /\
  take (length (bytes m)) (dat w (h mod cap)) = bytes m.

(** The message was taken out; the head has yet to move. *)
Definition cleared (h : Z) (T : consumer_tls) (i : nat) (m : msg) (w : mpsc_world) (gh : ghost) : Prop :=
  at_head h T w gh /\ hist gh !! Z.to_nat h = Some (i, m) /\ seqof w (h mod cap) = 0 /\
  forall j, writing gh !! j <> Some h.

(** The result of a dequeue at head [h]. *)
Definition dequeued (h : Z) (r : Z * list Z) (w : mpsc_world) (gh : ghost) : Prop :=
  (r.1 = 0 /\ exists T, at_head h T w gh) \/
  (r.1 <> 0 /\ exists T i m, at_head (h + 1) T w gh /\ hist gh !! Z.to_nat h = Some (i, m) /\
                             r.2 = bytes m).

Lemma at_head_stable h T : qstable 0 (at_head h T).
Proof.
  apply stable_intro. intros j w gh w' gh' Hj _ _ HG [Hh HT].
  destruct (g_cons _ _ _ HG Hj) as [H1 H2]. cbn in *. split; congruence.
Qed.

Lemma at_head_core h T : core_pred (at_head h T).
Proof. intros w w' gh He [Hh HT]. unfold core in He. injection He as _ ? _ _ _ ?. split; congruence. Qed.

(** A published entry is written by nobody. *)
Lemma published_no_writer w gh h j t :
  inv w gh -> 0 <= h -> seqof w (h mod cap) = h + 1 -> writing gh !! j = Some t ->
  h mod cap <> t mod cap.
Proof.
  intros HI Hh Hs Hj He. destruct (inv_writing _ _ HI _ _ Hj) as (_ & Hs0 & _).
  rewrite <- He, Hs in Hs0. lia.
Qed.

Lemma published_stable h T :
  qstable 0 (fun w gh => at_head h T w gh /\ seqof w (h mod cap) = h + 1).
Proof.
  apply stable_intro. intros j w gh w' gh' Hj HI HI' HG [Ha Hs]. split.
  - eapply at_head_stable; [exact Ha|]. by exists j.
  - destruct (g_seq _ _ _ HG Hj (h mod cap) (slot_range h)) as [Hq|(t & Ht & He)].
    + cbn in Hq. by rewrite Hq.
    + pose proof (inv_head _ _ HI). destruct Ha as [Ha _].
      destruct (published_no_writer w gh h j t); try done; lia.
Qed.

Lemma loaded_stable h T i m : qstable 0 (loaded h T i m).
Proof.
  apply stable_intro. intros j w gh w' gh' Hj HI HI' HG (Ha & Hh & Hs & Hd).
  assert (Hr : rely inv guar 0 (w, gh) (w', gh')) by (by exists j).
  destruct (published_stable h T w gh w' gh' (conj Ha Hs) Hr) as [Ha' Hs'].
  split_and!; [done|by apply (guar_hist j (w, gh) (w', gh'))|done|].
  destruct (g_data _ _ _ HG (h mod cap) (slot_range h)) as [Hq|(t & Ht & He)].
  - cbn in Hq. by rewrite Hq.
  - pose proof (inv_head _ _ HI). destruct Ha as [Ha _].
    destruct (published_no_writer w gh h j t); try done; lia.
Qed.

Lemma hist_bound w gh t v : inv w gh -> 0 <= t -> hist gh !! Z.to_nat t = Some v -> t < tl w.
Proof. intros HI Ht Hv%lookup_lt_Some. rewrite (inv_tail _ _ HI). lia. Qed.

Lemma cleared_stable h T i m : qstable 0 (cleared h T i m).
Proof.
  apply stable_intro. intros j w gh w' gh' Hj HI HI' HG (Ha & Hh & Hs & Hn).
  assert (Hr : rely inv guar 0 (w, gh) (w', gh')) by (by exists j).
  pose proof (at_head_stable h T w gh w' gh' Ha Hr) as Ha'.
  pose proof (inv_head _ _ HI) as Hd. pose proof (inv_room _ _ HI). destruct Ha as [Ha HT].
  assert (Hb : h < tl w) by (eapply hist_bound; [done|lia|done]).
  split_and!; [done|by apply (guar_hist j (w, gh) (w', gh'))| |].
  - destruct (g_seq _ _ _ HG Hj (h mod cap) (slot_range h)) as [Hq|(t & Ht & He)].
    + cbn in Hq. by rewrite Hq.
    + destruct (inv_writing _ _ HI _ _ Ht) as (Htb & _).
      assert (h = t) as <- by (apply (slot_inj (hd w)); lia || done). by destruct (Hn j).
  - intros k Hk. destruct (decide (k = j)) as [->|Hne].
    + destruct (g_mine _ _ _ HG _ Hk) as [Hw| ->]; [by destruct (Hn j)|]. cbn in Hb. lia.
    + rewrite (g_writing _ _ _ HG) in Hk by done. by destruct (Hn k).
Qed.

(** *** The consumer's writes *)

Lemma tls_step T w gh : inv w gh -> inv (set_tls T w) gh /\ guar 0 (w, gh) (set_tls T w, gh).
Proof.
  intros HI. split; [by constructor; apply HI|].
  constructor; cbn [fst snd]; auto; try (by left); cbn; try lia.
Qed.

Lemma clear_step h T i m w gh :
  inv w gh -> loaded h T i m w gh ->
  let w' := store_seq (h mod cap) 0 w in
  inv w' gh /\ guar 0 (w, gh) (w', gh) /\ cleared h T i m w' gh.
Proof.
  intros HI (Ha & Hh & Hs & Hd) w'. pose proof (slot_range h) as Hr.
  pose proof (inv_len _ _ HI) as Hl. pose proof (inv_head _ _ HI) as Hb.
  assert (Hseq : forall k, 0 <= k < cap ->
    seqof w' k = if decide (k = h mod cap) then 0 else seqof w k)
    by (intros; by apply seqof_store_seq).
  assert (Hdat : forall k, 0 <= k < cap -> dat w' k = dat w k) by (intros; by apply dat_store_seq).
  split_and!.
  - constructor; try (apply HI).
    + cbn. rewrite length_setZ. apply HI.
    + intros k Hk. rewrite Hdat by done. by apply (inv_data _ _ HI).
    + intros k Hk. rewrite Hseq, Hdat by done. case_decide; [by left|]. by apply (inv_ready _ _ HI).
    + intros j t Hj. destruct (inv_writing _ _ HI _ _ Hj) as (Ht & Hs' & Hm).
      rewrite Hseq by apply slot_range. split_and!; [apply Ht|apply Ht| |done]. by case_decide.
  - constructor; cbn [fst snd]; auto.
    + cbn. lia.
    + intros []. done.
  - split_and!; [done|done|by rewrite Hseq, decide_True|].
    intros j Hj. destruct Ha as [Ha _]. by destruct (published_no_writer w gh h j h); [|lia| | |].
Qed.

Lemma advance_step h T i m w gh :
  inv w gh -> cleared h T i m w gh ->
  let w' := set_head (h + 1) w in
  inv w' gh /\ guar 0 (w, gh) (w', gh) /\ at_head (h + 1) T w' gh.
Proof.
  intros HI ([Ha HT] & Hh & Hs & Hn) w'. pose proof (inv_head _ _ HI) as Hb.
  pose proof (inv_room _ _ HI). assert (Hlt : h < tl w) by (eapply hist_bound; [done|lia|done]).
  assert (hd w' = h + 1 /\ tl w' = tl w) as [Hw1 Hw2] by done.
  split_and!; [| |done].
  - constructor; try (apply HI).
    + lia.
    + lia.
    + pose proof (inv_local _ _ HI). rewrite Hw1. cbn. lia.
    + intros j. rewrite Hw1. change (peer j w') with (peer j w). pose proof (inv_shadow _ _ HI j). lia.
    + intros k Hk. destruct (inv_ready _ _ HI k Hk) as [|(t & j & m' & Ht & He & Hq & Hj & Hd)]; [by left|].
      right. exists t, j, m'. split_and!; try done; try lia.
      destruct (decide (t = h)) as [->|]; [|lia]. rewrite He, Hq in Hs. lia.
    + intros j t Hj. destruct (inv_writing _ _ HI _ _ Hj) as (Ht & Hq & Hm).
      split_and!; try done; try lia. destruct (decide (t = h)) as [->|]; [by destruct (Hn j)|lia].
  - constructor; cbn [fst snd]; auto.
    + lia.
    + intros []. done.
Qed.

(** *** Dequeue *)

Lemma cons_read {A B} P (f : mpsc_world -> B) (k : B -> prog mpsc_world A) Q w gh :
  qstable 0 P -> P w gh ->
  (forall w gh, inv w gh -> P w gh -> qsafe 0 (k (f w)) Q w gh) ->
  qsafe 0 (bind (load f) k) Q w gh.
Proof.
  intros Hst HP Hk. by apply (safe_read _ _ _ _ P); [done|apply guar_refl| | |].
Qed.

Lemma memcpy_out_safe h T i m k acc n' w gh :
  acc = take k (bytes m) -> (k + n' <= length (bytes m))%nat -> loaded h T i m w gh ->
  qsafe 0 (memcpy_out (h mod cap) (Z.of_nat k) n' acc)
    (fun a w gh => loaded h T i m w gh /\ a = take (k + n') (bytes m)) w gh.
Proof.
  revert k acc w gh. induction n' as [|n' IH]; intros k acc w gh -> Hk HL; cbn [memcpy_out].
  - rewrite Nat.add_0_r. apply safe_ret; [|by split].
    intros w1 gh1 w2 gh2 [H1 _] Hr. split; [by eapply loaded_stable|done].
  - apply (cons_read (loaded h T i m)); [apply loaded_stable|done|].
    clear w gh HL. intros w gh HI HL. replace (Z.of_nat k + 1) with (Z.of_nat (S k)) by lia.
    replace (k + S n')%nat with (S k + n')%nat by lia. apply IH; [|lia|done].
    destruct HL as (_ & _ & _ & Hd).
    destruct (lookup_lt_is_Some_2 (bytes m) k) as [b Hb]; [lia|].
    rewrite (take_S_r _ _ b) by done. do 2 f_equal. unfold getZ. rewrite Nat2Z.id.
    rewrite <- Hd in Hb. rewrite lookup_take_lt in Hb by lia. unfold dat in Hb. by rewrite Hb.
Qed.

(** After the message is copied out: clear the entry, move the head, sample. *)
Lemma release_safe {A} h T i m (a : A) (sample : prog mpsc_world unit) w gh :
  only quiet sample -> inv w gh -> loaded h T i m w gh ->
  qsafe 0 (store (store_seq (h mod cap) 0) ;;; store (set_head (u64 (h + 1))) ;;; sample ;;; Ret a)
    (fun r w gh => r = a /\ at_head (h + 1) T w gh /\ hist gh !! Z.to_nat h = Some (i, m)) w gh.
Proof.
  intros Hq HI HL. apply (safe_act _ _ _ _ (loaded h T i m)); [apply loaded_stable|done|].
  clear w gh HI HL. intros w gh HI HL. exists gh. cbn [fst snd store act bind].
  destruct (clear_step h T i m w gh HI HL) as (HI' & HG & HC). split_and!; [done|done|].
  apply (safe_act _ _ _ _ (cleared h T i m)); [apply cleared_stable|done|].
  clear w gh HI HL HI' HG HC. intros w gh HI HC. exists gh. cbn [fst snd].
  assert (Hu : u64 (h + 1) = h + 1).
  { destruct HC as ([<- _] & Hh & _). pose proof (inv_bound _ _ HI). pose proof (inv_head _ _ HI).
    pose proof cap_pos. apply u64_small. lia. }
  destruct (advance_step h T i m w gh HI HC) as (HI' & HG & HA). rewrite Hu.
  split_and!; [done|done|].
  set (P := fun w gh => at_head (h + 1) T w gh /\ hist gh !! Z.to_nat h = Some (i, m)).
  assert (Hst : qstable 0 P).
  { apply stable_intro. intros j w1 gh1 w2 gh2 Hj H1 H2 HG' [Ha Hh]. split.
    - eapply at_head_stable; [exact Ha|]. by exists j.
    - by apply (guar_hist j (w1, gh1) (w2, gh2)). }
  eapply (safe_bind _ _ _ _ _ _ (fun _ => P)); [done| |].
  - apply safe_quiet; [done|done| |split; [done|apply HC]].
    intros w1 w2 gh' He [Ha Hh]. split; [by eapply at_head_core|done].
  - intros r w1 gh1 HI1 HP. apply safe_ret; [|done].
    intros w2 gh2 w3 gh3 [? HP2] Hr. split; [done|]. by eapply Hst.
Qed.

Definition some_head (h : Z) (w : mpsc_world) (gh : ghost) : Prop := exists T, at_head h T w gh.

Lemma some_head_stable h : qstable 0 (some_head h).
Proof. intros w gh w' gh' [T HT] Hr. exists T. by eapply at_head_stable. Qed.

Lemma some_head_ret {A} h (a : A) w gh :
  some_head h w gh -> qsafe 0 (Ret a) (fun _ => some_head h) w gh.
Proof. intros HP. apply safe_ret; [apply some_head_stable|done]. Qed.

(** A write to the consumer's own thread-local state. *)
Lemma tls_write {A B} h T (f : mpsc_world -> B * mpsc_world) (k : B -> prog mpsc_world A) Q P w gh :
  qstable 0 P -> P w gh -> (forall w gh, P w gh -> at_head h T w gh) ->
  (forall w, exists T', (f w).2 = set_tls T' w) ->
  (forall w gh, inv (f w).2 gh -> inv w gh -> P w gh -> qsafe 0 (k (f w).1) Q (f w).2 gh) ->
  qsafe 0 (Act f k) Q w gh.
Proof.
  intros Hst HP Ha Hf Hk. apply (safe_act _ _ _ _ P); [done|done|].
  clear w gh HP. intros w gh HI HP. exists gh. destruct (Hf w) as [T' HT'].
  destruct (tls_step T' w gh HI) as [HI' HG]. rewrite <- HT' in HI', HG.
  split_and!; [done|done|]. by apply Hk.
Qed.

Lemma stale_set_safe {A} h T idx hs fs (a : A) w gh :
  at_head h T w gh -> qsafe 0 (stale_set idx hs fs ;;; Ret a) (fun _ => some_head h) w gh.
Proof.
  intros HP. apply (tls_write h T _ _ _ (at_head h T)); [apply at_head_stable|done|done|by eexists|].
  intros w' gh' _ _ [Hh _]. apply some_head_ret. eexists. by split.
Qed.

Lemma behind_stable h T : qstable 0 (fun w gh => at_head h T w gh /\ h < tl w).
Proof.
  apply stable_intro. intros j w gh w' gh' Hj HI HI' HG [Ha Hlt]. split.
  - eapply at_head_stable; [exact Ha|]. by exists j.
  - pose proof (guar_tail _ _ _ _ _ HG HI HI'). lia.
Qed.

(** The last phase of the probe, when the entry was published in the meantime: the
    probe notices and skips nothing. *)
Lemma probe_published h T idx now fuel w gh :
  inv w gh -> at_head h T w gh /\ seqof w (h mod cap) = h + 1 -> u64 (h + 1) = h + 1 ->
  qsafe 0 (do st <- stale_get idx;
    if negb (head_seq st =? h) then stale_set idx h now ;;; Ret false
    else if (first_seen_us st =? 0) || (now <? first_seen_us st) ||
            (now - first_seen_us st <? HALF_WRITE_TIMEOUT_US) then Ret false
    else
      do s' <- load_seq (h mod cap);
      if s' =? u64 (h + 1) then stale_set idx UINT64_MAX 0 ;;; Ret false
      else store (store_seq (h mod cap) 0) ;;; store (set_head (u64 (h + 1))) ;;;
           stale_set idx UINT64_MAX 0 ;;; sample_if_congested fuel ;;; Ret true)
    (fun _ => some_head h) w gh.
Proof.
  intros HI HP Hu. apply (cons_read _ _ _ _ _ _ (published_stable h T) HP).
  clear w gh HI HP. intros w gh HI HP. case_bool; [apply (stale_set_safe h T), HP|].
  case_bool; [apply some_head_ret; exists T; apply HP|].
  apply (cons_read _ _ _ _ _ _ (published_stable h T) HP).
  intros w' gh' HI' [HP' Hs]. unfold seqof in Hs. rewrite Hs, Hu, Z.eqb_refl.
  by apply (stale_set_safe h T).
Qed.

(** The table slot the probe gets is the ring's own. *)
Definition slot_is_mine (T : consumer_tls) (idx : Z) : Prop :=
  forall st, stale_states T !! Z.to_nat idx = Some st -> st_ring st = self.

Lemma claim_stale_state_mine t :
  slot_is_mine (claim_stale_state self t).2 (claim_stale_state self t).1.
Proof.
  intros st. unfold claim_stale_state. cbn. unfold setZ. intros Hst.
  apply list_lookup_insert_Some in Hst as [(_ & <- & _)|[Hne _]]; done.
Qed.

Lemma try_skip_safe h T fuel w gh :
  inv w gh -> at_head h T w gh ->
  qsafe 0 (try_skip_stale_reserved_entry fuel self (h mod cap) h) (fun _ => some_head h) w gh.
Proof.
  intros HI HP. unfold try_skip_stale_reserved_entry.
  apply (cons_read _ _ _ _ _ _ (at_head_stable h T) HP). clear w gh HI HP. intros w gh HI HP.
  assert (Hu : u64 (h + 1) = h + 1).
  { destruct HP as [<- _]. pose proof (inv_bound _ _ HI). pose proof (inv_head _ _ HI).
    pose proof cap_pos. apply u64_small. lia. }
  assert (Hmax : h <> UINT64_MAX).
  { destruct HP as [<- _]. pose proof (inv_bound _ _ HI). pose proof (inv_head _ _ HI).
    pose proof cap_pos. unfold UINT64_MAX. lia. }
  case_bool; bool_to_prop; [apply some_head_ret; by exists T|].
  assert (HP2 : at_head h T w gh /\ h < tl w) by (split; [done|exact E]).
  apply (cons_read _ _ _ _ _ _ (behind_stable h T) HP2). clear w gh HI HP E HP2.
  intros w gh HI HP. case_bool; [apply some_head_ret; exists T; apply HP|]. clear E.
  apply (tls_write h T _ _ _ (fun w gh => at_head h T w gh /\ h < tl w));
    [apply behind_stable|done|by intros ?? []|by eexists|].
  clear w gh HI HP. intros w gh HI' HI [HP Hlt].
  cbn [fst snd]. destruct HP as [Hh HT]. rewrite HT in *.
  pose proof (claim_stale_state_mine T) as Hmine.
  destruct (claim_stale_state self T) as [idx T1]. cbn [fst snd] in *.
  assert (HP : at_head h T1 (set_tls T1 w) gh /\ h < tl (set_tls T1 w)) by done.
  apply (safe_ask_in _ _ _ _ _ _ _ _ _ _ (behind_stable h T1) HP).
  clear w gh HT Hh Hlt HI HI' HP. intros w gh now HI [HP Hlt] Htime.
  destruct (decide (seqof w (h mod cap) = h + 1)) as [Hpub|Hpub].
  { apply (probe_published h T1); [done|by split|done]. }
  assert (Hfresh : head_seq (getZ no_state (stale_states T1) idx) = h ->
    now - first_seen_us (getZ no_state (stale_states T1) idx) < HALF_WRITE_TIMEOUT_US).
  { unfold getZ. destruct (stale_states T1 !! Z.to_nat idx) as [st|] eqn:Est; cbn; [|done].
    intros Hst. destruct HP as [Hh HT]. rewrite <- Hh in Hpub. apply Htime; [done|by rewrite Hh| | | |].
    - rewrite (inv_geom _ _ HI). exact Hpub.
    - rewrite HT. by eapply list_elem_of_lookup_2.
    - by apply Hmine.
    - by rewrite Hh. }
  apply (cons_read _ _ _ _ _ _ (at_head_stable h T1) HP). clear w gh HI HP Hlt Htime Hpub.
  intros w gh HI HP. rewrite (proj2 HP).
  case_bool; bool_to_prop; [by apply (stale_set_safe h T1)|].
  rewrite (proj2 (Z.ltb_lt _ _) (Hfresh E)), orb_true_r. apply some_head_ret. by exists T1.
Qed.

Lemma decode_loaded h T i m w gh :
  inv w gh -> loaded h T i m w gh ->
  body_length (decode_header (data (entry_at w (h mod cap)))) = body_length m.1.
Proof.
  intros HI (_ & Hh & _ & Hd). destruct (hist_lookup_plan _ _ _ _ _ HI Hh) as (Hw & _).
  fold (dat w (h mod cap)). rewrite <- (take_drop (length (bytes m)) (dat w (h mod cap))), Hd.
  unfold bytes. by rewrite <- (assoc_L (++)), decode_encode_header.
Qed.

Lemma dequeue_safe h T fuel buffer_cap w gh :
  max_msg_size g <= buffer_cap -> inv w gh -> at_head h T w gh ->
  qsafe 0 (dequeue fuel self buffer_cap) (dequeued h) w gh.
Proof.
  intros Hcap HI HP. unfold dequeue.
  apply (cons_read _ _ _ _ _ _ (at_head_stable h T) HP). clear w gh HI HP. intros w gh HI HP.
  rewrite (proj1 HP).
  apply (cons_read _ _ _ _ _ _ (at_head_stable h T) HP). clear w gh HI HP. intros w gh HI HP.
  rewrite (inv_geom _ _ HI), slot_of_ticket by done.
  apply (cons_read _ _ _ _ _ _ (at_head_stable h T) HP). clear w gh HI HP. intros w gh HI HP.
  assert (0 <= h /\ u64 (h + 1) = h + 1) as [Hh0 Hu].
  { destruct HP as [<- _]. pose proof (inv_bound _ _ HI). pose proof (inv_head _ _ HI).
    pose proof cap_pos. split; [lia|]. apply u64_small. lia. }
  case_bool; bool_to_prop.
  - apply (safe_mono _ _ _ _ _ (fun r w gh => some_head h w gh /\ r.1 = 0)); [|intros ? ? ? _ []; by left].
    apply safe_returns.
    { apply returns_bind. intros probe. case_bool; [done|]. by apply returns_bind. }
    apply (tls_write h T _ _ _ (at_head h T)); [apply at_head_stable|done|done|by eexists|].
    clear w gh HI HP E. intros w gh HI' HI [Hh HT]. cbn [fst snd].
    case_bool; [apply some_head_ret; by eexists|].
    eapply safe_bind; [done|by eapply try_skip_safe|]. intros r w' gh' _ HP'. by apply some_head_ret.
  - rewrite Hu in E. destruct (inv_ready _ _ HI _ (slot_range h)) as [Hz|(t & i & m & Ht & He & Hs & Hh & Hd)];
      [unfold seqof in Hz; lia|].
    assert (t = h) as -> by (unfold seqof in Hs; lia).
    assert (HL : loaded h T i m w gh) by (by split_and!).
    apply (cons_read _ _ _ _ _ _ (loaded_stable h T i m) HL). clear w gh HI HP E Ht Hs Hh Hd HL.
    intros w gh HI HL. rewrite (decode_loaded _ _ _ _ _ _ HI HL).
    assert (Hm : wf_msg g m) by (eapply hist_lookup_plan; [done|apply HL]).
    pose proof (length_bytes g m Hm) as Hlen. destruct Hm as ((_ & Hbl & _) & _ & Hsz).
    assert (Hmax : max_msg_size g < 2 ^ 32) by apply Hg.
    rewrite (proj2 (Z.ltb_ge _ _) Hsz), (proj2 (Z.ltb_ge buffer_cap _)) by lia.
    unfold MSG_HEADER_LEN in *. rewrite u32_small by lia. eapply safe_bind; [done| |].
    + apply (memcpy_out_safe h T i m 0); [done|lia|done].
    + intros buf w' gh' HI' [HL' ->]. eapply safe_mono;
        [by apply (release_safe h T i m); [apply sample_if_congested_quiet| |]|].
      intros r w1 gh1 _ (-> & Ha & Hh). right. split; [cbn; lia|]. exists T, i, m.
      split_and!; [done|done|]. cbn [snd]. by rewrite take_ge by lia.
Qed.

(** What the consumer has received is the history up to the head. *)
Definition consumed (acc : list (Z * list Z)) (w : mpsc_world) (gh : ghost) : Prop :=
  acc.*2 = bytes <$> (take (Z.to_nat (hd w)) (hist gh)).*2.

Lemma consumed_snoc acc h T T' i m len w gh w' gh' :
  inv w gh -> inv w' gh' -> at_head h T w gh -> consumed acc w gh ->
  take (Z.to_nat h) (hist gh) `prefix_of` hist gh' ->
  at_head (h + 1) T' w' gh' -> hist gh' !! Z.to_nat h = Some (i, m) ->
  consumed (acc ++ [(len, bytes m)]) w' gh'.
Proof.
  intros HI HI' [Hh _] HC [r Hr] [Hh' _] Hm. unfold consumed in *.
  pose proof (inv_head _ _ HI). pose proof (inv_tail _ _ HI).
  rewrite fmap_app, HC, Hh, Hh'. replace (Z.to_nat (h + 1)) with (S (Z.to_nat h)) by lia.
  rewrite (take_S_r _ _ _ Hm), !fmap_app. f_equal. rewrite Hr.
  by rewrite take_app_length' by (rewrite length_take; lia).
Qed.

Lemma consumer_safe fuel buffer_cap k acc h T w gh :
  max_msg_size g <= buffer_cap -> inv w gh -> at_head h T w gh -> consumed acc w gh ->
  qsafe 0 (consumer fuel self buffer_cap k acc) consumed w gh.
Proof.
  intros Hcap. revert acc h T w gh. induction k as [|k IH]; intros acc h T w gh HI HP HC.
  - apply safe_ret; [|done]. apply stable_intro. intros j w1 gh1 w2 gh2 Hj HI1 HI2 HG HC1.
    unfold consumed in *. destruct (g_cons _ _ _ HG Hj) as [Hh _]. cbn in Hh. rewrite Hh, HC1.
    destruct (guar_prefix _ _ _ HG) as [r Hr]. cbn in Hr. rewrite Hr.
    pose proof (inv_head _ _ HI1). pose proof (inv_tail _ _ HI1). by rewrite take_app_le by lia.
  - cbn [consumer]. eapply safe_bind; [done| |].
    + apply (safe_frame _ _ _ _ (fun _ gh' => take (Z.to_nat h) (hist gh) `prefix_of` hist gh')).
      * intros j w1 gh1 w2 gh2 HG _ Hp. etrans; [exact Hp|exact (guar_prefix _ _ _ HG)].
      * apply prefix_take.
      * by apply (dequeue_safe h T).
    + intros [len buf] w' gh' HI' [[[Hz [T' HT']]|(Hnz & T' & i & m & HT' & Hm & Hb)] Hp]; cbn in *.
      * rewrite (proj2 (Z.eqb_eq _ _) Hz). apply (IH _ h T'); [done|done|]. unfold consumed in *.
        rewrite HC, (proj1 HP), (proj1 HT'). destruct Hp as [r Hr]. rewrite Hr.
        pose proof (inv_head _ _ HI). pose proof (inv_tail _ _ HI). destruct HP as [HP _].
        rewrite take_app_le by (rewrite length_take; lia). by rewrite take_idemp.
      * rewrite (proj2 (Z.eqb_neq _ _) Hnz). apply (IH _ (h + 1) T'); [done|done|]. subst buf.
        by apply (consumed_snoc acc h T T' i m len w gh w' gh').
Qed.
End Delivery.

(** * Properties *)

Record sender : Set := Sender { s_route : route; s_fuel : nat; s_msgs : list msg }.

Definition ring_pool (g : geometry) (self buffer_cap : Z) (fuel polls : nat) (senders : list sender)
    : list (prog mpsc_world (list (Z * list Z))) :=
  consumer fuel self buffer_cap polls [] ::
  ((fun s => producer (s_fuel s) g (s_route s) (s_msgs s) []) <$> senders).

Definition plan_of (senders : list sender) (i : nat) : list msg :=
  match i with O => [] | S i' => default [] (s_msgs <$> senders !! i') end.

Lemma plan_of_total senders :
  sum_list_with (fun i => length (plan_of senders i)) (seq 0 (S (length senders))) =
  sum_list_with (fun s => length (s_msgs s)) senders.
Proof.
  induction senders as [|s senders IH] using rev_ind; [done|].
  rewrite length_app, sum_list_with_app, Nat.add_1_r, (seq_S (S _)), sum_list_with_app. f_equal.
  - rewrite <- IH. apply sum_list_with_ext. intros [|i] Hi%elem_of_seq; [done|]. cbn.
    by rewrite lookup_app_l by lia.
  - cbn. by rewrite lookup_app_r, Nat.sub_diag by lia.
Qed.

Lemma ring_pool_safe raw capacity max_size r self buffer_cap npeers T0 fuel polls senders :
  make_ring raw capacity max_size = Some r ->
  0 <= capacity < 2 ^ 32 -> 0 <= max_size < 2 ^ 32 -> max_size <= buffer_cap ->
  Forall (fun s => Forall (wf_msg (geom r)) (s_msgs s)) senders ->
  Z.of_nat (sum_list_with (fun s => length (s_msgs s)) senders) + capacity < 2 ^ 64 - 1 ->
  pool_safe (timely self) (inv (geom r) (plan_of senders)) (guar (geom r))
    (fun i => match i with O => consumed | _ => produced i end)
    (World r (replicate npeers no_cache) T0,
     ring_pool (geom r) self buffer_cap fuel polls senders) (Ghost [] ∅).
Proof.
  intros Hmk Hc Hmx Hb Hwf Htot.
  destruct (make_ring_spec _ _ _ _ Hmk Hc Hmx) as (Hg & Hn & Hms & Hh & Ht & Hl & Ho & Hlen & Hent).
  assert (Hplan : forall i, Forall (wf_msg (geom r)) (plan_of senders i)).
  { intros [|i]; cbn; [done|]. destruct (senders !! i) as [s|] eqn:Es; cbn; [|done].
    by eapply Forall_lookup_1 in Hwf. }
  assert (Hend : forall i, (S (length senders) <= i)%nat -> plan_of senders i = []).
  { intros [|i] Hi; cbn; [done|]. by rewrite lookup_ge_None_2 by lia. }
  rewrite <- plan_of_total, <- Hn in Htot.
  set (w0 := World r (replicate npeers no_cache) T0).
  assert (HI : inv (geom r) (plan_of senders) w0 (Ghost [] ∅)).
  { constructor; cbn; try (done || lia).
    - intros k Hk. rewrite Hn in Hk. by apply Hent.
    - intros j. unfold peer. cbn. rewrite Hh.
      destruct (replicate npeers no_cache !! j) as [c|] eqn:Ec; cbn; [|lia].
      apply lookup_replicate in Ec as [-> _]. cbn. lia.
    - intros k Hk. rewrite Hn in Hk. left. by apply Hent.
    - by intros i m ?%elem_of_nil. }
  split; [done|]. intros [|i] p Hp.
  - injection Hp as <-. eapply (consumer_safe _ _ _ _ Hg Hplan Hend Htot _ _ _ _ 0 T0); try done.
    + by rewrite Hms.
    + unfold consumed. cbn. by rewrite Hh.
  - apply list_lookup_fmap_Some in Hp as (s & -> & Hs).
    eapply (producer_safe _ _ _ _ Hg Hplan Hend Htot (S i) _ _ _ []); try done; cbn; by rewrite Hs.
Qed.

(** C1: FIFO delivery.  Any number of local and remote producers send any well-formed
    messages to a new ring while one consumer polls it with a large enough buffer,
    under every interleaving of single memory accesses and any spurious failures, as
    long as no producer stalls with a reserved entry past the half-write timeout.
    When the consumer is done there is one history of messages whose first
    [head] messages are exactly what it received, byte for byte and in order; the
    history holds, for each producer that is done, exactly the messages it was told were
    accepted, in its order, and nothing nobody sent; and no write ever left its entry. *)
Theorem fifo_delivery raw capacity max_size r self buffer_cap npeers T0 fuel polls senders
    w' ps' received :
  make_ring raw capacity max_size = Some r ->
  0 <= capacity < 2 ^ 32 -> 0 <= max_size < 2 ^ 32 -> max_size <= buffer_cap ->
  Forall (fun s => Forall (wf_msg (geom r)) (s_msgs s)) senders ->
  Z.of_nat (sum_list_with (fun s => length (s_msgs s)) senders) + capacity < 2 ^ 64 - 1 ->
  reachable (timely self)
    (World r (replicate npeers no_cache) T0,
     ring_pool (geom r) self buffer_cap fuel polls senders) (w', ps') ->
  ps' !! 0%nat = Some (Ret received) ->
  exists h : list (nat * msg),
    received.*2 = bytes <$> (take (Z.to_nat (head (w_ring w'))) h).*2 /\
    tail (w_ring w') = Z.of_nat (length h) /\
    (forall i res, ps' !! S i = Some (Ret res) -> accepted res = bytes <$> proj (S i) h) /\
    (forall i m, (i, m) ∈ h -> m ∈ plan_of senders i) /\
    overrun (w_ring w') = false.
Proof.
  intros Hmk Hc Hmx Hb Hwf Htot Hr Hrec.
  destruct (pool_safe_reachable _ _ _ _ _ _ _
    (ring_pool_safe raw capacity max_size r self buffer_cap npeers T0 fuel polls senders
       Hmk Hc Hmx Hb Hwf Htot) Hr) as [gh Hs].
  exists (hist gh). assert (HI := proj1 Hs). cbn in HI. split_and!.
  - exact (pool_safe_ret _ _ _ _ _ _ _ _ Hs Hrec).
  - apply (inv_tail _ _ _ _ HI).
  - intros i res Hres. exact (pool_safe_ret _ _ _ _ _ _ _ _ Hs Hres).
  - apply (inv_plan _ _ _ _ HI).
  - apply (inv_overrun _ _ _ _ HI).
Qed.

(** A ring of two entries, one local and one remote producer, one message each. *)
Definition demo_ring : ring :=
  default (Ring (Geometry 0 0 0 0) 0 0 0 0 0 0 0 [] false) (make_ring [] 2 24).
Definition demo_msg (from : Z) (body : list Z) : msg :=
  (Header from (Z.of_nat (length body)) 1 0 7 0, body).
Definition demo_senders : list sender :=
  [Sender Local 2 [demo_msg 11 [1; 2]]; Sender (Remote 0) 2 [demo_msg 22 []]].
Definition demo_tls : consumer_tls := ConsumerTls 0 (replicate 32 no_state).
Definition demo_start : config :=
  (World demo_ring [no_cache] demo_tls, ring_pool (geom demo_ring) 4096 24 2 3 demo_senders).
Definition demo_end : config :=
  sched_untimed demo_start
    (mjoin (replicate 40 [(1%nat, 0); (2%nat, 0)]) ++ replicate 200 (0%nat, 0)).
Definition demo_received : list (Z * list Z) := thread_result [] demo_end.2 0.

Lemma demo_msg_wf from body :
  0 <= from < 2 ^ 64 -> (length body <= 8)%nat -> wf_msg (geom demo_ring) (demo_msg from body).
Proof.
  intros Hf Hb. assert (Hm : max_msg_size (geom demo_ring) = 24) by reflexivity.
  unfold wf_msg, wf_header, MSG_HEADER_LEN. rewrite Hm. cbn.
  split_and!; try lia; try done. repeat (apply Forall_cons; split; [lia|]). by apply Forall_nil.
Qed.

Lemma fifo_delivery_witness :
  length demo_received = 2%nat /\
  exists h : list (nat * msg),
    demo_received.*2 = bytes <$> (take (Z.to_nat (head (w_ring demo_end.1))) h).*2 /\
    tail (w_ring demo_end.1) = Z.of_nat (length h) /\
    (forall i res, demo_end.2 !! S i = Some (Ret res) -> accepted res = bytes <$> proj (S i) h) /\
    (forall i m, (i, m) ∈ h -> m ∈ plan_of demo_senders i) /\
    overrun (w_ring demo_end.1) = false.
Proof.
  split; [vm_compute; reflexivity|].
  apply (fifo_delivery [] 2 24 demo_ring 4096 24 1 demo_tls 2 3 demo_senders).
  - reflexivity.
  - lia.
  - lia.
  - lia.
  - repeat (apply Forall_cons; split); try apply Forall_nil; try done; apply demo_msg_wf; cbn; lia.
  - cbn; lia.
  - rewrite <- surjective_pairing. apply sched_untimed_reachable. intros s q z Hq Hq'. done.
  - vm_compute. reflexivity.
Defined.

(** ** Why the assumption on time is needed *)

Definition late_ring : ring :=
  default (Ring (Geometry 0 0 0 0) 0 0 0 0 0 0 0 [] false) (make_ring [] 1 24).
Definition late_msgs : list msg := [demo_msg (256 * 256) [1; 1]; demo_msg 22 [2; 2]].
Definition late_start : config :=
  (World late_ring [] demo_tls,
   ring_pool (geom late_ring) 4096 24 2 1025
     [Sender Local 2 [demo_msg (256 * 256) [1; 1]]; Sender Local 2 [demo_msg 22 [2; 2]]]).
(** The first producer reserves the entry and stalls; the consumer polls, first at
    time 1 and then more than five seconds later, and skips the entry; the second producer sends;
    the first wakes up and writes eight bytes; the consumer polls once more. *)
Definition late_end : config :=
  sched late_start
    (replicate 5 (1%nat, 0) ++ replicate 2054 (0%nat, 1) ++ replicate 2058 (0%nat, 6000001) ++
     replicate 100 (2%nat, 0) ++ replicate 8 (1%nat, 0) ++ replicate 60 (0%nat, 0)).

(** C40: a producer that outlives the half-write timeout corrupts another's message.
    There is a run in which the consumer skips the entry of a stalled producer, a
    second producer's message into the same entry is accepted, and the consumer then
    receives bytes that are neither message: checking [ready_seq] does not protect the
    payload from the late writer. *)
Theorem late_producer_corrupts :
  exists w' ps', reachable any_answer late_start (w', ps') /\
    accepted (thread_result [] ps' 2) = [bytes (demo_msg 22 [2; 2])] /\
    match (thread_result [] ps' 0).*2 with
    | [x] => x ∉ (bytes <$> late_msgs)
    | _ => False
    end.
Proof.
  exists late_end.1, late_end.2. split; [|split].
  - rewrite <- surjective_pairing. apply sched_reachable.
  - vm_compute. reflexivity.
  - assert (H : (thread_result [] late_end.2 0).*2 = [[0;0;1;0;0;0;0;0;2;0;0;0;1;0;7;0;2;2]])
      by (vm_compute; reflexivity).
    rewrite H. apply (bool_decide_unpack (_ ∉ _)). vm_compute. exact I.
Qed.
