(* ===== verification/MPSCSeq.v ===== *)
(** The ring used by one thread at a time: it is a bounded FIFO queue of messages.

    [queue_rep g w q] says that the memory [w] holds exactly the messages [q], published
    and in order.  The theorems say what [enqueue_local], [enqueue_remote] and
    [dequeue] do to that queue, result codes included, and what the layout, the
    flow-control threshold, the status query and the forced-full state are. *)

From S2P Require Import Prelude Atomic CommTypes MPSCRing MPSCConc.
Import MPSCRingBuffer.

#[local] Arguments record_depth : simpl never.
#[local] Arguments sample_flow_state : simpl never.
#[local] Arguments write_entry : simpl never.
#[local] Arguments refresh_cached_threshold : simpl never.
#[local] Arguments reserve_round : simpl never.
#[local] Arguments flow_result_after_enqueue : simpl never.
#[local] Arguments flow_result_after_enqueue_cached : simpl never.
#[local] Arguments peer : simpl never.
#[local] Arguments sample_if_congested : simpl never.
#[local] Arguments decode_header : simpl never.
#[local] Arguments Z.land : simpl never.
#[local] Arguments encode_header : simpl never.
#[local] Arguments bytes : simpl never.
#[local] Arguments u64 : simpl never.

Section Queue.
Context (g : geometry).
Hypothesis Hg : wf_geometry g.
#[local] Abbreviation cap := (entry_num g).
#[local] Abbreviation hd w := (head (w_ring w)).
#[local] Abbreviation tl w := (tail (w_ring w)).

Record queue_rep (w : mpsc_world) (q : list msg) : Prop := {
  rep_geom : geom (w_ring w) = g;
  rep_len : length (entries (w_ring w)) = Z.to_nat cap;
  rep_data : forall k, 0 <= k < cap ->
    length (data (entry_at w k)) = Z.to_nat (entry_stride g - SIZEOF_ENTRY);
  rep_head : 0 <= hd w;
  rep_tail : tl w = hd w + Z.of_nat (length q);
  rep_fits : Z.of_nat (length q) <= cap;
  rep_bound : tl w + cap < 2 ^ 64 - 1;
  rep_local : 0 <= local_producer_cached_head (w_ring w) <= hd w;
  rep_shadow : forall j, 0 <= shadow_head (peer j w) <= hd w;
  rep_msgs : forall t m, q !! t = Some m -> wf_msg g m /\
    ready_seq (entry_at w ((hd w + Z.of_nat t) mod cap)) = hd w + Z.of_nat t + 1 /\
    take (length (bytes m)) (data (entry_at w ((hd w + Z.of_nat t) mod cap))) = bytes m;
  rep_free : forall t, tl w <= t < hd w + cap -> ready_seq (entry_at w (t mod cap)) = 0 }.

(** Statistics do not matter. *)
Lemma rep_quiet w w' q : queue_rep w q -> quiet w w' -> queue_rep w' q.
Proof.
  intros [] (Hc & Hl & Hs). pose proof (head_core _ _ Hc) as Hh.
  assert (He : forall k, entry_at w' k = entry_at w k) by (intros; by apply entry_at_core).
  unfold core in Hc. injection Hc as Hg' _ Ht Hen _ _.
  constructor; rewrite ?Hh, ?Ht, ?Hg', ?Hen, ?Hl; auto.
  - intros k Hk. rewrite He. auto.
  - intros j. rewrite Hs. auto.
  - intros t m Hm. rewrite He. auto.
  - intros t Ht'. rewrite He. auto.
Qed.

(** Statistics are updated in one pass when nobody interferes. *)
Lemma run_record_depth fuel used w :
  (1 <= fuel)%nat -> exists w', run (record_depth fuel used) [] w = (Some tt, [], w') /\ quiet w w'.
Proof.
  intros Hf. destruct fuel as [|n]; [lia|]. unfold record_depth. cbn. unfold record_depth_round.
  case_bool; cbn.
  - rewrite Z.eqb_refl. cbn. eexists. split; [done|]. apply quiet_max_depth.
  - eexists. split; [done|]. apply quiet_refl.
Qed.

Lemma quiet_trans w1 w2 w3 : quiet w1 w2 -> quiet w2 w3 -> quiet w1 w3.
Proof. intros (? & ? & H1) (? & ? & H2). by split_and!; try congruence. Qed.

Lemma run_sample_flow_state fuel used w :
  (1 <= fuel)%nat ->
  exists r w', run (sample_flow_state fuel used) [] w = (Some r, [], w') /\ is_flow r /\ quiet w w'.
Proof.
  intros Hf. unfold sample_flow_state. cbn.
  destruct (run_record_depth fuel (if entry_num (geom (w_ring w)) <? used
    then entry_num (geom (w_ring w)) else used) w Hf) as (w1 & H1 & Hq1).
  rewrite run_bind, H1. cbn. case_bool; cbn.
  - case_bool; cbn; [by eexists _, _; split; [done|split; [by right|]]|].
    bool_to_prop. rewrite (proj2 (Z.eqb_eq _ _)) by done. cbn. eexists _, _. split; [done|].
    split; [by right|]. eapply quiet_trans; [done|]. apply quiet_congested.
  - case_bool; cbn; [by eexists _, _; split; [done|split; [by left|]]|].
    case_bool; cbn; (eexists _, _; split; [done|]).
    + split; [by left|]. eapply quiet_trans; [done|]. apply quiet_congested.
    + rewrite E0. split; [by right|done].
Qed.

(** ** Copying and publishing *)

Lemma set_entries_same w s o :
  (Z.to_nat s < length (entries (w_ring w)))%nat -> o = overrun (w_ring w) ->
  set_entries (setZ (entries (w_ring w)) s (entry_at w s)) o w = w.
Proof.
  intros Hs ->. destruct w as [[g0 h0 t0 l0 c0 v0 cg d0 es ov] ps ts]. unfold set_entries, on_ring, setZ, entry_at, getZ; cbn in *.
  destruct (lookup_lt_is_Some_2 es (Z.to_nat s) Hs) as [e He].
  rewrite He. cbn. by rewrite list_insert_id.
Qed.

Lemma run_memcpy_in s off bs env w :
  (Z.to_nat s < length (entries (w_ring w)))%nat ->
  (off + length bs <= length (data (entry_at w s)))%nat ->
  exists e, run (memcpy_in s (Z.of_nat off) bs) env w =
      (Some tt, env, set_entries (setZ (entries (w_ring w)) s e) (overrun (w_ring w)) w) /\
    ready_seq e = ready_seq (entry_at w s) /\ length (data e) = length (data (entry_at w s)) /\
    take (off + length bs) (data e) = take off (data (entry_at w s)) ++ bs.
Proof.
  revert off w. induction bs as [|b bs IH]; intros off w Hs Hl; cbn [memcpy_in length] in *.
  - exists (entry_at w s). cbn. rewrite set_entries_same by done.
    split_and!; try done. by rewrite Nat.add_0_r, app_nil_r.
  - set (e1 := Entry (ready_seq (entry_at w s)) (<[off := b]> (data (entry_at w s)))).
    set (w1 := set_entries (setZ (entries (w_ring w)) s e1) (overrun (w_ring w)) w).
    assert (H1 : store_byte s (Z.of_nat off) b w = w1).
    { unfold store_byte. rewrite (proj2 (Z.ltb_lt _ _)) by lia.
      unfold setZ at 2. by rewrite Nat2Z.id. }
    assert (He1 : entry_at w1 s = e1) by (apply getZ_setZ_eq; done).
    destruct (IH (S off) w1) as (e & Hr & Hq & Hle & Ht).
    { cbn. by rewrite length_setZ. }
    { rewrite He1. cbn. rewrite length_insert. lia. }
    exists e. rewrite He1 in Hq, Hle, Ht. cbn in Hq, Hle, Ht. rewrite length_insert in Hle.
    split_and!; [|done|done|].
    + cbn. rewrite H1. replace (Z.of_nat off + 1) with (Z.of_nat (S off)) by lia. rewrite Hr.
      unfold w1, set_entries, on_ring. cbn. unfold setZ. by rewrite list_insert_insert_eq.
    + replace (off + S (length bs))%nat with (S (off + length bs)) by lia. rewrite Ht.
      rewrite take_S_insert by lia. by rewrite <- (assoc_L (++)).
Qed.

(** Writing a whole message: the entry holds its bytes and carries its ticket. *)
Lemma run_write_entry s t m env w :
  wf_msg g m -> (Z.to_nat s < length (entries (w_ring w)))%nat ->
  (length (bytes m) <= length (data (entry_at w s)))%nat ->
  exists e, run (write_entry s t m.1 (Some m.2) (body_length m.1)) env w =
      (Some tt, env, set_entries (setZ (entries (w_ring w)) s e) (overrun (w_ring w)) w) /\
    ready_seq e = u64 (t + 1) /\ length (data e) = length (data (entry_at w s)) /\
    take (length (bytes m)) (data e) = bytes m.
Proof.
  intros (_ & Hb & _) Hs Hl. unfold write_entry. unfold bytes in Hl. rewrite length_app in Hl.
  change (default [] (Some m.2)) with m.2. rewrite Hb, Nat2Z.id, take_ge by lia.
  destruct (run_memcpy_in s 0 (encode_header m.1) env w) as (e1 & H1 & _ & Hl1 & Ht1); [done|cbn; lia|].
  set (w1 := set_entries (setZ (entries (w_ring w)) s e1) (overrun (w_ring w)) w) in H1.
  assert (He1 : entry_at w1 s = e1) by (apply getZ_setZ_eq; done).
  assert (Hpub : forall e, run (store (store_seq s (u64 (t + 1)))) env
      (set_entries (setZ (entries (w_ring w)) s e) (overrun (w_ring w)) w) =
    (Some tt, env, set_entries (setZ (entries (w_ring w)) s (Entry (u64 (t + 1)) (data e)))
       (overrun (w_ring w)) w)).
  { intros e. cbn. unfold store_seq.
    assert (He : entry_at (set_entries (setZ (entries (w_ring w)) s e) (overrun (w_ring w)) w) s = e)
      by (apply getZ_setZ_eq; done).
    rewrite He. unfold set_entries, on_ring, setZ. cbn. by rewrite list_insert_insert_eq. }
  change (Z.of_nat 0) with 0 in H1. cbn [Nat.add] in Ht1. rewrite take_0, app_nil_l in Ht1.
  rewrite run_bind. case_bool; bool_to_prop.
  - destruct (run_memcpy_in s 16 m.2 env w1) as (e2 & H2 & _ & Hl2 & Ht2).
    { cbn. by rewrite length_setZ. }
    { rewrite He1, Hl1. rewrite length_encode_header in Hl. lia. }
    rewrite run_bind, H1. change MSG_HEADER_LEN with (Z.of_nat 16). rewrite H2.
    replace (set_entries (setZ (entries (w_ring w1)) s e2) (overrun (w_ring w1)) w1)
      with (set_entries (setZ (entries (w_ring w)) s e2) (overrun (w_ring w)) w)
      by (unfold w1, set_entries, on_ring, setZ; cbn; by rewrite list_insert_insert_eq).
    rewrite Hpub. eexists. split; [done|]. cbn. rewrite He1 in Hl2, Ht2.
    split_and!; [done|congruence|]. unfold bytes.
    rewrite length_app, length_encode_header. rewrite length_encode_header in Ht1.
    by rewrite Ht2, Ht1.
  - rewrite H1. unfold w1. rewrite Hpub. eexists. split; [done|]. cbn. split_and!; [done|done|].
    assert (m.2 = []) as Hm by (apply nil_length_inv; lia). unfold bytes. by rewrite Hm, app_nil_r.
Qed.

(** ** Reserving *)

Record rep_cache (cl : lens mpsc_world Z) : Prop := {
  rc_get : forall w q, queue_rep w q -> 0 <= lget cl w <= hd w;
  rc_set : forall w q v, queue_rep w q -> 0 <= v <= hd w -> queue_rep (lset cl v w) q;
  rc_core : forall w v, core (lset cl v w) = core w }.

Lemma local_rep_cache : rep_cache l_local_cached.
Proof. split; [by intros ?? []|by intros w q v [] ?; constructor|done]. Qed.

Lemma shadow_rep_cache j : rep_cache (l_shadow j).
Proof.
  split; [intros w q HR; apply (rep_shadow _ _ HR)| |done].
  intros w q v [] Hv. constructor; try done. intros j'. specialize (rep_shadow0 j').
  revert rep_shadow0. unfold peer; cbn. destruct (decide (j = j')) as [<-|Hne].
  - rewrite list_lookup_alter_eq. by destruct (peers w !! j).
  - by rewrite list_lookup_alter_ne.
Qed.

Lemma cap_pos' : 0 < cap < 2 ^ 32.
Proof. by apply wf_cap. Qed.

(** With room, the first round claims the ticket [tl w]; the cache may be refreshed. *)
Lemma run_reserve_room fuel cl w q :
  rep_cache cl -> queue_rep w q -> Z.of_nat (length q) < cap ->
  exists w1, queue_rep w1 q /\ core w1 = core w /\
    run (reserve_round fuel cl cap (tl w)) [] w = (Some (inr (inr (tl w))), [], set_tail (tl w + 1) w1).
Proof.
  intros Hcl HR Hq. pose proof cap_pos'. pose proof (rc_get cl Hcl w q HR) as Hget.
  pose proof (rep_tail _ _ HR). pose proof (rep_bound _ _ HR). pose proof (rep_head _ _ HR).
  assert (Hu : u64 (tl w + 1) = tl w + 1) by (apply u64_small; lia).
  unfold reserve_round. cbn. rewrite Hu.
  case_bool; cbn; [|exists w; split_and!; [done|done|by rewrite Z.eqb_refl]].
  set (w1 := lset cl (hd w) w). pose proof (rc_core cl Hcl w (hd w)) as Hc. fold w1 in Hc.
  assert (Ht : tl w1 = tl w) by (unfold core in Hc; by injection Hc).
  rewrite u64_small by lia. rewrite (proj2 (Z.leb_gt _ _)) by lia. cbn. rewrite Ht, Z.eqb_refl.
  exists w1. split_and!; [|done|done]. apply (rc_set cl Hcl); [done|lia].
Qed.

(** Without room, the first round reports a full ring. *)
Lemma run_reserve_full fuel cl w q :
  (1 <= fuel)%nat -> rep_cache cl -> queue_rep w q -> Z.of_nat (length q) = cap ->
  exists w', queue_rep w' q /\
    run (reserve_round fuel cl cap (tl w)) [] w = (Some (inr (inl UB_COMM_ERR_RING_FULL)), [], w').
Proof.
  intros Hf Hcl HR Hq. pose proof cap_pos'. pose proof (rc_get cl Hcl w q HR) as Hget.
  pose proof (rep_tail _ _ HR). pose proof (rep_bound _ _ HR). pose proof (rep_head _ _ HR).
  unfold reserve_round. cbn. rewrite u64_small by lia. rewrite (proj2 (Z.leb_le _ _)) by lia. cbn.
  rewrite u64_small by lia. rewrite (proj2 (Z.leb_le _ _)) by lia.
  destruct (run_sample_flow_state fuel cap (lset cl (hd w) w) Hf) as (r & w' & Hr & _ & Hquiet).
  unfold record_full_fail. cbn. rewrite run_bind, Hr. cbn. eexists. split; [|done].
  eapply rep_quiet; [|done]. apply (rc_set cl Hcl); [done|lia].
Qed.

(** The new message joins the queue. *)
Lemma rep_push w q m e :
  queue_rep w q -> Z.of_nat (length q) < cap -> tl w + 1 + cap < 2 ^ 64 - 1 -> wf_msg g m ->
  ready_seq e = tl w + 1 -> length (data e) = length (data (entry_at w (tl w mod cap))) ->
  take (length (bytes m)) (data e) = bytes m ->
  queue_rep (set_entries (setZ (entries (w_ring w)) (tl w mod cap) e) (overrun (w_ring w))
               (set_tail (tl w + 1) w)) (q ++ [m]).
Proof.
  intros HR Hq Hb Hm He Hl Ht. pose proof cap_pos'. pose proof (slot_range g Hg) as Hslot.
  set (w' := set_entries _ _ _). pose proof (rep_tail _ _ HR). pose proof (rep_head _ _ HR).
  assert (Hent : forall k, 0 <= k < cap ->
    entry_at w' k = if decide (k = tl w mod cap) then e else entry_at w k).
  { intros k Hk. apply (entry_at_store cap (tl w mod cap) e (overrun (w_ring w)) (set_tail (tl w + 1) w));
      [apply (rep_len _ _ HR)|apply Hslot|done]. }
  constructor; try apply HR; cbn [length].
  - cbn. rewrite length_setZ. apply HR.
  - intros k Hk. rewrite Hent by done. case_decide; [rewrite Hl|]; by apply (rep_data _ _ HR).
  - cbn. rewrite length_app. cbn. lia.
  - rewrite length_app. cbn. lia.
  - cbn. lia.
  - intros t m' Ht'. change (hd w') with (hd w). rewrite Hent by apply Hslot.
    apply lookup_app_Some in Ht' as [Ht'|[Hge Ht']].
    + destruct (rep_msgs _ _ HR _ _ Ht') as (Hwf & Hs & Hd). apply lookup_lt_Some in Ht'.
      rewrite decide_False; [done|]. intros Heq%(mod_window_inj cap (hd w)); lia.
    + apply list_lookup_singleton_Some in Ht' as [Ht' <-].
      replace (hd w + Z.of_nat t) with (tl w) by lia. by rewrite decide_True.
  - intros t Ht'. cbn in Ht'. rewrite Hent by apply Hslot.
    rewrite decide_False; [apply (rep_free _ _ HR); lia|]. intros Heq%(mod_window_inj cap (hd w)); lia.
Qed.

(** ** The result of flow control, for the local and the remote path *)

Lemma run_flow_result fuel nt cl w q :
  (1 <= fuel)%nat -> rep_cache cl -> queue_rep w q ->
  exists r w', run (flow_result_after_enqueue fuel nt cl) [] w = (Some r, [], w') /\
    is_flow r /\ queue_rep w' q.
Proof.
  intros Hf Hcl HR. unfold flow_result_after_enqueue. cbn. case_bool; cbn.
  - eexists _, _. split; [done|]. split; [by left|done].
  - destruct (run_sample_flow_state fuel (if hd w <=? nt then nt - hd w else 0) (lset cl (hd w) w) Hf)
      as (r & w' & Hr & Hfl & Hq).
    eexists _, _. split; [exact Hr|]. split; [done|]. eapply rep_quiet; [|done].
    apply (rc_set cl Hcl); [done|]. pose proof (rep_head _ _ HR). lia.
Qed.

Lemma run_refresh j w :
  exists t w', run (refresh_cached_threshold j) [] w = (Some t, [], w') /\ quiet w w'.
Proof.
  unfold refresh_cached_threshold. cbn. case_bool; cbn.
  - eexists _, _. split; [done|]. eapply quiet_trans; [apply quiet_cthr|apply quiet_cver].
  - eexists _, _. split; [done|apply quiet_refl].
Qed.

Lemma run_flow_result_cached fuel nt j w q :
  (1 <= fuel)%nat -> queue_rep w q ->
  exists r w', run (flow_result_after_enqueue_cached fuel nt j) [] w = (Some r, [], w') /\
    is_flow r /\ queue_rep w' q.
Proof.
  intros Hf HR. unfold flow_result_after_enqueue_cached. cbn.
  assert (Hk : exists t w1, run (if (cached_threshold_version (peer j w) =? 0) ||
      (Z.land nt (FLOW_CONFIG_REFRESH_INTERVAL - 1) =? 0) then refresh_cached_threshold j
      else Ret (cached_threshold (peer j w))) [] w = (Some t, [], w1) /\ quiet w w1).
  { case_bool; [apply run_refresh|]. eexists _, _. split; [done|apply quiet_refl]. }
  destruct Hk as (t & w1 & H1 & Hq1). rewrite run_bind, H1.
  assert (HR1 : queue_rep w1 q) by (by eapply rep_quiet).
  case_bool; cbn.
  { eexists _, _. split; [done|]. split; [by right|done]. }
  case_bool; cbn.
  { eexists _, _. split; [done|]. split; [by left|done]. }
  destruct (run_refresh j w1) as (t2 & w2 & H2 & Hq2). rewrite run_bind, H2.
  assert (HR2 : queue_rep w2 q) by (by eapply rep_quiet). cbn.
  destruct (run_sample_flow_state fuel (if hd w2 <=? nt then nt - hd w2 else 0)
    (lset (l_shadow j) (hd w2) w2) Hf) as (r & w' & Hr & Hfl & Hq).
  cbn in Hr. eexists _, _. split; [exact Hr|]. split; [done|]. eapply rep_quiet; [|exact Hq].
  apply (rc_set _ (shadow_rep_cache j)); [done|]. pose proof (rep_head _ _ HR2). lia.
Qed.

(** ** Enqueue *)

(** The outcome of offering [m] to the queue [q]. *)
Definition offered (q : list msg) (m : msg) (r : Z) (w : mpsc_world) : Prop :=
  if decide (Z.of_nat (length q) < cap) then is_flow r /\ queue_rep w (q ++ [m])
  else r = UB_COMM_ERR_RING_FULL /\ queue_rep w q.

(** Claiming the ticket and writing the entry, from the state the reservation left. *)
Lemma run_push m w1 w q env :
  queue_rep w1 q -> core w1 = core w -> Z.of_nat (length q) < cap ->
  tl w + 1 + cap < 2 ^ 64 - 1 -> wf_msg g m ->
  exists w2, run (write_entry (tl w mod cap) (tl w) m.1 (Some m.2) (body_length m.1)) env
      (set_tail (tl w + 1) w1) = (Some tt, env, w2) /\ queue_rep w2 (q ++ [m]).
Proof.
  intros HR Hc Hq Hb Hm. pose proof cap_pos'. pose proof (slot_range g Hg (tl w)) as Hslot.
  assert (Ht : tl w1 = tl w) by (unfold core in Hc; by injection Hc).
  pose proof (rep_len _ _ HR) as Hlen. pose proof (rep_data _ _ HR _ Hslot) as Hdl.
  pose proof (length_bytes g m Hm). pose proof (wf_stride g Hg). pose proof (rep_head _ _ HR).
  pose proof (rep_tail _ _ HR).
  destruct (run_write_entry (tl w mod cap) (tl w) m env (set_tail (tl w + 1) w1)) as (e & Hr & Hs & Hl & Hd).
  { done. }
  { cbn. rewrite Hlen. lia. }
  { change (entry_at (set_tail (tl w + 1) w1)) with (entry_at w1). rewrite Hdl.
    destruct Hm as (_ & _ & Hm). lia. }
  eexists. split; [exact Hr|]. rewrite u64_small in Hs by lia. rewrite <- Ht in *.
  exact (rep_push w1 q m e HR Hq Hb Hm Hs Hl Hd).
Qed.

Lemma run_enqueue_local fuel m w q :
  (1 <= fuel)%nat -> queue_rep w q -> tl w + 1 + cap < 2 ^ 64 - 1 -> wf_msg g m ->
  exists r w', run (send fuel g Local m) [] w = (Some r, [], w') /\ offered q m r w'.
Proof.
  intros Hf HR Hb Hm. destruct (size_ok g m Hg Hm) as [Hsz Hbb]. destruct fuel as [|n]; [lia|].
  cbn [send]. unfold enqueue_local. rewrite Hbb. cbn. rewrite (rep_geom _ _ HR), Hsz. cbn.
  rewrite bind_assoc, run_bind. unfold offered. pose proof (rep_fits _ _ HR). case_decide as Hq.
  - destruct (run_reserve_room (S n) l_local_cached w q local_rep_cache HR Hq) as (w1 & HR1 & Hc1 & H1).
    rewrite H1. cbn. rewrite slot_of_ticket by done.
    destruct (run_push m w1 w q [] HR1 Hc1 Hq Hb Hm) as (w2 & H2 & HR2). rewrite run_bind, H2.
    destruct (run_flow_result (S n) (u64 (tl w + 1)) l_local_cached w2 (q ++ [m])) as (r & w' & H3 & ? & ?);
      [lia|apply local_rep_cache|done|]. eexists _, _. split; [exact H3|done].
  - destruct (run_reserve_full (S n) l_local_cached w q) as (w' & HR' & H1);
      [lia|apply local_rep_cache|done|lia|]. rewrite H1. cbn. by eexists _, _.
Qed.

Lemma run_enqueue_remote fuel j m w q :
  (1 <= fuel)%nat -> queue_rep w q -> tl w + 1 + cap < 2 ^ 64 - 1 -> wf_msg g m ->
  exists r w', run (send fuel g (Remote j) m) [] w = (Some r, [], w') /\ offered q m r w'.
Proof.
  intros Hf HR Hb Hm. destruct (size_ok g m Hg Hm) as [Hsz Hbb].
  cbn [send]. unfold enqueue_remote. rewrite Hbb, Hsz, (remote_capacity g Hg). cbn [orb].
  unfold REMOTE_ROUNDS. cbn [iter remote_round load act bind run lget l_tail].
  change (MAX_CAS_RETRIES <? 0) with false. cbv iota.
  rewrite !bind_assoc, run_bind. unfold offered. pose proof (rep_fits _ _ HR). case_decide as Hq.
  - destruct (run_reserve_room fuel (l_shadow j) w q (shadow_rep_cache j) HR Hq) as (w1 & HR1 & Hc1 & H1).
    rewrite H1. cbn. change (geom (w_ring w1)) with (geom (w_ring w1)). rewrite (rep_geom _ _ HR1), slot_of_ticket by done.
    destruct (run_push m w1 w q [] HR1 Hc1 Hq Hb Hm) as (w2 & H2 & HR2). rewrite run_bind, H2.
    destruct (run_flow_result_cached fuel (u64 (tl w + 1)) j w2 (q ++ [m])) as (r & w' & H3 & ? & ?);
      [lia|done|]. eexists _, _. split; [exact H3|done].
  - destruct (run_reserve_full fuel (l_shadow j) w q) as (w' & HR' & H1);
      [lia|apply shadow_rep_cache|done|lia|]. rewrite H1. cbn. by eexists _, _.
Qed.

(** ** Dequeue *)

Lemma run_memcpy_out s off n acc env w :
  (off + n <= length (data (entry_at w s)))%nat ->
  run (memcpy_out s (Z.of_nat off) n acc) env w =
    (Some (acc ++ take n (drop off (data (entry_at w s)))), env, w).
Proof.
  revert off acc. induction n as [|n IH]; intros off acc Hl; cbn [memcpy_out].
  - by rewrite take_0, app_nil_r.
  - cbn. replace (Z.of_nat off + 1) with (Z.of_nat (S off)) by lia. rewrite IH by lia.
    destruct (lookup_lt_is_Some_2 (data (entry_at w s)) off) as [b Hb]; [lia|].
    unfold getZ. rewrite Nat2Z.id, Hb. cbn. rewrite (drop_S _ b off Hb). cbn.
    by rewrite <- (assoc_L (++)).
Qed.

Lemma quiet_sampled fuel w :
  (1 <= fuel)%nat -> exists w', run (sample_if_congested fuel) [] w = (Some tt, [], w') /\ quiet w w'.
Proof.
  intros Hf. unfold sample_if_congested. cbn. case_bool; cbn; [|eexists; split; [done|apply quiet_refl]].
  match goal with |- context [run (bind (sample_flow_state fuel ?u) _)] => set (used := u) end.
  destruct (run_sample_flow_state fuel used w Hf) as (r & w' & Hr & _ & Hq).
  rewrite run_bind, Hr. cbn. by eexists.
Qed.

(** The oldest message leaves the queue. *)
Lemma rep_pop w q m :
  queue_rep w (m :: q) ->
  queue_rep (set_head (hd w + 1) (store_seq (hd w mod cap) 0 w)) q.
Proof.
  intros HR. pose proof cap_pos'. pose proof (slot_range g Hg) as Hslot.
  set (w' := set_head _ _). pose proof (rep_tail _ _ HR) as Ht. pose proof (rep_head _ _ HR).
  pose proof (rep_fits _ _ HR) as Hf. cbn [length] in Ht, Hf.
  assert (Hent : forall k, 0 <= k < cap ->
    entry_at w' k = if decide (k = hd w mod cap) then Entry 0 (data (entry_at w (hd w mod cap)))
                    else entry_at w k).
  { intros k Hk. apply (entry_at_store cap (hd w mod cap) _ (overrun (w_ring w)) w);
      [apply (rep_len _ _ HR)|apply Hslot|done]. }
  assert (hd w' = hd w + 1 /\ tl w' = tl w) as [Hh' Ht'] by done.
  constructor; try apply HR; rewrite ?Hh', ?Ht'.
  - cbn. rewrite length_setZ. apply HR.
  - intros k Hk. rewrite Hent by done. case_decide; by apply (rep_data _ _ HR).
  - lia.
  - lia.
  - lia.
  - pose proof (rep_local _ _ HR). cbn. lia.
  - intros j. pose proof (rep_shadow _ _ HR j). change (peer j w') with (peer j w). lia.
  - intros t m' Hm'. destruct (rep_msgs _ _ HR (S t) m' Hm') as (Hwf & Hs & Hd).
    apply lookup_lt_Some in Hm'. replace (hd w + 1 + Z.of_nat t) with (hd w + Z.of_nat (S t)) by lia.
    rewrite Hent by apply Hslot. rewrite decide_False; [done|].
    intros Heq%(mod_window_inj cap (hd w)); lia.
  - intros t Htt. rewrite Hent by apply Hslot. case_decide as He; [done|].
    destruct (Z.eq_dec t (hd w + cap)) as [->|Hne]; [|apply (rep_free _ _ HR); lia].
    destruct He. replace (hd w + cap) with (hd w + 1 * cap) by lia. apply Z_mod_plus_full.
Qed.

Lemma run_dequeue_some fuel self buffer_cap w q m :
  (1 <= fuel)%nat -> queue_rep w (m :: q) -> max_msg_size g <= buffer_cap ->
  exists w', run (dequeue fuel self buffer_cap) [] w =
      (Some (Z.of_nat (length (bytes m)), bytes m), [], w') /\ queue_rep w' q.
Proof.
  intros Hf HR Hcap. pose proof cap_pos'. pose proof (slot_range g Hg (hd w)) as Hslot.
  destruct (rep_msgs _ _ HR 0 m) as (Hwf & Hs & Hd); [done|]. rewrite Z.add_0_r in Hs, Hd.
  pose proof (rep_tail _ _ HR) as Ht. pose proof (rep_bound _ _ HR). pose proof (rep_head _ _ HR).
  cbn [length] in Ht. assert (Hu : u64 (hd w + 1) = hd w + 1) by (apply u64_small; lia).
  pose proof (length_bytes g m Hwf) as Hlen. pose proof (rep_data _ _ HR _ Hslot) as Hdl.
  pose proof (wf_stride g Hg) as Hst. assert (Hmax : max_msg_size g < 2 ^ 32) by apply Hg.
  destruct Hwf as (Hwh & _ & Hsz). assert (Hbl : 0 <= body_length m.1) by apply Hwh.
  assert (Hdec : body_length (decode_header (data (entry_at w (hd w mod cap)))) = body_length m.1).
  { rewrite <- (take_drop (length (bytes m)) (data _)), Hd. unfold bytes.
    by rewrite <- (assoc_L (++)), decode_encode_header. }
  unfold dequeue. cbn. rewrite (rep_geom _ _ HR), slot_of_ticket, Hs, Hu, Z.eqb_refl by done. cbn.
  rewrite Hdec, (proj2 (Z.ltb_ge _ _) Hsz), (proj2 (Z.ltb_ge buffer_cap _)) by lia.
  unfold MSG_HEADER_LEN in *. rewrite u32_small by lia. rewrite <- Hlen, Nat2Z.id.
  rewrite run_bind, (run_memcpy_out _ 0) by lia. rewrite drop_0, app_nil_l, Hd. cbn.
  destruct (quiet_sampled fuel (set_head (hd w + 1) (store_seq (hd w mod cap) 0 w)) Hf) as (w' & Hr & Hq).
  rewrite run_bind, Hr. cbn. eexists. split; [done|]. eapply rep_quiet; [|exact Hq]. by eapply rep_pop.
Qed.

Lemma rep_tls w q T : queue_rep w q -> queue_rep (set_tls T w) q.
Proof. by intros []; constructor. Qed.

Lemma run_dequeue_none fuel self buffer_cap w :
  queue_rep w [] ->
  exists w', run (dequeue fuel self buffer_cap) [] w = (Some (0, []), [], w') /\ queue_rep w' [].
Proof.
  intros HR. pose proof cap_pos'. pose proof (rep_tail _ _ HR) as Ht. pose proof (rep_bound _ _ HR).
  pose proof (rep_head _ _ HR). cbn [length] in Ht.
  assert (Hz : ready_seq (entry_at w (hd w mod cap)) = 0) by (apply (rep_free _ _ HR); lia).
  assert (Hu : u64 (hd w + 1) = hd w + 1) by (apply u64_small; lia).
  unfold dequeue. cbn. rewrite (rep_geom _ _ HR), slot_of_ticket, Hz, Hu by done.
  rewrite (proj2 (Z.eqb_neq 0 (hd w + 1))) by lia. cbn. case_bool; cbn.
  - eexists. split; [done|by apply rep_tls].
  - rewrite (proj2 (Z.leb_le _ _)) by lia. cbn. eexists. split; [done|by apply rep_tls].
Qed.
End Queue.

(** * The abstract queue and the refinement *)

Inductive queue_op : Set := OpSend (r : route) (m : msg) | OpRecv.
Inductive queue_res : Set := Accepted | Full | Failed (code : Z) | Got (m : option (list Z)).

(** A bounded FIFO queue of byte strings. *)
Definition spec_step (cap : Z) (q : list msg) (op : queue_op) : list msg * queue_res :=
  match op with
  | OpSend _ m => if decide (Z.of_nat (length q) < cap) then (q ++ [m], Accepted) else (q, Full)
  | OpRecv => match q with [] => ([], Got None) | m :: q' => (q', Got (Some (bytes m))) end
  end.
Fixpoint spec_run (cap : Z) (q : list msg) (ops : list queue_op) : list queue_res :=
  match ops with
  | [] => []
  | op :: ops' => (spec_step cap q op).2 :: spec_run cap (spec_step cap q op).1 ops'
  end.

(** The same operations on the ring. *)
Definition ring_step (fuel : nat) (g : geometry) (self buffer_cap : Z) (op : queue_op)
    : prog mpsc_world queue_res :=
  match op with
  | OpSend r m =>
      do res <- send fuel g r m;
      Ret (if 0 <=? res then Accepted
           else if res =? UB_COMM_ERR_RING_FULL then Full else Failed res)
  | OpRecv =>
      do '(len, buf) <- dequeue fuel self buffer_cap;
      Ret (Got (if len =? 0 then None else Some buf))
  end.
Fixpoint ring_run (fuel : nat) (g : geometry) (self buffer_cap : Z) (ops : list queue_op)
    : prog mpsc_world (list queue_res) :=
  match ops with
  | [] => Ret []
  | op :: ops' =>
      do r <- ring_step fuel g self buffer_cap op;
      do rs <- ring_run fuel g self buffer_cap ops';
      Ret (r :: rs)
  end.

Definition wf_op (g : geometry) (op : queue_op) : Prop :=
  match op with OpSend _ m => wf_msg g m | OpRecv => True end.

Lemma offered_result g q m r w :
  offered g q m r w ->
  (if 0 <=? r then Accepted else if r =? UB_COMM_ERR_RING_FULL then Full else Failed r) =
    (spec_step (entry_num g) q (OpSend Local m)).2 /\
  queue_rep g w (spec_step (entry_num g) q (OpSend Local m)).1.
Proof.
  unfold offered. cbn. case_decide; cbn.
  - intros [[-> | ->] HR]; done.
  - by intros [-> HR].
Qed.

(** One operation simulates the abstract one. *)
Lemma ring_step_refines g fuel self buffer_cap op w q :
  wf_geometry g -> (1 <= fuel)%nat -> max_msg_size g <= buffer_cap ->
  queue_rep g w q -> wf_op g op -> tail (w_ring w) + 1 + entry_num g < 2 ^ 64 - 1 ->
  exists w', run (ring_step fuel g self buffer_cap op) [] w =
      (Some (spec_step (entry_num g) q op).2, [], w') /\
    queue_rep g w' (spec_step (entry_num g) q op).1.
Proof.
  intros Hg Hf Hc HR Hop Hb. destruct op as [r m|]; cbn [ring_step].
  - assert (H : exists r' w', run (send fuel g r m) [] w = (Some r', [], w') /\ offered g q m r' w').
    { destruct r; [by apply run_enqueue_local|by apply run_enqueue_remote]. }
    destruct H as (r' & w' & Hr & Ho). apply offered_result in Ho as [Hres HR'].
    rewrite run_bind, Hr. cbn [run]. rewrite Hres. by exists w'.
  - rewrite run_bind. destruct q as [|m q].
    + destruct (run_dequeue_none g Hg fuel self buffer_cap w HR) as (w' & -> & HR'). by exists w'.
    + destruct (run_dequeue_some g Hg fuel self buffer_cap w q m Hf HR Hc) as (w' & -> & HR').
      exists w'. split; [|done]. cbn [run].
      destruct (rep_msgs _ _ _ HR 0 m eq_refl) as (Hm & _).
      pose proof (length_bytes g m Hm). destruct Hm as ((_ & ? & _) & _). unfold MSG_HEADER_LEN in *.
      by rewrite (proj2 (Z.eqb_neq _ _)) by lia.
Qed.

(** ** Which fields the operations touch *)

Definition same_head (w w' : mpsc_world) : Prop := head (w_ring w') = head (w_ring w).
Definition same_tail (w w' : mpsc_world) : Prop := tail (w_ring w') = tail (w_ring w).
(** An overrun, once it happened, stays recorded. *)
Definition keeps_overrun (w w' : mpsc_world) : Prop :=
  overrun (w_ring w) = true -> overrun (w_ring w') = true.

Lemma quiet_fields w w' :
  quiet w w' -> same_head w w' /\ same_tail w w' /\ keeps_overrun w w'.
Proof.
  intros (Hc & _). unfold core in Hc. injection Hc as _ ? ? _ Ho _.
  split_and!; [done|done|]. unfold keeps_overrun. by rewrite Ho.
Qed.

Lemma quiet_only {A} (p : prog mpsc_world A) :
  only quiet p -> only same_head p /\ only same_tail p /\ only keeps_overrun p.
Proof. intros Hp. split_and!; (eapply only_mono; [|exact Hp]); intros w w' H%quiet_fields; apply H. Qed.

Lemma sample_fields fuel used :
  only same_head (sample_flow_state fuel used) /\ only same_tail (sample_flow_state fuel used) /\
  only keeps_overrun (sample_flow_state fuel used).
Proof. apply quiet_only, sample_flow_state_quiet. Qed.

Lemma sampled_fields fuel :
  only same_head (sample_if_congested fuel) /\ only same_tail (sample_if_congested fuel) /\
  only keeps_overrun (sample_if_congested fuel).
Proof. apply quiet_only, sample_if_congested_quiet. Qed.

Lemma refresh_fields j :
  only same_head (refresh_cached_threshold j) /\ only same_tail (refresh_cached_threshold j) /\
  only keeps_overrun (refresh_cached_threshold j).
Proof. apply quiet_only, refresh_cached_threshold_quiet. Qed.

Create HintDb fields.
#[export] Hint Extern 1 (only _ (sample_flow_state _ _)) => eapply sample_fields : fields.
#[export] Hint Extern 1 (only _ (sample_if_congested _)) => apply sampled_fields : fields.
#[export] Hint Extern 1 (only _ (refresh_cached_threshold _)) => apply refresh_fields : fields.

Ltac fields_done :=
  intros; unfold same_head, same_tail, keeps_overrun; cbn; try destruct (_ =? _); done.
Ltac solve_fields :=
  repeat first
    [ solve [eauto with fields]
    | apply only_iter
    | apply only_bind
    | match goal with
      | |- forall _, _ => intros
      | |- only _ (let '_ := ?x in _) => destruct x
      | |- only _ (match ?x with _ => _ end) => destruct x
      | |- only _ (Ret _) => exact I
      | |- only _ (cas_weak _ _ _) => intros ?; cbn; destruct (_ =? 0)
      | |- only _ (ask _) => done
      | |- only _ (load _) => apply only_load; fields_done
      | |- only _ (store _) => intros ?; split; [fields_done|intros; exact I]
      | |- only _ (act _) => intros ?; split; [fields_done|intros; exact I]
      | |- only _ (cas_strong _ _ _) => intros ?; split; [fields_done|intros; exact I]
      | |- only _ (Act _ _) => intros ?; split; [fields_done|intros; exact I]
      end ].

Lemma memcpy_in_fields s off bs :
  only same_head (memcpy_in s off bs) /\ only same_tail (memcpy_in s off bs) /\
  only keeps_overrun (memcpy_in s off bs).
Proof.
  revert off. induction bs as [|b bs IH]; intros off; [done|]. cbn [memcpy_in].
  destruct (IH (off + 1)) as (H1 & H2 & H3).
  split_and!; intros w; (split; [|intros []; done]); cbn;
    unfold store_byte, same_head, same_tail, keeps_overrun; by case_bool.
Qed.

Lemma memcpy_out_fields s off n acc : only same_tail (memcpy_out s off n acc).
Proof.
  revert off acc. induction n as [|n IH]; intros off acc; [done|]. cbn [memcpy_out].
  intros w. split; [done|]. intros b. apply IH.
Qed.

#[export] Hint Extern 1 (only _ (memcpy_in _ _ _)) => apply memcpy_in_fields : fields.
#[export] Hint Resolve memcpy_out_fields : fields.

Lemma send_same_head fuel g r m : only same_head (send fuel g r m).
Proof.
  destruct r; cbn [send];
    unfold enqueue_local, enqueue_remote, remote_round, reserve_round, write_entry,
      flow_result_after_enqueue, flow_result_after_enqueue_cached, record_cas_fail, record_full_fail,
      get_geometry, get_flow_threshold;
    solve_fields.
Qed.

Lemma dequeue_same_tail fuel self buffer_cap : only same_tail (dequeue fuel self buffer_cap).
Proof.
  unfold dequeue, try_skip_stale_reserved_entry, get_geometry, load_seq, get_local_stale_state,
    stale_get, stale_set. solve_fields.
Qed.

#[global] Instance same_head_refl : Reflexive same_head.
Proof. done. Qed.
#[global] Instance same_head_trans : Transitive same_head.
Proof. intros w1 w2 w3. unfold same_head. congruence. Qed.
#[global] Instance same_tail_refl : Reflexive same_tail.
Proof. done. Qed.
#[global] Instance same_tail_trans : Transitive same_tail.
Proof. intros w1 w2 w3. unfold same_tail. congruence. Qed.

Lemma ring_step_tail g fuel self buffer_cap op w q w' r q' env :
  queue_rep g w q -> queue_rep g w' q' -> (length q' <= S (length q))%nat ->
  run (ring_step fuel g self buffer_cap op) env w = (r, env, w') ->
  tail (w_ring w') <= tail (w_ring w) + 1.
Proof.
  intros HR HR' Hq Hr. destruct op as [rt m|].
  - assert (Hh : same_head w w').
    { replace w' with (run (ring_step fuel g self buffer_cap (OpSend rt m)) env w).2 by (by rewrite Hr).
      apply run_only; [apply _|apply _|]. apply only_bind; [apply send_same_head|done]. }
    unfold same_head in Hh. rewrite (rep_tail _ _ _ HR), (rep_tail _ _ _ HR'). lia.
  - assert (Hh : same_tail w w').
    { replace w' with (run (ring_step fuel g self buffer_cap OpRecv) env w).2 by (by rewrite Hr).
      apply run_only; [apply _|apply _|]. apply only_bind; [apply dequeue_same_tail|by intros []]. }
    unfold same_tail in Hh. lia.
Qed.

Lemma spec_step_length cap q op : (length (spec_step cap q op).1 <= S (length q))%nat.
Proof. destruct op; cbn; [case_decide; cbn; rewrite ?length_app; cbn; lia|destruct q; cbn; lia]. Qed.

Lemma ring_run_refines g fuel self buffer_cap ops w q :
  wf_geometry g -> (1 <= fuel)%nat -> max_msg_size g <= buffer_cap ->
  queue_rep g w q -> Forall (wf_op g) ops ->
  tail (w_ring w) + Z.of_nat (length ops) + entry_num g < 2 ^ 64 - 1 ->
  exists w', run (ring_run fuel g self buffer_cap ops) [] w =
    (Some (spec_run (entry_num g) q ops), [], w').
Proof.
  intros Hg Hf Hc. revert w q. induction ops as [|op ops IH]; intros w q HR Hops Hb.
  - by exists w.
  - apply Forall_cons in Hops as [Hop Hops]. cbn [length] in Hb.
    destruct (ring_step_refines g fuel self buffer_cap op w q Hg Hf Hc HR Hop) as (w1 & H1 & HR1); [lia|].
    assert (Ht := ring_step_tail _ _ _ _ _ _ _ _ _ _ _ HR HR1 (spec_step_length _ _ _) H1).
    destruct (IH w1 _ HR1 Hops) as (w2 & H2); [lia|].
    exists w2. cbn [ring_run spec_run]. rewrite run_bind, H1, run_bind, H2. done.
Qed.

Lemma make_ring_rep raw capacity max_size r npeers T0 :
  make_ring raw capacity max_size = Some r ->
  0 <= capacity < 2 ^ 32 -> 0 <= max_size < 2 ^ 32 ->
  queue_rep (geom r) (World r (replicate npeers no_cache) T0) [].
Proof.
  intros Hmk Hc Hmx.
  destruct (make_ring_spec _ _ _ _ Hmk Hc Hmx) as (Hg & Hn & Hms & Hh & Ht & Hl & Ho & Hlen & Hent).
  constructor; cbn; rewrite ?Hh, ?Ht, ?Hl, ?Hn, ?Hlen; try lia; try done.
  - intros k Hk. by apply Hent.
  - intros j. unfold peer. cbn. destruct (replicate npeers no_cache !! j) as [c|] eqn:Ec; cbn; [|lia].
    apply lookup_replicate in Ec as [-> _]. cbn. lia.
  - intros t _. apply Hent. apply Z.mod_pos_bound. pose proof (wf_cap _ Hg). lia.
Qed.

(** * Properties *)

(** C2: run by one thread at a time, the ring refines a bounded FIFO queue.  For any
    sequence of sends (local or remote) and receives on a new ring, every operation
    returns, and returns what the abstract queue returns: a send is accepted exactly
    while fewer than [capacity] messages wait and reports a full ring otherwise; a
    receive yields the oldest message byte for byte, or nothing when the queue is empty. *)
Theorem ring_refines_queue raw capacity max_size r npeers T0 fuel self buffer_cap ops :
  make_ring raw capacity max_size = Some r ->
  0 <= capacity < 2 ^ 32 -> 0 <= max_size < 2 ^ 32 -> max_size <= buffer_cap ->
  (1 <= fuel)%nat -> Forall (wf_op (geom r)) ops ->
  Z.of_nat (length ops) + capacity < 2 ^ 64 - 1 ->
  result (ring_run fuel (geom r) self buffer_cap ops) (World r (replicate npeers no_cache) T0) =
    Some (spec_run capacity [] ops).
Proof.
  intros Hmk Hc Hmx Hb Hf Hops Hlen.
  destruct (make_ring_spec _ _ _ _ Hmk Hc Hmx) as (Hg & Hn & Hms & _ & Ht & _).
  destruct (ring_run_refines (geom r) fuel self buffer_cap ops
    (World r (replicate npeers no_cache) T0) []) as (w' & Hr).
  - done.
  - done.
  - by rewrite Hms.
  - by eapply make_ring_rep.
  - done.
  - cbn. rewrite Ht, Hn. lia.
  - unfold result. by rewrite Hr, Hn.
Qed.

Definition demo_ops : list queue_op :=
  [OpRecv; OpSend Local (demo_msg 1 [7]); OpSend (Remote 0) (demo_msg 2 []);
   OpSend Local (demo_msg 3 [8]); OpRecv; OpRecv; OpRecv].

Lemma ring_refines_queue_witness :
  result (ring_run 1 (geom demo_ring) 4096 24 demo_ops) (World demo_ring [no_cache] demo_tls) =
  Some [Got None; Accepted; Accepted; Full; Got (Some (bytes (demo_msg 1 [7])));
        Got (Some (bytes (demo_msg 2 []))); Got None].
Proof.
  apply (ring_refines_queue [] 2 24 demo_ring 1 demo_tls 1 4096 24 demo_ops).
  - reflexivity.
  - lia.
  - lia.
  - lia.
  - lia.
  - repeat (apply Forall_cons; split); try apply Forall_nil; try done; apply demo_msg_wf; cbn; lia.
  - cbn; lia.
Defined.

(** ** Layout *)

Lemma pow2_half n : is_pow2 n -> n < 2 ^ 32 -> n <= 2 ^ 31.
Proof.
  intros (k & Hk & ->) Hn. apply Z.pow_le_mono_r; [lia|].
  apply Z.pow_lt_mono_r_iff in Hn; lia.
Qed.

Lemma align_entry_spec size :
  0 <= size -> align_entry size mod CACHELINE_SIZE = 0 /\ size <= align_entry size < size + 64.
Proof.
  intros Hs. unfold align_entry, CACHELINE_SIZE. pose proof (Z.mod_pos_bound size 64).
  case_bool; bool_to_prop; [lia|]. split; [|lia].
  replace (size + (64 - size mod 64)) with ((size / 64 + 1) * 64); [apply Z_mod_mult|].
  pose proof (Z.div_mod size 64). lia.
Qed.

(** The entries of a ring are disjoint, lie inside the region whose size
    [CalculateMemorySize] computes (the computation does not wrap), and start on
    a cache line of their own when the ring does. *)
Theorem ring_layout g self i j :
  wf_geometry g -> 0 <= i -> i < j -> j < entry_num g ->
  self + GetDataOffset <= get_entry self g i /\
  get_entry self g i + SIZEOF_ENTRY + max_msg_size g <= get_entry self g j /\
  get_entry self g j + SIZEOF_ENTRY + max_msg_size g <=
    self + CalculateMemorySize (entry_num g) (max_msg_size g) /\
  (get_entry self g i - self) mod CACHELINE_SIZE = 0.
Proof.
  intros (Hp & Hn & _ & Hs & Hm) Hi Hij Hj. pose proof (pow2_half _ Hp Hn).
  unfold get_entry, CalculateMemorySize. change GetDataOffset with 192. rewrite Hs.
  unfold SIZEOF_ENTRY in *. set (st := align_entry (8 + max_msg_size g)) in *.
  destruct (align_entry_spec (8 + max_msg_size g)) as [H1 H2]; [lia|]. fold st in H1, H2.
  assert (Hst : 8 + max_msg_size g <= st) by lia.
  assert (Hb : 0 <= st * entry_num g <= (2 ^ 32 + 72) * 2 ^ 31) by nia.
  rewrite (u64_small (st * _)) by lia. rewrite u64_small by lia. split_and!; try nia.
  replace (self + 192 + i * st - self) with (192 + i * st) by lia.
  unfold CACHELINE_SIZE in *. rewrite Z.add_mod, Z.mul_mod, H1 by lia.
  rewrite Z.mul_0_r. done.
Qed.

Lemma ring_layout_witness :
  get_entry 4096 (Geometry 64 2 24 1) 0 + 8 + 24 <= get_entry 4096 (Geometry 64 2 24 1) 1.
Proof.
  apply (ring_layout (Geometry 64 2 24 1) 4096 0 1).
  - split_and!; cbn; try lia; try done. by exists 1.
  - lia.
  - lia.
  - cbn. lia.
Defined.

(** ** Flow control *)

(** The congestion watermark is the percentage of the capacity rounded up: it
    never exceeds the capacity, is the capacity at 100 percent, and is zero only at
    zero percent; no intermediate value wraps. *)
Theorem flow_threshold_spec capacity percent :
  0 < capacity < 2 ^ 32 -> 0 <= percent <= 100 ->
  let t := calculate_flow_threshold capacity percent in
  t = (capacity * percent + 99) / 100 /\ 0 <= t <= capacity /\
  (t = 0 <-> percent = 0) /\ (percent = 100 -> t = capacity).
Proof.
  intros Hc Hp t. assert (Hb : 0 <= (capacity * percent + 99) / 100 <= capacity).
  { split; [apply Z.div_pos; nia|]. apply Z.lt_succ_r. apply Z.div_lt_upper_bound; nia. }
  assert (Hz : (capacity * percent + 99) / 100 = 0 <-> percent = 0).
  { split; [|intros ->; by rewrite Z.mul_0_r]. intros H0. apply Z.div_small_iff in H0; [|lia].
    nia. }
  assert (Ht : t = (capacity * percent + 99) / 100).
  { assert (0 <= capacity * percent <= 2 ^ 32 * 100) by nia. unfold t, calculate_flow_threshold.
    rewrite (u64_small (capacity * percent)) by lia. rewrite u64_small by lia.
    assert (Hn : negb (percent =? 0) && ((capacity * percent + 99) / 100 =? 0) = false).
    { destruct (Z.eqb_spec percent 0); [done|]. cbn. apply Z.eqb_neq. tauto. }
    rewrite Hn, (proj2 (Z.ltb_ge _ _)) by lia. apply u32_small. lia. }
  rewrite Ht. split_and!; try tauto; try lia. intros ->.
  replace (capacity * 100 + 99) with (99 + capacity * 100) by lia. rewrite Z.div_add by lia. done.
Qed.

Lemma flow_threshold_spec_witness : calculate_flow_threshold 1024 80 = 820.
Proof. apply (flow_threshold_spec 1024 80); lia. Defined.


(** The status query counts the waiting messages.  On a ring holding [q] it
    reports [length q] used of [entry_num] entries and the rest free; full exactly when
    all are used, congested from the watermark on (always, when the watermark is zero),
    idle exactly when nothing waits below the watermark; the queue is unchanged. *)
Theorem status_counts g w q fuel :
  wf_geometry g -> queue_rep g w q -> (1 <= fuel)%nat ->
  exists st w', run (get_status fuel) [] w = (Some st, [], w') /\ queue_rep g w' q /\
    st_used st = Z.of_nat (length q) /\ st_total st = entry_num g /\
    st_used st + st_free st = entry_num g /\
    st_state st = (if decide (Z.of_nat (length q) = entry_num g) then UB_COMM_QUEUE_FULL
      else if decide (st_threshold st <= Z.of_nat (length q)) then UB_COMM_QUEUE_CONGESTED
      else if decide (q = []) then UB_COMM_QUEUE_IDLE else UB_COMM_QUEUE_NORMAL).
Proof.
  intros Hg HR Hf. pose proof (rep_tail _ _ _ HR) as Ht. pose proof (rep_fits _ _ _ HR) as Hq.
  unfold get_status, approximate_used. cbn. rewrite (rep_geom _ _ _ HR).
  rewrite (proj2 (Z.leb_le _ _)) by lia. replace (tail (w_ring w) - head (w_ring w))
    with (Z.of_nat (length q)) by lia. rewrite (proj2 (Z.ltb_ge _ _) Hq).
  destruct (run_record_depth fuel (Z.of_nat (length q)) w Hf) as (w' & Hr & Hquiet).
  rewrite run_bind, Hr. cbn. assert (HR' := rep_quiet _ _ _ _ HR Hquiet).
  rewrite (rep_geom _ _ _ HR'). eexists _, _. split; [done|]. split; [done|].
  cbn [st_used st_total st_free st_state st_threshold]. split_and!; [done|done|case_bool; bool_to_prop; lia|].
  destruct (Z.leb_spec (entry_num g) (Z.of_nat (length q))); [by rewrite decide_True by lia|].
  rewrite decide_False by lia. set (thr := congestion_threshold (w_ring w')).
  destruct (decide (thr <= Z.of_nat (length q))) as [Hle|Hgt].
  - by rewrite (proj2 (Z.leb_le _ _) Hle), orb_true_r.
  - rewrite (proj2 (Z.leb_gt _ _)), (proj2 (Z.eqb_neq thr 0)) by lia. cbn.
    destruct q; cbn; [done|]. by rewrite (proj2 (Z.eqb_neq _ _)) by lia.
Qed.

Lemma status_counts_witness :
  exists st w', run (get_status 1) [] (World demo_ring [no_cache] demo_tls) = (Some st, [], w') /\
    st_used st = 0 /\ st_state st = UB_COMM_QUEUE_IDLE.
Proof.
  destruct (status_counts (geom demo_ring) (World demo_ring [no_cache] demo_tls) [] 1)
    as (st & w' & H & _ & Hu & _ & _ & Hs).
  - apply (make_ring_spec [] 2 24); [reflexivity|lia|lia].
  - apply (make_ring_rep [] 2 24 demo_ring 1 demo_tls); [reflexivity|lia|lia].
  - lia.
  - exists st, w'. split; [exact H|split; [exact Hu|]]. rewrite Hs.
    injection H as <- _. reflexivity.
Defined.

(** ** Errors *)

(** Refused requests change nothing.  A missing header, a missing body of positive length,
    and a message that is too long (where 16 + length still fits 32 bits) are refused by
    both enqueue paths with the documented code, and so is a missing remote ring. *)
Theorem enqueue_refuses fuel w env hdr body len mask stride j :
  let max := max_msg_size (geom (w_ring w)) in
  (hdr = None \/ (0 < len /\ body = None) ->
     run (enqueue_local fuel hdr body len) env w = (Some (- EINVAL), env, w) /\
     forall rn, run (enqueue_remote fuel rn hdr body len mask stride max j) env w = (Some (- EINVAL), env, w)) /\
  (run (enqueue_remote fuel true hdr body len mask stride max j) env w = (Some (- EINVAL), env, w)) /\
  (hdr <> None -> body <> None -> 0 <= len -> max < MSG_HEADER_LEN + len < 2 ^ 32 ->
     run (enqueue_local fuel hdr body len) env w = (Some (- EMSGSIZE), env, w) /\
     run (enqueue_remote fuel false hdr body len mask stride max j) env w = (Some (- EMSGSIZE), env, w)).
Proof.
  cbn zeta. unfold enqueue_local, enqueue_remote. split_and!.
  - intros Hbad. assert (Hb : bad_buffers hdr body len = true).
    { unfold bad_buffers. destruct Hbad as [-> |[Hl ->]]; [done|].
      by rewrite (proj2 (Z.ltb_lt _ _) Hl), orb_true_r. }
    rewrite Hb. split; [done|]. intros rn. by rewrite orb_true_r.
  - done.
  - intros Hh Hbd Hl Hm. assert (Hb : bad_buffers hdr body len = false).
    { unfold bad_buffers. rewrite !bool_decide_eq_false_2 by done. by rewrite andb_false_r. }
    rewrite Hb. cbn [orb]. unfold MSG_HEADER_LEN in *. rewrite u32_small by lia.
    cbn. by rewrite (proj2 (Z.ltb_lt _ _)) by lia.
Qed.

(** A damaged entry is skipped, not read.  When the entry at the head is
    published but its header claims more than the ring's maximum, [dequeue] returns nothing,
    copies nothing, clears the entry and moves on to the next one. *)
Theorem corrupt_entry_skipped g w fuel self buffer_cap env :
  wf_geometry g -> geom (w_ring w) = g -> 0 <= head (w_ring w) < 2 ^ 64 - 1 ->
  let slot := head (w_ring w) mod entry_num g in
  ready_seq (entry_at w slot) = head (w_ring w) + 1 ->
  max_msg_size g < MSG_HEADER_LEN + body_length (decode_header (data (entry_at w slot))) ->
  run (dequeue fuel self buffer_cap) env w =
    (Some (0, []), env, set_head (head (w_ring w) + 1) (store_seq slot 0 w)).
Proof.
  intros Hg Hgeo Hh slot Hs Hl. unfold dequeue. cbn.
  rewrite Hgeo, slot_of_ticket by done. fold slot. rewrite Hs, u64_small, Z.eqb_refl by lia. cbn.
  by rewrite (proj2 (Z.ltb_lt _ _)) by done.
Qed.

Definition corrupt_world : mpsc_world :=
  World (Ring (Geometry 64 1 24 0) 0 1 0 1 1 0 0 [Entry 1 (replicate 56 255)] false) [] demo_tls.

Lemma corrupt_entry_skipped_witness :
  run (dequeue 1 4096 24) [] corrupt_world =
    (Some (0, []), [], set_head 1 (store_seq 0 0 corrupt_world)).
Proof.
  apply (corrupt_entry_skipped (Geometry 64 1 24 0) corrupt_world 1 4096 24 []).
  - split_and!; cbn; try lia; try done. by exists 0.
  - reflexivity.
  - cbn. lia.
  - reflexivity.
  - vm_compute. reflexivity.
Defined.

(** ** The 32-bit length check *)

#[global] Instance keeps_overrun_refl : Reflexive keeps_overrun.
Proof. intros w H. exact H. Qed.
#[global] Instance keeps_overrun_trans : Transitive keeps_overrun.
Proof. intros w1 w2 w3 H1 H2 H. auto. Qed.

Lemma run_keeps {A} (p : prog mpsc_world A) env w :
  only keeps_overrun p -> overrun (w_ring w) = true -> overrun (w_ring (run p env w).2) = true.
Proof. intros Hp Ho. exact (run_only keeps_overrun p env w Hp Ho). Qed.

(** A copy that is longer than the payload leaves it. *)
Lemma memcpy_in_overruns s off bs env w :
  (Z.to_nat s < length (entries (w_ring w)))%nat ->
  (length (data (entry_at w s)) < off + length bs)%nat -> bs <> [] ->
  overrun (w_ring (run (memcpy_in s (Z.of_nat off) bs) env w).2) = true.
Proof.
  revert off w. induction bs as [|b bs IH]; intros off w Hs Hl Hne; [done|].
  cbn [memcpy_in length] in *. unfold store at 1. cbn [bind act]. rewrite run_act. cbn [fst snd].
  replace (Z.of_nat off + 1) with (Z.of_nat (S off)) by lia. unfold store_byte.
  case_bool; bool_to_prop.
  - apply IH.
    + cbn. by rewrite length_setZ.
    + unfold entry_at at 1. cbn. rewrite getZ_setZ_eq by done. cbn. rewrite length_setZ. lia.
    + destruct bs; [cbn in Hl; lia|done].
  - apply run_keeps; [apply memcpy_in_fields|done].
Qed.

(** The 32-bit length check can be passed by a message that does not fit.  A body
    of [2^32 - 16] to [2^32 - 1] bytes makes [MSG_HEADER_LEN + body_len] wrap to less
    than 16, so [enqueue_local] accepts it on any ring with room and copies it past the end
    of the entry. *)
Theorem oversized_body_overruns g w q fuel h body :
  wf_geometry g -> queue_rep g w q -> Z.of_nat (length q) < entry_num g -> (1 <= fuel)%nat ->
  15 <= max_msg_size g < 2 ^ 32 - 64 ->
  2 ^ 32 - 16 <= Z.of_nat (length body) < 2 ^ 32 ->
  overrun (w_ring (final (enqueue_local fuel (Some h) (Some body) (Z.of_nat (length body))) w)) = true.
Proof.
  intros Hg HR Hq Hf Hmax Hbody. destruct fuel as [|n]; [lia|].
  assert (Hu : u32 (MSG_HEADER_LEN + Z.of_nat (length body)) =
               MSG_HEADER_LEN + Z.of_nat (length body) - 2 ^ 32).
  { unfold u32, wrap, MSG_HEADER_LEN. symmetry. apply (Z.mod_unique _ _ 1); lia. }
  unfold final, enqueue_local. unfold bad_buffers.
  rewrite !bool_decide_eq_false_2, andb_false_r by done. cbn [orb].
  rewrite run_bind. cbn [run get_geometry load act]. rewrite (rep_geom _ _ _ HR), Hu.
  unfold MSG_HEADER_LEN. rewrite (proj2 (Z.ltb_ge _ _)) by lia.
  rewrite run_bind. cbn [run load act lget l_tail iter]. rewrite bind_assoc, run_bind.
  destruct (run_reserve_room g Hg (S n) l_local_cached w q (local_rep_cache g) HR Hq) as (w1 & HR1 & Hc1 & H1).
  rewrite H1. cbn [bind]. rewrite slot_of_ticket by done.
  set (t := tail (w_ring w)). set (w2 := set_tail (t + 1) w1).
  pose proof (wf_cap g Hg) as Hc. pose proof (Z.mod_pos_bound t (entry_num g)) as Hslot.
  unfold write_entry. rewrite (proj2 (Z.ltb_lt _ _)) by lia.
  change (default [] (Some body)) with body. change (default default_header (Some h)) with h.
  rewrite Nat2Z.id, take_ge by lia.
  assert (Hlen : (Z.to_nat (t mod entry_num g) < length (entries (w_ring w2)))%nat).
  { change (entries (w_ring w2)) with (entries (w_ring w1)). rewrite (rep_len _ _ _ HR1). lia. }
  assert (Hdl : length (data (entry_at w2 (t mod entry_num g))) = Z.to_nat (entry_stride g - SIZEOF_ENTRY)).
  { apply (rep_data _ _ _ HR1). lia. }
  destruct Hg as (_ & _ & _ & Hst & _).
  destruct (align_entry_spec (SIZEOF_ENTRY + max_msg_size g)) as [Hmod Hal]; [unfold SIZEOF_ENTRY; lia|].
  rewrite <- Hst in Hmod, Hal. unfold SIZEOF_ENTRY, CACHELINE_SIZE in *.
  pose proof (Z.div_mod (entry_stride g) 64).
  destruct (run_memcpy_in (t mod entry_num g) 0 (encode_header h) [] w2) as (e & H2 & _ & Hle & _).
  { done. }
  { rewrite length_encode_header. lia. }
  set (w3 := set_entries _ _ _) in H2. change (Z.of_nat 0) with 0 in H2.
  assert (Ho : forall B (k : unit -> prog mpsc_world B), (forall u, only keeps_overrun (k u)) ->
    overrun (w_ring (run (bind (memcpy_in (t mod entry_num g) (Z.of_nat 16) body) k) [] w3).2) = true).
  { intros B k Hk. assert (He : entry_at w3 (t mod entry_num g) = e) by (apply getZ_setZ_eq; done).
    assert (Hov := memcpy_in_overruns (t mod entry_num g) 16 body [] w3).
    rewrite run_bind. destruct (run (memcpy_in _ _ body) [] w3) as [[[u|] env'] w4]; cbn [snd] in *.
    - apply run_keeps; [apply Hk|]. apply Hov; [cbn; by rewrite length_setZ|rewrite He; lia|].
      destruct body; [cbn in Hbody; lia|done].
    - apply Hov; [cbn; by rewrite length_setZ|rewrite He; lia|]. destruct body; [cbn in Hbody; lia|done]. }
  rewrite !bind_assoc, run_bind, H2. apply Ho. intros u.
  unfold flow_result_after_enqueue, get_flow_threshold. solve_fields.
Qed.

Lemma oversized_body_overruns_witness :
  overrun (w_ring (final (enqueue_local 1 (Some (Header 0 0 0 0 0 0))
    (Some (replicate (Z.to_nat (2 ^ 32 - 16)) 0)) (Z.of_nat (length (replicate (Z.to_nat (2 ^ 32 - 16)) 0))))
    (World demo_ring [no_cache] demo_tls))) = true.
Proof.
  apply (oversized_body_overruns (geom demo_ring) _ [] 1 (Header 0 0 0 0 0 0)).
  - apply (make_ring_spec [] 2 24); [reflexivity|lia|lia].
  - apply (make_ring_rep [] 2 24 demo_ring 1 demo_tls); [reflexivity|lia|lia].
  - reflexivity.
  - lia.
  - split; [discriminate|reflexivity].
  - rewrite length_replicate. lia.
Defined.

(** ** Forcing a ring full *)

Lemma run_flow_result_any fuel nt cl w :
  (1 <= fuel)%nat ->
  exists r w', run (flow_result_after_enqueue fuel nt cl) [] w = (Some r, [], w') /\ is_flow r.
Proof.
  intros Hf. unfold flow_result_after_enqueue. cbn. case_bool; cbn.
  - eexists _, _. split; [done|by left].
  - destruct (run_sample_flow_state fuel (if head (w_ring w) <=? nt then nt - head (w_ring w) else 0)
      (lset cl (head (w_ring w)) w) Hf) as (r & w' & Hr & Hfl & _).
    eexists _, _. split; [exact Hr|done].
Qed.

(** What forcing a ring full does to a local producer.  After [trigger_force_full], a
    send is refused with RING_FULL when the producer's cached head already puts
    the ring at its capacity (it then reads the forged head); while the cached head
    still shows room the producer does not look at the head, and its messages are accepted. *)
Theorem force_full_effect g w q fuel m :
  wf_geometry g -> queue_rep g w q -> (1 <= fuel)%nat -> wf_msg g m ->
  let w1 := final trigger_force_full w in
  let cached := local_producer_cached_head (w_ring w) in
  exists r w', run (send fuel g Local m) [] w1 = (Some r, [], w') /\
    (if decide (cached + entry_num g <= tail (w_ring w)) then r = UB_COMM_ERR_RING_FULL /\
       entries (w_ring w') = entries (w_ring w) else is_flow r).
Proof.
  intros Hg HR Hf Hm w1 cached. destruct (size_ok g m Hg Hm) as [Hsz Hbb].
  destruct fuel as [|n]; [lia|]. pose proof (wf_cap g Hg) as Hc.
  pose proof (rep_tail _ _ _ HR). pose proof (rep_head _ _ _ HR). pose proof (rep_bound _ _ _ HR).
  pose proof (rep_local _ _ _ HR) as Hl. fold cached in Hl.
  assert (Hw1 : w1 = set_head (u64 (tail (w_ring w) - entry_num g)) w).
  { unfold w1, final, trigger_force_full. cbn. by rewrite (rep_geom _ _ _ HR). }
  cbn [send]. unfold enqueue_local. rewrite Hbb, Hw1. cbn. rewrite (rep_geom _ _ _ HR), Hsz. cbn.
  rewrite bind_assoc, run_bind. unfold reserve_round. cbn. fold cached.
  rewrite !u64_small with (z := cached + _) by lia. case_decide as Hd.
  - rewrite (proj2 (Z.leb_le _ _) Hd). cbn.
    assert (Hu : u64 (u64 (tail (w_ring w) - entry_num g) + entry_num g) = tail (w_ring w)).
    { unfold u64, wrap. rewrite Zplus_mod_idemp_l. replace (_ - _ + _) with (tail (w_ring w)) by lia.
      apply Z.mod_small. lia. }
    rewrite Hu, Z.leb_refl. unfold record_full_fail. cbn.
    match goal with |- context [run (bind (sample_flow_state ?f ?u) _) [] ?x] =>
      destruct (run_sample_flow_state f u x Hf) as (r & w' & Hr & _ & Hq) end.
    rewrite run_bind, Hr. cbn. eexists _, _. split; [done|]. split; [done|].
    destruct Hq as (Hcore & _). unfold core in Hcore. by injection Hcore.
  - rewrite (proj2 (Z.leb_gt _ _)) by lia. cbn. rewrite Z.eqb_refl. cbn.
    rewrite slot_of_ticket by done. set (t := tail (w_ring w)).
    pose proof (Z.mod_pos_bound t (entry_num g)) as Hslot. rewrite run_bind.
    destruct (run_write_entry g (t mod entry_num g) t m [] (set_tail (u64 (t + 1)) (set_head
      (u64 (t - entry_num g)) w))) as (e & He & _).
    { done. }
    { cbn. rewrite (rep_len _ _ _ HR). lia. }
    { change (entry_at (set_tail (u64 (t + 1)) (set_head (u64 (t - entry_num g)) w))) with (entry_at w).
      rewrite (rep_data _ _ _ HR) by lia. pose proof (length_bytes g m Hm). pose proof (wf_stride g Hg).
      destruct Hm as (_ & _ & Hm). lia. }
    rewrite He. apply run_flow_result_any. lia.
Qed.

Lemma force_full_effect_witness :
  exists r w', run (send 1 (geom demo_ring) Local (demo_msg 1 [7])) []
    (final trigger_force_full (World demo_ring [no_cache] demo_tls)) = (Some r, [], w') /\ is_flow r.
Proof.
  destruct (force_full_effect (geom demo_ring) (World demo_ring [no_cache] demo_tls) [] 1 (demo_msg 1 [7]))
    as (r & w' & Hr & Hd).
  - apply (make_ring_spec [] 2 24); [reflexivity|lia|lia].
  - apply (make_ring_rep [] 2 24 demo_ring 1 demo_tls); [reflexivity|lia|lia].
  - lia.
  - apply demo_msg_wf; cbn; lia.
  - exists r, w'. split; [exact Hr|]. exact Hd.
Defined.
