(* ===== verification/Transport.v ===== *)
(** The shared-memory transport (src/ub_comm_queue/UBShmTransport.cpp and .h).

    Every process of the cluster has a [UBShmTransport]: it creates one ring per priority in its own region of
    the shared memory, publishes where they are on a billboard, finds the rings of the other nodes
    there, sends into them and dispatches what arrives in its own.

    The state [tworld] is what one instance can reach: the shared memory (billboards and rings, by
    address), the instance itself, the thread-local variables of its dispatcher and a log the application keeps.  The
    instance is split into five records, by the part of the code that uses its members.  The operations of the ring
    (MPSCRing.v) and of the worker pool (ThreadPool.v) are lifted into this state.  A null
    pointer is the address 0.  [cache_mutex_] is modelled, since not every access takes it; under [cb_mu_]
    there is only ever one access, which is one step. *)

From S2P Require Import Prelude Atomic CommTypes MPSCRing ThreadPool.

(** * Configuration (include/ub_dist_comm_queue.h) *)

Definition EPERM : Z := 1.
Definition ENOENT : Z := 2.
Definition ENOMEM : Z := 12.
Definition EFAULT : Z := 14.
Definition EEXIST : Z := 17.
Definition EPIPE : Z := 32.

Record ub_shm_area_t : Set := Area { area_size : Z; area_ptr : Z }.
Record ub_ring_region_info_t : Set := RegionInfo { region : ub_shm_area_t; region_node : Z }.
Record ub_ring_region_map_t : Set := RegionMap {
  map_entries : option (list ub_ring_region_info_t); map_count : Z }.
Record ub_ring_desc_t : Set := RingDesc {
  ring_capacity : Z; ring_max_msg_size : Z; ring_priority : Z }.
Record ub_comm_conf_t : Set := Conf {
  conf_cpu_id : Z; max_nodes : Z; current_node_id : Z; num_rings : Z;
  ring_descs : option (list ub_ring_desc_t) }.
Record heartbeat_config_t : Set := HeartbeatConfig {
  heartbeat_interval_ms : Z; check_interval_ms : Z; timeout_ms : Z }.
Record message_t : Set := Message { header : message_header_t; body : option (list Z) }.

Definition UB_FUNC_SYNC : Z := 0.
Definition UB_FUNC_ASYNC : Z := 1.

(** The loops over a caller's array read its first [count] elements. *)
Definition conf_descs (c : ub_comm_conf_t) : list ub_ring_desc_t :=
  take (Z.to_nat (num_rings c)) (default [] (ring_descs c)).
Definition map_regions (m : ub_ring_region_map_t) : list ub_ring_region_info_t :=
  take (Z.to_nat (map_count m)) (default [] (map_entries m)).

(** * Constants and shared structures *)

Definition MAX_PRIORITY_LEVELS : Z := 8.
Definition MAX_NODES_LIMIT : Z := 16.
Definition LOCK_RING_PRIORITY : Z := 0.
Definition LOCK_RING_CAPACITY : Z := 4096.
Definition LOCK_RING_MSG_SIZE : Z := 128.
Definition MSG_TYPE_DIST_LOCK : Z := 255.
Definition MSG_TYPE_SYS_PEER_EXIT : Z := 254.
Definition MSG_TYPE_SYS_FLOW_CONFIG_UPDATE : Z := 253.
Definition WORKER_POOL_MIN_SIZE : Z := 4.
Definition DEFAULT_HEARTBEAT_INTERVAL_MS : Z := 100.
Definition DEFAULT_HEARTBEAT_CHECK_INTERVAL_MS : Z := 100.
Definition DEFAULT_HEARTBEAT_TIMEOUT_MS : Z := 1000.
Definition US_PER_MS : Z := 1000.

Definition priorities : list Z := seqZ 0 MAX_PRIORITY_LEVELS.

Record NodeBoardInfo : Set := Board {
  initialized : bool;
  ring_offsets : list Z; (* relative to the region of the node; UINT64_MAX: no ring *)
  consumer_heartbeat_seq : Z; board_interval_ms : Z; cache_probe_pad : Z }.
(** sizeof(Billboard): [MAX_NODES_LIMIT] structures of two cache lines. *)
Definition SIZEOF_BILLBOARD : Z := MAX_NODES_LIMIT * 128.

Definition no_board : NodeBoardInfo := Board false (replicate 8 0) 0 0 0.

(** [Billboard]s and rings by address; [raw_mem] is what the payloads of a ring that is
    constructed at an address hold. *)
Record shared_mem : Set := Shared {
  boards : gmap Z (list NodeBoardInfo); rings : gmap Z ring; raw_mem : gmap Z (list (list Z)) }.

(** * The instance *)

(** A function pointer: null, one of the two callbacks of this file, or one of the application's. *)
Inductive ub_callback_t : Set := cb_null | cb_peer_exit | cb_flow_config_update | cb_app (f : Z).
#[global] Instance callback_eq_dec : EqDecision ub_callback_t.
Proof. solve_decision. Defined.
Record cb_info_t : Set := CbInfo { cb_func : ub_callback_t; cb_ctx : Z; cb_type : Z }.
Definition no_cb : cb_info_t := CbInfo cb_null 0 UB_FUNC_SYNC.

(** The closure [dispatch_internal] hands to the worker pool. *)
Record async_task : Set := AsyncTask { at_info : cb_info_t; at_hdr : message_header_t; at_body : list Z }.

Record RemoteRingCache : Set := RingCache {
  cache_initialized : bool; raw_ptr : Z; cache_mask : Z; cache_stride : Z; cache_max_size : Z;
  flow : peer_cache (* shadow_head, cached_threshold, cached_threshold_version *) }.
Definition empty_cache : RemoteRingCache := RingCache false 0 0 0 0 no_cache.

Inductive thread_state : Set := NotJoinable | Running | Finished.
#[global] Instance thread_state_eq_dec : EqDecision thread_state.
Proof. solve_decision. Defined.

Record config_part : Set := ConfigPart {
  conf_ : ub_comm_conf_t; init_region_ptr_ : Z; ring_region_ptr_ : Z; cpu_id_ : Z;
  node_id_to_idx_ : gmap Z Z; idx_to_node_id_ : list Z;
  region_bases_ : list Z; region_sizes_ : list Z }.
Record local_part : Set := LocalPart {
  local_rings_ : list Z; local_active_priorities_ : list Z; max_msg_size_global_ : Z }.
Record remote_part : Set := RemotePart {
  cache_mutex_ : Z; (* -1: a writer, else the number of readers *)
  remote_lookup_table_ : list (list Z);
  ring_caches_ : list (list RemoteRingCache) (* by node id and priority *) }.
Record heartbeat_part : Set := HeartbeatPart {
  reliability_stop_flag_ : bool;
  consumer_heartbeat_thread_ : thread_state; producer_heartbeat_thread_ : thread_state;
  peer_alive_ : list bool; peer_heartbeat_seq_ : list Z;
  peer_heartbeat_seen_us_ : list Z; peer_heartbeat_timeout_us_ : list Z;
  local_consumer_heartbeat_seq_ : Z;
  heartbeat_interval_us_ : Z; heartbeat_check_interval_us_ : Z; heartbeat_timeout_us_ : Z }.
Record run_part : Type := RunPart {
  instance_id_ : Z; init_complete_ : bool; callbacks_ : list cb_info_t; num_threads : Z;
  worker_pool_ : option (pool_state async_task);
  stop_flag_ : bool; dispatcher_thread_ : thread_state; is_for_lock : bool }.

Record transport : Type := Transport {
  t_cfg : config_part; t_loc : local_part; t_rem : remote_part; t_hb : heartbeat_part; t_run : run_part }.

(** [app_log] is memory of the application: the calls that its callbacks have recorded. *)
Record tworld : Type := TWorld {
  shm : shared_mem; this : Z; obj : transport; disp_tls : consumer_tls;
  app_log : list (Z * Z * message_t) }.

(** The constructor; [cores] is [std::thread::hardware_concurrency()].  The source leaves [is_for_lock], [instance_id_] and [cpu_id_]
    uninitialised; here they start as false and 0.  [init] writes the last two before they are read, and the interface writes
    [is_for_lock] before anything reads it, except in an instance that an exception in [init] has leaked, which nothing reaches. *)
Definition worker_count (cores : Z) : Z := Z.max (cores * 2 / 10) WORKER_POOL_MIN_SIZE.
Definition new_transport (cores : Z) : transport :=
  Transport
    (ConfigPart (Conf 0 0 0 0 None) 0 0 0 ∅ [] [] [])
    (LocalPart (replicate 8 0) [] 0)
    (RemotePart 0 [] (replicate 16 (replicate 8 empty_cache)))
    (HeartbeatPart false NotJoinable NotJoinable (replicate 16 true) (replicate 16 0) (replicate 16 0)
       (replicate 16 (DEFAULT_HEARTBEAT_TIMEOUT_MS * US_PER_MS)) 0
       (DEFAULT_HEARTBEAT_INTERVAL_MS * US_PER_MS) (DEFAULT_HEARTBEAT_CHECK_INTERVAL_MS * US_PER_MS)
       (DEFAULT_HEARTBEAT_TIMEOUT_MS * US_PER_MS))
    (RunPart 0 false (replicate 256 no_cb) (worker_count cores) None false NotJoinable false).

(** * Access to the parts *)

Definition on_obj (f : transport -> transport) (w : tworld) : tworld :=
  TWorld (shm w) (this w) (f (obj w)) (disp_tls w) (app_log w).
Definition l_shm : lens tworld shared_mem :=
  Lens shm (fun m w => TWorld m (this w) (obj w) (disp_tls w) (app_log w)).
Definition l_cfg : lens tworld config_part :=
  Lens (fun w => t_cfg (obj w))
    (fun x => on_obj (fun t => Transport x (t_loc t) (t_rem t) (t_hb t) (t_run t))).
Definition l_loc : lens tworld local_part :=
  Lens (fun w => t_loc (obj w))
    (fun x => on_obj (fun t => Transport (t_cfg t) x (t_rem t) (t_hb t) (t_run t))).
Definition l_rem : lens tworld remote_part :=
  Lens (fun w => t_rem (obj w))
    (fun x => on_obj (fun t => Transport (t_cfg t) (t_loc t) x (t_hb t) (t_run t))).
Definition l_hb : lens tworld heartbeat_part :=
  Lens (fun w => t_hb (obj w))
    (fun x => on_obj (fun t => Transport (t_cfg t) (t_loc t) (t_rem t) x (t_run t))).
Definition l_run : lens tworld run_part :=
  Lens (fun w => t_run (obj w))
    (fun x => on_obj (fun t => Transport (t_cfg t) (t_loc t) (t_rem t) (t_hb t) x)).

(** Read a member, and update one. *)
Definition get {P B} (l : lens tworld P) (f : P -> B) : prog tworld B := load (fun w => f (lget l w)).
Definition upd {P} (l : lens tworld P) (f : P -> P) : prog tworld unit :=
  store (fun w => lset l (f (lget l w)) w).

Section Members.
Implicit Types (c : config_part) (o : local_part) (r : remote_part) (h : heartbeat_part) (u : run_part).
Definition with_conf (v : ub_comm_conf_t) c :=
  ConfigPart v (init_region_ptr_ c) (ring_region_ptr_ c) (cpu_id_ c) (node_id_to_idx_ c)
    (idx_to_node_id_ c) (region_bases_ c) (region_sizes_ c).
Definition with_cpu (v : Z) c :=
  ConfigPart (conf_ c) (init_region_ptr_ c) (ring_region_ptr_ c) v (node_id_to_idx_ c)
    (idx_to_node_id_ c) (region_bases_ c) (region_sizes_ c).
Definition with_init_region (v : Z) c :=
  ConfigPart (conf_ c) v (ring_region_ptr_ c) (cpu_id_ c) (node_id_to_idx_ c)
    (idx_to_node_id_ c) (region_bases_ c) (region_sizes_ c).
Definition with_mapping (m : gmap Z Z) (ids : list Z) c :=
  ConfigPart (conf_ c) (init_region_ptr_ c) (ring_region_ptr_ c) (cpu_id_ c) m ids
    (region_bases_ c) (region_sizes_ c).
Definition with_regions (ptr : Z) (bases sizes : list Z) c :=
  ConfigPart (conf_ c) (init_region_ptr_ c) ptr (cpu_id_ c) (node_id_to_idx_ c)
    (idx_to_node_id_ c) bases sizes.

Definition with_local_ring (prio a : Z) o :=
  LocalPart (setZ (local_rings_ o) prio a) (local_active_priorities_ o ++ [prio]) (max_msg_size_global_ o).
Definition with_max_msg (v : Z) o := LocalPart (local_rings_ o) (local_active_priorities_ o) v.

Definition with_mutex (v : Z) r := RemotePart v (remote_lookup_table_ r) (ring_caches_ r).
Definition with_table (t : list (list Z)) r := RemotePart (cache_mutex_ r) t (ring_caches_ r).
Definition with_caches (cs : list (list RemoteRingCache)) r :=
  RemotePart (cache_mutex_ r) (remote_lookup_table_ r) cs.

Definition with_rel_stop (b : bool) h :=
  HeartbeatPart b (consumer_heartbeat_thread_ h) (producer_heartbeat_thread_ h) (peer_alive_ h)
    (peer_heartbeat_seq_ h) (peer_heartbeat_seen_us_ h) (peer_heartbeat_timeout_us_ h)
    (local_consumer_heartbeat_seq_ h) (heartbeat_interval_us_ h) (heartbeat_check_interval_us_ h)
    (heartbeat_timeout_us_ h).
Definition with_consumer_thread (s : thread_state) h :=
  HeartbeatPart (reliability_stop_flag_ h) s (producer_heartbeat_thread_ h) (peer_alive_ h)
    (peer_heartbeat_seq_ h) (peer_heartbeat_seen_us_ h) (peer_heartbeat_timeout_us_ h)
    (local_consumer_heartbeat_seq_ h) (heartbeat_interval_us_ h) (heartbeat_check_interval_us_ h)
    (heartbeat_timeout_us_ h).
Definition with_producer_thread (s : thread_state) h :=
  HeartbeatPart (reliability_stop_flag_ h) (consumer_heartbeat_thread_ h) s (peer_alive_ h)
    (peer_heartbeat_seq_ h) (peer_heartbeat_seen_us_ h) (peer_heartbeat_timeout_us_ h)
    (local_consumer_heartbeat_seq_ h) (heartbeat_interval_us_ h) (heartbeat_check_interval_us_ h)
    (heartbeat_timeout_us_ h).
Definition with_alive (n : Z) (b : bool) h :=
  HeartbeatPart (reliability_stop_flag_ h) (consumer_heartbeat_thread_ h) (producer_heartbeat_thread_ h)
    (setZ (peer_alive_ h) n b) (peer_heartbeat_seq_ h) (peer_heartbeat_seen_us_ h)
    (peer_heartbeat_timeout_us_ h) (local_consumer_heartbeat_seq_ h) (heartbeat_interval_us_ h)
    (heartbeat_check_interval_us_ h) (heartbeat_timeout_us_ h).
Definition with_seq (n v : Z) h :=
  HeartbeatPart (reliability_stop_flag_ h) (consumer_heartbeat_thread_ h) (producer_heartbeat_thread_ h)
    (peer_alive_ h) (setZ (peer_heartbeat_seq_ h) n v) (peer_heartbeat_seen_us_ h)
    (peer_heartbeat_timeout_us_ h) (local_consumer_heartbeat_seq_ h) (heartbeat_interval_us_ h)
    (heartbeat_check_interval_us_ h) (heartbeat_timeout_us_ h).
Definition with_seen (n v : Z) h :=
  HeartbeatPart (reliability_stop_flag_ h) (consumer_heartbeat_thread_ h) (producer_heartbeat_thread_ h)
    (peer_alive_ h) (peer_heartbeat_seq_ h) (setZ (peer_heartbeat_seen_us_ h) n v)
    (peer_heartbeat_timeout_us_ h) (local_consumer_heartbeat_seq_ h) (heartbeat_interval_us_ h)
    (heartbeat_check_interval_us_ h) (heartbeat_timeout_us_ h).
Definition with_peer_timeout (n v : Z) h :=
  HeartbeatPart (reliability_stop_flag_ h) (consumer_heartbeat_thread_ h) (producer_heartbeat_thread_ h)
    (peer_alive_ h) (peer_heartbeat_seq_ h) (peer_heartbeat_seen_us_ h)
    (setZ (peer_heartbeat_timeout_us_ h) n v) (local_consumer_heartbeat_seq_ h) (heartbeat_interval_us_ h)
    (heartbeat_check_interval_us_ h) (heartbeat_timeout_us_ h).
Definition with_local_seq (v : Z) h :=
  HeartbeatPart (reliability_stop_flag_ h) (consumer_heartbeat_thread_ h) (producer_heartbeat_thread_ h)
    (peer_alive_ h) (peer_heartbeat_seq_ h) (peer_heartbeat_seen_us_ h) (peer_heartbeat_timeout_us_ h)
    v (heartbeat_interval_us_ h) (heartbeat_check_interval_us_ h) (heartbeat_timeout_us_ h).
Definition with_interval (v : Z) h :=
  HeartbeatPart (reliability_stop_flag_ h) (consumer_heartbeat_thread_ h) (producer_heartbeat_thread_ h)
    (peer_alive_ h) (peer_heartbeat_seq_ h) (peer_heartbeat_seen_us_ h) (peer_heartbeat_timeout_us_ h)
    (local_consumer_heartbeat_seq_ h) v (heartbeat_check_interval_us_ h) (heartbeat_timeout_us_ h).
Definition with_check (v : Z) h :=
  HeartbeatPart (reliability_stop_flag_ h) (consumer_heartbeat_thread_ h) (producer_heartbeat_thread_ h)
    (peer_alive_ h) (peer_heartbeat_seq_ h) (peer_heartbeat_seen_us_ h) (peer_heartbeat_timeout_us_ h)
    (local_consumer_heartbeat_seq_ h) (heartbeat_interval_us_ h) v (heartbeat_timeout_us_ h).
Definition with_timeout (v : Z) h :=
  HeartbeatPart (reliability_stop_flag_ h) (consumer_heartbeat_thread_ h) (producer_heartbeat_thread_ h)
    (peer_alive_ h) (peer_heartbeat_seq_ h) (peer_heartbeat_seen_us_ h) (peer_heartbeat_timeout_us_ h)
    (local_consumer_heartbeat_seq_ h) (heartbeat_interval_us_ h) (heartbeat_check_interval_us_ h) v.

Definition with_instance (v : Z) u :=
  RunPart v (init_complete_ u) (callbacks_ u) (num_threads u) (worker_pool_ u) (stop_flag_ u)
    (dispatcher_thread_ u) (is_for_lock u).
Definition with_complete (b : bool) u :=
  RunPart (instance_id_ u) b (callbacks_ u) (num_threads u) (worker_pool_ u) (stop_flag_ u)
    (dispatcher_thread_ u) (is_for_lock u).
Definition with_callback (t : Z) (i : cb_info_t) u :=
  RunPart (instance_id_ u) (init_complete_ u) (setZ (callbacks_ u) t i) (num_threads u)
    (worker_pool_ u) (stop_flag_ u) (dispatcher_thread_ u) (is_for_lock u).
Definition with_pool (p : option (pool_state async_task)) u :=
  RunPart (instance_id_ u) (init_complete_ u) (callbacks_ u) (num_threads u) p (stop_flag_ u)
    (dispatcher_thread_ u) (is_for_lock u).
Definition with_stop (b : bool) u :=
  RunPart (instance_id_ u) (init_complete_ u) (callbacks_ u) (num_threads u) (worker_pool_ u) b
    (dispatcher_thread_ u) (is_for_lock u).
Definition with_dispatcher (s : thread_state) u :=
  RunPart (instance_id_ u) (init_complete_ u) (callbacks_ u) (num_threads u) (worker_pool_ u)
    (stop_flag_ u) s (is_for_lock u).
Definition with_lock (b : bool) u :=
  RunPart (instance_id_ u) (init_complete_ u) (callbacks_ u) (num_threads u) (worker_pool_ u)
    (stop_flag_ u) (dispatcher_thread_ u) b.
End Members.

(** Two-dimensional arrays. *)
Definition get2 {A} (d : A) (t : list (list A)) (i j : Z) : A := getZ d (getZ [] t i) j.
Definition set2 {A} (t : list (list A)) (i j : Z) (x : A) : list (list A) :=
  setZ t i (setZ (getZ [] t i) j x).

Definition node_at (m : shared_mem) (ptr idx : Z) : NodeBoardInfo :=
  getZ no_board (default [] (boards m !! ptr)) idx.
Definition on_node (ptr idx : Z) (f : NodeBoardInfo -> NodeBoardInfo) (m : shared_mem) : shared_mem :=
  Shared (<[ptr := setZ (default [] (boards m !! ptr)) idx (f (node_at m ptr idx))]> (boards m))
    (rings m) (raw_mem m).

Section BoardMembers.
Implicit Type b : NodeBoardInfo.
Definition set_initialized (v : bool) b :=
  Board v (ring_offsets b) (consumer_heartbeat_seq b) (board_interval_ms b) (cache_probe_pad b).
Definition set_offset (p v : Z) b :=
  Board (initialized b) (setZ (ring_offsets b) p v) (consumer_heartbeat_seq b) (board_interval_ms b)
    (cache_probe_pad b).
Definition set_hb_seq (v : Z) b :=
  Board (initialized b) (ring_offsets b) v (board_interval_ms b) (cache_probe_pad b).
Definition set_hb_interval (v : Z) b :=
  Board (initialized b) (ring_offsets b) (consumer_heartbeat_seq b) v (cache_probe_pad b).
Definition set_pad (v : Z) b :=
  Board (initialized b) (ring_offsets b) (consumer_heartbeat_seq b) (board_interval_ms b) v.
End BoardMembers.

(** The memory a ring operation works on: the ring at an address, the flow-control members of
    one entry of [ring_caches_] for a remote sender, the thread-local state of the dispatcher. *)
Definition no_ring : ring := Ring (Geometry 0 0 0 0) 0 0 0 0 0 0 0 [] false.
Definition ring_at (m : shared_mem) (a : Z) : ring := default no_ring (rings m !! a).
Definition with_ring (a : Z) (r : ring) (m : shared_mem) : shared_mem :=
  Shared (boards m) (<[a := r]> (rings m)) (raw_mem m).
Definition cache_at (w : tworld) (node prio : Z) : RemoteRingCache :=
  get2 empty_cache (ring_caches_ (t_rem (obj w))) node prio.
Definition set_cache (node prio : Z) (f : RemoteRingCache -> RemoteRingCache) (w : tworld) : tworld :=
  lset l_rem (with_caches (set2 (ring_caches_ (t_rem (obj w))) node prio (f (cache_at w node prio)))
    (t_rem (obj w))) w.
Definition with_flow (p : peer_cache) (c : RemoteRingCache) : RemoteRingCache :=
  RingCache (cache_initialized c) (raw_ptr c) (cache_mask c) (cache_stride c) (cache_max_size c) p.

Definition with_tls (T : consumer_tls) (w : tworld) : tworld := TWorld (shm w) (this w) (obj w) T (app_log w).
Definition l_local_ring (a : Z) : lens tworld mpsc_world :=
  Lens (fun w => World (ring_at (shm w) a) [] (disp_tls w))
       (fun m w => with_tls (tls m) (lset l_shm (with_ring a (w_ring m) (shm w)) w)).
Definition l_remote_ring (a node prio : Z) : lens tworld mpsc_world :=
  Lens (fun w => World (ring_at (shm w) a) [flow (cache_at w node prio)] (disp_tls w))
       (fun m w => set_cache node prio (with_flow (peer 0 m))
          (with_tls (tls m) (lset l_shm (with_ring a (w_ring m) (shm w)) w))).

(** The pool behind the pointer [worker_pool_]. *)
Definition no_pool : pool_state async_task := ThreadPool.create 0.
Definition l_worker_pool : lens tworld (pool_state async_task) :=
  Lens (fun w => default no_pool (worker_pool_ (t_run (obj w))))
       (fun p w => lset l_run (with_pool (Some p) (t_run (obj w))) w).

(** * Results that may be exceptions *)

Inductive exn : Set := bad_alloc | other_exception.
Inductive res : Set := Code (c : Z) | Throw (e : exn).

(** [if ((ret = p) != 0) return ret; q], an exception leaving the function. *)
Definition check_code {S} (p : prog S res) (q : prog S res) : prog S res :=
  do r <- p;
  match r with Code c => if c =? 0 then q else Ret r | Throw _ => Ret r end.
Notation "'check' p ; q" := (check_code p q) (at level 10, p at level 100, q at level 200) : ub_scope.

(** An allocation: the environment says whether it fails (non-zero). *)
Definition alloc {S} (q : prog S res) : prog S res :=
  do z <- ask QExternal; if z =? 0 then q else Ret (Throw bad_alloc).

Module UBShmTransport.

(** * Initialisation *)

(** src/common/util.h; the number of online processors comes from the system. *)
Definition check_cpu_id_valid (cpu cpu_num : Z) : bool := (0 <=? cpu) && (cpu <? u32 cpu_num).

Definition config_valid (area : ub_shm_area_t) (m : ub_ring_region_map_t) (c : ub_comm_conf_t) : bool :=
  negb (area_ptr area =? 0) && bool_decide (is_Some (map_entries m)) &&
  negb ((max_nodes c =? 0) || (MAX_NODES_LIMIT <? max_nodes c)) &&
  negb (area_size area <? SIZEOF_BILLBOARD) &&
  negb (map_count m =? 0) && negb (MAX_PRIORITY_LEVELS <? map_count m) &&
  forallb (fun e => negb (area_ptr (region e) =? 0)) (map_regions m) &&
  negb ((num_rings c <? 1) || (MAX_PRIORITY_LEVELS <? num_rings c)) &&
  bool_decide (is_Some (ring_descs c)).

Definition setup_config_and_validate (init_area : option ub_shm_area_t)
    (ring_map : option ub_ring_region_map_t) (conf : option ub_comm_conf_t) : prog tworld res :=
  match init_area, ring_map, conf with
  | Some area, Some m, Some c =>
      if negb (config_valid area m c) then Ret (Code (- EINVAL)) else
      check (if conf_cpu_id c <? 0 then upd l_cfg (with_cpu (-1)) ;;; Ret (Code 0)
             else do cpu_num <- ask QExternal;
                  if cpu_num <=? 0 then Ret (Throw other_exception)
                  else if negb (check_cpu_id_valid (conf_cpu_id c) cpu_num) then Ret (Code (- EINVAL))
                  else upd l_cfg (with_cpu (conf_cpu_id c)) ;;; Ret (Code 0));
      upd l_cfg (with_init_region (area_ptr area)) ;;;
      upd l_cfg (with_conf c) ;;;
      Ret (Code 0)
  | _, _, _ => Ret (Code (- EINVAL))
  end.

(** [std::set<uint32_t>::insert]: a sorted list without duplicates. *)
Fixpoint set_insert (x : Z) (l : list Z) : list Z :=
  match l with
  | [] => [x]
  | y :: l' => if x <? y then x :: l else if x =? y then l else y :: set_insert x l'
  end.
(** The node ids of the entries; [None]: one is out of range. *)
Fixpoint collect_ids (es : list ub_ring_region_info_t) (ids : list Z) : option (list Z) :=
  match es with
  | [] => Some ids
  | e :: es' => if MAX_NODES_LIMIT <=? region_node e then None
                else collect_ids es' (set_insert (region_node e) ids)
  end.
Definition index_map (ids : list Z) : gmap Z Z :=
  foldl (fun m i => <[getZ 0 ids i := i]> m) ∅ (seqZ 0 (Z.of_nat (length ids))).

Definition build_node_mapping (m : ub_ring_region_map_t) : prog tworld res :=
  match collect_ids (map_regions m) [] with
  | None => Ret (Code (- EINVAL))
  | Some ids =>
      do c <- get l_cfg conf_;
      let n := Z.of_nat (length ids) in
      if (MAX_NODES_LIMIT <? n) || negb (n =? max_nodes c) then Ret (Code (- EINVAL)) else
      upd l_cfg (with_mapping (index_map ids) ids) ;;;
      do found <- get l_cfg (fun g => bool_decide (is_Some (node_id_to_idx_ g !! current_node_id c)));
      Ret (Code (if found then 0 else - EINVAL))
  end.

Definition compact_index (g : config_part) (node_id : Z) : Z :=
  default (-1) (node_id_to_idx_ g !! node_id).
Definition get_compact_index (node_id : Z) : prog tworld Z := get l_cfg (fun g => compact_index g node_id).

(** The bases and sizes the entries of the map leave, in their order. *)
Definition region_tables (g : config_part) (es : list ub_ring_region_info_t) : list Z * list Z :=
  foldl (fun t e =>
      let idx := compact_index g (region_node e) in
      if 0 <=? idx then (setZ t.1 idx (area_ptr (region e)), setZ t.2 idx (area_size (region e))) else t)
    (replicate (length (idx_to_node_id_ g)) 0, replicate (length (idx_to_node_id_ g)) 0) es.

Definition build_region_bases (m : ub_ring_region_map_t) : prog tworld res :=
  upd l_cfg (fun g =>
    let t := region_tables g (map_regions m) in
    with_regions (getZ 0 t.1 (compact_index g (current_node_id (conf_ g)))) t.1 t.2 g) ;;;
  Ret (Code 0).

(** ** Room for the rings *)

(** The padding to the next cache line. *)
Definition pad_to_line (addr : Z) : Z := (CACHELINE_SIZE - addr mod CACHELINE_SIZE) mod CACHELINE_SIZE.

Definition SIZEOF_MESSAGE : Z := 24.
Definition desc_valid (d : ub_ring_desc_t) : bool :=
  negb ((ring_priority d =? 0) || (MAX_PRIORITY_LEVELS <=? ring_priority d)) &&
  negb ((ring_capacity d =? 0) || negb (Z.land (ring_capacity d) (u32 (ring_capacity d - 1)) =? 0)) &&
  negb (ring_max_msg_size d <? SIZEOF_MESSAGE).

(** One ring more: the total and the address behind it, in [size_t]. *)
Definition reserve (t : Z * Z) (capacity max_size : Z) : Z * Z :=
  let pad := pad_to_line t.2 in
  let size := CalculateMemorySize capacity max_size in
  (u64 (t.1 + u64 (pad + size)), u64 (t.2 + u64 (pad + size))).
(** [None]: a descriptor is refused. *)
Fixpoint reserve_all (ds : list ub_ring_desc_t) (t : Z * Z) : option (Z * Z) :=
  match ds with
  | [] => Some t
  | d :: ds' => if desc_valid d then reserve_all ds' (reserve t (ring_capacity d) (ring_max_msg_size d))
                else None
  end.

Definition check_memory_capacity (area : ub_shm_area_t) : prog tworld res :=
  if area_size area <? SIZEOF_BILLBOARD then Ret (Code (- EINVAL)) else
  do g <- get l_cfg (fun g => g);
  let my_limit := getZ 0 (region_sizes_ g) (compact_index g (current_node_id (conf_ g))) in
  match reserve_all (conf_descs (conf_ g))
          (reserve (0, ring_region_ptr_ g) LOCK_RING_CAPACITY LOCK_RING_MSG_SIZE) with
  | None => Ret (Code (- EINVAL))
  | Some t => Ret (Code (if my_limit <? t.1 then - ENOMEM else UB_COMM_OK))
  end.

Definition deep_copy_ring_descs : prog tworld res :=
  do c <- get l_cfg conf_;
  if (0 <? num_rings c) && bool_decide (is_Some (ring_descs c)) then
    do z <- ask QExternal;
    if z =? 0 then
      upd l_cfg (with_conf (Conf (conf_cpu_id c) (max_nodes c) (current_node_id c) (num_rings c)
        (Some (conf_descs c)))) ;;; Ret (Code UB_COMM_OK)
    else Ret (Code (- ENOMEM))
  else
    upd l_cfg (with_conf (Conf (conf_cpu_id c) (max_nodes c) (current_node_id c) 0 (ring_descs c))) ;;;
    Ret (Code UB_COMM_OK).

Definition init_thread_pool : prog tworld res :=
  do n <- get l_run num_threads;
  if 0 <? n then
    alloc (upd l_run (with_pool (Some (ThreadPool.create (Z.to_nat n)))) ;;; Ret (Code 0))
  else upd l_run (with_pool None) ;;; Ret (Code 0).

(** ** The rings of this node *)

(** Construct a ring at the next cache line; the offsets published so far and the address
    behind the ring.  [inl]: the constructor throws. *)
Definition place_ring (t : list Z * Z) (prio capacity max_size : Z) : prog tworld (res + list Z * Z) :=
  let a := u64 (t.2 + pad_to_line t.2) in
  let size := CalculateMemorySize capacity max_size in
  do raw <- get l_shm (fun m => default [] (raw_mem m !! a));
  match make_ring raw capacity max_size with
  | None => Ret (inl (Throw other_exception))
  | Some r =>
      upd l_shm (with_ring a r) ;;;
      upd l_loc (with_local_ring prio a) ;;;
      do base <- get l_cfg ring_region_ptr_;
      upd l_loc (fun o => if max_msg_size_global_ o <? max_size then with_max_msg max_size o else o) ;;;
      Ret (inr (setZ t.1 prio (u64 (a - base)), u64 (a + size)))
  end.

Fixpoint place_rings (ds : list ub_ring_desc_t) (t : list Z * Z) : prog tworld (res + list Z) :=
  match ds with
  | [] =>
      upd l_loc (fun o => with_max_msg (u32 (max_msg_size_global_ o + (MSG_HEADER_LEN + 64))) o) ;;;
      Ret (inr t.1)
  | d :: ds' =>
      if (ring_priority d =? 0) || (MAX_PRIORITY_LEVELS <=? ring_priority d) then
        Ret (inl (Code (- EINVAL))) else
      do used <- get l_loc local_active_priorities_;
      if bool_decide (ring_priority d ∈ used) then Ret (inl (Code (- EEXIST))) else
      do r <- place_ring t (ring_priority d) (ring_capacity d) (ring_max_msg_size d);
      match r with inl e => Ret (inl e) | inr t' => place_rings ds' t' end
  end.

(** The offsets by priority. *)
Definition create_local_rings : prog tworld (res + list Z) :=
  do base <- get l_cfg ring_region_ptr_;
  upd l_loc (with_max_msg 0) ;;;
  do r <- place_ring (replicate 8 UINT64_MAX, base) LOCK_RING_PRIORITY LOCK_RING_CAPACITY
            LOCK_RING_MSG_SIZE;
  match r with
  | inl e => Ret (inl e)
  | inr t => do c <- get l_cfg conf_; place_rings (conf_descs c) t
  end.

(** ** The billboard *)

Definition board_load {B} (ptr idx : Z) (f : NodeBoardInfo -> B) : prog tworld B :=
  get l_shm (fun m => f (node_at m ptr idx)).
Definition board_store (ptr idx : Z) (f : NodeBoardInfo -> NodeBoardInfo) : prog tworld unit :=
  upd l_shm (on_node ptr idx f).

(** The compare-exchange writes [true] over [true]: the structure is only touched. *)
Definition force_refresh_whole_struct (ptr idx : Z) : prog tworld unit :=
  do _ <- board_load ptr idx initialized;
  board_store ptr idx (set_pad 0).

Definition publish_to_billboard (offsets : list Z) : prog tworld res :=
  do ptr <- get l_cfg init_region_ptr_;
  if ptr =? 0 then Ret (Code (- EINVAL)) else
  if negb (ptr mod CACHELINE_SIZE =? 0) then Ret (Code (- EINVAL)) else
  do my_idx <- get l_cfg (fun g => compact_index g (current_node_id (conf_ g)));
  if my_idx <? 0 then Ret (Code UB_COMM_ERR_PEER_NODE_NOT_FOUND) else
  for_each priorities (fun p => board_store ptr my_idx (set_offset p UINT64_MAX)) ;;;
  board_store ptr my_idx (set_hb_seq 0) ;;;
  do interval <- get l_hb heartbeat_interval_us_;
  board_store ptr my_idx (set_hb_interval (u32 (interval / US_PER_MS))) ;;;
  for_each priorities (fun p =>
    if negb (getZ UINT64_MAX offsets p =? UINT64_MAX)
    then board_store ptr my_idx (set_offset p (getZ UINT64_MAX offsets p)) else Ret tt) ;;;
  do old <- act (fun w => (local_consumer_heartbeat_seq_ (lget l_hb w),
    lset l_hb (with_local_seq (u64 (local_consumer_heartbeat_seq_ (lget l_hb w) + 1)) (lget l_hb w)) w));
  board_store ptr my_idx (set_hb_seq (u64 (old + 1))) ;;;
  board_store ptr my_idx (set_initialized true) ;;;
  Ret (Code UB_COMM_OK).

(** The nodes of the cluster with their compact indices. *)
Definition cluster_nodes (g : config_part) : list (Z * Z) :=
  take (Z.to_nat MAX_NODES_LIMIT)
    (zip (seqZ 0 (Z.of_nat (length (idx_to_node_id_ g)))) (idx_to_node_id_ g)).

Section Waiting.
Variable fuel : nat.

Definition kTimeout_us : Z := 10000000.
Definition wait_node_round (ptr idx deadline : Z) : prog tworld (unit + unit) :=
  do now <- ask QSteady;
  if now <? deadline then
    do _ <- board_load ptr idx initialized;
    do ready <- board_load ptr idx initialized;
    if ready : bool then force_refresh_whole_struct ptr idx ;;; Ret (inr tt) else Ret (inl tt)
  else Ret (inr tt).
Definition wait_for_cluster_ready : prog tworld unit :=
  do start <- ask QSteady;
  do g <- get l_cfg (fun g => g);
  let ptr := init_region_ptr_ g in
  if ptr =? 0 then Ret tt else
  for_each (cluster_nodes g) (fun n =>
    if n.2 =? current_node_id (conf_ g) then Ret tt
    else iter fuel (fun _ => wait_node_round ptr n.1 (start + kTimeout_us)) tt).
End Waiting.

(** ** Rings of other nodes *)

Definition table_store (idx prio a : Z) : prog tworld unit :=
  upd l_rem (fun r => with_table (set2 (remote_lookup_table_ r) idx prio a) r).

(** The return code and [*out_ring]. *)
Definition get_remote_ring (node_id prio : Z) : prog tworld (Z * Z) :=
  do idx <- get_compact_index node_id;
  if idx <? 0 then Ret (UB_COMM_ERR_PEER_NODE_NOT_FOUND, 0) else
  if MAX_PRIORITY_LEVELS <=? prio then Ret (- EINVAL, 0) else
  do cached <- get l_rem (fun r => get2 0 (remote_lookup_table_ r) idx prio);
  if negb (cached =? 0) then Ret (UB_COMM_OK, cached) else
  do ptr <- get l_cfg init_region_ptr_;
  if ptr =? 0 then Ret (- EINVAL, 0) else
  force_refresh_whole_struct ptr idx ;;;
  do ready <- board_load ptr idx initialized;
  if negb ready then Ret (UB_COMM_ERR_PEER_NOT_READY, 0) else
  do offset <- board_load ptr idx (fun b => getZ UINT64_MAX (ring_offsets b) prio);
  do base <- get l_cfg (fun g => getZ 0 (region_bases_ g) idx);
  if (offset =? UINT64_MAX) || (base =? 0) then Ret (UB_COMM_ERR_RING_NOT_FOUND, 0) else
  table_store idx prio (u64 (base + offset)) ;;;
  Ret (UB_COMM_OK, u64 (base + offset)).

Definition cache_store (node prio : Z) (f : RemoteRingCache -> RemoteRingCache) : prog tworld unit :=
  store (set_cache node prio f).

Section CacheMembers.
Implicit Type c : RemoteRingCache.
Definition c_raw_ptr (v : Z) c :=
  RingCache (cache_initialized c) v (cache_mask c) (cache_stride c) (cache_max_size c) (flow c).
Definition c_mask (v : Z) c :=
  RingCache (cache_initialized c) (raw_ptr c) v (cache_stride c) (cache_max_size c) (flow c).
Definition c_stride (v : Z) c :=
  RingCache (cache_initialized c) (raw_ptr c) (cache_mask c) v (cache_max_size c) (flow c).
Definition c_max_size (v : Z) c :=
  RingCache (cache_initialized c) (raw_ptr c) (cache_mask c) (cache_stride c) v (flow c).
Definition c_initialized (v : bool) c :=
  RingCache v (raw_ptr c) (cache_mask c) (cache_stride c) (cache_max_size c) (flow c).
Definition c_shadow (v : Z) c :=
  with_flow (PeerCache v (cached_threshold (flow c)) (cached_threshold_version (flow c))) c.
Definition c_threshold (v : Z) c :=
  with_flow (PeerCache (shadow_head (flow c)) v (cached_threshold_version (flow c))) c.
Definition c_version (v : Z) c :=
  with_flow (PeerCache (shadow_head (flow c)) (cached_threshold (flow c)) v) c.
End CacheMembers.

Definition try_populate_cache (node_id prio : Z) : prog tworld Z :=
  if MAX_NODES_LIMIT <=? node_id then Ret (- EINVAL) else
  if MAX_PRIORITY_LEVELS <=? prio then Ret (- EINVAL) else
  do '(ret, ring) <- get_remote_ring node_id prio;
  if negb (ret =? UB_COMM_OK) then Ret ret else
  cache_store node_id prio (c_raw_ptr ring) ;;;
  do ms <- lift (l_local_ring ring) MPSCRingBuffer.get_max_msg_size;
  cache_store node_id prio (c_max_size ms) ;;;
  do st <- lift (l_local_ring ring) MPSCRingBuffer.get_entry_stride;
  cache_store node_id prio (c_stride st) ;;;
  do n <- lift (l_local_ring ring) MPSCRingBuffer.get_entry_num;
  let num := u32 n in
  if (num =? 0) || negb (Z.land num (u32 (num - 1)) =? 0) then Ret (- EINVAL) else
  cache_store node_id prio (c_mask (u32 (num - 1))) ;;;
  cache_store node_id prio (c_shadow 0) ;;;
  do th <- lift (l_local_ring ring) MPSCRingBuffer.get_congestion_threshold;
  cache_store node_id prio (c_threshold th) ;;;
  do v <- lift (l_local_ring ring) MPSCRingBuffer.get_congestion_threshold_version;
  cache_store node_id prio (c_version v) ;;;
  cache_store node_id prio (c_initialized true) ;;;
  Ret UB_COMM_OK.

Definition preload_node (g : config_part) (n : Z * Z) : prog tworld unit :=
  let ptr := init_region_ptr_ g in
  if n.2 =? current_node_id (conf_ g) then
    for_each priorities (fun p =>
      do a <- get l_loc (fun o => getZ 0 (local_rings_ o) p);
      if negb (a =? 0) then table_store n.1 p a else Ret tt)
  else
    force_refresh_whole_struct ptr n.1 ;;;
    do ready <- board_load ptr n.1 initialized;
    if negb ready then Ret tt else
    for_each priorities (fun p =>
      do offset <- board_load ptr n.1 (fun b => getZ UINT64_MAX (ring_offsets b) p);
      let base := getZ 0 (region_bases_ g) n.1 in
      if negb (offset =? UINT64_MAX) && negb (base =? 0) then
        table_store n.1 p (u64 (base + offset)) ;;;
        do _ <- try_populate_cache n.2 p; Ret tt
      else Ret tt).

Definition preload_remote_table : prog tworld unit :=
  do g <- get l_cfg (fun g => g);
  if init_region_ptr_ g =? 0 then Ret tt else
  upd l_rem (with_table (replicate (length (cluster_nodes g)) (replicate 8 0))) ;;;
  for_each (cluster_nodes g) (preload_node g).

(** * Heartbeat *)

Definition refresh_local_consumer_heartbeat : prog tworld unit :=
  do my_idx <- get l_cfg (fun g => compact_index g (current_node_id (conf_ g)));
  do ptr <- get l_cfg init_region_ptr_;
  if (my_idx <? 0) || (ptr =? 0) then Ret tt else
  do old <- act (fun w => (local_consumer_heartbeat_seq_ (lget l_hb w),
    lset l_hb (with_local_seq (u64 (local_consumer_heartbeat_seq_ (lget l_hb w) + 1)) (lget l_hb w)) w));
  board_store ptr my_idx (set_hb_seq (u64 (old + 1))).

(** How long the sequence of a peer may stand still. *)
Definition effective_timeout (local_timeout_us remote_interval_ms check_interval_us : Z) : Z :=
  let remote := if remote_interval_ms =? 0 then DEFAULT_HEARTBEAT_INTERVAL_MS else remote_interval_ms in
  Z.max local_timeout_us (Z.max (u64 (remote * 3 * US_PER_MS)) (u64 (check_interval_us * 2))).

(** One peer in one round of the monitor. *)
Definition monitor_peer (g : config_part) (now : Z) (n : Z * Z) : prog tworld unit :=
  let '(idx, node_id) := n in
  let ptr := init_region_ptr_ g in
  if (node_id =? current_node_id (conf_ g)) || (MAX_NODES_LIMIT <=? node_id) then Ret tt else
  force_refresh_whole_struct ptr idx ;;;
  do up <- board_load ptr idx initialized;
  if negb up then Ret tt else
  do seq <- board_load ptr idx consumer_heartbeat_seq;
  do remote_interval_ms <- board_load ptr idx board_interval_ms;
  do local_timeout_us <- get l_hb heartbeat_timeout_us_;
  do check_interval_us <- get l_hb heartbeat_check_interval_us_;
  let limit := effective_timeout local_timeout_us remote_interval_ms check_interval_us in
  upd l_hb (with_peer_timeout node_id limit) ;;;
  do old_seq <- get l_hb (fun h => getZ 0 (peer_heartbeat_seq_ h) node_id);
  do alive <-
    (if negb (seq =? 0) && negb (seq =? old_seq) then
       upd l_hb (with_seq node_id seq) ;;;
       upd l_hb (with_seen node_id now) ;;;
       Ret true
     else
       do last_seen <- get l_hb (fun h => getZ 0 (peer_heartbeat_seen_us_ h) node_id);
       Ret (negb (last_seen =? 0) && (last_seen <=? now) && (now - last_seen <=? limit)));
  upd l_hb (with_alive node_id alive).

Definition monitor_round (now : Z) : prog tworld unit :=
  do g <- get l_cfg (fun g => g);
  for_each (cluster_nodes g) (monitor_peer g now).

Section Loops.
Variable fuel : nat.

Definition run_consumer_heartbeat_loop : prog tworld unit :=
  iter fuel (fun _ =>
    do stop <- get l_hb reliability_stop_flag_;
    if stop : bool then Ret (inr tt) else
    refresh_local_consumer_heartbeat ;;;
    do _ <- get l_hb heartbeat_interval_us_;
    Ret (inl tt)) tt ;;;
  upd l_hb (with_consumer_thread Finished).

Definition run_producer_heartbeat_monitor : prog tworld unit :=
  iter fuel (fun _ =>
    do stop <- get l_hb reliability_stop_flag_;
    if stop : bool then Ret (inr tt) else
    do now <- ask QSteady;
    monitor_round now ;;;
    do _ <- get l_hb heartbeat_check_interval_us_;
    Ret (inl tt)) tt ;;;
  upd l_hb (with_producer_thread Finished).

(** [join] blocks until the thread function has returned. *)
Definition join_thread {P} (l : lens tworld P) (f : P -> thread_state) (set : thread_state -> P -> P)
    : prog tworld unit :=
  do s <- get l f;
  if bool_decide (s = NotJoinable) then Ret tt else
  iter fuel (fun _ => do s <- get l f;
    if bool_decide (s = Finished) then upd l (set NotJoinable) ;;; Ret (inr tt) else Ret (inl tt)) tt.

Definition stop_reliability_threads : prog tworld unit :=
  upd l_hb (with_rel_stop true) ;;;
  join_thread l_hb consumer_heartbeat_thread_ with_consumer_thread ;;;
  join_thread l_hb producer_heartbeat_thread_ with_producer_thread.
End Loops.

Definition start_reliability_threads : prog tworld unit :=
  upd l_hb (with_rel_stop false) ;;;
  refresh_local_consumer_heartbeat ;;;
  upd l_hb (with_consumer_thread Running) ;;;
  upd l_hb (with_producer_thread Running).

Definition request_valid (r : heartbeat_config_t) : bool :=
  negb ((heartbeat_interval_ms r =? 0) || (check_interval_ms r =? 0) || (timeout_ms r =? 0) ||
        (timeout_ms r <? 2 * check_interval_ms r)).

(** The return code and what is written through [effective] when it is not null. *)
Definition config_heartbeat (request : option heartbeat_config_t) (effective : bool)
    : prog tworld (Z * option heartbeat_config_t) :=
  let answer : prog tworld (Z * option heartbeat_config_t) :=
    if effective then
      do i <- get l_hb heartbeat_interval_us_;
      do c <- get l_hb heartbeat_check_interval_us_;
      do t <- get l_hb heartbeat_timeout_us_;
      Ret (UB_COMM_OK, Some (HeartbeatConfig (u32 (i / US_PER_MS)) (u32 (c / US_PER_MS)) (u32 (t / US_PER_MS))))
    else Ret (UB_COMM_OK, None) in
  match request with
  | None => if effective then answer else Ret (- EINVAL, None)
  | Some r =>
      if negb (request_valid r) then Ret (- EINVAL, None) else
      upd l_hb (with_interval (u64 (heartbeat_interval_ms r * US_PER_MS))) ;;;
      upd l_hb (with_check (u64 (check_interval_ms r * US_PER_MS))) ;;;
      upd l_hb (with_timeout (u64 (timeout_ms r * US_PER_MS))) ;;;
      do my_idx <- get l_cfg (fun g => compact_index g (current_node_id (conf_ g)));
      do ptr <- get l_cfg init_region_ptr_;
      (if negb (ptr =? 0) && (0 <=? my_idx)
       then board_store ptr my_idx (set_hb_interval (heartbeat_interval_ms r)) else Ret tt) ;;;
      answer
  end.

(** * Messages *)

Section Runtime.
Variable fuel : nat.
(** What the application's callbacks do, by function pointer and context. *)
Variable app : Z -> Z -> message_t -> prog tworld unit.

(** [cache_mutex_] *)
Definition lock_shared : prog tworld unit :=
  iter fuel (fun _ => act (fun w => let m := cache_mutex_ (lget l_rem w) in
    if m <? 0 then (inl tt, w) else (inr tt, lset l_rem (with_mutex (m + 1) (lget l_rem w)) w))) tt.
Definition unlock_shared : prog tworld unit := upd l_rem (fun r => with_mutex (cache_mutex_ r - 1) r).
Definition lock_unique : prog tworld unit :=
  iter fuel (fun _ => act (fun w => let m := cache_mutex_ (lget l_rem w) in
    if m =? 0 then (inr tt, lset l_rem (with_mutex (-1) (lget l_rem w)) w) else (inl tt, w))) tt.
Definition unlock_unique : prog tworld unit := upd l_rem (with_mutex 0).

(** The ring a message goes to; [None]: priority 0 is reserved. *)
Definition route_priority (h : message_header_t) : option Z :=
  if (msg_type h =? MSG_TYPE_DIST_LOCK) || (msg_type h =? MSG_TYPE_SYS_PEER_EXIT) ||
     (msg_type h =? MSG_TYPE_SYS_FLOW_CONFIG_UPDATE) then Some LOCK_RING_PRIORITY
  else if priority h =? 0 then None else Some (priority h).

Definition send_local (h : message_header_t) (b : option (list Z)) (prio : Z) : prog tworld Z :=
  do ring <- get l_loc (fun o => getZ 0 (local_rings_ o) prio);
  if ring =? 0 then Ret UB_COMM_ERR_RING_NOT_FOUND else
  lift (l_local_ring ring) (MPSCRingBuffer.enqueue_local fuel (Some h) b (body_length h)).

Definition send_remote (h : message_header_t) (b : option (list Z)) (prio : Z) : prog tworld Z :=
  let dest := dest_node_id h in
  lock_shared ;;;
  do ready <- load (fun w => cache_initialized (cache_at w dest prio));
  do ret <- (if ready : bool then Ret UB_COMM_OK else try_populate_cache dest prio);
  if negb (ret =? UB_COMM_OK) then unlock_shared ;;; Ret ret else
  do c <- load (fun w => cache_at w dest prio);
  do ret <- lift (l_remote_ring (raw_ptr c) dest prio)
    (MPSCRingBuffer.enqueue_remote fuel (raw_ptr c =? 0) (Some h) b (body_length h)
       (cache_mask c) (cache_stride c) (cache_max_size c) 0);
  unlock_shared ;;;
  Ret ret.

Definition send (msg : option message_t) : prog tworld Z :=
  match msg with
  | None => Ret (- EINVAL)
  | Some m =>
      let h := header m in
      do g <- get l_cfg (fun g => g);
      let me := current_node_id (conf_ g) in
      if negb (me =? src_node_id h) then Ret (- EPERM) else
      match route_priority h with
      | None => Ret (- EINVAL)
      | Some prio =>
          let dest := dest_node_id h in
          if MAX_PRIORITY_LEVELS <=? prio then Ret (- EINVAL) else
          if MAX_NODES_LIMIT <=? dest then Ret (- EINVAL) else
          if negb (dest =? me) && bool_decide (node_id_to_idx_ g !! dest = None)
          then Ret UB_COMM_ERR_PEER_NODE_NOT_FOUND else
          do alive <- (if negb (dest =? me) then get l_hb (fun h => getZ true (peer_alive_ h) dest)
                       else Ret true);
          if negb alive then Ret UB_COMM_ERR_PEER_NOT_READY else
          if dest =? me then send_local h (body m) prio else send_remote h (body m) prio
      end
  end.

Definition query_inited (node_id : Z) : prog tworld bool :=
  do g <- get l_cfg (fun g => g);
  if bool_decide (node_id_to_idx_ g !! node_id = None) then Ret false else
  if node_id =? current_node_id (conf_ g) then get l_run init_complete_ else
  do r <- try_populate_cache node_id 0;
  Ret (r =? UB_COMM_OK).

(** ** Messages between transports *)

Definition remove_node_cache (node_id : Z) : prog tworld unit :=
  if MAX_NODES_LIMIT <=? node_id then Ret tt else
  do idx <- get_compact_index node_id;
  if idx <? 0 then Ret tt else
  lock_unique ;;;
  for_each priorities (fun p =>
    cache_store node_id p (c_raw_ptr 0) ;;;
    cache_store node_id p (c_shadow 0) ;;;
    cache_store node_id p (c_threshold 0) ;;;
    cache_store node_id p (c_version 0) ;;;
    cache_store node_id p (c_initialized false) ;;;
    table_store idx p 0) ;;;
  unlock_unique.

Definition update_cached_congestion_threshold (node_id prio threshold version : Z) : prog tworld unit :=
  if (prio =? LOCK_RING_PRIORITY) || (MAX_PRIORITY_LEVELS <=? prio) then Ret tt else
  if MAX_NODES_LIMIT <=? node_id then Ret tt else
  do idx <- get_compact_index node_id;
  if idx <? 0 then Ret tt else
  lock_unique ;;;
  do cached_version <- load (fun w => cached_threshold_version (flow (cache_at w node_id prio)));
  (if version <=? cached_version then Ret tt
   else cache_store node_id prio (c_threshold threshold) ;;;
        cache_store node_id prio (c_version version)) ;;;
  unlock_unique.

(** [FlowConfigUpdateMessage] in memory, three bytes of padding at its end. *)
Definition SIZEOF_FLOW_UPDATE : Z := 16.
Definition encode_flow_update (version threshold prio : Z) : list Z :=
  le_bytes 8 version ++ le_bytes 4 threshold ++ [prio; 0; 0; 0].

Definition on_flow_config_update (msg : message_t) (ctx : Z) : prog tworld unit :=
  match body msg with
  | None => Ret tt
  | Some b =>
      if (ctx =? 0) || (body_length (header msg) <? SIZEOF_FLOW_UPDATE) then Ret tt else
      update_cached_congestion_threshold (src_node_id (header msg)) (getZ 0 b 12)
        (le_value (take 4 (drop 8 b))) (le_value (take 8 b))
  end.

Definition on_peer_exit (msg : message_t) (ctx : Z) : prog tworld unit :=
  if ctx =? 0 then Ret tt else
  let dead_node := src_node_id (header msg) in
  if MAX_NODES_LIMIT <=? dead_node then Ret tt else remove_node_cache dead_node.

(** Calling a callback. *)
Definition invoke (i : cb_info_t) (m : message_t) : prog tworld unit :=
  match cb_func i with
  | cb_null => Ret tt
  | cb_peer_exit => on_peer_exit m (cb_ctx i)
  | cb_flow_config_update => on_flow_config_update m (cb_ctx i)
  | cb_app f => app f (cb_ctx i) m
  end.
Definition run_task (t : async_task) : prog tworld unit :=
  invoke (at_info t) (Message (at_hdr t) (Some (at_body t))).

(** ** Dispatch *)

Definition dispatch_internal (data : list Z) (len : Z) : prog tworld Z :=
  if len <? MSG_HEADER_LEN then Ret (- EMSGSIZE) else
  let hdr := decode_header data in
  do info <- get l_run (fun u => getZ no_cb (callbacks_ u) (msg_type hdr));
  if bool_decide (cb_func info = cb_null) then Ret (- ENOENT) else
  let rest := drop (Z.to_nat MSG_HEADER_LEN) data in
  if cb_type info =? UB_FUNC_SYNC then invoke info (Message hdr (Some rest)) ;;; Ret 0 else
  do pool <- get l_run (fun u => bool_decide (is_Some (worker_pool_ u)));
  if negb pool then Ret (- EPIPE) else
  do z <- ask QExternal; (* the copy of the body and the closure are allocated *)
  if negb (z =? 0) then Ret (- ENOMEM) else
  let body_len := len - MSG_HEADER_LEN in
  do r <- ThreadPool.enqueue l_worker_pool fuel (AsyncTask info hdr (take (Z.to_nat body_len) rest));
  Ret (match r with Queued => 0 | _ => - EPIPE end).

Definition MAX_BATCH_PER_POLL : Z := 8192.
Definition poll_round (buffer_size : Z) (l : Z * Z) : prog tworld (Z * Z + Z) :=
  let '(total, idx) := l in
  do active <- get l_loc local_active_priorities_;
  if negb (idx <? Z.of_nat (length active)) then Ret (inr total) else
  if MAX_BATCH_PER_POLL <=? total then Ret (inr total) else
  do ring <- get l_loc (fun o => getZ 0 (local_rings_ o) (getZ 0 active idx));
  if ring =? 0 then Ret (inl (total, idx + 1)) else
  do '(len, data) <- lift (l_local_ring ring) (MPSCRingBuffer.dequeue fuel ring buffer_size);
  if 0 <? len then
    do _ <- dispatch_internal data len;
    Ret (inl (total + 1, 0))
  else Ret (inl (total, idx + 1)).
(** At most nine looks at the rings for each message, and for the last round. *)
Definition POLL_ROUNDS : nat := Z.to_nat (9 * (MAX_BATCH_PER_POLL + 1)).
Definition poll_and_dispatch_once (buffer_size : Z) : prog tworld Z :=
  iter POLL_ROUNDS (poll_round buffer_size) (0, 0).

(** Pinning to a processor has no effect on the state, and its failure is ignored. *)
Definition run_dispatcher_loop : prog tworld unit :=
  do size <- get l_loc max_msg_size_global_;
  iter fuel (fun _ =>
    do stop <- get l_run stop_flag_;
    if stop : bool then Ret (inr tt) else
    do _ <- poll_and_dispatch_once size; Ret (inl tt)) tt ;;;
  upd l_run (with_dispatcher Finished).

Definition start_dispatcher : prog tworld unit :=
  upd l_run (with_stop false) ;;; upd l_run (with_dispatcher Running).

Definition register_func (msg_type func_type : Z) (func : ub_callback_t) (ctx : Z) : prog tworld Z :=
  if 256 <=? msg_type then Ret (- EINVAL) else
  if negb (func_type =? UB_FUNC_SYNC) && negb (func_type =? UB_FUNC_ASYNC) then Ret (- EINVAL) else
  upd l_run (with_callback msg_type (CbInfo func ctx func_type)) ;;; Ret 0.

Definition register_func_for_lock (msg_type func_type : Z) (func : ub_callback_t) (ctx : Z) : prog tworld Z :=
  if negb (msg_type =? MSG_TYPE_DIST_LOCK) then Ret (- EINVAL) else
  if negb (func_type =? UB_FUNC_SYNC) && negb (func_type =? UB_FUNC_ASYNC) then Ret (- EINVAL) else
  upd l_run (with_callback MSG_TYPE_DIST_LOCK (CbInfo func ctx func_type)) ;;; Ret 0.

Definition recv : prog tworld Z := Ret 0.
Definition get_is_for_lock : prog tworld bool := get l_run is_for_lock.
Definition set_is_for_lock (b : bool) : prog tworld Z := upd l_run (with_lock b) ;;; Ret 0.

(** ** Flow control *)

Definition get_status (node_id prio : Z) (status : bool) : prog tworld (Z * option MPSCRingBuffer.queue_status) :=
  let answer ring :=
    do s <- lift (l_local_ring ring) (MPSCRingBuffer.get_status fuel); Ret (UB_COMM_OK, Some s) in
  if negb status then Ret (- EINVAL, None) else
  if MAX_PRIORITY_LEVELS <=? prio then Ret (- EINVAL, None) else
  do me <- get l_cfg (fun g => current_node_id (conf_ g));
  if node_id =? me then
    do ring <- get l_loc (fun o => getZ 0 (local_rings_ o) prio);
    if ring =? 0 then Ret (UB_COMM_ERR_RING_NOT_FOUND, None) else answer ring
  else
    lock_shared ;;;
    do '(ret, ring) <- get_remote_ring node_id prio;
    unlock_shared ;;;
    if negb (ret =? UB_COMM_OK) then Ret (ret, None) else answer ring.

Definition broadcast_flow_config_update (prio threshold version : Z) : prog tworld unit :=
  do done <- get l_run init_complete_;
  do table <- get l_rem remote_lookup_table_;
  if negb done || bool_decide (table = []) then Ret tt else
  do g <- get l_cfg (fun g => g);
  for_each (idx_to_node_id_ g) (fun node =>
    if node =? current_node_id (conf_ g) then Ret tt else
    do _ <- send (Some (Message
      (Header 0 SIZEOF_FLOW_UPDATE (u8 node) (current_node_id (conf_ g)) MSG_TYPE_SYS_FLOW_CONFIG_UPDATE
         LOCK_RING_PRIORITY)
      (Some (encode_flow_update version threshold prio)))); Ret tt).

Definition set_congestion_threshold (prio percent : Z) : prog tworld Z :=
  if (prio =? LOCK_RING_PRIORITY) || (MAX_PRIORITY_LEVELS <=? prio) then Ret (- EINVAL) else
  do ring <- get l_loc (fun o => getZ 0 (local_rings_ o) prio);
  if ring =? 0 then Ret UB_COMM_ERR_RING_NOT_FOUND else
  do ret <- lift (l_local_ring ring) (MPSCRingBuffer.configure_congestion_threshold fuel percent);
  if negb (ret =? UB_COMM_OK) then Ret ret else
  do th <- lift (l_local_ring ring) MPSCRingBuffer.get_congestion_threshold;
  do v <- lift (l_local_ring ring) MPSCRingBuffer.get_congestion_threshold_version;
  broadcast_flow_config_update prio th v ;;;
  Ret UB_COMM_OK.

(** ** The whole initialisation, and the end *)

Definition init (init_area : option ub_shm_area_t) (ring_map : option ub_ring_region_map_t)
    (conf : option ub_comm_conf_t) : prog tworld res :=
  do id <- ask QExternal;
  upd l_run (with_instance (u64 id)) ;;;
  let area := default (Area 0 0) init_area in
  let m := default (RegionMap None 0) ring_map in
  check setup_config_and_validate init_area ring_map conf;
  check build_node_mapping m;
  check build_region_bases m;
  check check_memory_capacity area;
  check deep_copy_ring_descs;
  check init_thread_pool;
  do r <- create_local_rings;
  match r with
  | inl e => Ret e
  | inr offsets =>
      check publish_to_billboard offsets;
      do self <- load this;
      do _ <- register_func MSG_TYPE_SYS_PEER_EXIT UB_FUNC_SYNC cb_peer_exit self;
      do _ <- register_func MSG_TYPE_SYS_FLOW_CONFIG_UPDATE UB_FUNC_SYNC cb_flow_config_update self;
      start_reliability_threads ;;;
      wait_for_cluster_ready fuel ;;;
      preload_remote_table ;;;
      start_dispatcher ;;;
      upd l_run (with_complete true) ;;;
      Ret (Code 0)
  end.

Definition clear_billboard (g : config_part) : prog tworld unit :=
  let ptr := init_region_ptr_ g in
  let my_idx := compact_index g (current_node_id (conf_ g)) in
  for_each priorities (fun p => board_store ptr my_idx (set_offset p UINT64_MAX)) ;;;
  board_store ptr my_idx (set_initialized false) ;;;
  board_store ptr my_idx (set_hb_seq 0) ;;;
  board_store ptr my_idx (set_hb_interval 0) ;;;
  board_store ptr my_idx (set_pad 57005).

(** The thread id of the message is never set: its value comes from the environment. *)
Definition broadcast_exit (g : config_part) : prog tworld unit :=
  do garbage <- ask QExternal;
  for_each (zip (seqZ 0 (Z.of_nat (length (idx_to_node_id_ g)))) (idx_to_node_id_ g)) (fun n =>
    do known <- get l_rem (fun r => get2 0 (remote_lookup_table_ r) n.1 0);
    if (n.2 =? current_node_id (conf_ g)) || (known =? 0) then Ret tt else
    do _ <- send (Some (Message
      (Header (u64 garbage) 0 (u8 n.2) (current_node_id (conf_ g)) MSG_TYPE_SYS_PEER_EXIT 0) None)); Ret tt).

Definition deinit_and_broadcast : prog tworld unit :=
  upd l_run (with_stop true) ;;;
  join_thread fuel l_run dispatcher_thread_ with_dispatcher ;;;
  stop_reliability_threads fuel ;;;
  do complete <- get l_run init_complete_;
  (if complete : bool then
     do rings <- get l_loc local_rings_;
     for_each rings (fun a => if a =? 0 then Ret tt else
       lift (l_local_ring a) MPSCRingBuffer.trigger_force_full) ;;;
     do g <- get l_cfg (fun g => g);
     (if init_region_ptr_ g =? 0 then Ret tt else clear_billboard g) ;;;
     broadcast_exit g
   else Ret tt) ;;;
  do pool <- get l_run worker_pool_;
  match pool with
  | None => Ret tt
  | Some _ => ThreadPool.destroy l_worker_pool fuel ;;; upd l_run (with_pool None)
  end.
End Runtime.
End UBShmTransport.
