(* ===== verification/TransportInit.v ===== *)
(** Initialising a transport: the node mapping every process computes, the rings in their region,
    and the billboard through which the processes find each other's rings. *)

From Stdlib Require Import Sorting.Sorted.
From S2P Require Import Prelude Atomic CommTypes MPSCRing MPSCConc MPSCSeq ThreadPool Transport.
Import UBShmTransport.

#[global] Arguments index_map : simpl never.
#[global] Arguments POLL_ROUNDS : simpl never.

(** * The lenses of the instance *)

#[global] Instance l_shm_laws : LensLaws l_shm.
Proof. split; [done|done|by intros []]. Qed.
#[global] Instance l_cfg_laws : LensLaws l_cfg.
Proof. split; [done|done|by intros [? ? [] ? ?]]. Qed.
#[global] Instance l_loc_laws : LensLaws l_loc.
Proof. split; [done|done|by intros [? ? [] ? ?]]. Qed.
#[global] Instance l_rem_laws : LensLaws l_rem.
Proof. split; [done|done|by intros [? ? [] ? ?]]. Qed.
#[global] Instance l_hb_laws : LensLaws l_hb.
Proof. split; [done|done|by intros [? ? [] ? ?]]. Qed.
#[global] Instance l_run_laws : LensLaws l_run.
Proof. split; [done|done|by intros [? ? [] ? ?]]. Qed.

Lemma run_get {P B C} (l : lens tworld P) (f : P -> B) (k : B -> prog tworld C) env w :
  run (bind (get l f) k) env w = run (k (f (lget l w))) env w.
Proof. done. Qed.
Lemma run_upd {P C} (l : lens tworld P) (f : P -> P) (k : unit -> prog tworld C) env w :
  run (bind (upd l f) k) env w = run (k tt) env (lset l (f (lget l w)) w).
Proof. done. Qed.

(** * The node mapping *)

Lemma set_insert_elem x y l : x ∈ set_insert y l <-> x = y \/ x ∈ l.
Proof.
  induction l as [|z l IH]; cbn; [rewrite !elem_of_cons; tauto|]. case_bool; [rewrite !elem_of_cons; tauto|].
  case_bool; bool_to_prop; subst; rewrite !elem_of_cons; tauto.
Qed.

Lemma set_insert_sorted x l : StronglySorted Z.lt l -> StronglySorted Z.lt (set_insert x l).
Proof.
  induction 1 as [|y l Hs IH Hf]; cbn; [repeat constructor|]. case_bool; bool_to_prop.
  - constructor; [by constructor|]. constructor; [done|]. eapply Forall_impl; [exact Hf|]. cbn. lia.
  - case_bool; bool_to_prop; [by constructor|]. constructor; [done|]. apply Forall_forall. intros z Hz.
    apply set_insert_elem in Hz as [->|Hz]; [lia|]. by eapply Forall_forall in Hf.
Qed.

Lemma collect_ids_spec es l ids :
  collect_ids es l = Some ids -> StronglySorted Z.lt l ->
  StronglySorted Z.lt ids /\ (forall x, x ∈ ids <-> x ∈ l \/ x ∈ region_node <$> es) /\
  Forall (fun e => region_node e < MAX_NODES_LIMIT) es.
Proof.
  revert l. induction es as [|e es IH]; intros l Hc Hs; cbn in Hc.
  - injection Hc as <-. split; [done|]. split; [|constructor]. intros x. rewrite elem_of_nil. tauto.
  - case_bool; [done|]. bool_to_prop.
    destruct (IH _ Hc) as (H1 & H2 & H3); [by apply set_insert_sorted|].
    split; [done|]. split; [|by constructor]. intros x. rewrite H2, set_insert_elem. cbn. rewrite elem_of_cons. tauto.
Qed.

(** A strictly sorted list is determined by its elements. *)
Lemma sorted_unique (l1 l2 : list Z) :
  StronglySorted Z.lt l1 -> StronglySorted Z.lt l2 -> (forall x, x ∈ l1 <-> x ∈ l2) -> l1 = l2.
Proof.
  intros H1. revert l2. induction H1 as [|x l1 Hs IH Hf]; intros l2 H2 He.
  - destruct l2 as [|y l2]; [done|]. assert (Hy : y ∈ []) by (apply He; left). by apply elem_of_nil in Hy.
  - destruct H2 as [|y l2 Hs2 Hf2]; [assert (Hx : x ∈ []) by (apply He; left); by apply elem_of_nil in Hx|].
    assert (x = y) as <-.
    { assert (Hx : x ∈ y :: l2) by (apply He; left). assert (Hy : y ∈ x :: l1) by (apply He; left).
      apply elem_of_cons in Hx as [?|Hx]; [done|]. apply elem_of_cons in Hy as [?|Hy]; [done|].
      eapply Forall_forall in Hf; [|exact Hy]. eapply Forall_forall in Hf2; [|exact Hx]. lia. }
    f_equal. apply IH; [done|]. intros z. specialize (He z). rewrite !elem_of_cons in He.
    split; intros Hz.
    + assert (x < z) by (by eapply Forall_forall in Hf). destruct (proj1 He (or_intror Hz)); [lia|done].
    + assert (x < z) by (by eapply Forall_forall in Hf2). destruct (proj2 He (or_intror Hz)); [lia|done].
Qed.

Lemma sorted_nodup (l : list Z) : StronglySorted Z.lt l -> NoDup l.
Proof.
  induction 1 as [|x l Hs IH Hf]; constructor; [|done]. intros Hx.
  eapply Forall_forall in Hf; [|exact Hx]. lia.
Qed.

(** The table from ids to indices inverts the list. *)
Lemma index_map_app ids x :
  index_map (ids ++ [x]) = <[x := Z.of_nat (length ids)]> (index_map ids).
Proof.
  unfold index_map. rewrite length_app. cbn [length].
  replace (Z.of_nat (length ids + 1)) with (Z.of_nat (length ids) + 1) by lia.
  rewrite (seqZ_app 0 (Z.of_nat (length ids)) 1) by lia. rewrite foldl_app.
  assert (Hone : forall k, seqZ k 1 = [k]) by done.
  rewrite Hone. cbn [foldl]. rewrite Z.add_0_l.
  f_equal.
  - unfold getZ. rewrite Nat2Z.id, lookup_app_r, Nat.sub_diag by lia. done.
  - assert (Hext : forall js m, Forall (fun j => 0 <= j < Z.of_nat (length ids)) js ->
      foldl (fun m i => <[getZ 0 (ids ++ [x]) i := i]> m) m js =
      foldl (fun (m : gmap Z Z) i => <[getZ 0 ids i := i]> m) m js).
    { induction js as [|j js IH]; intros m Hj; [done|]. inversion Hj as [|? ? Hj0 Hj1]; subst. cbn.
      rewrite IH by done. f_equal. f_equal. unfold getZ. rewrite lookup_app_l by lia. done. }
    apply Hext. apply Forall_forall. intros j Hj%elem_of_seqZ. lia.
Qed.

Lemma index_map_spec ids id i :
  NoDup ids -> index_map ids !! id = Some i <-> 0 <= i /\ ids !! Z.to_nat i = Some id.
Proof.
  induction ids as [|x ids IH] using rev_ind; intros Hn.
  - split; [done|]. intros [_ H]. by rewrite lookup_nil in H.
  - apply NoDup_app in Hn as (Hn & Hx & _). rewrite index_map_app.
    assert (Hx' : forall j, ids !! j = Some x -> False).
    { intros j Hj. apply (Hx x); [by eapply list_elem_of_lookup_2|left]. }
    rewrite lookup_insert_Some, IH by done. split.
    + intros [[<- <-]|[Hne [Hi Hl]]].
      * split; [lia|]. rewrite Nat2Z.id, lookup_app_r, Nat.sub_diag by lia. done.
      * split; [done|]. by apply lookup_app_l_Some.
    + intros [Hi Hl]. apply lookup_app_Some in Hl as [Hl|[Hge Hl]].
      * right. split; [|done]. intros <-. by eapply Hx'.
      * left. destruct (Z.to_nat i - length ids)%nat as [|k] eqn:Ek; [|by destruct k].
        cbn in Hl. injection Hl as <-. split; [done|lia].
Qed.

(** A mapping between the ids of a cluster and its indices. *)
Definition wf_mapping (g : config_part) : Prop :=
  StronglySorted Z.lt (idx_to_node_id_ g) /\ node_id_to_idx_ g = index_map (idx_to_node_id_ g) /\
  Forall (fun id => 0 <= id < MAX_NODES_LIMIT) (idx_to_node_id_ g).

Lemma compact_index_spec g id i :
  wf_mapping g -> 0 <= i -> compact_index g id = i <-> idx_to_node_id_ g !! Z.to_nat i = Some id.
Proof.
  intros (Hs & Hm & _) Hi. unfold compact_index. rewrite Hm.
  pose proof (index_map_spec _ id i (sorted_nodup _ Hs)) as Hspec.
  destruct (index_map (idx_to_node_id_ g) !! id) as [j|] eqn:E; cbn.
  - split; [intros ->; by apply Hspec|]. intros Hl. assert (Some j = Some i) by (by apply Hspec). congruence.
  - split; [lia|]. intros Hl. assert (None = Some i) by (by apply Hspec). done.
Qed.

Lemma compact_index_known g id :
  wf_mapping g -> id ∈ idx_to_node_id_ g ->
  exists i, compact_index g id = i /\ 0 <= i < Z.of_nat (length (idx_to_node_id_ g)) /\
    idx_to_node_id_ g !! Z.to_nat i = Some id.
Proof.
  intros Hg (k & Hk)%list_elem_of_lookup. exists (Z.of_nat k).
  assert (Hl := lookup_lt_Some _ _ _ Hk). assert (Hc := compact_index_spec g id (Z.of_nat k) Hg).
  rewrite Nat2Z.id in *. split; [apply Hc; [lia|done]|]. split; [lia|done].
Qed.

Lemma compact_index_unknown g id : wf_mapping g -> id ∉ idx_to_node_id_ g -> compact_index g id = -1.
Proof.
  intros Hg Hid. unfold compact_index. destruct (node_id_to_idx_ g !! id) as [j|] eqn:E; [|done].
  destruct Hg as (Hs & Hm & _). rewrite Hm in E. apply index_map_spec in E; [|by apply sorted_nodup].
  destruct Hid. by eapply list_elem_of_lookup_2, E.
Qed.

Lemma build_node_mapping_ok m w w' env :
  run (build_node_mapping m) env w = (Some (Code 0), env, w') ->
  exists ids, collect_ids (map_regions m) [] = Some ids /\
    Z.of_nat (length ids) = max_nodes (conf_ (t_cfg (obj w))) /\
    is_Some (index_map ids !! current_node_id (conf_ (t_cfg (obj w)))) /\
    w' = lset l_cfg (with_mapping (index_map ids) ids (t_cfg (obj w))) w.
Proof.
  unfold build_node_mapping. destruct (collect_ids (map_regions m) []) as [ids|]; [|done].
  rewrite run_get. intros Hr. destruct ((_ <? _) || _) eqn:E; [done|]. bool_to_prop.
  rewrite run_upd, run_get in Hr. cbn in Hr. exists ids. injection Hr as Hc <-.
  destruct (bool_decide _) eqn:Eb; [|done]. apply bool_decide_eq_true in Eb. by split_and!.
Qed.

(** * The properties of the mapping *)

(** C21: the node mapping.  When [build_node_mapping] accepts a ring map, the compact indices number the node
    ids of the map in increasing order without gaps: the index of an id is the position of the id in
    [idx_to_node_id_], an unknown id has none, the number of nodes is the configured one, and
    the current node is among them.  The result depends only on which ids the map mentions: two
    processes whose maps list the same nodes, in whatever order and with whatever repetitions, agree on every index. *)
Theorem node_mapping_agrees m w w' env :
  Forall (fun e => 0 <= region_node e) (map_regions m) ->
  run (build_node_mapping m) env w = (Some (Code 0), env, w') ->
  let g := t_cfg (obj w') in
  (wf_mapping g /\ (forall id, id ∈ idx_to_node_id_ g <-> id ∈ region_node <$> map_regions m) /\
   Z.of_nat (length (idx_to_node_id_ g)) = max_nodes (conf_ g) /\ current_node_id (conf_ g) ∈ idx_to_node_id_ g) /\
  (forall id i, 0 <= i -> compact_index g id = i <-> idx_to_node_id_ g !! Z.to_nat i = Some id) /\
  (forall id, id ∉ idx_to_node_id_ g -> compact_index g id = -1) /\
  (forall m2 w2 w2' env2, run (build_node_mapping m2) env2 w2 = (Some (Code 0), env2, w2') ->
    (forall id, id ∈ region_node <$> map_regions m <-> id ∈ region_node <$> map_regions m2) ->
    forall id, compact_index (t_cfg (obj w2')) id = compact_index g id).
Proof.
  intros Hpos Hr g. destruct (build_node_mapping_ok _ _ _ _ Hr) as (ids & Hc & Hn & Hcur & ->).
  destruct (collect_ids_spec _ _ _ Hc) as (Hs & He & Hlim); [constructor|].
  assert (He' : forall x, x ∈ ids <-> x ∈ region_node <$> map_regions m).
  { intros x. rewrite He, elem_of_nil. tauto. }
  assert (Hg : wf_mapping g).
  { split; [done|]. split; [done|]. apply Forall_forall. intros x Hx. cbn in Hx.
    apply He', list_elem_of_fmap in Hx as (e & -> & Hx). rewrite Forall_forall in Hpos, Hlim. auto. }
  split_and!; [done|done|done| |by intros; apply compact_index_spec|by intros; apply compact_index_unknown|].
  - cbn. destruct Hcur as [i Hi]. apply index_map_spec in Hi; [|by apply sorted_nodup].
    by eapply list_elem_of_lookup_2, Hi.
  - intros m2 w2 w2' env2 Hr2 Hsame id.
    destruct (build_node_mapping_ok _ _ _ _ Hr2) as (ids2 & Hc2 & _ & _ & ->).
    destruct (collect_ids_spec _ _ _ Hc2) as (Hs2 & He2 & _); [constructor|].
    assert (ids2 = ids) as ->; [|done]. apply sorted_unique; [done|done|]. intros x.
    rewrite He2, elem_of_nil, He', Hsame. tauto.
Qed.

(** Two nodes, listed in either order. *)
Definition demo_regions (ids : list Z) : ub_ring_region_map_t :=
  RegionMap (Some ((fun i => RegionInfo (Area 2000000 (1048576 * (i + 1))) i) <$> ids)) (Z.of_nat (length ids)).
Definition demo_conf (me : Z) : ub_comm_conf_t := Conf (-1) 2 me 1 (Some [RingDesc 4 64 3]).
Definition demo_tls0 : consumer_tls := ConsumerTls 0 (replicate 32 MPSCRingBuffer.no_state).
Definition demo_fresh (m : shared_mem) (me : Z) : tworld :=
  lset l_cfg (with_conf (demo_conf me) (t_cfg (new_transport 8))) (TWorld m 1 (new_transport 8) demo_tls0 []).
Definition demo_mem : shared_mem := Shared {[64 := replicate 16 no_board]} ∅ ∅.

Lemma node_mapping_agrees_witness :
  let w1 := (run (build_node_mapping (demo_regions [5; 2])) [] (demo_fresh demo_mem 5)).2 in
  let w2 := (run (build_node_mapping (demo_regions [2; 5])) [] (demo_fresh demo_mem 2)).2 in
  idx_to_node_id_ (t_cfg (obj w1)) = [2; 5] /\
  forall id, compact_index (t_cfg (obj w2)) id = compact_index (t_cfg (obj w1)) id.
Proof.
  intros w1 w2. split; [reflexivity|].
  apply (proj2 (proj2 (proj2 (node_mapping_agrees (demo_regions [5; 2]) (demo_fresh demo_mem 5) w1 []
    ltac:(repeat constructor; cbn; lia) eq_refl))) (demo_regions [2; 5]) (demo_fresh demo_mem 2) w2 [] eq_refl).
  intros id. change (id ∈ [5; 2] <-> id ∈ [2; 5]). rewrite !elem_of_cons. tauto.
Defined.

(** * The rings of a node *)

(** The descriptors of all the rings a node creates, the built-in one first. *)
Definition lock_desc : ub_ring_desc_t := RingDesc LOCK_RING_CAPACITY LOCK_RING_MSG_SIZE LOCK_RING_PRIORITY.
Definition all_descs (c : ub_comm_conf_t) : list ub_ring_desc_t := lock_desc :: conf_descs c.
Definition ring_bytes (d : ub_ring_desc_t) : Z := CalculateMemorySize (ring_capacity d) (ring_max_msg_size d).

(** The rings one behind another from address [a], each on a cache line. *)
Fixpoint layout (a : Z) (ds : list ub_ring_desc_t) : list (ub_ring_desc_t * Z) :=
  match ds with
  | [] => []
  | d :: ds' => let s := a + pad_to_line a in (d, s) :: layout (s + ring_bytes d) ds'
  end.
Fixpoint layout_end (a : Z) (ds : list ub_ring_desc_t) : Z :=
  match ds with [] => a | d :: ds' => layout_end (a + pad_to_line a + ring_bytes d) ds' end.

Definition desc_fits (d : ub_ring_desc_t) : Prop :=
  0 <= ring_capacity d < 2 ^ 32 /\ 0 <= ring_max_msg_size d < 2 ^ 32 /\ 0 <= ring_priority d < 256.

Lemma pad_range a : 0 <= pad_to_line a < 64.
Proof. unfold pad_to_line, CACHELINE_SIZE. apply Z.mod_pos_bound. lia. Qed.

Lemma pad_aligns a : (a + pad_to_line a) mod 64 = 0.
Proof.
  unfold pad_to_line, CACHELINE_SIZE. rewrite Zplus_mod_idemp_r.
  replace (a + (64 - a mod 64)) with (64 * (a / 64 + 1)) by (pose proof (Z.div_mod a 64); lia).
  rewrite Z.mul_comm. apply Z.mod_mul. lia.
Qed.

Lemma pow2_capacity d :
  desc_fits d -> desc_valid d = true -> is_pow2 (ring_capacity d).
Proof.
  intros (Hc & _) Hv. unfold desc_valid in Hv. bool_to_prop. rewrite u32_small in * by lia.
  apply land_pred_pow2; [lia|done].
Qed.

(** The size of a ring is computed without wrapping. *)
Lemma ring_bytes_exact capacity max_size :
  is_pow2 capacity -> capacity < 2 ^ 32 -> 0 <= max_size < 2 ^ 32 ->
  CalculateMemorySize capacity max_size = 192 + align_entry (SIZEOF_ENTRY + max_size) * capacity /\
  192 < CalculateMemorySize capacity max_size.
Proof.
  intros Hp Hc Hm. assert (Hh := pow2_half _ Hp Hc). assert (H0 := is_pow2_pos _ Hp).
  assert (Ha : 8 <= align_entry (SIZEOF_ENTRY + max_size) <= 2 ^ 32 + 71).
  { unfold align_entry, SIZEOF_ENTRY, CACHELINE_SIZE. pose proof (Z.mod_pos_bound (8 + max_size) 64). case_bool; lia. }
  unfold CalculateMemorySize. change GetDataOffset with 192.
  assert (Hb : 0 < align_entry (SIZEOF_ENTRY + max_size) * capacity <= (2 ^ 32 + 71) * 2 ^ 31) by nia.
  rewrite (u64_small (_ * _)) by lia. rewrite u64_small by lia. lia.
Qed.

Lemma ring_bytes_nonneg d : 0 <= ring_bytes d.
Proof. apply u64_bound. Qed.

Lemma layout_mono a ds : a <= layout_end a ds.
Proof.
  revert a. induction ds as [|d ds IH]; intros a; cbn; [lia|].
  pose proof (pad_range a). pose proof (ring_bytes_nonneg d). specialize (IH (a + pad_to_line a + ring_bytes d)). lia.
Qed.

Lemma layout_start a ds d s : (d, s) ∈ layout a ds -> a <= s /\ s + ring_bytes d <= layout_end a ds /\ s mod 64 = 0.
Proof.
  revert a. induction ds as [|d' ds IH]; intros a Hin; cbn in Hin; [by apply elem_of_nil in Hin|].
  pose proof (pad_range a). cbn. apply elem_of_cons in Hin as [He|Hin].
  - injection He as -> ->. pose proof (layout_mono (a + pad_to_line a + ring_bytes d') ds).
    split_and!; [lia|lia|apply pad_aligns].
  - apply IH in Hin as (? & ? & ?). pose proof (ring_bytes_nonneg d'). lia.
Qed.

(** Two rings of a layout do not overlap. *)
Lemma layout_disjoint a ds i j d1 s1 d2 s2 :
  layout a ds !! i = Some (d1, s1) -> layout a ds !! j = Some (d2, s2) -> (i < j)%nat -> s1 + ring_bytes d1 <= s2.
Proof.
  revert a i j. induction ds as [|d ds IH]; intros a i j Hi Hj Hlt; [done|]. cbn in Hi, Hj.
  destruct j as [|j]; [lia|]. cbn in Hj. destruct i as [|i]; cbn in Hi.
  - injection Hi as -> <-. apply list_elem_of_lookup_2, layout_start in Hj. lia.
  - apply (IH _ i j Hi Hj). lia.
Qed.

(** The capacity check computes the end of the layout when nothing wraps. *)
Lemma reserve_all_layout ds tot a tot' a' :
  reserve_all ds (tot, a) = Some (tot', a') -> Forall desc_fits ds ->
  0 <= tot -> tot <= a -> layout_end a ds < 2 ^ 64 ->
  tot' = tot + (layout_end a ds - a) /\ Forall (fun d => desc_valid d = true) ds.
Proof.
  revert tot a. induction ds as [|d ds IH]; intros tot a Hr Hf Ht Ha He; cbn in Hr, He.
  - injection Hr as <- <-. cbn. split; [lia|constructor].
  - destruct (desc_valid d) eqn:Ev; [|done]. inversion Hf as [|? ? Hd Hf']; subst.
    pose proof (pad_range a). pose proof (ring_bytes_nonneg d). pose proof (layout_mono (a + pad_to_line a + ring_bytes d) ds).
    unfold reserve in Hr. cbn in Hr. fold (ring_bytes d) in Hr.
    rewrite (u64_small (pad_to_line a + ring_bytes d)) in Hr by lia.
    rewrite (u64_small (tot + _)), (u64_small (a + _)) in Hr by lia.
    rewrite (Z.add_assoc a) in Hr. destruct (IH _ _ Hr Hf') as [-> Hv]; [lia|lia|done|].
    cbn. split; [lia|by constructor].
Qed.

(** ** Creating them *)

#[local] Abbreviation lrings w := (local_rings_ (t_loc (obj w))).
#[local] Abbreviation lactive w := (local_active_priorities_ (t_loc (obj w))).

(** One ring: the state it leaves. *)
Lemma place_ring_ok offs a prio capacity max_size env w t' env' w' :
  run (place_ring (offs, a) prio capacity max_size) env w = (Some (inr t'), env', w') ->
  0 <= a -> a + pad_to_line a < 2 ^ 64 ->
  exists raw r, let s := a + pad_to_line a in
    make_ring raw capacity max_size = Some r /\
    t' = (setZ offs prio (u64 (s - ring_region_ptr_ (t_cfg (obj w)))), u64 (s + CalculateMemorySize capacity max_size)) /\
    env' = env /\ t_cfg (obj w') = t_cfg (obj w) /\ boards (shm w') = boards (shm w) /\
    rings (shm w') = <[s := r]> (rings (shm w)) /\ lrings w' = setZ (lrings w) prio s /\
    lactive w' = lactive w ++ [prio].
Proof.
  intros Hr Ha Hb. pose proof (pad_range a). unfold place_ring in Hr. cbn [snd fst] in Hr. rewrite run_get in Hr.
  rewrite (u64_small (a + _)) in Hr by lia.
  destruct (make_ring _ capacity max_size) as [r|] eqn:Em; [|done].
  rewrite !run_upd, run_get, run_upd in Hr. cbn in Hr. exists (default [] (raw_mem (shm w) !! (a + pad_to_line a))), r.
  injection Hr as <- <- <-. cbn. case_bool; cbn; done.
Qed.

Lemma make_ring_bytes raw capacity max_size r :
  make_ring raw capacity max_size = Some r -> 0 <= capacity < 2 ^ 32 -> 0 <= max_size < 2 ^ 32 ->
  192 < CalculateMemorySize capacity max_size.
Proof.
  intros Hm Hc Hx. destruct (make_ring_spec _ _ _ _ Hm Hc Hx) as (Hg & Hn & _).
  apply ring_bytes_exact; [rewrite <- Hn; apply Hg|lia|done].
Qed.

(** What creating the rings [ds] from address [a] leaves: each is where the layout puts it, the other
    priorities and the memory before [a] are untouched. *)
Record rings_placed (base a : Z) (ds : list ub_ring_desc_t) (offs offs' : list Z) (w w' : tworld) : Prop := {
  rp_len : length (lrings w') = 8%nat /\ length offs' = 8%nat;
  rp_cfg : t_cfg (obj w') = t_cfg (obj w) /\ boards (shm w') = boards (shm w);
  rp_ring : forall d s, (d, s) ∈ layout a ds ->
    getZ 0 (lrings w') (ring_priority d) = s /\ getZ UINT64_MAX offs' (ring_priority d) = s - base /\
    exists raw r, make_ring raw (ring_capacity d) (ring_max_msg_size d) = Some r /\ rings (shm w') !! s = Some r;
  rp_rest : forall p, 0 <= p -> p ∉ ring_priority <$> ds ->
    getZ 0 (lrings w') p = getZ 0 (lrings w) p /\ getZ UINT64_MAX offs' p = getZ UINT64_MAX offs p;
  rp_below : forall x, x < a -> rings (shm w') !! x = rings (shm w) !! x;
  rp_active : lactive w' = lactive w ++ (ring_priority <$> ds);
  rp_nodup : NoDup (ring_priority <$> ds);
  rp_fresh : forall d, d ∈ ds -> ring_priority d ∉ lactive w }.

(** One more ring in front. *)
Lemma rings_placed_cons base a d ds offs offs' w w1 w' raw r :
  let s := a + pad_to_line a in
  make_ring raw (ring_capacity d) (ring_max_msg_size d) = Some r -> desc_fits d ->
  0 <= ring_priority d < 8 -> ring_priority d ∉ lactive w ->
  length (lrings w) = 8%nat -> length offs = 8%nat ->
  t_cfg (obj w1) = t_cfg (obj w) -> boards (shm w1) = boards (shm w) ->
  rings (shm w1) = <[s := r]> (rings (shm w)) -> lrings w1 = setZ (lrings w) (ring_priority d) s ->
  lactive w1 = lactive w ++ [ring_priority d] ->
  rings_placed base (s + ring_bytes d) ds (setZ offs (ring_priority d) (s - base)) offs' w1 w' ->
  rings_placed base a (d :: ds) offs offs' w w'.
Proof.
  intros s Hm (Hc & Hx & _) Hp Hfr Hl1 Hl2 Hcfg Hb Hr Hl Ha []. pose proof (pad_range a).
  pose proof (make_ring_bytes _ _ _ _ Hm Hc Hx) as Hbytes. fold (ring_bytes d) in Hbytes.
  assert (Hnd : ring_priority d ∉ ring_priority <$> ds).
  { intros (d' & He & Hd')%list_elem_of_fmap. apply (rp_fresh0 d' Hd'). rewrite Ha, <- He.
    apply elem_of_app. right. left. }
  constructor.
  - done.
  - by rewrite <- Hcfg, <- Hb.
  - intros d' s' Hin. cbn in Hin. fold s in Hin. apply elem_of_cons in Hin as [He|Hin]; [|by apply rp_ring0].
    injection He as -> ->. destruct (rp_rest0 (ring_priority d)) as [H1 H2]; [lia|done|].
    rewrite H1, H2, Hl, !getZ_setZ_eq by lia. split_and!; [done|done|]. exists raw, r.
    split; [done|]. rewrite rp_below0, Hr by lia. apply lookup_insert_eq.
  - intros p Hp0 Hnp. cbn in Hnp. apply not_elem_of_cons in Hnp as [Hne Hnp].
    destruct (rp_rest0 p Hp0 Hnp) as [-> ->]. rewrite Hl, !getZ_setZ_ne by lia. done.
  - intros x Hxa. rewrite rp_below0, Hr, lookup_insert_ne by lia. done.
  - rewrite rp_active0, Ha. cbn. by rewrite <- (assoc_L (++)).
  - by apply NoDup_cons.
  - intros d' Hd'. apply elem_of_cons in Hd' as [->|Hd']; [done|]. intros Hin.
    apply (rp_fresh0 d' Hd'). rewrite Ha. apply elem_of_app. by left.
Qed.

Lemma place_rings_ok ds offs a env w offs' env' w' :
  let base := ring_region_ptr_ (t_cfg (obj w)) in
  run (place_rings ds (offs, a)) env w = (Some (inr offs'), env', w') ->
  0 <= base <= a -> layout_end a ds < 2 ^ 64 -> length (lrings w) = 8%nat -> length offs = 8%nat ->
  Forall desc_fits ds -> rings_placed base a ds offs offs' w w'.
Proof.
  revert offs a w. induction ds as [|d ds IH]; intros offs a w base Hr Hb He Hl1 Hl2 Hf.
  - cbn [place_rings] in Hr. rewrite run_upd in Hr. cbn in Hr. injection Hr as <- _ <-.
    split; cbn; try done; [by intros d s Hin; apply elem_of_nil in Hin|by rewrite app_nil_r|constructor|].
    by intros d Hin; apply elem_of_nil in Hin.
  - cbn [place_rings] in Hr. destruct ((_ =? 0) || _) eqn:Ep; [done|]. bool_to_prop. rewrite run_get in Hr.
    destruct (bool_decide _) eqn:Ed; [done|]. apply bool_decide_eq_false in Ed. rewrite run_bind in Hr.
    destruct (run (place_ring _ _ _ _) env w) as [[[[e|[offs1 a1]]|] env1] w1] eqn:E1; [done| |done].
    inversion Hf as [|? ? Hd Hf']; subst. cbn in He. pose proof (pad_range a). pose proof (ring_bytes_nonneg d).
    pose proof (layout_mono (a + pad_to_line a + ring_bytes d) ds).
    destruct (place_ring_ok _ _ _ _ _ _ _ _ _ _ E1) as (raw & r & Hm & Ht & -> & Hc & Hbo & Hri & Hlr & Hac); [lia|lia|].
    fold (ring_bytes d) in Ht. fold base in Ht. rewrite !u64_small in Ht by lia. injection Ht as -> ->.
    unfold MAX_PRIORITY_LEVELS in *. destruct Hd as (? & ? & ?).
    apply (rings_placed_cons base a d ds offs offs' w w1 w' raw r); try done; [lia|].
    specialize (IH (setZ offs (ring_priority d) (a + pad_to_line a - base)) (a + pad_to_line a + ring_bytes d) w1).
    cbv zeta in IH. rewrite Hc in IH. fold base in IH.
    apply IH; [exact Hr|lia|lia|by rewrite Hlr, length_setZ|by rewrite length_setZ|done].
Qed.

Lemma create_local_rings_ok env w offs' env' w' :
  let g := t_cfg (obj w) in
  run create_local_rings env w = (Some (inr offs'), env', w') ->
  t_loc (obj w) = LocalPart (replicate 8 0) [] 0 -> 0 <= ring_region_ptr_ g ->
  layout_end (ring_region_ptr_ g) (all_descs (conf_ g)) < 2 ^ 64 -> Forall desc_fits (conf_descs (conf_ g)) ->
  rings_placed (ring_region_ptr_ g) (ring_region_ptr_ g) (all_descs (conf_ g)) (replicate 8 UINT64_MAX) offs' w w'.
Proof.
  intros g Hr Hl Hb He Hf. unfold create_local_rings in Hr. rewrite run_get, run_upd, run_bind in Hr. cbn [lget l_cfg] in Hr. fold g in Hr.
  set (w0 := lset l_loc _ w) in Hr. assert (Hw0 : lrings w0 = replicate 8 0 /\ lactive w0 = []) by (cbn; by rewrite Hl).
  destruct Hw0 as [Hw1 Hw2]. destruct (run (place_ring _ _ _ _) env w0) as [[[[e|[offs1 a1]]|] env1] w1] eqn:E1; [done| |done].
  cbn in He. fold (all_descs (conf_ g)) in He. set (base := ring_region_ptr_ g) in *.
  pose proof (pad_range base). pose proof (ring_bytes_nonneg lock_desc).
  pose proof (layout_mono (base + pad_to_line base + ring_bytes lock_desc) (conf_descs (conf_ g))).
  destruct (place_ring_ok _ _ _ _ _ _ _ _ _ _ E1) as (raw & r & Hm & Ht & -> & Hc & Hbo & Hri & Hlr & Hac); [lia|lia|].
  change (CalculateMemorySize LOCK_RING_CAPACITY LOCK_RING_MSG_SIZE) with (ring_bytes lock_desc) in Ht.
  change (ring_region_ptr_ (t_cfg (obj w0))) with base in Ht. rewrite !u64_small in Ht by lia. injection Ht as -> ->.
  assert (HR : rings_placed base (base + pad_to_line base + ring_bytes lock_desc) (conf_descs (conf_ g))
    (setZ (replicate 8 UINT64_MAX) (ring_priority lock_desc) (base + pad_to_line base - base)) offs' w1 w').
  { rewrite run_get in Hr. cbn [lget l_cfg] in Hr. rewrite Hc in Hr.
    pose proof (place_rings_ok _ _ _ _ _ _ _ _ Hr) as HR. cbv zeta in HR. rewrite Hc in HR.
    apply HR; [change (ring_region_ptr_ (t_cfg (obj w0))) with base; lia|done| |by rewrite length_setZ|done].
    by rewrite Hlr, Hw1, length_setZ. }
  assert (HX : rings_placed base base (all_descs (conf_ g)) (replicate 8 UINT64_MAX) offs' w0 w').
  { apply (rings_placed_cons base base lock_desc _ (replicate 8 UINT64_MAX) offs' w0 w1 w' raw r Hm); try done.
    - rewrite Hw2. apply not_elem_of_nil.
    - by rewrite Hw1. }
  by destruct HX.
Qed.

Lemma layout_lookup a ds i d : ds !! i = Some d -> exists s, layout a ds !! i = Some (d, s).
Proof.
  revert a i. induction ds as [|d' ds IH]; intros a i Hi; [done|]. destruct i as [|i]; cbn in *.
  - injection Hi as ->. by eexists.
  - by apply IH.
Qed.

(** Two rings of different priorities are two rings of the layout. *)
Lemma layout_apart a ds d1 s1 d2 s2 :
  (d1, s1) ∈ layout a ds -> (d2, s2) ∈ layout a ds -> ring_priority d1 <> ring_priority d2 ->
  s1 + ring_bytes d1 <= s2 \/ s2 + ring_bytes d2 <= s1.
Proof.
  intros (i & Hi)%list_elem_of_lookup (j & Hj)%list_elem_of_lookup Hne.
  destruct (decide (i < j)%nat); [left; by eapply layout_disjoint|].
  destruct (decide (j < i)%nat); [right; by eapply layout_disjoint|].
  assert (i = j) by lia. congruence.
Qed.


(** C20: the rings stay in their region.  If the capacity check accepts the configuration and the rings are
    created, then each of them (the built-in lock ring too) starts on a cache line, lies inside the
    region of this node, is constructed there with its own capacity and message size, and has
    its offset recorded under its priority; rings of different priorities do not overlap, no priority is used
    twice, and the other priorities have no ring.  This holds for every configuration
    whose rings end below the end of the address space ([capacity_check_wraps] shows that this is needed). *)
Theorem rings_inside_region area env w offs env' w' :
  let g := t_cfg (obj w) in
  let base := ring_region_ptr_ g in
  let ds := all_descs (conf_ g) in
  let limit := getZ 0 (region_sizes_ g) (compact_index g (current_node_id (conf_ g))) in
  let at_ d := getZ 0 (local_rings_ (t_loc (obj w'))) (ring_priority d) in
  run (check_memory_capacity area) env w = (Some (Code UB_COMM_OK), env, w) ->
  run create_local_rings env w = (Some (inr offs), env', w') ->
  t_loc (obj w) = LocalPart (replicate 8 0) [] 0 -> 0 <= base ->
  Forall desc_fits (conf_descs (conf_ g)) -> layout_end base ds < 2 ^ 64 ->
  (forall d, d ∈ ds -> at_ d mod CACHELINE_SIZE = 0 /\ base <= at_ d /\ at_ d + ring_bytes d <= base + limit /\
     getZ UINT64_MAX offs (ring_priority d) = at_ d - base /\
     exists raw r, make_ring raw (ring_capacity d) (ring_max_msg_size d) = Some r /\ rings (shm w') !! at_ d = Some r) /\
  (forall d1 d2, d1 ∈ ds -> d2 ∈ ds -> ring_priority d1 <> ring_priority d2 ->
     at_ d1 + ring_bytes d1 <= at_ d2 \/ at_ d2 + ring_bytes d2 <= at_ d1) /\
  NoDup (ring_priority <$> ds) /\
  (forall p, 0 <= p < 8 -> p ∉ ring_priority <$> ds ->
     getZ 0 (local_rings_ (t_loc (obj w'))) p = 0 /\ getZ UINT64_MAX offs p = UINT64_MAX).
Proof.
  intros g base ds limit at_ Hchk Hcr Hl Hb Hf He.
  destruct (create_local_rings_ok _ _ _ _ _ Hcr Hl Hb He Hf) as [_ _ Hring Hrest _ _ Hnd _].
  assert (Hlim : layout_end base ds <= base + limit).
  { unfold check_memory_capacity in Hchk. destruct (_ <? _); [done|]. rewrite run_get in Hchk.
    cbn [lget l_cfg] in Hchk. fold g base limit in Hchk.
    assert (Hlen := layout_mono (base + pad_to_line base + ring_bytes lock_desc) (conf_descs (conf_ g))).
    change (layout_end _ (conf_descs (conf_ g))) with (layout_end base ds) in Hlen.
    pose proof (pad_range base). pose proof (ring_bytes_nonneg lock_desc).
    change (reserve (0, base) LOCK_RING_CAPACITY LOCK_RING_MSG_SIZE) with
      (u64 (0 + u64 (pad_to_line base + ring_bytes lock_desc)), u64 (base + u64 (pad_to_line base + ring_bytes lock_desc))) in Hchk.
    rewrite (u64_small (pad_to_line base + _)) in Hchk by lia. rewrite !u64_small in Hchk by lia.
    rewrite Z.add_assoc in Hchk. rewrite Z.add_assoc in Hchk.
    destruct (reserve_all _ _) as [[tot a]|] eqn:Er; [|done].
    apply reserve_all_layout in Er as [-> _]; [|done|lia|lia|done]. cbn in Hchk.
    change (layout_end _ (conf_descs (conf_ g))) with (layout_end base ds) in Hchk.
    destruct (limit <? _) eqn:El; [done|]. bool_to_prop. lia. }
  assert (Hat : forall d, d ∈ ds -> exists s, (d, s) ∈ layout base ds /\ at_ d = s).
  { intros d (i & Hi)%list_elem_of_lookup. destruct (layout_lookup base ds i d Hi) as [s Hs].
    exists s. assert (Hin : (d, s) ∈ layout base ds) by (by eapply list_elem_of_lookup_2). split; [done|].
    by apply Hring. }
  split_and!.
  - intros d Hd. destruct (Hat d Hd) as (s & Hin & Hs). destruct (Hring d s Hin) as (_ & Ho & Hr).
    destruct (layout_start _ _ _ _ Hin) as (? & ? & ?). rewrite Hs. split_and!; [done|lia|lia|done|done].
  - intros d1 d2 H1 H2 Hne. destruct (Hat d1 H1) as (s1 & Hi1 & ->). destruct (Hat d2 H2) as (s2 & Hi2 & ->).
    by eapply layout_apart.
  - done.
  - intros p Hp Hnp. destruct (Hrest p) as [-> ->]; [lia|done|]. rewrite Hl. cbn [local_rings_].
    rewrite !getZ_replicate by lia. done.
Qed.

(** The instance of a node when its rings are about to be created. *)
Definition demo_area : ub_shm_area_t := Area 4096 64.
Definition demo_sized (ids : list Z) (me : Z) : tworld :=
  (run (build_node_mapping (demo_regions ids) ;;; build_region_bases (demo_regions ids)) []
     (demo_fresh demo_mem me)).2.

Lemma rings_inside_region_witness :
  let w := demo_sized [5; 2] 5 in
  let w' := (run create_local_rings [] w).2 in
  let lock := getZ 0 (local_rings_ (t_loc (obj w'))) 0 in
  let user := getZ 0 (local_rings_ (t_loc (obj w'))) 3 in
  6291456 <= lock /\ lock + 786624 <= user /\ user + 704 <= 6291456 + 2000000.
Proof.
  intros w w' lock user.
  destruct (rings_inside_region demo_area [] w [0; UINT64_MAX; UINT64_MAX; 786624; UINT64_MAX; UINT64_MAX; UINT64_MAX; UINT64_MAX]
    [] w') as (Hin & Hdis & _).
  - vm_compute. reflexivity.
  - apply (run_final create_local_rings [] w). vm_compute. reflexivity.
  - reflexivity.
  - vm_compute. done.
  - repeat constructor; vm_compute; try done; discriminate.
  - vm_compute. reflexivity.
  - assert (Hl := Hin lock_desc ltac:(left)). assert (Hu := Hin (RingDesc 4 64 3) ltac:(right; left)).
    split; [apply Hl|]. split; [|apply Hu]. vm_compute. discriminate.
Defined.

(** ** A check that wraps *)

Lemma reserve_aligned tot a d :
  a mod 64 = 0 -> ring_bytes d mod 64 = 0 ->
  reserve (tot, a) (ring_capacity d) (ring_max_msg_size d) = (u64 (tot + ring_bytes d), u64 (a + ring_bytes d)) /\
  u64 (a + ring_bytes d) mod 64 = 0.
Proof.
  intros Ha Hd. unfold reserve. cbn [fst snd]. fold (ring_bytes d).
  replace (pad_to_line a) with 0 by (unfold pad_to_line, CACHELINE_SIZE; by rewrite Ha).
  rewrite Z.add_0_l. unfold u64 at 2 4. split.
  - f_equal; unfold u64, wrap; by rewrite Zplus_mod_idemp_r.
  - unfold u64, wrap. rewrite Z.mod_mod_divide by (by exists (2 ^ 58)). by rewrite Z.add_mod, Ha, Hd by lia.
Qed.

Definition huge_desc (p : Z) : ub_ring_desc_t := RingDesc (2 ^ 31) (2 ^ 32 - 8) p.

(** The capacity check can be deceived.  Two rings with 2^31 entries of 2^32 bytes need more than 2^64
    bytes; the sum of the sizes wraps around, and a region of 787008 bytes passes the check, although the first
    of the two rings alone is larger than 2^63 bytes.  The rings would then be constructed far outside
    the region. *)
Theorem capacity_check_wraps area env w :
  let g := t_cfg (obj w) in
  SIZEOF_BILLBOARD <= area_size area -> ring_region_ptr_ g mod CACHELINE_SIZE = 0 ->
  conf_descs (conf_ g) = [huge_desc 1; huge_desc 2] ->
  787008 <= getZ 0 (region_sizes_ g) (compact_index g (current_node_id (conf_ g))) ->
  run (check_memory_capacity area) env w = (Some (Code UB_COMM_OK), env, w) /\
  2 ^ 63 < ring_bytes (huge_desc 1).
Proof.
  intros g Ha Hb Hd Hl. split; [|vm_compute; done].
  unfold check_memory_capacity. rewrite (proj2 (Z.ltb_ge _ _) Ha), run_get. cbn [lget l_cfg]. fold g.
  rewrite Hd. unfold CACHELINE_SIZE in Hb.
  destruct (reserve_aligned 0 (ring_region_ptr_ g) lock_desc Hb eq_refl) as [E1 H1].
  change (ring_capacity lock_desc) with LOCK_RING_CAPACITY in E1.
  change (ring_max_msg_size lock_desc) with LOCK_RING_MSG_SIZE in E1. rewrite E1. cbn [reserve_all].
  change (desc_valid (huge_desc 1)) with true. change (desc_valid (huge_desc 2)) with true. cbv iota.
  destruct (reserve_aligned (u64 (0 + ring_bytes lock_desc)) _ (huge_desc 1) H1 eq_refl) as [-> H2].
  destruct (reserve_aligned (u64 (u64 (0 + ring_bytes lock_desc) + ring_bytes (huge_desc 1))) _ (huge_desc 2) H2 eq_refl) as [-> _].
  cbn [fst]. change (u64 (u64 (u64 _ + _) + _)) with 787008.
  rewrite (proj2 (Z.ltb_ge _ _) Hl). reflexivity.
Qed.

Lemma capacity_check_wraps_witness :
  let c := Conf (-1) 2 5 2 (Some [huge_desc 1; huge_desc 2]) in
  let w := lset l_cfg (with_conf c (t_cfg (obj (demo_sized [5; 2] 5)))) (demo_sized [5; 2] 5) in
  run (check_memory_capacity demo_area) [] w = (Some (Code UB_COMM_OK), [], w).
Proof.
  intros c w. apply (capacity_check_wraps demo_area [] w); vm_compute; done || discriminate.
Defined.

(** * The number of nodes *)

Lemma run_check {S} (p q : prog S res) env s :
  run (check p; q) env s =
  match run p env s with
  | (Some (Code c), env', s') => if c =? 0 then run q env' s' else (Some (Code c), env', s')
  | (Some (Throw e), env', s') => (Some (Throw e), env', s')
  | (None, env', s') => (None, env', s')
  end.
Proof.
  unfold check_code. rewrite run_bind. destruct (run p env s) as [[[[c|e]|] env'] s']; [|done|done].
  by destruct (c =? 0).
Qed.

Lemma collect_ids_length es l ids :
  collect_ids es l = Some ids -> (length ids <= length es + length l)%nat.
Proof.
  assert (Hi : forall x l, (length (set_insert x l) <= S (length l))%nat).
  { intros x l'. induction l' as [|y l' IH]; cbn; [lia|]. repeat case_bool; cbn; lia. }
  revert l. induction es as [|e es IH]; intros l Hc; cbn in Hc; [injection Hc as <-; cbn; lia|].
  case_bool; [done|]. specialize (IH _ Hc). specialize (Hi (region_node e) l). cbn. lia.
Qed.

(** More than eight nodes are impossible.  The limit of the configuration is [MAX_NODES_LIMIT] = 16, but the
    number of entries of the ring map is compared with the number of priorities, 8, and there must be one
    entry for each node: with any memory, ring map and rings, initialising a cluster of 9 to 16
    nodes returns -EINVAL. *)
Theorem nine_nodes_refused fuel area m c env w :
  MAX_PRIORITY_LEVELS < max_nodes c <= MAX_NODES_LIMIT -> conf_cpu_id c < 0 ->
  exists env' w', run (init fuel (Some area) (Some m) (Some c)) env w = (Some (Code (- EINVAL)), env', w').
Proof.
  intros [Hn _] Hcpu. unfold init. rewrite run_bind.
  assert (Hask : exists z env0, run (@ask tworld QExternal) env w = (Some z, env0, w)) by (destruct env; by eexists _, _).
  destruct Hask as (z & env0 & ->). rewrite run_upd. set (w0 := lset l_run _ w). cbv zeta. cbn [default].
  rewrite run_check. cbn [setup_config_and_validate]. destruct (negb (config_valid area m c)) eqn:Ev; [eexists _, _; reflexivity|].
  rewrite run_check, (proj2 (Z.ltb_lt _ _) Hcpu), run_upd. cbn [run].
  rewrite Z.eqb_refl, !run_upd. cbn [run]. rewrite Z.eqb_refl, run_check.
  set (w1 := lset l_cfg _ _). assert (Hc : conf_ (t_cfg (obj w1)) = c) by done. clearbody w1.
  change (id m) with m. unfold build_node_mapping. destruct (collect_ids (map_regions m) []) as [ids|] eqn:Ei; [|eexists _, _; reflexivity].
  rewrite run_get. cbn [lget l_cfg]. rewrite Hc. apply collect_ids_length in Ei.
  unfold config_valid, MAX_PRIORITY_LEVELS in *. bool_to_prop.
  assert (Hlen : (length (map_regions m) <= 8)%nat) by (unfold map_regions; rewrite length_take; lia).
  cbn in Ei. assert (Hne : Z.of_nat (length ids) <> max_nodes c) by lia.
  apply Z.eqb_neq in Hne. rewrite Hne. cbn [negb]. rewrite orb_true_r. eexists _, _. reflexivity.
Qed.

Lemma nine_nodes_refused_witness :
  exists env' w', run (init 3 (Some demo_area) (Some (demo_regions (seqZ 0 9))) (Some (Conf (-1) 9 5 1 (Some [RingDesc 4 64 3]))))
    [] (TWorld demo_mem 1 (new_transport 8) demo_tls0 []) = (Some (Code (- EINVAL)), env', w').
Proof. apply nine_nodes_refused; cbn; unfold MAX_PRIORITY_LEVELS, MAX_NODES_LIMIT; lia. Defined.

(** * The billboard *)

(** The entry [idx] of the billboard at [ptr] exists, with a slot for every priority. *)
Definition on_board (m : shared_mem) (ptr idx : Z) : Prop :=
  exists b, boards m !! ptr = Some b /\ 0 <= idx < Z.of_nat (length b) /\
    length (ring_offsets (node_at m ptr idx)) = 8%nat.

Lemma node_at_on m ptr idx f : on_board m ptr idx -> node_at (on_node ptr idx f m) ptr idx = f (node_at m ptr idx).
Proof.
  intros (b & Hb & Hi & _). unfold node_at at 1. unfold on_node. cbn. rewrite Hb, lookup_insert_eq. cbn.
  apply getZ_setZ_eq. lia.
Qed.

Lemma node_at_other m ptr idx j f : 0 <= idx -> 0 <= j -> j <> idx -> node_at (on_node ptr idx f m) ptr j = node_at m ptr j.
Proof.
  intros Hi Hj Hne. unfold node_at at 1. unfold on_node. cbn. rewrite lookup_insert_eq. cbn.
  rewrite getZ_setZ_ne by lia. done.
Qed.

Lemma on_board_on m ptr idx f :
  (length (ring_offsets (f (node_at m ptr idx))) = length (ring_offsets (node_at m ptr idx))) ->
  on_board m ptr idx -> on_board (on_node ptr idx f m) ptr idx.
Proof.
  intros Hf Hm. destruct (Hm) as (b & Hb & Hi & Hl). exists (setZ b idx (f (node_at m ptr idx))).
  split; [unfold on_node; cbn; by rewrite Hb, lookup_insert_eq|]. rewrite length_setZ. split; [done|].
  rewrite node_at_on by done. congruence.
Qed.

Lemma on_node_comp m ptr idx f g :
  on_board m ptr idx -> on_node ptr idx f (on_node ptr idx g m) = on_node ptr idx (fun b => f (g b)) m.
Proof.
  intros Hm. unfold on_node at 1. rewrite node_at_on by done. destruct Hm as (b & Hb & Hi & _).
  unfold on_node. cbn. rewrite Hb, lookup_insert_eq, insert_insert_eq. cbn. f_equal. f_equal.
  unfold setZ. by rewrite list_insert_insert_eq.
Qed.

Lemma on_node_id m ptr idx : on_board m ptr idx -> on_node ptr idx (fun b => b) m = m.
Proof.
  intros (b & Hb & Hi & _). unfold on_node, node_at. rewrite Hb. destruct m as [bs rs rw]. cbn in *. f_equal.
  apply insert_id. rewrite Hb. f_equal. unfold setZ, getZ. symmetry. apply list_insert_id.
  destruct (lookup_lt_is_Some_2 b (Z.to_nat idx)) as [x Hx]; [lia|]. by rewrite Hx.
Qed.

(** The instance with one node of the billboard changed. *)
Definition reboard (ptr idx : Z) (f : NodeBoardInfo -> NodeBoardInfo) (w : tworld) : tworld :=
  lset l_shm (on_node ptr idx f (shm w)) w.

Lemma run_board_store {C} ptr idx f (k : unit -> prog tworld C) env w :
  run (bind (board_store ptr idx f) k) env w = run (k tt) env (reboard ptr idx f w).
Proof. done. Qed.

Lemma reboard_comp ptr idx f g w :
  on_board (shm w) ptr idx -> reboard ptr idx f (reboard ptr idx g w) = reboard ptr idx (fun b => f (g b)) w.
Proof. intros H. unfold reboard. cbn. by rewrite on_node_comp. Qed.

(** A loop of conditional stores into one node. *)
Definition keeps_slots (f : NodeBoardInfo -> NodeBoardInfo) : Prop :=
  forall b, length (ring_offsets (f b)) = length (ring_offsets b).

Lemma run_board_loop {X C} ptr idx (c : X -> bool) (f : X -> NodeBoardInfo -> NodeBoardInfo) xs
    (k : unit -> prog tworld C) env w :
  on_board (shm w) ptr idx -> (forall x, keeps_slots (f x)) ->
  run (bind (for_each xs (fun x => if c x then board_store ptr idx (f x) else Ret tt)) k) env w =
  run (k tt) env (reboard ptr idx (fun b => foldl (fun b x => if c x then f x b else b) b xs) w).
Proof.
  intros Hw Hf. revert w Hw. induction xs as [|x xs IH]; intros w Hw; cbn [for_each foldl].
  - unfold reboard. rewrite on_node_id by done. by destruct w.
  - rewrite bind_assoc. destruct (c x) eqn:Ec.
    + rewrite run_board_store. assert (Hw' : on_board (shm (reboard ptr idx (f x) w)) ptr idx) by (apply on_board_on; [apply Hf|done]).
      rewrite IH by done. rewrite reboard_comp by done. done.
    + cbn [bind]. by rewrite IH.
Qed.

(** What [publish_to_billboard] writes into its entry, from what the entry held. *)
Definition invalidate (b : NodeBoardInfo) : NodeBoardInfo :=
  foldl (fun b p => set_offset p UINT64_MAX b) b priorities.
Definition advertise (offs : list Z) (b : NodeBoardInfo) : NodeBoardInfo :=
  foldl (fun b p => if negb (getZ UINT64_MAX offs p =? UINT64_MAX)
                    then set_offset p (getZ UINT64_MAX offs p) b else b) b priorities.

Lemma invalidate_offsets b : length (ring_offsets b) = 8%nat -> ring_offsets (invalidate b) = replicate 8 UINT64_MAX.
Proof. destruct b as [i o s t p]. cbn. intros Hl. do 8 (destruct o as [|? o]; [done|]). by destruct o. Qed.

(** One step of [advertise] at priority [q], seen at priority [p]. *)
Lemma advertise_step offs b q p :
  length (ring_offsets b) = 8%nat -> 0 <= q < 8 -> 0 <= p < 8 ->
  let b1 := if negb (getZ UINT64_MAX offs q =? UINT64_MAX) then set_offset q (getZ UINT64_MAX offs q) b else b in
  length (ring_offsets b1) = 8%nat /\
  (getZ UINT64_MAX (ring_offsets b1) p = getZ UINT64_MAX (ring_offsets b) p \/
   getZ UINT64_MAX (ring_offsets b1) p = getZ UINT64_MAX offs p) /\
  (q = p -> getZ UINT64_MAX (ring_offsets b) p = UINT64_MAX ->
   getZ UINT64_MAX (ring_offsets b1) p = getZ UINT64_MAX offs p).
Proof.
  intros Hl Hq Hp b1. unfold b1. destruct (getZ UINT64_MAX offs q =? UINT64_MAX) eqn:E; cbn [negb]; bool_to_prop.
  - split_and!; [done|by left|]. intros -> ->. done.
  - cbn. rewrite length_setZ. split; [done|]. destruct (Z.eq_dec q p) as [->|Hne].
    + rewrite getZ_setZ_eq by lia. split; [by right|done].
    + rewrite getZ_setZ_ne by lia. split; [by left|done].
Qed.

Lemma advertise_offsets offs b ps p :
  length (ring_offsets b) = 8%nat -> Forall (fun q => 0 <= q < 8) ps -> 0 <= p < 8 ->
  getZ UINT64_MAX (ring_offsets b) p = getZ UINT64_MAX offs p \/
    (getZ UINT64_MAX (ring_offsets b) p = UINT64_MAX /\ p ∈ ps) ->
  getZ UINT64_MAX (ring_offsets (foldl (fun b p => if negb (getZ UINT64_MAX offs p =? UINT64_MAX)
      then set_offset p (getZ UINT64_MAX offs p) b else b) b ps)) p = getZ UINT64_MAX offs p.
Proof.
  revert b. induction ps as [|q ps IH]; intros b Hl Hps Hp Hu; cbn [foldl].
  { destruct Hu as [->|[_ Hin]]; [done|by apply elem_of_nil in Hin]. }
  inversion Hps as [|? ? Hq Hps']; subst. destruct (advertise_step offs b q p Hl Hq Hp) as (Hl1 & Ho & Hs).
  apply IH; [done|done|done|]. destruct Hu as [Hu|[Hu Hin]].
  - left. destruct Ho as [-> | ->]; done.
  - destruct Ho as [Ho|Ho]; [|by left]. apply elem_of_cons in Hin as [->|Hin]; [left; by apply Hs|].
    right. by rewrite Ho.
Qed.


#[local] Abbreviation me g := (current_node_id (conf_ g)).

Lemma set_offset_slots p v : keeps_slots (set_offset p v).
Proof. intros b. cbn. by rewrite length_setZ. Qed.
Lemma set_hb_seq_slots v : keeps_slots (set_hb_seq v).
Proof. done. Qed.
Lemma foldl_slots {X} (f : NodeBoardInfo -> X -> NodeBoardInfo) xs :
  (forall x, keeps_slots (fun b => f b x)) -> keeps_slots (fun b => foldl f b xs).
Proof. intros Hf. induction xs as [|x xs IH]; intros b; [done|]. cbn. rewrite IH. apply Hf. Qed.
Lemma invalidate_slots : keeps_slots invalidate.
Proof. apply foldl_slots. intros p. apply set_offset_slots. Qed.
Lemma advertise_slots offs : keeps_slots (advertise offs).
Proof. apply foldl_slots. intros p b. case_bool; [apply set_offset_slots|done]. Qed.

Lemma on_board_reboard ptr idx f w : keeps_slots f -> on_board (shm w) ptr idx -> on_board (shm (reboard ptr idx f w)) ptr idx.
Proof. intros Hf. by apply on_board_on. Qed.

#[local] Strategy 1000 [invalidate advertise].

(** The entry after a publication: ready, with a live heartbeat. *)
Definition published (offs : list Z) (interval_us seq : Z) (b : NodeBoardInfo) : NodeBoardInfo :=
  set_initialized true (set_hb_seq (u64 (seq + 1))
    (advertise offs (set_hb_interval (u32 (interval_us / US_PER_MS)) (set_hb_seq 0 (invalidate b))))).

Lemma published_offsets offs i s b p :
  length (ring_offsets b) = 8%nat -> 0 <= p < 8 ->
  getZ UINT64_MAX (ring_offsets (published offs i s b)) p = getZ UINT64_MAX offs p.
Proof.
  intros Hl Hp. set (b1 := set_hb_interval (u32 (i / US_PER_MS)) (set_hb_seq 0 (invalidate b))).
  assert (Hb1 : ring_offsets b1 = replicate 8 UINT64_MAX) by (apply (invalidate_offsets b Hl)).
  change (getZ UINT64_MAX (ring_offsets (advertise offs b1)) p = getZ UINT64_MAX offs p).
  unfold advertise. apply advertise_offsets.
  - by rewrite Hb1.
  - repeat constructor; lia.
  - done.
  - right. rewrite Hb1, getZ_replicate by lia. split; [done|]. by apply elem_of_seqZ.
Qed.

Lemma published_slots offs i s : keeps_slots (published offs i s).
Proof.
  intros b. set (b1 := set_hb_interval (u32 (i / US_PER_MS)) (set_hb_seq 0 (invalidate b))).
  change (length (ring_offsets (advertise offs b1)) = length (ring_offsets b)). rewrite advertise_slots.
  apply (invalidate_slots b).
Qed.

Lemma run_publish offs env w :
  let g := t_cfg (obj w) in let ptr := init_region_ptr_ g in let idx := compact_index g (me g) in
  let h := t_hb (obj w) in
  ptr <> 0 -> ptr mod CACHELINE_SIZE = 0 -> 0 <= idx -> on_board (shm w) ptr idx ->
  run (publish_to_billboard offs) env w = (Some (Code UB_COMM_OK), env,
    reboard ptr idx (published offs (heartbeat_interval_us_ h) (local_consumer_heartbeat_seq_ h))
      (lset l_hb (with_local_seq (u64 (local_consumer_heartbeat_seq_ h + 1)) h) w)).
Proof.
  intros g ptr idx h Hp Ha Hi Hb. unfold publish_to_billboard. rewrite run_get. cbn [lget l_cfg]. fold g ptr.
  rewrite (proj2 (Z.eqb_neq _ _) Hp), (proj2 (Z.eqb_eq _ _) Ha). cbn [negb]. rewrite run_get. cbn [lget l_cfg]. fold g idx.
  rewrite (proj2 (Z.ltb_ge _ _) Hi).
  rewrite (run_board_loop ptr idx (fun _ => true) (fun p => set_offset p UINT64_MAX)) by (done || (intros; apply set_offset_slots)).
  change (fun b => foldl _ b priorities) with invalidate.
  rewrite run_board_store, run_get, run_board_store.
  change (heartbeat_interval_us_ (lget l_hb _)) with (heartbeat_interval_us_ h).
  set (iv := u32 _). assert (Hb1 := on_board_reboard ptr idx _ w invalidate_slots Hb).
  rewrite (reboard_comp ptr idx (set_hb_seq 0)) by done. rewrite (reboard_comp ptr idx (set_hb_interval iv)) by done.
  set (f1 := fun b : NodeBoardInfo => set_hb_interval iv (set_hb_seq 0 (invalidate b))). assert (Hf1 : keeps_slots f1) by
    (intros b; change (length (ring_offsets (invalidate b)) = length (ring_offsets b)); apply invalidate_slots).
  assert (Hb2 := on_board_reboard ptr idx f1 w Hf1 Hb).
  rewrite (run_board_loop ptr idx (fun p => negb (getZ UINT64_MAX offs p =? UINT64_MAX))
    (fun p => set_offset p (getZ UINT64_MAX offs p))) by (done || (intros; apply set_offset_slots)).
  change (fun b => foldl _ b priorities) with (advertise offs). rewrite reboard_comp by done.
  rewrite run_bind. cbn [act run]. change (local_consumer_heartbeat_seq_ (lget l_hb _)) with (local_consumer_heartbeat_seq_ h).
  set (w2 := lset l_hb _ _).
  replace w2 with (reboard ptr idx (fun b => advertise offs (f1 b)) (lset l_hb (with_local_seq (u64 (local_consumer_heartbeat_seq_ h + 1)) h) w)) by done.
  assert (Hb3 : on_board (shm (lset l_hb (with_local_seq (u64 (local_consumer_heartbeat_seq_ h + 1)) h) w)) ptr idx) by done.
  assert (Hf2 : keeps_slots (fun b => advertise offs (f1 b))) by (intros b; rewrite advertise_slots; apply Hf1).
  assert (Hb4 := on_board_reboard ptr idx _ _ Hf2 Hb3).
  rewrite !run_board_store. cbn [run]. rewrite (reboard_comp _ _ (set_initialized true)) by exact Hb4.
  rewrite reboard_comp by exact Hb3. reflexivity.
Qed.

(** Looking a ring up on the billboard. *)
Lemma run_get_remote_ring node p env w :
  let g := t_cfg (obj w) in let ptr := init_region_ptr_ g in let idx := compact_index g node in
  let b := node_at (shm w) ptr idx in let base := getZ 0 (region_bases_ g) idx in
  let offset := getZ UINT64_MAX (ring_offsets b) p in
  let w1 := reboard ptr idx (set_pad 0) w in
  0 <= idx -> p < 8 -> ptr <> 0 -> on_board (shm w) ptr idx ->
  get2 0 (remote_lookup_table_ (t_rem (obj w))) idx p = 0 ->
  run (get_remote_ring node p) env w =
    if negb (initialized b) then (Some (UB_COMM_ERR_PEER_NOT_READY, 0), env, w1)
    else if (offset =? UINT64_MAX) || (base =? 0) then (Some (UB_COMM_ERR_RING_NOT_FOUND, 0), env, w1)
    else (Some (UB_COMM_OK, u64 (base + offset)), env,
      lset l_rem (with_table (set2 (remote_lookup_table_ (t_rem (obj w))) idx p (u64 (base + offset))) (t_rem (obj w))) w1).
Proof.
  intros g ptr idx b base offset w1 Hi Hp Hptr Hb Ht. unfold get_remote_ring, get_compact_index. rewrite run_get. cbn [lget l_cfg].
  fold g idx. rewrite (proj2 (Z.ltb_ge _ _) Hi). unfold MAX_PRIORITY_LEVELS. rewrite (proj2 (Z.leb_gt _ _) Hp), run_get.
  cbn [lget l_rem]. rewrite Ht, Z.eqb_refl. cbn [negb]. rewrite run_get. cbn [lget l_cfg]. fold g ptr.
  rewrite (proj2 (Z.eqb_neq _ _) Hptr). unfold force_refresh_whole_struct. rewrite bind_assoc.
  unfold board_load at 1. rewrite run_get, run_board_store. fold w1.
  assert (Hn : node_at (shm w1) ptr idx = set_pad 0 b) by (by apply node_at_on).
  unfold board_load. rewrite run_get. cbn [lget l_shm]. rewrite Hn. change (initialized (set_pad 0 b)) with (initialized b).
  destruct (initialized b); cbn [negb]; [|done]. rewrite !run_get. cbn [lget l_shm l_cfg]. rewrite Hn.
  change (ring_offsets (set_pad 0 b)) with (ring_offsets b). change (t_cfg (obj w1)) with g. fold base offset.
  destruct (_ || _); [done|]. unfold table_store. rewrite run_upd. done.
Qed.

Lemma get_remote_ring_cached node p env w :
  let g := t_cfg (obj w) in let idx := compact_index g node in
  let a := get2 0 (remote_lookup_table_ (t_rem (obj w))) idx p in
  0 <= idx -> p < 8 -> a <> 0 ->
  run (get_remote_ring node p) env w = (Some (UB_COMM_OK, a), env, w).
Proof.
  intros g idx a Hi Hp Ha. unfold get_remote_ring, get_compact_index. rewrite run_get. cbn [lget l_cfg].
  fold g idx. rewrite (proj2 (Z.ltb_ge _ _) Hi). unfold MAX_PRIORITY_LEVELS. rewrite (proj2 (Z.leb_gt _ _) Hp), run_get.
  cbn [lget l_rem]. fold a. rewrite (proj2 (Z.eqb_neq _ _) Ha). done.
Qed.

Lemma get_remote_ring_cached_at node p env w idx a :
  compact_index (t_cfg (obj w)) node = idx -> 0 <= idx -> p < 8 ->
  get2 0 (remote_lookup_table_ (t_rem (obj w))) idx p = a -> a <> 0 ->
  run (get_remote_ring node p) env w = (Some (UB_COMM_OK, a), env, w).
Proof. intros <- Hi Hp <- Ha. by apply get_remote_ring_cached. Qed.

(** What leaving writes into the entry. *)
Definition withdrawn (b : NodeBoardInfo) : NodeBoardInfo :=
  set_pad 57005 (set_hb_interval 0 (set_hb_seq 0 (set_initialized false (invalidate b)))).

Lemma run_clear_billboard g env w :
  let ptr := init_region_ptr_ g in let idx := compact_index g (me g) in
  on_board (shm w) ptr idx ->
  run (clear_billboard g) env w = (Some tt, env, reboard ptr idx withdrawn w).
Proof.
  intros ptr idx Hb. unfold clear_billboard. cbv zeta. fold ptr idx.
  rewrite (run_board_loop ptr idx (fun _ => true) (fun p => set_offset p UINT64_MAX)) by (done || (intros; apply set_offset_slots)).
  change (fun b => foldl _ b priorities) with invalidate.
  assert (H1 := on_board_reboard ptr idx _ w invalidate_slots Hb).
  rewrite !run_board_store. unfold board_store, upd, store, act. cbn [run].
  match goal with |- (_, _, ?x) = _ => change x with (reboard ptr idx (set_pad 57005) (reboard ptr idx (set_hb_interval 0)
    (reboard ptr idx (set_hb_seq 0) (reboard ptr idx (set_initialized false) (reboard ptr idx invalidate w))))) end.
  rewrite !reboard_comp; [reflexivity|..]; try done; repeat (apply on_board_reboard; [done|]); done.
Qed.

(** The instance of another process that sees the same memory and agrees on the index of node [id]. *)
Record views (w : tworld) (m : shared_mem) (ptr id idx p : Z) : Prop := {
  vw_shm : shm w = m; vw_ptr : init_region_ptr_ (t_cfg (obj w)) = ptr;
  vw_idx : compact_index (t_cfg (obj w)) id = idx;
  vw_miss : get2 0 (remote_lookup_table_ (t_rem (obj w))) idx p = 0 }.

(** C22: publishing and looking up.  After a node has published its rings, any process that shares the memory,
    agrees on the index of the node and has nothing cached finds, for each priority, the ring at the
    base where it maps the node's region plus the published offset, and is told that there is no ring where none was
    published; the answer is remembered.  Before a node has published, and again after it has withdrawn its entry,
    the answer is that the node is not ready.  Entries of other nodes are not touched by any of this. *)
Theorem published_ring_found offs env w wB p :
  let g := t_cfg (obj w) in let ptr := init_region_ptr_ g in let idx := compact_index g (me g) in
  let w' := (run (publish_to_billboard offs) env w).2 in
  let base := getZ 0 (region_bases_ (t_cfg (obj wB))) idx in
  let offset := getZ UINT64_MAX offs p in
  ptr <> 0 -> ptr mod CACHELINE_SIZE = 0 -> 0 <= idx -> on_board (shm w) ptr idx -> 0 <= p < 8 -> base <> 0 ->
  (views wB (shm w') ptr (me g) idx p ->
   exists w2, run (get_remote_ring (me g) p) env wB = (Some
     (if offset =? UINT64_MAX then (UB_COMM_ERR_RING_NOT_FOUND, 0) else (UB_COMM_OK, u64 (base + offset))), env, w2) /\
     (offset <> UINT64_MAX -> u64 (base + offset) <> 0 ->
      (Z.to_nat idx < length (remote_lookup_table_ (t_rem (obj wB))))%nat ->
      length (getZ [] (remote_lookup_table_ (t_rem (obj wB))) idx) = 8%nat ->
      run (get_remote_ring (me g) p) env w2 = (Some (UB_COMM_OK, u64 (base + offset)), env, w2))) /\
  (views wB (shm w) ptr (me g) idx p -> initialized (node_at (shm w) ptr idx) = false ->
   (run (get_remote_ring (me g) p) env wB).1.1 = Some (UB_COMM_ERR_PEER_NOT_READY, 0)) /\
  (views wB (shm (run (clear_billboard g) env w').2) ptr (me g) idx p ->
   (run (get_remote_ring (me g) p) env wB).1.1 = Some (UB_COMM_ERR_PEER_NOT_READY, 0)) /\
  (forall j, 0 <= j -> j <> idx -> node_at (shm w') ptr j = node_at (shm w) ptr j).
Proof.
  intros g ptr idx w' base offset Hp Ha Hi Hb Hpr Hbase.
  assert (Hw' : w' = reboard ptr idx (published offs (heartbeat_interval_us_ (t_hb (obj w))) (local_consumer_heartbeat_seq_ (t_hb (obj w))))
    (lset l_hb (with_local_seq (u64 (local_consumer_heartbeat_seq_ (t_hb (obj w)) + 1)) (t_hb (obj w))) w)).
  { unfold w'. by rewrite run_publish. }
  clearbody w'. set (F := published offs _ _) in Hw'. set (wL := lset l_hb _ w) in Hw'.
  assert (HL : on_board (shm wL) ptr idx) by exact Hb.
  assert (Hb' : on_board (shm w') ptr idx) by (rewrite Hw'; apply on_board_reboard; [apply published_slots|done]).
  assert (Hn : node_at (shm w') ptr idx = F (node_at (shm w) ptr idx)) by (rewrite Hw'; by apply node_at_on).
  assert (Hof : getZ UINT64_MAX (ring_offsets (node_at (shm w') ptr idx)) p = offset).
  { rewrite Hn. apply published_offsets; [by destruct Hb as (? & _ & _ & ?)|done]. }
  assert (Hin : initialized (node_at (shm w') ptr idx) = true) by (by rewrite Hn).
  split_and!.
  - intros [Hs Hptr Hidx Hmiss]. assert (HG := run_get_remote_ring (me g) p env wB). cbv zeta in HG.
    rewrite Hs, Hptr, Hidx, Hin, Hof in HG. fold base in HG. specialize (HG Hi (proj2 Hpr) Hp Hb' Hmiss).
    cbn [negb] in HG. rewrite (proj2 (Z.eqb_neq base 0)), orb_false_r in HG by done.
    destruct (offset =? UINT64_MAX) eqn:Eo; [eexists; split; [exact HG|intros; bool_to_prop; congruence]|].
    eexists. split; [exact HG|]. intros _ Hnz Hlt Hlen. apply (get_remote_ring_cached_at (me g) p env _ idx); [done|done|lia| |done].
    unfold get2, set2. cbn. rewrite getZ_setZ_eq by done. apply getZ_setZ_eq. lia.
  - intros [Hs Hptr Hidx Hmiss] Hf. assert (HG := run_get_remote_ring (me g) p env wB). cbv zeta in HG.
    rewrite Hs, Hptr, Hidx, Hf in HG. by rewrite (HG Hi (proj2 Hpr) Hp Hb Hmiss).
  - intros [Hs Hptr Hidx Hmiss]. assert (HG := run_get_remote_ring (me g) p env wB). cbv zeta in HG.
    rewrite (run_clear_billboard g env w' Hb') in Hs. cbn [snd] in Hs. fold ptr idx in Hs.
    rewrite Hs, Hptr, Hidx in HG. change (shm (reboard ptr idx withdrawn w')) with (on_node ptr idx withdrawn (shm w')) in HG.
    rewrite node_at_on in HG by done. rewrite (HG Hi (proj2 Hpr) Hp); [done| |done].
    apply on_board_on; [apply (invalidate_slots (node_at (shm w') ptr idx))|done].
  - intros j Hj Hne. rewrite Hw'. apply (node_at_other (shm wL)); lia.
Qed.

(** Node 5 publishes, node 2 looks its rings up. *)
Definition demo_board_ready (me : Z) : tworld :=
  lset l_cfg (with_init_region 64 (t_cfg (obj (demo_sized [5; 2] me)))) (demo_sized [5; 2] me).
Definition demo_offsets : list Z := [0; UINT64_MAX; UINT64_MAX; 786624; UINT64_MAX; UINT64_MAX; UINT64_MAX; UINT64_MAX].

Lemma published_ring_found_witness :
  let w' := (run (publish_to_billboard demo_offsets) [] (demo_board_ready 5)).2 in
  let wB := lset l_shm (shm w') (demo_board_ready 2) in
  exists w2, run (get_remote_ring 5 3) [] wB = (Some (UB_COMM_OK, 6291456 + 786624), [], w2).
Proof.
  intros w' wB.
  destruct (proj1 (published_ring_found demo_offsets [] (demo_board_ready 5) wB 3
    ltac:(vm_compute; discriminate) ltac:(vm_compute; reflexivity) ltac:(vm_compute; discriminate)
    ltac:(exists (replicate 16 no_board); split; [vm_compute; reflexivity|split; [vm_compute; split; done|vm_compute; reflexivity]])
    ltac:(lia) ltac:(vm_compute; discriminate))) as (w2 & Hr & _).
  - split; vm_compute; reflexivity.
  - exists w2. exact Hr.
Defined.
