(* ===== verification/TransportRun.v ===== *)
(** A transport at work: sending, dispatching and polling, over the rings of MPSCSeq.v.

    The queue a ring holds ([queue_rep] of MPSCSeq.v) is lifted to the shared memory of a transport
    ([holds_queue]).  The theorems say where a message goes, that exactly one ring changes, what a
    message does when it is dispatched, in which order a poll handles what is waiting, and that a message sent
    by one node reaches the callback registered at another. *)

From S2P Require Import Prelude Atomic CommTypes MPSCRing MPSCConc MPSCSeq ThreadPool Transport TransportInit.
Import MPSCRingBuffer UBShmTransport.

(** * Operations of a ring inside a transport *)

(** The operations of a ring neither add nor remove caches of senders. *)
Definition same_peers (w w' : mpsc_world) : Prop := length (peers w') = length (peers w).

Create HintDb peers.
Ltac peers_done :=
  intros; unfold same_peers, store_byte, store_seq; cbn; try case_bool; cbn; rewrite ?length_alter; done.
Ltac solve_peers :=
  repeat first
    [ solve [eauto with peers nocore]
    | apply only_iter
    | apply only_bind
    | match goal with
      | |- forall _, _ => intros
      | H : only _ ?p |- only _ ?p => exact H
      | |- only _ (let '_ := ?x in _) => destruct x
      | |- only _ (match ?x with _ => _ end) => destruct x
      | |- only _ (Ret _) => exact I
      | |- only _ (cas_weak _ _ _) => intros ?; cbn; destruct (_ =? 0)
      | |- only _ (ask _) => done
      | |- only _ (load _) => apply only_load; peers_done
      | |- only _ (store _) => intros ?; split; [peers_done|intros; exact I]
      | |- only _ (act _) => intros ?; split; [peers_done|intros; exact I]
      | |- only _ (rmw _ _) => intros ?; split; [peers_done|intros; exact I]
      | |- only _ (cas_strong _ _ _) => intros ?; split; [peers_done|intros; exact I]
      | |- only _ (Act _ _) => intros ?; split; [peers_done|intros; exact I]
      end ].

Lemma sample_peers fuel used : only same_peers (sample_flow_state fuel used).
Proof.
  unfold sample_flow_state, record_depth, record_depth_round, get_entry_num, log_flow_edge, get_flow_threshold.
  solve_peers.
Qed.

Lemma memcpy_in_peers s off bs : only same_peers (memcpy_in s off bs).
Proof.
  revert off. induction bs as [|b bs IH]; intros off; [done|]. cbn [memcpy_in]. specialize (IH (off + 1)). solve_peers.
Qed.

Lemma memcpy_out_peers s off n acc : only same_peers (memcpy_out s off n acc).
Proof.
  revert off acc. induction n as [|n IH]; intros off acc; [done|]. cbn [memcpy_out]. intros w. split; [done|].
  intros b. apply IH.
Qed.

#[export] Hint Resolve sample_peers memcpy_in_peers memcpy_out_peers : peers.

Lemma enqueue_local_peers fuel hdr b len : only same_peers (enqueue_local fuel hdr b len).
Proof.
  unfold enqueue_local, reserve_round, write_entry, flow_result_after_enqueue, record_cas_fail, record_full_fail,
    get_geometry, get_flow_threshold. solve_peers.
Qed.

Lemma enqueue_remote_peers fuel nul hdr b len mask stride ms j :
  only same_peers (enqueue_remote fuel nul hdr b len mask stride ms j).
Proof.
  unfold enqueue_remote, remote_round, reserve_round, write_entry, flow_result_after_enqueue_cached,
    refresh_cached_threshold, record_cas_fail, record_full_fail, get_geometry, get_congestion_threshold_version, get_flow_threshold.
  solve_peers.
Qed.

Lemma dequeue_peers fuel self cap : only same_peers (dequeue fuel self cap).
Proof.
  unfold dequeue, try_skip_stale_reserved_entry, sample_if_congested, approximate_used, get_geometry, get_entry_num,
    load_seq, get_local_stale_state, stale_get, stale_set. solve_peers.
Qed.

(** Running a component whose states the operation keeps within [Q]. *)
Lemma run_lift_on {S T A} (l : lens S T) (P : S -> Prop) (Q : T -> Prop) (R : T -> T -> Prop) (p : prog T A) env s :
  (forall s, P s -> Q (lget l s)) -> (forall t t', R t t' -> Q t -> Q t') ->
  (forall s t, P s -> Q t -> P (lset l t s)) -> (forall s t, P s -> Q t -> lget l (lset l t s) = t) ->
  (forall s t t', P s -> Q t -> Q t' -> lset l t (lset l t' s) = lset l t s) ->
  (forall s, P s -> lset l (lget l s) s = s) ->
  only R p -> P s ->
  run (lift l p) env s = let '(r, env', t) := run p env (lget l s) in (r, env', lset l t s).
Proof.
  intros HQ HR HP H1 H2 H3.
  revert env s. induction p as [a|C g k IH|q k IH|]; intros env s Ho Hs; cbn.
  - by rewrite H3.
  - destruct (Ho (lget l s)) as [Hst Hk]. destruct (g (lget l s)) as [b t] eqn:E. cbn in Hst.
    assert (Ht : Q t) by (eapply HR; [exact Hst|auto]).
    rewrite (IH b env (lset l t s) (Hk b) (HP _ _ Hs Ht)), H1 by done.
    destruct (run (k b) env t) as [[r env'] t'] eqn:Er. rewrite H2; [done|done| |done].
    assert (Hq : forall (p : prog T A) env t, only R p -> Q t -> Q (run p env t).2).
    { clear -HR. intros p. induction p as [a|C g k IH|q k IH|]; intros env t Ho Ht; cbn; [done| | |done].
      - destruct (Ho t) as [Hst Hk]. destruct (g t) as [b t1]. apply IH; [apply Hk|]. by eapply HR.
      - destruct env; apply IH; auto. }
    specialize (Hq (k b) env t (Hk b) Ht). by rewrite Er in Hq.
  - destruct env; by apply IH.
  - by rewrite H3.
Qed.

(** * Queues in shared memory *)

Definition idle_tls : consumer_tls := ConsumerTls 0 [].

(** The ring at address [a], of geometry [g], holds the messages [q]. *)
Definition holds_queue (m : shared_mem) (a : Z) (g : geometry) (q : list msg) : Prop :=
  exists r, rings m !! a = Some r /\ queue_rep g (World r [] idle_tls) q.

(** The queue does not depend on who looks at it. *)
Lemma rep_viewer g r ps T ps' T' q :
  queue_rep g (World r ps T) q ->
  (forall j, 0 <= shadow_head (default no_cache (ps' !! j)) <= head r) -> queue_rep g (World r ps' T') q.
Proof. intros [] Hs. constructor; auto. Qed.

Lemma rep_alone g r ps T T' q : queue_rep g (World r ps T) q -> queue_rep g (World r [] T') q.
Proof. intros HR. eapply rep_viewer; [exact HR|]. intros j. rewrite lookup_nil. cbn. pose proof (rep_head _ _ _ HR). cbn in *. lia. Qed.

(** A local operation on the ring at [a]. *)
Lemma run_local_ring {A} a (p : prog mpsc_world A) env w r :
  rings (shm w) !! a = Some r -> only same_peers p ->
  run (lift (l_local_ring a) p) env w =
    let '(x, env', m) := run p env (World r [] (disp_tls w)) in (x, env', lset (l_local_ring a) m w).
Proof.
  intros Hr Hp. rewrite (run_lift_on (l_local_ring a) (fun w => is_Some (rings (shm w) !! a))
    (fun m => peers m = []) same_peers); [|done| | | | | |done|by eexists].
  - cbn. unfold ring_at. by rewrite Hr.
  - intros t t' Hs Ht. unfold same_peers in Hs. rewrite Ht in Hs. by destruct (peers t').
  - intros s t _ _. cbn. rewrite lookup_insert_eq. by eexists.
  - intros s [r0 ps T] _ Hps. cbn in *. unfold ring_at. cbn. by rewrite lookup_insert_eq, Hps.
  - intros s t t' _ _ _. cbn. unfold with_tls, with_ring. cbn. by rewrite insert_insert_eq.
  - intros s [r0 H0]. cbn. unfold ring_at, with_tls, with_ring. rewrite H0. cbn. rewrite insert_id by done.
    by destruct s as [[] ? ? ? ?].
Qed.

(** The indices of [ring_caches_]. *)
Definition cache_slot (w : tworld) (node prio : Z) : Prop :=
  (Z.to_nat node < length (ring_caches_ (t_rem (obj w))))%nat /\
  (Z.to_nat prio < length (getZ [] (ring_caches_ (t_rem (obj w))) node))%nat.

Section Array2.
Context {A : Type} (d : A).
Implicit Type t : list (list A).
Lemma get2_set2 t i j x :
  (Z.to_nat i < length t)%nat -> (Z.to_nat j < length (getZ [] t i))%nat -> get2 d (set2 t i j x) i j = x.
Proof. intros Hi Hj. unfold get2, set2. rewrite getZ_setZ_eq by done. by rewrite getZ_setZ_eq. Qed.
Lemma get2_set2_ne t i j i' j' x :
  0 <= i -> 0 <= j -> 0 <= i' -> 0 <= j' -> (i, j) <> (i', j') -> get2 d (set2 t i j x) i' j' = get2 d t i' j'.
Proof.
  intros Hi Hj Hi' Hj' Hne. unfold get2, set2. destruct (Z.eq_dec i i') as [<-|Hn].
  - destruct (decide (Z.to_nat i < length t)%nat).
    + rewrite getZ_setZ_eq by done. apply getZ_setZ_ne; [done|done|congruence].
    + unfold getZ, setZ. by rewrite list_insert_ge by lia.
  - by rewrite getZ_setZ_ne by done.
Qed.
Lemma set2_set2 t i j x y : set2 (set2 t i j x) i j y = set2 t i j y.
Proof.
  unfold set2. destruct (decide (Z.to_nat i < length t)%nat).
  - rewrite getZ_setZ_eq by done. unfold setZ. by rewrite !list_insert_insert_eq.
  - unfold setZ. by rewrite !list_insert_ge by (rewrite ?length_insert; lia).
Qed.
Lemma set2_get2 t i j :
  (Z.to_nat i < length t)%nat -> (Z.to_nat j < length (getZ [] t i))%nat -> set2 t i j (get2 d t i j) = t.
Proof.
  intros Hi Hj. unfold set2, get2, setZ. destruct (lookup_lt_is_Some_2 t (Z.to_nat i) Hi) as [row Hrow].
  rewrite (getZ_lookup [] t i row Hrow) in *. destruct (lookup_lt_is_Some_2 row (Z.to_nat j) Hj) as [x Hx].
  rewrite (getZ_lookup d row j x Hx), (list_insert_id row) by done. by apply list_insert_id.
Qed.
Lemma length_set2 t i j x : length (set2 t i j x) = length t.
Proof. apply length_setZ. Qed.
Lemma length_row_set2 t i j x i' : 0 <= i -> 0 <= i' -> length (getZ [] (set2 t i j x) i') = length (getZ [] t i').
Proof.
  intros Hi Hi'. unfold set2. destruct (Z.eq_dec i i') as [<-|Hn]; [|by rewrite getZ_setZ_ne].
  destruct (decide (Z.to_nat i < length t)%nat).
  - rewrite getZ_setZ_eq by done. apply length_setZ.
  - unfold setZ. by rewrite list_insert_ge by lia.
Qed.
End Array2.

(** An entry of [ring_caches_] after one was changed. *)
Lemma cache_at_set w node prio f : cache_slot w node prio -> cache_at (set_cache node prio f w) node prio = f (cache_at w node prio).
Proof. intros [H1 H2]. unfold cache_at at 1. cbn. by apply get2_set2. Qed.

Lemma cache_slot_set w node prio f node' prio' :
  0 <= node -> 0 <= node' -> cache_slot (set_cache node prio f w) node' prio' <-> cache_slot w node' prio'.
Proof. intros Hn Hn'. unfold cache_slot. cbn. by rewrite length_set2, length_row_set2. Qed.

Lemma set_cache_comp w node prio f g :
  cache_slot w node prio -> set_cache node prio f (set_cache node prio g w) = set_cache node prio (fun c => f (g c)) w.
Proof. intros Hs. unfold set_cache at 1. rewrite cache_at_set by done. cbn. unfold set_cache. cbn. by rewrite set2_set2. Qed.

Lemma set_cache_same w node prio f : cache_slot w node prio -> f (cache_at w node prio) = cache_at w node prio -> set_cache node prio f w = w.
Proof.
  intros [H1 H2] Hf. unfold set_cache. rewrite Hf. unfold cache_at. rewrite set2_get2 by done.
  by destruct w as [? ? [? ? [] ? ?] ? ?].
Qed.

Lemma with_flow_comp p q c : with_flow p (with_flow q c) = with_flow p c.
Proof. done. Qed.
Lemma with_flow_same c : with_flow (flow c) c = c.
Proof. by destruct c. Qed.

(** What a sender's operation on the ring at [a] changes: the ring, the flow-control part of its cache. *)
Definition remote_set (a node prio : Z) (m : mpsc_world) (w : tworld) : tworld := lset (l_remote_ring a node prio) m w.

Lemma run_remote_ring {A} a node prio (p : prog mpsc_world A) env w r :
  rings (shm w) !! a = Some r -> 0 <= node -> cache_slot w node prio -> only same_peers p ->
  run (lift (l_remote_ring a node prio) p) env w =
    let '(x, env', m) := run p env (World r [flow (cache_at w node prio)] (disp_tls w)) in
    (x, env', remote_set a node prio m w).
Proof.
  intros Hr Hn Hc Hp.
  rewrite (run_lift_on (l_remote_ring a node prio) (fun w => is_Some (rings (shm w) !! a) /\ cache_slot w node prio)
    (fun m => length (peers m) = 1%nat) same_peers); [|done| | | | | |done|split; [by eexists|done]].
  - cbn [lget l_remote_ring]. unfold ring_at. by rewrite Hr.
  - intros t t' Hs Ht. unfold same_peers in Hs. congruence.
  - intros s t [_ Hs] _. split; [cbn; rewrite lookup_insert_eq; by eexists|]. cbn [lset l_remote_ring]. by apply cache_slot_set.
  - intros s [r0 ps T] [_ Hs] Hps. cbn [lget lset l_remote_ring]. rewrite cache_at_set by done. cbn.
    unfold ring_at. cbn. rewrite lookup_insert_eq. cbn. destruct ps as [|x [|]]; [done| |done]. done.
  - intros s t t' [_ Hs] _ _. cbn [lset l_remote_ring].
    set (u := with_tls (tls t') (lset l_shm (with_ring a (w_ring t') (shm s)) s)).
    assert (Hu : cache_slot u node prio) by done.
    change (with_tls (tls t) (lset l_shm (with_ring a (w_ring t) (shm (set_cache node prio (with_flow (peer 0 t')) u)))
      (set_cache node prio (with_flow (peer 0 t')) u))) with
      (set_cache node prio (with_flow (peer 0 t')) (with_tls (tls t) (lset l_shm (with_ring a (w_ring t) (shm u)) u))).
    rewrite set_cache_comp by done. unfold u, with_tls, with_ring. cbn. by rewrite insert_insert_eq.
  - intros s [[r0 H0] Hs]. cbn [lget lset l_remote_ring]. unfold ring_at. rewrite H0. cbn [default].
    assert (He : with_tls (tls (World (id r0) [flow (cache_at s node prio)] (disp_tls s)))
      (lset l_shm (with_ring a (w_ring (World (id r0) [flow (cache_at s node prio)] (disp_tls s))) (shm s)) s) = s).
    { unfold with_tls, with_ring. cbn. rewrite insert_id by done. by destruct s as [[] ? ? ? ?]. }
    rewrite He. apply set_cache_same; [done|]. apply with_flow_same.
Qed.

(** ** Enqueueing *)

(** A message as the ring stores it. *)
Definition as_msg (m : message_t) : msg := (header m, default [] (body m)).

(** A message without a body may come with a null pointer. *)
Lemma enqueue_local_body fuel h b n :
  (b = None -> n = 0) -> enqueue_local fuel (Some h) b n = enqueue_local fuel (Some h) (Some (default [] b)) n.
Proof. destruct b; [done|]. intros ->; [|done]. done. Qed.
Lemma enqueue_remote_body fuel nul h b n mask stride ms j :
  (b = None -> n = 0) ->
  enqueue_remote fuel nul (Some h) b n mask stride ms j =
  enqueue_remote fuel nul (Some h) (Some (default [] b)) n mask stride ms j.
Proof. destruct b; [done|]. intros ->; [|done]. done. Qed.

(** The outcome of offering a message to the ring at [a], in a transport. *)
Definition enqueued_at (a : Z) (g : geometry) (q : list msg) (m : msg) (w w' : tworld) (r : Z) : Prop :=
  (if decide (Z.of_nat (length q) < entry_num g) then is_flow r /\ holds_queue (shm w') a g (q ++ [m])
   else r = UB_COMM_ERR_RING_FULL /\ holds_queue (shm w') a g q) /\
  (forall b, b <> a -> rings (shm w') !! b = rings (shm w) !! b).

Lemma offered_at a g q m r w1 w w' :
  offered g q m r w1 -> shm w' = with_ring a (w_ring w1) (shm w) -> enqueued_at a g q m w w' r.
Proof.
  intros Ho Hs. split.
  - unfold offered in Ho. assert (Hh : forall q', queue_rep g w1 q' -> holds_queue (shm w') a g q').
    { intros q' HR. exists (w_ring w1). rewrite Hs. cbn. rewrite lookup_insert_eq. split; [done|].
      destruct w1 as [r1 ps T]. by eapply rep_alone. }
    case_decide; destruct Ho; split; auto.
  - intros b Hb. rewrite Hs. cbn. by rewrite lookup_insert_ne.
Qed.

Section Sending.
Context (fuel : nat) (g : geometry).
Hypothesis Hfuel : (1 <= fuel)%nat.
Hypothesis Hg : wf_geometry g.

(** Room for one more ticket in the 64-bit counters. *)
Definition ticket_room (m : shared_mem) (a : Z) : Prop := tail (ring_at m a) + 1 + entry_num g < 2 ^ 64 - 1.

Lemma run_send_local m prio a q w :
  getZ 0 (local_rings_ (t_loc (obj w))) prio = a -> a <> 0 -> holds_queue (shm w) a g q -> ticket_room (shm w) a ->
  wf_msg g (as_msg m) ->
  exists r w', run (send_local fuel (header m) (body m) prio) [] w = (Some r, [], w') /\
    enqueued_at a g q (as_msg m) w w' r /\ obj w' = obj w /\ boards (shm w') = boards (shm w) /\ app_log w' = app_log w.
Proof.
  intros Ha Ha0 (r0 & Hr0 & HR) Ht Hm. unfold send_local. rewrite run_get. cbn [lget l_loc]. rewrite Ha.
  rewrite (proj2 (Z.eqb_neq _ _) Ha0), (run_local_ring a _ [] w r0 Hr0 (enqueue_local_peers _ _ _ _)).
  rewrite enqueue_local_body. 2:{ intros Hb. destruct Hm as (_ & Hl & _). cbn in Hl. by rewrite Hb in Hl. }
  assert (HR' : queue_rep g (World r0 [] (disp_tls w)) q) by (by eapply rep_alone).
  destruct (run_enqueue_local g Hg fuel (as_msg m) _ q Hfuel HR') as (r & w1 & Hrun & Ho); [|done|].
  { unfold ticket_room, ring_at in Ht. by rewrite Hr0 in Ht. }
  cbn [MPSCConc.send as_msg fst snd] in Hrun. rewrite Hrun. eexists _, _. split; [done|].
  split; [by eapply offered_at|done].
Qed.

(** The cache of the sender describes the ring at [a]. *)
Definition cache_ok (w : tworld) (dest prio a : Z) : Prop :=
  let c := cache_at w dest prio in
  cache_initialized c = true /\ raw_ptr c = a /\ cache_mask c = index_mask g /\ cache_stride c = entry_stride g /\
  cache_max_size c = max_msg_size g /\ 0 <= shadow_head (flow c) <= head (ring_at (shm w) a).

Lemma run_lock_shared {C} (k : unit -> prog tworld C) env w :
  let m := cache_mutex_ (t_rem (obj w)) in 0 <= m ->
  run (bind (lock_shared fuel) k) env w = run (k tt) env (lset l_rem (with_mutex (m + 1) (t_rem (obj w))) w).
Proof.
  intros m Hm. unfold lock_shared. rewrite iter_round by done. rewrite run_bind, run_bind. cbn [act run bind lget l_rem].
  fold m. rewrite (proj2 (Z.ltb_ge _ _) Hm). done.
Qed.

(** Everything but the rings and the caches. *)
Definition same_rest (w w' : tworld) : Prop :=
  t_cfg (obj w') = t_cfg (obj w) /\ t_loc (obj w') = t_loc (obj w) /\ t_hb (obj w') = t_hb (obj w) /\
  t_run (obj w') = t_run (obj w) /\ cache_mutex_ (t_rem (obj w')) = cache_mutex_ (t_rem (obj w)) /\ app_log w' = app_log w.

(** The caches of the other rings. *)
Definition other_caches (dest prio : Z) (w w' : tworld) : Prop :=
  forall n p, 0 <= n -> 0 <= p -> (dest, prio) <> (n, p) ->
    cache_at w' n p = cache_at w n p /\ (cache_slot w' n p <-> cache_slot w n p).

(** The addresses the instance has found for the other rings. *)
Definition other_entries (dest prio : Z) (w w' : tworld) : Prop :=
  forall j p, 0 <= j -> 0 <= p -> (compact_index (t_cfg (obj w)) dest, prio) <> (j, p) ->
    get2 0 (remote_lookup_table_ (t_rem (obj w'))) j p = get2 0 (remote_lookup_table_ (t_rem (obj w))) j p.

(** Offering a message through a cache that is ready, from inside [send_remote]. *)
Lemma run_remote_enqueue m prio a q w :
  let dest := dest_node_id (header m) in let c := cache_at w dest prio in
  0 <= dest -> 0 <= prio -> a <> 0 -> cache_slot w dest prio -> cache_ok w dest prio a -> holds_queue (shm w) a g q ->
  ticket_room (shm w) a -> wf_msg g (as_msg m) ->
  exists r w', run (lift (l_remote_ring (raw_ptr c) dest prio)
      (enqueue_remote fuel (raw_ptr c =? 0) (Some (header m)) (body m) (body_length (header m))
         (cache_mask c) (cache_stride c) (cache_max_size c) 0)) [] w = (Some r, [], w') /\
    enqueued_at a g q (as_msg m) w w' r /\ same_rest w w' /\ boards (shm w') = boards (shm w) /\
    remote_lookup_table_ (t_rem (obj w')) = remote_lookup_table_ (t_rem (obj w)) /\
    cache_slot w' dest prio /\ cache_ok w' dest prio a /\ other_caches dest prio w w'.
Proof.
  intros dest c Hd Hp Ha Hs (Hi & Hraw & Hmask & Hst & Hms & Hsh) (r0 & Hr0 & HR) Ht Hm. fold c in Hraw, Hmask, Hst, Hms, Hi, Hsh.
  unfold ring_at in Hsh. rewrite Hr0 in Hsh. cbn [default] in Hsh. change (id r0) with r0 in Hsh.
  rewrite Hraw, Hmask, Hst, Hms, (proj2 (Z.eqb_neq _ _) Ha).
  rewrite (run_remote_ring a dest prio _ [] w r0 Hr0 Hd Hs (enqueue_remote_peers _ _ _ _ _ _ _ _ _)). fold c.
  rewrite enqueue_remote_body. 2:{ intros Hb. destruct Hm as (_ & Hl & _). cbn in Hl. by rewrite Hb in Hl. }
  assert (HR' : queue_rep g (World r0 [flow c] (disp_tls w)) q).
  { eapply rep_viewer; [exact HR|]. intros [|j]; [done|]. change ([flow c] !! S j) with (@nil peer_cache !! j).
    rewrite lookup_nil. pose proof (rep_head _ _ _ HR). cbn in *. lia. }
  destruct (run_enqueue_remote g Hg fuel 0 (as_msg m) _ q Hfuel HR') as (r & w1 & Hrun & Ho); [|done|].
  { unfold ticket_room, ring_at in Ht. by rewrite Hr0 in Ht. }
  cbn [MPSCConc.send as_msg fst snd] in Hrun. rewrite Hrun. exists r, (remote_set a dest prio w1 w). split; [done|].
  assert (Hsh' : 0 <= shadow_head (peer 0 w1) <= head (w_ring w1)).
  { unfold offered in Ho. case_decide; destruct Ho as [_ Ho]; exact (rep_shadow _ _ _ Ho 0%nat). }
  split; [by eapply offered_at|]. split; [done|]. split; [done|]. split; [done|].
  assert (Hs' : cache_slot (remote_set a dest prio w1 w) dest prio).
  { unfold remote_set. cbn [lset l_remote_ring]. by apply cache_slot_set. }
  split; [done|]. split.
  - unfold cache_ok, remote_set. cbn [lset l_remote_ring]. rewrite cache_at_set by done.
    change (cache_at (with_tls _ _) dest prio) with c. cbn. unfold ring_at. cbn. rewrite lookup_insert_eq. done.
  - intros n p Hn Hp' Hne. split; [unfold cache_at; cbn; by apply get2_set2_ne|].
    unfold remote_set. cbn [lset l_remote_ring]. rewrite cache_slot_set by done. done.
Qed.

(** Reading a field of a ring. *)
Lemma run_ring_load {B C} a (f : mpsc_world -> B) (k : B -> prog tworld C) env w r :
  rings (shm w) !! a = Some r ->
  run (bind (lift (l_local_ring a) (load f)) k) env w = run (k (f (World r [] (disp_tls w)))) env w.
Proof.
  intros Hr. rewrite run_bind, (run_local_ring a _ env w r Hr) by (apply only_load; done). cbn [run load act].
  replace (lset (l_local_ring a) (World r [] (disp_tls w)) w) with w; [done|].
  cbn. unfold with_tls, with_ring. cbn. rewrite insert_id by done. by destruct w as [[] ? ? ? ?].
Qed.

Lemma run_cache_store {C} node prio f (k : unit -> prog tworld C) env w :
  run (bind (cache_store node prio f) k) env w = run (k tt) env (set_cache node prio f w).
Proof. done. Qed.

(** What a successful population writes. *)
Definition populated (a : Z) (r : ring) : RemoteRingCache :=
  RingCache true a (index_mask (geom r)) (entry_stride (geom r)) (max_msg_size (geom r))
    (PeerCache 0 (congestion_threshold r) (congestion_threshold_version r)).

Lemma run_try_populate dest prio a env w w1 r :
  0 <= dest < 16 -> 0 <= prio < 8 -> run (get_remote_ring dest prio) env w = (Some (UB_COMM_OK, a), env, w1) ->
  rings (shm w1) !! a = Some r -> geom r = g -> cache_slot w1 dest prio ->
  run (try_populate_cache dest prio) env w = (Some UB_COMM_OK, env, set_cache dest prio (fun _ => populated a r) w1).
Proof.
  intros Hd Hp Hget Hr Hgeo Hs. unfold try_populate_cache, MAX_NODES_LIMIT, MAX_PRIORITY_LEVELS.
  rewrite (proj2 (Z.leb_gt _ _)), (proj2 (Z.leb_gt _ _)), run_bind, Hget by lia.
  rewrite Z.eqb_refl. cbn [negb]. rewrite run_cache_store.
  assert (Hsl : forall f, cache_slot (set_cache dest prio f w1) dest prio) by (intros f; apply cache_slot_set; [lia|lia|done]).
  assert (Hrs : forall f, rings (shm (set_cache dest prio f w1)) !! a = Some r) by done.
  pose proof (wf_cap g Hg) as Hcap. assert (Hgeo' := Hg). destruct Hgeo' as (Hpow & _ & Hmask & _ & _). rewrite <- Hgeo in Hcap, Hpow, Hmask.
  unfold get_max_msg_size. rewrite (run_ring_load a _ _ env _ r (Hrs _)), run_cache_store, (set_cache_comp w1 dest prio _ _ Hs).
  unfold get_entry_stride. rewrite (run_ring_load a _ _ env _ r (Hrs _)), run_cache_store, (set_cache_comp w1 dest prio _ _ Hs).
  unfold get_entry_num. rewrite (run_ring_load a _ _ env _ r (Hrs _)). cbn [w_ring].
  rewrite (u32_small (entry_num _)) by lia. rewrite (proj2 (Z.eqb_neq _ _)) by lia.
  rewrite u32_small by lia. rewrite land_pow2_mask, Z_mod_same_full by done. cbn [orb negb].
  rewrite Z.eqb_refl. cbn [negb].
  rewrite run_cache_store, (set_cache_comp w1 dest prio _ _ Hs). rewrite run_cache_store, (set_cache_comp w1 dest prio _ _ Hs).
  unfold get_congestion_threshold, get_flow_threshold.
  rewrite (run_ring_load a _ _ env _ r (Hrs _)), run_cache_store, (set_cache_comp w1 dest prio _ _ Hs).
  unfold get_congestion_threshold_version.
  rewrite (run_ring_load a _ _ env _ r (Hrs _)), run_cache_store, (set_cache_comp w1 dest prio _ _ Hs).
  rewrite run_cache_store, (set_cache_comp w1 dest prio _ _ Hs). cbn [run]. unfold populated. rewrite Hmask. done.
Qed.

Lemma populated_ok w dest prio a r :
  rings (shm w) !! a = Some r -> geom r = g -> 0 <= head r -> cache_slot w dest prio ->
  cache_ok (set_cache dest prio (fun _ => populated a r) w) dest prio a.
Proof.
  intros Hr Hgeo Hh Hs. unfold cache_ok. rewrite cache_at_set, <- Hgeo by done. 
  do 5 (split; [reflexivity|]). split; [apply Z.le_refl|].
  change (0 <= head (ring_at (shm w) a)). unfold ring_at. by rewrite Hr.
Qed.

(** The lookup of a ring succeeds with [a]: it is cached, or it is on the billboard. *)
Definition finds (w : tworld) (node prio a : Z) : Prop :=
  let g := t_cfg (obj w) in let idx := compact_index g node in
  let t := get2 0 (remote_lookup_table_ (t_rem (obj w))) idx prio in
  let b := node_at (shm w) (init_region_ptr_ g) idx in
  0 <= idx /\ a <> 0 /\
  (t = a \/ (t = 0 /\ init_region_ptr_ g <> 0 /\ on_board (shm w) (init_region_ptr_ g) idx /\ initialized b = true /\
     getZ UINT64_MAX (ring_offsets b) prio <> UINT64_MAX /\ getZ 0 (region_bases_ g) idx <> 0 /\
     a = u64 (getZ 0 (region_bases_ g) idx + getZ UINT64_MAX (ring_offsets b) prio))).

Lemma run_finds node prio a env w :
  finds w node prio a -> prio < 8 ->
  exists w1, run (get_remote_ring node prio) env w = (Some (UB_COMM_OK, a), env, w1) /\
    rings (shm w1) = rings (shm w) /\ same_rest w w1 /\ ring_caches_ (t_rem (obj w1)) = ring_caches_ (t_rem (obj w)) /\
    disp_tls w1 = disp_tls w /\ (0 <= prio -> other_entries node prio w w1).
Proof.
  intros (Hi & Ha & [Ht|(Ht & Hptr & Hb & Hin & Hof & Hbase & He)]) Hp.
  - exists w. split; [|done]. apply (get_remote_ring_cached_at node prio env w _ a eq_refl Hi Hp Ht Ha).
  - assert (HG := run_get_remote_ring node prio env w Hi Hp Hptr Hb Ht). rewrite Hin in HG. cbn [negb] in HG.
    rewrite (proj2 (Z.eqb_neq _ _) Hof), (proj2 (Z.eqb_neq _ _) Hbase) in HG. cbn [orb] in HG. rewrite <- He in HG.
    eexists. split; [exact HG|]. do 4 (split; [done|]). intros Hp0 j p Hj Hp' Hne. cbn. by apply get2_set2_ne.
Qed.

(** Where [send] puts a message: the ring at [a], of geometry [g]. *)
Record routed (w : tworld) (m : message_t) (prio a : Z) : Prop := {
  rt_src : src_node_id (header m) = current_node_id (conf_ (t_cfg (obj w)));
  rt_prio : route_priority (header m) = Some prio /\ 0 <= prio < 8;
  rt_dest : 0 <= dest_node_id (header m) < 16;
  rt_addr : a <> 0;
  rt_local : dest_node_id (header m) = current_node_id (conf_ (t_cfg (obj w))) ->
    getZ 0 (local_rings_ (t_loc (obj w))) prio = a;
  rt_remote : dest_node_id (header m) <> current_node_id (conf_ (t_cfg (obj w))) ->
    is_Some (node_id_to_idx_ (t_cfg (obj w)) !! dest_node_id (header m)) /\
    getZ true (peer_alive_ (t_hb (obj w))) (dest_node_id (header m)) = true /\
    0 <= cache_mutex_ (t_rem (obj w)) /\ cache_slot w (dest_node_id (header m)) prio /\
    (cache_ok w (dest_node_id (header m)) prio a \/
     cache_initialized (cache_at w (dest_node_id (header m)) prio) = false /\ finds w (dest_node_id (header m)) prio a) }.

Lemma ring_geom m a q r : holds_queue m a g q -> rings m !! a = Some r -> geom r = g /\ 0 <= head r.
Proof. intros (r' & Hr' & HR) Hr. rewrite Hr in Hr'. injection Hr' as <-. split; [exact (rep_geom _ _ _ HR)|exact (rep_head _ _ _ HR)]. Qed.

(** After the cache is ready. *)
Lemma send_remote_ready m prio a q w :
  let dest := dest_node_id (header m) in
  0 <= dest < 16 -> 0 <= prio < 8 -> a <> 0 -> 0 <= cache_mutex_ (t_rem (obj w)) -> cache_slot w dest prio ->
  cache_ok w dest prio a \/ (cache_initialized (cache_at w dest prio) = false /\ finds w dest prio a) ->
  holds_queue (shm w) a g q -> ticket_room (shm w) a -> wf_msg g (as_msg m) ->
  exists r w', run (send_remote fuel (header m) (body m) prio) [] w = (Some r, [], w') /\
    enqueued_at a g q (as_msg m) w w' r /\ same_rest w w' /\ cache_ok w' dest prio a /\ cache_slot w' dest prio /\
    other_caches dest prio w w' /\ other_entries dest prio w w'.
Proof.
  intros dest Hd Hp Ha Hmu Hsl Hc HQ Ht Hm. unfold send_remote. fold dest. rewrite (run_lock_shared _ _ w Hmu).
  set (w0 := lset l_rem _ w).
  assert (Hw : exists w2, run (if cache_initialized (cache_at w dest prio) then Ret UB_COMM_OK
      else try_populate_cache dest prio) [] w0 = (Some UB_COMM_OK, [], w2) /\
    rings (shm w2) = rings (shm w) /\ same_rest w0 w2 /\ cache_slot w2 dest prio /\ cache_ok w2 dest prio a /\
    other_caches dest prio w w2 /\ other_entries dest prio w w2).
  { destruct Hc as [Hc|[Hin Hf]].
    - assert (Hin : cache_initialized (cache_at w dest prio) = true) by apply Hc. rewrite Hin. by exists w0.
    - rewrite Hin. destruct (run_finds dest prio a [] w0 Hf) as (w1 & Hg1 & Hr1 & Hrest & Hca & _ & Hent); [lia|].
      destruct (HQ) as (r & Hr & HR). destruct (ring_geom _ _ _ _ HQ Hr) as [Hgeo Hh].
      assert (Hs1 : cache_slot w1 dest prio) by (unfold cache_slot; rewrite Hca; exact Hsl).
      assert (Hr1' : rings (shm w1) !! a = Some r) by (by rewrite Hr1).
      eexists. split; [by apply (run_try_populate dest prio a [] w0 w1 r)|]. split; [done|]. split; [done|].
      split; [apply cache_slot_set; [lia|lia|done]|]. split; [by apply populated_ok|]. split; [|apply Hent; lia].
      intros n p Hn Hp' Hne. split; [|rewrite cache_slot_set by lia; unfold cache_slot; by rewrite Hca].
      unfold cache_at. cbn. rewrite get2_set2_ne by (done || lia). by rewrite Hca. }
  destruct Hw as (w2 & H2 & Hr2 & Hrest & Hs2 & Hc2 & Hoc & Hoe).
  change (run (bind (load (fun w => cache_initialized (cache_at w dest prio))) ?k) [] w0) with
    (run (k (cache_initialized (cache_at w dest prio))) [] w0).
  cbv beta. rewrite run_bind, H2, Z.eqb_refl. cbn [negb].
  change (run (bind (load (fun w => cache_at w dest prio)) ?k) [] w2) with (run (k (cache_at w2 dest prio)) [] w2).
  cbv beta. rewrite run_bind.
  destruct (run_remote_enqueue m prio a q w2) as (r & w3 & Hrun & Ho & Hrest' & Hb3 & Ht3 & Hs3 & Hc3 & Hoc'); [lia|lia|done|done|done| | |done|].
  { destruct HQ as (r & Hr & HR). exists r. by rewrite Hr2. }
  { unfold ticket_room, ring_at in *. by rewrite Hr2. }
  fold dest in Hrun. rewrite Hrun. unfold unlock_shared. rewrite run_upd. cbn [run]. eexists _, _. split; [done|].
  destruct Hrest as (E1 & E2 & E3 & E4 & E5 & E6). destruct Hrest' as (F1 & F2 & F3 & F4 & F5 & F6).
  split; [|split; [|split; [exact Hc3|split; [exact Hs3|split]]]].
  - destruct Ho as [Ho Hoth]. split; [exact Ho|]. intros b Hb. rewrite <- Hr2. by apply Hoth.
  - unfold same_rest. cbn. rewrite F1, F2, F3, F4, F5, F6, E1, E2, E3, E4, E5, E6. cbn. split_and!; done || lia.
  - intros n p Hn Hp' Hne. destruct (Hoc n p Hn Hp' Hne) as [U1 U2]. destruct (Hoc' n p Hn Hp' Hne) as [V1 V2].
    unfold cache_at, cache_slot in *. cbn. by rewrite V1, V2.
  - intros j p Hj Hp' Hne. cbn. rewrite Ht3. by apply Hoe.
Qed.
End Sending.

(** ** The whole of [send] *)
Lemma run_send fuel g m prio a q w :
  (1 <= fuel)%nat -> wf_geometry g -> routed g w m prio a -> holds_queue (shm w) a g q ->
  ticket_room g (shm w) a -> wf_msg g (as_msg m) ->
  exists r w', run (send fuel (Some m)) [] w = (Some r, [], w') /\ enqueued_at a g q (as_msg m) w w' r /\ same_rest w w' /\
    (dest_node_id (header m) <> current_node_id (conf_ (t_cfg (obj w))) -> cache_ok g w' (dest_node_id (header m)) prio a) /\
    other_caches (dest_node_id (header m)) prio w w' /\ other_entries (dest_node_id (header m)) prio w w' /\
    (cache_slot w (dest_node_id (header m)) prio -> cache_slot w' (dest_node_id (header m)) prio).
Proof.
  intros Hf Hg [Hsrc [Hpr Hp] Hd Ha Hloc Hrem] HQ Ht Hm. unfold send. rewrite run_get. cbn [lget l_cfg].
  rewrite Hsrc, Z.eqb_refl. cbn [negb]. rewrite Hpr. unfold MAX_PRIORITY_LEVELS, MAX_NODES_LIMIT.
  rewrite (proj2 (Z.leb_gt _ _)), (proj2 (Z.leb_gt _ _)) by lia.
  destruct (dest_node_id (header m) =? _) eqn:Ed; cbn [negb andb]; bool_to_prop.
  - cbn [bind]. cbn [negb].
    destruct (run_send_local fuel g Hf Hg m prio a q w) as (r & w' & Hr & Ho & Hobj & _ & Hlog); [by apply Hloc|done|done|done|done|].
    exists r, w'. split; [exact Hr|]. split; [done|]. unfold same_rest, other_caches, other_entries, cache_at, cache_slot.
    by rewrite Hobj, Hlog.
  - destruct (Hrem Ed) as (Hk & Hal & Hmu & Hsl & Hc). rewrite (bool_decide_eq_false_2 (_ = None)).
    2:{ intros Hn. rewrite Hn in Hk. by destruct Hk. }
    rewrite run_get. cbn [lget l_hb]. rewrite Hal. cbn [negb].
    destruct (send_remote_ready fuel g Hf Hg m prio a q w) as (r & w' & Hr & Ho & Hrest & Hok & Hs & Hoc & Hoe); [lia|lia|done..|].
    exists r, w'. split; [exact Hr|]. done.
Qed.

(** * Properties *)

(** C17: a message that [send] accepts is in exactly one ring.  When a message passes the checks of [send] and is
    routed to the ring at [a] (a ring of this node, or a ring of another node that is cached or can be found
    on the billboard), the call returns.  It returns OK or CONGESTED, and the ring at [a] then
    holds the message behind what it held before; or the ring was at its capacity, the call returns
    RING_FULL and the ring holds what it held.  No other ring changes, nor do configuration, local rings, heartbeat state,
    callbacks and lock; afterwards the cache describes the ring, so the next send needs no lookup. *)
Theorem send_delivers fuel g m prio a q w :
  (1 <= fuel)%nat -> wf_geometry g -> routed g w m prio a -> holds_queue (shm w) a g q ->
  ticket_room g (shm w) a -> wf_msg g (as_msg m) ->
  exists r w', run (send fuel (Some m)) [] w = (Some r, [], w') /\
    (if decide (Z.of_nat (length q) < entry_num g) then is_flow r /\ holds_queue (shm w') a g (q ++ [as_msg m])
     else r = UB_COMM_ERR_RING_FULL /\ holds_queue (shm w') a g q) /\
    (forall b, b <> a -> rings (shm w') !! b = rings (shm w) !! b) /\ same_rest w w' /\
    (dest_node_id (header m) <> current_node_id (conf_ (t_cfg (obj w))) -> cache_ok g w' (dest_node_id (header m)) prio a).
Proof.
  intros Hf Hg Hrt HQ Ht Hm. destruct (run_send fuel g m prio a q w Hf Hg Hrt HQ Ht Hm) as (r & w' & Hr & [Ho Hoth] & Hrest & Hok & _).
  by exists r, w'.
Qed.

(** The checks of [send] before it looks for a ring, in their order, and the code of each. *)
Definition refusal (w : tworld) (m : option message_t) : option Z :=
  let g := t_cfg (obj w) in
  match m with
  | None => Some (- EINVAL)
  | Some m =>
      let h := header m in let dest := dest_node_id h in let me := current_node_id (conf_ g) in
      if negb (src_node_id h =? me) then Some (- EPERM)
      else match route_priority h with
        | None => Some (- EINVAL)
        | Some p =>
            if 8 <=? p then Some (- EINVAL)
            else if 16 <=? dest then Some (- EINVAL)
            else if dest =? me then
              if getZ 0 (local_rings_ (t_loc (obj w))) p =? 0 then Some UB_COMM_ERR_RING_NOT_FOUND else None
            else match node_id_to_idx_ g !! dest with
              | None => Some UB_COMM_ERR_PEER_NODE_NOT_FOUND
              | Some _ => if getZ true (peer_alive_ (t_hb (obj w))) dest then None else Some UB_COMM_ERR_PEER_NOT_READY
              end
        end
  end.

(** It refuses before it has changed anything. *)
Lemma send_refused fuel m env w code :
  refusal w m = Some code -> run (send fuel m) env w = (Some code, env, w).
Proof.
  intros Hr. destruct m as [m|]; [|by injection Hr as <-]. unfold send, refusal in *. rewrite run_get. cbn [lget l_cfg].
  rewrite Z.eqb_sym. destruct (negb _); [by injection Hr as <-|].
  destruct (route_priority (header m)) as [p|]; [|by injection Hr as <-].
  unfold MAX_PRIORITY_LEVELS, MAX_NODES_LIMIT. destruct (8 <=? p); [by injection Hr as <-|].
  destruct (16 <=? _); [by injection Hr as <-|]. destruct (_ =? current_node_id _); cbn [negb andb bind].
  - unfold send_local. rewrite run_get. cbn [lget l_loc]. destruct (_ =? 0); [by injection Hr as <-|done].
  - destruct (node_id_to_idx_ _ !! _) as [i|]; [|by injection Hr as <-]. cbn [bool_decide]. 
    rewrite bool_decide_eq_false_2 by done. rewrite run_get. cbn [lget l_hb]. destruct (getZ true _ _); [done|].
    by injection Hr as <-.
Qed.

(** * A cluster of two nodes *)

Definition demo_env : list Z := [77; 0; 0; 0; 10000000].
Definition demo_start (m : shared_mem) (self me : Z) : tworld :=
  (run (init 3 (Some demo_area) (Some (demo_regions [5; 2])) (Some (demo_conf me))) demo_env
     (TWorld m self (new_transport 8) demo_tls0 [])).2.
(** Node 5 starts first and does not wait for node 2. *)
Definition demo_A0 : tworld := demo_start demo_mem 1 5.
Definition demo_B : tworld := demo_start (shm demo_A0) 2 2.
Definition demo_A : tworld := lset l_shm (shm demo_B) demo_A0.
Definition demo_message : message_t := Message (Header 9 2 2 5 10 3) (Some [1; 2]).
Definition demo_user_ring : ring := default no_ring (make_ring [] 4 64).

Lemma demo_ring_holds : holds_queue (shm demo_A) 3932352 (geom demo_user_ring) [].
Proof.
  exists demo_user_ring. split; [vm_compute; reflexivity|].
  apply (make_ring_rep [] 4 64 demo_user_ring 0 idle_tls); [reflexivity|lia|lia].
Qed.

Lemma demo_geometry : wf_geometry (geom demo_user_ring).
Proof. apply (make_ring_spec [] 4 64 demo_user_ring); [reflexivity|lia|lia]. Qed.

Lemma demo_message_wf : wf_msg (geom demo_user_ring) (as_msg demo_message).
Proof. split; [|split; [reflexivity|vm_compute; discriminate]]. split; [cbn; lia|]. split; [cbn; lia|]. repeat constructor; cbn; lia. Qed.

(** Node 5 has not seen node 2 yet and finds its ring on the billboard. *)
Lemma demo_routed : routed (geom demo_user_ring) demo_A demo_message 3 3932352.
Proof.
  split.
  - vm_compute. reflexivity.
  - split; [reflexivity|lia].
  - cbn. lia.
  - lia.
  - vm_compute. discriminate.
  - intros _. split; [vm_compute; by eexists|]. split; [vm_compute; reflexivity|]. split; [vm_compute; discriminate|].
    split; [split; vm_compute; lia|]. right. split; [vm_compute; reflexivity|].
    split; [vm_compute; discriminate|]. split; [lia|]. right. split; [vm_compute; reflexivity|].
    split; [vm_compute; discriminate|].
    split; [exists (default [] (boards (shm demo_A) !! 64)); split; [vm_compute; reflexivity|split; [vm_compute; split; [discriminate|reflexivity]|vm_compute; reflexivity]]|].
    split; [vm_compute; reflexivity|]. split; [vm_compute; discriminate|]. split; [vm_compute; discriminate|]. vm_compute. reflexivity.
Qed.

Lemma send_delivers_witness :
  exists r w', run (send 1 (Some demo_message)) [] demo_A = (Some r, [], w') /\ is_flow r /\
    holds_queue (shm w') 3932352 (geom demo_user_ring) [as_msg demo_message].
Proof.
  destruct (send_delivers 1 (geom demo_user_ring) demo_message 3 3932352 [] demo_A (le_n 1) demo_geometry demo_routed demo_ring_holds)
    as (r & w' & Hr & Ho & _).
  - vm_compute. reflexivity.
  - apply demo_message_wf.
  - exists r, w'. split; [exact Hr|]. exact Ho.
Defined.
