(* ===== verification/TransportErrors.v ===== *)
(** A send that fails: nothing of the message is anywhere.

    The errors of [send] come at every depth of the call: from the checks of the arguments, from the lookup of the
    ring of the destination on the billboard (which writes the cache line it reads), and from the ring itself
    (a message that is too long, a full ring, a ring that is too busy).  Whatever the state and wherever the call fails, no
    ring has taken anything: no ticket is gone and no byte of an entry has changed. *)

From S2P Require Import Prelude Atomic CommTypes MPSCRing MPSCConc ThreadPool Transport TransportRun.
Import MPSCRingBuffer UBShmTransport.

(** * Programs that fail without a trace *)

(** On every path that does not end in a [good] result all steps are steps of [R]: once another step is made, every
    result is [good]. *)
Fixpoint clean {S A} (R : S -> S -> Prop) (good : A -> Prop) (p : prog S A) : Prop :=
  match p with
  | Ret _ | OutOfFuel => True
  | Act f k => forall s, (R s (f s).2 /\ clean R good (k (f s).1)) \/ returns good (k (f s).1)
  | Ask _ k => forall z, clean R good (k z)
  end.

Section Clean.
Context {S : Type} (R : S -> S -> Prop) `{!PreOrder R}.

Lemma run_returns {A} (good : A -> Prop) (p : prog S A) env s a env' s' :
  returns good p -> run p env s = (Some a, env', s') -> good a.
Proof.
  revert env s. induction p as [b|C g k IH|q k IH|]; intros env s Hp Hr; cbn in *.
  - by injection Hr as -> _ _.
  - destruct (g s) as [b s1]. by apply (IH b env s1).
  - destruct env; by eapply IH.
  - done.
Qed.

(** A result that is not [good] was reached by steps of [R] only. *)
Lemma run_clean {A} (good : A -> Prop) (p : prog S A) env s a env' s' :
  clean R good p -> run p env s = (Some a, env', s') -> good a \/ R s s'.
Proof using All.
  revert env s. induction p as [b|C g k IH|q k IH|]; intros env s Hp Hr; cbn in *.
  - injection Hr as -> _ ->. by right.
  - specialize (Hp s). destruct (g s) as [b s1]. cbn in Hp. destruct Hp as [[Hs Hk]|Hk].
    + destruct (IH b env s1 Hk Hr) as [?|?]; [by left|right]. by etrans.
    + left. by apply (run_returns good (k b) env s1 a env' s').
  - destruct env; by eapply IH.
  - done.
Qed.

Lemma clean_only {A} (good : A -> Prop) (p : prog S A) : only R p -> clean R good p.
Proof.
  induction p as [b|C g k IH|q k IH|]; cbn; auto. intros Hp s. left. destruct (Hp s) as [Hs Hk]. auto.
Qed.

(** The second part must be [good] when the first has made another step. *)
Lemma clean_bind {A B} (mid : A -> Prop) (good : B -> Prop) (p : prog S A) (f : A -> prog S B) :
  clean R mid p -> (forall a, clean R good (f a)) -> (forall a, mid a -> returns good (f a)) -> clean R good (bind p f).
Proof.
  intros Hp Hf Hm. induction p as [b|C g k IH|q k IH|]; cbn in *; auto.
  intros s. destruct (Hp s) as [[Hs Hk]|Hk]; [left; auto|right]. by eapply returns_seq.
Qed.
Lemma clean_seq {A B} (good : B -> Prop) (p : prog S A) (f : A -> prog S B) :
  only R p -> (forall a, clean R good (f a)) -> clean R good (bind p f).
Proof. intros Hp Hf. apply (clean_bind (fun _ => False)); [by apply clean_only|done|done]. Qed.
(** Nothing is said of the steps when every result is [good]. *)
Lemma clean_returns {A} (good : A -> Prop) (p : prog S A) : returns good p -> clean R good p.
Proof. induction p as [b|C g k IH|q k IH|]; cbn; auto. Qed.

Lemma clean_iter {L A} (good : A -> Prop) fuel (body : L -> prog S (L + A)) l :
  (forall l, clean R (fun r => exists a, r = inr a /\ good a) (body l)) -> clean R good (iter fuel body l).
Proof.
  intros Hb. revert l. induction fuel as [|n IH]; intros l; cbn; [done|].
  eapply clean_bind; [apply Hb|intros [l'|a]; [apply IH|done]|]. by intros r (a & -> & Ha).
Qed.
End Clean.

Lemma clean_lift {S T A} (R : S -> S -> Prop) (RT : T -> T -> Prop) (good : A -> Prop) (l : lens S T) (p : prog T A) :
  (forall s t, RT (lget l s) t -> R s (lset l t s)) -> clean RT good p -> clean R good (lift l p).
Proof.
  intros H. induction p as [b|C g k IH|q k IH|]; cbn; auto. intros Hp s. specialize (Hp (lget l s)).
  destruct (g (lget l s)) as [b t]. cbn in *. destruct Hp as [[Hs Hk]|Hk]; [left; auto|right].
  clear -Hk. induction (k b) as [c|D h k' IH|q k' IH|]; cbn in *; auto.
Qed.

(** * A ring that refuses *)

(** The tickets, the entries and the consumer's state are as they were; statistics and cached heads may differ. *)
Definition same_core (w w' : mpsc_world) : Prop := core w' = core w.
#[export] Instance same_core_preorder : PreOrder same_core.
Proof. split; [by intros w|]. unfold same_core. intros w1 w2 w3. congruence. Qed.

Lemma quiet_same_core {A} (p : prog mpsc_world A) : only quiet p -> only same_core p.
Proof. apply only_mono. by intros s s' [H _]. Qed.

(** An accepted message: the ring had room, and the flow state is the answer. *)
Definition claimed (r : Z + Z) : Prop := exists t, r = inr t.

Lemma returns_weaken {S A} (P Q : A -> Prop) (p : prog S A) : (forall a, P a -> Q a) -> returns P p -> returns Q p.
Proof. intros H. induction p; cbn in *; auto. Qed.

Lemma clean_reserve fuel cl capacity t :
  (forall v w, core (lset cl v w) = core w) ->
  clean same_core (fun r => exists a, r = inr a /\ claimed a) (reserve_round fuel cl capacity t).
Proof.
  intros Hcl.
  assert (Hclaim : clean same_core (fun r : Z + (Z + Z) => exists a, r = inr a /\ claimed a)
    (do '(ok, seen) <- cas_weak l_tail t (u64 (t + 1));
     if ok : bool then Ret (inr (inr t)) else record_cas_fail ;;; Ret (inl seen))).
  { cbn. intros sp. destruct (sp =? 0); cbn; intros s; [|by left]. case_bool; [right|by left]. cbn. eexists. split; [done|]. by eexists. }
  unfold reserve_round. apply clean_seq; [by apply only_load|]. intros c. case_bool; [|exact Hclaim].
  apply clean_seq; [by apply only_load|]. intros h. apply clean_seq; [intros w; split; [apply Hcl|done]|]. intros _.
  case_bool; [|exact Hclaim]. cbn [record_full_fail bind]. apply clean_seq; [apply quiet_same_core, sample_flow_state_quiet|done].
Qed.

(** Every result of an enqueue says that the message was taken, or is an error. *)
Definition answer (r : Z) : Prop := is_flow r \/ r < 0.

Lemma reserve_answer fuel cl capacity t :
  returns (fun r : Z + (Z + Z) => forall e, r = inr (inl e) -> e < 0) (reserve_round fuel cl capacity t).
Proof.
  unfold reserve_round, cas_weak, cas_strong, record_cas_fail, record_full_fail.
  repeat first [ apply returns_bind; intros | case_bool | match goal with |- returns _ (let '_ := ?x in _) => destruct x end ].
  all: cbn; intros; by simplify_eq.
Qed.

Lemma returns_iter {S L A} (V : A -> Prop) fuel (body : L -> prog S (L + A)) l :
  (forall l, returns (fun r => forall a, r = inr a -> V a) (body l)) -> returns V (iter fuel body l).
Proof.
  intros Hb. revert l. induction fuel as [|n IH]; intros l; cbn; [done|].
  eapply returns_seq; [apply Hb|]. intros [l'|a] Ha; [apply IH|by apply Ha].
Qed.

Lemma flow_returns fuel nt cl : returns is_flow (flow_result_after_enqueue fuel nt cl).
Proof.
  unfold flow_result_after_enqueue. do 2 (apply returns_bind; intros). case_bool; [by left|].
  do 2 (apply returns_bind; intros). apply sample_flow_state_returns.
Qed.
Lemma flow_cached_returns fuel nt j : returns is_flow (flow_result_after_enqueue_cached fuel nt j).
Proof.
  unfold flow_result_after_enqueue_cached. do 3 (apply returns_bind; intros). case_bool; [by right|].
  apply returns_bind; intros. case_bool; [by left|]. do 3 (apply returns_bind; intros). apply sample_flow_state_returns.
Qed.

(** An error of the reservation is negative. *)
Definition negative_error (r : Z + Z) : Prop := forall e, r = inl e -> e < 0.

Lemma local_answer fuel h b len : returns answer (enqueue_local fuel h b len).
Proof.
  unfold enqueue_local. case_bool; [by right|]. apply returns_bind; intros g. case_bool; [by right|]. apply returns_bind; intros t.
  apply (returns_seq negative_error).
  - apply returns_iter. intros l. eapply returns_weaken; [|apply reserve_answer]. intros r Hr a -> e ->. by apply Hr.
  - intros [e|k] Hk; [right; by apply Hk|]. apply returns_bind; intros _. eapply returns_weaken; [|apply flow_returns]. by left.
Qed.
Lemma remote_answer fuel null h b len mask stride size j : returns answer (enqueue_remote fuel null h b len mask stride size j).
Proof.
  unfold enqueue_remote. case_bool; [by right|]. case_bool; [by right|]. apply returns_bind; intros t.
  apply (returns_seq negative_error).
  - apply returns_iter. intros [n l]. unfold remote_round, record_cas_fail. case_bool; [cbn; by intros a [= <-] e [= <-]|].
    eapply returns_seq; [apply reserve_answer|]. intros [s|r] Hr; cbn; [done|]. intros a [= <-] e ->. by apply Hr.
  - intros [e|k] Hk; [right; by apply Hk|]. do 2 (apply returns_bind; intros).
    eapply returns_weaken; [|apply flow_cached_returns]. by left.
Qed.

Lemma clean_local fuel h b len : clean same_core is_flow (enqueue_local fuel h b len).
Proof.
  unfold enqueue_local. case_bool; [done|]. apply clean_seq; [by apply only_load|]. intros g. case_bool; [done|].
  apply clean_seq; [by apply only_load|]. intros t. apply (clean_bind _ claimed).
  - apply clean_iter. intros l. by apply clean_reserve.
  - intros [e|k]; [done|]. apply clean_returns. apply returns_bind; intros _. apply flow_returns.
  - intros r [k ->]. apply returns_bind; intros _. apply flow_returns.
Qed.
Lemma clean_remote fuel null h b len mask stride size j : clean same_core is_flow (enqueue_remote fuel null h b len mask stride size j).
Proof.
  unfold enqueue_remote. case_bool; [done|]. case_bool; [done|]. apply clean_seq; [by apply only_load|]. intros t. apply (clean_bind _ claimed).
  - apply clean_iter. intros [n l]. unfold remote_round, record_cas_fail. case_bool; [done|]. eapply clean_bind; [by apply clean_reserve| |].
    + by intros [s|r].
    + intros r (a & -> & Ha). cbn. by exists a.
  - intros [e|k]; [done|]. apply clean_returns. do 2 (apply returns_bind; intros). apply flow_cached_returns.
  - intros r [k ->]. do 2 (apply returns_bind; intros). apply flow_cached_returns.
Qed.

(** * A send that fails *)

Definition ring_core (r : ring) := (geom r, head r, tail r, entries r, overrun r).

(** No ring has taken anything, and of the rest only the lookup table and the caches of the sender's rings have been touched, with
    the padding of a billboard entry (the word the lookup writes to fetch the entry anew). *)
Record undelivered (w w' : tworld) : Prop := {
  ud_rings : forall a, ring_core (ring_at (shm w') a) = ring_core (ring_at (shm w) a);
  ud_boards : forall ptr j, set_pad 0 (node_at (shm w') ptr j) = set_pad 0 (node_at (shm w) ptr j);
  ud_raw : raw_mem (shm w') = raw_mem (shm w);
  ud_cfg : t_cfg (obj w') = t_cfg (obj w); ud_loc : t_loc (obj w') = t_loc (obj w);
  ud_hb : t_hb (obj w') = t_hb (obj w); ud_run : t_run (obj w') = t_run (obj w);
  ud_tls : disp_tls w' = disp_tls w; ud_log : app_log w' = app_log w }.
#[export] Instance undelivered_preorder : PreOrder undelivered.
Proof. split; [by split|]. intros w1 w2 w3 [] []. split; congruence. Qed.

Lemma undelivered_rem w r : undelivered w (lset l_rem r w).
Proof. by split. Qed.

(** An operation of a ring that keeps its core. *)
Lemma undelivered_ring a w m :
  same_core (World (ring_at (shm w) a) [] (disp_tls w)) m ->
  undelivered w (with_tls (tls m) (lset l_shm (with_ring a (w_ring m) (shm w)) w)).
Proof.
  intros H. unfold same_core, core, hd, tl in H. cbn in H. injection H as H1 H2 H3 H4 H5 H6. split; try done.
  intros b. unfold ring_at at 1. cbn. destruct (decide (a = b)) as [<-|Hne]; [|by rewrite lookup_insert_ne].
  rewrite lookup_insert_eq. unfold ring_core. cbn. unfold id. congruence.
Qed.

Lemma local_ring_undelivered a w m : same_core (lget (l_local_ring a) w) m -> undelivered w (lset (l_local_ring a) m w).
Proof. apply undelivered_ring. Qed.
Lemma remote_ring_undelivered a node prio w m :
  same_core (lget (l_remote_ring a node prio) w) m -> undelivered w (lset (l_remote_ring a node prio) m w).
Proof. intros H. etrans; [apply (undelivered_ring a w m); exact H|]. apply undelivered_rem. Qed.

Lemma undelivered_refresh ptr idx w : undelivered w (lset l_shm (on_node ptr idx (set_pad 0) (shm w)) w).
Proof.
  split; try done. intros p j. unfold node_at at 1. cbn. destruct (decide (ptr = p)) as [<-|Hne]; [|by rewrite lookup_insert_ne].
  rewrite lookup_insert_eq. cbn. unfold node_at, getZ, setZ, id. set (b := default [] (boards (shm w) !! ptr)).
  destruct (decide (Z.to_nat idx = Z.to_nat j)) as [->|Hj]; [|by rewrite list_lookup_insert_ne].
  destruct (decide (Z.to_nat j < length b)%nat) as [Hl|Hl]; [by rewrite list_lookup_insert_eq|]. apply Nat.nlt_ge in Hl. by rewrite list_insert_ge.
Qed.

(** ** The lookup *)

Lemma ud_upd_rem f : only undelivered (upd l_rem f).
Proof. intros w. split; [apply undelivered_rem|done]. Qed.
Lemma ud_cache_store node prio f : only undelivered (cache_store node prio f).
Proof. intros w. split; [apply undelivered_rem|done]. Qed.
Lemma ud_ring_load {A} a (p : prog mpsc_world A) : only same_core p -> only undelivered (lift (l_local_ring a) p).
Proof. apply only_lift. apply local_ring_undelivered. Qed.
Lemma ud_refresh ptr idx : only undelivered (force_refresh_whole_struct ptr idx).
Proof. apply only_bind; [by apply only_load|]. intros _ w. split; [apply undelivered_refresh|done]. Qed.

Lemma ud_lock fuel : only undelivered (lock_shared fuel).
Proof. apply only_iter. intros _ w. cbn. case_bool; (split; [by split|done]). Qed.

Create HintDb undelivered.
#[local] Hint Resolve ud_upd_rem ud_cache_store ud_refresh ud_lock : undelivered.
Ltac undelivered :=
  repeat first
    [ solve [eauto with undelivered nocore]
    | match goal with
      | |- forall _, _ => intros
      | |- only _ (bind _ _) => apply only_bind
      | |- only _ (let '_ := ?x in _) => destruct x
      | |- only _ (match ?x with _ => _ end) => destruct x
      | |- only _ (Ret _) => exact I
      | |- only _ (get _ _) => by apply only_load
      | |- only _ (load _) => by apply only_load
      | |- only _ (board_load _ _ _) => by apply only_load
      | |- only _ (table_store _ _ _) => apply ud_upd_rem
      | |- only _ (lift _ _) => apply ud_ring_load; by apply only_load
      end ].

Lemma ud_get_remote_ring node prio : only undelivered (get_remote_ring node prio).
Proof. unfold get_remote_ring, get_compact_index. undelivered. Qed.
#[local] Hint Resolve ud_get_remote_ring : undelivered.
Lemma ud_populate node prio : only undelivered (try_populate_cache node prio).
Proof. unfold try_populate_cache. undelivered. Qed.
#[local] Hint Resolve ud_populate : undelivered.

(** The lookup gives a ring or an error. *)
Lemma lookup_answer node prio : returns (fun r : Z * Z => r.1 = UB_COMM_OK \/ r.1 < 0) (get_remote_ring node prio).
Proof.
  unfold get_remote_ring.
  repeat first [ apply returns_bind; intros | case_bool | by left | by right ].
Qed.
Lemma populate_answer node prio : returns (fun r => r = UB_COMM_OK \/ r < 0) (try_populate_cache node prio).
Proof.
  unfold try_populate_cache. do 2 (case_bool; [by right|]). eapply returns_seq; [apply lookup_answer|]. intros [r a] Hr. cbn in Hr.
  case_bool; [exact Hr|]. repeat first [ apply returns_bind; intros | case_bool | by left | by right ].
Qed.

(** ** The whole of [send] *)

Lemma returns_lift {S T A} (V : A -> Prop) (l : lens S T) (p : prog T A) : returns V p -> returns V (lift l p).
Proof. induction p; cbn; auto. Qed.

Lemma send_answer fuel m : returns answer (send fuel m).
Proof.
  unfold send. destruct m as [m|]; [|by right]. apply returns_bind; intros g. case_bool; [by right|].
  destruct (route_priority (header m)) as [prio|]; [|by right]. do 3 (case_bool; [by right|]). apply returns_bind; intros alive.
  case_bool; [by right|]. case_bool.
  - unfold send_local. apply returns_bind; intros a. case_bool; [by right|]. apply returns_lift, local_answer.
  - unfold send_remote. do 2 (apply returns_bind; intros). apply (returns_seq (fun r => r = UB_COMM_OK \/ r < 0)).
    { case_bool; [by left|apply populate_answer]. }
    intros r Hr. case_bool; bool_to_prop.
    + apply returns_bind; intros _. right. by destruct Hr.
    + apply returns_bind; intros c. eapply returns_seq; [apply returns_lift, remote_answer|]. intros q Hq. by apply returns_bind.
Qed.

Lemma clean_send fuel m : clean undelivered is_flow (send fuel m).
Proof.
  unfold send. destruct m as [m|]; [|done]. apply clean_seq; [by apply only_load|]. intros g. case_bool; [done|].
  destruct (route_priority (header m)) as [prio|]; [|done]. do 3 (case_bool; [done|]).
  apply clean_seq; [case_bool; [by apply only_load|done]|]. intros alive. case_bool; [done|]. case_bool.
  - unfold send_local. apply clean_seq; [by apply only_load|]. intros a. case_bool; [done|].
    apply (clean_lift _ same_core); [apply local_ring_undelivered|apply clean_local].
  - unfold send_remote. apply clean_seq; [apply ud_lock|]. intros _. apply clean_seq; [by apply only_load|]. intros ready.
    apply clean_seq; [case_bool; [done|apply ud_populate]|]. intros ret.
    case_bool; [apply clean_seq; [apply ud_upd_rem|done]|]. apply clean_seq; [by apply only_load|]. intros c.
    apply (clean_bind _ is_flow).
    + apply (clean_lift _ same_core); [apply remote_ring_undelivered|apply clean_remote].
    + intros r. apply clean_seq; [apply ud_upd_rem|done].
    + intros r Hr. by apply returns_bind.
Qed.

(** What the caller can get wrong, or find missing, before any ring is looked up. *)
Definition unacceptable (w : tworld) (m : option message_t) : Prop :=
  let g := t_cfg (obj w) in let me := current_node_id (conf_ g) in
  match m with
  | None => True
  | Some m =>
      let h := header m in
      let own_type := msg_type h ∈ [MSG_TYPE_DIST_LOCK; MSG_TYPE_SYS_PEER_EXIT; MSG_TYPE_SYS_FLOW_CONFIG_UPDATE] in
      src_node_id h <> me \/ (~ own_type /\ (priority h = 0 \/ 8 <= priority h)) \/ 16 <= dest_node_id h \/
      (dest_node_id h <> me /\
         (node_id_to_idx_ g !! dest_node_id h = None \/ getZ true (peer_alive_ (t_hb (obj w))) (dest_node_id h) = false)) \/
      (dest_node_id h = me /\ own_type /\ getZ 0 (local_rings_ (t_loc (obj w))) LOCK_RING_PRIORITY = 0) \/
      (dest_node_id h = me /\ ~ own_type /\ getZ 0 (local_rings_ (t_loc (obj w))) (priority h) = 0)
  end.

Lemma route_cases h :
  (msg_type h ∈ [MSG_TYPE_DIST_LOCK; MSG_TYPE_SYS_PEER_EXIT; MSG_TYPE_SYS_FLOW_CONFIG_UPDATE] /\ route_priority h = Some LOCK_RING_PRIORITY) \/
  (~ (msg_type h ∈ [MSG_TYPE_DIST_LOCK; MSG_TYPE_SYS_PEER_EXIT; MSG_TYPE_SYS_FLOW_CONFIG_UPDATE]) /\
     route_priority h = (if priority h =? 0 then None else Some (priority h))).
Proof.
  unfold route_priority. rewrite !elem_of_cons, elem_of_nil.
  destruct (Z.eqb_spec (msg_type h) MSG_TYPE_DIST_LOCK); [left; by auto|].
  destruct (Z.eqb_spec (msg_type h) MSG_TYPE_SYS_PEER_EXIT); [left; by auto|].
  destruct (Z.eqb_spec (msg_type h) MSG_TYPE_SYS_FLOW_CONFIG_UPDATE); [left; by auto|].
  right. split; [tauto|]. done.
Qed.

#[local] Ltac refused := eexists; split; [reflexivity|done].

Lemma unacceptable_refused w m : unacceptable w m -> exists code, refusal w m = Some code /\ code < 0.
Proof.
  unfold unacceptable, refusal. destruct m as [m|]; [|refused]. intros H. cbv zeta in H.
  destruct (Z.eqb_spec (src_node_id (header m)) (current_node_id (conf_ (t_cfg (obj w))))) as [Es|Es]; cbn [negb]; [|refused].
  destruct (route_cases (header m)) as [[Ht ->]|[Ht ->]]; [|destruct (Z.eqb_spec (priority (header m)) 0); [refused|]].
  all: repeat match goal with
    | |- context [8 <=? ?x] => destruct (Z.leb_spec 8 x); [refused|]
    | |- context [16 <=? ?x] => destruct (Z.leb_spec 16 x); [refused|]
    end.
  all: destruct (Z.eqb_spec (dest_node_id (header m)) (current_node_id (conf_ (t_cfg (obj w))))) as [Ed|Ed].
  all: try (destruct (Z.eqb_spec (getZ 0 (local_rings_ (t_loc (obj w))) LOCK_RING_PRIORITY) 0); [refused|]).
  all: try (destruct (Z.eqb_spec (getZ 0 (local_rings_ (t_loc (obj w))) (priority (header m))) 0); [refused|]).
  all: try (destruct (node_id_to_idx_ (t_cfg (obj w)) !! dest_node_id (header m)); [|refused]).
  all: try (destruct (getZ true (peer_alive_ (t_hb (obj w))) (dest_node_id (header m))); [|refused]).
  all: exfalso; intuition (lia || congruence).
Qed.

(** * Properties *)

(** C34: a send that fails delivers nothing.  For every message and in every state of the instance and the shared memory:
    a null message, a forged sender, a reserved or unknown priority, an impossible or unknown destination,
    a destination whose heartbeat has stopped and a missing local ring are refused with a negative code and change nothing at
    all; and whenever [send] returns, the result is OK or CONGESTED, or it is negative and no ring has taken anything: not a ticket,
    not a byte of an entry, of no node.  This covers the errors after the lookup has begun (the node is not on the billboard, it has no
    such ring) and those of the ring (the message is too long, the ring is full or busy); there the lookup table and the
    caches of the sender may have been filled, and the padding of a billboard entry written. *)
Theorem failed_send_delivers_nothing fuel m env w :
  (unacceptable w m -> exists code, code < 0 /\ run (send fuel m) env w = (Some code, env, w)) /\
  (forall r env' w', run (send fuel m) env w = (Some r, env', w') -> is_flow r \/ (r < 0 /\ undelivered w w')).
Proof.
  split.
  - intros (code & Hr & Hc)%unacceptable_refused. exists code. split; [done|]. by apply send_refused.
  - intros r env' w' Hr. destruct (run_clean undelivered is_flow _ _ _ _ _ _ (clean_send fuel m) Hr) as [Hf|Hu]; [by left|].
    destruct (run_returns answer _ _ _ _ _ _ (send_answer fuel m) Hr) as [Hf|Hn]; [by left|by right].
Qed.

(** Node 5 looks for the ring of node 2 on the billboard, and then the message is too long for it. *)
Definition demo_too_long : message_t := Message (Header 9 200 2 5 10 3) (Some (replicate 200 0)).

Lemma failed_send_delivers_nothing_witness :
  (exists code, code < 0 /\ run (send 1 (Some (Message (Header 9 2 2 2 10 3) (Some [1; 2])))) [] demo_A = (Some code, [], demo_A)) /\
  exists w', run (send 1 (Some demo_too_long)) [] demo_A = (Some (- EMSGSIZE), [], w') /\ undelivered demo_A w'.
Proof.
  split.
  - apply failed_send_delivers_nothing. left. vm_compute. discriminate.
  - eexists. assert (H : run (send 1 (Some demo_too_long)) [] demo_A = (Some (- EMSGSIZE), [], (run (send 1 (Some demo_too_long)) [] demo_A).2))
      by (apply run_final; vm_compute; reflexivity).
    split; [exact H|]. destruct (proj2 (failed_send_delivers_nothing 1 (Some demo_too_long) [] demo_A) _ _ _ H) as [[Hf|Hf]|[_ Hu]];
      [discriminate Hf|discriminate Hf|exact Hu].
Defined.
