(* ===== verification/TransportPoll.v ===== *)
(** Receiving: what happens to a message that is dispatched, how a poll goes through the rings of a node, and the
    way of a message from one node to the callback registered at another. *)

From S2P Require Import Prelude Atomic CommTypes MPSCRing MPSCConc MPSCSeq ThreadPool Transport TransportInit TransportRun.
Import MPSCRingBuffer UBShmTransport.

#[local] Arguments decode_header : simpl never.
#[local] Arguments encode_header : simpl never.
#[local] Arguments bytes : simpl never.

(** * Dispatch *)

(** A pool that takes tasks, and the pool with one task more. *)
Definition pool_open (p : pool_state async_task) : Prop :=
  mtx p = false /\ shuttingDown p = false /\ threads p <> 0%nat.
Definition pool_with (t : async_task) (ws : list nat) (p : pool_state async_task) : pool_state async_task :=
  Pool (taskQueue p ++ [t]) false ws false (threads p) (finished p).

Lemma run_pool_enqueue fuel t env w p :
  (1 <= fuel)%nat -> worker_pool_ (t_run (obj w)) = Some p -> pool_open p ->
  exists ws, run (ThreadPool.enqueue l_worker_pool fuel t) env w =
    (Some Queued, drop 1 env, lset l_run (with_pool (Some (pool_with t ws p)) (t_run (obj w))) w).
Proof.
  intros Hf Hp (Hm & Hs & Ht). unfold ThreadPool.enqueue, ThreadPool.lock. rewrite iter_round by done.
  unfold ThreadPool.lock_round. cbn. rewrite Hp. cbn. rewrite Hm. cbn. rewrite Hs. cbn.
  rewrite (proj2 (Nat.eqb_neq _ _) Ht). cbn. destruct p as [tq mt ws sd th fi]. cbn in Hm, Hs. subst mt sd.
  destruct env as [|z env]; eexists; reflexivity.
Qed.

(** In a quiet environment the notification reaches the first of the blocked workers. *)
Lemma run_pool_enqueue_quiet fuel t w p :
  (1 <= fuel)%nat -> worker_pool_ (t_run (obj w)) = Some p -> pool_open p ->
  run (ThreadPool.enqueue l_worker_pool fuel t) [] w =
    (Some Queued, [], lset l_run (with_pool (Some (pool_with t (List.tl (waiting p)) p)) (t_run (obj w))) w).
Proof.
  intros Hf Hp (Hm & Hs & Ht). unfold ThreadPool.enqueue, ThreadPool.lock. rewrite iter_round by done.
  unfold ThreadPool.lock_round. cbn. rewrite Hp. cbn. rewrite Hm. cbn. rewrite Hs. cbn.
  rewrite (proj2 (Nat.eqb_neq _ _) Ht). cbn. destruct p as [tq mt ws sd th fi]. cbn in Hm, Hs. subst mt sd. by destruct ws.
Qed.

Section Dispatch.
Context (fuel : nat) (app : Z -> Z -> message_t -> prog tworld unit).

(** The callback registered for the type of a message. *)
Definition registered (w : tworld) (m : msg) : cb_info_t := getZ no_cb (callbacks_ (t_run (obj w))) (msg_type m.1).

Lemma run_dispatch m env w :
  wf_header m.1 -> body_length m.1 = Z.of_nat (length m.2) ->
  let info := registered w m in
  run (dispatch_internal fuel app (bytes m) (Z.of_nat (length (bytes m)))) env w =
  if bool_decide (cb_func info = cb_null) then (Some (- ENOENT), env, w)
  else if cb_type info =? UB_FUNC_SYNC then run (invoke fuel app info (Message m.1 (Some m.2)) ;;; Ret 0) env w
  else run (do pool <- get l_run (fun u => bool_decide (is_Some (worker_pool_ u)));
            if negb pool then Ret (- EPIPE) else
            do z <- ask QExternal;
            if negb (z =? 0) then Ret (- ENOMEM) else
            do r <- ThreadPool.enqueue l_worker_pool fuel (AsyncTask info m.1 m.2);
            Ret (match r with Queued => 0 | _ => - EPIPE end)) env w.
Proof.
  intros Hh Hl info. unfold dispatch_internal, bytes. rewrite length_app, length_encode_header, Nat2Z.inj_add.
  change (Z.of_nat 16) with MSG_HEADER_LEN. rewrite (proj2 (Z.ltb_ge _ _)) by lia.
  rewrite decode_encode_header by done. cbv zeta. rewrite run_get. cbn [lget l_run]. fold (registered w m). fold info.
  destruct (bool_decide _); [done|].
  replace (drop (Z.to_nat MSG_HEADER_LEN) (encode_header m.1 ++ m.2)) with m.2.
  2:{ rewrite drop_app_length' by (by rewrite length_encode_header). done. }
  destruct (cb_type info =? UB_FUNC_SYNC); [done|].
  replace (take _ m.2) with m.2; [done|]. rewrite take_ge; [done|]. lia.
Qed.

(** Dispatching reaches the callback registered for the type of the message, and nothing else.  After
    [register_func], a message of that type runs the registered function with the registered context and the message as it
    was sent, when the callback is synchronous; when it is asynchronous, the function, the context and a copy of
    the message are put at the end of the queue of the worker pool (and [run_task] later makes the same call).
    A type without a callback is refused with -ENOENT, a short message with -EMSGSIZE, an
    asynchronous message without a pool or with a pool that is shutting down with -EPIPE; none of these changes anything. *)
Theorem dispatch_calls_registered m t ft f ctx env w w' :
  wf_header m.1 -> body_length m.1 = Z.of_nat (length m.2) -> (1 <= fuel)%nat ->
  length (callbacks_ (t_run (obj w))) = 256%nat -> msg_type m.1 = t ->
  run (register_func t ft f ctx) env w = (Some 0, env, w') ->
  let d e w := run (dispatch_internal fuel app (bytes m) (Z.of_nat (length (bytes m)))) e w in
  let info := CbInfo f ctx ft in
  (f <> cb_null -> ft = UB_FUNC_SYNC -> d env w' = run (invoke fuel app info (Message m.1 (Some m.2)) ;;; Ret 0) env w') /\
  (forall p, f <> cb_null -> ft = UB_FUNC_ASYNC -> worker_pool_ (t_run (obj w)) = Some p -> pool_open p ->
     exists ws, d (0 :: env) w' = (Some 0, drop 1 env, lset l_run (with_pool
       (Some (pool_with (AsyncTask info m.1 m.2) ws p)) (t_run (obj w'))) w') /\
       run_task fuel app (AsyncTask info m.1 m.2) = invoke fuel app info (Message m.1 (Some m.2))) /\
  (f <> cb_null -> ft = UB_FUNC_ASYNC -> worker_pool_ (t_run (obj w)) = None -> d env w' = (Some (- EPIPE), env, w')) /\
  (f = cb_null -> d env w' = (Some (- ENOENT), env, w')) /\
  (forall data len, len < MSG_HEADER_LEN -> run (dispatch_internal fuel app data len) env w' = (Some (- EMSGSIZE), env, w')).
Proof.
  intros Hh Hl Hf Hcb Ht Hreg d info.
  assert (Hw' : w' = lset l_run (with_callback t info (t_run (obj w))) w /\ 0 <= t < 256).
  { assert (Hty : 0 <= msg_type m.1 < 256) by (by destruct Hh as (_ & _ & ?%Forall_inv_tail%Forall_inv_tail%Forall_inv)).
    unfold register_func in Hreg. destruct (256 <=? t); [done|]. destruct (_ && _); [done|].
    rewrite run_upd in Hreg. injection Hreg as <-. split; [done|lia]. }
  destruct Hw' as [-> Hty].
  assert (Hinfo : registered (lset l_run (with_callback t info (t_run (obj w))) w) m = info).
  { unfold registered. rewrite Ht. cbn. apply getZ_setZ_eq. lia. }
  assert (Hd := fun e w => run_dispatch m e w Hh Hl). unfold d. cbv zeta in Hd. split_and!.
  - intros Hn ->. rewrite Hd, Hinfo. by rewrite bool_decide_eq_false_2.
  - intros p Hn -> Hp Ho. rewrite Hd, Hinfo, bool_decide_eq_false_2 by done. cbn [cb_type info].
    change (UB_FUNC_ASYNC =? UB_FUNC_SYNC) with false. cbv iota. rewrite run_get. cbn [lget l_run].
    set (wr := lset l_run (with_callback t info (t_run (obj w))) w).
    change (worker_pool_ (t_run (obj wr))) with (worker_pool_ (t_run (obj w))). rewrite Hp, bool_decide_eq_true_2 by (by eexists).
    cbn [negb]. change (run (bind (ask QExternal) ?k) (0 :: env) wr) with (run (k 0) env wr). cbv beta.
    change (negb (0 =? 0)) with false. cbv iota.
    destruct (run_pool_enqueue fuel (AsyncTask info m.1 m.2) env wr p Hf Hp Ho) as (ws & Hrun).
    exists ws. split; [|done]. rewrite run_bind, Hrun. done.
  - intros Hn -> Hp. rewrite Hd, Hinfo, bool_decide_eq_false_2 by done. cbn [cb_type info].
    change (UB_FUNC_ASYNC =? UB_FUNC_SYNC) with false. cbv iota. rewrite run_get. cbn. by rewrite Hp.
  - intros ->. rewrite Hd, Hinfo. by rewrite bool_decide_eq_true_2.
  - intros data len Hlen. unfold dispatch_internal. by rewrite (proj2 (Z.ltb_lt _ _) Hlen).
Qed.
End Dispatch.

(** * Polling *)

(** An application that records the calls it gets. *)
Definition log_app (f ctx : Z) (m : message_t) : prog tworld unit :=
  store (fun w => TWorld (shm w) (this w) (obj w) (disp_tls w) (app_log w ++ [(f, ctx, m)])).

(** An active ring of this node: its priority, address and geometry. *)
Abbreviation box := (Z * Z * geometry)%type.

Record box_holds (w : tworld) (size : Z) (b : box) (q : list msg) : Prop := {
  bh_addr : getZ 0 (local_rings_ (t_loc (obj w))) b.1.1 = b.1.2; bh_null : b.1.2 <> 0;
  bh_geom : wf_geometry b.2; bh_size : max_msg_size b.2 <= size; bh_queue : holds_queue (shm w) b.1.2 b.2 q }.

(** The rings a poll looks at, in its order, and what they hold. *)
Record inbox (w : tworld) (size : Z) (bs : list box) (qs : list (list msg)) : Prop := {
  ib_active : local_active_priorities_ (t_loc (obj w)) = (fun b => b.1.1) <$> bs;
  ib_few : (length bs <= 8)%nat;
  ib_apart : NoDup ((fun b => b.1.2) <$> bs);
  ib_holds : Forall2 (box_holds w size) bs qs }.

(** The call a message of an application leads to, when its callback is synchronous. *)
Definition sync_call (cbs : list cb_info_t) (m : msg) : option (Z * Z * message_t) :=
  let i := getZ no_cb cbs (msg_type m.1) in
  match cb_func i with
  | cb_app f => if cb_type i =? UB_FUNC_SYNC then Some (f, cb_ctx i, Message m.1 (Some m.2)) else None
  | _ => None
  end.

(** What the dispatch of a message of an application does to the members of the instance and to the log: a synchronous callback
    is called, an asynchronous one is queued for the workers.  [None]: neither. *)
Abbreviation view := (transport * list (Z * Z * message_t))%type.
Definition view_of (w : tworld) : view := (obj w, app_log w).
Definition accepts (p : pool_state async_task) : bool := negb (mtx p) && negb (shuttingDown p) && negb (threads p =? 0)%nat.
Definition queued_in (t : async_task) (p : pool_state async_task) : pool_state async_task := pool_with t (List.tl (waiting p)) p.
Definition put_pool (p : pool_state async_task) (o : transport) : transport :=
  Transport (t_cfg o) (t_loc o) (t_rem o) (t_hb o) (with_pool (Some p) (t_run o)).
Definition handled (m : msg) (v : view) : option view :=
  let i := getZ no_cb (callbacks_ (t_run v.1)) (msg_type m.1) in
  match cb_func i with
  | cb_app f =>
      if cb_type i =? UB_FUNC_SYNC then Some (v.1, v.2 ++ [(f, cb_ctx i, Message m.1 (Some m.2))])
      else match worker_pool_ (t_run v.1) with
        | Some p => if accepts p then Some (put_pool (queued_in (AsyncTask i m.1 m.2) p) v.1, v.2) else None
        | None => None
        end
  | _ => None
  end.
Fixpoint handle_all (ms : list msg) (v : view) : option view :=
  match ms with [] => Some v | m :: ms' => match handled m v with Some v' => handle_all ms' v' | None => None end end.

Lemma handle_all_sync ms calls v :
  sync_call (callbacks_ (t_run v.1)) <$> ms = Some <$> calls -> handle_all ms v = Some (v.1, v.2 ++ calls).
Proof.
  revert calls v. induction ms as [|m ms IH]; intros [|c calls] v Hc; try done.
  - cbn. rewrite app_nil_r. by destruct v.
  - injection Hc as Hm Hc. cbn. unfold handled. unfold sync_call in Hm. destruct (cb_func _); try done.
    destruct (_ =? _); [|done]. injection Hm as <-. rewrite (IH calls) by exact Hc. cbn. by rewrite <- (assoc_L (++)).
Qed.

Lemma handled_loc m v v' : handled m v = Some v' -> t_loc v'.1 = t_loc v.1.
Proof.
  unfold handled. destruct (cb_func _); try done. destruct (_ =? _); [by intros [= <-]|].
  destruct (worker_pool_ _) as [p|]; [|done]. destruct (accepts p); [|done]. by intros [= <-].
Qed.

(** Taking the head of the first queue that has one. *)
Lemma concat_first {A} (qs : list (list A)) i m q :
  qs !! i = Some (m :: q) -> (forall j, (j < i)%nat -> qs !! j = Some []) -> concat qs = m :: concat (<[i := q]> qs).
Proof.
  revert i. induction qs as [|q0 qs IH]; intros i Hi Hb; [done|]. destruct i as [|i]; cbn in *.
  - by injection Hi as ->.
  - assert (Hq0 := Hb 0%nat ltac:(lia)). injection Hq0 as ->. cbn. apply IH; [done|]. intros j Hj. apply (Hb (S j)). lia.
Qed.

Lemma concat_nil {A} (qs : list (list A)) j q : concat qs = [] -> qs !! j = Some q -> q = [].
Proof.
  revert j. induction qs as [|q0 qs IH]; intros j Hc Hj; [done|]. cbn in Hc. apply app_nil in Hc as [Hq0 Hc].
  destruct j as [|j]; cbn in Hj; [congruence|by eapply IH].
Qed.

Lemma concat_nil_map {A} (qs : list (list A)) : concat qs = [] -> qs = (fun _ => []) <$> qs.
Proof.
  intros Hc. apply list_eq. intros j. rewrite list_lookup_fmap. destruct (qs !! j) as [q|] eqn:Ej; [|done].
  cbn. by rewrite (concat_nil qs j q Hc Ej).
Qed.

Lemma concat_split {A} (qs : list (list A)) :
  concat qs <> [] -> exists i m q, qs !! i = Some (m :: q) /\ forall j, (j < i)%nat -> qs !! j = Some [].
Proof.
  induction qs as [|[|m q] qs IH]; intros Hc; [done| |].
  - destruct IH as (i & m & q & Hi & Hb); [done|]. exists (S i), m, q. split; [done|].
    intros [|j] Hj; [done|]. apply Hb. lia.
  - exists 0%nat, m, q. split; [done|]. intros j Hj. lia.
Qed.

(** What a poll of the rings [bs] may change in the shared memory: these rings, and in them nothing of what the senders
    write first. *)
Record poll_mem (bs : list box) (m m' : shared_mem) : Prop := {
  pm_boards : boards m' = boards m;
  pm_rings : forall a, a ∉ ((fun b => b.1.2) <$> bs) -> rings m' !! a = rings m !! a;
  pm_tail : forall a, tail (ring_at m' a) = tail (ring_at m a) }.
#[export] Instance poll_mem_preorder bs : PreOrder (poll_mem bs).
Proof.
  split; [by intros m|]. intros m1 m2 m3 [B1 R1 T1] [B2 R2 T2]. split; [congruence| |congruence].
  intros a Ha. by rewrite R2, R1.
Qed.

Lemma dequeue_mem fuel bs i b cap env r w x env' w1 :
  bs !! i = Some b -> rings (shm w) !! b.1.2 = Some r ->
  run (dequeue fuel b.1.2 cap) env (World r [] (disp_tls w)) = (x, env', w1) ->
  poll_mem bs (shm w) (with_ring b.1.2 (w_ring w1) (shm w)).
Proof.
  intros Hb Hr Hrun. split; [done| |].
  - intros a Ha. cbn. rewrite lookup_insert_ne; [done|]. intros <-. apply Ha, list_elem_of_fmap. exists b. eauto using list_elem_of_lookup_2.
  - intros a. unfold ring_at. cbn. destruct (decide (a = b.1.2)) as [->|Hne]; [|by rewrite lookup_insert_ne].
    rewrite lookup_insert_eq, Hr. cbn. assert (Ht : same_tail (World r [] (disp_tls w)) w1); [|exact Ht].
    change w1 with (x, env', w1).2. rewrite <- Hrun. apply run_only; [apply _|apply _|apply dequeue_same_tail].
Qed.

(** Dispatching a message that is [handled]. *)
Lemma run_handled fuel m w v :
  (1 <= fuel)%nat -> wf_header m.1 -> body_length m.1 = Z.of_nat (length m.2) -> handled m (view_of w) = Some v ->
  exists c, run (dispatch_internal fuel log_app (bytes m) (Z.of_nat (length (bytes m)))) [] w =
    (Some c, [], TWorld (shm w) (this w) v.1 (disp_tls w) v.2).
Proof.
  intros Hf Hh Hl Hv. rewrite (run_dispatch fuel log_app m [] w Hh Hl). unfold handled in Hv. cbn [view_of fst snd] in Hv.
  fold (registered w m) in Hv. set (info := registered w m) in *. destruct (cb_func info) as [| | |f] eqn:Ef; try done.
  rewrite bool_decide_eq_false_2 by done. destruct (cb_type info =? UB_FUNC_SYNC).
  - injection Hv as <-. unfold invoke. rewrite Ef. cbn [run bind log_app store act]. by eexists.
  - destruct (worker_pool_ (t_run (obj w))) as [p|] eqn:Ep; [|done]. destruct (accepts p) eqn:Ea; [|done]. injection Hv as <-.
    assert (Ho : pool_open p).
    { unfold accepts in Ea. destruct p as [? [] ? [] [] ?]; cbn in *; done. }
    rewrite run_get. cbn [lget l_run]. rewrite Ep. rewrite bool_decide_eq_true_2 by (by eexists).
    cbn [negb]. change (run (bind (ask QExternal) ?k) [] w) with (run (k 0) [] w). cbv beta. change (negb (0 =? 0)) with false. cbv iota.
    rewrite run_bind, (run_pool_enqueue_quiet fuel _ w p Hf Ep Ho). cbn. eexists. done.
Qed.

Section Polling.
Context (fuel : nat) (size : Z) (bs : list box).
Hypothesis Hfuel : (1 <= fuel)%nat.

(** Changing the queue of one ring. *)
Lemma inbox_update w w' qs i b q' :
  inbox w size bs qs -> bs !! i = Some b -> t_loc (obj w') = t_loc (obj w) -> (forall a, a <> b.1.2 -> rings (shm w') !! a = rings (shm w) !! a) ->
  holds_queue (shm w') b.1.2 b.2 q' -> inbox w' size bs (<[i := q']> qs).
Proof.
  intros [] Hb Ho Hoth Hq. constructor; rewrite ?Ho; try done.
  apply Forall2_same_length_lookup_2; [by rewrite length_insert; eapply Forall2_length|].
  intros j b' q Hj Hqj. destruct (decide (j = i)) as [->|Hne].
  - assert (Hbb : Some b' = Some b) by (by rewrite <- Hj, <- Hb). injection Hbb as ->.
    rewrite list_lookup_insert_eq in Hqj by (erewrite <- Forall2_length by exact ib_holds0; by eapply lookup_lt_Some).
    injection Hqj as <-. destruct (lookup_lt_is_Some_2 qs i) as [q0 Hq0].
    { erewrite <- Forall2_length by exact ib_holds0. by eapply lookup_lt_Some. }
    destruct (Forall2_lookup_lr _ _ _ _ _ _ ib_holds0 Hb Hq0). constructor; rewrite ?Ho; done.
  - rewrite list_lookup_insert_ne in Hqj by done.
    destruct (Forall2_lookup_lr _ _ _ _ _ _ ib_holds0 Hj Hqj) as [? ? ? ? (r & Hr & HR)].
    constructor; rewrite ?Ho; try done. exists r. split; [|done]. rewrite Hoth; [done|].
    intros He. apply Hne. assert (Hn := ib_apart0). rewrite NoDup_alt in Hn.
    apply (Hn j i b.1.2); rewrite list_lookup_fmap; [rewrite <- He; exact (f_equal (fmap _) Hj)|exact (f_equal (fmap _) Hb)].
Qed.

Lemma run_get_active {C} w qs (k : list Z -> prog tworld C) env :
  inbox w size bs qs -> run (bind (get l_loc local_active_priorities_) k) env w = run (k ((fun b => b.1.1) <$> bs)) env w.
Proof. intros []. rewrite run_get. cbn [lget l_loc]. by rewrite ib_active0. Qed.

(** A round that finds ring [i] empty. *)
Lemma poll_round_empty w qs total i b :
  inbox w size bs qs -> total < MAX_BATCH_PER_POLL -> bs !! i = Some b -> qs !! i = Some [] ->
  exists w', run (poll_round fuel log_app size (total, Z.of_nat i)) [] w = (Some (inl (total, Z.of_nat i + 1)), [], w') /\
    inbox w' size bs qs /\ view_of w' = view_of w /\ poll_mem bs (shm w) (shm w').
Proof.
  intros Hin Ht Hb Hq. unfold poll_round. rewrite (run_get_active w qs _ [] Hin). rewrite length_fmap.
  assert (Hi := lookup_lt_Some _ _ _ Hb). rewrite (proj2 (Z.ltb_lt _ _)) by lia. cbn [negb].
  rewrite (proj2 (Z.leb_gt _ _) Ht), run_get.
  assert (Hp : getZ 0 ((fun b : box => b.1.1) <$> bs) (Z.of_nat i) = b.1.1).
  { apply getZ_lookup. by rewrite Nat2Z.id, list_lookup_fmap, Hb. }
  rewrite Hp. cbn [lget l_loc]. destruct (Forall2_lookup_lr _ _ _ _ _ _ (ib_holds _ _ _ _ Hin) Hb Hq) as [Ha Hn Hg Hs (r & Hr & HR)].
  rewrite Ha, (proj2 (Z.eqb_neq _ _) Hn), run_bind, (run_local_ring b.1.2 _ [] w r Hr (dequeue_peers _ _ _)).
  destruct (run_dequeue_none b.2 Hg fuel b.1.2 size (World r [] (disp_tls w))) as (w1 & Hdq & HR1); [by eapply rep_alone|].
  rewrite Hdq. change (0 <? 0) with false. cbv iota. cbn [run]. eexists. split; [done|].
  split; [|split; [done|exact (dequeue_mem _ _ _ _ _ _ _ _ _ _ _ Hb Hr Hdq)]].
  rewrite <- (list_insert_id qs i []) by done. eapply inbox_update; [exact Hin|exact Hb|done| |].
  - intros a Hne. cbn. by rewrite lookup_insert_ne.
  - exists (w_ring w1). split; [cbn; by rewrite lookup_insert_eq|]. destruct w1 as [? ? ?]. by eapply rep_alone.
Qed.

(** A round that finds a message. *)
Lemma poll_round_message w qs total i b m q v :
  inbox w size bs qs -> total < MAX_BATCH_PER_POLL -> bs !! i = Some b -> qs !! i = Some (m :: q) ->
  handled m (view_of w) = Some v ->
  exists w', run (poll_round fuel log_app size (total, Z.of_nat i)) [] w = (Some (inl (total + 1, 0)), [], w') /\
    inbox w' size bs (<[i := q]> qs) /\ view_of w' = v /\ poll_mem bs (shm w) (shm w').
Proof.
  intros Hin Ht Hb Hq Hc. unfold poll_round. rewrite (run_get_active w qs _ [] Hin). rewrite length_fmap.
  assert (Hi := lookup_lt_Some _ _ _ Hb). rewrite (proj2 (Z.ltb_lt _ _)) by lia. cbn [negb].
  rewrite (proj2 (Z.leb_gt _ _) Ht), run_get.
  assert (Hp : getZ 0 ((fun b : box => b.1.1) <$> bs) (Z.of_nat i) = b.1.1).
  { apply getZ_lookup. by rewrite Nat2Z.id, list_lookup_fmap, Hb. }
  rewrite Hp. cbn [lget l_loc]. destruct (Forall2_lookup_lr _ _ _ _ _ _ (ib_holds _ _ _ _ Hin) Hb Hq) as [Ha Hn Hg Hs (r & Hr & HR)].
  rewrite Ha, (proj2 (Z.eqb_neq _ _) Hn), run_bind, (run_local_ring b.1.2 _ [] w r Hr (dequeue_peers _ _ _)).
  destruct (run_dequeue_some b.2 Hg fuel b.1.2 size (World r [] (disp_tls w)) q m Hfuel) as (w1 & Hdq & HR1);
    [by eapply rep_alone|done|]. rewrite Hdq.
  destruct (rep_msgs _ _ _ HR 0 m eq_refl) as ((Hh & Hl & _) & _).
  assert (Hlen : Z.of_nat (length (bytes m)) = 16 + Z.of_nat (length m.2)).
  { unfold bytes. rewrite length_app, length_encode_header. lia. }
  rewrite (proj2 (Z.ltb_lt 0 _)) by lia. cbv iota. set (w2 := lset (l_local_ring b.1.2) w1 w).
  destruct (run_handled fuel m w2 v Hfuel Hh Hl Hc) as (c & Hd). rewrite run_bind, Hd. cbn [run].
  eexists. split; [done|]. split; [|split; [by destruct v|exact (dequeue_mem _ _ _ _ _ _ _ _ _ _ _ Hb Hr Hdq)]].
  eapply inbox_update; [exact Hin|exact Hb|exact (handled_loc _ _ _ Hc)| |].
  - intros a Hne. cbn. by rewrite lookup_insert_ne.
  - exists (w_ring w1). split; [cbn; by rewrite lookup_insert_eq|]. destruct w1 as [? ? ?]. by eapply rep_alone.
Qed.

Lemma run_iter_inl {L A} n (body : L -> prog tworld (L + A)) l l' w w' :
  run (body l) [] w = (Some (inl l'), [], w') -> run (iter (S n) body l) [] w = run (iter n body l') [] w'.
Proof. intros Hr. cbn [iter]. by rewrite run_bind, Hr. Qed.

(** Stopping: past the last ring, or at the limit of a poll. *)
Lemma poll_stops i n w qs total :
  inbox w size bs qs -> (length bs <= i)%nat \/ MAX_BATCH_PER_POLL <= total ->
  run (iter (S n) (poll_round fuel log_app size) (total, Z.of_nat i)) [] w = (Some total, [], w).
Proof.
  intros Hin Hs. cbn [iter]. rewrite run_bind. unfold poll_round at 1. rewrite (run_get_active w qs _ [] Hin), length_fmap.
  destruct (negb _) eqn:E; [done|]. bool_to_prop. rewrite (proj2 (Z.leb_le _ _)) by lia. done.
Qed.

(** Nothing is waiting: the loop walks over the remaining rings. *)
Lemma poll_idle d : forall i n w qs total,
  inbox w size bs qs -> concat qs = [] -> (length bs - i <= d)%nat -> (d < n)%nat ->
  exists w', run (iter n (poll_round fuel log_app size) (total, Z.of_nat i)) [] w = (Some total, [], w') /\
    inbox w' size bs qs /\ view_of w' = view_of w /\ poll_mem bs (shm w) (shm w').
Proof.
  induction d as [|d IH]; intros i n w qs total Hin Hc Hd Hn; (destruct n as [|n]; [lia|]).
  - exists w. by rewrite (poll_stops i n w qs total Hin) by (left; lia).
  - destruct (decide (length bs <= i)%nat) as [Hi|Hi]; [exists w; by rewrite (poll_stops i n w qs total Hin) by (by left)|].
    destruct (decide (total < MAX_BATCH_PER_POLL)) as [Ht|Ht]; [|exists w; rewrite (poll_stops i n w qs total Hin) by (right; lia); done].
    destruct (lookup_lt_is_Some_2 bs i) as [b Hb]; [lia|]. assert (Hl := Forall2_length _ _ _ (ib_holds _ _ _ _ Hin)).
    destruct (lookup_lt_is_Some_2 qs i) as [q Hq]; [lia|]. assert (q = []) as -> by (by eapply concat_nil).
    destruct (poll_round_empty w qs total i b Hin Ht Hb Hq) as (w1 & Hr & Hin1 & Hv1 & Hm1).
    rewrite (run_iter_inl n _ _ _ _ _ Hr). replace (Z.of_nat i + 1) with (Z.of_nat (S i)) by lia.
    destruct (IH (S i) n w1 qs total Hin1 Hc) as (w' & Hr' & Hin' & Hv' & Hm'); [lia|lia|].
    exists w'. rewrite Hr', Hv', Hv1. do 3 (split; [done|]). by etrans.
Qed.

(** The loop up to the first message, which is in ring [k]. *)
Lemma poll_walk d : forall i n w qs total m q,
  inbox w size bs qs -> total < MAX_BATCH_PER_POLL -> qs !! (i + d)%nat = Some (m :: q) ->
  (forall j, (j < i + d)%nat -> qs !! j = Some []) ->
  exists w', run (iter (d + n) (poll_round fuel log_app size) (total, Z.of_nat i)) [] w =
      run (iter n (poll_round fuel log_app size) (total, Z.of_nat (i + d))) [] w' /\
    inbox w' size bs qs /\ view_of w' = view_of w /\ poll_mem bs (shm w) (shm w').
Proof.
  induction d as [|d IH]; intros i n w qs total m q Hin Ht Hq Hb; [exists w; by rewrite Nat.add_0_r|].
  assert (Hl := Forall2_length _ _ _ (ib_holds _ _ _ _ Hin)). assert (Hlt := lookup_lt_Some _ _ _ Hq).
  destruct (lookup_lt_is_Some_2 bs i) as [b Hbi]; [lia|].
  destruct (poll_round_empty w qs total i b Hin Ht Hbi) as (w1 & Hr & Hin1 & Hv1 & Hm1); [apply Hb; lia|].
  cbn [Nat.add]. rewrite (run_iter_inl (d + n) _ _ _ _ _ Hr). replace (Z.of_nat i + 1) with (Z.of_nat (S i)) by lia.
  replace (i + S d)%nat with (S i + d)%nat in * by lia.
  destruct (IH (S i) n w1 qs total m q Hin1 Ht Hq Hb) as (w' & Hr' & Hin' & Hv' & Hm').
  exists w'. rewrite Hr', Hv', Hv1. do 3 (split; [done|]). by etrans.
Qed.

(** The whole loop, with [k] messages waiting. *)
Lemma poll_loop k : forall n w qs total v,
  inbox w size bs qs -> length (concat qs) = k -> total + Z.of_nat k <= MAX_BATCH_PER_POLL ->
  (9 * (k + 1) <= n)%nat -> handle_all (concat qs) (view_of w) = Some v ->
  exists w', run (iter n (poll_round fuel log_app size) (total, 0)) [] w = (Some (total + Z.of_nat k), [], w') /\
    inbox w' size bs ((fun _ => []) <$> qs) /\ view_of w' = v /\ poll_mem bs (shm w) (shm w').
Proof.
  induction k as [|k IH]; intros n w qs total v Hin Hk Ht Hn Hc; assert (Hfew := ib_few _ _ _ _ Hin).
  - apply nil_length_inv in Hk. rewrite Hk in Hc. injection Hc as <-.
    destruct (poll_idle (length bs) 0 n w qs total Hin Hk) as (w' & Hr & Hin' & Hv & Hm'); [lia|lia|].
    exists w'. rewrite Z.add_0_r. rewrite <- (concat_nil_map qs Hk). done.
  - destruct (concat_split qs) as (i & m & q & Hq & Hb); [by intros He; rewrite He in Hk|].
    assert (Hl := Forall2_length _ _ _ (ib_holds _ _ _ _ Hin)). assert (Hi := lookup_lt_Some _ _ _ Hq).
    assert (Hcat := concat_first qs i m q Hq Hb). rewrite Hcat in Hc, Hk. cbn [handle_all] in Hc.
    destruct (handled m (view_of w)) as [v1|] eqn:Em; [|done].
    replace n with (i + S (n - i - 1))%nat by lia.
    destruct (poll_walk i 0 (S (n - i - 1)) w qs total m q Hin) as (w1 & Hw & Hin1 & Hv1 & Hm1); [lia|done|done|].
    change (total, 0) with (total, Z.of_nat 0). rewrite Hw.
    destruct (lookup_lt_is_Some_2 bs i) as [b Hbi]; [lia|]. rewrite Nat.add_0_l.
    destruct (poll_round_message w1 qs total i b m q v1 Hin1) as (w2 & Hr & Hin2 & Hv2 & Hm2); [lia|done|done|by rewrite Hv1|].
    rewrite (run_iter_inl _ _ _ _ _ _ Hr). cbn in Hk.
    destruct (IH (n - i - 1)%nat w2 (<[i := q]> qs) (total + 1) v Hin2) as (w' & Hr' & Hin' & Hv' & Hm'); [lia|lia|lia|by rewrite Hv2|].
    exists w'. split; [replace (total + Z.of_nat (S k)) with (total + 1 + Z.of_nat k) by lia; exact Hr'|].
    split; [by rewrite list_fmap_insert, list_insert_id in Hin' by (by rewrite list_lookup_fmap, Hq)|]. split; [done|].
    etrans; [exact Hm1|]. by etrans.
Qed.
End Polling.

(** A poll of messages that the callbacks take, synchronous and asynchronous ones. *)
Lemma run_poll_handled fuel size bs qs v w :
  (1 <= fuel)%nat -> inbox w size bs qs -> Z.of_nat (length (concat qs)) <= MAX_BATCH_PER_POLL ->
  handle_all (concat qs) (view_of w) = Some v ->
  exists w', run (poll_and_dispatch_once fuel log_app size) [] w = (Some (Z.of_nat (length (concat qs))), [], w') /\
    inbox w' size bs ((fun _ => []) <$> qs) /\ view_of w' = v /\ poll_mem bs (shm w) (shm w').
Proof.
  intros Hf Hin Hn Hc. unfold poll_and_dispatch_once, POLL_ROUNDS.
  destruct (poll_loop fuel size bs Hf (length (concat qs)) (Z.to_nat (9 * (MAX_BATCH_PER_POLL + 1))) w qs 0 v Hin)
    as (w' & Hr & Hin' & Hv & Hmem); [done|lia|unfold MAX_BATCH_PER_POLL in *; lia|done|].
  rewrite Z.add_0_l in Hr. exists w'. done.
Qed.

Lemma run_poll fuel size bs qs calls w :
  (1 <= fuel)%nat -> inbox w size bs qs -> Z.of_nat (length (concat qs)) <= MAX_BATCH_PER_POLL ->
  sync_call (callbacks_ (t_run (obj w))) <$> concat qs = Some <$> calls ->
  exists w', run (poll_and_dispatch_once fuel log_app size) [] w = (Some (Z.of_nat (length (concat qs))), [], w') /\
    inbox w' size bs ((fun _ => []) <$> qs) /\ app_log w' = app_log w ++ calls /\ obj w' = obj w.
Proof.
  intros Hf Hin Hn Hc. destruct (run_poll_handled fuel size bs qs _ w Hf Hin Hn (handle_all_sync _ _ (view_of w) Hc))
    as (w' & Hr & Hi & Hv & _). injection Hv as Ho Hl. by exists w'.
Qed.

(** C23: a poll empties the inbox.  When at most [MAX_BATCH_PER_POLL] (8192) messages are waiting in the
    rings of a node, all of types with a synchronous callback of the application, one poll returns their number; the
    application has been called once for each of them, with the message as it was sent, ring by ring in the order of
    [local_active_priorities_] and in each ring in the order of arrival; and all the rings are empty.  The rings are in the order they were
    created in: the lock ring, then those of the configuration as it lists them, whatever their priorities ([poll_order_as_configured]). *)
Theorem poll_empties_inbox fuel size bs qs calls w :
  (1 <= fuel)%nat -> inbox w size bs qs -> Z.of_nat (length (concat qs)) <= MAX_BATCH_PER_POLL ->
  sync_call (callbacks_ (t_run (obj w))) <$> concat qs = Some <$> calls ->
  exists w', run (poll_and_dispatch_once fuel log_app size) [] w = (Some (Z.of_nat (length (concat qs))), [], w') /\
    app_log w' = app_log w ++ calls /\ inbox w' size bs ((fun _ => []) <$> qs) /\ obj w' = obj w.
Proof. intros Hf Hin Hn Hc. destruct (run_poll fuel size bs qs calls w Hf Hin Hn Hc) as (w' & Hr & Hi & Hl & Ho). by exists w'. Qed.

(** The order of the rings is that of the configuration: with descriptors of the priorities 5 and 2, in this order, the ring of priority 5 is
    looked at first. *)
Theorem poll_order_as_configured :
  let conf := Conf (-1) 2 5 2 (Some [RingDesc 4 64 5; RingDesc 4 64 2]) in
  let '(r, _, w') := run (init 3 (Some demo_area) (Some (demo_regions [5; 2])) (Some conf)) demo_env
    (TWorld demo_mem 1 (new_transport 8) demo_tls0 []) in
  r = Some (Code 0) /\ local_active_priorities_ (t_loc (obj w')) = [LOCK_RING_PRIORITY; 5; 2].
Proof. vm_compute. auto. Qed.

(** * From one node to another *)

(** The inbox of the receiver after a message was sent to it. *)
Lemma sent_inbox fuel g size bs qs i q m prio a wA wB :
  (1 <= fuel)%nat -> routed g wA m prio a -> inbox wB size bs qs -> shm wB = shm wA ->
  bs !! i = Some (prio, a, g) -> qs !! i = Some q -> Z.of_nat (length q) < entry_num g ->
  ticket_room g (shm wA) a -> wf_msg g (as_msg m) ->
  exists r wA', run (send fuel (Some m)) [] wA = (Some r, [], wA') /\ is_flow r /\
    inbox (lset l_shm (shm wA') wB) size bs (<[i := q ++ [as_msg m]]> qs).
Proof.
  intros Hf Hroute Hin Hsh Hb Hq Hroom Ht Hm.
  destruct (Forall2_lookup_lr _ _ _ _ _ _ (ib_holds _ _ _ _ Hin) Hb Hq) as [_ _ Hg _ HQ]. cbn in Hg, HQ. rewrite Hsh in HQ.
  destruct (run_send fuel g m prio a q wA Hf Hg Hroute HQ Ht Hm) as (r & wA' & Hr & [Ho Hoth] & _).
  rewrite decide_True in Ho by done. destruct Ho as [Hfl HQ']. exists r, wA'. split; [done|]. split; [done|].
  apply (inbox_update size bs wB _ qs i (prio, a, g) _ Hin Hb); [done| |done]. intros x Hx. cbn in *. rewrite Hsh. by apply Hoth.
Qed.

(** C3: a message reaches the callback registered for it at another node.  The sender's instance and the receiver's share
    the memory; the message is routed to a ring of the receiver that has room.  Then the send succeeds, and the next poll of the
    receiver, with at most [MAX_BATCH_PER_POLL] messages waiting, calls the application for every
    waiting message and for this one, behind those that arrived in its ring before it. *)
Theorem sent_message_reaches_callback fuel g size bs qs i q m prio a calls wA wB :
  (1 <= fuel)%nat -> routed g wA m prio a -> inbox wB size bs qs -> shm wB = shm wA ->
  bs !! i = Some (prio, a, g) -> qs !! i = Some q -> Z.of_nat (length q) < entry_num g ->
  ticket_room g (shm wA) a -> wf_msg g (as_msg m) ->
  let qs' := <[i := q ++ [as_msg m]]> qs in
  Z.of_nat (length (concat qs')) <= MAX_BATCH_PER_POLL ->
  sync_call (callbacks_ (t_run (obj wB))) <$> concat qs' = Some <$> calls ->
  exists r wA' wB', run (send fuel (Some m)) [] wA = (Some r, [], wA') /\ is_flow r /\
    run (poll_and_dispatch_once fuel log_app size) [] (lset l_shm (shm wA') wB) =
      (Some (Z.of_nat (length (concat qs'))), [], wB') /\
    app_log wB' = app_log wB ++ calls.
Proof.
  intros Hf Hroute Hin Hsh Hb Hq Hroom Ht Hm qs' Hn Hc.
  destruct (sent_inbox fuel g size bs qs i q m prio a wA wB Hf Hroute Hin Hsh Hb Hq Hroom Ht Hm) as (r & wA' & Hr & Hfl & Hin').
  destruct (run_poll fuel size bs qs' calls _ Hf Hin' Hn Hc) as (wB' & Hp & _ & Hl & _).
  exists r, wA', wB'. done.
Qed.

(** Node 5 sends to node 2, which has registered a callback for messages of type 10. *)
Definition demo_lock_ring : ring := default no_ring (make_ring [] 4096 128).
Definition demo_receiver : tworld := (run (register_func 10 UB_FUNC_SYNC (cb_app 7) 8) [] demo_B).2.
Definition demo_boxes : list box := [(0, 3145728, geom demo_lock_ring); (3, 3932352, geom demo_user_ring)].

#[local] Strategy 1000 [demo_B demo_A0].
Lemma demo_same_memory : shm demo_receiver = shm demo_A.
Proof. reflexivity. Qed.

Lemma demo_inbox : inbox demo_receiver 208 demo_boxes [[]; []].
Proof.
  split; [vm_compute; reflexivity|cbn; lia|apply NoDup_cons; split; [by intros H%list_elem_of_singleton|apply NoDup_singleton]|].
  constructor; [|constructor; [|constructor]].
  - split; [vm_compute; reflexivity|done| |vm_compute; discriminate|].
    + apply (make_ring_spec [] 4096 128 demo_lock_ring); [reflexivity|lia|lia].
    + exists demo_lock_ring. split; [vm_compute; reflexivity|].
      apply (make_ring_rep [] 4096 128 demo_lock_ring 0 idle_tls); [reflexivity|lia|lia].
  - split; [vm_compute; reflexivity|done|apply demo_geometry|vm_compute; discriminate|].
    rewrite demo_same_memory. exact demo_ring_holds.
Qed.

(** The message is dispatched at node 2 by the callback registered for its type. *)
Lemma dispatch_calls_registered_witness :
  exists w', run (dispatch_internal 1 log_app (bytes (as_msg demo_message)) 18) [] demo_receiver = (Some 0, [], w') /\
    app_log w' = [(7, 8, demo_message)].
Proof.
  assert (Hreg : run (register_func 10 UB_FUNC_SYNC (cb_app 7) 8) [] demo_B = (Some 0, [], demo_receiver)) by reflexivity.
  eexists. split.
  - refine (eq_trans (proj1 (dispatch_calls_registered 1 log_app (as_msg demo_message) 10 UB_FUNC_SYNC (cb_app 7) 8 [] demo_B
      demo_receiver _ eq_refl (le_n 1) _ eq_refl Hreg) _ eq_refl) _); [apply demo_message_wf|vm_compute; reflexivity|discriminate|reflexivity].
  - vm_compute. reflexivity.
Defined.

(** The message is waiting at node 2. *)
Lemma poll_empties_inbox_witness :
  exists w w', app_log w = [] /\ run (poll_and_dispatch_once 1 log_app 208) [] w = (Some 1, [], w') /\ app_log w' = [(7, 8, demo_message)].
Proof.
  destruct (sent_inbox 1 (geom demo_user_ring) 208 demo_boxes [[]; []] 1 [] demo_message 3 3932352 demo_A demo_receiver (le_n 1)
    demo_routed demo_inbox demo_same_memory eq_refl eq_refl) as (r & wA' & _ & _ & Hin); [reflexivity|vm_compute; reflexivity|apply demo_message_wf|].
  destruct (poll_empties_inbox 1 208 demo_boxes [[]; [as_msg demo_message]] [(7, 8, demo_message)]
    (lset l_shm (shm wA') demo_receiver) (le_n 1) Hin) as (w' & Hr & Hl & _).
  - discriminate.
  - vm_compute. reflexivity.
  - eexists _, w'. split; [|split; [exact Hr|exact Hl]]. reflexivity.
Defined.

Lemma sent_message_reaches_callback_witness :
  exists r wA' wB', run (send 1 (Some demo_message)) [] demo_A = (Some r, [], wA') /\ is_flow r /\
    run (poll_and_dispatch_once 1 log_app 208) [] (lset l_shm (shm wA') demo_receiver) = (Some 1, [], wB') /\
    app_log wB' = [(7, 8, demo_message)].
Proof.
  apply (sent_message_reaches_callback 1 (geom demo_user_ring) 208 demo_boxes [[]; []] 1 [] demo_message 3 3932352
    [(7, 8, demo_message)] demo_A demo_receiver).
  - lia.
  - apply demo_routed.
  - apply demo_inbox.
  - apply demo_same_memory.
  - reflexivity.
  - reflexivity.
  - vm_compute. reflexivity.
  - vm_compute. reflexivity.
  - apply demo_message_wf.
  - vm_compute. discriminate.
  - vm_compute. reflexivity.
Defined.
