(* ===== verification/TransportHb.v ===== *)
(** Heartbeats: how a transport decides whether another node is alive, and what the settings of the heartbeat do.

    Every node counts up a number on the billboard; the monitor of another node reads it now and then.  The monitor
    is compared with what it observes, round after round, whatever the other nodes write between two rounds. *)

From Stdlib Require Import Sorting.Sorted.
From S2P Require Import Prelude Atomic CommTypes MPSCRing ThreadPool Transport TransportInit TransportRun.
Import UBShmTransport.

(** * One round *)

(** What the monitor knows about a node: the last sequence number, when it appeared, the verdict. *)
Definition peer_view (h : heartbeat_part) (node : Z) : Z * Z * bool :=
  (getZ 0 (peer_heartbeat_seq_ h) node, getZ 0 (peer_heartbeat_seen_us_ h) node, getZ true (peer_alive_ h) node).

(** The time without a new number after which a node counts as dead. *)
Definition limit_of (h : heartbeat_part) (b : NodeBoardInfo) : Z :=
  effective_timeout (heartbeat_timeout_us_ h) (board_interval_ms b) (heartbeat_check_interval_us_ h).
Definition in_time (now seen limit : Z) : bool := negb (seen =? 0) && (seen <=? now) && (now - seen <=? limit).
Definition fresh (old seq : Z) : bool := negb (seq =? 0) && negb (seq =? old).

Definition peer_step (now node : Z) (b : NodeBoardInfo) (h : heartbeat_part) : heartbeat_part :=
  let seq := consumer_heartbeat_seq b in
  let h1 := with_peer_timeout node (limit_of h b) h in
  if fresh (getZ 0 (peer_heartbeat_seq_ h) node) seq
  then with_alive node true (with_seen node now (with_seq node seq h1))
  else with_alive node (in_time now (getZ 0 (peer_heartbeat_seen_us_ h) node) (limit_of h b)) h1.

(** The billboard as the monitor reads it: everything but the word it writes to refresh its cache. *)
Definition shown (b : NodeBoardInfo) : bool * Z * Z := (initialized b, consumer_heartbeat_seq b, board_interval_ms b).

Lemma shown_refresh m ptr idx : 0 <= idx -> shown (node_at (on_node ptr idx (set_pad 0) m) ptr idx) = shown (node_at m ptr idx).
Proof.
  intros Hi. unfold node_at at 1. unfold on_node. cbn. rewrite lookup_insert_eq. cbn.
  destruct (decide (Z.to_nat idx < length (default [] (boards m !! ptr)))%nat) as [Hl|Hl].
  - by rewrite getZ_setZ_eq.
  - unfold setZ. rewrite list_insert_ge by lia. done.
Qed.

Lemma run_monitor_peer g now idx node env w :
  node <> current_node_id (conf_ g) -> node < 16 ->
  let w0 := reboard (init_region_ptr_ g) idx (set_pad 0) w in
  let b := node_at (shm w0) (init_region_ptr_ g) idx in
  run (monitor_peer g now (idx, node)) env w =
    (Some tt, env, if initialized b then lset l_hb (peer_step now node b (t_hb (obj w0))) w0 else w0).
Proof.
  intros Hme Hn w0 b. unfold monitor_peer, MAX_NODES_LIMIT. rewrite (proj2 (Z.eqb_neq _ _) Hme), (proj2 (Z.leb_gt _ _) Hn).
  cbn [orb]. unfold force_refresh_whole_struct, board_load. rewrite bind_assoc, run_get. rewrite run_board_store. fold w0.
  rewrite run_get. change (lget l_shm w0) with (shm w0). fold b. destruct (initialized b); [|done]. cbn [negb].
  rewrite !run_get. change (lget l_shm w0) with (shm w0). fold b. change (lget l_hb w0) with (t_hb (obj w0)).
  rewrite run_upd, run_get. unfold peer_step. fold (limit_of (t_hb (obj w0)) b). unfold fresh.
  change (lget l_hb (lset l_hb ?h w0)) with h. cbn [peer_heartbeat_seq_ with_peer_timeout].
  destruct (_ && _); [by rewrite bind_assoc|]. rewrite bind_assoc, run_get. reflexivity.
Qed.

Lemma skipped_peer g now idx node env w :
  node = current_node_id (conf_ g) \/ 16 <= node -> run (monitor_peer g now (idx, node)) env w = (Some tt, env, w).
Proof.
  intros H. unfold monitor_peer, MAX_NODES_LIMIT. replace ((node =? _) || (16 <=? node)) with true; [done|].
  symmetry. apply orb_true_iff. destruct H; [left; by apply Z.eqb_eq|right; by apply Z.leb_le].
Qed.

(** The arrays of the monitor have an entry for every node id. *)
Definition wf_heartbeat (h : heartbeat_part) : Prop :=
  length (peer_alive_ h) = 16%nat /\ length (peer_heartbeat_seq_ h) = 16%nat /\ length (peer_heartbeat_seen_us_ h) = 16%nat.

Lemma peer_step_wf now node b h : wf_heartbeat h -> wf_heartbeat (peer_step now node b h).
Proof. intros (H1 & H2 & H3). unfold peer_step, wf_heartbeat. destruct (fresh _ _); cbn; by rewrite ?length_setZ. Qed.

Lemma limit_step now node b b' h : limit_of (peer_step now node b h) b' = limit_of h b'.
Proof. unfold peer_step. by destruct (fresh _ _). Qed.

Lemma peer_step_other now node b h node' :
  0 <= node -> 0 <= node' -> node <> node' -> peer_view (peer_step now node b h) node' = peer_view h node'.
Proof. intros H1 H2 H3. unfold peer_step, peer_view. destruct (fresh _ _); cbn; by rewrite ?getZ_setZ_ne by done. Qed.

Lemma limit_nonneg h b : 0 <= limit_of h b.
Proof. unfold limit_of, effective_timeout. assert (H := u64_bound (heartbeat_check_interval_us_ h * 2)). lia. Qed.

(** The memory of the monitor for one node, over one observation. *)
Definition recorded (r : Z * Z) (o : Z * NodeBoardInfo) : Z * Z :=
  if initialized o.2 && fresh r.1 (consumer_heartbeat_seq o.2) then (consumer_heartbeat_seq o.2, o.1) else r.

Lemma peer_step_view now node b h :
  wf_heartbeat h -> 0 <= node < 16 -> 0 < now -> initialized b = true ->
  let r := recorded (peer_view h node).1 (now, b) in
  peer_view (peer_step now node b h) node = (r, in_time now r.2 (limit_of h b)).
Proof.
  intros (H1 & H2 & H3) Hn Hnow Hi r. unfold r, recorded, peer_view, peer_step. cbn [fst snd]. rewrite Hi. cbn [andb].
  destruct (fresh _ _); cbn; rewrite ?getZ_setZ_eq by lia; [|done]. f_equal. unfold in_time.
  rewrite (proj2 (Z.eqb_neq _ _)), (proj2 (Z.leb_le now now)), Z.sub_diag, (proj2 (Z.leb_le _ _)); [done|apply limit_nonneg|lia|lia].
Qed.

Section Watching.
Context (g : config_part) (node idx : Z).
Let ptr := init_region_ptr_ g.

(** Everything that concerns [node] is as it was. *)
Record untouched (w w' : tworld) : Prop := {
  un_view : peer_view (t_hb (obj w')) node = peer_view (t_hb (obj w)) node;
  un_limit : forall b, limit_of (t_hb (obj w')) b = limit_of (t_hb (obj w)) b;
  un_wf : wf_heartbeat (t_hb (obj w)) -> wf_heartbeat (t_hb (obj w'));
  un_board : shown (node_at (shm w') ptr idx) = shown (node_at (shm w) ptr idx);
  un_cfg : t_cfg (obj w') = t_cfg (obj w) }.

#[export] Instance untouched_preorder : PreOrder untouched.
Proof.
  split; [by split|]. intros w1 w2 w3 [] []. split; [congruence| |tauto|congruence|congruence].
  intros b. by rewrite un_limit1, un_limit0.
Qed.

Lemma refresh_untouched j w : 0 <= j -> 0 <= idx -> untouched w (reboard ptr j (set_pad 0) w).
Proof.
  intros Hj Hi. split; [done..| |done]. cbn. destruct (decide (j = idx)) as [->|Hne]; [by apply shown_refresh|].
  by rewrite node_at_other by done.
Qed.

(** The other nodes of a round. *)
Lemma monitor_others now ns : forall env w,
  0 <= idx -> 0 <= node -> Forall (fun n => 0 <= n.1 /\ 0 <= n.2 /\ n.2 <> node) ns ->
  exists w', run (for_each ns (monitor_peer g now)) env w = (Some tt, env, w') /\ untouched w w'.
Proof.
  induction ns as [|[j n] ns IH]; intros env w Hi Hn Hns; [by exists w|]. inversion_clear Hns as [|? ? (Hj & Hn0 & Hne) Hrest].
  cbn in Hj, Hn0, Hne. cbn [for_each]. rewrite run_bind.
  destruct (decide (n = current_node_id (conf_ g) \/ 16 <= n)) as [Hs|Hs].
  - rewrite skipped_peer by done. by apply IH.
  - rewrite run_monitor_peer by tauto || lia. cbv zeta. set (w0 := reboard _ _ _ w).
    assert (H0 : untouched w w0) by (by apply refresh_untouched).
    destruct (initialized _).
    + set (w1 := lset l_hb _ w0). assert (H1 : untouched w0 w1).
      { split; [by apply peer_step_other|intros b; apply limit_step|apply peer_step_wf|done|done]. }
      destruct (IH env w1 Hi Hn Hrest) as (w' & Hr & Hu). exists w'. split; [done|]. by do 2 (etrans; [eassumption|]).
    + destruct (IH env w0 Hi Hn Hrest) as (w' & Hr & Hu). exists w'. split; [done|]. by etrans.
Qed.

Lemma run_for_each_app {S X} (f : X -> prog S unit) xs ys env (s : S) s1 env1 :
  run (for_each xs f) env s = (Some tt, env1, s1) -> run (for_each (xs ++ ys) f) env s = run (for_each ys f) env1 s1.
Proof.
  revert env s. induction xs as [|x xs IH]; intros env s Hr; cbn in *; [by injection Hr as -> ->|].
  rewrite run_bind in *. destruct (run (f x) env s) as [[[[]|] e] s']; [by apply IH|done].
Qed.

(** [node] is another node of the cluster, at index [idx]. *)
Definition watched : Prop :=
  wf_mapping g /\ compact_index g node = idx /\ 0 <= idx < 16 /\ node <> current_node_id (conf_ g).

Lemma watched_split : watched ->
  0 <= node < 16 /\ exists l1 l2, cluster_nodes g = l1 ++ (idx, node) :: l2 /\
    Forall (fun n => 0 <= n.1 /\ 0 <= n.2 /\ n.2 <> node) l1 /\ Forall (fun n => 0 <= n.1 /\ 0 <= n.2 /\ n.2 <> node) l2.
Proof.
  intros (Hg & Hi & Hr & _). assert (Hl := proj1 (compact_index_spec g node idx Hg ltac:(lia)) Hi).
  destruct Hg as (Hs & _ & Hall). assert (Hb := Forall_lookup_1 _ _ _ _ Hall Hl). unfold MAX_NODES_LIMIT in Hb. split; [done|].
  assert (Hlen := lookup_lt_Some _ _ _ Hl).
  assert (Hk : cluster_nodes g !! Z.to_nat idx = Some (idx, node)).
  { unfold cluster_nodes, MAX_NODES_LIMIT. rewrite lookup_take_lt by lia. apply lookup_zip_Some. split; [|done].
    rewrite lookup_seqZ. lia. }
  exists (take (Z.to_nat idx) (cluster_nodes g)), (drop (S (Z.to_nat idx)) (cluster_nodes g)).
  split; [symmetry; by apply take_drop_middle|].
  assert (Hne : forall k n, k <> Z.to_nat idx -> cluster_nodes g !! k = Some n -> 0 <= n.1 /\ 0 <= n.2 /\ n.2 <> node).
  { intros k [j n] Hkne Hkn. unfold cluster_nodes in Hkn. apply lookup_take_Some in Hkn as [Hkn _].
    apply lookup_zip_Some in Hkn as [Hz Hx]. cbn in *. apply lookup_seqZ in Hz. assert (Hb' := Forall_lookup_1 _ _ _ _ Hall Hx). cbn in Hb'.
    split; [lia|]. split; [lia|]. intros ->. apply Hkne. by eapply (NoDup_lookup (idx_to_node_id_ g)); [apply sorted_nodup| |]. }
  split; apply Forall_lookup; intros k n Hk'.
  - apply lookup_take_Some in Hk' as [Hk' Hlt]. apply (Hne k); [lia|done].
  - rewrite lookup_drop in Hk'. apply (Hne (S (Z.to_nat idx) + k)%nat); [lia|done].
Qed.

(** One round, as it concerns [node]. *)
Lemma run_monitor_round now env w :
  watched -> t_cfg (obj w) = g -> wf_heartbeat (t_hb (obj w)) -> 0 < now ->
  let b := node_at (shm w) ptr idx in let v := peer_view (t_hb (obj w)) node in
  exists w', run (monitor_round now) env w = (Some tt, env, w') /\ t_cfg (obj w') = g /\ wf_heartbeat (t_hb (obj w')) /\
    (forall b, limit_of (t_hb (obj w')) b = limit_of (t_hb (obj w)) b) /\
    peer_view (t_hb (obj w')) node =
      (recorded v.1 (now, b), if initialized b then in_time now (recorded v.1 (now, b)).2 (limit_of (t_hb (obj w)) b) else v.2).
Proof.
  intros Hw Hc Hwf Hnow b v. destruct (watched_split Hw) as (Hn & l1 & l2 & Hl & H1 & H2). destruct Hw as (_ & _ & Hi & Hme).
  unfold monitor_round. rewrite run_get. cbn [lget l_cfg]. rewrite Hc, Hl.
  destruct (monitor_others now l1 env w) as (w1 & Hr1 & [V1 L1 W1 B1 C1]); [lia|lia|done|].
  rewrite (run_for_each_app _ _ _ _ _ _ _ Hr1). cbn [for_each]. rewrite run_bind, run_monitor_peer by lia. cbv zeta.
  set (w2 := reboard _ _ _ w1). fold ptr in w2. fold ptr. set (b2 := node_at (shm w2) ptr idx).
  assert (Hb : shown b2 = shown b) by (unfold b; rewrite <- B1; unfold b2; cbn; apply shown_refresh; lia).
  assert (Hbi : initialized b2 = initialized b /\ consumer_heartbeat_seq b2 = consumer_heartbeat_seq b /\ board_interval_ms b2 = board_interval_ms b)
    by (unfold shown in Hb; by injection Hb). destruct Hbi as (E1 & E2 & E3).
  assert (Hrec : forall r, recorded r (now, b2) = recorded r (now, b)) by (intros r; unfold recorded; cbn; by rewrite E1, E2).
  assert (Hlim : forall h, limit_of h b2 = limit_of h b) by (intros h; unfold limit_of; by rewrite E3).
  set (w3 := if initialized b2 then _ else w2).
  assert (H3 : wf_heartbeat (t_hb (obj w3)) /\ t_cfg (obj w3) = g /\ (forall b, limit_of (t_hb (obj w3)) b = limit_of (t_hb (obj w)) b) /\
    peer_view (t_hb (obj w3)) node = (recorded v.1 (now, b), if initialized b then in_time now (recorded v.1 (now, b)).2 (limit_of (t_hb (obj w)) b) else v.2)).
  { unfold w3. rewrite E1. destruct (initialized b) eqn:Ei.
    - split; [by apply peer_step_wf, W1|]. split; [by rewrite <- Hc, <- C1|]. split; [intros b'; cbn; by rewrite limit_step|].
      cbn. rewrite peer_step_view; [|by apply W1|done|done|congruence]. rewrite V1, Hrec, Hlim, L1. done.
    - split; [by apply W1|]. split; [by rewrite <- Hc, <- C1|]. split; [done|]. cbn. rewrite V1. unfold recorded. cbn. rewrite Ei. cbn [andb]. fold v. apply surjective_pairing. }
  destruct H3 as (Hw3 & Hc3 & Hl3 & Hv3). clearbody w3.
  destruct (monitor_others now l2 env w3) as (w' & Hr' & [V' L' W' B' C']); [lia|lia|done|].
  exists w'. split; [exact Hr'|]. split; [congruence|]. split; [by apply W'|]. split; [|congruence]. intros b'. by rewrite L', Hl3.
Qed.
End Watching.

(** * Round after round *)

Lemma sorted_app_r (l1 l2 : list Z) : StronglySorted Z.le (l1 ++ l2) -> StronglySorted Z.le l2.
Proof. induction l1 as [|x l1 IH]; [done|]. intros [Hs _]%StronglySorted_inv. auto. Qed.
Lemma sorted_app_le (l1 l2 : list Z) x y : StronglySorted Z.le (l1 ++ l2) -> x ∈ l1 -> y ∈ l2 -> x <= y.
Proof.
  induction l1 as [|z l1 IH]; intros Hs Hx Hy; [by apply not_elem_of_nil in Hx|].
  apply StronglySorted_inv in Hs as [Hs Hf]. apply elem_of_cons in Hx as [->|Hx]; [|auto].
  rewrite Forall_forall in Hf. apply Hf. apply elem_of_app. by right.
Qed.

(** Rounds of the monitor at given times, each finding the memory as the other nodes have left it. *)
Definition watch (obs : list (Z * shared_mem)) : prog tworld unit :=
  for_each obs (fun o => upd l_shm (fun _ => o.2) ;;; monitor_round o.1).

(** Two observations in a row that show a new number. *)
Definition beats (x y : Z * NodeBoardInfo) : Prop :=
  initialized x.2 = true /\ initialized y.2 = true /\ consumer_heartbeat_seq x.2 <> 0 /\ consumer_heartbeat_seq y.2 <> 0 /\
  consumer_heartbeat_seq x.2 <> consumer_heartbeat_seq y.2.

Section Record.
Implicit Types (r : Z * Z) (o : Z * NodeBoardInfo) (os : list (Z * NodeBoardInfo)).

(** What an initialised observation leaves behind. *)
Lemma recorded_seq r o :
  initialized o.2 = true -> consumer_heartbeat_seq o.2 <> 0 -> (recorded r o).1 = consumer_heartbeat_seq o.2.
Proof.
  intros Hi Hs. unfold recorded, fresh. rewrite Hi. cbn [andb]. rewrite (proj2 (Z.eqb_neq _ _) Hs). cbn [negb andb].
  destruct (consumer_heartbeat_seq o.2 =? r.1) eqn:E; bool_to_prop; cbn; congruence.
Qed.

Lemma recorded_beat r x y : beats x y -> (recorded (recorded r x) y).2 = y.1.
Proof.
  intros (Hx & Hy & Hx0 & Hy0 & Hne). unfold recorded at 1. rewrite Hy, recorded_seq by done. cbn [andb]. unfold fresh.
  by rewrite (proj2 (Z.eqb_neq _ _) Hy0), (proj2 (Z.eqb_neq _ _)) by done.
Qed.

Lemma recorded_seen r o : (recorded r o).2 = r.2 \/ (recorded r o).2 = o.1.
Proof. unfold recorded. destruct (_ && _); cbn; auto. Qed.

Lemma recorded_later os : forall r, Forall (fun o => r.2 <= o.1) os -> StronglySorted Z.le os.*1 -> r.2 <= (foldl recorded r os).2.
Proof.
  induction os as [|o os IH]; intros r Hr Hs; [cbn; lia|]. inversion_clear Hr as [|? ? Ho Hos]. inversion_clear Hs as [|? ? Hs' Hf].
  cbn [foldl]. assert (Hge : r.2 <= (recorded r o).2) by (destruct (recorded_seen r o); lia).
  etrans; [exact Hge|]. apply IH; [|done]. apply Forall_forall. intros x Hx.
  destruct (recorded_seen r o) as [->| ->]; [by eapply Forall_forall in Hos|].
  rewrite Forall_forall in Hf. apply Hf. apply list_elem_of_fmap. by exists x.
Qed.

Lemma recorded_before os : forall r t, r.2 <= t -> Forall (fun o => o.1 <= t) os -> (foldl recorded r os).2 <= t.
Proof.
  induction os as [|o os IH]; intros r t Hr Hs; [done|]. inversion_clear Hs. cbn [foldl].
  apply IH; [|done]. destruct (recorded_seen r o); lia.
Qed.

(** A number that stands still is recorded once. *)
Lemma recorded_still os r s :
  r.1 = s \/ s = 0 -> Forall (fun o => consumer_heartbeat_seq o.2 = s) os -> foldl recorded r os = r.
Proof.
  intros Hr Hs. induction Hs as [|o os Ho Hs IH]; [done|]. cbn [foldl]. replace (recorded r o) with r; [done|].
  unfold recorded, fresh. rewrite Ho. destruct Hr as [-> | ->]; [by rewrite Z.eqb_refl, !andb_false_r|]. by rewrite andb_false_r.
Qed.

(** The last beat in a history of increasing times: after a beat it is not before that beat, and while the
    number stands still it is not after the first observation of it. *)
Lemma last_beat_after l1 x y l2 r :
  StronglySorted Z.le (l1 ++ x :: y :: l2).*1 -> beats x y -> y.1 <= (foldl recorded r (l1 ++ x :: y :: l2)).2.
Proof.
  rewrite fmap_app. intros Hs%sorted_app_r Hb. cbn in Hs. apply StronglySorted_inv in Hs as [[Hs Hf]%StronglySorted_inv _].
  rewrite foldl_app. cbn [foldl]. set (r1 := foldl recorded r l1). rewrite <- (recorded_beat r1 _ _ Hb).
  apply recorded_later; [|done]. rewrite (recorded_beat r1 _ _ Hb). apply Forall_forall. intros o Ho.
  rewrite Forall_forall in Hf. apply Hf, list_elem_of_fmap. by exists o.
Qed.

Lemma last_beat_before l1 x l2 r :
  StronglySorted Z.le (r.2 :: (l1 ++ x :: l2).*1) -> initialized x.2 = true ->
  Forall (fun o => consumer_heartbeat_seq o.2 = consumer_heartbeat_seq x.2) l2 -> (foldl recorded r (l1 ++ x :: l2)).2 <= x.1.
Proof.
  intros [Hs Hf]%StronglySorted_inv Hx Hl2. rewrite fmap_app in Hs, Hf. cbn in Hs, Hf. rewrite foldl_app. cbn [foldl].
  set (r1 := foldl recorded r l1). rewrite (recorded_still _ _ (consumer_heartbeat_seq x.2)); [| |done].
  - assert (Hr1 : r1.2 <= x.1); [|destruct (recorded_seen r1 x) as [-> | ->]; lia]. apply recorded_before.
    + rewrite Forall_app, Forall_cons in Hf. tauto.
    + apply Forall_forall. intros o Ho. eapply sorted_app_le; [exact Hs| |by left]. apply list_elem_of_fmap. by exists o.
  - destruct (decide (consumer_heartbeat_seq x.2 = 0)); [by right|left]. by apply recorded_seq.
Qed.
End Record.

Section Verdict.
Context (g : config_part) (node idx : Z).

(** What a round sees of [node]. *)
Definition sight (o : Z * shared_mem) : Z * NodeBoardInfo := (o.1, node_at o.2 (init_region_ptr_ g) idx).

Lemma run_watch obs : forall env w,
  watched g node idx -> t_cfg (obj w) = g -> wf_heartbeat (t_hb (obj w)) -> Forall (fun o => 0 < o.1) obs ->
  exists w', run (watch obs) env w = (Some tt, env, w') /\ t_cfg (obj w') = g /\ wf_heartbeat (t_hb (obj w')) /\
    (forall b, limit_of (t_hb (obj w')) b = limit_of (t_hb (obj w)) b) /\
    (peer_view (t_hb (obj w')) node).1 = foldl recorded (peer_view (t_hb (obj w)) node).1 (sight <$> obs).
Proof.
  induction obs as [|[now m] obs IH]; intros env w Hw Hc Hwf Hp; [by exists w|]. inversion_clear Hp as [|? ? Hnow Hp'].
  unfold watch. cbn [for_each]. rewrite bind_assoc, run_upd. cbn [snd fst]. rewrite run_bind.
  destruct (run_monitor_round g node idx now env (lset l_shm m w) Hw Hc Hwf Hnow) as (w1 & Hr & Hc1 & Hwf1 & Hl1 & Hv1).
  change (lset l_shm _ w) with (lset l_shm m w). rewrite Hr. destruct (IH env w1 Hw Hc1 Hwf1 Hp') as (w' & Hr' & Hc' & Hwf' & Hl' & Hv').
  exists w'. split; [exact Hr'|]. split; [done|]. split; [done|]. split; [intros b; by rewrite Hl', Hl1|].
  by rewrite Hv', Hv1.
Qed.

(** The verdict of the last round. *)
Lemma run_watch_last obs now m env w :
  watched g node idx -> t_cfg (obj w) = g -> wf_heartbeat (t_hb (obj w)) -> Forall (fun o => 0 < o.1) (obs ++ [(now, m)]) ->
  initialized (sight (now, m)).2 = true ->
  exists w', run (watch (obs ++ [(now, m)])) env w = (Some tt, env, w') /\ t_cfg (obj w') = g /\
    getZ true (peer_alive_ (t_hb (obj w'))) node =
      in_time now (foldl recorded (peer_view (t_hb (obj w)) node).1 (sight <$> obs ++ [(now, m)])).2 (limit_of (t_hb (obj w)) (sight (now, m)).2).
Proof.
  intros Hw Hc Hwf [Hp Hnow%Forall_inv]%Forall_app Hi.
  destruct (run_watch obs env w Hw Hc Hwf Hp) as (w1 & Hr & Hc1 & Hwf1 & Hl1 & Hv1).
  destruct (run_monitor_round g node idx now env (lset l_shm m w1) Hw Hc1 Hwf1 Hnow) as (w2 & Hr2 & Hc2 & _ & _ & Hv2).
  exists w2. unfold watch in *. rewrite (run_for_each_app _ _ _ _ _ _ _ Hr). cbn [for_each]. split; [|split; [done|]].
  - rewrite bind_assoc, run_upd. cbn [snd fst]. rewrite run_bind. change (lset l_shm _ w1) with (lset l_shm m w1). by rewrite Hr2.
  - unfold peer_view at 1 in Hv2. injection Hv2 as _ ->. cbn in Hi. cbn [sight snd]. rewrite fmap_app, foldl_app. cbn [fmap list_fmap foldl].
    change (shm (lset l_shm m w1)) with m. rewrite Hi. rewrite <- Hv1, <- Hl1. reflexivity.
Qed.
End Verdict.

(** Messages to a node that counts as dead are refused. *)
Lemma dead_refusal g node idx w h b prio :
  watched g node idx -> t_cfg (obj w) = g -> getZ true (peer_alive_ (t_hb (obj w))) node = false ->
  src_node_id h = current_node_id (conf_ g) -> dest_node_id h = node -> route_priority h = Some prio -> prio < 8 ->
  refusal w (Some (Message h b)) = Some UB_COMM_ERR_PEER_NOT_READY.
Proof.
  intros Hw Hc Hdead Hsrc Hd Hpr Hp8. destruct (watched_split g node idx Hw) as (Hn & _). destruct Hw as (Hg & Hidx & Hir & Hme).
  unfold refusal. cbn [header]. rewrite Hc, Hsrc, Z.eqb_refl. cbn [negb]. rewrite Hpr, (proj2 (Z.leb_gt _ _)), Hd, (proj2 (Z.leb_gt _ _)) by lia.
  rewrite (proj2 (Z.eqb_neq _ _) Hme), Hdead. unfold compact_index in Hidx. destruct (node_id_to_idx_ g !! node); [done|cbn in Hidx; lia].
Qed.

(** C12: the monitor declares a node dead exactly when its heartbeat has stopped for too long.  Let the rounds of the monitor
    take place at increasing times, whatever the memory holds at each of them, and let the node be on the billboard at the last one.
    Then all rounds return, and with the limit the monitor computes (at least the configured timeout, three
    intervals of the other node and two rounds): a node whose number was seen to change at most
    the limit ago is alive, and a node whose number has stood still for longer than the limit is dead, so that messages to it
    are refused with PEER_NOT_READY. *)
Theorem heartbeat_verdict g node idx obs now m env w :
  let all := obs ++ [(now, m)] in let limit := limit_of (t_hb (obj w)) (sight g idx (now, m)).2 in
  watched g node idx -> t_cfg (obj w) = g -> wf_heartbeat (t_hb (obj w)) -> initialized (sight g idx (now, m)).2 = true ->
  StronglySorted Z.le (getZ 0 (peer_heartbeat_seen_us_ (t_hb (obj w))) node :: all.*1) -> Forall (fun o => 0 < o.1) all ->
  heartbeat_timeout_us_ (t_hb (obj w)) <= limit /\
  exists w', run (watch all) env w = (Some tt, env, w') /\
    (forall l1 x y l2, all = l1 ++ x :: y :: l2 -> beats (sight g idx x) (sight g idx y) -> now - y.1 <= limit ->
       getZ true (peer_alive_ (t_hb (obj w'))) node = true) /\
    (forall l1 x l2, all = l1 ++ x :: l2 -> initialized (sight g idx x).2 = true ->
       Forall (fun o => consumer_heartbeat_seq (sight g idx o).2 = consumer_heartbeat_seq (sight g idx x).2) l2 ->
       limit < now - x.1 ->
       getZ true (peer_alive_ (t_hb (obj w'))) node = false /\
       forall h b prio, src_node_id h = current_node_id (conf_ g) -> dest_node_id h = node -> route_priority h = Some prio ->
         prio < 8 -> refusal w' (Some (Message h b)) = Some UB_COMM_ERR_PEER_NOT_READY).
Proof.
  intros all limit Hw Hc Hwf Hi Hs Hp. split; [unfold limit, limit_of, effective_timeout; lia|].
  destruct (run_watch_last g node idx obs now m env w Hw Hc Hwf Hp Hi) as (w' & Hr & Hc' & Ha). exists w'. split; [exact Hr|].
  fold all in Ha. fold limit in Ha. set (r0 := (peer_view (t_hb (obj w)) node).1) in *. change (getZ 0 _ node) with r0.2 in Hs.
  assert (Hsight : forall l, (sight g idx <$> l).*1 = l.*1) by (intros l; rewrite <- list_fmap_compose; by apply list_fmap_ext).
  rewrite <- Hsight in Hs. set (r := foldl recorded r0 (sight g idx <$> all)) in *. split.
  - intros l1 x y l2 He Hb Hl. rewrite Ha. unfold in_time.
    assert (Hy : 0 < y.1) by (rewrite He, Forall_app, !Forall_cons in Hp; tauto).
    assert (Hr2 : r.2 <= now).
    { assert (Hs' := Hs). apply StronglySorted_inv in Hs' as [Hs' Hf]. rewrite Forall_forall in Hf. apply recorded_before.
      - apply Hf. rewrite Hsight. unfold all. rewrite fmap_app. apply elem_of_app. right. by left.
      - apply Forall_fmap, Forall_forall. intros o Ho. rewrite Hsight in Hs'. unfold all in *. rewrite fmap_app in Hs'. cbn in Hs'.
        apply elem_of_app in Ho as [Ho|Ho%list_elem_of_singleton]; [|subst; cbn; lia].
        eapply sorted_app_le; [exact Hs'| |by left]. apply list_elem_of_fmap. by exists o. }
    assert (Hr1 : y.1 <= r.2).
    { unfold r. apply StronglySorted_inv in Hs as [Hs _]. rewrite He, fmap_app in *. cbn [fmap list_fmap] in *. by apply (last_beat_after _ _ _ _ _ Hs). }
    rewrite (proj2 (Z.eqb_neq _ _)), !(proj2 (Z.leb_le _ _)) by lia. done.
  - intros l1 x l2 He Hxi Hl2 Hlim.
    assert (Hdead : getZ true (peer_alive_ (t_hb (obj w'))) node = false).
    { rewrite Ha. unfold in_time. assert (Hrx : r.2 <= x.1).
      { unfold r. rewrite He, fmap_app in *. cbn [fmap list_fmap] in *. apply (last_beat_before _ _ _ _ Hs Hxi). by apply Forall_fmap. }
      rewrite (proj2 (Z.leb_gt (now - r.2) limit)) by lia. by rewrite andb_false_r. }
    split; [done|]. intros h b prio Hsrc Hd Hpr Hp8. by apply (dead_refusal g node idx _ _ _ prio).
Qed.

(** Node 5 watches node 2: a beat at 2 s, silence until 9 s. *)
Definition demo_beat (seq : Z) : shared_mem := on_node 64 0 (set_hb_seq seq) (shm demo_B).
#[local] Strategy 1000 [demo_B demo_A0].

Lemma demo_watched : watched (t_cfg (obj demo_A)) 2 0.
Proof.
  assert (Hids : idx_to_node_id_ (t_cfg (obj demo_A)) = [2; 5]) by (vm_compute; reflexivity).
  split; [|split; [vm_compute; reflexivity|split; [lia|vm_compute; discriminate]]].
  split; [|split; [vm_compute; reflexivity|]]; rewrite Hids; repeat constructor; unfold MAX_NODES_LIMIT; lia.
Qed.

Lemma heartbeat_verdict_witness :
  exists w', run (watch [(1000000, demo_beat 7); (2000000, demo_beat 8); (9000000, demo_beat 8)]) [] demo_A = (Some tt, [], w') /\
    getZ true (peer_alive_ (t_hb (obj w'))) 2 = false.
Proof.
  destruct (heartbeat_verdict (t_cfg (obj demo_A)) 2 0 [(1000000, demo_beat 7); (2000000, demo_beat 8)] 9000000 (demo_beat 8) [] demo_A)
    as (_ & w' & Hr & _ & Hd).
  - exact demo_watched.
  - reflexivity.
  - vm_compute. done.
  - vm_compute. reflexivity.
  - assert (Hz : getZ 0 (peer_heartbeat_seen_us_ (t_hb (obj demo_A))) 2 = 0) by (vm_compute; reflexivity).
    rewrite Hz. repeat constructor; cbn; lia.
  - repeat constructor; cbn; lia.
  - exists w'. split; [exact Hr|]. apply (Hd [(1000000, demo_beat 7)] (2000000, demo_beat 8) [(9000000, demo_beat 8)]).
    + reflexivity.
    + vm_compute. reflexivity.
    + by repeat constructor.
    + vm_compute. reflexivity.
Defined.

(** * Settings *)

Definition u32_config (r : heartbeat_config_t) : Prop :=
  0 <= heartbeat_interval_ms r < 2 ^ 32 /\ 0 <= check_interval_ms r < 2 ^ 32 /\ 0 <= timeout_ms r < 2 ^ 32.

Lemma ms_roundtrip v : 0 <= v < 2 ^ 32 -> u32 (u64 (v * US_PER_MS) / US_PER_MS) = v.
Proof. intros Hv. unfold US_PER_MS. rewrite u64_small, Z.div_mul, u32_small by lia. done. Qed.

(** The settings of the heartbeat can be read back.  A valid request is accepted: the answer to it, and to a later query,
    is the request itself, and the billboard shows the new interval to the other nodes; nothing else changes.  A request with a zero, or with a timeout
    of less than two rounds of the monitor (the product is not truncated to 32 bits), and a call without request and answer
    are refused with -EINVAL and change nothing. *)
Theorem heartbeat_config_roundtrip r env w :
  let g := t_cfg (obj w) in let idx := compact_index g (current_node_id (conf_ g)) in
  u32_config r ->
  (request_valid r = true <-> 0 < heartbeat_interval_ms r /\ 0 < check_interval_ms r /\ 2 * check_interval_ms r <= timeout_ms r) /\
  (request_valid r = true -> init_region_ptr_ g <> 0 -> on_board (shm w) (init_region_ptr_ g) idx ->
     exists w', run (config_heartbeat (Some r) true) env w = (Some (UB_COMM_OK, Some r), env, w') /\
       run (config_heartbeat None true) env w' = (Some (UB_COMM_OK, Some r), env, w') /\
       shm w' = on_node (init_region_ptr_ g) idx (set_hb_interval (heartbeat_interval_ms r)) (shm w) /\
       board_interval_ms (node_at (shm w') (init_region_ptr_ g) idx) = heartbeat_interval_ms r /\
       (forall n, peer_view (t_hb (obj w')) n = peer_view (t_hb (obj w)) n)) /\
  (request_valid r = false -> forall e, run (config_heartbeat (Some r) e) env w = (Some (- EINVAL, None), env, w)) /\
  run (config_heartbeat None false) env w = (Some (- EINVAL, None), env, w).
Proof.
  intros g idx (H1 & H2 & H3). split_and!.
  - unfold request_valid. rewrite negb_true_iff, !orb_false_iff, !Z.eqb_neq, Z.ltb_ge. lia.
  - intros Hv Hp Hb. unfold config_heartbeat. rewrite Hv. cbn [negb]. rewrite !run_upd, !run_get. cbn [lget l_cfg lset l_hb on_obj obj t_cfg].
    fold g. rewrite (proj2 (Z.eqb_neq _ _) Hp). fold idx. assert (Hi : 0 <= idx) by (destruct Hb as (? & _ & ? & _); lia).
    rewrite (proj2 (Z.leb_le _ _) Hi). cbn [negb andb]. rewrite run_board_store, !run_get. cbn [run]. eexists. split; [|split_and!].
    + cbn. rewrite !ms_roundtrip by done. by destruct r.
    + rewrite !run_get. cbn. rewrite !ms_roundtrip by done. by destruct r.
    + reflexivity.
    + cbn. rewrite node_at_on by done. done.
    + done.
  - intros Hv e. unfold config_heartbeat. by rewrite Hv.
  - done.
Qed.

Lemma heartbeat_config_roundtrip_witness :
  exists w', run (config_heartbeat (Some (HeartbeatConfig 50 100 (2 ^ 32 - 1))) true) [] demo_A =
    (Some (UB_COMM_OK, Some (HeartbeatConfig 50 100 (2 ^ 32 - 1))), [], w').
Proof.
  destruct (proj1 (proj2 (heartbeat_config_roundtrip (HeartbeatConfig 50 100 (2 ^ 32 - 1)) [] demo_A ltac:(unfold u32_config; cbn; lia))))
    as (w' & Hr & _).
  - reflexivity.
  - vm_compute. discriminate.
  - exists (default [] (boards (shm demo_A) !! 64)). split; [vm_compute; reflexivity|]. split; [vm_compute; split; [discriminate|reflexivity]|].
    vm_compute. reflexivity.
  - by exists w'.
Defined.
