(* ===== verification/TransportFlow.v ===== *)
(** Messages between transports: new congestion thresholds, and the departure of a node.

    A node that changes the threshold of a ring tells the others with a versioned message; they keep the newest one,
    in whatever order the messages arrive.  A node that leaves withdraws its entry on the billboard and tells the
    nodes it knows; they forget its rings. *)

From S2P Require Import Prelude Atomic CommTypes MPSCRing MPSCConc MPSCSeq ThreadPool Transport TransportInit TransportRun.
Import MPSCRingBuffer UBShmTransport.

#[local] Arguments le_bytes : simpl never.
#[local] Arguments le_value : simpl never.

(** * The writer's lock *)

Definition with_lock_state (v : Z) (w : tworld) : tworld := lset l_rem (with_mutex v (t_rem (obj w))) w.

Lemma run_lock_unique {C} fuel (k : unit -> prog tworld C) env w :
  (1 <= fuel)%nat -> cache_mutex_ (t_rem (obj w)) = 0 ->
  run (bind (lock_unique fuel) k) env w = run (k tt) env (with_lock_state (-1) w).
Proof.
  intros Hf Hm. unfold lock_unique. rewrite iter_round by done. rewrite run_bind, run_bind. cbn [act run bind lget l_rem].
  by rewrite Hm.
Qed.

Lemma run_unlock_unique env w : run unlock_unique env w = (Some tt, env, with_lock_state 0 w).
Proof. done. Qed.

(** Changes of a cache commute with the lock. *)
Lemma unlocked_set node prio f w :
  cache_mutex_ (t_rem (obj w)) = 0 -> with_lock_state 0 (set_cache node prio f (with_lock_state (-1) w)) = set_cache node prio f w.
Proof. intros Hm. destruct w as [s t [c l [m tab cs] h u] d a]. cbn in Hm. by subst. Qed.

Lemma unlocked_id w : cache_mutex_ (t_rem (obj w)) = 0 -> with_lock_state 0 (with_lock_state (-1) w) = w.
Proof. intros Hm. destruct w as [s t [c l [m tab cs] h u] d a]. cbn in Hm. by subst. Qed.

(** * Thresholds *)

(** A threshold with its version. *)
Abbreviation update := (Z * Z)%type.
Definition newer (u : update) (c : RemoteRingCache) : RemoteRingCache :=
  if u.2 <=? cached_threshold_version (flow c) then c else c_version u.2 (c_threshold u.1 c).
Definition current (c : RemoteRingCache) : update := (cached_threshold (flow c), cached_threshold_version (flow c)).

(** The message a node sends about the ring of priority [prio]. *)
Definition flow_message (from to prio tid : Z) (u : update) : message_t :=
  Message (Header tid SIZEOF_FLOW_UPDATE to from MSG_TYPE_SYS_FLOW_CONFIG_UPDATE LOCK_RING_PRIORITY)
    (Some (encode_flow_update u.2 u.1 prio)).
Definition wf_update (u : update) : Prop := 0 <= u.1 < 2 ^ 32 /\ 0 <= u.2 < 2 ^ 64.

Lemma decode_flow_update v th prio :
  0 <= v < 2 ^ 64 -> 0 <= th < 2 ^ 32 ->
  le_value (take 8 (encode_flow_update v th prio)) = v /\ le_value (take 4 (drop 8 (encode_flow_update v th prio))) = th /\
  getZ 0 (encode_flow_update v th prio) 12 = prio.
Proof.
  intros Hv Ht. unfold encode_flow_update. rewrite take_app_length', drop_app_length', take_app_length' by (by rewrite length_le_bytes).
  rewrite !le_value_bytes by done. split; [done|]. split; [done|]. unfold getZ.
  rewrite (assoc_L (++)), lookup_app_r by (rewrite length_app, !length_le_bytes; cbn; lia).
  by rewrite length_app, !length_le_bytes.
Qed.

Section Thresholds.
Context (fuel : nat) (node prio : Z).
Hypothesis Hfuel : (1 <= fuel)%nat.
Hypothesis Hprio : 0 < prio < 8.

(** The instance knows [node], and nobody holds its lock. *)
Definition listens (w : tworld) : Prop :=
  0 <= node < 16 /\ 0 <= compact_index (t_cfg (obj w)) node /\ cache_mutex_ (t_rem (obj w)) = 0 /\ cache_slot w node prio.

Lemma run_flow_update to tid ctx u env w :
  ctx <> 0 -> wf_update u -> listens w ->
  run (on_flow_config_update fuel (flow_message node to prio tid u) ctx) env w = (Some tt, env, set_cache node prio (newer u) w).
Proof.
  intros Hctx [Ht Hv] (Hn & Hi & Hm & Hs). unfold on_flow_config_update. cbn [body flow_message header body_length src_node_id].
  rewrite (proj2 (Z.eqb_neq _ _) Hctx). change (SIZEOF_FLOW_UPDATE <? SIZEOF_FLOW_UPDATE) with false. cbn [orb].
  destruct (decode_flow_update u.2 u.1 prio Hv Ht) as (-> & -> & ->).
  unfold update_cached_congestion_threshold, MAX_PRIORITY_LEVELS, MAX_NODES_LIMIT, LOCK_RING_PRIORITY, get_compact_index.
  rewrite (proj2 (Z.eqb_neq _ _)), !(proj2 (Z.leb_gt _ _)) by lia. cbn [orb]. rewrite run_get. cbn [lget l_cfg].
  rewrite (proj2 (Z.ltb_ge _ _) Hi), (run_lock_unique fuel) by done.
  change (run (bind (load (fun w => cached_threshold_version (flow (cache_at w node prio)))) ?k) env ?s) with
    (run (k (cached_threshold_version (flow (cache_at w node prio)))) env s). cbv beta.
  unfold newer. destruct (u.2 <=? cached_threshold_version (flow (cache_at w node prio))) eqn:E.
  - cbn [bind]. rewrite run_unlock_unique, unlocked_id by done. rewrite set_cache_same; [done|done|]. by rewrite E.
  - rewrite bind_assoc, !run_cache_store, run_unlock_unique, (set_cache_comp (with_lock_state (-1) w)), unlocked_set by done.
    f_equal. unfold set_cache. by rewrite E.
Qed.

Lemma listens_set w f : listens w -> listens (set_cache node prio f w).
Proof. intros (Hn & Hi & Hm & Hs). split; [done|]. split; [done|]. split; [done|]. apply cache_slot_set; [lia|lia|done]. Qed.

(** The messages in the order in which they are dispatched. *)
Definition deliver (to ctx : Z) (us : list (Z * update)) : prog tworld unit :=
  for_each us (fun u => on_flow_config_update fuel (flow_message node to prio u.1 u.2) ctx).

Lemma run_deliver to ctx us : forall env w,
  ctx <> 0 -> Forall wf_update us.*2 -> listens w ->
  run (deliver to ctx us) env w = (Some tt, env, set_cache node prio (fun c => foldl (fun c u => newer u c) c us.*2) w).
Proof.
  induction us as [|[tid u] us IH]; intros env w Hctx Hus Hw; cbn [fmap list_fmap foldl].
  - rewrite set_cache_same; [done|apply Hw|done].
  - inversion_clear Hus as [|? ? Hu Hus']. unfold deliver. cbn [for_each fst snd]. rewrite run_bind, run_flow_update by done.
    fold (deliver to ctx us). rewrite (IH env _ Hctx Hus' (listens_set w _ Hw)), set_cache_comp by apply Hw. done.
Qed.
End Thresholds.

(** The newest of a list of updates. *)
Lemma newer_current u c : current (newer u c) = if u.2 <=? (current c).2 then current c else u.
Proof. unfold newer, current. cbn. destruct (_ <=? _); [done|]. by destruct u. Qed.

Lemma newest_spec us : forall c,
  let r := current (foldl (fun c u => newer u c) c us) in
  r ∈ current c :: us /\ Forall (fun u => u.2 <= r.2) (current c :: us).
Proof.
  induction us as [|u us IH]; intros c; cbn [foldl]; [split; [by left|repeat constructor; lia]|].
  destruct (IH (newer u c)) as [Hin Hall]. inversion_clear Hall as [|? ? Hc Hus]. rewrite newer_current in Hin, Hc.
  split.
  - rewrite !elem_of_cons in *. destruct (_ <=? _); tauto.
  - destruct (u.2 <=? (current c).2) eqn:E; bool_to_prop; repeat constructor; try done; lia.
Qed.

Lemma newest_same_rest us : forall c,
  foldl (fun c u => newer u c) c us =
    let r := current (foldl (fun c u => newer u c) c us) in c_version r.2 (c_threshold r.1 c).
Proof.
  induction us as [|u us IH]; intros c; cbn [foldl]; [by destruct c as [? ? ? ? ? []]|].
  rewrite IH at 1. cbv zeta. unfold newer at 3 5. destruct (_ <=? _); done.
Qed.

(** C24: the newest threshold wins.  Messages about the threshold of a ring, each as [broadcast_flow_config_update]
    encodes it, leave the pair of threshold and version with the highest version among them and what was cached: repeated, late and
    reordered messages do no harm.  Any other order of the same messages (one threshold for each version)
    leaves the same state, and only the two words of this one cache have changed. *)
Theorem newest_threshold_wins fuel node prio to ctx us env w :
  (1 <= fuel)%nat -> 0 < prio < 8 -> ctx <> 0 -> Forall wf_update us.*2 -> listens node prio w ->
  exists w', run (deliver fuel node prio to ctx us) env w = (Some tt, env, w') /\
    let c := cache_at w node prio in let c' := cache_at w' node prio in
    current c' ∈ current c :: us.*2 /\ Forall (fun u => u.2 <= (current c').2) (current c :: us.*2) /\
    w' = set_cache node prio (fun c => c_version (current c').2 (c_threshold (current c').1 c)) w /\
    forall us', us ≡ₚ us' -> (forall u v, u ∈ current c :: us.*2 -> v ∈ current c :: us.*2 -> u.2 = v.2 -> u = v) ->
      run (deliver fuel node prio to ctx us') env w = (Some tt, env, w').
Proof.
  intros Hf Hp Hctx Hus Hw. assert (Hs : cache_slot w node prio) by apply Hw.
  rewrite (run_deliver fuel node prio Hf Hp) by done. eexists. split; [done|]. cbv zeta. rewrite cache_at_set by done.
  set (c := cache_at w node prio).
  assert (Hsame : forall us, foldl (fun c u => newer u c) c us =
    let r := current (foldl (fun c u => newer u c) c us) in c_version r.2 (c_threshold r.1 c)).
  { intros l. apply newest_same_rest. }
  destruct (newest_spec us.*2 c) as [Hin Hall]. split; [done|]. split; [done|]. split.
  - unfold set_cache. fold c. by rewrite Hsame.
  - intros us' Hperm Hone. assert (Hperm2 : us.*2 ≡ₚ us'.*2) by (by rewrite Hperm).
    rewrite (run_deliver fuel node prio Hf Hp) by (done || by rewrite <- Hperm2). apply f_equal. unfold set_cache. fold c. cbv beta.
    destruct (newest_spec us'.*2 c) as [Hin' Hall'].
    rewrite (Hsame us.*2), (Hsame us'.*2). cbv zeta. set (r' := current (foldl _ c us'.*2)) in *.
    rewrite <- Hperm2 in Hin', Hall'. rewrite Forall_forall in Hall, Hall'.
    rewrite (Hone _ _ Hin' Hin) by (apply Z.le_antisymm; [by apply Hall|by apply Hall']). done.
Qed.

(** Updates 3, 1, 3 and 2 reach node 5 in this order. *)
#[local] Strategy 1000 [demo_B demo_A0].
Lemma newest_threshold_wins_witness :
  exists w', run (deliver 1 2 3 5 1 [(0, (70, 3)); (0, (50, 1)); (9, (70, 3)); (0, (60, 2))]) [] demo_A = (Some tt, [], w') /\
    current (cache_at w' 2 3) = (70, 3).
Proof.
  destruct (newest_threshold_wins 1 2 3 5 1 [(0, (70, 3)); (0, (50, 1)); (9, (70, 3)); (0, (60, 2))] [] demo_A) as (w' & Hr & _ & _ & Hw & _).
  - lia.
  - lia.
  - lia.
  - repeat constructor; cbn; lia.
  - repeat split; vm_compute; lia || discriminate.
  - exists w'. split; [exact Hr|]. assert (Hr' : w' = (run (deliver 1 2 3 5 1 [(0, (70, 3)); (0, (50, 1)); (9, (70, 3)); (0, (60, 2))]) [] demo_A).2)
      by (by rewrite Hr). rewrite Hr'. vm_compute. reflexivity.
Defined.
