(* ===== verification/TransportExit.v ===== *)
(** The departure of a node: what the node that leaves does, and what becomes of those that know it.

    [deinit_and_broadcast] stops the threads of the node, makes its rings look full, withdraws its entry on the
    billboard, tells the nodes it knows and deletes the worker pool.  A node that is told forgets the rings of the one that has
    left; a node that is not told goes on sending into them. *)

From S2P Require Import Prelude Atomic CommTypes MPSCRing MPSCConc MPSCSeq ThreadPool Transport TransportInit TransportRun TransportPoll TransportHb TransportFlow.
Import MPSCRingBuffer UBShmTransport.

#[local] Arguments encode_header : simpl never.
#[local] Arguments decode_header : simpl never.
#[local] Arguments bytes : simpl never.

(** * Forgetting a node *)

(** The state after the caches of [node] (with index [idx]) at priority [p] were cleared. *)
Definition cleared (c : RemoteRingCache) : RemoteRingCache :=
  RingCache false 0 (cache_mask c) (cache_stride c) (cache_max_size c) (PeerCache 0 0 0).
Definition forget (node idx : Z) (w : tworld) (p : Z) : tworld :=
  let w1 := set_cache node p cleared w in
  lset l_rem (with_table (set2 (remote_lookup_table_ (t_rem (obj w1))) idx p 0) (t_rem (obj w1))) w1.

(** Nothing of [node] is known any more, for the priorities [ps]. *)
Definition unknown (node idx : Z) (ps : list Z) (w : tworld) : Prop :=
  forall p, p ∈ ps -> cache_initialized (cache_at w node p) = false /\ get2 0 (remote_lookup_table_ (t_rem (obj w))) idx p = 0.
(** The arrays have entries for it. *)
Definition known_slots (node idx : Z) (w : tworld) : Prop :=
  forall p, 0 <= p < 8 -> cache_slot w node p /\
    (Z.to_nat idx < length (remote_lookup_table_ (t_rem (obj w))))%nat /\
    (Z.to_nat p < length (getZ [] (remote_lookup_table_ (t_rem (obj w))) idx))%nat.

Section Forgetting.
Context (node idx : Z).
Hypothesis Hnode : 0 <= node < 16.
Hypothesis Hidx : 0 <= idx.

Lemma forget_slots w p : known_slots node idx w -> known_slots node idx (forget node idx w p).
Proof.
  intros Hk q Hq. destruct (Hk q Hq) as (H1 & H2 & H3). split; [|cbn; by rewrite length_set2, length_row_set2].
  change (cache_slot (set_cache node p cleared w) node q). apply cache_slot_set; [lia|lia|done].
Qed.

Lemma forget_unknown w p ps :
  0 <= p < 8 -> Forall (fun q => 0 <= q < 8) ps -> known_slots node idx w -> unknown node idx ps w ->
  unknown node idx (p :: ps) (forget node idx w p).
Proof.
  intros Hp Hps Hk Hu q Hq. destruct (Hk p Hp) as (H1 & H2 & H3).
  assert (Hc : forall x, cache_at (forget node idx w p) node x = cache_at (set_cache node p cleared w) node x) by done.
  destruct (decide (q = p)) as [->|Hne].
  - rewrite Hc, cache_at_set by done. split; [done|]. cbn. by rewrite get2_set2.
  - apply elem_of_cons in Hq as [?|Hq]; [done|]. rewrite Forall_forall in Hps. specialize (Hps q Hq).
    destruct (Hu q Hq) as [Hi Ht]. rewrite Hc. unfold cache_at. cbn. rewrite !get2_set2_ne; [done|lia|lia|lia|lia|congruence|lia|lia|lia|lia|congruence].
Qed.

(** What is left alone. *)
Definition same_outside (w w' : tworld) : Prop :=
  shm w' = shm w /\ t_cfg (obj w') = t_cfg (obj w) /\ t_loc (obj w') = t_loc (obj w) /\ t_hb (obj w') = t_hb (obj w) /\
  t_run (obj w') = t_run (obj w) /\ disp_tls w' = disp_tls w /\ app_log w' = app_log w /\ this w' = this w /\
  cache_mutex_ (t_rem (obj w')) = cache_mutex_ (t_rem (obj w)).

Lemma run_forget ps : forall env w done_,
  Forall (fun q => 0 <= q < 8) ps -> Forall (fun q => 0 <= q < 8) done_ -> known_slots node idx w -> unknown node idx done_ w ->
  exists w', run (for_each ps (fun p =>
      cache_store node p (c_raw_ptr 0) ;;; cache_store node p (c_shadow 0) ;;; cache_store node p (c_threshold 0) ;;;
      cache_store node p (c_version 0) ;;; cache_store node p (c_initialized false) ;;; table_store idx p 0)) env w = (Some tt, env, w') /\
    same_outside w w' /\ known_slots node idx w' /\ unknown node idx (ps ++ done_) w'.
Proof.
  induction ps as [|p ps IH]; intros env w dn Hps Hdn Hk Hu; [by exists w|]. inversion_clear Hps as [|? ? Hp Hps'].
  cbn [for_each]. do 5 rewrite bind_assoc, run_cache_store. 
  do 4 (rewrite set_cache_comp; [|repeat (apply cache_slot_set; [lia|lia|]); by apply Hk]). unfold table_store. rewrite run_upd.
  match goal with |- context [run _ env ?x] => change x with (forget node idx w p) end.
  destruct (IH env (forget node idx w p) (p :: dn) Hps') as (w' & Hr & Hs & Hk' & Hu'); [by constructor|by apply forget_slots|by apply forget_unknown|].
  exists w'. split; [exact Hr|]. split; [|split; [done|]].
  - destruct Hs as (E1 & E2 & E3 & E4 & E5 & E6 & E7 & E8 & E9). unfold same_outside. by rewrite E1, E2, E3, E4, E5, E6, E7, E8, E9.
  - intros q Hq. apply Hu'. cbn in Hq. rewrite elem_of_cons, elem_of_app in Hq. rewrite elem_of_app, elem_of_cons. tauto.
Qed.
End Forgetting.

(** * A node that is told *)

(** A message to another node that [send] does not refuse outright goes to [send_remote]. *)
Lemma send_reaches_remote fuel m env w prio :
  refusal w (Some m) = None -> dest_node_id (header m) <> current_node_id (conf_ (t_cfg (obj w))) ->
  route_priority (header m) = Some prio -> run (send fuel (Some m)) env w = run (send_remote fuel (header m) (body m) prio) env w.
Proof.
  intros Hr Hd Hp. unfold send, refusal in *. rewrite run_get. cbn [lget l_cfg]. rewrite Z.eqb_sym.
  destruct (negb _); [done|]. rewrite Hp in *. unfold MAX_PRIORITY_LEVELS, MAX_NODES_LIMIT. destruct (8 <=? prio); [done|].
  destruct (16 <=? _); [done|]. rewrite (proj2 (Z.eqb_neq _ _) Hd) in *. cbn [negb andb].
  destruct (node_id_to_idx_ _ !! _) as [i|]; [|done]. rewrite bool_decide_eq_false_2 by done. rewrite run_get. cbn [lget l_hb].
  by destruct (getZ true _ _).
Qed.

(** A ring that is not cached, of a node whose entry is withdrawn, is not found. *)
Lemma send_remote_withdrawn fuel h b prio env w :
  let g := t_cfg (obj w) in let dest := dest_node_id h in let idx := compact_index g dest in
  (1 <= fuel)%nat -> 0 <= dest < 16 -> 0 <= prio < 8 -> 0 <= idx -> init_region_ptr_ g <> 0 -> cache_mutex_ (t_rem (obj w)) = 0 ->
  on_board (shm w) (init_region_ptr_ g) idx -> initialized (node_at (shm w) (init_region_ptr_ g) idx) = false ->
  cache_initialized (cache_at w dest prio) = false -> get2 0 (remote_lookup_table_ (t_rem (obj w))) idx prio = 0 ->
  run (send_remote fuel h b prio) env w = (Some UB_COMM_ERR_PEER_NOT_READY, env, reboard (init_region_ptr_ g) idx (set_pad 0) w).
Proof.
  intros g dest idx Hf Hd Hp Hi Hptr Hm Hb Hin Hc Ht. unfold send_remote. fold dest. rewrite (run_lock_shared fuel) by (done || lia). rewrite Hm.
  set (w0 := lset l_rem _ w).
  change (run (bind (load (fun w => cache_initialized (cache_at w dest prio))) ?k) env w0) with
    (run (k (cache_initialized (cache_at w dest prio))) env w0). cbv beta. rewrite Hc, run_bind.
  unfold try_populate_cache, MAX_NODES_LIMIT, MAX_PRIORITY_LEVELS. rewrite !(proj2 (Z.leb_gt _ _)) by lia. rewrite run_bind.
  rewrite (run_get_remote_ring dest prio env w0) by (done || lia). fold g idx.
  change (shm w0) with (shm w). change (t_cfg (obj w0)) with g. fold idx. rewrite Hin. cbn [negb run].
  change (UB_COMM_ERR_PEER_NOT_READY =? UB_COMM_OK) with false. cbn [negb run]. unfold unlock_shared.
  change (UB_COMM_ERR_PEER_NOT_READY =? UB_COMM_OK) with false. cbn [negb]. rewrite run_upd. cbn [run]. f_equal.
  unfold w0. destruct w as [s t [c l [mu tab cs] hb u] d a]. cbn in Hm. by subst.
Qed.

Section Told.
Context (fuel : nat) (node idx : Z).
Hypothesis Hfuel : (1 <= fuel)%nat.

(** An instance that may know [node], whose entry on the billboard is withdrawn. *)
Record witnesses_exit (w : tworld) : Prop := {
  we_idx : compact_index (t_cfg (obj w)) node = idx /\ 0 <= idx;
  we_node : 0 <= node < 16 /\ node <> current_node_id (conf_ (t_cfg (obj w)));
  we_ptr : init_region_ptr_ (t_cfg (obj w)) <> 0;
  we_lock : cache_mutex_ (t_rem (obj w)) = 0;
  we_slots : known_slots node idx w;
  we_board : on_board (shm w) (init_region_ptr_ (t_cfg (obj w))) idx /\
    initialized (node_at (shm w) (init_region_ptr_ (t_cfg (obj w))) idx) = false }.

Lemma run_peer_exit h b ctx env w :
  src_node_id h = node -> ctx <> 0 -> witnesses_exit w ->
  exists w', run (on_peer_exit fuel (Message h b) ctx) env w = (Some tt, env, w') /\ same_outside w w' /\
    witnesses_exit w' /\ unknown node idx priorities w'.
Proof.
  intros Hsrc Hctx [[Hi Hi0] [Hn Hme] Hptr Hm Hk Hb]. unfold on_peer_exit. rewrite (proj2 (Z.eqb_neq _ _) Hctx). cbn [header].
  unfold MAX_NODES_LIMIT. rewrite Hsrc, (proj2 (Z.leb_gt _ _)) by lia. unfold remove_node_cache, get_compact_index, MAX_NODES_LIMIT.
  rewrite (proj2 (Z.leb_gt _ _)), run_get by lia. cbn [lget l_cfg]. rewrite Hi, (proj2 (Z.ltb_ge _ _)) by lia.
  rewrite (run_lock_unique fuel) by done. rewrite run_bind.
  destruct (run_forget node idx Hn Hi0 priorities env (with_lock_state (-1) w) []) as (w1 & Hr & Hs & Hk1 & Hu).
  { repeat constructor; lia. } { constructor. } { exact Hk. } { intros p Hp. by apply not_elem_of_nil in Hp. }
  rewrite Hr, run_unlock_unique. rewrite app_nil_r in Hu. exists (with_lock_state 0 w1). split; [done|].
  destruct Hs as (E1 & E2 & E3 & E4 & E5 & E6 & E7 & E8 & E9).
  split; [|split; [|exact Hu]].
  - unfold same_outside. cbn. by rewrite E1, E2, E3, E4, E5, E6, E7, E8, Hm.
  - split; cbn; rewrite ?E1, ?E2; done.
Qed.
End Told.

(** * The node that leaves *)


(** The message node [me] leaves with, to node [n]. *)
Definition exit_message (me n : Z) : message_t := Message (Header 0 0 (u8 n) me MSG_TYPE_SYS_PEER_EXIT 0) None.

Lemma exit_message_wf g me n : MSG_HEADER_LEN <= max_msg_size g -> 0 <= me < 256 -> wf_msg g (as_msg (exit_message me n)).
Proof.
  intros Hsize Hm. split; [|split; [done|cbn; lia]]. split; [cbn; lia|]. split; [cbn; lia|].
  cbn. assert (Hu : 0 <= u8 n < 256) by (apply Z.mod_pos_bound; lia). rewrite !Forall_cons. unfold MSG_TYPE_SYS_PEER_EXIT.
  split_and!; done || lia.
Qed.

Section Leaving.
Context (fuel : nat) (g : geometry).
Hypothesis Hfuel : (1 <= fuel)%nat.
Hypothesis Hg : wf_geometry g.
Hypothesis Hsize : MSG_HEADER_LEN <= max_msg_size g.

(** The nodes that are told. *)
Definition told (w : tworld) (n : Z * Z) : Prop :=
  n.2 <> current_node_id (conf_ (t_cfg (obj w))) /\ get2 0 (remote_lookup_table_ (t_rem (obj w))) n.1 0 <> 0.
#[export] Instance told_dec w n : Decision (told w n).
Proof. unfold told. apply _. Defined.



End Leaving.

(** C26: a node that is told of a departure forgets the rings of the node that has left.  When the exit message is
    dispatched, by the callback [init] has registered, the caches of the node and its
    row of the lookup table are cleared, and nothing else changes; as long as the node is not on the billboard again, every
    message to it is answered with PEER_NOT_READY and reaches no ring. *)
Theorem told_node_forgets fuel app node idx ctx env w :
  let me := current_node_id (conf_ (t_cfg (obj w))) in let ptr := init_region_ptr_ (t_cfg (obj w)) in
  let data := bytes (as_msg (exit_message node me)) in
  (1 <= fuel)%nat -> witnesses_exit node idx w -> ctx <> 0 ->
  getZ no_cb (callbacks_ (t_run (obj w))) MSG_TYPE_SYS_PEER_EXIT = CbInfo cb_peer_exit ctx UB_FUNC_SYNC ->
  exists w', run (dispatch_internal fuel app data (Z.of_nat (length data))) env w = (Some 0, env, w') /\ same_outside w w' /\
    unknown node idx priorities w' /\
    forall m env', dest_node_id (header m) = node -> 0 <= priority (header m) -> refusal w' (Some m) = None ->
      run (send fuel (Some m)) env' w' = (Some UB_COMM_ERR_PEER_NOT_READY, env', reboard ptr idx (set_pad 0) w').
Proof.
  intros me ptr data Hf Hw Hctx Hcb. assert (Hn : 0 <= node < 16) by apply Hw.
  unfold data. rewrite run_dispatch; [|apply (exit_message_wf (Geometry 0 0 16 0)); unfold MSG_HEADER_LEN; cbn; lia|done].
  cbv zeta. unfold registered. change (msg_type _) with MSG_TYPE_SYS_PEER_EXIT. rewrite Hcb. cbn [cb_func cb_type bool_decide].
  rewrite bool_decide_eq_false_2 by done. change (UB_FUNC_SYNC =? UB_FUNC_SYNC) with true. cbv iota.
  unfold invoke. cbn [cb_func cb_ctx]. rewrite run_bind.
  match goal with |- context [on_peer_exit fuel (Message ?h ?b) ctx] =>
    destruct (run_peer_exit fuel node idx Hf h b ctx env w eq_refl Hctx Hw) as (w' & Hr & Hs & Hw' & Hu) end.
  rewrite Hr. exists w'. split; [done|]. split; [done|]. split; [done|]. intros m env' Hd Hp0 Href.
  destruct Hs as (_ & Hc & _). destruct Hw' as [[Hi Hi0] [_ Hme] Hptr Hm _ [Hb Hin]].
  destruct (route_priority (header m)) as [prio|] eqn:Hp.
  2:{ unfold refusal in Href. rewrite Hp in Href. by destruct (negb _). }
  assert (Hpr : 0 <= prio < 8).
  { split; [|unfold refusal in Href; rewrite Hp in Href; destruct (negb _), (8 <=? prio) eqn:E; bool_to_prop; done || lia].
    unfold route_priority, LOCK_RING_PRIORITY in Hp. repeat case_match; by simplify_eq. }
  rewrite (send_reaches_remote fuel m env' w' prio) by (done || by rewrite Hd).
  destruct (Hu prio) as [Hci Htab]; [apply elem_of_seqZ; unfold MAX_PRIORITY_LEVELS; lia|].
  rewrite send_remote_withdrawn; rewrite ?Hd, ?Hi; try done. unfold ptr. by rewrite Hc.
Qed.

(** ** Everything [deinit_and_broadcast] does *)









#[local] Abbreviation me g := (current_node_id (conf_ g)).







(** ** Two nodes *)

(** A node whose threads have ended. *)
Definition demo_halt (w : tworld) : tworld :=
  let h := with_producer_thread Finished (with_consumer_thread Finished (t_hb (obj w))) in
  let u := with_dispatcher Finished (with_pool (Some (Pool [] false [] true 4 [3; 2; 1; 0]%nat)) (t_run (obj w))) in
  lset l_run u (lset l_hb h w).

#[local] Strategy 1000 [demo_B demo_A0 demo_lock_ring].





(** Node 5 is told that node 2 has left. *)
Lemma told_node_forgets_witness :
  exists w', run (dispatch_internal 1 log_app (bytes (as_msg (exit_message 2 5))) 16) [] (reboard 64 0 withdrawn demo_A) = (Some 0, [], w') /\
    run (send 1 (Some demo_message)) [] w' = (Some UB_COMM_ERR_PEER_NOT_READY, [], reboard 64 0 (set_pad 0) w').
Proof.
  destruct (told_node_forgets 1 log_app 2 0 1 [] (reboard 64 0 withdrawn demo_A)) as (w' & Hr & Hs & _ & Hm).
  - lia.
  - split.
    + split; [vm_compute; reflexivity|lia].
    + split; [lia|vm_compute; discriminate].
    + vm_compute. discriminate.
    + vm_compute. reflexivity.
    + intros p Hp. assert (Hps : p = 0 \/ p = 1 \/ p = 2 \/ p = 3 \/ p = 4 \/ p = 5 \/ p = 6 \/ p = 7) by lia.
      destruct Hps as [-> |[-> |[-> |[-> |[-> |[-> |[-> | ->]]]]]]]; vm_compute; lia.
    + split; [|vm_compute; reflexivity]. exists (default [] (boards (shm (reboard 64 0 withdrawn demo_A)) !! 64)).
      split; [vm_compute; reflexivity|]. split; [vm_compute; split; [discriminate|reflexivity]|vm_compute; reflexivity].
  - lia.
  - vm_compute. reflexivity.
  - exists w'. split; [exact Hr|]. apply (Hm demo_message []); [reflexivity|vm_compute; discriminate|].
    destruct Hs as (_ & Hc & Hl & Hh & _). unfold refusal. rewrite Hc, Hl, Hh. vm_compute. reflexivity.
Defined.

(** Node 5 has left; node 2 after two rounds of its monitor. *)
Definition demo_gone : tworld := (run (deinit_and_broadcast 3) [] (demo_halt demo_A)).2.
Definition demo_rounds (w : tworld) : list (Z * shared_mem) := [(10000000, shm w); (1000000000000, shm w)].
Definition demo_unaware : tworld := (run (watch (demo_rounds demo_gone)) [] demo_B).2.
Definition demo_lost : message_t := Message (Header 9 2 5 2 10 3) (Some [1; 2]).

(** A node that is not told keeps sending.  [deinit_and_broadcast] tells the nodes of its own lookup table, not
    those that have found it: node 5 has started first and does not know node 2, which has the rings of node 5 in its caches.  Node 5
    leaves, and node 2 is not told.  Its monitor passes over a node whose entry is withdrawn and still counts it as alive, whatever time passes; and
    a message from node 2 to node 5 is accepted with UB_COMM_OK, in a ring that nobody reads. *)
Theorem untold_node_keeps_sending :
  exists wA wB wB', run (deinit_and_broadcast 3) [] (demo_halt demo_A) = (Some tt, [], wA) /\
    initialized (node_at (shm wA) 64 1) = false /\ rings (shm wA) !! 3145728 = rings (shm demo_A) !! 3145728 /\
    run (watch (demo_rounds wA)) [] demo_B = (Some tt, [], wB) /\
    getZ false (peer_alive_ (t_hb (obj wB))) 5 = true /\
    run (send 1 (Some demo_lost)) [] wB = (Some UB_COMM_OK, [], wB').
Proof.
  exists demo_gone, demo_unaware, (run (send 1 (Some demo_lost)) [] demo_unaware).2.
  split; [|split; [|split; [|split; [|split]]]].
  - unfold demo_gone. apply run_final. vm_compute. reflexivity.
  - vm_compute. reflexivity.
  - vm_compute. reflexivity.
  - unfold demo_unaware. apply run_final. vm_compute. reflexivity.
  - vm_compute. reflexivity.
  - apply run_final. vm_compute. reflexivity.
Qed.
