(* ===== verification/TransportMark.v ===== *)
(** What the operations of a transport leave alone: the mark of the instance the locks use.

    Only [set_is_for_lock], which the interface calls when it creates an instance, writes the mark; no other operation and
    no thread of the library does ([thread_mark]).  The handles of the interface rely on it (CommApi.v). *)

From S2P Require Import Prelude Atomic CommTypes MPSCRing ThreadPool Transport.
Import UBShmTransport.

Definition keeps_mark (w w' : tworld) : Prop := is_for_lock (t_run (obj w')) = is_for_lock (t_run (obj w)).
#[export] Instance keeps_mark_preorder : PreOrder keeps_mark.
Proof. split; [done|]. unfold keeps_mark. intros w1 w2 w3. congruence. Qed.

(** * Steps *)

Lemma only_upd {P} (l : lens tworld P) f : (forall w, keeps_mark w (lset l (f (lget l w)) w)) -> only keeps_mark (upd l f).
Proof. intros H w. split; [apply H|intros b; exact I]. Qed.

Lemma only_for_each {S X} (R : S -> S -> Prop) (xs : list X) f : (forall x, only R (f x)) -> only R (for_each xs f).
Proof. intros H. induction xs as [|x xs IH]; [done|]. cbn. apply only_bind; auto. Qed.

Lemma only_ring {A} a (p : prog mpsc_world A) : only keeps_mark (lift (l_local_ring a) p).
Proof. eapply only_lift; [|apply only_any]. done. Qed.
Lemma only_remote {A} a node prio (p : prog mpsc_world A) : only keeps_mark (lift (l_remote_ring a node prio) p).
Proof. eapply only_lift; [|apply only_any]. done. Qed.
Lemma only_cache_store node prio f : only keeps_mark (cache_store node prio f).
Proof. done. Qed.
Lemma only_table_store i j a : only keeps_mark (table_store i j a).
Proof. by apply only_upd. Qed.
Lemma only_board_store ptr idx f : only keeps_mark (board_store ptr idx f).
Proof. by apply only_upd. Qed.

Create HintDb mark.
#[export] Hint Resolve only_ring only_remote only_cache_store only_table_store only_board_store : mark.
Ltac mark :=
  repeat first
    [ solve [eauto with mark nocore]
    | match goal with
      | |- forall _, _ => intros
      | |- only _ (check_code _ _) => unfold check_code
      | |- only _ (bind _ _) => apply only_bind
      | |- only _ (iter _ _ _) => apply only_iter
      | |- only _ (for_each _ _) => apply only_for_each
      | |- only _ (let '_ := ?x in _) => destruct x
      | |- only _ (match ?x with _ => _ end) => destruct x
      | |- only _ (Ret _) => exact I
      | |- only _ (ask _) => done
      | |- only _ (get _ _) => apply only_load; done
      | |- only _ (load _) => apply only_load; done
      | |- only _ (board_load _ _ _) => apply only_load; done
      | |- only _ (upd _ _) => by apply only_upd
      end ].

(** * Operations *)

Lemma mark_refresh ptr idx : only keeps_mark (force_refresh_whole_struct ptr idx).
Proof. unfold force_refresh_whole_struct. mark. Qed.
#[export] Hint Resolve mark_refresh : mark.

Lemma mark_get_remote_ring node prio : only keeps_mark (get_remote_ring node prio).
Proof. unfold get_remote_ring, get_compact_index. mark. Qed.
#[export] Hint Resolve mark_get_remote_ring : mark.

Lemma mark_populate node prio : only keeps_mark (try_populate_cache node prio).
Proof. unfold try_populate_cache. mark. Qed.
#[export] Hint Resolve mark_populate : mark.

Lemma mark_place_ring t prio capacity size : only keeps_mark (place_ring t prio capacity size).
Proof. unfold place_ring. mark. Qed.
#[export] Hint Resolve mark_place_ring : mark.

Lemma mark_place_rings ds : forall t, only keeps_mark (place_rings ds t).
Proof. induction ds as [|d ds IH]; intros t; cbn [place_rings]; mark. Qed.
#[export] Hint Resolve mark_place_rings : mark.

Lemma mark_seq_step : only keeps_mark (act (fun w => (local_consumer_heartbeat_seq_ (lget l_hb w),
  lset l_hb (with_local_seq (u64 (local_consumer_heartbeat_seq_ (lget l_hb w) + 1)) (lget l_hb w)) w))).
Proof. intros w. split; [done|intros b; exact I]. Qed.
#[export] Hint Resolve mark_seq_step : mark.

Lemma mark_beat : only keeps_mark refresh_local_consumer_heartbeat.
Proof. unfold refresh_local_consumer_heartbeat. mark. Qed.
#[export] Hint Resolve mark_beat : mark.

Lemma mark_monitor now : only keeps_mark (monitor_round now).
Proof. unfold monitor_round, monitor_peer. mark. Qed.
#[export] Hint Resolve mark_monitor : mark.

Lemma mark_register t ft f ctx : only keeps_mark (register_func t ft f ctx).
Proof. unfold register_func. mark. Qed.
Lemma mark_register_lock t ft f ctx : only keeps_mark (register_func_for_lock t ft f ctx).
Proof. unfold register_func_for_lock. mark. Qed.
#[export] Hint Resolve mark_register mark_register_lock : mark.

(** Locks and the worker pool. *)
Lemma mark_lock_shared fuel : only keeps_mark (lock_shared fuel).
Proof. apply only_iter. intros _ w. split; [|intros [|]; exact I]. cbn. destruct (_ <? 0); done. Qed.
Lemma mark_unlock_shared : only keeps_mark unlock_shared.
Proof. unfold unlock_shared. mark. Qed.
Lemma mark_lock_unique fuel : only keeps_mark (lock_unique fuel).
Proof. apply only_iter. intros _ w. split; [|intros [|]; exact I]. cbn. destruct (_ =? 0); done. Qed.
Lemma mark_unlock_unique : only keeps_mark unlock_unique.
Proof. unfold unlock_unique. mark. Qed.
#[export] Hint Resolve mark_lock_shared mark_unlock_shared mark_lock_unique mark_unlock_unique : mark.

Lemma mark_pstore f : only keeps_mark (ThreadPool.pstore l_worker_pool f).
Proof. intros w. split; [done|intros b; exact I]. Qed.
Lemma mark_pload {B} (f : pool_state async_task -> B) : only keeps_mark (ThreadPool.pload l_worker_pool f).
Proof. intros w. split; [done|intros b; exact I]. Qed.
Lemma mark_plock fuel : only keeps_mark (ThreadPool.lock l_worker_pool fuel).
Proof.
  apply only_iter. intros _ w. split; [|intros [|]; exact I]. unfold ThreadPool.lock_round. cbn. destruct (mtx _); done.
Qed.
#[export] Hint Resolve mark_pstore mark_pload mark_plock : mark.
Lemma mark_enqueue fuel t : only keeps_mark (ThreadPool.enqueue l_worker_pool fuel t).
Proof. unfold ThreadPool.enqueue, ThreadPool.unlock, ThreadPool.notify_one. mark. Qed.
Lemma mark_destroy fuel : only keeps_mark (ThreadPool.destroy l_worker_pool fuel).
Proof. unfold ThreadPool.destroy, ThreadPool.notify_all, ThreadPool.join, ThreadPool.join_round. mark. Qed.
#[export] Hint Resolve mark_enqueue mark_destroy : mark.

(** Messages. *)
Lemma mark_send fuel m : only keeps_mark (send fuel m).
Proof. unfold send, send_local, send_remote. mark. Qed.
#[export] Hint Resolve mark_send : mark.
Lemma mark_query node : only keeps_mark (query_inited node).
Proof. unfold query_inited. mark. Qed.
Lemma mark_status fuel node prio s : only keeps_mark (get_status fuel node prio s).
Proof. unfold get_status. mark. Qed.
Lemma mark_threshold fuel prio percent : only keeps_mark (set_congestion_threshold fuel prio percent).
Proof. unfold set_congestion_threshold, broadcast_flow_config_update. mark. Qed.
Lemma mark_config r e : only keeps_mark (config_heartbeat r e).
Proof. unfold config_heartbeat. mark. Qed.

Section Callbacks.
Context (fuel : nat) (app : Z -> Z -> message_t -> prog tworld unit).
Hypothesis Happ : forall f ctx m, only keeps_mark (app f ctx m).

Lemma mark_invoke i m : only keeps_mark (invoke fuel app i m).
Proof.
  unfold invoke, on_peer_exit, on_flow_config_update, remove_node_cache, update_cached_congestion_threshold, get_compact_index.
  destruct (cb_func i); [done| | |apply Happ]; mark.
Qed.
#[local] Hint Resolve mark_invoke : mark.
Lemma mark_dispatch data len : only keeps_mark (dispatch_internal fuel app data len).
Proof. unfold dispatch_internal. mark. Qed.
#[local] Hint Resolve mark_dispatch : mark.
Lemma mark_poll size : only keeps_mark (poll_and_dispatch_once fuel app size).
Proof. unfold poll_and_dispatch_once, poll_round. apply only_iter. mark. Qed.
End Callbacks.

(** Starting and stopping. *)
Lemma mark_publish offs : only keeps_mark (publish_to_billboard offs).
Proof. unfold publish_to_billboard. mark. Qed.
Lemma mark_wait fuel : only keeps_mark (wait_for_cluster_ready fuel).
Proof. unfold wait_for_cluster_ready, wait_node_round. mark. Qed.
Lemma mark_preload : only keeps_mark preload_remote_table.
Proof. unfold preload_remote_table, preload_node. mark. Qed.
Lemma mark_start : only keeps_mark start_reliability_threads.
Proof. unfold start_reliability_threads. mark. Qed.
#[export] Hint Resolve mark_publish mark_wait mark_preload mark_start : mark.

Lemma mark_init fuel area m conf : only keeps_mark (init fuel area m conf).
Proof.
  unfold init, setup_config_and_validate, build_node_mapping, build_region_bases, check_memory_capacity, deep_copy_ring_descs,
    init_thread_pool, alloc, create_local_rings, start_dispatcher. mark.
Qed.

Lemma mark_join {P} fuel (l : lens tworld P) f set :
  (forall w, keeps_mark w (lset l (set NotJoinable (lget l w)) w)) -> only keeps_mark (join_thread fuel l f set).
Proof. intros H. unfold join_thread. mark. Qed.

Lemma mark_deinit fuel : only keeps_mark (deinit_and_broadcast fuel).
Proof.
  unfold deinit_and_broadcast, stop_reliability_threads, clear_billboard, broadcast_exit. mark; by apply mark_join.
Qed.

(** * The threads of the library *)

(** The thread functions [init] starts, and the tasks of the worker pool. *)
Inductive library_thread : Type :=
| th_dispatcher
| th_worker (t : async_task)
| th_beat | th_monitor.   (** the two heartbeat threads *)

Section Threads.
Context (fuel : nat) (app : Z -> Z -> message_t -> prog tworld unit).

Definition thread_body (t : library_thread) : prog tworld unit :=
  match t with
  | th_dispatcher => run_dispatcher_loop fuel app
  | th_worker t => run_task fuel app t
  | th_beat => run_consumer_heartbeat_loop fuel
  | th_monitor => run_producer_heartbeat_monitor fuel
  end.

(** They never write the mark, when the application's callbacks do not. *)
Lemma thread_mark t : (forall f ctx m, only keeps_mark (app f ctx m)) -> only keeps_mark (thread_body t).
Proof.
  intros Happ. assert (Hp := fun size => mark_poll fuel app Happ size). assert (Ht := fun i m => mark_invoke fuel app Happ i m).
  destruct t; cbn [thread_body]; unfold run_dispatcher_loop, run_task, run_consumer_heartbeat_loop, run_producer_heartbeat_monitor; mark; auto.
Qed.
End Threads.
