(* ===== verification/CommApi.v ===== *)
(** The C interface of the communication queue (src/ub_comm_queue/ub_dist_comm_queue.cpp, include/ub_dist_comm_queue.h).

    A process holds its transports on the heap and their addresses in variables of type [ub_shm_comm_t], which the
    functions get a pointer to; the first transport is the one the locks send their messages through.  The state [process] has the
    shared memory, the heap, those variables and the global [g_transport]; the functions check their arguments and
    run an operation of Transport.v on the instance behind the handle.  Writing through a null [handle], which
    [ub_comm_queue_init] does not check, writes the variable at address 0.

    The calls are made by one thread, beside the threads of the transports: [beside] runs a call with arbitrary steps of the others
    between its accesses, which lets it wait for a thread to end ([join] in [ub_comm_queue_deinit]). *)

From S2P Require Import Prelude Atomic CommTypes MPSCRing ThreadPool Transport TransportMark.
Import UBShmTransport.

(** * The process *)

Definition EOPNOTSUPP : Z := 95.

(** An instance with the thread-local variables of its dispatcher. *)
Abbreviation instance := (transport * consumer_tls)%type.
Record process : Type := Process {
  p_shm : shared_mem;
  heap : gmap Z instance;       (** the transports, by address *)
  cells : gmap Z Z;             (** the variables of type [ub_shm_comm_t] *)
  g_transport : Z;
  next_addr : Z;                (** the address the next [new] returns *)
  p_log : list (Z * Z * message_t) }.

Definition no_instance : instance := (new_transport 0, ConsumerTls 0 []).
Definition l_instance (a : Z) : lens process tworld :=
  Lens (fun p => let x := default no_instance (heap p !! a) in TWorld (p_shm p) a x.1 x.2 (p_log p))
       (fun w p => Process (shm w) (<[a := (obj w, disp_tls w)]> (heap p)) (cells p) (g_transport p) (next_addr p) (app_log w)).

Definition set_cell (handle v : Z) (p : process) : process :=
  Process (p_shm p) (heap p) (<[handle := v]> (cells p)) (g_transport p) (next_addr p) (p_log p).
Definition set_g (v : Z) (p : process) : process :=
  Process (p_shm p) (heap p) (cells p) v (next_addr p) (p_log p).
Definition add_instance (t : transport) (p : process) : process :=
  Process (p_shm p) (<[next_addr p := (t, ConsumerTls 0 (replicate 32 MPSCRingBuffer.no_state))]> (heap p)) (cells p)
    (g_transport p) (next_addr p + 1) (p_log p).
Definition drop_instance (a : Z) (p : process) : process :=
  Process (p_shm p) (delete a (heap p)) (cells p) (g_transport p) (next_addr p) (p_log p).

(** * The functions *)

Module CommApi.

Definition deref (handle : Z) : prog process Z := load (fun p => default 0 (cells p !! handle)).
(** [if (handle == nullptr || *handle == nullptr) return bad; tspt = *handle; ...] *)
Definition with_instance {A} (handle : Z) (bad : A) (k : Z -> prog process A) : prog process A :=
  if handle =? 0 then Ret bad else
  do h <- deref handle;
  if h =? 0 then Ret bad else
  do tspt <- deref handle;
  k tspt.

Section Api.
Variable fuel : nat.
(** [std::thread::hardware_concurrency()] *)
Variable cores : Z.

Definition on {A} (tspt : Z) (p : prog tworld A) : prog process A := lift (l_instance tspt) p.

(** [new UBShmTransport()]; [None]: std::bad_alloc. *)
Definition new : prog process (option Z) :=
  do z <- ask QExternal;
  if negb (z =? 0) then Ret None else
  act (fun p => (Some (next_addr p), add_instance (new_transport cores) p)).
(** [delete tspt], with the destructor of the class. *)
Definition delete_ (tspt : Z) : prog process unit :=
  on tspt (deinit_and_broadcast fuel) ;;;
  store (drop_instance tspt).

(** An exception in [init] leaves the instance on the heap. *)
Definition ub_comm_queue_init (handle : Z) (init_region : option ub_shm_area_t)
    (ring_regions : option ub_ring_region_map_t) (conf : option ub_comm_conf_t) : prog process Z :=
  match conf, init_region, ring_regions with
  | Some _, Some _, Some _ =>
      do tspt <- new;
      match tspt with
      | None => Ret (- ENOMEM)
      | Some tspt =>
          do r <- on tspt (init fuel init_region ring_regions conf);
          match r with
          | Throw bad_alloc => Ret (- ENOMEM)
          | Throw other_exception => Ret (- EFAULT)
          | Code ret =>
              if negb (ret =? 0) then delete_ tspt ;;; Ret ret else
              store (set_cell handle tspt) ;;;
              do g <- load g_transport;
              (if g =? 0 then store (set_g tspt) ;;; do _ <- on tspt (set_is_for_lock true); Ret tt
               else do _ <- on tspt (set_is_for_lock false); Ret tt) ;;;
              Ret 0
          end
      end
  | _, _, _ => Ret (- EINVAL)
  end.

Definition ub_comm_queue_deinit (handle : Z) : prog process Z :=
  with_instance handle (- EINVAL) (fun tspt =>
    do lock <- on tspt get_is_for_lock;
    (if lock : bool then store (set_g 0) else Ret tt) ;;;
    delete_ tspt ;;;
    store (set_cell handle 0) ;;;
    Ret 0).

Definition ub_comm_queue_check_ready (handle node_id : Z) : prog process bool :=
  with_instance handle false (fun tspt => on tspt (query_inited node_id)).

Definition ub_comm_queue_send (handle : Z) (msg : option message_t) : prog process Z :=
  match msg with
  | None => with_instance handle (- EINVAL) (fun _ => Ret (- EINVAL))
  | Some m =>
      with_instance handle (- EINVAL) (fun tspt =>
        let t := msg_type (header m) in
        if t =? MSG_TYPE_DIST_LOCK then Ret (- EOPNOTSUPP) else
        if t =? MSG_TYPE_SYS_PEER_EXIT then Ret (- EOPNOTSUPP) else
        if t =? MSG_TYPE_SYS_FLOW_CONFIG_UPDATE then Ret (- EOPNOTSUPP) else
        on tspt (send fuel msg))
  end.

Definition ub_comm_queue_get_status (handle node_id prio : Z) (status : bool)
    : prog process (Z * option MPSCRingBuffer.queue_status) :=
  with_instance handle (- EINVAL, None) (fun tspt =>
    if negb status then Ret (- EINVAL, None) else on tspt (get_status fuel node_id prio status)).

Definition ub_comm_queue_set_congestion_threshold (handle prio percent : Z) : prog process Z :=
  with_instance handle (- EINVAL) (fun tspt => on tspt (set_congestion_threshold fuel prio percent)).

Definition ub_comm_queue_config_heartbeat (handle : Z) (request : option heartbeat_config_t) (effective : bool)
    : prog process (Z * option heartbeat_config_t) :=
  with_instance handle (- EINVAL, None) (fun tspt => on tspt (config_heartbeat request effective)).

Definition ub_comm_queue_recv (handle buffer length : Z) : prog process Z :=
  with_instance handle (- EINVAL) (fun tspt =>
    if buffer =? 0 then Ret (- EINVAL) else on tspt recv).

Definition ub_comm_queue_register_process_func (handle msg_type func_type : Z) (func : ub_callback_t) (ctx : Z)
    : prog process Z :=
  with_instance handle (- EINVAL) (fun tspt =>
    if bool_decide (func = cb_null) then Ret (- EINVAL) else
    if msg_type =? MSG_TYPE_DIST_LOCK then Ret (- EOPNOTSUPP) else
    if msg_type =? MSG_TYPE_SYS_PEER_EXIT then Ret (- EOPNOTSUPP) else
    on tspt (register_func msg_type func_type func ctx)).
End Api.
End CommApi.

Import CommApi.

(** * Calls beside other threads *)

(** [p], started in [s], may return [a] in [s'] while other threads make steps of [R] before each of its accesses and after the last. *)
Fixpoint beside {S A} (R : S -> S -> Prop) (p : prog S A) (s : S) (a : A) (s' : S) : Prop :=
  exists s1, R s s1 /\
    match p with
    | Ret b => a = b /\ s' = s1
    | Act f k => beside R (k (f s1).1) (f s1).2 a s'
    | Ask _ k => exists z, beside R (k z) s1 a s'
    | OutOfFuel => False
    end.

Section Beside.
Context {S : Type} (R : S -> S -> Prop) `{!PreOrder R}.

Lemma beside_env {A} (p : prog S A) s s1 a s' : R s s1 -> beside R p s1 a s' -> beside R p s a s'.
Proof using All. intros H1. destruct p; cbn; intros (s2 & H2 & H); exists s2; (split; [by etrans|exact H]). Qed.

Lemma beside_bind {A B} (p : prog S A) (f : A -> prog S B) s b s' :
  beside R (bind p f) s b s' -> exists a s1, beside R p s a s1 /\ beside R (f a) s1 b s'.
Proof using All.
  revert s. induction p as [a|C g k IH|q k IH|]; intros s; cbn.
  - intros H. exists a, s. split; [by exists s|exact H].
  - intros (s1 & H1 & H). destruct (IH _ _ H) as (a & s2 & Ha & Hb). exists a, s2. split; [by exists s1|exact Hb].
  - intros (s1 & H1 & z & H). destruct (IH _ _ H) as (a & s2 & Ha & Hb). exists a, s2. split; [exists s1; split; [done|by exists z]|exact Hb].
  - by intros (s1 & _ & []).
Qed.

Lemma beside_ret {A} (b a : A) s s' : beside R (Ret b) s a s' -> a = b /\ R s s'.
Proof. by intros (s1 & H1 & -> & ->). Qed.
Lemma beside_act {B} (f : S -> B * S) s b s' :
  beside R (act f) s b s' -> exists s1, R s s1 /\ b = (f s1).1 /\ R (f s1).2 s'.
Proof. intros (s1 & H1 & H). exists s1. split; [done|]. by apply beside_ret in H. Qed.

(** What every step of the call and of the others keeps. *)
Lemma beside_only {A} (I : S -> S -> Prop) `{!PreOrder I} (p : prog S A) s a s' :
  (forall s s', R s s' -> I s s') -> only I p -> beside R p s a s' -> I s s'.
Proof.
  intros HR. revert s. induction p as [b|C g k IH|q k IH|]; intros s Hp; cbn in *.
  - intros (s1 & H1 & -> & ->). by apply HR.
  - intros (s1 & H1 & H). etrans; [by apply HR|]. destruct (Hp s1) as [Hs Hk]. etrans; [exact Hs|]. by apply (IH (g s1).1).
  - intros (s1 & H1 & z & H). etrans; [by apply HR|]. by apply (IH z).
  - by intros (s1 & _ & []).
Qed.

(** One way the others can act: [e] between any two accesses. *)
Fixpoint run_with {A} (e : S -> S) (p : prog S A) (s : S) : option (A * S) :=
  match p with
  | Ret a => Some (a, e s)
  | Act f k => let '(b, s') := f (e s) in run_with e (k b) s'
  | Ask _ k => run_with e (k 0) (e s)
  | OutOfFuel => None
  end.
Lemma run_with_beside {A} e (p : prog S A) s a s' :
  (forall s, R s (e s)) -> run_with e p s = Some (a, s') -> beside R p s a s'.
Proof.
  intros He. revert s. induction p as [b|C g k IH|q k IH|]; intros s; cbn.
  - intros [= -> <-]. by exists (e s).
  - intros H. exists (e s). split; [done|]. destruct (g (e s)) as [b s1]. by apply IH.
  - intros H. exists (e s). split; [done|]. exists 0. by apply IH.
  - done.
Qed.
End Beside.

(** * Which instance the locks use *)

Definition for_lock (x : instance) : bool := is_for_lock (t_run x.1).

(** What the operations of an instance do not change of the process: the handles, [g_transport], which addresses are live and
    which instances are marked.  The memory, the members of the instances and the log may change in any way.  This is also
    what the threads of the library leave alone ([thread_kept]). *)
Record kept (p p' : process) : Prop := {
  k_heap : forall a, for_lock <$> heap p' !! a = for_lock <$> heap p !! a;
  k_cells : cells p' = cells p; k_g : g_transport p' = g_transport p; k_next : next_addr p' = next_addr p }.
#[export] Instance kept_preorder : PreOrder kept.
Proof. split; [by split|]. intros p1 p2 p3 [] []. split; congruence. Qed.

Definition kept_at (a : Z) (p p' : process) : Prop := is_Some (heap p !! a) -> kept p p'.
#[export] Instance kept_at_preorder a : PreOrder (kept_at a).
Proof.
  split; [by intros p _|]. intros p1 p2 p3 H12 H23 H. assert (K := H12 H). etrans; [exact K|]. apply H23.
  assert (E := k_heap _ _ K a). destruct H as [x Hx]. rewrite Hx in E. destruct (heap p2 !! a); [by eexists|done].
Qed.

Lemma only_on {A} a (op : prog tworld A) : only keeps_mark op -> only (kept_at a) (on a op).
Proof.
  apply only_lift. intros q t Hl [x Hx]. unfold keeps_mark in Hl. cbn in Hl. rewrite Hx in Hl. split; [|done..]. intros b. cbn.
  destruct (decide (a = b)) as [<-|Hne]; [|by rewrite lookup_insert_ne]. rewrite lookup_insert_eq, Hx. cbn. f_equal. exact Hl.
Qed.

(** Every step of a thread that [init] has started keeps it. *)
Lemma thread_kept fuel app a t :
  (forall f ctx m, only keeps_mark (app f ctx m)) -> only (kept_at a) (on a (thread_body fuel app t)).
Proof. intros Happ. by apply only_on, thread_mark. Qed.

Lemma kept_live a p p' : kept p p' -> is_Some (heap p !! a) -> is_Some (heap p' !! a).
Proof. intros K [x Hx]. assert (E := k_heap _ _ K a). rewrite Hx in E. destruct (heap p' !! a); [by eexists|done]. Qed.
Lemma kept_mark a p p' x : kept p p' -> heap p !! a = Some x -> exists y, heap p' !! a = Some y /\ for_lock y = for_lock x.
Proof. intros K Hx. assert (E := k_heap _ _ K a). rewrite Hx in E. destruct (heap p' !! a) as [y|]; [|done]. injection E as E. by exists y. Qed.

(** An operation of a live instance, beside the other threads. *)
Lemma beside_on {A} a (op : prog tworld A) p r p' :
  only keeps_mark op -> is_Some (heap p !! a) -> beside kept (on a op) p r p' -> kept p p'.
Proof.
  intros Hop Ha H. revert Ha. change (kept_at a p p'). apply (beside_only kept (kept_at a) (on a op) p r p'); [by intros q q' K _|by apply only_on|exact H].
Qed.

(** The handles are live and distinct, and exactly the instance behind [g_transport] is the one for the locks. *)
Record lock_inv (p : process) : Prop := {
  li_next : 0 < next_addr p /\ forall a x, heap p !! a = Some x -> 0 < a < next_addr p;
  li_cells : forall h v, cells p !! h = Some v -> v <> 0 -> is_Some (heap p !! v);
  li_distinct : forall h h' v, cells p !! h = Some v -> cells p !! h' = Some v -> v <> 0 -> h = h';
  li_lock : forall a x, heap p !! a = Some x -> for_lock x = true <-> a = g_transport p;
  li_g : g_transport p <> 0 -> is_Some (heap p !! g_transport p) }.

Lemma kept_inv p p' : kept p p' -> lock_inv p -> lock_inv p'.
Proof.
  intros [Hh Hc Hg Hn] [[Hn0 Hn1] Hcell Hd Hl Hgl].
  assert (Hback : forall a x, heap p' !! a = Some x -> exists y, heap p !! a = Some y /\ for_lock y = for_lock x).
  { intros a x Hx. specialize (Hh a). rewrite Hx in Hh. destruct (heap p !! a) as [y|]; [|done]. injection Hh as ->. by exists y. }
  assert (Hforw : forall a, is_Some (heap p !! a) -> is_Some (heap p' !! a)).
  { intros a [x Hx]. specialize (Hh a). rewrite Hx in Hh. destruct (heap p' !! a); [by eexists|done]. }
  split; rewrite ?Hc, ?Hg, ?Hn.
  - split; [done|]. intros a x (y & Hy & _)%Hback. by eapply Hn1.
  - intros h v Hv Hv0. by eapply Hforw, Hcell.
  - exact Hd.
  - intros a x (y & Hy & E)%Hback. rewrite <- E. by apply Hl.
  - intros H. by apply Hforw, Hgl.
Qed.

(** A new instance, which no handle names yet. *)
Lemma added_inv t p : lock_inv p -> is_for_lock (t_run t) = false -> lock_inv (add_instance t p).
Proof.
  intros [[Hn0 Hn1] Hcell Hd Hl Hg] Ht. split; cbn.
  - split; [lia|]. intros a x. destruct (decide (a = next_addr p)) as [->|Hne]; [lia|]. rewrite lookup_insert_ne by done. intros Hx%Hn1. lia.
  - intros h v Hv Hv0. destruct (Hcell h v Hv Hv0) as [x Hx]. rewrite lookup_insert_ne; [by eexists|]. intros <-. apply Hn1 in Hx. lia.
  - exact Hd.
  - intros a x. destruct (decide (a = next_addr p)) as [->|Hne]; [|rewrite lookup_insert_ne by done; apply Hl].
    rewrite lookup_insert_eq. intros [= <-]. unfold for_lock. cbn [fst]. rewrite Ht. split; [done|]. intros E.
    destruct (Hg ltac:(lia)) as [y Hy]. rewrite <- E in Hy. apply Hn1 in Hy. lia.
  - intros H. destruct (Hg H) as [x Hx]. rewrite lookup_insert_ne; [by eexists|]. intros E. rewrite <- E in Hx. apply Hn1 in Hx. lia.
Qed.

(** Deleting an instance; the locks lose it when it was theirs. *)
Section Dropping.
Context (a g' : Z) (p p1 : process).
Hypothesis Hinv : lock_inv p.
Hypothesis Hg' : g' = if decide (a = g_transport p) then 0 else g_transport p.
Hypothesis Hkept : kept (set_g g' p) p1.

Lemma dropped_live b : b <> a -> is_Some (heap p !! b) -> is_Some (delete a (heap p1) !! b).
Proof using Hkept.
  intros Hne [x Hx]. rewrite lookup_delete_ne by done. assert (K := k_heap _ _ Hkept b). cbn in K. rewrite Hx in K.
  destruct (heap p1 !! b); [by eexists|done].
Qed.

(** What does not concern the handles. *)
Lemma dropped_heap :
  (0 < next_addr p1 /\ forall b x, delete a (heap p1) !! b = Some x -> 0 < b < next_addr p1) /\
  (forall b x, delete a (heap p1) !! b = Some x -> for_lock x = true <-> b = g_transport p1) /\
  (g_transport p1 <> 0 -> is_Some (delete a (heap p1) !! g_transport p1)).
Proof using Hinv Hg' Hkept.
  destruct Hinv as [[Hn0 Hn1] Hcell Hd Hl Hg]. destruct (Hkept) as [Kh Kc Kg Kn]. cbn in Kh, Kc, Kg, Kn.
  assert (Hback : forall b x, delete a (heap p1) !! b = Some x -> b <> a /\ exists y, heap p !! b = Some y /\ for_lock y = for_lock x).
  { intros b x. rewrite lookup_delete_Some. intros [Hne Hx]. split; [congruence|]. specialize (Kh b). rewrite Hx in Kh.
    destruct (heap p !! b) as [y|]; [|done]. injection Kh as ->. by exists y. }
  split_and!.
  - by rewrite Kn.
  - rewrite Kn. intros b x (_ & y & Hy & _)%Hback. by eapply Hn1.
  - intros b x (Hne & y & Hy & <-)%Hback. rewrite (Hl b y Hy), Kg, Hg'. case_decide as E; [|done].
    apply Hn1 in Hy. split; [congruence|lia].
  - rewrite Kg, Hg'. case_decide as E; [done|]. intros H. apply dropped_live; [congruence|by apply Hg].
Qed.

Lemma dropped_inv : (forall h, cells p !! h <> Some a) -> lock_inv (drop_instance a p1).
Proof using Hinv Hg' Hkept.
  intros Hno. destruct dropped_heap as (H1 & H4 & H5). destruct Hinv as [_ Hcell Hd _ _].
  assert (Kc : cells p1 = cells p) by apply (k_cells _ _ Hkept). split; cbn; try done; rewrite Kc; [|done].
  intros h v Hv Hv0. apply dropped_live; [|by eapply Hcell]. intros ->. by apply (Hno h).
Qed.

Lemma closed_inv h : cells p !! h = Some a -> a <> 0 -> lock_inv (set_cell h 0 (drop_instance a p1)).
Proof using Hinv Hg' Hkept.
  intros Hh Ha. destruct dropped_heap as (H1 & H4 & H5). destruct Hinv as [_ Hcell Hd _ _].
  assert (Kc : cells p1 = cells p) by apply (k_cells _ _ Hkept). split; cbn; try done; rewrite Kc.
  - intros h' v Hv Hv0. destruct (decide (h = h')) as [<-|Hne]; [rewrite lookup_insert_eq in Hv; congruence|].
    rewrite lookup_insert_ne in Hv by done. apply dropped_live; [|by eapply Hcell]. intros ->. by apply Hne, (Hd h h' a).
  - intros h1 h2 v. destruct (decide (h = h1)) as [<-|N1], (decide (h = h2)) as [<-|N2]; rewrite ?lookup_insert_eq, ?lookup_insert_ne by done;
      try congruence. by apply Hd.
Qed.
End Dropping.

(** ** The calls *)

Inductive call : Type :=
| c_init (handle : Z) (area : option ub_shm_area_t) (m : option ub_ring_region_map_t) (conf : option ub_comm_conf_t)
| c_deinit (handle : Z)
| c_check_ready (handle node : Z)
| c_send (handle : Z) (m : option message_t)
| c_get_status (handle node prio : Z) (status : bool)
| c_set_congestion_threshold (handle prio percent : Z)
| c_config_heartbeat (handle : Z) (r : option heartbeat_config_t) (effective : bool)
| c_recv (handle buffer len : Z)
| c_register (handle t ft : Z) (f : ub_callback_t) (ctx : Z).

Section Calls.
Context (fuel : nat) (cores : Z).

Definition perform_call (c : call) : prog process unit :=
  match c with
  | c_init h area m conf => do _ <- ub_comm_queue_init fuel cores h area m conf; Ret tt
  | c_deinit h => do _ <- ub_comm_queue_deinit fuel h; Ret tt
  | c_check_ready h node => do _ <- ub_comm_queue_check_ready h node; Ret tt
  | c_send h m => do _ <- ub_comm_queue_send fuel h m; Ret tt
  | c_get_status h node prio s => do _ <- ub_comm_queue_get_status fuel h node prio s; Ret tt
  | c_set_congestion_threshold h prio percent => do _ <- ub_comm_queue_set_congestion_threshold fuel h prio percent; Ret tt
  | c_config_heartbeat h r e => do _ <- ub_comm_queue_config_heartbeat h r e; Ret tt
  | c_recv h b len => do _ <- ub_comm_queue_recv h b len; Ret tt
  | c_register h t ft f ctx => do _ <- ub_comm_queue_register_process_func h t ft f ctx; Ret tt
  end.

(** A function that runs an operation behind a handle. *)
Lemma run_with_instance {A} h (bad : A) k env p a :
  h <> 0 -> cells p !! h = Some a -> a <> 0 -> run (with_instance h bad k) env p = run (k a) env p.
Proof.
  intros Hh Hc Ha. unfold with_instance. rewrite (proj2 (Z.eqb_neq _ _) Hh). cbn. rewrite Hc. cbn. change (id a) with a.
  rewrite (proj2 (Z.eqb_neq _ _) Ha). cbn. by rewrite Hc.
Qed.

Lemma run_no_instance {A} h (bad : A) k env p :
  h = 0 \/ default 0 (cells p !! h) = 0 -> run (with_instance h bad k) env p = (Some bad, env, p).
Proof.
  intros H. unfold with_instance. destruct (h =? 0) eqn:E; bool_to_prop; [done|]. destruct H as [?|H]; [done|].
  cbn. by rewrite H.
Qed.

Lemma beside_instance {A} h (bad : A) k p r p' :
  beside kept (with_instance h bad k) p r p' ->
  (h = 0 \/ default 0 (cells p !! h) = 0) /\ r = bad /\ kept p p' \/
  exists a p1, h <> 0 /\ cells p !! h = Some a /\ a <> 0 /\ kept p p1 /\ beside kept (k a) p1 r p'.
Proof.
  unfold with_instance. destruct (Z.eqb_spec h 0) as [->|Hh].
  { intros [-> K]%beside_ret. left. auto. }
  intros (v & p1 & (q1 & K1 & -> & K1')%beside_act & H)%beside_bind; [|apply _]. cbn [fst snd] in *.
  rewrite (k_cells _ _ K1) in H. assert (K2 : kept p p1) by (by etrans).
  destruct (Z.eqb_spec (default 0 (cells p !! h)) 0) as [E|E].
  { apply beside_ret in H as [-> K]. left. split; [by right|]. split; [done|by etrans]. }
  apply beside_bind in H as (v & p2 & (q2 & K3 & -> & K3')%beside_act & H); [|apply _]. cbn [fst snd] in *.
  rewrite (k_cells _ _ K3), (k_cells _ _ K2) in H. destruct (cells p !! h) as [a|]; [|done].
  right. exists a, p2. cbn in E, H. split_and!; [done|done|done|by do 2 (etrans; [eassumption|])|exact H].
Qed.

(** ** What the steps of the interface do, up to what the others do *)

Definition mark (b : bool) (x : instance) : instance :=
  (Transport (t_cfg x.1) (t_loc x.1) (t_rem x.1) (t_hb x.1) (with_lock b (t_run x.1)), x.2).
Definition marked (b : bool) (a : Z) (p : process) : process :=
  Process (p_shm p) (alter (mark b) a (heap p)) (cells p) (g_transport p) (next_addr p) (p_log p).
#[local] Ltac steps_kept := split; cbn; try congruence; intros.
#[export] Instance set_g_kept g : Proper (kept ==> kept) (set_g g).
Proof. intros p p' []. by steps_kept. Qed.
#[export] Instance set_cell_kept h v : Proper (kept ==> kept) (set_cell h v).
Proof. intros p p' [K1 K2 K3 K4]. steps_kept; auto. Qed.
#[export] Instance drop_kept a : Proper (kept ==> kept) (drop_instance a).
Proof.
  intros p p' [K1 K2 K3 K4]. steps_kept. destruct (decide (a = a0)) as [->|Hne]; [by rewrite !lookup_delete_eq|].
  by rewrite !lookup_delete_ne.
Qed.
#[export] Instance add_kept t : Proper (kept ==> kept) (add_instance t).
Proof.
  intros p p' [K1 K2 K3 K4]. steps_kept. rewrite K4. destruct (decide (next_addr p = a)) as [->|Hne]; [by rewrite !lookup_insert_eq|].
  by rewrite !lookup_insert_ne.
Qed.
#[export] Instance marked_kept b a : Proper (kept ==> kept) (marked b a).
Proof.
  intros p p' [K1 K2 K3 K4]. steps_kept. destruct (decide (a = a0)) as [<-|Hne]; [|by rewrite !lookup_alter_ne].
  rewrite !lookup_alter_eq. specialize (K1 a). by destruct (heap p !! a), (heap p' !! a).
Qed.

Lemma beside_store (f : process -> process) `{!Proper (kept ==> kept) f} p r p' : beside kept (store f) p r p' -> kept (f p) p'.
Proof. intros (q & K & _ & K')%beside_act. cbn in K'. etrans; [|exact K']. by f_equiv. Qed.

(** Reading and writing [is_for_lock]. *)
Lemma beside_get_lock a x p r p' :
  heap p !! a = Some x -> beside kept (on a get_is_for_lock) p r p' -> r = for_lock x /\ kept p p'.
Proof.
  intros Hx (q & K & H). cbn in H. destruct H as (q' & K' & -> & ->). destruct (kept_mark a p q x K Hx) as (y & Hy & E).
  rewrite Hy in *. cbn in *. change (id y) with y in *. split; [done|]. etrans; [exact K|]. etrans; [|exact K'].
  split; [|done..]. intros b. cbn. rewrite insert_id; [done|]. rewrite Hy. by destruct y.
Qed.
Lemma beside_set_lock a b p r p' :
  is_Some (heap p !! a) -> beside kept (do _ <- on a (set_is_for_lock b); Ret tt) p r p' -> kept (marked b a p) p'.
Proof.
  intros Ha (q & K & H). cbn in H. destruct H as (q' & K' & _ & ->). etrans; [|exact K'].
  destruct (kept_live a p q K Ha) as [y Hy]. etrans; [by apply marked_kept|]. rewrite Hy. unfold marked.
  by rewrite (alter_alt_Some (mark b) (heap q) a y Hy).
Qed.

Lemma beside_delete a p r p' : is_Some (heap p !! a) -> beside kept (delete_ fuel a) p r p' -> kept (drop_instance a p) p'.
Proof.
  intros Ha. unfold delete_. intros (u & p1 & H1 & H2)%beside_bind; [|apply _]. apply beside_store in H2; [|apply _].
  etrans; [|exact H2]. apply drop_kept. by apply (beside_on a _ p u p1 (mark_deinit fuel)).
Qed.

(** Closing a handle. *)
Definition closed (h a : Z) (p : process) : process :=
  set_cell h 0 (drop_instance a (set_g (if decide (a = g_transport p) then 0 else g_transport p) p)).

Lemma beside_deinit h p r p' :
  lock_inv p -> beside kept (ub_comm_queue_deinit fuel h) p r p' ->
  (h = 0 \/ default 0 (cells p !! h) = 0) /\ r = - EINVAL /\ kept p p' \/
  exists a, h <> 0 /\ cells p !! h = Some a /\ a <> 0 /\ r = 0 /\ kept (closed h a p) p'.
Proof.
  intros Hp [(Hh & -> & K)|(a & p1 & Hh & Hc & Ha & K1 & H)]%beside_instance; [by left|right]. exists a. do 3 (split; [done|]).
  destruct (li_cells p Hp h a Hc Ha) as [x Hx]. destruct (kept_mark a p p1 x K1 Hx) as (y & Hy & E).
  apply beside_bind in H as (b & p2 & H2 & H); [|apply _]. apply (beside_get_lock a y p1 b p2 Hy) in H2 as [-> K2].
  apply beside_bind in H as (u & p3 & H3 & H); [|apply _]. set (g' := if decide (a = g_transport p) then 0 else g_transport p).
  assert (K3 : kept (set_g g' p) p3).
  { assert (Hl := li_lock p Hp a x Hx). unfold g'. rewrite E in H3. destruct (for_lock x).
    - apply beside_store in H3; [|apply _]. rewrite decide_True by tauto. etrans; [apply set_g_kept, (transitivity K1 K2)|exact H3].
    - apply beside_ret in H3 as [_ H3]. rewrite decide_False by (intros G; by apply Hl in G). destruct p. by do 2 (etrans; [eassumption|]). }
  apply beside_bind in H as (v & p4 & H4 & H); [|apply _]. apply beside_delete in H4; [|by apply (kept_live a _ p3 K3); eexists].
  apply beside_bind in H as (v' & p5 & H5 & H); [|apply _]. apply beside_store in H5; [|apply _]. apply beside_ret in H as [-> K6].
  split; [done|]. unfold closed. fold g'. etrans; [|exact K6]. etrans; [|exact H5]. apply set_cell_kept. etrans; [|exact H4]. by apply drop_kept.
Qed.

Lemma closed_lock_inv h a p : lock_inv p -> cells p !! h = Some a -> a <> 0 -> lock_inv (closed h a p).
Proof. intros Hp Hc Ha. by apply (closed_inv a _ p (set_g _ p) Hp eq_refl). Qed.

(** The new instance gets its handle and is marked. *)
Lemma opened_inv h a b p x :
  lock_inv p -> heap p !! a = Some x -> for_lock x = false -> (forall h', cells p !! h' <> Some a) ->
  b = (if decide (g_transport p = 0) then true else false) ->
  lock_inv (marked b a (set_g (if b then a else g_transport p) (set_cell h a p))).
Proof.
  intros [[Hn0 Hn1] Hcell Hd Hl Hg] Hx Hf Hno Hb. assert (Ha := Hn1 a x Hx).
  assert (Hheap : forall c y, alter (mark b) a (heap p) !! c = Some y -> exists z, heap p !! c = Some z /\ (if decide (a = c) then for_lock y = b else y = z)).
  { intros c y. destruct (decide (a = c)) as [<-|Hne].
    - rewrite lookup_alter_eq, Hx. intros [= <-]. by exists x.
    - rewrite lookup_alter_ne by done. intros Hy. by exists y. }
  assert (Hlive : forall c, is_Some (heap p !! c) -> is_Some (alter (mark b) a (heap p) !! c)).
  { intros c [z Hz]. destruct (decide (a = c)) as [<-|Hne]; [rewrite lookup_alter_eq, Hz; by eexists|].
    rewrite lookup_alter_ne by done. by exists z. }
  split; cbn.
  - split; [done|]. intros c y (z & Hz & _)%Hheap. by eapply Hn1.
  - intros h' v. destruct (decide (h = h')) as [<-|Hne].
    + rewrite lookup_insert_eq. intros [= <-] _. apply Hlive. by exists x.
    + rewrite lookup_insert_ne by done. intros Hv Hv0. by eapply Hlive, Hcell.
  - intros h1 h2 v. destruct (decide (h = h1)) as [<-|N1], (decide (h = h2)) as [<-|N2]; rewrite ?lookup_insert_eq, ?lookup_insert_ne by done; [done| | |by apply Hd].
    + intros [= <-] H. by destruct (Hno h2).
    + intros H [= <-]. by destruct (Hno h1).
  - intros c y (z & Hz & Hy)%Hheap. assert (Hlz := Hl c z Hz). assert (Hc := Hn1 c z Hz). destruct (decide (a = c)) as [<-|Hne].
    + rewrite Hy. destruct (decide (g_transport p = 0)) as [E|E]; subst b; [done|]. rewrite Hx in Hz. injection Hz as <-. rewrite Hf in Hlz. done.
    + subst y. destruct (decide (g_transport p = 0)) as [E|E]; subst b; [|done]. rewrite Hlz, E. split; [lia|congruence].
  - intros H. apply Hlive. destruct b; [by exists x|by apply Hg].
Qed.

(** Creating an instance. *)
Lemma added_fresh t p : lock_inv p -> forall h, cells (add_instance t p) !! h <> Some (next_addr p).
Proof.
  intros Hp h Hh. destruct (li_next p Hp) as [Hn0 Hn1]. destruct (li_cells p Hp h _ Hh) as [y Hy]; [lia|]. apply Hn1 in Hy. lia.
Qed.

(** The instance that was created and deleted again. *)
Lemma abandoned_inv t p : lock_inv p -> is_for_lock (t_run t) = false -> lock_inv (drop_instance (next_addr p) (add_instance t p)).
Proof.
  intros Hp Ht. assert (Hq := added_inv t p Hp Ht). set (q := add_instance t p) in *.
  apply (dropped_inv (next_addr p) (g_transport q) q q Hq); [|by destruct q|by apply added_fresh].
  rewrite decide_False; [done|]. intros E. assert (Hx : heap q !! next_addr p = Some (t, ConsumerTls 0 (replicate 32 MPSCRingBuffer.no_state)))
    by apply lookup_insert_eq. apply (li_lock q Hq _ _ Hx) in E. unfold for_lock in E. cbn in E. congruence.
Qed.

Lemma beside_open h a x b p r p' :
  lock_inv p -> heap p !! a = Some x -> for_lock x = false -> (forall h', cells p !! h' <> Some a) ->
  b = (if decide (g_transport p = 0) then true else false) ->
  beside kept (store (set_cell h a) ;;;
    do g <- load g_transport;
    (if g =? 0 then store (set_g a) ;;; do _ <- on a (set_is_for_lock true); Ret tt
     else do _ <- on a (set_is_for_lock false); Ret tt) ;;; Ret 0) p r p' -> lock_inv p'.
Proof.
  intros Hp Hx Hf Hno Hb H. apply beside_bind in H as (u & p1 & H1 & H); [|apply _]. apply beside_store in H1; [|apply _].
  apply beside_bind in H as (g & p2 & (q & K1 & -> & K2)%beside_act & H); [|apply _]. cbn [fst snd] in *.
  assert (Kq : kept (set_cell h a p) q) by (by etrans). rewrite (k_g _ _ Kq) in H. cbn [g_transport set_cell] in H.
  assert (K3 : kept (set_cell h a p) p2) by (by etrans). apply beside_bind in H as (v & p3 & H3 & H); [|apply _].
  apply beside_ret in H as [_ K4]. apply (kept_inv _ _ K4). refine (kept_inv _ _ _ (opened_inv h a b p x Hp Hx Hf Hno Hb)).
  destruct (Z.eqb_spec (g_transport p) 0) as [E|E]; [rewrite decide_True in Hb by done|rewrite decide_False in Hb by done]; subst b.
  - apply beside_bind in H3 as (v' & p4 & H4 & H5); [|apply _]. apply beside_store in H4; [|apply _].
    assert (K5 : kept (set_g a (set_cell h a p)) p4) by (etrans; [by apply set_g_kept|exact H4]).
    etrans; [by apply marked_kept|]. eapply beside_set_lock; [|exact H5]. apply (kept_live a _ _ K5). by exists x.
  - replace (set_g (g_transport p) (set_cell h a p)) with (set_cell h a p) by (by destruct p). etrans; [by apply marked_kept|].
    eapply beside_set_lock; [|exact H3]. apply (kept_live a _ _ K3). by exists x.
Qed.

Lemma init_inv h area m conf p r p' : lock_inv p -> beside kept (ub_comm_queue_init fuel cores h area m conf) p r p' -> lock_inv p'.
Proof.
  intros Hp H. unfold ub_comm_queue_init in H. destruct conf as [conf|], area as [area|], m as [m|];
    try (apply beside_ret in H as [_ K]; exact (kept_inv _ _ K Hp)).
  apply beside_bind in H as (t & p1 & H1 & H); [|apply _]. unfold new in H1. apply beside_bind in H1 as (z & q & (q0 & K0 & z' & K0')  & H1); [|apply _].
  apply beside_ret in K0' as [-> K0']. assert (Kq : kept p q) by (by etrans). destruct (negb (z' =? 0)).
  { apply beside_ret in H1 as [-> K1]. apply beside_ret in H as [_ K2]. refine (kept_inv _ _ _ Hp). by do 2 (etrans; [eassumption|]). }
  apply beside_act in H1 as (q1 & K1 & -> & K1'). cbn [fst snd] in *. assert (Kq1 : kept p q1) by (by etrans). rewrite (k_next _ _ Kq1) in H.
  set (T := new_transport cores) in *. set (a := next_addr p) in *.
  assert (K2 : kept (add_instance T p) p1) by (etrans; [by apply add_kept|exact K1']).
  assert (Hadd : heap (add_instance T p) !! a = Some (T, ConsumerTls 0 (replicate 32 MPSCRingBuffer.no_state))) by apply lookup_insert_eq.
  assert (Hi2 := added_inv T p Hp eq_refl). apply beside_bind in H as (res & p2 & H2 & H); [|apply _].
  apply (beside_on a _ p1 _ p2 (mark_init fuel _ _ _)) in H2; [|apply (kept_live a _ _ K2); by eexists].
  assert (K3 : kept (add_instance T p) p2) by (by etrans). assert (Hi3 := kept_inv _ _ K3 Hi2).
  destruct (kept_mark a _ _ _ K3 Hadd) as (x & Hx & Hf).
  destruct res as [ret|[]]; [|apply beside_ret in H as [_ K]; exact (kept_inv _ _ K Hi3)..]. destruct (negb (ret =? 0)).
  - apply beside_bind in H as (u & p3 & H3 & H); [|apply _]. apply beside_ret in H as [_ K4]. apply beside_delete in H3; [|by exists x].
    refine (kept_inv _ _ _ (abandoned_inv T p Hp eq_refl)). etrans; [|exact K4]. etrans; [|exact H3]. by apply drop_kept.
  - eapply (beside_open h a x _ p2 r p' Hi3 Hx Hf); [|reflexivity|exact H]. intros h'. rewrite (k_cells _ _ K3). by apply added_fresh.
Qed.

(** A call that runs an operation of the instance behind its handle. *)
Lemma used_inv {A} h (bad : A) k p r p' :
  lock_inv p -> (forall a q r q', is_Some (heap q !! a) -> beside kept (k a) q r q' -> kept q q') ->
  beside kept (with_instance h bad k) p r p' -> lock_inv p'.
Proof.
  intros Hp Hk [(_ & _ & K)|(a & p1 & _ & Hc & Ha & K1 & H)]%beside_instance; [exact (kept_inv _ _ K Hp)|].
  refine (kept_inv _ _ _ Hp). etrans; [exact K1|]. apply (Hk a p1 r p'); [|exact H]. by apply (kept_live a p), (li_cells p Hp h).
Qed.

Lemma call_inv c p p' : lock_inv p -> beside kept (perform_call c) p tt p' -> lock_inv p'.
Proof.
  intros Hp H. destruct c; cbn [perform_call] in H; apply beside_bind in H as (ret & p1 & H & [_ K]%beside_ret); try apply _;
    apply (kept_inv _ _ K); clear K p'.
  1: by eapply init_inv.
  1: { destruct (beside_deinit _ _ _ _ Hp H) as [(_ & _ & K)|(a & _ & Hc & Ha & _ & K)]; apply (kept_inv _ _ K); [done|].
       by apply closed_lock_inv. }
  2: unfold ub_comm_queue_send in H; destruct m.
  all: revert H; apply used_inv; [done|]; intros a q r' q' Hq H.
  all: repeat match type of H with beside _ (if ?b then _ else _) _ _ _ => destruct b end; try by apply beside_ret in H as [_ K].
  all: revert H; apply beside_on; [|done].
  all: first [apply mark_query|apply mark_send|apply mark_status|apply mark_threshold|apply mark_config|apply mark_register|done].
Qed.
End Calls.

(** * Properties *)

(** C19: there is one instance for the locks, and it is the one [g_transport] points to.  However the process creates,
    uses and deletes transports (any sequence of calls of the interface by one thread, beside the threads of the library, which
    run, change their instances and end in any way that leaves the handles and the marks alone: [kept], [thread_kept]):
    every handle that is not null names a live instance, no two handles name the same one, and among the live instances exactly the one
    behind [g_transport] is marked as the locks' (none when [g_transport] is null).  Closing a handle then returns 0, sets the handle to
    null and deletes the instance, and [g_transport] becomes null exactly when the instance was the locks', so that nothing refers
    to it any more. *)
Theorem lock_instance_unique fuel cores calls m p' :
  beside kept (for_each calls (perform_call fuel cores)) (Process m ∅ ∅ 0 1 []) tt p' ->
  (forall h v, cells p' !! h = Some v -> v <> 0 -> is_Some (heap p' !! v)) /\
  (forall h h' v, cells p' !! h = Some v -> cells p' !! h' = Some v -> v <> 0 -> h = h') /\
  (forall a x, heap p' !! a = Some x -> for_lock x = true <-> a = g_transport p') /\
  (g_transport p' <> 0 -> is_Some (heap p' !! g_transport p')) /\
  (forall h a r p2, h <> 0 -> cells p' !! h = Some a -> a <> 0 -> beside kept (ub_comm_queue_deinit fuel h) p' r p2 ->
     r = 0 /\ cells p2 !! h = Some 0 /\ heap p2 !! a = None /\
     g_transport p2 = (if decide (a = g_transport p') then 0 else g_transport p')).
Proof.
  intros Hr. assert (H0 : lock_inv (Process m ∅ ∅ 0 1 [])).
  { split; cbn; [split; [lia|]|..]; intros *; rewrite ?lookup_empty; done. }
  assert (Hinv : lock_inv p').
  { revert Hr H0. generalize (Process m ∅ ∅ 0 1 []) as p. induction calls as [|c calls IH]; intros p Hr Hp.
    - apply beside_ret in Hr as [_ K]. exact (kept_inv _ _ K Hp).
    - apply beside_bind in Hr as ([] & p1 & Hc & Hr); [|apply _]. apply (IH p1 Hr). by apply (call_inv fuel cores c p). }
  destruct (Hinv) as [_ H1 H2 H3 H4]. do 4 (split; [done|]). intros h a r p2 Hh Hc Ha H.
  apply beside_deinit in H as [([?|E] & _)|(b & _ & Hb & _ & -> & K)]; [done|by rewrite Hc in E| |done].
  rewrite Hc in Hb. injection Hb as <-. assert (Kh := k_heap _ _ K a). unfold closed in *. cbn in Kh. rewrite lookup_delete_eq in Kh.
  rewrite (k_cells _ _ K), (k_g _ _ K). cbn. rewrite lookup_insert_eq. split_and!; [done|done|by destruct (heap p2 !! a)|done].
Qed.

Lemma invalid_request r :
  heartbeat_interval_ms r = 0 \/ check_interval_ms r = 0 \/ timeout_ms r = 0 \/ timeout_ms r < 2 * check_interval_ms r ->
  request_valid r = false.
Proof. intros H. unfold request_valid. apply negb_false_iff. rewrite !orb_true_iff, !Z.eqb_eq, Z.ltb_lt. tauto. Qed.

(** C35: what the interface refuses, without any effect.  [ub_comm_queue_init] without a configuration, an area or a map of the regions:
    -EINVAL.  With a null handle, or a handle that is null because it was never initialised or has been closed, every function but
    [ub_comm_queue_init] (which writes the handle and does not check the pointer): -EINVAL, and false from check_ready.
    With a live handle: a null message, a null status, a null buffer, a heartbeat call with neither a request nor a place for
    the answer, a request with a zero interval or with a timeout below two check intervals, a threshold for the lock ring or a priority that does
    not exist, a null callback, a kind of callback that does not exist: -EINVAL; a message of one of the library's own three
    types, and a callback for lock or exit messages: -EOPNOTSUPP.  (A callback for the third own type is accepted:
    [flow_callback_replaced].) *)
Theorem api_refuses fuel cores h env p :
  (forall area m conf, area = None \/ m = None \/ conf = None ->
     run (ub_comm_queue_init fuel cores h area m conf) env p = (Some (- EINVAL), env, p)) /\
  (h = 0 \/ default 0 (cells p !! h) = 0 ->
     run (ub_comm_queue_deinit fuel h) env p = (Some (- EINVAL), env, p) /\
     (forall n, run (ub_comm_queue_check_ready h n) env p = (Some false, env, p)) /\
     (forall m, run (ub_comm_queue_send fuel h m) env p = (Some (- EINVAL), env, p)) /\
     (forall n q s, run (ub_comm_queue_get_status fuel h n q s) env p = (Some (- EINVAL, None), env, p)) /\
     (forall q c, run (ub_comm_queue_set_congestion_threshold fuel h q c) env p = (Some (- EINVAL), env, p)) /\
     (forall r e, run (ub_comm_queue_config_heartbeat h r e) env p = (Some (- EINVAL, None), env, p)) /\
     (forall b l, run (ub_comm_queue_recv h b l) env p = (Some (- EINVAL), env, p)) /\
     (forall t ft f ctx, run (ub_comm_queue_register_process_func h t ft f ctx) env p = (Some (- EINVAL), env, p))) /\
  (forall a, h <> 0 -> cells p !! h = Some a -> a <> 0 ->
     run (ub_comm_queue_send fuel h None) env p = (Some (- EINVAL), env, p) /\
     (forall m, msg_type (header m) ∈ [MSG_TYPE_DIST_LOCK; MSG_TYPE_SYS_PEER_EXIT; MSG_TYPE_SYS_FLOW_CONFIG_UPDATE] ->
        run (ub_comm_queue_send fuel h (Some m)) env p = (Some (- EOPNOTSUPP), env, p)) /\
     (forall n q, run (ub_comm_queue_get_status fuel h n q false) env p = (Some (- EINVAL, None), env, p)) /\
     (forall l, run (ub_comm_queue_recv h 0 l) env p = (Some (- EINVAL), env, p)) /\
     run (ub_comm_queue_config_heartbeat h None false) env p = (Some (- EINVAL, None), env, p) /\
     (forall r e, heartbeat_interval_ms r = 0 \/ check_interval_ms r = 0 \/ timeout_ms r = 0 \/ timeout_ms r < 2 * check_interval_ms r ->
        run (ub_comm_queue_config_heartbeat h (Some r) e) env p = (Some (- EINVAL, None), env, p)) /\
     (forall q c, q = LOCK_RING_PRIORITY \/ 8 <= q ->
        run (ub_comm_queue_set_congestion_threshold fuel h q c) env p = (Some (- EINVAL), env, p)) /\
     (forall t ft ctx, run (ub_comm_queue_register_process_func h t ft cb_null ctx) env p = (Some (- EINVAL), env, p)) /\
     (forall t ft f ctx, f <> cb_null -> t ∈ [MSG_TYPE_DIST_LOCK; MSG_TYPE_SYS_PEER_EXIT] ->
        run (ub_comm_queue_register_process_func h t ft f ctx) env p = (Some (- EOPNOTSUPP), env, p)) /\
     (forall t ft f ctx, ~ t ∈ [MSG_TYPE_DIST_LOCK; MSG_TYPE_SYS_PEER_EXIT] -> ft <> UB_FUNC_SYNC -> ft <> UB_FUNC_ASYNC ->
        run (ub_comm_queue_register_process_func h t ft f ctx) env p = (Some (- EINVAL), env, p))).
Proof.
  split; [|split].
  - intros area m conf H. unfold ub_comm_queue_init. destruct conf, area, m; try done. by destruct H as [?|[?|?]].
  - intros H. split_and!; intros; try (apply run_no_instance; done). unfold ub_comm_queue_send. destruct m; by apply run_no_instance.
  - intros a Hh Hc Ha.
    assert (Hw : forall A (bad : A) k, run (with_instance h bad k) env p = run (k a) env p) by (intros; by apply run_with_instance).
    split_and!.
    + unfold ub_comm_queue_send. by rewrite Hw.
    + intros m Hm. unfold ub_comm_queue_send. rewrite Hw. rewrite !elem_of_cons in Hm. cbv zeta.
      destruct Hm as [-> |[-> |[-> |Hm]]]; [done..|by apply not_elem_of_nil in Hm].
    + intros n q. unfold ub_comm_queue_get_status. by rewrite Hw.
    + intros l. unfold ub_comm_queue_recv. by rewrite Hw.
    + unfold ub_comm_queue_config_heartbeat. by rewrite Hw.
    + intros r e Hr. unfold ub_comm_queue_config_heartbeat. rewrite Hw. unfold config_heartbeat. by rewrite (invalid_request r Hr).
    + intros q c Hq. unfold ub_comm_queue_set_congestion_threshold. rewrite Hw. unfold set_congestion_threshold, MAX_PRIORITY_LEVELS.
      rewrite (proj2 (orb_true_iff _ _)); [done|]. rewrite Z.eqb_eq, Z.leb_le. exact Hq.
    + intros t ft ctx. unfold ub_comm_queue_register_process_func. by rewrite Hw, bool_decide_eq_true_2.
    + intros t ft f ctx Hf Ht. unfold ub_comm_queue_register_process_func. rewrite Hw, bool_decide_eq_false_2 by done.
      rewrite !elem_of_cons in Ht. destruct Ht as [-> |[-> |Ht]]; [done..|by apply not_elem_of_nil in Ht].
    + intros t ft f ctx Ht H1 H2. unfold ub_comm_queue_register_process_func. rewrite Hw. case_bool; [done|]. rewrite !elem_of_cons in Ht.
      rewrite !(proj2 (Z.eqb_neq _ _)) by tauto. unfold on, register_func. destruct (256 <=? t); [done|].
      by rewrite (proj2 (Z.eqb_neq _ _) H1), (proj2 (Z.eqb_neq _ _) H2).
Qed.

(** The callback of the flow-control messages, which [ub_comm_queue_send] protects, can be replaced. *)
Theorem flow_callback_replaced h a x f ctx env p :
  h <> 0 -> cells p !! h = Some a -> a <> 0 -> heap p !! a = Some x -> length (callbacks_ (t_run x.1)) = 256%nat ->
  exists p' x', run (ub_comm_queue_register_process_func h MSG_TYPE_SYS_FLOW_CONFIG_UPDATE UB_FUNC_SYNC (cb_app f) ctx) env p = (Some 0, env, p') /\
    heap p' !! a = Some x' /\
    getZ no_cb (callbacks_ (t_run x'.1)) MSG_TYPE_SYS_FLOW_CONFIG_UPDATE = CbInfo (cb_app f) ctx UB_FUNC_SYNC.
Proof.
  intros Hh Hc Ha Hx Hl. unfold ub_comm_queue_register_process_func. rewrite (run_with_instance h _ _ env p a) by done.
  rewrite bool_decide_eq_false_2 by done. change (_ =? MSG_TYPE_DIST_LOCK) with false. change (_ =? MSG_TYPE_SYS_PEER_EXIT) with false.
  cbv iota. unfold register_func. change (256 <=? _) with false. change (negb (_ =? UB_FUNC_SYNC) && _) with false.
  cbn. rewrite Hx. cbn. eexists _, _. split; [reflexivity|]. cbn.
  rewrite lookup_insert_eq. split; [reflexivity|]. cbn. change (id x) with x. apply getZ_setZ_eq. rewrite Hl. unfold MSG_TYPE_SYS_FLOW_CONFIG_UPDATE. lia.
Qed.

(** An exception in [init] leaves an instance on the heap that no handle names and nobody deletes. *)
Theorem init_exception_leaks :
  exists env' p', run (ub_comm_queue_init 3 8 100 (Some (Area 4096 64)) (Some (RegionMap (Some [RegionInfo (Area 2000000 6291456) 5]) 1))
      (Some (Conf 3 1 5 1 (Some [RingDesc 4 64 3])))) [] (Process (Shared ∅ ∅ ∅) ∅ ∅ 0 1 []) = (Some (- EFAULT), env', p') /\
    is_Some (heap p' !! 1) /\ cells p' = ∅ /\ g_transport p' = 0.
Proof. eexists _, _. split; [vm_compute; reflexivity|]. split; [vm_compute; by eexists|]. by vm_compute. Qed.

(** The threads of an instance that have been told to stop end. *)
Definition finish_stopped (x : instance) : instance :=
  let t := x.1 in let h := t_hb t in let u := t_run t in
  let h := if reliability_stop_flag_ h then with_producer_thread Finished (with_consumer_thread Finished h) else h in
  let u := if stop_flag_ u then with_dispatcher Finished u else u in
  let u := with_pool ((fun q => if shuttingDown q then Pool (taskQueue q) (mtx q) (waiting q) true (threads q) (seq 0 (threads q)) else q) <$> worker_pool_ u) u in
  (Transport (t_cfg t) (t_loc t) (t_rem t) h u, x.2).
Definition others (p : process) : process :=
  Process (p_shm p) (finish_stopped <$> heap p) (cells p) (g_transport p) (next_addr p) (p_log p).

Lemma others_kept p : kept p (others p).
Proof.
  split; [|done..]. intros a. cbn. rewrite lookup_fmap. destruct (heap p !! a) as [[t T]|]; [|done]. cbn. f_equal.
  unfold for_lock, finish_stopped. cbn. by destruct (stop_flag_ (t_run t)).
Qed.

(** Two instances of node 5, one after the other; the first, which is the locks', is closed, and another is created. *)
Definition demo_init (h : Z) : call :=
  c_init h (Some (Area 4096 64)) (Some (RegionMap (Some [RegionInfo (Area 2000000 6291456) 5]) 1)) (Some (Conf (-1) 1 5 1 (Some [RingDesc 4 64 3]))).
Definition demo_calls : list call := [demo_init 100; demo_init 101; c_deinit 100; demo_init 102].
Definition demo_run (calls : list call) : option (unit * process) :=
  run_with others (for_each calls (perform_call 3 8)) (Process (Shared {[64 := replicate 16 no_board]} ∅ ∅) ∅ ∅ 0 1 []).
Definition demo_process (n : nat) : process :=
  match demo_run (take n demo_calls) with Some (_, p) => p | None => Process (Shared ∅ ∅ ∅) ∅ ∅ 0 0 [] end.

Lemma lock_instance_unique_witness :
  (cells (demo_process 2) = {[100 := 1; 101 := 2]} /\ g_transport (demo_process 2) = 1) /\
  (cells (demo_process 3) = {[100 := 0; 101 := 2]} /\ g_transport (demo_process 3) = 0 /\ heap (demo_process 3) !! 1 = None /\
   forall a x, heap (demo_process 3) !! a = Some x -> for_lock x = true <-> a = 0) /\
  (cells (demo_process 4) = {[100 := 0; 101 := 2; 102 := 3]} /\ g_transport (demo_process 4) = 3 /\
   forall a x, heap (demo_process 4) !! a = Some x -> for_lock x = true <-> a = 3).
Proof.
  assert (Hb : forall n, bool_decide (is_Some (demo_run (take n demo_calls))) = true ->
    beside kept (for_each (take n demo_calls) (perform_call 3 8)) (Process (Shared {[64 := replicate 16 no_board]} ∅ ∅) ∅ ∅ 0 1 []) tt (demo_process n)).
  { intros n Hn. apply (run_with_beside kept others); [exact others_kept|]. unfold demo_process. fold (demo_run (take n demo_calls)).
    destruct (demo_run (take n demo_calls)) as [[[] p]|]; [done|discriminate Hn]. }
  split; [vm_compute; auto|]. split.
  - split; [vm_compute; reflexivity|]. split; [vm_compute; reflexivity|]. split; [vm_compute; reflexivity|].
    replace 0 with (g_transport (demo_process 3)) by (vm_compute; reflexivity).
    apply (lock_instance_unique 3 8 _ _ (demo_process 3) (Hb 3%nat ltac:(vm_compute; reflexivity))).
  - split; [vm_compute; reflexivity|]. split; [vm_compute; reflexivity|].
    replace 3 with (g_transport (demo_process 4)) by (vm_compute; reflexivity).
    apply (lock_instance_unique 3 8 _ _ (demo_process 4) (Hb 4%nat ltac:(vm_compute; reflexivity))).
Defined.

(** The handle 100 has been closed, 101 is live. *)
Lemma api_refuses_witness :
  run (ub_comm_queue_init 3 8 103 None None None) [] (demo_process 3) = (Some (- EINVAL), [], demo_process 3) /\
  run (ub_comm_queue_deinit 3 100) [] (demo_process 3) = (Some (- EINVAL), [], demo_process 3) /\
  run (ub_comm_queue_get_status 3 101 5 3 false) [] (demo_process 3) = (Some (- EINVAL, None), [], demo_process 3).
Proof.
  split; [exact (proj1 (api_refuses 3 8 103 [] (demo_process 3)) None None None (or_introl eq_refl))|]. split.
  - assert (Hc : default 0 (cells (demo_process 3) !! 100) = 0) by (vm_compute; reflexivity).
    exact (proj1 (proj1 (proj2 (api_refuses 3 8 100 [] (demo_process 3))) (or_intror Hc))).
  - assert (Hc : cells (demo_process 3) !! 101 = Some 2) by (vm_compute; reflexivity).
    destruct (proj2 (proj2 (api_refuses 3 8 101 [] (demo_process 3))) 2) as (_ & _ & H & _); [lia|exact Hc|lia|]. exact (H 5 3).
Defined.
