(* ===== verification/Cluster.v ===== *)
(** The network of the locks, made of transports.

    The locks see their messages as a [network] (LockRuntime.v): an inbox per node, into which a send puts a message or
    fails.  Here that network is the set of transports of the cluster over one shared memory: a message is sent into the
    lock ring of its destination, a poll of the dispatcher hands it to the pool of worker threads (the callback of the locks is
    registered as asynchronous), and a worker takes it and runs the callback.  [cluster_refines_network] is the simulation
    between the two; a poll is a step the network does not see.

    The first part is the format of a lock message in memory ([local_msg_body_t] of inner_distribute_lock.h). *)

From S2P Require Import Prelude Atomic LockTypes LockRuntime CommTypes MPSCRing MPSCConc MPSCSeq ThreadPool Transport TransportInit TransportRun TransportPoll.
Import MPSCRingBuffer UBShmTransport.

#[local] Arguments le_bytes : simpl never.
#[local] Arguments le_value : simpl never.

(** * The body of a lock message *)

Definition type_code (t : ub_message_type_t) : Z :=
  match t with UB_GRANT => 1 | UB_RELEASE => 2 | UB_UNKNOWN => 0 end.
(** The callback distinguishes the two types it knows. *)
Definition code_type (z : Z) : ub_message_type_t :=
  if z =? 1 then UB_GRANT else if z =? 2 then UB_RELEASE else UB_UNKNOWN.
Definition mode_code (m : ub_lock_mode_t) : Z :=
  match m with UB_LOCK_S => 0 | UB_LOCK_SX => 1 | UB_LOCK_X => 2 | UB_LOCK_I => 3 end.
Definition code_mode (z : Z) : ub_lock_mode_t :=
  if z =? 0 then UB_LOCK_S else if z =? 1 then UB_LOCK_SX else if z =? 2 then UB_LOCK_X else UB_LOCK_I.

(** The 24 bytes of a [local_msg_body_t]; [pad] are the four bytes between the thread id and the pointer. *)
Definition encode_body (pad : list Z) (b : local_msg_body_t) : list Z :=
  le_bytes 4 (u32 (body_tid b)) ++ pad ++ le_bytes 8 (body_addr b) ++
  le_bytes 4 (type_code (body_type b)) ++ le_bytes 4 (mode_code (body_mode b)).
Definition decode_body (bs : list Z) : local_msg_body_t :=
  MsgBody (i32 (le_value (take 4 bs))) (le_value (take 8 (drop 8 bs)))
    (code_type (le_value (take 4 (drop 16 bs)))) (code_mode (le_value (take 4 (drop 20 bs)))).

Definition wf_body (b : local_msg_body_t) : Prop := - 2 ^ 31 <= body_tid b < 2 ^ 31 /\ 0 <= body_addr b < 2 ^ 64.

(** What the callback of the locks makes of the bytes it gets. *)
Definition read_msg (x : msg) : LockRuntime.message_t := LockRuntime.Message x.1 (Some (decode_body x.2)).
(** The bytes [create_message] hands to the transport. *)
Definition wire (pad : list Z) (m : LockRuntime.message_t) : message_t :=
  Message (LockRuntime.header m) (encode_body pad <$> LockRuntime.body m).

Lemma length_encode_body pad b : length pad = 4%nat -> length (encode_body pad b) = 24%nat.
Proof. intros Hp. unfold encode_body. by rewrite !length_app, !length_le_bytes, Hp. Qed.

(** Fields behind the first [n] bytes. *)
Lemma drop_field {A} (n k : nat) (a b : list A) : length a = n -> drop (n + k) (a ++ b) = drop k b.
Proof. intros <-. by rewrite <- drop_drop, drop_app_length. Qed.

Lemma decode_encode_body pad b : length pad = 4%nat -> wf_body b -> decode_body (encode_body pad b) = b.
Proof.
  intros Hp [Ht Ha]. unfold decode_body, encode_body.
  rewrite take_app_length' by (by rewrite length_le_bytes).
  rewrite (drop_field 4 4), (drop_field 4 0), (drop_field 4 12), (drop_field 4 8), (drop_field 8 0),
    (drop_field 4 16), (drop_field 4 12), (drop_field 8 4), (drop_field 4 0) by (by rewrite ?length_le_bytes).
  rewrite !drop_0, !take_app_length' by (by rewrite length_le_bytes).
  rewrite take_ge by (by rewrite length_le_bytes).
  rewrite !le_value_bytes; [|by destruct (body_mode b)|by destruct (body_type b)|done|apply u32_bound].
  rewrite i32_u32 by done. destruct b as [t a ty md]; cbn. by destruct ty, md.
Qed.

(** A lock message survives the transport. *)
Lemma read_wire pad m : length pad = 4%nat -> (exists b, LockRuntime.body m = Some b /\ wf_body b) -> read_msg (as_msg (wire pad m)) = m.
Proof.
  intros Hp (b & Hb & Hw). unfold read_msg, as_msg, wire. cbn. rewrite Hb. cbn. rewrite decode_encode_body by done.
  destruct m as [h b']. cbn in *. by rewrite Hb.
Qed.

(** * What a send leaves of the shared memory *)

(** Entries of billboards change in their padding only. *)
Definition boards_kept (m m' : shared_mem) : Prop :=
  forall ptr idx, 0 <= idx -> (on_board m ptr idx -> on_board m' ptr idx) /\
    initialized (node_at m' ptr idx) = initialized (node_at m ptr idx) /\
    ring_offsets (node_at m' ptr idx) = ring_offsets (node_at m ptr idx).
Definition heads_kept (m m' : shared_mem) : Prop := forall a, head (ring_at m' a) = head (ring_at m a).
Definition send_mem (w w' : tworld) : Prop := boards_kept (shm w) (shm w') /\ heads_kept (shm w) (shm w').

#[export] Instance boards_kept_preorder : PreOrder boards_kept.
Proof.
  split; [by intros m ptr idx|]. intros m1 m2 m3 H1 H2 ptr idx Hi. destruct (H1 ptr idx Hi) as (A1 & B1 & C1).
  destruct (H2 ptr idx Hi) as (A2 & B2 & C2). split; [auto|]. split; congruence.
Qed.
#[export] Instance send_mem_refl : Reflexive send_mem.
Proof. done. Qed.
#[export] Instance send_mem_trans : Transitive send_mem.
Proof. intros w1 w2 w3 [B1 H1] [B2 H2]. split; [by etrans|]. intros a. by rewrite H2, H1. Qed.

Lemma boards_on_node ptr i f m :
  (forall b, initialized (f b) = initialized b /\ ring_offsets (f b) = ring_offsets b) -> boards_kept m (on_node ptr i f m).
Proof.
  intros Hf ptr' idx Hidx. destruct (decide (ptr' = ptr)) as [->|Hp].
  2:{ unfold on_board, node_at, on_node. cbn. by rewrite lookup_insert_ne. }
  assert (Hn : initialized (node_at (on_node ptr i f m) ptr idx) = initialized (node_at m ptr idx) /\
    ring_offsets (node_at (on_node ptr i f m) ptr idx) = ring_offsets (node_at m ptr idx)).
  { unfold node_at at 1 3. unfold on_node. cbn. rewrite lookup_insert_eq. cbn. unfold node_at, getZ, setZ. cbn.
    set (l := default [] (boards m !! ptr)). destruct (decide (Z.to_nat i = Z.to_nat idx)) as [He|He].
    - rewrite He. destruct (decide (Z.to_nat idx < length l)%nat) as [Hl|Hl].
      + rewrite list_lookup_insert_eq by done. cbn. apply Hf.
      + by rewrite list_insert_ge by lia.
    - by rewrite list_lookup_insert_ne. }
  split; [|exact Hn]. intros (b & Hb & Hi & Hl). exists (setZ b i (f (node_at m ptr i))).
  split; [unfold on_node; cbn; by rewrite Hb, lookup_insert_eq|]. rewrite length_setZ. split; [done|]. destruct Hn as [_ ->]. done.
Qed.

Lemma send_mem_same w w' : shm w' = shm w -> send_mem w w'.
Proof. intros He. unfold send_mem. by rewrite He. Qed.

Lemma send_mem_ring a r w w' :
  shm w' = with_ring a r (shm w) -> head r = head (ring_at (shm w) a) -> send_mem w w'.
Proof.
  intros He Hh. unfold send_mem. rewrite He. split; [done|]. intros b. unfold ring_at. cbn.
  destruct (decide (a = b)) as [<-|Hne]; [by rewrite lookup_insert_eq|by rewrite lookup_insert_ne].
Qed.

Lemma mem_local_ring {A} a (p : prog mpsc_world A) : only same_head p -> only send_mem (lift (l_local_ring a) p).
Proof. apply only_lift. intros w m Hm. by eapply send_mem_ring. Qed.
Lemma mem_remote_ring {A} a node prio (p : prog mpsc_world A) : only same_head p -> only send_mem (lift (l_remote_ring a node prio) p).
Proof. apply only_lift. intros w m Hm. by eapply send_mem_ring. Qed.

Lemma mem_enqueue_local fuel a h b n : only send_mem (lift (l_local_ring a) (enqueue_local fuel h b n)).
Proof.
  apply mem_local_ring. unfold enqueue_local, reserve_round, write_entry, flow_result_after_enqueue, record_cas_fail,
    record_full_fail, get_geometry, get_flow_threshold. solve_fields.
Qed.
Lemma mem_enqueue_remote fuel a node prio nul h b n mask stride ms j :
  only send_mem (lift (l_remote_ring a node prio) (enqueue_remote fuel nul h b n mask stride ms j)).
Proof.
  apply mem_remote_ring. unfold enqueue_remote, remote_round, reserve_round, write_entry, flow_result_after_enqueue_cached,
    refresh_cached_threshold, record_cas_fail, record_full_fail, get_geometry, get_congestion_threshold_version, get_flow_threshold.
  solve_fields.
Qed.
Lemma mem_ring_load {B} a (f : mpsc_world -> B) : only send_mem (lift (l_local_ring a) (load f)).
Proof. apply mem_local_ring. by apply only_load. Qed.
Lemma mem_upd {P} (l : lens tworld P) f : (forall w, shm (lset l (f (lget l w)) w) = shm w) -> only send_mem (upd l f).
Proof. intros H w. split; [apply send_mem_same, H|intros b; exact I]. Qed.
Lemma mem_refresh ptr idx : only send_mem (force_refresh_whole_struct ptr idx).
Proof.
  unfold force_refresh_whole_struct. apply only_bind; [by apply only_load|]. intros _ w. split; [|done].
  split; [exact (boards_on_node ptr idx (set_pad 0) (shm w) (fun b => conj eq_refl eq_refl))|done].
Qed.

Create HintDb smem.
#[export] Hint Resolve mem_enqueue_local mem_enqueue_remote mem_ring_load mem_refresh : smem.
Ltac smem :=
  repeat first
    [ solve [eauto with smem nocore]
    | match goal with
      | |- forall _, _ => intros
      | |- only _ (bind _ _) => apply only_bind
      | |- only _ (iter _ _ _) => apply only_iter
      | |- only _ (let '_ := ?x in _) => destruct x
      | |- only _ (match ?x with _ => _ end) => destruct x
      | |- only _ (Ret _) => exact I
      | |- only _ (get _ _) => apply only_load; done
      | |- only _ (load _) => apply only_load; done
      | |- only _ (board_load _ _ _) => apply only_load; done
      | |- only _ (upd _ _) => apply mem_upd; done
      | |- only _ (cache_store _ _ _) => intros ?; split; [by apply send_mem_same|done]
      | |- only _ (table_store _ _ _) => apply mem_upd; done
      | |- only _ (act _) => intros ?; split; [apply send_mem_same; by case_bool|done]
      end ].

Lemma mem_get_remote_ring node prio : only send_mem (get_remote_ring node prio).
Proof. unfold get_remote_ring, get_compact_index. smem. Qed.
#[export] Hint Resolve mem_get_remote_ring : smem.
Lemma mem_populate node prio : only send_mem (try_populate_cache node prio).
Proof.
  unfold try_populate_cache, get_max_msg_size, get_entry_stride, get_entry_num, get_congestion_threshold, get_flow_threshold,
    get_congestion_threshold_version. smem.
Qed.
#[export] Hint Resolve mem_populate : smem.
Lemma mem_send fuel m : only send_mem (send fuel m).
Proof. unfold send, send_local, send_remote, lock_shared, unlock_shared. smem. Qed.

(** * The cluster *)

(** One instance per node, over one memory; the field [shm] of an instance is not used. *)
Record cluster : Type := MkCluster { c_mem : shared_mem; c_inst : gmap Z tworld }.

Definition seen_from (c : cluster) (w : tworld) : tworld := lset l_shm (c_mem c) w.
Definition put_node (i : Z) (w : tworld) (c : cluster) : cluster := MkCluster (shm w) (<[i := w]> (c_inst c)).
(** An operation of the instance of node [i]. *)
Definition at_node {A} (i : Z) (p : prog tworld A) (c : cluster) : option A * cluster :=
  match c_inst c !! i with
  | None => (None, c)
  | Some w => let '(x, _, w') := run p [] (seen_from c w) in (x, put_node i w' c)
  end.

(** A thread of the locks sends, the dispatcher of node [i] polls, the worker [me] of node [i] asks for work. *)
Inductive net_op : Type := NSend (m : message_t) | NPoll (i : Z) | NTake (i : Z) (me : nat).
Inductive net_res : Type := RSent (r : Z) | RPolled (n : Z) | RTook (x : msg) | RBlocked.

Definition task_msg (t : async_task) : msg := (at_hdr t, at_body t).
Definition pool_of (w : tworld) : pool_state async_task := default no_pool (worker_pool_ (t_run (obj w))).

Definition poll_node (fuel : nat) : prog tworld Z :=
  do size <- get l_loc max_msg_size_global_; poll_and_dispatch_once fuel log_app size.
(** A worker that finds no task stays blocked on the condition variable. *)
Definition take_task (fuel me : nat) : prog tworld (option async_task) :=
  do b <- ThreadPool.pload l_worker_pool has_task;
  if b : bool then ThreadPool.tryDequeueTask l_worker_pool fuel me else Ret None.

Definition do_op (fuel : nat) (op : net_op) (c : cluster) : option net_res * cluster :=
  match op with
  | NSend m => let '(x, c') := at_node (src_node_id (header m)) (send fuel (Some m)) c in (RSent <$> x, c')
  | NPoll i => let '(x, c') := at_node i (poll_node fuel) c in (RPolled <$> x, c')
  | NTake i me => let '(x, c') := at_node i (take_task fuel me) c in
      ((fun o => match o with Some t => RTook (task_msg t) | None => RBlocked end) <$> x, c')
  end.

(** A sequence of operations, one after the other. *)
Fixpoint do_ops (fuel : nat) (ops : list net_op) (c : cluster) : option (list net_res) * cluster :=
  match ops with
  | [] => (Some [], c)
  | op :: ops' =>
      match do_op fuel op c with
      | (None, c') => (None, c')
      | (Some r, c') => let '(rs, c'') := do_ops fuel ops' c' in (cons r <$> rs, c'')
      end
  end.

(** * The network, with the part of every inbox that has been polled *)

Record net_spec : Type := NetSpec { ns_net : network; ns_ready : Z -> nat }.
Definition set_ready (i : Z) (n : nat) (f : Z -> nat) : Z -> nat := fun j => if decide (j = i) then n else f j.

(** What the locks see: [transport_send] answered with the code the transport returned, [receive].  A send is refused
    only by a full ring, the messages in it being those that have not been polled; a poll makes the whole inbox ready and
    says how many messages it moved; a worker is blocked only if nothing is ready. *)
Inductive net_step (cap : Z) : net_op -> net_res -> net_spec -> net_spec -> Prop :=
| step_send m r s net' :
    let d := dest_node_id (header m) in
    run (transport_send (read_msg (as_msg m))) [r] (ns_net s) = (Some r, [], net') ->
    (if LockRuntime.accepted r then True
     else r = UB_COMM_ERR_RING_FULL /\ Z.of_nat (length (LockRuntime.inbox (ns_net s) d) - ns_ready s d) = cap) ->
    net_step cap (NSend m) (RSent r) s (NetSpec net' (ns_ready s))
| step_poll i s :
    let n := length (LockRuntime.inbox (ns_net s) i) in
    net_step cap (NPoll i) (RPolled (Z.of_nat (n - ns_ready s i))) s (NetSpec (ns_net s) (set_ready i n (ns_ready s)))
| step_take i me x s net' :
    ns_ready s i <> 0%nat ->
    run (receive i) [] (ns_net s) = (Some (Some (read_msg x)), [], net') ->
    net_step cap (NTake i me) (RTook x) s (NetSpec net' (set_ready i (ns_ready s i - 1) (ns_ready s)))
| step_blocked i me s :
    ns_ready s i = 0%nat -> net_step cap (NTake i me) RBlocked s s.

Inductive net_steps (cap : Z) : list net_op -> list net_res -> net_spec -> net_spec -> Prop :=
| steps_nil s : net_steps cap [] [] s s
| steps_cons op ops r rs s s' s'' :
    net_step cap op r s s' -> net_steps cap ops rs s' s'' -> net_steps cap (op :: ops) (r :: rs) s s''.

Lemma inbox_push d ms net j :
  0 <= d < Z.of_nat (length (inboxes net)) -> 0 <= j ->
  LockRuntime.inbox (push d ms net) j = if decide (j = d) then LockRuntime.inbox net d ++ ms else LockRuntime.inbox net j.
Proof.
  intros Hd Hj. unfold push, set_inbox, LockRuntime.inbox. cbn. case_decide as He; [subst|].
  - apply getZ_setZ_eq. lia.
  - apply getZ_setZ_ne; lia.
Qed.

(** * The simulation *)

Section Simulation.
Context (fuel : nat) (g : geometry) (lock_func lock_ctx : Z) (lock_ring : Z -> Z) (boxes : Z -> list box) (nodes : gset Z).
Hypothesis Hfuel : (1 <= fuel)%nat.
Hypothesis Hg : wf_geometry g.
(** The rings of a node: the one of the locks, which a poll looks at first, and those of the application, whose queues
    stay empty. *)
Definition all_boxes (i : Z) : list box := (0, lock_ring i, g) :: boxes i.
Definition addresses (i : Z) : list Z := (fun b => b.1.2) <$> all_boxes i.
Hypothesis Happart : forall i j a, i ∈ nodes -> j ∈ nodes -> i <> j -> a ∈ addresses i -> a ∉ addresses j.
Hypothesis Hnodes : forall i, i ∈ nodes -> 0 <= i < 16.
Hypothesis Hcap : entry_num g <= MAX_BATCH_PER_POLL.

Definition lock_info : cb_info_t := CbInfo (cb_app lock_func) lock_ctx UB_FUNC_ASYNC.
Definition lock_task (x : msg) : async_task := AsyncTask lock_info x.1 x.2.

(** The queues of the rings of a node that has [q] in its lock ring. *)
Definition queues (i : Z) (q : list msg) : list (list msg) := q :: ((fun _ => []) <$> boxes i).

(** The way from [w] to the lock ring of node [d]: cached, or still to be found. *)
Record linked (w : tworld) (d : Z) : Prop := {
  lk_known : is_Some (node_id_to_idx_ (t_cfg (obj w)) !! d);
  lk_alive : getZ true (peer_alive_ (t_hb (obj w))) d = true;
  lk_slot : cache_slot w d 0;
  lk_way : cache_ok g w d 0 (lock_ring d) \/
    (cache_initialized (cache_at w d 0) = false /\ finds w d 0 (lock_ring d)) }.

Record node_ok (i : Z) (w : tworld) (xs q : list msg) : Prop := {
  nk_id : current_node_id (conf_ (t_cfg (obj w))) = i;
  nk_inbox : inbox w (max_msg_size_global_ (t_loc (obj w))) (all_boxes i) (queues i q);
  nk_callback : getZ no_cb (callbacks_ (t_run (obj w))) MSG_TYPE_DIST_LOCK = lock_info;
  nk_pool : worker_pool_ (t_run (obj w)) = Some (pool_of w);
  nk_open : accepts (pool_of w) = true;
  nk_tasks : taskQueue (pool_of w) = lock_task <$> xs;
  nk_mutex : 0 <= cache_mutex_ (t_rem (obj w));
  nk_index : forall d d', d ∈ nodes -> d' ∈ nodes ->
    compact_index (t_cfg (obj w)) d = compact_index (t_cfg (obj w)) d' -> d = d';
  nk_linked : forall d, d ∈ nodes -> d <> i -> linked w d;
  nk_locks : Forall (fun x => msg_type x.1 = MSG_TYPE_DIST_LOCK) q }.

Definition lock_message (m : message_t) : Prop :=
  src_node_id (header m) ∈ nodes /\ dest_node_id (header m) ∈ nodes /\ msg_type (header m) = MSG_TYPE_DIST_LOCK /\
  wf_msg g (as_msg m).

(** The inbox of node [i]: what its workers have not taken yet, and what is in its lock ring. *)
Definition stands_for (s : net_spec) (i : Z) (w : tworld) : Prop :=
  exists xs q, node_ok i w xs q /\ LockRuntime.inbox (ns_net s) i = read_msg <$> (xs ++ q) /\ ns_ready s i = length xs.

(** [n] more tickets of every lock ring can be drawn. *)
Record represents (n : nat) (c : cluster) (s : net_spec) : Prop := {
  rp_dom : dom (c_inst c) = nodes;
  rp_nodes : forall i w, c_inst c !! i = Some w -> stands_for s i (seen_from c w);
  rp_tickets : forall i, i ∈ nodes -> tail (ring_at (c_mem c) (lock_ring i)) + Z.of_nat n + entry_num g < 2 ^ 64 - 1;
  rp_size : length (inboxes (ns_net s)) = 16%nat }.

Lemma finds_mem w w' d a :
  finds w d 0 a -> t_cfg (obj w') = t_cfg (obj w) ->
  get2 0 (remote_lookup_table_ (t_rem (obj w'))) (compact_index (t_cfg (obj w)) d) 0 =
    get2 0 (remote_lookup_table_ (t_rem (obj w))) (compact_index (t_cfg (obj w)) d) 0 ->
  boards_kept (shm w) (shm w') -> finds w' d 0 a.
Proof.
  intros (Hi & Ha & Hw) Hc Ht Hb. unfold finds. rewrite Hc, Ht. split; [done|]. split; [done|].
  destruct Hw as [Hw|(H1 & H2 & H3 & H4 & H5 & H6 & H7)]; [by left|]. right.
  destruct (Hb (init_region_ptr_ (t_cfg (obj w))) _ Hi) as (B1 & B2 & B3). rewrite B2, B3. by auto 10.
Qed.

(** The way to a ring whose head has moved on only, in an instance whose entries for it are the same. *)
Lemma linked_keep w w' d :
  linked w d -> t_cfg (obj w') = t_cfg (obj w) -> t_hb (obj w') = t_hb (obj w) -> boards_kept (shm w) (shm w') ->
  head (ring_at (shm w) (lock_ring d)) <= head (ring_at (shm w') (lock_ring d)) ->
  cache_at w' d 0 = cache_at w d 0 -> (cache_slot w d 0 -> cache_slot w' d 0) ->
  (0 <= compact_index (t_cfg (obj w)) d ->
   get2 0 (remote_lookup_table_ (t_rem (obj w'))) (compact_index (t_cfg (obj w)) d) 0 =
     get2 0 (remote_lookup_table_ (t_rem (obj w))) (compact_index (t_cfg (obj w)) d) 0) ->
  linked w' d.
Proof.
  intros [Hk Ha Hs Hw] Hc Hh Hb Hhd Hca Hsl Ht. split; [by rewrite Hc|by rewrite Hh|auto|].
  destruct Hw as [Hok|[Hi Hf]]; [left|right].
  - unfold cache_ok in *. rewrite Hca. destruct Hok as (? & ? & ? & ? & ? & ?). split_and!; try done || lia.
  - rewrite Hca. split; [done|]. apply (finds_mem w); [done|done|apply Ht, Hf|done].
Qed.

(** The queues of a node when its lock ring holds something else and its other rings are as they were. *)
Lemma inbox_move w w' size i q q' :
  inbox w size (all_boxes i) (queues i q) -> t_loc (obj w') = t_loc (obj w) -> holds_queue (shm w') (lock_ring i) g q' ->
  (forall a, a ∈ addresses i -> a <> lock_ring i -> rings (shm w') !! a = rings (shm w) !! a) ->
  inbox w' size (all_boxes i) (queues i q').
Proof.
  intros [Hac Hf Hn Hh] Hl Hq Hr. split; rewrite ?Hl; try done. unfold queues, all_boxes in *.
  apply Forall2_cons in Hh as [[]  Hbs]. apply Forall2_cons. split; [by split; rewrite ?Hl|].
  apply NoDup_cons in Hn as [Hni _]. apply Forall2_same_length_lookup_2; [by eapply Forall2_length|].
  intros k b qb Hk Hqb. destruct (Forall2_lookup_lr _ _ _ _ _ _ Hbs Hk Hqb) as [B1 B2 B3 B4 (r & Hrb & HR)].
  assert (Hb := list_elem_of_lookup_2 _ _ _ Hk).
  split; rewrite ?Hl; try done. exists r. split; [|done]. rewrite Hr; [done| |].
  - apply list_elem_of_fmap. exists b. split; [done|]. by right.
  - intros He. apply Hni, list_elem_of_fmap. by exists b.
Qed.

Lemma node_ok_mem i w w' xs q q' :
  node_ok i w xs q -> obj w' = obj w -> boards_kept (shm w) (shm w') ->
  (forall d, d ∈ nodes -> head (ring_at (shm w) (lock_ring d)) <= head (ring_at (shm w') (lock_ring d))) ->
  holds_queue (shm w') (lock_ring i) g q' ->
  (forall a, a ∈ addresses i -> a <> lock_ring i -> rings (shm w') !! a = rings (shm w) !! a) ->
  Forall (fun x => msg_type x.1 = MSG_TYPE_DIST_LOCK) q' -> node_ok i w' xs q'.
Proof.
  intros [] Ho Hb Hh Hq Hr Hty. split; unfold pool_of in *; rewrite ?Ho; try done.
  - eapply inbox_move; [exact nk_inbox0|by rewrite Ho|done|done].
  - intros d Hd Hne. apply (linked_keep w); unfold cache_at, cache_slot; rewrite ?Ho; auto.
Qed.

Lemma node_queue i w xs q : node_ok i w xs q -> holds_queue (shm w) (lock_ring i) g q /\ lock_ring i <> 0 /\
  getZ 0 (local_rings_ (t_loc (obj w))) 0 = lock_ring i.
Proof. intros []. destruct (Forall2_lookup_lr _ _ _ 0%nat _ _ (ib_holds _ _ _ _ nk_inbox0) eq_refl eq_refl). done. Qed.

(** The same queue, since the rings are the same. *)
Lemma holds_same m m' a q : holds_queue m a g q -> rings m' !! a = rings m !! a -> holds_queue m' a g q.
Proof. intros (r & Hr & HR) He. exists r. by rewrite He. Qed.

Lemma lock_ring_in i : lock_ring i ∈ addresses i.
Proof. left. Qed.

Lemma holds_head m a q : holds_queue m a g q -> tail (ring_at m a) = head (ring_at m a) + Z.of_nat (length q) /\ Z.of_nat (length q) <= entry_num g.
Proof. intros (r & Hr & HR). unfold ring_at. rewrite Hr. split; [exact (rep_tail _ _ _ HR)|exact (rep_fits _ _ _ HR)]. Qed.

(** The instance that sends, after a send to node [d]. *)
Lemma sender_ok i w w' xs q q' d :
  node_ok i w xs q -> i ∈ nodes -> d ∈ nodes -> same_rest w w' -> send_mem w w' ->
  (d <> i -> cache_ok g w' d 0 (lock_ring d)) -> other_caches d 0 w w' -> other_entries d 0 w w' ->
  (cache_slot w d 0 -> cache_slot w' d 0) -> holds_queue (shm w') (lock_ring i) g q' ->
  (forall a, a ∈ addresses i -> a <> lock_ring i -> rings (shm w') !! a = rings (shm w) !! a) ->
  Forall (fun x => msg_type x.1 = MSG_TYPE_DIST_LOCK) q' -> node_ok i w' xs q'.
Proof.
  intros [] Hi Hd (Hc & Hl & Hh & Hr & Hm & _) [Hb Hhd] Hok Hoc Hoe Hsl Hq Hrings Hty.
  split; unfold pool_of in *; rewrite ?Hc, ?Hl, ?Hr, ?Hm; try done.
  - by eapply inbox_move.
  - intros d' Hd' Hne. destruct (decide (d' = d)) as [->|Hdd].
    + destruct (nk_linked0 d Hd' Hne). split; [by rewrite Hc|by rewrite Hh|auto|left; auto].
    + assert (Hpos := Hnodes d' Hd'). destruct (Hoc d' 0) as [E1 E2]; [lia|lia|congruence|].
      apply (linked_keep w); auto; [by rewrite Hhd|by rewrite E2|].
      intros Hidx. apply Hoe; [done|lia|]. intros He. apply Hdd. symmetry. apply nk_index0; [done|done|congruence].
Qed.

(** A lock message between two nodes is routed to the lock ring of its destination. *)
Lemma lock_routed m w xs q :
  lock_message m -> node_ok (src_node_id (header m)) w xs q ->
  lock_ring (dest_node_id (header m)) <> 0 -> routed g w m 0 (lock_ring (dest_node_id (header m))).
Proof.
  intros (Hs & Hd & Hty & _) Hok Ha. assert (Hpos := Hnodes _ Hd). destruct (node_queue _ _ _ _ Hok) as (_ & _ & Hloc).
  destruct Hok. split; [done| |lia|done| |].
  - split; [|lia]. unfold route_priority. by rewrite Hty.
  - intros He. rewrite He, nk_id0. by rewrite Hloc.
  - intros Hne. rewrite nk_id0 in Hne. destruct (nk_linked0 _ Hd Hne). done.
Qed.

Lemma seen_put i w c : seen_from (put_node i w c) w = w.
Proof. by destruct w. Qed.

(** The nodes of the cluster after one of them has moved: the one that moved, and the others. *)
Lemma nodes_put i w' c (P : Z -> tworld -> Prop) :
  P i w' -> (forall j w, j <> i -> c_inst c !! j = Some w -> P j (lset l_shm (shm w') w)) ->
  forall j w, c_inst (put_node i w' c) !! j = Some w -> P j (seen_from (put_node i w' c) w).
Proof.
  intros Hi Hj j w Hw. cbn in Hw. destruct (decide (j = i)) as [->|Hne].
  - rewrite lookup_insert_eq in Hw. injection Hw as <-. by rewrite seen_put.
  - rewrite lookup_insert_ne in Hw by done. by apply Hj.
Qed.

Lemma dom_put i w w' c : c_inst c !! i = Some w -> dom (c_inst c) = nodes -> dom (c_inst (put_node i w' c)) = nodes.
Proof. intros Hi <-. cbn. rewrite dom_insert_lookup_L by (by eexists). done. Qed.

(** The memory after a send to node [d], seen by the other nodes. *)
Record sent_mem (d : Z) (q' : list msg) (m m' : shared_mem) : Prop := {
  sm_boards : boards_kept m m'; sm_heads : heads_kept m m';
  sm_queue : holds_queue m' (lock_ring d) g q';
  sm_rings : forall a, a <> lock_ring d -> rings m' !! a = rings m !! a }.

Lemma sent_rings i d q' m m' a :
  i ∈ nodes -> d ∈ nodes -> sent_mem d q' m m' -> a ∈ addresses i -> a <> lock_ring i -> rings m' !! a = rings m !! a.
Proof.
  intros Hi Hd [] Ha Hne. apply sm_rings0. intros ->. destruct (decide (i = d)) as [->|Hid]; [done|].
  apply (Happart i d (lock_ring d)); auto using lock_ring_in.
Qed.

Lemma sent_lock_ring i d q q' m m' :
  i ∈ nodes -> d ∈ nodes -> sent_mem d q' m m' -> i <> d -> holds_queue m (lock_ring i) g q -> holds_queue m' (lock_ring i) g q.
Proof.
  intros Hi Hd [] Hid Hq. apply (holds_same m); [done|]. apply sm_rings0. intros He.
  apply (Happart i d (lock_ring i)); [done|done|done|apply lock_ring_in|rewrite He; apply lock_ring_in].
Qed.

Lemma other_ok i d w xs q q' m' :
  i ∈ nodes -> d ∈ nodes -> node_ok i w xs q -> sent_mem d q' (shm w) m' ->
  Forall (fun x => msg_type x.1 = MSG_TYPE_DIST_LOCK) q' ->
  node_ok i (lset l_shm m' w) xs (if decide (i = d) then q' else q).
Proof.
  intros Hi Hd Hok Hm Hty. eapply node_ok_mem; [exact Hok|done|apply Hm| | | |].
  - intros d' _. cbn. destruct Hm as [_ Hh _ _]. rewrite Hh. lia.
  - cbn. case_decide as He; [subst; apply Hm|]. eapply sent_lock_ring; eauto. by eapply node_queue.
  - intros a Ha Hne. exact (sent_rings i d q' (shm w) m' a Hi Hd Hm Ha Hne).
  - case_decide; [done|exact (nk_locks _ _ _ _ Hok)].
Qed.

(** What the send does at the nodes. *)
Lemma send_nodes m c wi wd xsi qi xsd qd :
  let i := src_node_id (header m) in let d := dest_node_id (header m) in
  lock_message m -> c_inst c !! i = Some wi -> c_inst c !! d = Some wd ->
  node_ok i (seen_from c wi) xsi qi -> node_ok d (seen_from c wd) xsd qd -> (i = d -> qi = qd) ->
  ticket_room g (c_mem c) (lock_ring d) ->
  exists r w' q', run (send fuel (Some m)) [] (seen_from c wi) = (Some r, [], w') /\
    (if decide (Z.of_nat (length qd) < entry_num g) then is_flow r /\ q' = qd ++ [as_msg m]
     else r = UB_COMM_ERR_RING_FULL /\ q' = qd) /\
    sent_mem d q' (c_mem c) (shm w') /\ node_ok i w' xsi (if decide (i = d) then q' else qi) /\
    Forall (fun x => msg_type x.1 = MSG_TYPE_DIST_LOCK) q'.
Proof.
  intros i d Hm Hwi Hwd Hoki Hokd Hqq Ht. destruct (node_queue _ _ _ _ Hokd) as (HQ & Hnz & _).
  destruct (Hm) as (Hi & Hd & Hty & Hwf).
  destruct (run_send fuel g m 0 (lock_ring d) qd (seen_from c wi) Hfuel Hg) as
    (r & w' & Hr & [Ho Hoth] & Hrest & Hok & Hoc & Hoe & Hsl); [by eapply lock_routed|done|done|done|].
  assert (Hsm : send_mem (seen_from c wi) w').
  { replace w' with (run (send fuel (Some m)) [] (seen_from c wi)).2 by (by rewrite Hr). apply run_only; [apply _|apply _|apply mem_send]. }
  assert (Hlocks := nk_locks _ _ _ _ Hokd).
  assert (Hnew : exists q', (if decide (Z.of_nat (length qd) < entry_num g) then is_flow r /\ q' = qd ++ [as_msg m]
      else r = UB_COMM_ERR_RING_FULL /\ q' = qd) /\ holds_queue (shm w') (lock_ring d) g q' /\
    Forall (fun x => msg_type x.1 = MSG_TYPE_DIST_LOCK) q').
  { case_decide; destruct Ho as [Ho HQ']; eexists; (split; [split; [done|reflexivity]|]); (split; [done|]); [|done].
    apply Forall_app. split; [done|]. by apply Forall_singleton. }
  destruct Hnew as (q' & Hres & HQ' & Hty'). exists r, w', q'. split; [done|]. split; [done|]. clear Hres Ho.
  assert (Hmem : sent_mem d q' (c_mem c) (shm w')) by (destruct Hsm; split; done).
  split; [done|]. split; [|done]. eapply (sender_ok i _ w' xsi qi _ d); try done.
  - intros Hne. apply Hok. rewrite (nk_id _ _ _ _ Hoki). done.
  - case_decide as He; [by rewrite He|]. eapply (sent_lock_ring i d); [done|done|exact Hmem|done|].
    exact (proj1 (node_queue i _ _ _ Hoki)).
  - intros a Ha Hne. exact (sent_rings i d q' _ _ a Hi Hd Hmem Ha Hne).
  - case_decide; [done|exact (nk_locks _ _ _ _ Hoki)].
Qed.

Lemma sent_tail j d q q' m m' :
  j ∈ nodes -> d ∈ nodes -> sent_mem d q' m m' -> holds_queue m (lock_ring d) g q -> (length q' <= S (length q))%nat ->
  tail (ring_at m' (lock_ring j)) <= tail (ring_at m (lock_ring j)) + 1.
Proof.
  intros Hj Hd [_ Hh HQ' Hr] HQ Hl. destruct (decide (j = d)) as [->|Hne].
  - destruct (holds_head _ _ _ HQ) as [T1 _]. destruct (holds_head _ _ _ HQ') as [T2 _]. rewrite T1, T2, Hh. lia.
  - unfold ring_at. rewrite Hr; [lia|]. intros He.
    apply (Happart j d (lock_ring j)); [done|done|done|apply lock_ring_in|rewrite He; apply lock_ring_in].
Qed.

Lemma inst_at c i : dom (c_inst c) = nodes -> i ∈ nodes -> exists w, c_inst c !! i = Some w.
Proof. intros <- Hi. by apply elem_of_dom in Hi as [w Hw]; exists w. Qed.

Lemma is_flow_accepted r : is_flow r -> LockRuntime.accepted r = true.
Proof. by intros [->| ->]. Qed.

Lemma send_step n c s m :
  represents (S n) c s -> lock_message m ->
  exists r c' s', do_op fuel (NSend m) c = (Some (RSent r), c') /\ net_step (entry_num g) (NSend m) (RSent r) s s' /\ represents n c' s'.
Proof.
  intros [Hdom Hns Htk Hsz] Hm. destruct (Hm) as (Hi & Hd & _).
  set (i := src_node_id (header m)) in *. set (d := dest_node_id (header m)) in *.
  destruct (inst_at c i Hdom Hi) as [wi Hwi]. destruct (inst_at c d Hdom Hd) as [wd Hwd].
  destruct (Hns d wd Hwd) as (xsd & qd & Hokd & Hbd & Hrd). assert (Hpos := Hnodes d Hd).
  assert (HI : exists xsi qi, node_ok i (seen_from c wi) xsi qi /\ LockRuntime.inbox (ns_net s) i = read_msg <$> (xsi ++ qi) /\
    ns_ready s i = length xsi /\ (i = d -> xsi = xsd /\ qi = qd)).
  { destruct (decide (i = d)) as [He|He]; [|destruct (Hns i wi Hwi) as (xsi & qi & ? & ? & ?); by exists xsi, qi].
    exists xsd, qd. rewrite He in *. rewrite Hwd in Hwi. injection Hwi as ->. done. }
  destruct HI as (xsi & qi & Hoki & Hbi & Hri & Hqq).
  destruct (send_nodes m c wi wd xsi qi xsd qd Hm Hwi Hwd Hoki Hokd (fun e => proj2 (Hqq e)))
    as (r & w' & q' & Hrun & Hres & Hmem & Hok' & Hty').
  { unfold ticket_room. specialize (Htk d Hd). fold d. lia. }
  fold i d in Hrun, Hmem, Hok'.
  set (net' := if LockRuntime.accepted r then push d [read_msg (as_msg m)] (ns_net s) else ns_net s).
  assert (Hbox : forall j, j ∈ nodes -> LockRuntime.inbox net' j =
      if decide (j = d) then read_msg <$> (xsd ++ q') else LockRuntime.inbox (ns_net s) j).
  { intros j Hj. assert (Hj' := Hnodes j Hj). unfold net'. destruct (decide (Z.of_nat (length qd) < entry_num g)) as [Hlt|Hge].
    - destruct Hres as [Hf ->]. rewrite is_flow_accepted, inbox_push by (done || lia). destruct (decide (j = d)); [|done].
      rewrite Hbd. by rewrite !fmap_app, (assoc_L (++)).
    - destruct Hres as [-> ->]. change (LockRuntime.accepted UB_COMM_ERR_RING_FULL) with false. cbv iota. by destruct (decide (j = d)) as [->|]. }
  exists r, (put_node i w' c), (NetSpec net' (ns_ready s)). split.
  { cbn [do_op]. fold i. unfold at_node. by rewrite Hwi, Hrun. }
  split.
  { apply step_send; [unfold net'; by rewrite run_transport_send|]. fold d.
    destruct (decide (Z.of_nat (length qd) < entry_num g)) as [Hlt|Hge].
    - destruct Hres as [Hf _]. by rewrite is_flow_accepted.
    - destruct Hres as [-> _]. change (LockRuntime.accepted UB_COMM_ERR_RING_FULL) with false. cbv iota. split; [done|]. destruct (node_queue _ _ _ _ Hokd) as (HQ & _).
      destruct (holds_head _ _ _ HQ). rewrite Hbd, Hrd, length_fmap, length_app. lia. }
  split; cbn [ns_net ns_ready].
  - by apply (dom_put i wi).
  - apply (nodes_put i w' c (stands_for _)).
    + exists xsi, (if decide (i = d) then q' else qi). split; [done|]. split; [|done]. rewrite Hbox by done.
      case_decide as He; [|done]. by destruct (Hqq He) as [-> _].
    + intros j wj Hji Hwj. assert (Hj : j ∈ nodes) by (rewrite <- Hdom; by apply elem_of_dom_2 in Hwj).
      destruct (Hns j wj Hwj) as (xsj & qj & Hokj & Hbj & Hrj). destruct (decide (j = d)) as [->|Hjd].
      * rewrite Hwd in Hwj. injection Hwj as <-. exists xsd, q'. rewrite Hbox, decide_True by done. split; [|done].
        pose proof (other_ok d d (seen_from c wd) xsd qd q' (shm w') Hd Hd Hokd Hmem Hty') as Ho. by rewrite decide_True in Ho.
      * exists xsj, qj. rewrite Hbox, decide_False by done. split; [|done].
        pose proof (other_ok j d (seen_from c wj) xsj qj q' (shm w') Hj Hd Hokj Hmem Hty') as Ho. by rewrite decide_False in Ho.
  - intros j Hj. specialize (Htk j Hj). pose proof (sent_tail j d qd q' _ _ Hj Hd Hmem (proj1 (node_queue _ _ _ _ Hokd))) as Ht.
    assert (Hl : (length q' <= S (length qd))%nat) by (destruct (decide (Z.of_nat (length qd) < _)); destruct Hres as [_ ->]; rewrite ?length_app; cbn; lia).
    specialize (Ht Hl). cbn in *. lia.
  - unfold net'. destruct (LockRuntime.accepted r); [|done]. cbn. by rewrite length_setZ.
Qed.

(** ** Polling *)

(** The dispatch of lock messages queues them for the workers. *)
Lemma handle_locks q o log p :
  Forall (fun x => msg_type x.1 = MSG_TYPE_DIST_LOCK) q ->
  getZ no_cb (callbacks_ (t_run o)) MSG_TYPE_DIST_LOCK = lock_info ->
  worker_pool_ (t_run o) = Some p -> accepts p = true ->
  exists o' p', handle_all q (o, log) = Some (o', log) /\ worker_pool_ (t_run o') = Some p' /\ accepts p' = true /\
    taskQueue p' = taskQueue p ++ (lock_task <$> q) /\ t_cfg o' = t_cfg o /\ t_loc o' = t_loc o /\ t_rem o' = t_rem o /\
    t_hb o' = t_hb o /\ callbacks_ (t_run o') = callbacks_ (t_run o).
Proof.
  revert o p. induction q as [|x q IH]; intros o p Hq Hcb Hp Ha.
  { exists o, p. cbn. rewrite app_nil_r. done. }
  apply Forall_cons in Hq as [Hx Hq]. cbn [handle_all]. unfold handled. cbn [fst snd]. rewrite Hx, Hcb. cbn [cb_func cb_type lock_info].
  change (UB_FUNC_ASYNC =? UB_FUNC_SYNC) with false. cbv iota. rewrite Hp, Ha. cbn [snd].
  assert (Ha' : accepts (queued_in (lock_task x) p) = true).
  { unfold accepts in *. cbn. destruct (mtx p), (shuttingDown p); done. }
  destruct (IH (put_pool (queued_in (lock_task x) p) o) (queued_in (lock_task x) p) Hq Hcb eq_refl Ha')
    as (o' & p' & Hh & Hp' & Hac & Ht & H1 & H2 & H3 & H4 & H5).
  exists o', p'. split; [exact Hh|]. do 2 (split; [done|]). split; [|done]. rewrite Ht. cbn. by rewrite <- (assoc_L (++)).
Qed.

Lemma queues_concat i q : concat (queues i q) = q.
Proof. unfold queues. cbn. induction (boxes i) as [|b bs IH]; cbn; [by rewrite app_nil_r|done]. Qed.

Lemma polled_boards bs m m' : poll_mem bs m m' -> boards_kept m m'.
Proof. intros [Hb _ _] ptr idx Hi. unfold on_board, node_at. by rewrite Hb. Qed.

Lemma polled_rings i j a m m' :
  i ∈ nodes -> j ∈ nodes -> i <> j -> poll_mem (all_boxes i) m m' -> a ∈ addresses j -> rings m' !! a = rings m !! a.
Proof. intros Hi Hj Hne [_ Hr _] Ha. apply Hr. by apply (Happart j i a). Qed.

Lemma polled_heads i q m m' d :
  i ∈ nodes -> poll_mem (all_boxes i) m m' -> holds_queue m (lock_ring i) g q -> holds_queue m' (lock_ring i) g [] ->
  d ∈ nodes -> head (ring_at m (lock_ring d)) <= head (ring_at m' (lock_ring d)).
Proof.
  intros Hi Hm HQ HQ' Hd. destruct (decide (i = d)) as [<-|Hne].
  - destruct (holds_head _ _ _ HQ) as [T1 _]. destruct (holds_head _ _ _ HQ') as [T2 _]. destruct Hm as [_ _ Ht].
    specialize (Ht (lock_ring i)). cbn in T2. lia.
  - unfold ring_at. rewrite (polled_rings i d (lock_ring d) m m'); auto using lock_ring_in. lia.
Qed.

Lemma poll_node_ok i w xs q :
  i ∈ nodes -> node_ok i w xs q ->
  exists w', run (poll_node fuel) [] w = (Some (Z.of_nat (length q)), [], w') /\ node_ok i w' (xs ++ q) [] /\
    poll_mem (all_boxes i) (shm w) (shm w').
Proof.
  intros Hi Hok. destruct (node_queue _ _ _ _ Hok) as (HQ & _). destruct (holds_head _ _ _ HQ) as [_ Hlen]. destruct (Hok).
  destruct (handle_locks q (obj w) (app_log w) _ nk_locks0 nk_callback0 nk_pool0 nk_open0)
    as (o' & p' & Hh & Hp' & Ha' & Ht' & E1 & E2 & E3 & E4 & E5).
  destruct (run_poll_handled fuel (max_msg_size_global_ (t_loc (obj w))) (all_boxes i) (queues i q) (o', app_log w) w Hfuel nk_inbox0)
    as (w' & Hr & Hin & Hv & Hm); [rewrite queues_concat; lia|by rewrite queues_concat|].
  rewrite queues_concat in Hr. exists w'. split; [unfold poll_node; rewrite run_get; exact Hr|]. split; [|done].
  injection Hv as Ho _. subst o'.
  assert (Hqs : (fun _ => []) <$> queues i q = queues i []) by (unfold queues; cbn; f_equal; by rewrite <- list_fmap_compose).
  rewrite Hqs in Hin. assert (HQ' : holds_queue (shm w') (lock_ring i) g []).
  { destruct (Forall2_lookup_lr _ _ _ 0%nat _ _ (ib_holds _ _ _ _ Hin) eq_refl eq_refl). done. }
  assert (Hpool : pool_of w' = p') by (unfold pool_of; by rewrite Hp').
  split; rewrite ?Hpool, ?E1, ?E2, ?E3, ?E5; try done.
  - by rewrite Ht', fmap_app, nk_tasks0.
  - intros d Hd Hne. apply (linked_keep w); unfold cache_at, cache_slot; rewrite ?E3; auto; [by eapply polled_boards|].
    exact (polled_heads i q _ _ d Hi Hm HQ HQ' Hd).
Qed.

Lemma poll_step n c s i :
  represents (S n) c s -> i ∈ nodes ->
  exists r c' s', do_op fuel (NPoll i) c = (Some r, c') /\ net_step (entry_num g) (NPoll i) r s s' /\ represents n c' s'.
Proof.
  intros [Hdom Hns Htk Hsz] Hi. destruct (inst_at c i Hdom Hi) as [wi Hwi]. destruct (Hns i wi Hwi) as (xs & q & Hok & Hb & Hrd).
  destruct (poll_node_ok i _ xs q Hi Hok) as (w' & Hr & Hok' & Hm).
  assert (HQ := proj1 (node_queue _ _ _ _ Hok)). assert (HQ' := proj1 (node_queue _ _ _ _ Hok')).
  assert (Hlen : length (LockRuntime.inbox (ns_net s) i) = length (xs ++ q)) by (by rewrite Hb, length_fmap).
  exists (RPolled (Z.of_nat (length q))), (put_node i w' c),
    (NetSpec (ns_net s) (set_ready i (length (LockRuntime.inbox (ns_net s) i)) (ns_ready s))). split.
  { cbn [do_op]. unfold at_node. by rewrite Hwi, Hr. }
  split.
  { replace (length q) with (length (LockRuntime.inbox (ns_net s) i) - ns_ready s i)%nat; [apply step_poll|].
    rewrite Hlen, Hrd, length_app. lia. }
  split; cbn [ns_net ns_ready].
  - by apply (dom_put i wi).
  - apply (nodes_put i w' c (stands_for _)).
    + exists (xs ++ q), []. split; [done|]. cbn [ns_net ns_ready]. rewrite app_nil_r. split; [done|]. unfold set_ready. by rewrite decide_True.
    + intros j wj Hji Hwj. assert (Hj : j ∈ nodes) by (rewrite <- Hdom; by apply elem_of_dom_2 in Hwj).
      destruct (Hns j wj Hwj) as (xsj & qj & Hokj & Hbj & Hrj). exists xsj, qj. cbn [ns_net ns_ready]. unfold set_ready. rewrite decide_False by done.
      split; [|done]. eapply node_ok_mem; [exact Hokj|done|by eapply polled_boards| | | |exact (nk_locks _ _ _ _ Hokj)].
      * intros d Hd. exact (polled_heads i q _ _ d Hi Hm HQ HQ' Hd).
      * apply (holds_same (c_mem c)); [exact (proj1 (node_queue j _ _ _ Hokj))|]. apply (polled_rings i j); auto using lock_ring_in.
      * intros a Ha _. by apply (polled_rings i j).
  - intros j Hj. specialize (Htk j Hj). destruct Hm as [_ _ Ht]. cbn in *. rewrite Ht. lia.
  - done.
Qed.

(** ** Workers *)

Definition with_tasks (ts : list async_task) (w : tworld) : tworld :=
  lset l_run (with_pool (Some (set_queue ts (pool_of w))) (t_run (obj w))) w.

Lemma run_take_task me w :
  worker_pool_ (t_run (obj w)) = Some (pool_of w) -> accepts (pool_of w) = true ->
  run (take_task fuel me) [] w =
    match taskQueue (pool_of w) with
    | [] => (Some None, [], w)
    | t :: ts => (Some (Some t), [], with_tasks ts w)
    end.
Proof.
  intros Hp Ha. unfold with_tasks. remember (pool_of w) as p eqn:Ep. clear Ep.
  assert (Hm : mtx p = false) by (unfold accepts in Ha; by destruct (mtx p)).
  unfold take_task, ThreadPool.pload. cbn. rewrite Hp. cbn. unfold has_task at 1. destruct p as [tq mt ws sd th fi]. cbn in *. subst mt.
  destruct tq as [|t ts]; [done|]. unfold ThreadPool.tryDequeueTask, ThreadPool.lock. rewrite iter_round by done.
  unfold ThreadPool.lock_round. cbn. rewrite Hp. done.
Qed.

Lemma taken_ok i w x xs q :
  node_ok i w (x :: xs) q -> node_ok i (with_tasks (lock_task <$> xs) w) xs q.
Proof.
  intros []. split; try done.
  - destruct nk_inbox0 as [? ? ? Hh]. split; try done. eapply Forall2_impl; [exact Hh|]. intros b qb []. by split.
  - intros d Hd Hne. apply (linked_keep w); auto; done.
Qed.

Lemma take_step_ok n c s i me :
  represents (S n) c s -> i ∈ nodes ->
  exists r c' s', do_op fuel (NTake i me) c = (Some r, c') /\ net_step (entry_num g) (NTake i me) r s s' /\ represents n c' s'.
Proof.
  intros [Hdom Hns Htk Hsz] Hi. destruct (inst_at c i Hdom Hi) as [wi Hwi]. destruct (Hns i wi Hwi) as (xs & q & Hok & Hb & Hrd).
  assert (Hrun := run_take_task me _ (nk_pool _ _ _ _ Hok) (nk_open _ _ _ _ Hok)). rewrite (nk_tasks _ _ _ _ Hok) in Hrun.
  assert (Htk' : forall j, j ∈ nodes -> tail (ring_at (c_mem c) (lock_ring j)) + Z.of_nat n + entry_num g < 2 ^ 64 - 1).
  { intros j Hj. specialize (Htk j Hj). lia. }
  destruct xs as [|x xs]; cbn [fmap list_fmap] in Hrun.
  - exists RBlocked, (put_node i (seen_from c wi) c), s. split; [cbn [do_op]; unfold at_node; by rewrite Hwi, Hrun|].
    split; [by apply step_blocked|]. split; try done; [by apply (dom_put i wi)|].
    apply (nodes_put i _ c (stands_for s)); [by exists [], q|]. intros j wj _ Hwj. by apply Hns.
  - set (net' := set_inbox i (read_msg <$> (xs ++ q)) (ns_net s)).
    exists (RTook x), (put_node i (with_tasks (lock_task <$> xs) (seen_from c wi)) c),
      (NetSpec net' (set_ready i (ns_ready s i - 1) (ns_ready s))).
    split; [cbn [do_op]; unfold at_node; rewrite Hwi, Hrun; by destruct x|]. split.
    { apply step_take; [by rewrite Hrd|]. unfold receive. cbn [run act]. rewrite Hb. done. }
    assert (Hpos := Hnodes i Hi). split; cbn [ns_net ns_ready].
    + by apply (dom_put i wi).
    + apply (nodes_put i _ c (stands_for _)).
      * exists xs, q. split; [by apply (taken_ok i _ x)|]. cbn [ns_net ns_ready]. unfold set_ready. rewrite decide_True, Hrd by done.
        split; [|cbn; lia]. unfold net', set_inbox, LockRuntime.inbox. cbn [inboxes]. apply getZ_setZ_eq. lia.
      * intros j wj Hji Hwj. assert (Hj : j ∈ nodes) by (rewrite <- Hdom; by apply elem_of_dom_2 in Hwj).
        destruct (Hns j wj Hwj) as (xsj & qj & Hokj & Hbj & Hrj). assert (Hposj := Hnodes j Hj).
        exists xsj, qj. split; [done|]. cbn [ns_net ns_ready]. unfold set_ready. rewrite decide_False by done. split; [|done].
        rewrite <- Hbj. unfold net', set_inbox, LockRuntime.inbox. cbn [inboxes]. apply getZ_setZ_ne; lia.
    + done.
    + cbn. by rewrite length_setZ.
Qed.

(** * The theorem *)

Definition op_ok (op : net_op) : Prop :=
  match op with NSend m => lock_message m | NPoll i => i ∈ nodes | NTake i _ => i ∈ nodes end.

Lemma ops_refine ops c s :
  represents (length ops) c s -> Forall op_ok ops ->
  exists rs c' s', do_ops fuel ops c = (Some rs, c') /\ net_steps (entry_num g) ops rs s s' /\ represents 0 c' s'.
Proof.
  revert c s. induction ops as [|op ops IH]; intros c s Hrep Hops; [by exists [], c, s; split_and!; [|constructor|]|].
  apply Forall_cons in Hops as [Hop Hops]. cbn [length] in Hrep.
  assert (H1 : exists r c1 s1, do_op fuel op c = (Some r, c1) /\ net_step (entry_num g) op r s s1 /\ represents (length ops) c1 s1).
  { destruct op; [|by apply poll_step|by apply take_step_ok]. destruct (send_step _ c s m Hrep Hop) as (r & c1 & s1 & ?). by exists (RSent r), c1, s1. }
  destruct H1 as (r & c1 & s1 & Hd & Hst & Hrep1). destruct (IH c1 s1 Hrep1 Hops) as (rs & c' & s' & Hds & Hsts & Hrep').
  exists (r :: rs), c', s'. cbn [do_ops]. rewrite Hd, Hds. split; [done|]. split; [by econstructor|done].
Qed.
End Simulation.

(** ** From a send to the callback *)

(** As many takes as there are ready messages hand out the inbox, in order. *)
Lemma takes_steps cap i me : forall ys s rs s',
  LockRuntime.inbox (ns_net s) i = ys -> ns_ready s i = length ys -> 0 <= i < Z.of_nat (length (inboxes (ns_net s))) ->
  net_steps cap (replicate (length ys) (NTake i me)) rs s s' -> exists xs, rs = RTook <$> xs /\ read_msg <$> xs = ys.
Proof.
  induction ys as [|y ys IH]; intros s rs s' Hin Hrd Hi Hst; cbn [length replicate] in Hst.
  { inversion Hst; subst. by exists []. }
  inversion Hst as [|op ops r rs0 s0 s1 s2 Hone Hrest]; subst. inversion Hone as [| |? ? x ? net' Hne Hrun|? ? ? H0]; subst.
  2:{ by rewrite Hrd in H0. }
  unfold receive in Hrun. cbn [run act] in Hrun. rewrite Hin in Hrun. injection Hrun as Hx <-.
  set (s1 := NetSpec (set_inbox i ys (ns_net s)) (set_ready i (ns_ready s i - 1) (ns_ready s))) in *.
  destruct (IH s1 rs0 s') as (xs & -> & Hxs); [apply getZ_setZ_eq; lia| |cbn; by rewrite length_setZ|done|].
  { cbn. unfold set_ready. rewrite decide_True, Hrd by done. cbn. lia. }
  exists (x :: xs). split; [done|]. cbn. by rewrite Hxs, <- Hx.
Qed.

(** * Properties *)

(** The rings of different nodes are different, and a poll can empty a lock ring. *)
Record wf_cluster (g : geometry) (lock_ring : Z -> Z) (boxes : Z -> list box) (nodes : gset Z) : Prop := {
  wc_geom : wf_geometry g; wc_cap : entry_num g <= MAX_BATCH_PER_POLL;
  wc_nodes : forall i, i ∈ nodes -> 0 <= i < 16;
  wc_apart : forall i j a, i ∈ nodes -> j ∈ nodes -> i <> j ->
    a ∈ addresses g lock_ring boxes i -> a ∉ addresses g lock_ring boxes j }.

(** C4: the transports of a cluster implement the network the locks are proved against.  Start from transports that know each
    other (each caches the lock ring of every other node or can find it on the billboard) with only lock messages in
    flight, and let threads send lock messages between the nodes, dispatchers poll and workers ask for work, in any order.  Then every operation
    returns, and the results are those of the network: a send is [transport_send] answered with the code the transport
    returned, and is refused only when the lock ring of the destination is full; a poll changes no inbox; a worker gets the
    message at the head of the inbox of its node, as it was sent, unless nothing has been polled.  The cluster
    represents the network again afterwards. *)
Theorem cluster_refines_network fuel g lock_func lock_ctx lock_ring boxes nodes ops c s :
  (1 <= fuel)%nat -> wf_cluster g lock_ring boxes nodes ->
  represents g lock_func lock_ctx lock_ring boxes nodes (length ops) c s -> Forall (op_ok g nodes) ops ->
  exists rs c' s', do_ops fuel ops c = (Some rs, c') /\ net_steps (entry_num g) ops rs s s' /\
    represents g lock_func lock_ctx lock_ring boxes nodes 0 c' s'.
Proof. intros Hf [] Hrep Hops. by eapply ops_refine. Qed.

(** C5: a grant reaches the thread it is for, across the wire.  When a node sends the UB_GRANT message for a waiting thread of
    node [d] and the lock ring of [d] has room, the send is accepted; after the next poll of [d], as many takes of its workers as there were
    messages in the inbox, and one more, end with the grant in the hands of a worker, and the callback the worker runs on the
    bytes it got marks the wait context of that thread as notified. *)
Theorem grant_reaches_waiter fuel g lock_func lock_ctx lock_ring boxes nodes c s wl src mode pad me :
  let d := node_id wl in let k := length (LockRuntime.inbox (ns_net s) d) in
  let m := wire pad (create_message wl src (MsgBody (tid wl) 0 UB_GRANT mode)) in
  (1 <= fuel)%nat -> wf_cluster g lock_ring boxes nodes -> 40 <= max_msg_size g ->
  represents g lock_func lock_ctx lock_ring boxes nodes (k + 3) c s ->
  src ∈ nodes -> d ∈ nodes -> valid_location wl -> length pad = 4%nat ->
  Z.of_nat (k - ns_ready s d) < entry_num g ->
  exists r n xs x c', do_ops fuel (NSend m :: NPoll d :: replicate (S k) (NTake d me)) c =
      (Some (RSent r :: RPolled n :: (RTook <$> (xs ++ [x]))), c') /\ LockRuntime.accepted r = true /\
    forall net env on_release b, waiter_map (proc net d) !! tid wl = Some b ->
      run (message_process_thread_func lens_id d on_release (Some (read_msg x))) env net =
        (Some tt, env, set_waiters d (<[tid wl := true]> (waiter_map (proc net d))) net).
Proof.
  intros d k m Hf Hwf Hsz Hrep Hs Hd [Ht _] Hpad Hroom. destruct (Hwf) as [Hg Hcap Hn Hap].
  assert (Hm : lock_message g nodes m).
  { split; [done|]. split; [done|]. split; [done|]. assert (B1 := Hn _ Hs). assert (B2 := Hn _ Hd). split.
    - split; [cbn; lia|]. split; [cbn; unfold sizeof_local_msg_body; lia|].
      repeat constructor; cbn; fold d; unfold LOCK_MSG_TYPE; lia.
    - split; [cbn [m wire as_msg header body fst snd]; cbn; by rewrite length_encode_body|]. cbn. unfold sizeof_local_msg_body, MSG_HEADER_LEN. lia. }
  set (ops := NSend m :: NPoll d :: replicate (S k) (NTake d me)).
  assert (Hlen : length ops = (k + 3)%nat) by (unfold ops; cbn; rewrite length_replicate; lia). rewrite <- Hlen in Hrep.
  destruct (ops_refine fuel g lock_func lock_ctx lock_ring boxes nodes Hf Hg Hap Hn Hcap ops c s Hrep) as (rs & c' & s' & Hdo & Hst & _).
  { unfold ops. constructor; [done|]. constructor; [done|]. by apply Forall_replicate. }
  assert (Hsize := rp_size _ _ _ _ _ _ _ _ _ Hrep). assert (B2 := Hn _ Hd).
  inversion Hst as [|? ? r1 rs1 ? s1 ? H1 Hst1]; subst. inversion H1 as [m0 r s0 net' d0 Hsend Hacc| | |]; subst. clear H1.
  rewrite run_transport_send in Hsend. injection Hsend as <-. change (LockRuntime.header (read_msg (as_msg m))) with (header m) in *.
  change d0 with d in Hacc. change (dest_node_id (header m)) with d in *.
  destruct (LockRuntime.accepted r) eqn:Ea; [|lia].
  inversion Hst1 as [|? ? r2 rs2 ? s2 ? H2 Hst2]; subst. inversion H2 as [|i0 s0 n0| |]; subst. clear H2. cbn [ns_net ns_ready] in *.
  set (net1 := push d [read_msg (as_msg m)] (ns_net s)) in *.
  assert (Hbox : LockRuntime.inbox net1 d = LockRuntime.inbox (ns_net s) d ++ [read_msg (as_msg m)]).
  { unfold net1. rewrite inbox_push by lia. by rewrite decide_True. }
  change n0 with (length (LockRuntime.inbox net1 d)) in *. clear n0.
  assert (Hk : length (LockRuntime.inbox net1 d) = S k) by (rewrite Hbox, length_app; cbn; fold k; lia).
  destruct (takes_steps (entry_num g) d me (LockRuntime.inbox net1 d) (NetSpec net1 (set_ready d (length (LockRuntime.inbox net1 d)) (ns_ready s))) rs2 s')
    as (xs & -> & Hxs); [done|cbn; unfold set_ready; by rewrite decide_True|cbn; rewrite length_setZ; lia|rewrite Hk at 1; exact Hst2|].
  rewrite Hbox in Hxs. apply fmap_app_inv in Hxs as (xs1 & xs2 & Hx1 & Hx2 & ->). 
  destruct xs2 as [|x [|]]; try done. assert (Hx : read_msg x = read_msg (as_msg m)) by (cbn [fmap list_fmap] in Hx2; congruence).
  eexists r, _, xs1, x, c'. split; [exact Hdo|]. split; [done|]. intros net env on_release b Hb.
  rewrite Hx. unfold m. rewrite read_wire; [|done|eexists; split; [done|split; [exact Ht|cbn; lia]]].
  destruct (grant_wakes_waiter lens_id wl src mode on_release env net) as [Hw _].
  - unfold valid_node_id, UB_MAX_NODES. assert (B1 := Hn _ Hs). lia.
  - unfold valid_node_id, UB_MAX_NODES. fold d. lia.
  - cbv zeta in Hw. fold d in Hw. rewrite Hw. cbn [lget lset lens_id]. by rewrite Hb.
Qed.

(** ** A cluster of two nodes *)

(** The two nodes of TransportRun.v, with the callback of the locks registered. *)
Definition demo_locked (w : tworld) : tworld := (run (register_func_for_lock 255 UB_FUNC_ASYNC (cb_app 1) 0) [] w).2.
Definition demo_cluster : cluster := MkCluster (shm demo_B) {[ 2 := demo_locked demo_B; 5 := demo_locked demo_A ]}.
Definition demo_lock_at (i : Z) : Z := if i =? 2 then 3145728 else 6291456.
Definition demo_user_at (i : Z) : list box := [(3, if i =? 2 then 3932352 else 7078080, geom demo_user_ring)].
Definition demo_nodes : gset Z := {[ 2; 5 ]}.
Definition demo_net : net_spec := NetSpec (Network (replicate 16 no_runtime) (replicate 16 [])) (fun _ => 0%nat).
Abbreviation demo_g := (geom demo_lock_ring).

#[local] Strategy 1000 [demo_B demo_A0].

Lemma demo_wf : wf_cluster demo_g demo_lock_at demo_user_at demo_nodes.
Proof.
  split.
  - apply (make_ring_spec [] 4096 128 demo_lock_ring); [reflexivity|lia|lia].
  - vm_compute. discriminate.
  - intros i Hi. apply elem_of_union in Hi as [->%elem_of_singleton | ->%elem_of_singleton]; lia.
  - assert (Ha : forall i, addresses demo_g demo_lock_at demo_user_at i = [demo_lock_at i; if i =? 2 then 3932352 else 7078080]) by done.
    intros i j a Hi Hj Hne. rewrite !Ha. intros H1 H2. unfold demo_nodes in *.
    rewrite !elem_of_union, !elem_of_singleton in Hi, Hj. rewrite !elem_of_cons in H1, H2. unfold demo_lock_at in *.
    destruct Hi as [-> | ->], Hj as [-> | ->]; cbn in *; try done;
      destruct H1 as [-> |[-> |H1%elem_of_nil]], H2 as [H2|[H2|H2%elem_of_nil]]; done.
Qed.
Lemma demo_ring_at m a : rings m !! a = Some demo_lock_ring -> holds_queue m a demo_g [].
Proof.
  intros Hr. exists demo_lock_ring. split; [done|]. apply (make_ring_rep [] 4096 128 demo_lock_ring 0 idle_tls); [reflexivity|lia|lia].
Qed.
Lemma demo_user_holds m a : rings m !! a = Some demo_user_ring -> holds_queue m a (geom demo_user_ring) [].
Proof.
  intros Hr. exists demo_user_ring. split; [done|]. apply (make_ring_rep [] 4 64 demo_user_ring 0 idle_tls); [reflexivity|lia|lia].
Qed.

(** The rings of a node of this cluster, from what its members say. *)
Lemma demo_boxes_ok i w :
  local_active_priorities_ (t_loc (obj w)) = [0; 3] -> max_msg_size_global_ (t_loc (obj w)) = 208 ->
  getZ 0 (local_rings_ (t_loc (obj w))) 0 = demo_lock_at i ->
  getZ 0 (local_rings_ (t_loc (obj w))) 3 = (if i =? 2 then 3932352 else 7078080) ->
  rings (shm w) !! demo_lock_at i = Some demo_lock_ring ->
  rings (shm w) !! (if i =? 2 then 3932352 else 7078080) = Some demo_user_ring ->
  inbox w 208 (all_boxes demo_g demo_lock_at demo_user_at i) (queues demo_user_at i []).
Proof.
  intros Ha Hs H0 H3 R0 R3. split; [by rewrite Ha|cbn; lia| |].
  - cbn. unfold demo_lock_at. apply NoDup_cons. split; [|apply NoDup_singleton]. rewrite list_elem_of_singleton. by destruct (i =? 2).
  - constructor; [|constructor; [|constructor]].
    + split; [done|cbn; unfold demo_lock_at; by destruct (i =? 2)|apply demo_wf|vm_compute; discriminate|by apply demo_ring_at].
    + split; [done|cbn; by destruct (i =? 2)|apply demo_geometry|vm_compute; discriminate|by apply demo_user_holds].
Qed.

(** Node 5 was up first: it has to look node 2 up; node 2 has cached the ring of node 5. *)
Lemma demo_linked_5 : linked demo_g demo_lock_at (seen_from demo_cluster (demo_locked demo_A)) 2.
Proof.
  split; [by vm_compute; eexists|vm_compute; reflexivity|split; vm_compute; lia|]. right. split; [vm_compute; reflexivity|].
  split; [vm_compute; discriminate|]. split; [done|]. right. split_and!; try (vm_compute; reflexivity || discriminate).
  eexists. split; [vm_compute; reflexivity|]. split; vm_compute; [split; [discriminate|reflexivity]|reflexivity].
Qed.
Lemma demo_linked_2 : linked demo_g demo_lock_at (seen_from demo_cluster (demo_locked demo_B)) 5.
Proof.
  split; [by vm_compute; eexists|vm_compute; reflexivity|split; vm_compute; lia|]. left.
  split_and!; vm_compute; reflexivity || discriminate.
Qed.

Lemma demo_index w : t_cfg (obj w) = t_cfg (obj demo_A) \/ t_cfg (obj w) = t_cfg (obj demo_B) -> forall d d', d ∈ demo_nodes -> d' ∈ demo_nodes ->
  compact_index (t_cfg (obj w)) d = compact_index (t_cfg (obj w)) d' -> d = d'.
Proof.
  intros Hw d d' Hd Hd'. unfold demo_nodes in *. rewrite !elem_of_union, !elem_of_singleton in Hd, Hd'.
  destruct Hd as [-> | ->], Hd' as [-> | ->]; try done; destruct Hw as [-> | ->]; vm_compute; done.
Qed.

Lemma demo_node_2 : node_ok demo_g 1 0 demo_lock_at demo_user_at demo_nodes 2 (seen_from demo_cluster (demo_locked demo_B)) [] [].
Proof.
  split; [vm_compute; reflexivity| |vm_compute; reflexivity..|vm_compute; discriminate| | |].
  - apply demo_boxes_ok; vm_compute; reflexivity.
  - apply demo_index. right. vm_compute. reflexivity.
  - intros d Hd Hne. unfold demo_nodes in Hd. rewrite elem_of_union, !elem_of_singleton in Hd. destruct Hd as [-> | ->]; [done|apply demo_linked_2].
  - constructor.
Qed.
Lemma demo_node_5 : node_ok demo_g 1 0 demo_lock_at demo_user_at demo_nodes 5 (seen_from demo_cluster (demo_locked demo_A)) [] [].
Proof.
  split; [vm_compute; reflexivity| |vm_compute; reflexivity..|vm_compute; discriminate| | |].
  - apply demo_boxes_ok; vm_compute; reflexivity.
  - apply demo_index. left. vm_compute. reflexivity.
  - intros d Hd Hne. unfold demo_nodes in Hd. rewrite elem_of_union, !elem_of_singleton in Hd. destruct Hd as [-> | ->]; [apply demo_linked_5|done].
  - constructor.
Qed.

Lemma demo_represents n : (n <= 10)%nat -> represents demo_g 1 0 demo_lock_at demo_user_at demo_nodes n demo_cluster demo_net.
Proof.
  intros Hn. split.
  - vm_compute. reflexivity.
  - intros i w Hw. cbn [c_inst demo_cluster] in Hw. apply lookup_insert_Some in Hw as [[<- <-]|[_ Hw]].
    + exists [], []. split; [apply demo_node_2|done].
    + apply lookup_singleton_Some in Hw as [<- <-]. exists [], []. split; [apply demo_node_5|done].
  - intros i Hi. unfold demo_nodes in Hi. rewrite elem_of_union, !elem_of_singleton in Hi.
    assert (Hz : tail (ring_at (c_mem demo_cluster) (demo_lock_at i)) = 0) by (destruct Hi as [-> | ->]; vm_compute; reflexivity).
    rewrite Hz. change (entry_num demo_g) with 4096. lia.
  - reflexivity.
Qed.

(** Node 5 grants a lock to a thread of node 2, whose dispatcher polls and whose worker takes the message. *)
Definition demo_grant : LockRuntime.message_t := create_message (Location 7 2) 5 (MsgBody 7 0 UB_GRANT UB_LOCK_X).
Lemma cluster_refines_network_witness :
  exists rs c' s', do_ops 1 [NSend (wire [0; 0; 0; 0] demo_grant); NPoll 2; NTake 2 0] demo_cluster = (Some rs, c') /\
    net_steps 4096 [NSend (wire [0; 0; 0; 0] demo_grant); NPoll 2; NTake 2 0] rs demo_net s'.
Proof.
  destruct (cluster_refines_network 1 demo_g 1 0 demo_lock_at demo_user_at demo_nodes
    [NSend (wire [0; 0; 0; 0] demo_grant); NPoll 2; NTake 2 0] demo_cluster demo_net) as (rs & c' & s' & Hd & Hs & _).
  - lia.
  - apply demo_wf.
  - apply demo_represents. cbn. lia.
  - constructor; [|constructor; [|constructor; [|constructor]]]; [|set_solver..].
    split; [set_solver|]. split; [set_solver|]. split; [reflexivity|].
    split; [split; [cbn; lia|split; [cbn; unfold sizeof_local_msg_body; lia|]]|split; [reflexivity|vm_compute; discriminate]].
    repeat constructor; cbn; unfold LOCK_MSG_TYPE; lia.
  - exact (ex_intro _ rs (ex_intro _ c' (ex_intro _ s' (conj Hd Hs)))).
Defined.

Lemma grant_reaches_waiter_witness :
  exists r n xs x c', do_ops 1 [NSend (wire [0; 0; 0; 0] demo_grant); NPoll 2; NTake 2 0] demo_cluster =
      (Some (RSent r :: RPolled n :: (RTook <$> (xs ++ [x]))), c') /\ LockRuntime.accepted r = true.
Proof.
  destruct (grant_reaches_waiter 1 demo_g 1 0 demo_lock_at demo_user_at demo_nodes demo_cluster demo_net (Location 7 2) 5 UB_LOCK_X
    [0; 0; 0; 0] 0) as (r & n & xs & x & c' & Hd & Ha & _).
  - lia.
  - apply demo_wf.
  - vm_compute. discriminate.
  - apply demo_represents. apply Nat.leb_le. vm_compute. reflexivity.
  - set_solver.
  - cbn. set_solver.
  - split; cbn; lia.
  - reflexivity.
  - vm_compute. reflexivity.
  - exact (ex_intro _ r (ex_intro _ n (ex_intro _ xs (ex_intro _ x (ex_intro _ c' (conj Hd Ha)))))).
Defined.
