(* ===== verification/ShmCreator.v ===== *)
(** The tool that creates shared memory (sample_code/share_mem/ubsm_shm_creator.cpp).

    It reads a configuration file, looks a region up in the memory service or creates it, and then allocates or frees a shared memory object in it.
    The service is not part of the repository: its calls are recorded in the order they are made, and an
    arbitrary function of the calls made so far gives the value each returns.  Its limits are parameters.
    Text is a list of bytes.
    [config_roundtrip] says that a file that is written for a size and a list of hosts is read back as these;
    [creator_calls] says which calls the tool makes, with which arguments, and when it reports success. *)

From Stdlib Require Import Ascii.
From stdpp Require Import strings pretty.
From S2P Require Import Prelude.

#[local] Open Scope Z_scope.

Abbreviation bytes := (list ascii).
Abbreviation txt s := (String.list_ascii_of_string s%string).

Definition code (c : ascii) : Z := Z.of_N (N_of_ascii c).
Definition is_char (z : Z) (c : ascii) : bool := code c =? z.

(** * The library functions that read text *)

Fixpoint take_while (p : ascii -> bool) (v : bytes) : bytes :=
  match v with c :: v' => if p c then c :: take_while p v' else [] | [] => [] end.
(** [std::isspace] of the C locale. *)
Definition isspace (c : ascii) : bool := (code c =? 32) || ((9 <=? code c) && (code c <=? 13)).
Definition isdigit (c : ascii) : bool := (48 <=? code c) && (code c <=? 57).
(** What a C string function sees of a [std::string] or of an array. *)
Definition c_str (v : bytes) : bytes := take_while (fun c => negb (is_char 0 c)) v.

(** The tokens [std::getline(stream, token, delim)] returns in a loop: a delimiter ends a token; an empty rest has none. *)
Fixpoint getlines_from (delim : ascii) (token : bytes) (v : bytes) : list bytes :=
  match v with
  | [] => match token with [] => [] | _ => [token] end
  | c :: v' => if Ascii.eqb c delim then token :: getlines_from delim [] v' else getlines_from delim (token ++ [c]) v'
  end.
Definition getlines (delim : ascii) (v : bytes) : list bytes := getlines_from delim [] v.

Definition digits_value (ds : bytes) : Z := foldl (fun v c => v * 10 + (code c - 48)) 0 ds.
(** [strtoull] in base 10: the value, the rest at [end], and whether [errno] is set.  With a minus sign the value is
    negated in 64 bits; without a digit nothing is consumed. *)
Definition strtoull (s : bytes) : Z * bytes * bool :=
  let t := drop (length (take_while isspace s)) s in
  let '(neg, t') := match t with
                    | c :: r => if is_char 45 c then (true, r) else if is_char 43 c then (false, r) else (false, t)
                    | [] => (false, t)
                    end in
  let ds := take_while isdigit t' in
  let v := digits_value ds in
  match ds with
  | [] => (0, s, false)
  | _ => (if 2 ^ 64 <=? v then 2 ^ 64 - 1 else if neg then u64 (- v) else v, drop (length ds) t', 2 ^ 64 <=? v)
  end.

(** * The configuration *)

Section Creator.
(** The limits of the service, and the size of the array [host_name] of one host. *)
Context (MAX_REGION_NAME_DESC_LENGTH MAX_REGION_NODE_NUM MAX_HOST_NAME_DESC_LENGTH host_name_size : nat).

Definition kBytesPerMb : Z := 1024 * 1024.
Definition kShmPermission : Z := 511.
Definition kShmNameMax : nat := 256.

Record RegionConfig : Type := mkConfig { request_size_mb : Z; hosts : list bytes }.

(** The array of [N] bytes that is filled; [None]: the value is refused. *)
Definition fill_api_buffer (value : bytes) (N : nat) : option bytes :=
  match value with
  | [] => None
  | _ => if (N <=? length value)%nat then None else Some (value ++ replicate (N - length value) zero)
  end.

Definition trim (value : bytes) : bytes :=
  let begin := length (take_while isspace value) in
  let end_ := (length value - length (take_while isspace (rev value)))%nat in
  if (end_ <=? begin)%nat then [] else take (end_ - begin) (drop begin value).

Definition parse_size_mb (value : bytes) : option Z :=
  let '(parsed, end_, errno) := strtoull (c_str value) in
  if errno || (length end_ =? length (c_str value))%nat || negb (length end_ =? 0)%nat || (parsed =? 0) then None
  else if 2 ^ 64 - 1 <? parsed then None else Some parsed.

(** The hosts of a list; [None]: it is refused. *)
Fixpoint parse_hosts_loop (tokens : list bytes) (hs : list bytes) : option (list bytes) :=
  match tokens with
  | [] => Some hs
  | token :: rest =>
      match trim token with
      | [] => parse_hosts_loop rest hs
      | host =>
          if (MAX_REGION_NODE_NUM <=? length hs)%nat then None
          else if (MAX_HOST_NAME_DESC_LENGTH <=? length host)%nat then None
          else parse_hosts_loop rest (hs ++ [host])
      end
  end.
Definition parse_hosts_list (value : bytes) : option (list bytes) :=
  match parse_hosts_loop (getlines "," value) [] with
  | Some [] => None
  | r => r
  end.

(** [item.find('=')]: what is before and after the first one. *)
Fixpoint split_at_eq (item : bytes) : option (bytes * bytes) :=
  match item with
  | [] => None
  | c :: r => if Ascii.eqb c "=" then Some ([], r) else
              match split_at_eq r with Some (k, v) => Some (c :: k, v) | None => None end
  end.

Record load_state : Type := LoadState { cfg_of : RegionConfig; got_size : bool; got_hosts : bool }.
(** A line of the file: the next state, or the value that is returned. *)
Definition load_line (s : load_state) (line : bytes) : load_state + Z :=
  let item := trim line in
  match item with
  | [] => inl s
  | c :: _ =>
      if Ascii.eqb c "#" then inl s else
      match split_at_eq item with
      | None => inl s
      | Some (k, v) =>
          let key := trim k in
          let val := trim v in
          if bool_decide (key = txt "request_size_mb") then
            match parse_size_mb val with
            | None => inr (-2)
            | Some n => inl (LoadState (mkConfig n (hosts (cfg_of s))) true (got_hosts s))
            end
          else if bool_decide (key = txt "hosts") then
            match parse_hosts_list val with
            | None => inr (-3)
            | Some hs => inl (LoadState (mkConfig (request_size_mb (cfg_of s)) hs) (got_size s) true)
            end
          else inl s
      end
  end.
Fixpoint load_lines (s : load_state) (ls : list bytes) : load_state + Z :=
  match ls with
  | [] => inl s
  | l :: rest => match load_line s l with inl s' => load_lines s' rest | inr r => inr r end
  end.
(** [file]: the contents, [None] when it cannot be opened.  The configuration, or the value that is returned. *)
Definition load_region_config (file : option bytes) : RegionConfig + Z :=
  match file with
  | None => inr (-1)
  | Some text =>
      match load_lines (LoadState (mkConfig 0 []) false false) (getlines "010" text) with
      | inr r => inr r
      | inl s => if negb (got_size s) then inr (-4) else if negb (got_hosts s) then inr (-5) else inl (cfg_of s)
      end
  end.

Definition has_host (cfg : RegionConfig) (target_hostname : bytes) : bool := bool_decide (target_hostname ∈ hosts cfg).

(** * The region and the calls of the service *)

(** One host of [ubsmem_region_attributes_t]: the array with its name, and the affinity. *)
Record region_host : Type := RegionHost { host_name : bytes; affinity : bool }.
Record region_attributes : Type := RegionAttr { host_num : Z; attr_hosts : list region_host }.

(** [snprintf("%s")]: the C string of the host with its terminating zero; [None]: it does not fit. *)
Definition copy_host_name (host : bytes) : option bytes :=
  let written := length (c_str host) in
  if (host_name_size <=? written)%nat then None else Some (c_str host ++ replicate (host_name_size - written) zero).
Fixpoint copy_hosts (target_hostname : bytes) (hs : list bytes) : option (list region_host) :=
  match hs with
  | [] => Some []
  | h :: rest =>
      match copy_host_name h with
      | None => None
      | Some n =>
          match copy_hosts target_hostname rest with
          | None => None
          | Some l => Some (RegionHost n (bool_decide (h = target_hostname)) :: l)
          end
      end
  end.
(** [None]: -1 is returned. *)
Definition build_region_attr_from_config (cfg : RegionConfig) (target_hostname : bytes) : option region_attributes :=
  if bool_decide (hosts cfg = []) || bool_decide (target_hostname = []) || negb (has_host cfg target_hostname) then None else
  match copy_hosts target_hostname (hosts cfg) with
  | None => None
  | Some l => Some (RegionAttr (i32 (Z.of_nat (length (hosts cfg)))) l)
  end.

(** The calls, with what the service is given; a name is the C string in its array. *)
Inductive ubsm_call : Type :=
| ubsmem_init_attributes
| ubsmem_initialize
| ubsmem_lookup_region (name : bytes)
| ubsmem_create_region (name : bytes) (size : Z) (attr : region_attributes)
| ubsmem_shmem_allocate (region name : bytes) (length permission flags : Z)
| ubsmem_shmem_deallocate (name : bytes).

(** What a call returns after the calls made before, and the flags of an allocation. *)
Context (api : list ubsm_call -> ubsm_call -> Z) (UBSM_OK shm_flags : Z).

Definition session (A : Type) : Type := list ubsm_call -> A * list ubsm_call.
Definition ret {A} (a : A) : session A := fun h => (a, h).
Definition call (c : ubsm_call) : session Z := fun h => (api h c, h ++ [c]).
Definition andthen {A B} (p : session A) (f : A -> session B) : session B := fun h => let '(a, h') := p h in f a h'.
#[local] Notation "'let!' x := p 'in' q" := (andthen p (fun x => q)) (at level 10, x pattern, p at level 100, q at level 200).

Definition init_ubsm : session Z :=
  let! r := call ubsmem_init_attributes in
  if negb (r =? UBSM_OK) then ret (-1) else
  let! r := call ubsmem_initialize in
  if negb (r =? UBSM_OK) then ret (-1) else ret 0.

(** The array [g_region_name], or -1. *)
Definition prepare_region_name (cfg : RegionConfig) (target_hostname : bytes) : bytes + Z :=
  if negb (has_host cfg target_hostname) then inr (-1) else
  match fill_api_buffer (target_hostname ++ txt "_affinity") MAX_REGION_NAME_DESC_LENGTH with
  | None => inr (-1)
  | Some b => inl b
  end.

(** The array [g_region_name], or the value that is returned when it is not 0. *)
Definition create_shared_region (cfg : RegionConfig) (target_hostname : bytes) : session (bytes + Z) :=
  match prepare_region_name cfg target_hostname with
  | inr r => ret (inr r)
  | inl g_region_name =>
      let name := c_str g_region_name in
      let! r := call (ubsmem_lookup_region name) in
      if r =? 0 then ret (inl g_region_name) else
      match build_region_attr_from_config cfg target_hostname with
      | None => ret (inr (-1))
      | Some attr =>
          let! r := call (ubsmem_create_region name 0 attr) in
          if negb (r =? 0) then ret (inr r) else ret (inl g_region_name)
      end
  end.

Definition create_shared_memory (g_region_name g_shm_name : bytes) (request_size_mb : Z) : session Z :=
  if (2 ^ 64 - 1) / kBytesPerMb <? request_size_mb then ret (-1) else
  let length := u64 (request_size_mb * kBytesPerMb) in
  let! r := call (ubsmem_shmem_allocate (c_str g_region_name) (c_str g_shm_name) length kShmPermission shm_flags) in
  if negb (r =? 0) then ret (-1) else ret 0.
Definition delete_shared_memory (g_shm_name : bytes) : session Z :=
  let! r := call (ubsmem_shmem_deallocate (c_str g_shm_name)) in
  if negb (r =? 0) then ret (-1) else ret 0.

(** [args]: the arguments after the name of the program.  The result: whether it ends with EXIT_SUCCESS. *)
Definition main (args : list bytes) (file : option bytes) : session bool :=
  match args with
  | [operation; target_hostname; shm_name] =>
      if negb (bool_decide (operation = txt "create")) && negb (bool_decide (operation = txt "delete")) then ret false else
      match fill_api_buffer shm_name kShmNameMax with
      | None => ret false
      | Some g_shm_name =>
          match load_region_config file with
          | inr _ => ret false
          | inl cfg =>
              let! r := init_ubsm in
              if negb (r =? 0) then ret false else
              let! r := create_shared_region cfg target_hostname in
              match r with
              | inr _ => ret false
              | inl g_region_name =>
                  if bool_decide (operation = txt "delete") then
                    let! r := delete_shared_memory g_shm_name in ret (r =? 0)
                  else
                    let! r := create_shared_memory g_region_name g_shm_name (request_size_mb cfg) in ret (r =? 0)
              end
          end
      end
  | _ => ret false
  end.
End Creator.

(** * Text *)

Definition spaces (v : bytes) : Prop := Forall (fun c => isspace c = true) v.
(** Not empty, with no space at either end. *)
Definition tight (v : bytes) : Prop :=
  (exists c r, v = c :: r /\ isspace c = false) /\ (exists c r, v = r ++ [c] /\ isspace c = false).

Lemma take_while_all p v : Forall (fun c => p c = true) v -> take_while p v = v.
Proof. induction 1 as [|c v Hc _ IH]; cbn; [done|]. by rewrite Hc, IH. Qed.
Lemma take_while_stop p v c r : Forall (fun c => p c = true) v -> p c = false -> take_while p (v ++ c :: r) = v.
Proof. intros Hv Hc. induction Hv as [|d v Hd _ IH]; cbn; [by rewrite Hc|]. by rewrite Hd, IH. Qed.

Lemma trim_spaces v : spaces v -> trim v = [].
Proof. intros Hv. unfold trim. rewrite (take_while_all isspace v) by exact Hv. case_match eqn:E; [done|]. apply Nat.leb_gt in E. lia. Qed.
Lemma trim_padded l v r : spaces l -> spaces r -> tight v -> trim (l ++ v ++ r) = v.
Proof.
  intros Hl Hr [(c & t & Hv & Hc) (c' & t' & Hv' & Hc')]. unfold trim.
  assert (take_while isspace (l ++ v ++ r) = l) as -> by (rewrite Hv; cbn; by apply take_while_stop).
  assert (take_while isspace (rev (l ++ v ++ r)) = rev r) as ->.
  { rewrite !rev_app_distr, Hv', rev_app_distr. cbn. rewrite <- app_assoc. cbn. apply take_while_stop; [|done]. by apply Forall_rev. }
  assert (0 < length v)%nat by (rewrite Hv; cbn; lia).
  rewrite length_rev, !length_app. case_match eqn:E; [apply Nat.leb_le in E; lia|].
  rewrite drop_app_length. rewrite take_app_length'; [done|lia].
Qed.
Lemma trim_tight v : tight v -> trim v = v.
Proof. intros Hv. rewrite <- (app_nil_r v) at 1. apply (trim_padded [] v []); [constructor..|done]. Qed.

(** A value is what is between its outer spaces, and it is unchanged when they are taken off once more. *)
Lemma trim_split v : exists l r, v = l ++ trim v ++ r /\ spaces l /\ spaces r /\ (trim v = [] \/ tight (trim v)).
Proof.
  induction v as [|c v IH] using rev_ind; [by exists [], []; repeat split; try constructor|].
  destruct IH as (l & r & Hv & Hl & Hr & Ht). destruct (isspace c) eqn:Hc.
  - exists l, (r ++ [c]). assert (Hr' : spaces (r ++ [c])) by (apply Forall_app; split; [done|by constructor]).
    assert (trim (v ++ [c]) = trim v) as ->.
    { destruct Ht as [H0|H0].
      - rewrite Hv, H0. cbn. rewrite !trim_spaces; [done|by apply Forall_app|]. by rewrite <- app_assoc; apply Forall_app.
      - rewrite Hv at 1. rewrite <- !app_assoc. by apply trim_padded. }
    split; [rewrite Hv at 1; by rewrite <- !app_assoc|done].
  - assert (Htc : exists l v', v ++ [c] = l ++ v' /\ spaces l /\ tight v').
    { destruct Ht as [H0|[(d & t & Hd & Hsp) _]].
      - exists (l ++ r), [c]. rewrite H0 in Hv. cbn in Hv. rewrite Hv at 1. split; [done|]. split; [by apply Forall_app|].
        split; [by exists c, []|by exists c, []].
      - exists l, (trim v ++ r ++ [c]). rewrite Hv at 1. rewrite <- !app_assoc. split; [done|]. split; [done|].
        split; [exists d, (t ++ r ++ [c]); by rewrite Hd|exists c, (trim v ++ r); by rewrite <- app_assoc]. }
    destruct Htc as (l' & v' & Heq & Hl' & Ht'). exists l', []. rewrite Heq.
    assert (trim (l' ++ v') = v') as -> by (rewrite <- (app_nil_r v') at 1; apply trim_padded; [done|constructor|done]).
    split; [by rewrite app_nil_r|]. split; [done|]. split; [constructor|by right].
Qed.

Lemma getlines_token d t : forall acc rest, d ∉ t -> getlines_from d acc (t ++ d :: rest) = (acc ++ t) :: getlines d rest.
Proof.
  induction t as [|c t IH]; intros acc rest Hd; cbn [app getlines_from].
  - by rewrite Ascii.eqb_refl, app_nil_r.
  - apply not_elem_of_cons in Hd as [Hc Ht]. rewrite (proj2 (Ascii.eqb_neq c d)) by done.
    rewrite IH by done. by rewrite <- app_assoc.
Qed.
Lemma getlines_last d t : forall acc, d ∉ t -> acc ++ t <> [] -> getlines_from d acc t = [acc ++ t].
Proof.
  induction t as [|c t IH]; intros acc Hd Hn; cbn [getlines_from].
  - rewrite app_nil_r in *. by destruct acc.
  - apply not_elem_of_cons in Hd as [Hc Ht]. rewrite (proj2 (Ascii.eqb_neq c d)) by done.
    rewrite IH; rewrite <- ?app_assoc; [done..|]. by destruct acc.
Qed.

(** Lines with their terminator, and tokens with a separator between them. *)
Definition unlines (d : ascii) (ls : list bytes) : bytes := concat (map (fun l => l ++ [d]) ls).
Fixpoint join (d : ascii) (ts : list bytes) : bytes :=
  match ts with [] => [] | [t] => t | t :: rest => t ++ d :: join d rest end.

Lemma getlines_unlines d ls : Forall (fun l => d ∉ l) ls -> getlines d (unlines d ls) = ls.
Proof.
  induction 1 as [|l ls Hl _ IH]; [done|]. unfold unlines, getlines in *. cbn [map concat]. rewrite <- app_assoc. cbn [app].
  rewrite getlines_token by done. cbn [app]. unfold getlines. by rewrite IH.
Qed.
Lemma getlines_join d ts : Forall (fun t => (d ∉ t) /\ t <> []) ts -> getlines d (join d ts) = ts.
Proof.
  induction 1 as [|t ts [Hd Hn] Hts IH]; [done|]. cbn [join]. destruct ts as [|t' ts].
  - unfold getlines. by rewrite getlines_last.
  - unfold getlines in *. rewrite getlines_token by done. cbn [app]. unfold getlines. by rewrite IH.
Qed.

(** ** Numbers *)

Definition decimal (n : Z) : bytes := txt (pretty n).
Definition numeral (ds : bytes) : Prop := ds <> [] /\ Forall (fun c => isdigit c = true) ds.

Lemma digit_char (x : N) : (x < 10)%N -> isdigit (pretty_N_char x) = true /\ code (pretty_N_char x) = 48 + Z.of_N x.
Proof.
  intros Hx. assert (x = 0 \/ x = 1 \/ x = 2 \/ x = 3 \/ x = 4 \/ x = 5 \/ x = 6 \/ x = 7 \/ x = 8 \/ x = 9)%N as H by lia.
  by repeat destruct H as [->|H]; [..|subst x].
Qed.

Lemma pretty_go_spec (x : N) : forall s, exists ds,
  txt (pretty_N_go x s) = ds ++ txt s /\ Forall (fun c => isdigit c = true) ds /\ ((0 < x)%N -> ds <> []) /\
  forall v, foldl (fun v c => v * 10 + (code c - 48)) v ds = v * 10 ^ Z.of_nat (length ds) + Z.of_N x.
Proof.
  induction (N.lt_wf_0 x) as [x _ IH]. intros s. destruct (N.eq_dec x 0) as [->|Hx].
  { exists []. rewrite pretty_N_go_0. repeat split; [constructor|lia|]. intros v. cbn. lia. }
  rewrite pretty_N_go_step by lia.
  destruct (IH (x `div` 10)%N ltac:(apply N.div_lt; lia) (String.String (pretty_N_char (x `mod` 10)) s)) as (ds & Hs & Hd & _ & Hv).
  destruct (digit_char (x mod 10)) as [Hc Hz]; [apply N.mod_lt; lia|].
  exists (ds ++ [pretty_N_char (x `mod` 10)]). split; [rewrite Hs; by rewrite <- app_assoc|].
  split; [apply Forall_app; split; [done|by constructor]|]. split; [intros _; by destruct ds|].
  intros v. rewrite foldl_app, Hv. cbn [foldl]. rewrite Hz, length_app. cbn [length].
  replace (Z.of_nat (length ds + 1)) with (Z.of_nat (length ds) + 1) by lia. rewrite Z.pow_add_r by lia.
  assert (Hx' := N.div_mod x 10 ltac:(lia)). nia.
Qed.

Lemma decimal_spec n : 0 < n -> numeral (decimal n) /\ digits_value (decimal n) = n.
Proof.
  intros Hn. unfold decimal. assert (pretty n = pretty_N_go (Z.to_N n) "") as ->.
  { destruct n as [|p|]; [lia| |lia]. change (pretty_N (N.pos p) = pretty_N_go (N.pos p) ""). unfold pretty_N. by rewrite decide_False. }
  destruct (pretty_go_spec (Z.to_N n) "") as (ds & Hs & Hd & Hne & Hv). rewrite Hs. cbn. rewrite app_nil_r.
  split; [split; [apply Hne; lia|done]|]. unfold digits_value. rewrite Hv. lia.
Qed.

Lemma digit_code c : isdigit c = true -> 48 <= code c <= 57.
Proof. unfold isdigit. intros H. bool_to_prop. lia. Qed.
Lemma code_eq (z : Z) c : code c <> z -> is_char z c = false.
Proof. apply Z.eqb_neq. Qed.
Lemma digit_not_space c : isdigit c = true -> isspace c = false.
Proof. intros H%digit_code. unfold isspace. destruct (code c =? 32) eqn:E, (code c <=? 13) eqn:E'; bool_to_prop; try lia; by rewrite ?andb_false_r. Qed.

Lemma numeral_parses ds :
  numeral ds -> digits_value ds < 2 ^ 64 -> strtoull ds = (digits_value ds, [], false).
Proof.
  intros [Hn Hd] Hv. unfold strtoull. destruct ds as [|c r]; [done|]. inversion Hd as [|? ? Hc Hr]; subst.
  cbn [take_while]. rewrite (digit_not_space c Hc). cbn [length drop].
  rewrite !code_eq by (apply digit_code in Hc; lia). rewrite take_while_all by done.
  rewrite (proj2 (Z.leb_gt _ _)) by done. by rewrite drop_all.
Qed.

Lemma numeral_c_str ds : numeral ds -> c_str ds = ds.
Proof.
  intros [_ Hd]. apply take_while_all. eapply Forall_impl; [done|]. intros c Hc%digit_code. cbn. by rewrite code_eq by lia.
Qed.

(** A size in decimal is read back. *)
Lemma parse_size_decimal n : 0 < n < 2 ^ 64 -> parse_size_mb (decimal n) = Some n.
Proof.
  intros Hn. destruct (decimal_spec n) as [Hd Hv]; [lia|]. unfold parse_size_mb. rewrite numeral_c_str, numeral_parses by (done || lia).
  rewrite Hv. destruct Hd as [Hne _]. destruct (decimal n); [done|]. cbn [length Nat.eqb orb negb].
  rewrite (proj2 (Z.eqb_neq _ _)), (proj2 (Z.ltb_ge _ _)) by lia. done.
Qed.

(** * Reading a configuration *)

Section Config.
Context (max_nodes max_name : nat).

Definition newline : ascii := "010"%char.
(** A line that says nothing: blank, a comment, or without an equals sign. *)
Definition silent (line : bytes) : Prop :=
  (newline ∉ line) /\ (trim line = [] \/ (exists r, trim line = "#"%char :: r) \/ split_at_eq (trim line) = None).
Record host_ok (h : bytes) : Prop := {
  host_tight : tight h; host_comma : ","%char ∉ h; host_newline : newline ∉ h; host_length : (length h < max_name)%nat }.
(** [key = value] with spaces around both. *)
Definition entry (l1 l2 l3 l4 key value : bytes) : bytes := l1 ++ (key ++ l2 ++ "="%char :: l3 ++ value) ++ l4.
Definition blank (v : bytes) : Prop := spaces v /\ (newline ∉ v).

Lemma silent_line s line : silent line -> load_line max_nodes max_name s line = inl s.
Proof.
  intros [_ H]. unfold load_line. destruct H as [->|[(r & ->)| H]]; [done|done|].
  destruct (trim line) as [|c r]; [done|]. rewrite H. by destruct (Ascii.eqb c "#").
Qed.
Lemma silent_lines s ls : Forall silent ls -> forall rest,
  load_lines max_nodes max_name s (ls ++ rest) = load_lines max_nodes max_name s rest.
Proof. induction 1 as [|l ls Hl _ IH]; intros rest; cbn; [done|]. by rewrite silent_line. Qed.

Lemma split_first_eq k v : "="%char ∉ k -> split_at_eq (k ++ "="%char :: v) = Some (k, v).
Proof.
  induction k as [|c k IH]; intros H; cbn [app split_at_eq]; [done|]. apply not_elem_of_cons in H as [Hc Hk].
  rewrite (proj2 (Ascii.eqb_neq c "=")) by done. by rewrite IH.
Qed.

Lemma spaces_no_eq v : spaces v -> "="%char ∉ v.
Proof. intros Hv Hin. by apply (proj1 (Forall_forall _ _) Hv) in Hin. Qed.

(** What an entry comes to, when its key is a word. *)
Lemma entry_line s l1 l2 l3 l4 key value :
  spaces l1 -> spaces l2 -> spaces l3 -> spaces l4 -> tight key -> tight value -> "="%char ∉ key -> head key <> Some "#"%char ->
  load_line max_nodes max_name s (entry l1 l2 l3 l4 key value) =
    if bool_decide (key = txt "request_size_mb") then
      match parse_size_mb value with
      | None => inr (-2)
      | Some n => inl (LoadState (mkConfig n (hosts (cfg_of s))) true (got_hosts s))
      end
    else if bool_decide (key = txt "hosts") then
      match parse_hosts_list max_nodes max_name value with
      | None => inr (-3)
      | Some hs => inl (LoadState (mkConfig (request_size_mb (cfg_of s)) hs) (got_size s) true)
      end
    else inl s.
Proof.
  intros H1 H2 H3 H4 Hk Hv Heq Hh. unfold load_line.
  assert (Ht : trim (entry l1 l2 l3 l4 key value) = key ++ l2 ++ "="%char :: l3 ++ value).
  { apply trim_padded; [done..|]. destruct Hk as [(c & r & -> & Hc) _], Hv as [_ (c' & r' & -> & Hc')]. split.
    - exists c, (r ++ l2 ++ "="%char :: l3 ++ r' ++ [c']). done.
    - exists c', ((c :: r) ++ l2 ++ "="%char :: l3 ++ r'). split; [|done]. by rewrite <- !app_assoc; cbn; rewrite <- !app_assoc. }
  rewrite Ht. destruct key as [|c r] eqn:Ek; [by destruct Hk as [(? & ? & ? & _) _]|]. cbn [app].
  rewrite (proj2 (Ascii.eqb_neq c "#")) by (intros ->; by apply Hh).
  change (c :: r ++ l2 ++ "="%char :: l3 ++ value) with ((c :: r) ++ l2 ++ "="%char :: l3 ++ value). rewrite app_assoc.
  rewrite split_first_eq by (rewrite elem_of_app; intros [?|?]; [done|by apply (spaces_no_eq l2)]).
  assert (trim ((c :: r) ++ l2) = c :: r) as -> by (apply (trim_padded [] (c :: r) l2); done || constructor).
  assert (trim (l3 ++ value) = value) as -> by (rewrite <- (app_nil_r value) at 1; apply trim_padded; done || constructor).
  done.
Qed.

Lemma hosts_loop hs : forall acc,
  Forall host_ok hs -> (length acc + length hs <= max_nodes)%nat -> parse_hosts_loop max_nodes max_name hs acc = Some (acc ++ hs).
Proof.
  induction hs as [|h hs IH]; intros acc Hh Hl; cbn [parse_hosts_loop]; [by rewrite app_nil_r|].
  inversion Hh as [|? ? Hok Hrest]; subst. rewrite trim_tight by apply Hok. destruct h as [|c r] eqn:Eh; [by destruct (host_tight _ Hok) as [(? & ? & ? & _) _]|].
  cbn [length] in Hl. rewrite (proj2 (Nat.leb_gt _ _)) by lia. assert (Hn := host_length _ Hok). rewrite (proj2 (Nat.leb_gt _ _)) by lia.
  rewrite IH by (done || (rewrite length_app; cbn; lia)). by rewrite <- app_assoc.
Qed.

Lemma parse_hosts_join hs :
  hs <> [] -> Forall host_ok hs -> (length hs <= max_nodes)%nat -> parse_hosts_list max_nodes max_name (join "," hs) = Some hs.
Proof.
  intros Hn Hh Hl. unfold parse_hosts_list. rewrite getlines_join.
  - rewrite hosts_loop by done. cbn [app]. by destruct hs.
  - eapply Forall_impl; [exact Hh|]. intros h Hok. split; [apply Hok|]. by destruct (host_tight _ Hok) as [(? & ? & -> & _) _].
Qed.

Lemma join_tight hs : hs <> [] -> Forall host_ok hs -> tight (join "," hs).
Proof.
  intros Hn Hh. induction Hh as [|h hs Hok Hrest IH]; [done|]. cbn [join]. destruct hs as [|h' hs]; [apply Hok|].
  destruct (IH ltac:(done)) as [_ (c' & r' & -> & Hc')]. destruct (host_tight _ Hok) as [(c & r & -> & Hc) _]. split.
  - by exists c, (r ++ ","%char :: r' ++ [c']).
  - exists c', ((c :: r) ++ ","%char :: r'). split; [|done]. by rewrite <- app_assoc.
Qed.
Lemma join_newline hs : Forall host_ok hs -> newline ∉ join "," hs.
Proof.
  induction 1 as [|h hs Hok Hrest IH]; [by apply not_elem_of_nil|]. cbn [join]. destruct hs as [|h' hs]; [apply Hok|].
  rewrite elem_of_app, elem_of_cons. intros [H|[H|H]]; [by apply (host_newline _ Hok)|done|done].
Qed.

Lemma decimal_tight n : 0 < n -> tight (decimal n) /\ newline ∉ decimal n.
Proof.
  intros Hn. destruct (decimal_spec n Hn) as [[Hne Hd] _]. split; [split|].
  - destruct (decimal n) as [|c r]; [done|]. exists c, r. split; [done|]. apply digit_not_space. by inversion Hd.
  - destruct (exists_last Hne) as (r & c & E). exists c, r. split; [done|]. apply digit_not_space. rewrite E in Hd.
    apply Forall_app in Hd as [_ Hd]. by inversion Hd.
  - intros Hin. by apply (proj1 (Forall_forall _ _) Hd) in Hin.
Qed.

Lemma entry_newline l1 l2 l3 l4 key value :
  blank l1 -> blank l2 -> blank l3 -> blank l4 -> newline ∉ key -> newline ∉ value -> newline ∉ entry l1 l2 l3 l4 key value.
Proof.
  intros [_ H1] [_ H2] [_ H3] [_ H4] Hk Hv. unfold entry. rewrite !elem_of_app, elem_of_cons, elem_of_app.
  intros [?|[[?|[?|[?|[?|?]]]]|?]]; done.
Qed.

(** A file for a size and hosts, with silent lines around the two entries, in either order. *)
Definition config_text (hosts_first : bool) (pads : bytes) (c1 c2 c3 : list bytes) (n : Z) (hs : list bytes) : bytes :=
  let e1 := entry pads pads pads pads (txt "request_size_mb") (decimal n) in
  let e2 := entry pads pads pads pads (txt "hosts") (join "," hs) in
  unlines newline (c1 ++ (if hosts_first then e2 else e1) :: c2 ++ (if hosts_first then e1 else e2) :: c3).

Lemma word_tight w : w = txt "request_size_mb" \/ w = txt "hosts" ->
  tight w /\ ("="%char ∉ w) /\ (newline ∉ w) /\ head w <> Some "#"%char.
Proof.
  assert (Hn : forall c (v : bytes), bool_decide (c ∈ v) = false -> c ∉ v) by (intros c v; apply bool_decide_eq_false).
  intros [->| ->]; (split; [split|split; [by apply Hn|split; [by apply Hn|done]]]).
  - by exists "r"%char, (txt "equest_size_mb").
  - by exists "b"%char, (txt "request_size_m").
  - by exists "h"%char, (txt "osts").
  - by exists "s"%char, (txt "host").
Qed.

Lemma size_line s pads n :
  spaces pads -> 0 < n < 2 ^ 64 ->
  load_line max_nodes max_name s (entry pads pads pads pads (txt "request_size_mb") (decimal n)) =
    inl (LoadState (mkConfig n (hosts (cfg_of s))) true (got_hosts s)).
Proof.
  intros Hp Hn. destruct (word_tight _ (or_introl eq_refl)) as (H1 & H2 & _ & H4). destruct (decimal_tight n) as [Hd _]; [lia|].
  rewrite entry_line, bool_decide_true, parse_size_decimal by done. done.
Qed.
Lemma hosts_line s pads hs :
  spaces pads -> hs <> [] -> Forall host_ok hs -> (length hs <= max_nodes)%nat ->
  load_line max_nodes max_name s (entry pads pads pads pads (txt "hosts") (join "," hs)) =
    inl (LoadState (mkConfig (request_size_mb (cfg_of s)) hs) (got_size s) true).
Proof.
  intros Hp Hne Hh Hl. destruct (word_tight _ (or_intror eq_refl)) as (H1 & H2 & _ & H4). assert (Hj := join_tight hs Hne Hh).
  rewrite entry_line, bool_decide_false, bool_decide_true, parse_hosts_join by done. done.
Qed.

(** C39: a configuration file is read back.  A file with the two entries in either order, spaces around the keys and the values, and
    any number of blank lines, comments and lines without an equals sign before, between and after them, is loaded as the size and
    the hosts it was written for, for every size of 1 up to 64 bits and every list of at most the maximal number of hosts with names of legal length. *)
Theorem config_roundtrip hosts_first pads c1 c2 c3 n hs :
  blank pads -> Forall silent c1 -> Forall silent c2 -> Forall silent c3 ->
  0 < n < 2 ^ 64 -> hs <> [] -> Forall host_ok hs -> (length hs <= max_nodes)%nat ->
  load_region_config max_nodes max_name (Some (config_text hosts_first pads c1 c2 c3 n hs)) = inl (mkConfig n hs).
Proof.
  intros Hp H1 H2 H3 Hn Hne Hh Hl. destruct (word_tight _ (or_introl eq_refl)) as (_ & _ & Hk & _).
  destruct (word_tight _ (or_intror eq_refl)) as (_ & _ & Hk' & _). destruct (decimal_tight n) as [_ Hd]; [lia|].
  assert (Hj := join_newline hs Hh). assert (Hps := proj1 Hp).
  assert (Hsil : forall c, Forall silent c -> Forall (fun l => newline ∉ l) c) by (intros c Hc; eapply Forall_impl; [exact Hc|by intros ? []]).
  unfold load_region_config, config_text. change ("010"%char) with newline. rewrite getlines_unlines.
  - rewrite silent_lines by done. rewrite <- (app_nil_r c3).
    destruct hosts_first; cbn [load_lines]; [rewrite hosts_line by done|rewrite size_line by done];
      rewrite silent_lines by done; cbn [load_lines]; [rewrite size_line by done|rewrite hosts_line by done];
      by rewrite silent_lines.
  - assert (He1 : newline ∉ entry pads pads pads pads (txt "request_size_mb") (decimal n)) by (by apply entry_newline).
    assert (He2 : newline ∉ entry pads pads pads pads (txt "hosts") (join "," hs)) by (by apply entry_newline).
    apply Forall_app; split; [by apply Hsil|]. constructor; [by destruct hosts_first|].
    apply Forall_app; split; [by apply Hsil|]. constructor; [by destruct hosts_first|by apply Hsil].
Qed.
End Config.

(** What a loaded configuration satisfies, whatever the file. *)
Record config_ok (max_nodes max_name : nat) (cfg : RegionConfig) : Prop := {
  ok_size : 0 < request_size_mb cfg < 2 ^ 64; ok_hosts : hosts cfg <> []; ok_count : (length (hosts cfg) <= max_nodes)%nat;
  ok_names : Forall (fun h => tight h /\ (length h < max_name)%nat) (hosts cfg) }.

Lemma parse_size_range v n : parse_size_mb v = Some n -> 0 < n < 2 ^ 64.
Proof.
  unfold parse_size_mb. destruct (strtoull (c_str v)) as [[p e] er] eqn:E.
  assert (Hp : 0 <= p).
  { revert E. unfold strtoull. destruct (match drop _ _ with [] => _ | _ => _ end) as [neg t]. destruct (take_while isdigit t) as [|c r] eqn:Et; intros [= <- _ _]; [done|].
    assert (Hd : forall ds v, Forall (fun c => isdigit c = true) ds -> 0 <= v -> 0 <= foldl (fun v c => v * 10 + (code c - 48)) v ds).
    { induction ds as [|d ds IH]; intros v0 Hds Hv0; cbn; [done|]. inversion Hds as [|? ? Hd Hr]; subst. apply IH; [done|]. apply digit_code in Hd. lia. }
    assert (Hall : Forall (fun c => isdigit c = true) (c :: r)).
    { rewrite <- Et. clear. induction t as [|d t IH]; cbn; [constructor|]. destruct (isdigit d) eqn:Hd; [by constructor|constructor]. }
    specialize (Hd _ 0 Hall ltac:(lia)). unfold digits_value. destruct (_ <=? _); [lia|]. destruct neg; [apply u64_bound|done]. }
  destruct (er || _ || _ || (p =? 0)) eqn:Eb; [done|]. rewrite !orb_false_iff in Eb. destruct Eb as [_ Hz].
  destruct (Z.ltb_spec (2 ^ 64 - 1) p); [done|]. intros [= <-]. bool_to_prop. lia.
Qed.

Lemma parse_hosts_valid max_nodes max_name ts : forall hs r,
  parse_hosts_loop max_nodes max_name ts hs = Some r -> (length hs <= max_nodes)%nat ->
  Forall (fun h => tight h /\ (length h < max_name)%nat) hs ->
  (length r <= max_nodes)%nat /\ Forall (fun h => tight h /\ (length h < max_name)%nat) r.
Proof.
  induction ts as [|t ts IH]; intros hs r; cbn [parse_hosts_loop]; [by intros [= <-]|].
  destruct (trim_split t) as (_ & _ & _ & _ & _ & Ht). destruct (trim t) as [|c h] eqn:E; [apply IH|].
  destruct (Nat.leb_spec max_nodes (length hs)); [done|]. destruct (Nat.leb_spec max_name (length (c :: h))); [done|].
  intros Hr Hl Hf. apply (IH _ _ Hr); [rewrite length_app; cbn; lia|]. apply Forall_app; split; [done|].
  constructor; [|constructor]. destruct Ht as [|Ht]; [done|]. split; [exact Ht|lia].
Qed.

Lemma loaded_valid max_nodes max_name file cfg : load_region_config max_nodes max_name file = inl cfg -> config_ok max_nodes max_name cfg.
Proof.
  unfold load_region_config. destruct file as [text|]; [|done].
  set (good := fun s : load_state => (got_size s = true -> 0 < request_size_mb (cfg_of s) < 2 ^ 64) /\
    (got_hosts s = true -> hosts (cfg_of s) <> [] /\ (length (hosts (cfg_of s)) <= max_nodes)%nat /\
       Forall (fun h => tight h /\ (length h < max_name)%nat) (hosts (cfg_of s)))).
  assert (Hline : forall s l s', good s -> load_line max_nodes max_name s l = inl s' -> good s').
  { intros s l s' [H1 H2]. unfold load_line. destruct (trim l) as [|c r]; [by intros [= <-]|]. destruct (Ascii.eqb c "#"); [by intros [= <-]|].
    destruct (split_at_eq _) as [[k v]|]; [|by intros [= <-]]. destruct (bool_decide _).
    { destruct (parse_size_mb (trim v)) as [n|] eqn:E; [|done]. intros [= <-]. split; [intros _; by eapply parse_size_range|exact H2]. }
    destruct (bool_decide _); [|by intros [= <-]]. destruct (parse_hosts_list _ _ _) as [hs|] eqn:E; [|done]. intros [= <-].
    split; [exact H1|]. intros _. cbn. revert E. unfold parse_hosts_list. destruct (parse_hosts_loop _ _ _ _) as [r'|] eqn:El; [|done].
    destruct r' as [|h0 r']; [done|]. intros [= <-]. split; [done|]. by eapply parse_hosts_valid; [exact El|cbn; lia|constructor]. }
  assert (Hlines : forall ls s s', good s -> load_lines max_nodes max_name s ls = inl s' -> good s').
  { induction ls as [|l ls IH]; intros s s' Hs; cbn [load_lines]; [by intros [= <-]|]. destruct (load_line _ _ s l) eqn:E; [|done].
    apply IH. by eapply Hline. }
  destruct (load_lines _ _ _ _) as [s|r] eqn:E; [|done]. assert (Hg : good s) by (eapply Hlines; [|exact E]; by split).
  destruct (got_size s) eqn:E1, (got_hosts s) eqn:E2; cbn [negb]; try done. intros [= <-]. destruct Hg as [H1 H2].
  destruct (H2 E2) as (? & ? & ?). by split; [apply H1|..].
Qed.

(** ** The attributes of the region *)

Lemma take_while_keeps (f : ascii -> bool) v : Forall (fun c => f c = true) (take_while f v).
Proof. induction v as [|c v IH]; cbn; [constructor|]. destruct (f c) eqn:E; [by constructor|constructor]. Qed.
Lemma take_while_le (f : ascii -> bool) v : (length (take_while f v) <= length v)%nat.
Proof. induction v as [|c v IH]; cbn; [lia|]. destruct (f c); cbn; lia. Qed.

(** The service reads the C string of the host. *)
Lemma copied_name size h n : copy_host_name size h = Some n -> length n = size /\ c_str n = c_str h.
Proof.
  unfold copy_host_name. destruct (Nat.leb_spec size (length (c_str h))) as [|Hl]; [done|]. intros [= <-]. rewrite length_app, length_replicate.
  split; [lia|]. replace (size - length (c_str h))%nat with (S (size - S (length (c_str h)))) by lia. cbn [replicate].
  apply take_while_stop; [apply take_while_keeps|done].
Qed.

(** A region host that describes [h]. *)
Definition describes (size : nat) (target h : bytes) (e : region_host) : Prop :=
  length (host_name e) = size /\ c_str (host_name e) = c_str h /\ (affinity e = true <-> h = target).

Lemma hosts_copied size target hs :
  Forall (fun h => (length h < size)%nat) hs -> exists l, copy_hosts size target hs = Some l /\ Forall2 (describes size target) hs l.
Proof.
  induction 1 as [|h hs Hh _ (l & Hl & H2)]; [by exists []|]. cbn [copy_hosts]. assert (Hc : (length (c_str h) <= length h)%nat) by apply take_while_le.
  destruct (copy_host_name size h) as [n|] eqn:E.
  2:{ revert E. unfold copy_host_name. destruct (Nat.leb_spec size (length (c_str h))); [lia|done]. }
  rewrite Hl. eexists. split; [reflexivity|]. constructor; [|exact H2]. destruct (copied_name _ _ _ E) as [H1 H3].
  split; [exact H1|]. split; [exact H3|]. apply bool_decide_eq_true.
Qed.

(** C18: what the tool makes of a configuration file, whatever the file.  A configuration that is loaded has a size of at least one megabyte that fits 64
    bits, and at least one and at most the allowed number of hosts, each not empty, without spaces at its ends and shorter than the
    limit.  For a target that is one of them the attributes of the region are built: they count the hosts, and the i-th entry has an
    array of the declared size that the service reads as the i-th host, with the affinity set exactly for the entries of the
    target.  For any other target they are refused.  (The array is at least as large as the limit of the names.) *)
Theorem loaded_region_attributes max_nodes max_name name_size file cfg :
  load_region_config max_nodes max_name file = inl cfg -> (max_name <= name_size)%nat -> Z.of_nat max_nodes < 2 ^ 31 ->
  config_ok max_nodes max_name cfg /\
  (forall target, target ∈ hosts cfg -> exists attr,
     build_region_attr_from_config name_size cfg target = Some attr /\ host_num attr = Z.of_nat (length (hosts cfg)) /\
     Forall2 (describes name_size target) (hosts cfg) (attr_hosts attr)) /\
  (forall target, ~ target ∈ hosts cfg -> build_region_attr_from_config name_size cfg target = None).
Proof.
  intros Hc Hn Hm. assert (Hok := loaded_valid _ _ _ _ Hc). split; [exact Hok|]. destruct Hok as [_ Hne Hcount Hnames].
  split; intros target Ht; unfold build_region_attr_from_config, has_host; rewrite (bool_decide_false (hosts cfg = [])) by done.
  - rewrite (bool_decide_true (target ∈ hosts cfg)) by done. rewrite (bool_decide_false (target = [])).
    2:{ intros ->. rewrite Forall_forall in Hnames. destruct (Hnames _ Ht) as [[(c & r & E & _) _] _]. done. }
    destruct (hosts_copied name_size target (hosts cfg)) as (l & -> & H2).
    { eapply Forall_impl; [exact Hnames|]. cbn. intros h [_ ?]. lia. }
    eexists. split; [reflexivity|]. split; [|exact H2]. apply i32_small. lia.
  - rewrite (bool_decide_false (target ∈ hosts cfg)) by done. by rewrite orb_true_r.
Qed.

(** * The calls of the service *)

Section Calls.
Context (max_region max_nodes max_name name_size : nat) (api : list ubsm_call -> ubsm_call -> Z) (UBSM_OK shm_flags : Z).

Definition no_nul (v : bytes) : Prop := Forall (fun c => is_char 0 c = false) v.

Lemma c_str_all v : no_nul v -> c_str v = v.
Proof. intros Hv. apply take_while_all. eapply Forall_impl; [exact Hv|]. intros c ->. done. Qed.
(** The service sees the value of an array that was filled. *)
Lemma fill_c_str v n b : no_nul v -> fill_api_buffer v n = Some b -> c_str b = v /\ length b = n.
Proof.
  intros Hv. unfold fill_api_buffer. destruct v as [|c r]; [done|]. destruct (Nat.leb_spec n (length (c :: r))) as [|Hl]; [done|].
  intros E. injection E as <-. rewrite app_comm_cons. cbn [length] in *. split; [|rewrite length_app, length_replicate; cbn [length]; lia].
  replace (n - S (length r))%nat with (S (n - S (S (length r)))) by lia. cbn [replicate].
  apply take_while_stop; [|done]. eapply Forall_impl; [exact Hv|]. intros d ->. done.
Qed.

Definition region_name (target : bytes) : bytes := target ++ txt "_affinity".
Definition region_calls (cfg : RegionConfig) (target : bytes) : list ubsm_call :=
  let lookup := ubsmem_lookup_region (region_name target) in
  lookup :: (if api [ubsmem_init_attributes; ubsmem_initialize] lookup =? 0 then []
             else match build_region_attr_from_config name_size cfg target with
                  | Some attr => [ubsmem_create_region (region_name target) 0 attr]
                  | None => []
                  end).
Definition memory_call (operation target shm : bytes) (cfg : RegionConfig) : ubsm_call :=
  if bool_decide (operation = txt "delete") then ubsmem_shmem_deallocate shm
  else ubsmem_shmem_allocate (region_name target) shm (request_size_mb cfg * 2 ^ 20) 511 shm_flags.
Definition plan (operation target shm : bytes) (cfg : RegionConfig) : list ubsm_call :=
  ubsmem_init_attributes :: ubsmem_initialize :: region_calls cfg target ++ [memory_call operation target shm cfg].

(** The calls whose value ends the tool when it is not success: all but the lookup. *)
Definition accepts (before : list ubsm_call) (c : ubsm_call) : bool :=
  match c with
  | ubsmem_lookup_region _ => true
  | ubsmem_init_attributes | ubsmem_initialize => api before c =? UBSM_OK
  | _ => api before c =? 0
  end.
Fixpoint all_accepted (before h : list ubsm_call) : bool :=
  match h with [] => true | c :: r => accepts before c && all_accepted (before ++ [c]) r end.

Definition command_ok (operation shm : bytes) : bool :=
  (bool_decide (operation = txt "create") || bool_decide (operation = txt "delete")) &&
  (0 <? length shm)%nat && (length shm <? kShmNameMax)%nat.

Lemma size_product n : n <= (2 ^ 64 - 1) / kBytesPerMb -> 0 <= n -> u64 (n * kBytesPerMb) = n * 2 ^ 20.
Proof.
  intros Hn H0. change kBytesPerMb with (2 ^ 20) in *. apply u64_small.
  assert (n <= 17592186044415) by (by change ((2 ^ 64 - 1) / 2 ^ 20) with 17592186044415 in Hn). lia.
Qed.

Abbreviation tool := (main max_region max_nodes max_name name_size api UBSM_OK shm_flags).
(** How a session ends that has made the calls [h]. *)
Definition ended (operation target shm : bytes) (cfg : RegionConfig) (ok : bool) (h : list ubsm_call) : Prop :=
  h `prefix_of` plan operation target shm cfg /\ (ok = true <-> h = plan operation target shm cfg /\ all_accepted [] h = true).

Lemma ended_early operation target shm cfg h r :
  r <> [] -> plan operation target shm cfg = h ++ r -> ended operation target shm cfg false h.
Proof.
  intros Hr Hp. split; [by exists r|]. split; [done|]. intros [He _]. destruct Hr. rewrite Hp in He.
  by apply (app_inv_head h); rewrite app_nil_r.
Qed.
Lemma all_accepted_app h : forall before c,
  all_accepted before (h ++ [c]) = all_accepted before h && accepts (before ++ h) c.
Proof.
  induction h as [|d h IH]; intros before c; cbn [app all_accepted]; [by rewrite app_nil_r, andb_true_r|].
  rewrite IH, <- app_assoc, andb_assoc. done.
Qed.

Lemma ended_last operation target shm cfg h c :
  h ++ [c] = plan operation target shm cfg -> all_accepted [] h = true -> accepts h c = (api h c =? 0) ->
  ended operation target shm cfg (api h c =? 0) (h ++ [c]).
Proof.
  intros Hp Ha Hc. unfold ended. rewrite <- Hp, all_accepted_app, Ha. cbn [andb app]. rewrite Hc. split; [done|]. split; [done|by intros []].
Qed.

(** The last call. *)
Lemma memory_end operation target shm cfg h g_region g_shm :
  (operation = txt "create" \/ operation = txt "delete") -> c_str g_region = region_name target -> c_str g_shm = shm ->
  0 <= request_size_mb cfg -> h ++ [memory_call operation target shm cfg] = plan operation target shm cfg -> all_accepted [] h = true ->
  let '(ok, h') := (if bool_decide (operation = txt "delete")
    then andthen (delete_shared_memory api g_shm) (fun r => ret (r =? 0))
    else andthen (create_shared_memory api shm_flags g_region g_shm (request_size_mb cfg)) (fun r => ret (r =? 0))) h in
  ended operation target shm cfg ok h'.
Proof.
  intros Hop Hg Hs H0 Hp Ha. unfold memory_call in Hp. destruct (bool_decide (operation = txt "delete")) eqn:Ed.
  - unfold delete_shared_memory, andthen, call. rewrite Hs.
    assert (He := ended_last operation target shm cfg h _ Hp Ha eq_refl). destruct (api h _ =? 0); exact He.
  - unfold create_shared_memory, andthen, call. destruct (Z.ltb_spec ((2 ^ 64 - 1) / kBytesPerMb) (request_size_mb cfg)) as [Hl|Hl].
    { cbn. eapply ended_early; [|symmetry; exact Hp]. done. }
    rewrite Hs, Hg, size_product by done. change kShmPermission with 511.
    assert (He := ended_last operation target shm cfg h _ Hp Ha eq_refl). destruct (api h _ =? 0); exact He.
Qed.

Lemma prepared cfg target g : no_nul target -> prepare_region_name max_region cfg target = inl g -> c_str g = region_name target.
Proof.
  intros Ht. unfold prepare_region_name. destruct (negb (has_host cfg target)); [done|].
  destruct (fill_api_buffer _ _) as [b|] eqn:E; [|done]. intros [= <-]. eapply fill_c_str; [|exact E].
  apply Forall_app; split; [done|]. repeat constructor.
Qed.

(** The session after the service is initialised. *)
Lemma region_end operation target shm cfg g_shm :
  (operation = txt "create" \/ operation = txt "delete") -> no_nul target -> c_str g_shm = shm -> 0 <= request_size_mb cfg ->
  all_accepted [] [ubsmem_init_attributes; ubsmem_initialize] = true ->
  let '(ok, h) := andthen (create_shared_region max_region name_size api cfg target) (fun r =>
      match r with
      | inr _ => ret false
      | inl g_region_name =>
          if bool_decide (operation = txt "delete") then andthen (delete_shared_memory api g_shm) (fun r => ret (r =? 0))
          else andthen (create_shared_memory api shm_flags g_region_name g_shm (request_size_mb cfg)) (fun r => ret (r =? 0))
      end) [ubsmem_init_attributes; ubsmem_initialize] in
  ended operation target shm cfg ok h.
Proof.
  intros Hop Ht Hs H0 Ha. unfold andthen at 1, create_shared_region. destruct (prepare_region_name _ _ _) as [g|r] eqn:Eg.
  2:{ cbn. by eapply ended_early; [|unfold plan, region_calls; reflexivity]. }
  assert (Hg := prepared _ _ _ Ht Eg). rewrite Hg. unfold andthen at 1, call at 1.
  set (lookup := ubsmem_lookup_region (region_name target)).
  set (h2 := [ubsmem_init_attributes; ubsmem_initialize]).
  assert (Hplan : forall rest, region_calls cfg target = lookup :: rest ->
    plan operation target shm cfg = (h2 ++ [lookup]) ++ rest ++ [memory_call operation target shm cfg]).
  { intros rest E. unfold plan. by rewrite E. }
  unfold region_calls in Hplan. fold lookup h2 in Hplan.
  assert (Ha1 : all_accepted [] (h2 ++ [lookup]) = true) by (rewrite all_accepted_app; unfold h2; by rewrite Ha).
  destruct (api h2 lookup =? 0) eqn:El.
  { cbn [ret]. apply memory_end; [done..| |done]. symmetry. by apply (Hplan []). }
  destruct (build_region_attr_from_config name_size cfg target) as [attr|] eqn:Eb.
  2:{ cbn. eapply ended_early; [|by apply (Hplan [])]. done. }
  specialize (Hplan _ eq_refl). unfold andthen at 1, call at 1.
  destruct (api (h2 ++ [lookup]) (ubsmem_create_region (region_name target) 0 attr) =? 0) eqn:Ec; cbn [negb].
  - cbn [ret]. apply memory_end; [done..| |]; [by rewrite Hplan, <- app_assoc|]. rewrite all_accepted_app, Ha1. exact Ec.
  - cbn. eapply ended_early; [|rewrite Hplan, app_assoc; reflexivity]. done.
Qed.

(** C38: the tool calls the service in a fixed order and reports success only when every call it needs has succeeded.
    A wrong number of arguments, another operation than create or delete, an empty or overlong name, and a
    configuration that cannot be loaded are refused before the first call.  Otherwise the calls are a prefix of a plan: the two calls that initialise the service, the
    lookup of the region named after the host, the creation of the region with the configured hosts when the lookup has failed, and one call that allocates the configured number of
    megabytes, in bytes that do not overflow 64 bits, or frees the object.  EXIT_SUCCESS is returned
    exactly when the whole plan has been carried out and every call but the lookup has succeeded. *)
Theorem creator_calls args file :
  Forall no_nul args ->
  let '(ok, h) := tool args file [] in
  match args, load_region_config max_nodes max_name file with
  | [operation; target; shm], inl cfg =>
      if command_ok operation shm then ended operation target shm cfg ok h else ok = false /\ h = []
  | _, _ => ok = false /\ h = []
  end.
Proof.
  intros Hn. unfold main. destruct args as [|operation [|target [|shm [|? ?]]]]; try done.
  inversion Hn as [|? ? _ Hn1]; subst. inversion Hn1 as [|? ? Ht Hn2]; subst. inversion Hn2 as [|? ? Hs _]; subst.
  unfold command_ok. rewrite <- negb_orb.
  destruct (bool_decide (operation = txt "create") || bool_decide (operation = txt "delete")) eqn:Eop; cbn [negb andb].
  2:{ by destruct (load_region_config _ _ _). }
  assert (Hop : operation = txt "create" \/ operation = txt "delete") by (apply orb_true_iff in Eop as [E|E]; apply bool_decide_eq_true in E; auto).
  assert (Hfill : (0 <? length shm)%nat && (length shm <? kShmNameMax)%nat = bool_decide (is_Some (fill_api_buffer shm kShmNameMax))).
  { unfold fill_api_buffer. destruct shm as [|c r]; [done|]. destruct (Nat.leb_spec kShmNameMax (length (c :: r))) as [Hl|Hl].
    - rewrite (proj2 (Nat.ltb_ge (length (c :: r)) kShmNameMax)) by lia. by rewrite andb_false_r, bool_decide_false by (by intros []).
    - rewrite (proj2 (Nat.ltb_lt (length (c :: r)) kShmNameMax)) by lia. by rewrite bool_decide_true by (by eexists). }
  rewrite Hfill. destruct (fill_api_buffer shm kShmNameMax) as [g_shm|] eqn:Eg.
  2:{ rewrite (bool_decide_false (is_Some None)) by (by intros []). by destruct (load_region_config _ _ _). }
  rewrite (bool_decide_true (is_Some (Some g_shm))) by (by eexists). destruct (fill_c_str _ _ _ Hs Eg) as [Hg _].
  destruct (load_region_config max_nodes max_name file) as [cfg|r] eqn:El; [|done].
  assert (Hsize := ok_size _ _ _ (loaded_valid _ _ _ _ El)).
  unfold init_ubsm. unfold andthen at 1 2, call at 1.
  destruct (api [] ubsmem_init_attributes =? UBSM_OK) eqn:E1; cbn [negb]; [|by eapply ended_early; [|unfold plan; reflexivity]].
  unfold andthen at 1, call at 1.
  destruct (api ([] ++ [ubsmem_init_attributes]) ubsmem_initialize =? UBSM_OK) eqn:E2; cbn [negb]; [|by eapply ended_early; [|unfold plan; reflexivity]].
  apply region_end; [done..|lia|]. cbn in *. by rewrite E1, E2.
Qed.
End Calls.

(** * Examples *)

(** The file of the repository, with a comment. *)
Definition sample_file : bytes :=
  config_text false [] [txt "# region"] [] [] 1024 [txt "computer01"; txt "computer02"].

Lemma loaded_region_attributes_witness :
  exists attr, build_region_attr_from_config 64 (mkConfig 1024 [txt "computer01"; txt "computer02"]) (txt "computer02") = Some attr /\
    host_num attr = 2 /\ Forall2 (describes 64 (txt "computer02")) [txt "computer01"; txt "computer02"] (attr_hosts attr).
Proof.
  assert (Hl : load_region_config 16 64 (Some sample_file) = inl (mkConfig 1024 [txt "computer01"; txt "computer02"])) by (vm_compute; reflexivity).
  apply (proj1 (proj2 (loaded_region_attributes 16 64 64 (Some sample_file) _ Hl (le_n 64) ltac:(lia)))).
  right. left.
Defined.

Lemma config_roundtrip_witness :
  load_region_config 16 64 (Some sample_file) = inl (mkConfig 1024 [txt "computer01"; txt "computer02"]).
Proof.
  assert (Hin : forall c (v : bytes), bool_decide (c ∈ v) = false -> c ∉ v) by (intros c v; apply bool_decide_eq_false).
  apply (config_roundtrip 16 64 false [] [txt "# region"] [] [] 1024 [txt "computer01"; txt "computer02"]).
  - split; [constructor|by apply Hin].
  - constructor; [|constructor]. split; [by apply Hin|]. right; left. by exists (txt " region").
  - constructor.
  - constructor.
  - lia.
  - done.
  - repeat constructor; try (by apply Hin); try (cbn; lia).
    + by exists "c"%char, (txt "omputer01").
    + by exists "1"%char, (txt "computer0").
    + by exists "c"%char, (txt "omputer02").
    + by exists "2"%char, (txt "computer0").
  - cbn. lia.
Defined.

(** A service that has no region yet. *)
Definition empty_service (_ : list ubsm_call) (c : ubsm_call) : Z := match c with ubsmem_lookup_region _ => -1 | _ => 0 end.
Definition sample_tool (operation : bytes) : bool * list ubsm_call :=
  main 48 16 64 64 empty_service 0 3 [operation; txt "computer01"; txt "shm_ub_lock"] (Some sample_file) [].

Lemma creator_calls_witness :
  ended 64 empty_service 0 3 (txt "create") (txt "computer01") (txt "shm_ub_lock") (mkConfig 1024 [txt "computer01"; txt "computer02"])
    (sample_tool (txt "create")).1 (sample_tool (txt "create")).2.
Proof.
  refine (creator_calls 48 16 64 64 empty_service 0 3 [txt "create"; txt "computer01"; txt "shm_ub_lock"] (Some sample_file) _).
  repeat constructor.
Defined.

(** The region is created, then the gigabyte is allocated in it. *)
Example sample_create :
  (sample_tool (txt "create")).1 = true /\ length (sample_tool (txt "create")).2 = 5%nat /\
  last (sample_tool (txt "create")).2 = Some (ubsmem_shmem_allocate (txt "computer01_affinity") (txt "shm_ub_lock") 1073741824 511 3).
Proof. by vm_compute. Qed.

(** Deleting creates the region when there is none, before it asks to free an object that cannot be in it. *)
Lemma delete_creates_region :
  exists attr, In (ubsmem_create_region (txt "computer01_affinity") 0 attr) (sample_tool (txt "delete")).2.
Proof. eexists. vm_compute. do 3 right. left. reflexivity. Qed.

(** A negative size is read as a positive one, as [strtoull] negates it in 64 bits. *)
Lemma negative_size_accepted : parse_size_mb (txt "-18446744073709551615") = Some 1 /\ parse_size_mb (txt "-1") = Some (2 ^ 64 - 1).
Proof. by vm_compute. Qed.
