(* ===== verification/PingPong.v ===== *)
(** The ping-pong program on the communication queue (sample_code/ub_comm_queue/pingpong.cpp).

    Two processes exchange numbered messages: the threads of node A ([ping_worker]) send pings and wait for the answers; node B answers each
    ping in its handler ([on_ping_msg]); the handler of A ([on_pong_msg]) stores the measured times, marks the number as answered and counts.
    The options, the sizes of the rings and the exchange are modelled.  The exchange is a relation [pp_step] between states: the atomic steps of the
    threads of A and of the two dispatchers interleave arbitrarily; a ring is a queue that takes a message while it has room, as the queue the two processes
    use does.  A send that fails, for whatever reason, and a look at a mark that is not set are repeated and change nothing of the program's state: they are
    the rounds [in_vain] of an [execution].  The clock of each step is arbitrary but that of A does not run backwards.
    [pingpong_completes] says that an exchange makes progress until it is over, and that every message is then answered; [pingpong_rings_fit] that the rings fit their regions. *)

From stdpp Require Import strings sorting.
From S2P Require Import Prelude Atomic CommTypes MPSCRing Transport TransportInit ShmCreator.
Import UBShmTransport.

#[local] Open Scope Z_scope.

(** * Options *)

Definition RING_CAPACITY : Z := 1024.
Definition HEADER_SIZE : Z := 16.
Definition PINGPONG_MSG_SIZE : Z := 48.
Definition TYPE_PING : Z := 100.
Definition TYPE_PONG : Z := 101.
Definition NodeA : Z := 0.
Definition NodeB : Z := 1.

Inductive Role : Set := ROLE_A | ROLE_B.
Definition role_eqb (a b : Role) : bool := match a, b with ROLE_A, ROLE_A | ROLE_B, ROLE_B => true | _, _ => false end.

Record options : Type := Options {
  g_role : Role; g_role_set : bool; g_cpu_id : Z; g_msg_size : Z; g_msg_count : Z; g_thread_num : Z; g_print_detail_num : Z;
  g_warmup_drop : Z; g_interval_us : Z; g_expect : Z; g_expect_set : bool; kNode0ShmName : bytes; kNode1ShmName : bytes }.
Definition default_options : options :=
  Options ROLE_A false (-1) 64 10000 1 20 1 0 0 false (txt "shm_node0_export") (txt "shm_node1_export").

(** What [getopt_long] returns, one option after the other, with its argument. *)
Inductive popt : Type :=
| opt_R (arg : bytes) | opt_C (arg : bytes) | opt_M (arg : bytes) | opt_n (arg : bytes) | opt_t (arg : bytes) | opt_d (arg : bytes)
| opt_w (arg : bytes) | opt_i (arg : bytes) | opt_0 (arg : bytes) | opt_1 (arg : bytes) | opt_h | opt_other.

(** [atoi]: the value [strtol] finds, as an [int]. *)
Definition atoi (s : bytes) : Z :=
  let t := drop (length (take_while isspace s)) s in
  let '(neg, t') := match t with
                    | c :: r => if is_char 45 c then (true, r) else if is_char 43 c then (false, r) else (false, t)
                    | [] => (false, t)
                    end in
  let v := digits_value (take_while isdigit t') in
  i32 (if neg then Z.max (- v) (- 2 ^ 63) else Z.min v (2 ^ 63 - 1)).
Definition strtoull_value (s : bytes) : Z := (strtoull s).1.1.

(** The next options, or the value [main] returns. *)
Definition parse_option (o : options) (p : popt) : options + Z :=
  let '(Options role set cpu size n t d w i e es n0 n1) := o in
  match p with
  | opt_R a => if bool_decide (a = txt "A") then inl (Options ROLE_A true cpu size n t d w i e es n0 n1)
               else if bool_decide (a = txt "B") then inl (Options ROLE_B true cpu size n t d w i e es n0 n1) else inr (-1)
  | opt_C a => inl (Options role set (atoi a) size n t d w i e es n0 n1)
  | opt_M a => inl (Options role set cpu (strtoull_value a) n t d w i e es n0 n1)
  | opt_n a => inl (Options role set cpu size (strtoull_value a) t d w i e true n0 n1)
  | opt_t a => inl (Options role set cpu size n (atoi a) d w i e es n0 n1)
  | opt_d a => inl (Options role set cpu size n t (atoi a) w i e es n0 n1)
  | opt_w a => inl (Options role set cpu size n t d (atoi a) i e es n0 n1)
  | opt_i a => inl (Options role set cpu size n t d w (atoi a) e es n0 n1)
  | opt_0 a => inl (Options role set cpu size n t d w i e es (take 63 (c_str a)) n1)
  | opt_1 a => inl (Options role set cpu size n t d w i e es n0 (take 63 (c_str a)))
  | opt_h => inr 0
  | opt_other => inr (-1)
  end.
Fixpoint parse_options (o : options) (ps : list popt) : options + Z :=
  match ps with [] => inl o | p :: ps' => match parse_option o p with inl o' => parse_options o' ps' | inr r => inr r end end.

(** The checks after the options. *)
Definition settle (o : options) : options + Z :=
  let '(Options role set cpu size n t d w i e es n0 n1) := o in
  if negb set then inr (-1)
  else if negb (size =? 64) && negb (size =? 4096) && negb (size =? 8192) then inr (-1)
  else if size <? HEADER_SIZE + PINGPONG_MSG_SIZE then inr (-1)
  else
    let cpu' := if cpu <? 0 then 4 else cpu in
    let e' := if role_eqb role ROLE_B then (if es then n else 0) else e in
    if role_eqb role ROLE_A
    then inl (Options role set cpu' size n (if t <=? 0 then 1 else t) (if d <? 0 then 0 else d) (if w <? 0 then 0 else w) i e' es n0 n1)
    else inl (Options role set cpu' size n t d w i e' es n0 n1).

Definition body_length_from_msg_size (msg_size : Z) : Z := u32 (msg_size - HEADER_SIZE).

(** * The regions *)

Definition init_size : Z := 1024 * 1024.
Definition ring_size (o : options) : Z := Z.max 1900800 (RING_CAPACITY * g_msg_size o * 2).
Definition ring_desc (o : options) : ub_ring_desc_t := RingDesc (u32 RING_CAPACITY) (u32 (g_msg_size o)) 1.
Definition comm_conf (o : options) : ub_comm_conf_t :=
  Conf (g_cpu_id o) 2 (match g_role o with ROLE_A => NodeA | ROLE_B => NodeB end) 1 (Some [ring_desc o]).
Definition init_area (node0_shm_base : Z) : ub_shm_area_t := Area init_size node0_shm_base.
Definition ring_map (o : options) (node0_shm_base node1_shm_base : Z) : ub_ring_region_map_t :=
  RegionMap (Some [RegionInfo (Area (ring_size o) (node0_shm_base + init_size)) NodeA; RegionInfo (Area (ring_size o) node1_shm_base) NodeB]) 2.

Lemma settled_size o o' : settle o = inl o' -> g_msg_size o' = 64 \/ g_msg_size o' = 4096 \/ g_msg_size o' = 8192.
Proof.
  destruct o as [role set cpu size n t d w i e es n0 n1]. unfold settle. destruct set; [|done]. cbn [negb].
  destruct (negb (size =? 64) && negb (size =? 4096) && negb (size =? 8192)) eqn:E; [done|]. destruct (_ <? _); [done|].
  assert (size = 64 \/ size = 4096 \/ size = 8192).
  { destruct (Z.eqb_spec size 64), (Z.eqb_spec size 4096), (Z.eqb_spec size 8192); auto. done. }
  by destruct role; intros [= <-].
Qed.

(** What the program starts from when its options are accepted: every message has room for the times, the role was given,
    there is a thread, and the counts are not negative. *)
Lemma settled_options o o' :
  settle o = inl o' ->
  g_role_set o' = true /\ PINGPONG_MSG_SIZE <= body_length_from_msg_size (g_msg_size o') /\
  body_length_from_msg_size (g_msg_size o') = g_msg_size o' - HEADER_SIZE /\
  0 <= g_cpu_id o' /\ (g_role o' = ROLE_A -> 1 <= g_thread_num o' /\ 0 <= g_print_detail_num o' /\ 0 <= g_warmup_drop o').
Proof.
  intros H. assert (Hs := settled_size _ _ H).
  assert (Hb : PINGPONG_MSG_SIZE <= body_length_from_msg_size (g_msg_size o') /\
    body_length_from_msg_size (g_msg_size o') = g_msg_size o' - HEADER_SIZE) by (destruct Hs as [->|[->| ->]]; by vm_compute).
  destruct Hb as [Hb1 Hb2]. cut (g_role_set o' = true /\ 0 <= g_cpu_id o' /\
    (g_role o' = ROLE_A -> 1 <= g_thread_num o' /\ 0 <= g_print_detail_num o' /\ 0 <= g_warmup_drop o')); [tauto|]. clear Hs Hb1 Hb2.
  revert H. destruct o as [role set cpu size n t d w i e es n0 n1]. unfold settle. destruct set; [|done]. cbn [negb].
  destruct (negb _ && _ && _); [done|]. destruct (_ <? _); [done|].
  destruct role; intros [= <-]; cbn; (split; [done|]).
  - destruct (Z.ltb_spec cpu 0), (Z.leb_spec t 0), (Z.ltb_spec d 0), (Z.ltb_spec w 0); split; lia.
  - destruct (Z.ltb_spec cpu 0); (split; [lia|done]).
Qed.

(** The bytes the two rings of a process take, wherever the region starts. *)
Lemma rings_take o base :
  g_msg_size o = 64 \/ g_msg_size o = 4096 \/ g_msg_size o = 8192 -> 0 <= base < 2 ^ 63 ->
  exists t, reserve_all [ring_desc o] (reserve (0, base) LOCK_RING_CAPACITY LOCK_RING_MSG_SIZE) = Some t /\ t.1 <= ring_size o.
Proof.
  intros Hs Hb. unfold reserve_all.
  assert (Hd : desc_valid (ring_desc o) = true) by (unfold ring_desc; by destruct Hs as [->|[->| ->]]). rewrite Hd.
  eexists. split; [reflexivity|]. unfold reserve. cbn [fst snd].
  set (p1 := pad_to_line base). set (l := CalculateMemorySize LOCK_RING_CAPACITY LOCK_RING_MSG_SIZE).
  set (p2 := pad_to_line _). set (u := CalculateMemorySize _ _).
  assert (Hp1 : 0 <= p1 < 64) by apply pad_range. assert (Hp2 : 0 <= p2 < 64) by apply pad_range.
  assert (Hl : l = 786624) by reflexivity.
  assert (Hu : u = 131264 /\ ring_size o = 1900800 \/ u = 4260032 /\ ring_size o = 8388608 \/ u = 8454336 /\ ring_size o = 16777216).
  { unfold u, ring_desc, ring_size. destruct Hs as [->|[->| ->]]; [left|right; left|right; right]; by vm_compute. }
  rewrite !(u64_small (0 + _)), !(u64_small (p1 + l)), !(u64_small (p2 + u)), u64_small; rewrite ?(u64_small (p1 + l)) by lia; lia.
Qed.

(** The state of the transport after the map of regions has been read. *)
Lemma regions_built o b0 b1 env w :
  conf_ (t_cfg (obj w)) = comm_conf o ->
  exists w', run (check build_node_mapping (ring_map o b0 b1); build_region_bases (ring_map o b0 b1)) env w = (Some (Code 0), env, w') /\
    conf_ (t_cfg (obj w')) = comm_conf o /\
    ring_region_ptr_ (t_cfg (obj w')) = (match g_role o with ROLE_A => b0 + init_size | ROLE_B => b1 end) /\
    getZ 0 (region_sizes_ (t_cfg (obj w'))) (compact_index (t_cfg (obj w')) (current_node_id (comm_conf o))) = ring_size o.
Proof.
  intros Hc. rewrite run_check. unfold build_node_mapping. change (collect_ids (map_regions (ring_map o b0 b1)) []) with (Some [0; 1]).
  cbv iota. rewrite run_get. cbn [lget l_cfg]. rewrite Hc. cbn [max_nodes comm_conf length Z.of_nat].
  change ((MAX_NODES_LIMIT <? _) || _) with false. cbv iota. rewrite run_upd, run_get.
  destruct w as [s th [[cf ir rr cp ni il rb rs] lo ru re] tls al]. cbn in Hc. subst cf.
  assert (Hk : forall k, k = 0 \/ k = 1 -> index_map [0; 1] !! k = Some k) by (intros k [->| ->]; vm_compute; reflexivity).
  cbn [lget lset l_cfg t_cfg obj node_id_to_idx_ with_mapping current_node_id comm_conf].
  rewrite Hk by (destruct (g_role o); auto). cbn [is_Some bool_decide]. rewrite bool_decide_true by (by eexists).
  cbn [run]. unfold build_region_bases. rewrite run_upd. cbn [run]. cbv iota.
  eexists. split; [reflexivity|]. split; [reflexivity|].
  cbn [lget lset l_cfg t_cfg obj with_regions with_mapping ring_region_ptr_ region_sizes_ node_id_to_idx_ conf_ comm_conf current_node_id].
  unfold region_tables, compact_index. cbn [map_regions ring_map default from_option foldl region_node node_id_to_idx_ with_mapping].
  destruct o as [[|] ? ? ? ? ? ? ? ? ? ? ? ?]; (split; reflexivity).
Qed.

(** C37: the ring regions the program lays out are accepted by the queue.  For the three message sizes it allows, at both nodes and wherever the two shared memories are mapped, the
    configuration it passes is valid, the map of regions is read, and the built-in lock ring and the ring of 1024 messages fit the region of the node; the
    header and the record with the times fit a message, and the regions lie inside the mapping of 1024 MB without overlapping the initialisation area. *)
Theorem pingpong_rings_fit o o' b0 b1 env w :
  settle o = inl o' -> 0 < b0 < 2 ^ 62 -> 0 < b1 < 2 ^ 62 -> conf_ (t_cfg (obj w)) = comm_conf o' ->
  config_valid (init_area b0) (ring_map o' b0 b1) (comm_conf o') = true /\
  (exists w', run (check build_node_mapping (ring_map o' b0 b1); check build_region_bases (ring_map o' b0 b1);
                   check_memory_capacity (init_area b0)) env w = (Some (Code UB_COMM_OK), env, w')) /\
  HEADER_SIZE + PINGPONG_MSG_SIZE <= ring_max_msg_size (ring_desc o') /\
  SIZEOF_BILLBOARD <= init_size /\ init_size + ring_size o' <= 1024 * 2 ^ 20.
Proof.
  intros Hs Hb0 Hb1 Hc. assert (Hz := settled_size _ _ Hs).
  assert (Hr : ring_size o' <= 16777216) by (unfold ring_size; destruct Hz as [->|[->| ->]]; by vm_compute).
  split; [|split; [|split; [unfold ring_desc; by destruct Hz as [->|[->| ->]]|split; [by vm_compute|]]]].
  - unfold config_valid. cbn [area_ptr init_area area_size]. rewrite (proj2 (Z.eqb_neq b0 0)) by lia.
    change (forallb _ _) with (negb (b0 + init_size =? 0) && (negb (b1 =? 0) && true)).
    rewrite (proj2 (Z.eqb_neq (b0 + init_size) 0)), (proj2 (Z.eqb_neq b1 0)) by (unfold init_size; lia). reflexivity.
  - destruct (regions_built o' b0 b1 env w Hc) as (w' & Hrun & Hc' & Hptr & Hlim).
    rewrite run_check in Hrun |- *. destruct (run (build_node_mapping _) env w) as [[[[c|e]|] env1] w1]; try done.
    destruct (c =? 0) eqn:Ec; [|by injection Hrun as -> _ _]. rewrite run_check, Hrun. cbn [Z.eqb].
    exists w'. unfold check_memory_capacity. cbn [area_size init_area]. rewrite (proj2 (Z.ltb_ge _ _)) by (by vm_compute).
    rewrite run_get. cbn [lget l_cfg]. rewrite Hc', Hlim, Hptr.
    destruct (rings_take o' (match g_role o' with ROLE_A => b0 + init_size | ROLE_B => b1 end) Hz) as (t & Ht & Hle).
    { unfold init_size. destruct (g_role o'); lia. }
    change (conf_descs (comm_conf o')) with [ring_desc o']. rewrite Ht, (proj2 (Z.ltb_ge _ _) Hle). done.
  - unfold init_size. lia.
Qed.

(** * The exchange *)

(** [fetch_add] of a signed 64-bit counter wraps around.  Differences of clock values are in range. *)
Definition i64 (z : Z) : Z := wrap 64 (z + 2 ^ 63) - 2 ^ 63.

Record PingPongMsg : Type := Msg { msg_id : Z; A_send_time : Z; B_recv_time : Z; B_send_time : Z; A_recv_time : Z }.
(** A message on its way: the type and the length of its header, and its body. *)
Record wire : Type := Wire { w_type : Z; w_length : Z; w_body : PingPongMsg }.

(** Where a thread of A is in [ping_worker]. *)
Inductive worker : Type :=
| w_fetch                     (** about to take a number *)
| w_clear (id : Z)            (** about to clear [g_done[id]] *)
| w_stamp (id : Z)            (** about to read the clock *)
| w_send (id t0 : Z)          (** sending, until the queue takes the message *)
| w_sent (id t0 : Z)          (** about to store what sending cost *)
| w_wait (id : Z)             (** waiting for [g_done[id]] *)
| w_end.
#[export] Instance worker_eq_dec : EqDecision worker.
Proof. solve_decision. Defined.
(** The dispatcher of A in [on_pong_msg], and that of B in [on_ping_msg]. *)
Inductive a_pc : Type := a_idle | a_store (id : Z) | a_count (id : Z).
Inductive b_pc : Type := b_idle | b_reply (m : PingPongMsg) | b_count (m : PingPongMsg).

(** The arrays of A. *)
Record tables : Type := Tables {
  g_done : list Z; g_rtt_ns : list Z; g_b_process_ns : list Z; g_recv_cb_cost_ns : list Z; g_send_cost_ns : list Z; g_details : list PingPongMsg }.
Record pp : Type := PP {
  g_next_id : Z; g_pong_count : Z; tab : tables; workers : list worker; a_pos : a_pc; a_clock : Z;
  pings : list wire; pongs : list wire;
  b_pos : b_pc; g_ping_recv : Z; g_pong_send : Z; g_b_process_sum : Z }.

Section Exchange.
(** The number of messages, the length of a body and the capacity of a ring. *)
Context (n body_len : Z) (cap : nat).

Definition ping_of (id t0 : Z) : wire := Wire TYPE_PING body_len (Msg id t0 0 0 0).
Definition pong_of (m : PingPongMsg) : wire := Wire TYPE_PONG body_len m.
Definition expected (type : Z) (m : wire) : bool := (w_type m =? type) && (w_length m =? body_len).

Definition set_done (id v : Z) (t : tables) : tables :=
  Tables (setZ (g_done t) id v) (g_rtt_ns t) (g_b_process_ns t) (g_recv_cb_cost_ns t) (g_send_cost_ns t) (g_details t).
Definition set_cost (id v : Z) (t : tables) : tables :=
  Tables (g_done t) (g_rtt_ns t) (g_b_process_ns t) (g_recv_cb_cost_ns t) (setZ (g_send_cost_ns t) id v) (g_details t).
(** What [on_pong_msg] stores for an answer received at [t] and stored at [t']. *)
Definition store_times (m : PingPongMsg) (t t' : Z) (d : tables) : tables :=
  let local := Msg (msg_id m) (A_send_time m) (B_recv_time m) (B_send_time m) t in
  let id := msg_id m in
  Tables (g_done d) (setZ (g_rtt_ns d) id (t - A_send_time m)) (setZ (g_b_process_ns d) id (B_send_time m - B_recv_time m))
    (setZ (g_recv_cb_cost_ns d) id (t' - t)) (g_send_cost_ns d)
    (if i32 id <? i32 (Z.of_nat (length (g_details d))) then setZ (g_details d) id local else g_details d).

Definition set_worker (i : nat) (w : worker) (s : pp) : pp :=
  PP (g_next_id s) (g_pong_count s) (tab s) (<[i := w]> (workers s)) (a_pos s) (a_clock s) (pings s) (pongs s) (b_pos s)
    (g_ping_recv s) (g_pong_send s) (g_b_process_sum s).
Definition set_next (v : Z) (s : pp) : pp :=
  PP v (g_pong_count s) (tab s) (workers s) (a_pos s) (a_clock s) (pings s) (pongs s) (b_pos s) (g_ping_recv s) (g_pong_send s) (g_b_process_sum s).
Definition set_tab (t : tables) (s : pp) : pp :=
  PP (g_next_id s) (g_pong_count s) t (workers s) (a_pos s) (a_clock s) (pings s) (pongs s) (b_pos s) (g_ping_recv s) (g_pong_send s) (g_b_process_sum s).
Definition set_clock (t : Z) (s : pp) : pp :=
  PP (g_next_id s) (g_pong_count s) (tab s) (workers s) (a_pos s) t (pings s) (pongs s) (b_pos s) (g_ping_recv s) (g_pong_send s) (g_b_process_sum s).
Definition set_pings (l : list wire) (s : pp) : pp :=
  PP (g_next_id s) (g_pong_count s) (tab s) (workers s) (a_pos s) (a_clock s) l (pongs s) (b_pos s) (g_ping_recv s) (g_pong_send s) (g_b_process_sum s).
Definition set_a (p : a_pc) (count : Z) (l : list wire) (s : pp) : pp :=
  PP (g_next_id s) count (tab s) (workers s) p (a_clock s) (pings s) l (b_pos s) (g_ping_recv s) (g_pong_send s) (g_b_process_sum s).
Definition set_b (p : b_pc) (l : list wire) (s : pp) : pp :=
  PP (g_next_id s) (g_pong_count s) (tab s) (workers s) (a_pos s) (a_clock s) (pings s) l p (g_ping_recv s) (g_pong_send s) (g_b_process_sum s).
Definition set_totals (r p b : Z) (s : pp) : pp :=
  PP (g_next_id s) (g_pong_count s) (tab s) (workers s) (a_pos s) (a_clock s) (pings s) (pongs s) (b_pos s) r p b.

(** [on_ping_msg] up to the answer it sends, with the two times it reads, and what it adds to the totals of B after that. *)
Definition on_ping_msg (m : wire) (t t' : Z) : b_pc :=
  if expected TYPE_PING m then b_reply (Msg (msg_id (w_body m)) (A_send_time (w_body m)) t t' (A_recv_time (w_body m))) else b_idle.
Definition count_reply (m : PingPongMsg) (s : pp) : pp :=
  set_totals (u64 (g_ping_recv s + 1)) (u64 (g_pong_send s + 1)) (i64 (g_b_process_sum s + (B_send_time m - B_recv_time m))) s.
(** [on_pong_msg] for the first of the answers, up to the mark in [g_done]. *)
Definition on_pong_msg (m : wire) (rest : list wire) (t t' : Z) (s : pp) : pp :=
  if expected TYPE_PONG m && (msg_id (w_body m) <? Z.of_nat (length (g_rtt_ns (tab s))))
  then set_a (a_store (msg_id (w_body m))) (g_pong_count s) rest (set_clock t' (set_tab (store_times (w_body m) t t' (tab s)) s))
  else set_a a_idle (g_pong_count s) rest (set_clock t' s).

Inductive pp_step : pp -> pp -> Prop :=
(* ping_worker *)
| step_fetch i s : workers s !! i = Some w_fetch ->
    pp_step s (set_worker i (if n <=? g_next_id s then w_end else w_clear (g_next_id s)) (set_next (u32 (g_next_id s + 1)) s))
| step_clear i s id : workers s !! i = Some (w_clear id) -> pp_step s (set_worker i (w_stamp id) (set_tab (set_done id 0 (tab s)) s))
| step_stamp i s id t0 : workers s !! i = Some (w_stamp id) -> a_clock s <= t0 -> pp_step s (set_worker i (w_send id t0) (set_clock t0 s))
| step_send i s id t0 : workers s !! i = Some (w_send id t0) -> (length (pings s) < cap)%nat ->
    pp_step s (set_worker i (w_sent id t0) (set_pings (pings s ++ [ping_of id t0]) s))
| step_sent i s id t0 t1 : workers s !! i = Some (w_sent id t0) -> a_clock s <= t1 ->
    pp_step s (set_worker i (w_wait id) (set_clock t1 (set_tab (set_cost id (t1 - t0) (tab s)) s)))
| step_wait i s id : workers s !! i = Some (w_wait id) -> getZ 0 (g_done (tab s)) id <> 0 -> pp_step s (set_worker i w_fetch s)
(* on_ping_msg *)
| step_ping s m rest t t' : b_pos s = b_idle -> pings s = m :: rest ->
    pp_step s (set_b (on_ping_msg m t t') (pongs s) (set_pings rest s))
| step_reply s m : b_pos s = b_reply m -> (length (pongs s) < cap)%nat -> pp_step s (set_b (b_count m) (pongs s ++ [pong_of m]) s)
| step_total s m : b_pos s = b_count m ->
    pp_step s (set_b b_idle (pongs s) (count_reply m s))
(* on_pong_msg *)
| step_pong s m rest t t' : a_pos s = a_idle -> pongs s = m :: rest -> a_clock s <= t -> t <= t' ->
    pp_step s (on_pong_msg m rest t t' s)
| step_store s id : a_pos s = a_store id -> pp_step s (set_a (a_count id) (g_pong_count s) (pongs s) (set_tab (set_done id 1 (tab s)) s))
| step_count s id : a_pos s = a_count id -> pp_step s (set_a a_idle (u64 (g_pong_count s + 1)) (pongs s) s).

(** A round of a loop that has to be repeated: a send that returned an error (for whatever reason; it has delivered nothing, see
    [failed_send_delivers_nothing] in TransportErrors.v), and a look at a mark that is not set.  Nothing the program keeps changes. *)
Inductive in_vain (s : pp) : Prop :=
| vain_send i id t0 : workers s !! i = Some (w_send id t0) -> in_vain s
| vain_wait i id : workers s !! i = Some (w_wait id) -> getZ 0 (g_done (tab s)) id = 0 -> in_vain s
| vain_reply m : b_pos s = b_reply m -> in_vain s.

(** An execution with [k] steps and [f] rounds in vain. *)
Inductive execution (s : pp) : nat -> nat -> pp -> Prop :=
| ex_start : execution s 0 0 s
| ex_step k f s1 s2 : execution s k f s1 -> pp_step s1 s2 -> execution s (S k) f s2
| ex_vain k f s1 : execution s k f s1 -> in_vain s1 -> execution s k (S f) s1.

(** [main] of A: the arrays are cleared, the details have room for the first [details] messages, and the threads are started. *)
Definition pp_start (threads details : nat) (clock : Z) : pp :=
  let zeros := replicate (Z.to_nat n) 0 in
  PP 0 0 (Tables zeros zeros zeros zeros zeros (replicate (Nat.min (Z.to_nat n) details) (Msg 0 0 0 0 0)))
    (replicate threads w_fetch) a_idle clock [] [] b_idle 0 0 0.

(** ** Where each number is *)

Definition wsum (f : worker -> Z) (ws : list worker) : Z := foldr (fun w a => f w + a) 0 ws.
Definition here (x y : Z) : Z := if x =? y then 1 else 0.
Definition occ (x : Z) (l : list Z) : Z := foldr (fun y a => here x y + a) 0 l.

(** The numbers a thread has taken and not yet sent, and those in the hands of the two handlers. *)
Definition taken (x : Z) (w : worker) : Z := match w with w_clear id | w_stamp id | w_send id _ => here x id | _ => 0 end.
Definition at_a (x : Z) (p : a_pc) : Z := match p with a_idle => 0 | a_store id | a_count id => here x id end.
Definition at_b (x : Z) (p : b_pc) : Z := match p with b_reply m => here x (msg_id m) | _ => 0 end.
Definition ids (l : list wire) : list Z := (fun m => msg_id (w_body m)) <$> l.
(** After it was sent; [cs]: the numbers that have been counted. *)
Definition sent (x : Z) (s : pp) (cs : list Z) : Z :=
  occ x (ids (pings s)) + at_b x (b_pos s) + occ x (ids (pongs s)) + at_a x (a_pos s) + occ x cs.
Definition range (x m : Z) : Z := if (0 <=? x) && (x <? m) then 1 else 0.

Definition ending (w : worker) : Z := match w with w_end => 1 | _ => 0 end.

(** The answered numbers: marked, and those whose times are stored. *)
Definition marked (x : Z) (s : pp) (cs : list Z) : Prop := a_pos s = a_count x \/ 0 < occ x cs.
Definition stored (x : Z) (s : pp) (cs : list Z) : Prop := a_pos s = a_store x \/ marked x s cs.

Definition worker_ok (s : pp) (cs : list Z) (w : worker) : Prop :=
  match w with
  | w_send _ t0 => t0 <= a_clock s
  | w_sent id _ | w_wait id => 1 <= sent id s cs
  | w_end => n <= g_next_id s
  | _ => True
  end.
Definition in_flight (type : Z) (s : pp) (m : wire) : Prop := expected type m = true /\ A_send_time (w_body m) <= a_clock s.

Record exchange_inv (s : pp) (cs : list Z) : Prop := {
  ei_place : forall x, wsum (taken x) (workers s) + sent x s cs = range x (Z.min (g_next_id s) n);
  ei_next : 0 <= g_next_id s <= n + wsum ending (workers s);
  ei_workers : Forall (worker_ok s cs) (workers s);
  ei_pings : Forall (in_flight TYPE_PING s) (pings s);
  ei_pongs : Forall (in_flight TYPE_PONG s) (pongs s);
  ei_reply : match b_pos s with b_reply m => A_send_time m <= a_clock s | _ => True end;
  ei_done : length (g_done (tab s)) = Z.to_nat n /\ forall x, marked x s cs -> getZ 0 (g_done (tab s)) x = 1;
  ei_rtt : length (g_rtt_ns (tab s)) = Z.to_nat n /\ forall x, stored x s cs -> 0 <= getZ 0 (g_rtt_ns (tab s)) x;
  ei_count : g_pong_count s = Z.of_nat (length cs) }.

Lemma wsum_insert f ws i w w' : ws !! i = Some w -> wsum f (<[i := w']> ws) = wsum f ws - f w + f w'.
Proof.
  unfold wsum. revert i. induction ws as [|v ws IH]; intros [|i] H; [done..| |].
  - cbn in *. injection H as ->. lia.
  - change (<[S i := w']> (v :: ws)) with (v :: <[i := w']> ws). cbn [foldr]. rewrite (IH i H). lia.
Qed.
Lemma wsum_nonneg f ws : (forall w, 0 <= f w) -> 0 <= wsum f ws.
Proof. intros Hf. unfold wsum. induction ws as [|w ws IH]; cbn [foldr]; [lia|]. specialize (Hf w). lia. Qed.
Lemma wsum_ge f ws i w : (forall w, 0 <= f w) -> ws !! i = Some w -> f w <= wsum f ws.
Proof.
  intros Hf. revert i. induction ws as [|v ws IH]; intros [|i] H; [done..| |]; cbn [wsum foldr]; fold (wsum f ws).
  - injection H as ->. pose proof (wsum_nonneg f ws Hf). lia.
  - specialize (IH i H). specialize (Hf v). lia.
Qed.
Lemma wsum_bound f ws : (forall w, f w <= 1) -> wsum f ws <= Z.of_nat (length ws).
Proof. intros Hf. induction ws as [|w ws IH]; cbn [wsum foldr length]; [lia|]. specialize (Hf w). fold (wsum f ws). lia. Qed.
Lemma here_nonneg x y : 0 <= here x y.
Proof. unfold here. destruct (x =? y); lia. Qed.
Lemma here_same x : here x x = 1.
Proof. unfold here. by rewrite Z.eqb_refl. Qed.
Lemma occ_nonneg x l : 0 <= occ x l.
Proof. unfold occ. induction l as [|y l IH]; cbn [foldr]; [lia|]. pose proof (here_nonneg x y). lia. Qed.
Lemma occ_app x l l' : occ x (l ++ l') = occ x l + occ x l'.
Proof. unfold occ. induction l as [|y l IH]; cbn [app foldr]; [done|]. lia. Qed.
Lemma taken_nonneg x w : 0 <= taken x w.
Proof. destruct w; cbn; try lia; apply here_nonneg. Qed.
Lemma at_a_nonneg x p : 0 <= at_a x p.
Proof. destruct p; cbn; try lia; apply here_nonneg. Qed.
Lemma at_b_nonneg x p : 0 <= at_b x p.
Proof. destruct p; cbn; try lia; apply here_nonneg. Qed.
Lemma sent_nonneg x s cs : 0 <= sent x s cs.
Proof.
  unfold sent. pose proof (occ_nonneg x (ids (pings s))). pose proof (occ_nonneg x (ids (pongs s))). pose proof (occ_nonneg x cs).
  pose proof (at_a_nonneg x (a_pos s)). pose proof (at_b_nonneg x (b_pos s)). lia.
Qed.
Lemma occ_elem x l : 0 < occ x l <-> x ∈ l.
Proof.
  induction l as [|y l IH]; [split; [cbn; lia|by intros ?%elem_of_nil]|]. cbn [occ foldr]. fold (occ x l). rewrite elem_of_cons, <- IH. unfold here.
  pose proof (occ_nonneg x l). destruct (Z.eqb_spec x y); [split; [by left|lia]|]. split; [intros; right; lia|intros [?|?]; [done|lia]].
Qed.
Lemma range_cases x m : range x m = 1 /\ 0 <= x < m \/ range x m = 0 /\ ~ (0 <= x < m).
Proof. unfold range. destruct (Z.leb_spec 0 x), (Z.ltb_spec x m); cbn; lia. Qed.
Lemma range_next x m : 0 <= m -> range x (m + 1) = range x m + here x m.
Proof.
  intros Hm. unfold here. destruct (range_cases x (m + 1)) as [[-> ?]|[-> ?]], (range_cases x m) as [[-> ?]|[-> ?]], (Z.eqb_spec x m); lia.
Qed.

(** A thread, a message or a handler that has a number: the number is in range, and nobody else has it. *)
Lemma taken_alone s cs i w x :
  exchange_inv s cs -> workers s !! i = Some w -> taken x w = 1 -> 0 <= x < n /\ sent x s cs = 0.
Proof.
  intros HI Hi Hw. pose proof (ei_place _ _ HI x) as Hp. pose proof (wsum_ge (taken x) _ _ _ (taken_nonneg x) Hi).
  pose proof (sent_nonneg x s cs). destruct (range_cases x (Z.min (g_next_id s) n)) as [[? ?]|[? ?]]; lia.
Qed.
Lemma sent_range s cs x : exchange_inv s cs -> 1 <= sent x s cs -> 0 <= x < n.
Proof.
  intros HI Hs. pose proof (ei_place _ _ HI x) as Hp. pose proof (wsum_nonneg (taken x) (workers s) (taken_nonneg x)).
  destruct (range_cases x (Z.min (g_next_id s) n)) as [[? ?]|[? ?]]; lia.
Qed.

(** What a step may do to what the other threads rely on. *)
Record moves_on (s s' : pp) (cs cs' : list Z) : Prop := {
  mo_clock : a_clock s <= a_clock s'; mo_next : g_next_id s <= g_next_id s'; mo_sent : forall x, sent x s cs <= sent x s' cs' }.
Lemma worker_ok_moves s s' cs cs' w : moves_on s s' cs cs' -> worker_ok s cs w -> worker_ok s' cs' w.
Proof. intros [Hc Hn Hs]. destruct w as [| | |? t0|id ?|id|]; cbn; try done; try lia; specialize (Hs id); lia. Qed.
Lemma workers_ok_insert s s' cs cs' i w :
  moves_on s s' cs cs' -> worker_ok s' cs' w -> Forall (worker_ok s cs) (workers s) -> Forall (worker_ok s' cs') (<[i := w]> (workers s)).
Proof.
  intros Hm Hw Hf. apply Forall_insert; [|done]. eapply Forall_impl; [exact Hf|]. intros v. by apply worker_ok_moves.
Qed.
Lemma in_flight_moves ty s s' l : a_clock s <= a_clock s' -> Forall (in_flight ty s) l -> Forall (in_flight ty s') l.
Proof. intros Hc H. eapply Forall_impl; [exact H|]. intros m [? ?]. split; [done|lia]. Qed.

(** ** The threads of A *)

Hypothesis Hn : 0 <= n.

Lemma ending_bound w : ending w <= 1.
Proof. by destruct w. Qed.
Lemma ending_nonneg w : 0 <= ending w.
Proof. by destruct w. Qed.

(** There is a thread that has not ended, so another number can be taken without wrapping around. *)
Lemma ends_below ws i w : ws !! i = Some w -> ending w = 0 -> wsum ending ws + 1 <= Z.of_nat (length ws).
Proof.
  intros Hi Hw. pose proof (wsum_insert ending ws i w w_end Hi) as H. rewrite Hw in H. cbn [ending] in H.
  pose proof (wsum_bound ending (<[i := w_end]> ws) ending_bound). rewrite length_insert in *. lia.
Qed.

#[local] Arguments wsum : simpl never.
#[local] Arguments occ : simpl never.
#[local] Arguments ids : simpl never.
#[local] Arguments range : simpl never.
#[local] Arguments Z.min : simpl never.

Lemma inv_fetch i s cs :
  exchange_inv s cs -> n + Z.of_nat (length (workers s)) < 2 ^ 32 -> workers s !! i = Some w_fetch ->
  exchange_inv (set_worker i (if n <=? g_next_id s then w_end else w_clear (g_next_id s)) (set_next (u32 (g_next_id s + 1)) s)) cs.
Proof.
  intros HI Hb Hi. assert (He := ends_below _ _ _ Hi eq_refl). destruct HI as [Hp Hx Hw H1 H2 H3 H4 H5 H6].
  rewrite u32_small by lia.
  assert (Hm : moves_on s (set_worker i (if n <=? g_next_id s then w_end else w_clear (g_next_id s)) (set_next (g_next_id s + 1) s)) cs cs)
    by (split; cbn; [lia|lia|done]).
  split; cbn; [|..|done|done|done|done|done|done].
  - intros x. rewrite (wsum_insert _ _ _ _ _ Hi). specialize (Hp x). change (sent x _ cs) with (sent x s cs).
    destruct (Z.leb_spec n (g_next_id s)); cbn [taken].
    + rewrite Z.min_r in * by lia. lia.
    + rewrite Z.min_l in * by lia. rewrite range_next by lia. lia.
  - rewrite (wsum_insert _ _ _ _ _ Hi). cbn [ending]. destruct (Z.leb_spec n (g_next_id s)); cbn [ending]; [lia|].
    pose proof (wsum_nonneg ending (workers s) ending_nonneg). lia.
  - eapply workers_ok_insert; [exact Hm| |exact Hw]. destruct (Z.leb_spec n (g_next_id s)); cbn; [lia|done].
Qed.

(** A step that changes only the place of a thread, and perhaps the arrays and the clock. *)
Lemma inv_thread i w w' t c s cs :
  exchange_inv s cs -> workers s !! i = Some w -> (forall x, taken x w' = taken x w) -> ending w' = ending w -> a_clock s <= c ->
  worker_ok (set_clock c s) cs w' ->
  length (g_done t) = Z.to_nat n /\ (forall x, marked x s cs -> getZ 0 (g_done t) x = 1) -> g_rtt_ns t = g_rtt_ns (tab s) ->
  exchange_inv (set_worker i w' (set_clock c (set_tab t s))) cs.
Proof.
  intros [Hp Hx Hw H1 H2 H3 H4 H5 H6] Hi Ht He Hc Hok Hd Hr.
  assert (Hm : moves_on s (set_worker i w' (set_clock c (set_tab t s))) cs cs) by (split; cbn; [lia|lia|done]).
  split; cbn.
  - intros x. rewrite (wsum_insert _ _ _ _ _ Hi), Ht. specialize (Hp x). change (sent x _ cs) with (sent x s cs). lia.
  - rewrite (wsum_insert _ _ _ _ _ Hi), He. lia.
  - eapply workers_ok_insert; [exact Hm|exact Hok|exact Hw].
  - eapply in_flight_moves; [|exact H1]. cbn. lia.
  - eapply in_flight_moves; [|exact H2]. cbn. lia.
  - destruct (b_pos s); try done. lia.
  - exact Hd.
  - rewrite Hr. exact H5.
  - exact H6.
Qed.

Lemma expected_self ty m : expected ty (Wire ty body_len m) = true.
Proof. unfold expected. cbn. by rewrite !Z.eqb_refl. Qed.
Lemma ids_app l l' : ids (l ++ l') = ids l ++ ids l'.
Proof. apply fmap_app. Qed.
Lemma occ_one x y : occ x [y] = here x y.
Proof. unfold occ. cbn. lia. Qed.
Lemma occ_cons x y l : occ x (y :: l) = here x y + occ x l.
Proof. done. Qed.

Lemma inv_send i s cs id t0 :
  exchange_inv s cs -> workers s !! i = Some (w_send id t0) ->
  exchange_inv (set_worker i (w_sent id t0) (set_pings (pings s ++ [ping_of id t0]) s)) cs.
Proof.
  intros [Hp Hx Hw H1 H2 H3 H4 H5 H6] Hi.
  set (s' := set_worker i (w_sent id t0) (set_pings (pings s ++ [ping_of id t0]) s)).
  assert (Hs : forall x, sent x s' cs = sent x s cs + here x id).
  { intros x. unfold sent. cbn. rewrite ids_app, occ_app. change (ids [ping_of id t0]) with [id]. rewrite occ_one. lia. }
  assert (Hm : moves_on s s' cs cs) by (split; cbn; [lia|lia|intros x; rewrite Hs; pose proof (here_nonneg x id); lia]).
  split; cbn; [| | |..|done|done|done|done|done].
  - intros x. rewrite (wsum_insert _ _ _ _ _ Hi). cbn [taken]. fold s'. rewrite Hs. specialize (Hp x). lia.
  - rewrite (wsum_insert _ _ _ _ _ Hi). cbn [ending]. lia.
  - eapply workers_ok_insert; [exact Hm| |exact Hw]. cbn. fold s'. rewrite Hs, here_same.
    pose proof (sent_nonneg id s cs). lia.
  - apply Forall_app; split; [done|]. constructor; [|constructor]. split; [apply expected_self|].
    pose proof (proj1 (Forall_lookup _ _) Hw _ _ Hi) as Hok. exact Hok.
Qed.

(** ** The handlers *)

Lemma inv_ping s cs m rest t t' :
  exchange_inv s cs -> b_pos s = b_idle -> pings s = m :: rest ->
  exchange_inv (set_b (on_ping_msg m t t') (pongs s) (set_pings rest s)) cs.
Proof.
  intros [Hp Hx Hw H1 H2 H3 H4 H5 H6] Hb Hq. rewrite Hq in H1. inversion H1 as [|? ? [He Hc] Hr]; subst. unfold on_ping_msg. rewrite He.
  set (s' := set_b _ _ _).
  assert (Hs : forall x, sent x s' cs = sent x s cs).
  { intros x. unfold sent. cbn. rewrite Hb, Hq. change (ids (m :: rest)) with (msg_id (w_body m) :: ids rest). rewrite occ_cons. cbn. lia. }
  assert (Hm : moves_on s s' cs cs) by (split; cbn; [lia|lia|intros x; rewrite Hs; lia]).
  split; cbn; [|done| |done|done|done|done|done|done].
  - intros x. fold s'. rewrite Hs. apply Hp.
  - eapply Forall_impl; [exact Hw|]. intros w. by apply worker_ok_moves.
Qed.

Lemma inv_reply s cs m :
  exchange_inv s cs -> b_pos s = b_reply m -> exchange_inv (set_b (b_count m) (pongs s ++ [pong_of m]) s) cs.
Proof.
  intros [Hp Hx Hw H1 H2 H3 H4 H5 H6] Hb. rewrite Hb in H3. set (s' := set_b _ _ _).
  assert (Hs : forall x, sent x s' cs = sent x s cs).
  { intros x. unfold sent. cbn. rewrite Hb, ids_app, occ_app. change (ids [pong_of m]) with [msg_id m]. rewrite occ_one. cbn. lia. }
  assert (Hm : moves_on s s' cs cs) by (split; cbn; [lia|lia|intros x; rewrite Hs; lia]).
  split; cbn; [|done| |done| |done|done|done|done].
  - intros x. fold s'. rewrite Hs. apply Hp.
  - eapply Forall_impl; [exact Hw|]. intros w. by apply worker_ok_moves.
  - apply Forall_app; split; [done|]. constructor; [|constructor]. split; [apply expected_self|done].
Qed.

Lemma inv_total s cs m r p b :
  exchange_inv s cs -> b_pos s = b_count m -> exchange_inv (set_b b_idle (pongs s) (set_totals r p b s)) cs.
Proof.
  intros [Hp Hx Hw H1 H2 H3 H4 H5 H6] Hb. set (s' := set_b _ _ _).
  assert (Hs : forall x, sent x s' cs = sent x s cs) by (intros x; unfold sent; cbn; rewrite Hb; cbn; lia).
  assert (Hm : moves_on s s' cs cs) by (split; cbn; [lia|lia|intros x; rewrite Hs; lia]).
  split; cbn; [|done| |done|done|done|done|done|done].
  - intros x. fold s'. rewrite Hs. apply Hp.
  - eapply Forall_impl; [exact Hw|]. intros w. by apply worker_ok_moves.
Qed.

(** The handler of A has taken an answer. *)
Lemma pong_in_range s cs m rest :
  exchange_inv s cs -> pongs s = m :: rest ->
  expected TYPE_PONG m && (msg_id (w_body m) <? Z.of_nat (length (g_rtt_ns (tab s)))) = true /\
  0 <= msg_id (w_body m) < n /\ A_send_time (w_body m) <= a_clock s /\ ~ stored (msg_id (w_body m)) s cs.
Proof.
  intros HI Hq. set (x := msg_id (w_body m)). pose proof (ei_pongs _ _ HI) as H2. rewrite Hq in H2. inversion H2 as [|? ? [He Hc] _]; subst.
  pose proof (ei_place _ _ HI x) as Hp. pose proof (wsum_nonneg (taken x) (workers s) (taken_nonneg x)).
  assert (Hs : sent x s cs = occ x (ids (pings s)) + at_b x (b_pos s) + (1 + occ x (ids rest)) + at_a x (a_pos s) + occ x cs).
  { unfold sent. rewrite Hq. change (ids (m :: rest)) with (x :: ids rest). by rewrite occ_cons, here_same. }
  pose proof (occ_nonneg x (ids (pings s))). pose proof (at_b_nonneg x (b_pos s)). pose proof (occ_nonneg x (ids rest)).
  pose proof (at_a_nonneg x (a_pos s)). pose proof (occ_nonneg x cs).
  destruct (range_cases x (Z.min (g_next_id s) n)) as [[Hr ?]|[Hr ?]]; rewrite Hr in Hp; [|lia].
  split; [|split; [lia|split; [done|]]].
  - rewrite He. apply Z.ltb_lt. rewrite (proj1 (ei_rtt _ _ HI)). lia.
  - intros [Ha|[Ha|Ha]]; [rewrite Ha in *; cbn [at_a] in *; rewrite here_same in *..|]; lia.
Qed.

Lemma getZ_setZ_in (l : list Z) i x v : 0 <= i < Z.of_nat (length l) -> 0 <= x -> getZ 0 (setZ l i v) x = if x =? i then v else getZ 0 l x.
Proof.
  intros Hi Hx. destruct (Z.eqb_spec x i) as [->|Hne]; [apply getZ_setZ_eq; lia|apply getZ_setZ_ne; lia].
Qed.

Lemma stored_range s cs x : exchange_inv s cs -> stored x s cs -> 0 <= x < n.
Proof.
  intros HI Hx. apply (sent_range s cs); [done|]. unfold sent.
  pose proof (occ_nonneg x (ids (pings s))). pose proof (at_b_nonneg x (b_pos s)). pose proof (occ_nonneg x (ids (pongs s))).
  pose proof (at_a_nonneg x (a_pos s)). pose proof (occ_nonneg x cs).
  destruct Hx as [Ha|[Ha|Ha]]; [rewrite Ha in *; cbn [at_a] in *; rewrite here_same in *..|]; lia.
Qed.

Lemma inv_pong s cs m rest t t' :
  exchange_inv s cs -> a_pos s = a_idle -> pongs s = m :: rest -> a_clock s <= t -> t <= t' ->
  exchange_inv (set_a (a_store (msg_id (w_body m))) (g_pong_count s) rest (set_clock t' (set_tab (store_times (w_body m) t t' (tab s)) s))) cs.
Proof.
  intros HI Ha Hq Ht Ht'. destruct (pong_in_range s cs m rest HI Hq) as (_ & Hr & Hc & Hns).
  assert (Hrng := fun x => stored_range s cs x HI). destruct HI as [Hp Hx Hw H1 H2 H3 H4 [Hl H5] H6]. set (x0 := msg_id (w_body m)) in *. set (s' := set_a _ _ _ _).
  assert (Hs : forall x, sent x s' cs = sent x s cs).
  { intros x. unfold sent. cbn. rewrite Ha, Hq. change (ids (m :: rest)) with (x0 :: ids rest). rewrite occ_cons. cbn. lia. }
  assert (Hm : moves_on s s' cs cs) by (split; cbn; [lia|lia|intros x; rewrite Hs; lia]).
  rewrite Hq in H2. inversion H2 as [|? ? _ H2']; subst.
  assert (Hcl : a_clock s <= a_clock s') by (cbn; lia).
  assert (Hmk : forall x, marked x s' cs -> marked x s cs) by (intros x [E|E]; [done|by right]).
  split; [|exact Hx| | | | | | |exact H6].
  - intros x. rewrite Hs. apply Hp.
  - eapply Forall_impl; [exact Hw|]. intros w. by apply worker_ok_moves.
  - eapply in_flight_moves; [exact Hcl|exact H1].
  - eapply in_flight_moves; [exact Hcl|exact H2'].
  - cbn. destruct (b_pos s); try done. lia.
  - split; [exact (proj1 H4)|]. intros x Hx'. apply (proj2 H4), Hmk, Hx'.
  - split; [cbn; rewrite length_setZ; exact Hl|]. intros x Hx'.
    assert (Hcase : x = x0 \/ stored x s cs) by (destruct Hx' as [E|E]; [left; cbn in E; congruence|right; right; by apply Hmk]).
    assert (0 <= x) by (destruct Hcase as [->|E]; [lia|by apply Hrng]).
    cbn. rewrite getZ_setZ_in by lia. fold x0. destruct (Z.eqb_spec x x0); [lia|]. destruct Hcase; [done|by apply H5].
Qed.

Lemma inv_store s cs id :
  exchange_inv s cs -> a_pos s = a_store id ->
  exchange_inv (set_a (a_count id) (g_pong_count s) (pongs s) (set_tab (set_done id 1 (tab s)) s)) cs.
Proof.
  intros HI Ha. assert (Hid : 0 <= id < n) by (apply (stored_range s cs); [done|by left]).
  assert (Hrng := fun x => stored_range s cs x HI). destruct HI as [Hp Hx Hw H1 H2 H3 [Hl H4] H5 H6]. set (s' := set_a _ _ _ _).
  assert (Hs : forall x, sent x s' cs = sent x s cs) by (intros x; unfold sent; cbn; rewrite Ha; cbn; lia).
  assert (Hm : moves_on s s' cs cs) by (split; cbn; [lia|lia|intros x; rewrite Hs; lia]).
  split; [|exact Hx| |exact H1|exact H2|exact H3| | |exact H6].
  - intros x. rewrite Hs. apply Hp.
  - eapply Forall_impl; [exact Hw|]. intros w. by apply worker_ok_moves.
  - split; [cbn; rewrite length_setZ; exact Hl|]. intros x Hx'.
    assert (Hcase : x = id \/ marked x s cs) by (destruct Hx' as [E|E]; [left; cbn in E; congruence|right; by right]).
    assert (0 <= x) by (destruct Hcase as [->|E]; [lia|by apply Hrng; right]).
    cbn. rewrite getZ_setZ_in by lia. destruct (Z.eqb_spec x id); [done|]. destruct Hcase; [done|by apply H4].
  - split; [exact (proj1 H5)|]. intros x [E|[E|E]]; [done| |]; apply (proj2 H5).
    + left. cbn in E. congruence.
    + by right; right.
Qed.

Lemma inv_count s cs id :
  exchange_inv s cs -> a_pos s = a_count id -> Z.of_nat (length cs) + 1 < 2 ^ 64 ->
  exchange_inv (set_a a_idle (u64 (g_pong_count s + 1)) (pongs s) s) (id :: cs).
Proof.
  intros [Hp Hx Hw H1 H2 H3 H4 H5 H6] Ha Hb. rewrite H6, u64_small by lia. set (s' := set_a _ _ _ _).
  assert (Hs : forall x, sent x s' (id :: cs) = sent x s cs) by (intros x; unfold sent; cbn; rewrite Ha, occ_cons; cbn; lia).
  assert (Hm : moves_on s s' cs (id :: cs)) by (split; cbn; [lia|lia|intros x; rewrite Hs; lia]).
  assert (Hmk : forall x, marked x s' (id :: cs) -> marked x s cs).
  { intros x [E|E]; [done|]. rewrite occ_cons in E. unfold here in E. destruct (Z.eqb_spec x id) as [Heq|Hne]; [left; by rewrite Heq|right; lia]. }
  split; [|exact Hx| |exact H1|exact H2|exact H3| | |cbn; lia].
  - intros x. rewrite Hs. apply Hp.
  - eapply Forall_impl; [exact Hw|]. intros w. by apply worker_ok_moves.
  - split; [exact (proj1 H4)|]. intros x E. by apply (proj2 H4), Hmk.
  - split; [exact (proj1 H5)|]. intros x [E|E]; [done|]. apply (proj2 H5). right. by apply Hmk.
Qed.

(** ** Every step *)

Lemma occ_nodup l : (forall x, occ x l <= 1) -> NoDup l.
Proof.
  induction l as [|y l IH]; intros H; [constructor|]. constructor.
  - intros Hin%occ_elem. specialize (H y). rewrite occ_cons, here_same in H. lia.
  - apply IH. intros x. specialize (H x). rewrite occ_cons in H. pose proof (here_nonneg x y). lia.
Qed.
Lemma counted_bound s cs : exchange_inv s cs -> Z.of_nat (length cs) <= n.
Proof.
  intros HI. assert (Hc : forall x, occ x cs <= sent x s cs).
  { intros x. unfold sent. pose proof (occ_nonneg x (ids (pings s))). pose proof (at_b_nonneg x (b_pos s)).
    pose proof (occ_nonneg x (ids (pongs s))). pose proof (at_a_nonneg x (a_pos s)). lia. }
  assert (H1 : NoDup cs).
  { apply occ_nodup. intros x. pose proof (ei_place _ _ HI x). pose proof (wsum_nonneg (taken x) (workers s) (taken_nonneg x)).
    specialize (Hc x). destruct (range_cases x (Z.min (g_next_id s) n)) as [[? ?]|[? ?]]; lia. }
  assert (Hsub : cs ⊆+ seqZ 0 n).
  { apply NoDup_submseteq; [done|]. intros x Hx%occ_elem. apply elem_of_seqZ. specialize (Hc x).
    pose proof (sent_range s cs x HI ltac:(lia)). lia. }
  apply submseteq_length in Hsub. rewrite length_seqZ in Hsub. lia.
Qed.

Lemma set_clock_same s : set_clock (a_clock s) s = s.
Proof. by destruct s. Qed.
Lemma set_tab_same s : set_tab (tab s) s = s.
Proof. by destruct s. Qed.

Lemma inv_step s s' cs :
  pp_step s s' -> exchange_inv s cs -> n + Z.of_nat (length (workers s)) < 2 ^ 32 -> exists cs', exchange_inv s' cs'.
Proof.
  intros Hst HI Hb. assert (Hcs := counted_bound _ _ HI).
  destruct Hst as [i s Hi|i s id Hi|i s id t0 Hi Ht|i s id t0 Hi Hl|i s id t0 t1 Hi Ht|i s id Hi Hd|s m rest t t' Hp Hq|s m Hp Hl|s m Hp|s m rest t t' Hp Hq Ht Ht'|s id Hp|s id Hp].
  - exists cs. by apply inv_fetch.
  - exists cs. destruct (taken_alone _ _ _ _ id HI Hi (here_same id)) as [Hr H0]. rewrite <- (set_clock_same (set_tab _ s)). cbn [a_clock set_tab].
    apply (inv_thread i (w_clear id)); [done|done|done|done|lia|done| |done]. destruct (ei_done _ _ HI) as [Hl Hd].
    split; [cbn; by rewrite length_setZ|]. intros x Hx. assert (Hxr := stored_range s cs x HI (or_intror Hx)).
    cbn. rewrite getZ_setZ_in by lia. destruct (Z.eqb_spec x id) as [E|E]; [|by apply Hd].
    assert (Hs : 1 <= sent x s cs); [|rewrite E in Hs; lia]. unfold sent.
    pose proof (occ_nonneg x (ids (pings s))). pose proof (at_b_nonneg x (b_pos s)). pose proof (occ_nonneg x (ids (pongs s))).
    pose proof (at_a_nonneg x (a_pos s)). pose proof (occ_nonneg x cs).
    destruct Hx as [Ha|Ha]; [rewrite Ha in *; cbn [at_a] in *; rewrite here_same in *|]; lia.
  - exists cs. assert (H := inv_thread i (w_stamp id) (w_send id t0) (tab s) t0 s cs HI Hi). rewrite set_tab_same in H.
    apply H; [done..|cbn; lia|apply HI|done].
  - exists cs. by apply inv_send.
  - exists cs. apply (inv_thread i (w_sent id t0)); [done..| |apply HI|done].
    exact (proj1 (Forall_lookup _ _) (ei_workers _ _ HI) _ _ Hi).
  - exists cs. assert (H := inv_thread i (w_wait id) w_fetch (tab s) (a_clock s) s cs HI Hi). rewrite set_tab_same, set_clock_same in H.
    apply H; [done..|lia|done|apply HI|done].
  - exists cs. by apply inv_ping.
  - exists cs. by apply inv_reply.
  - exists cs. by eapply inv_total.
  - exists cs. unfold on_pong_msg. destruct (pong_in_range s cs m rest HI Hq) as (-> & _). by apply inv_pong.
  - exists cs. by apply inv_store.
  - exists (id :: cs). apply inv_count; [done..|lia].
Qed.
Lemma step_length s s' : pp_step s s' -> length (workers s') = length (workers s).
Proof. destruct 1; cbn; rewrite ?length_insert; try done. unfold on_pong_msg. by destruct (_ && _). Qed.

(** ** How far the exchange is from its end *)

Definition weight (w : worker) : Z :=
  match w with w_end => 0 | w_fetch => 1 | w_wait _ => 2 | w_sent _ _ => 3 | w_send _ _ => 11 | w_stamp _ => 12 | w_clear _ => 13 end.
Definition distance (s : pp) : Z :=
  20 * Z.max 0 (n - g_next_id s) + wsum weight (workers s) + 7 * Z.of_nat (length (pings s)) +
  (match b_pos s with b_idle => 0 | b_reply _ => 6 | b_count _ => 1 end) + 3 * Z.of_nat (length (pongs s)) +
  (match a_pos s with a_idle => 0 | a_store _ => 2 | a_count _ => 1 end).

Lemma weight_nonneg w : 0 <= weight w.
Proof. by destruct w. Qed.
Lemma distance_nonneg s : 0 <= distance s.
Proof.
  unfold distance. pose proof (wsum_nonneg weight (workers s) weight_nonneg). destruct (b_pos s), (a_pos s); lia.
Qed.
Lemma step_closer s s' cs :
  pp_step s s' -> exchange_inv s cs -> n + Z.of_nat (length (workers s)) < 2 ^ 32 -> distance s' < distance s.
Proof.
  intros Hst HI Hb. assert (Hx := ei_next _ _ HI).
  destruct Hst as [i s Hi|i s id Hi|i s id t0 Hi Ht|i s id t0 Hi Hl|i s id t0 t1 Hi Ht|i s id Hi Hd|s m rest t t' Hp Hq|s m Hp Hl|s m Hp|s m rest t t' Hp Hq Ht Ht'|s id Hp|s id Hp];
    unfold distance; cbn; try (rewrite (wsum_insert _ _ _ _ _ Hi); cbn [weight]); try lia.
  - assert (He := ends_below _ _ _ Hi eq_refl). rewrite u32_small by lia. destruct (Z.leb_spec n (g_next_id s)); cbn [weight]; lia.
  - rewrite length_app. cbn [length]. lia.
  - rewrite Hp, Hq. unfold on_ping_msg. cbn [length]. destruct (expected _ _); lia.
  - rewrite Hp, length_app. cbn [length]. lia.
  - rewrite Hp. lia.
  - rewrite Hp, Hq. unfold on_pong_msg. cbn [length]. destruct (_ && _); cbn; lia.
  - rewrite Hp. lia.
  - rewrite Hp. lia.
Qed.

(** ** The end *)

Record exchange_over (s : pp) : Prop := {
  eo_workers : Forall (fun w => w = w_end) (workers s); eo_pings : pings s = []; eo_pongs : pongs s = [];
  eo_a : a_pos s = a_idle; eo_b : b_pos s = b_idle }.

Lemma exchange_progress s cs : (0 < cap)%nat -> exchange_inv s cs -> (exists s', pp_step s s') \/ exchange_over s.
Proof.
  intros Hcap HI.
  destruct (a_pos s) as [|id|id] eqn:Ea; [|left; eexists; by eapply step_store|left; eexists; by eapply step_count].
  destruct (pongs s) as [|m rest] eqn:Eo; [|left; eexists; by eapply (step_pong s m rest (a_clock s) (a_clock s)); [..|lia|lia]].
  destruct (b_pos s) as [|m|m] eqn:Eb; [|left; eexists; eapply step_reply; [done|by rewrite Eo]|left; eexists; by eapply step_total].
  destruct (pings s) as [|m rest] eqn:Ei; [|left; eexists; by apply (step_ping s m rest 0 0)].
  destruct (decide (Exists (fun w => w <> w_end) (workers s))) as [He|He].
  - left. apply Exists_exists in He as (w & Hin & Hne). apply list_elem_of_lookup in Hin as [i Hi].
    pose proof (proj1 (Forall_lookup _ _) (ei_workers _ _ HI) _ _ Hi) as Hok.
    destruct w as [|id|id|id t0|id t0|id|]; [..|done].
    + eexists. by apply (step_fetch i).
    + eexists. by apply (step_clear i s id).
    + eexists. apply (step_stamp i s id (a_clock s)); [done|lia].
    + eexists. apply (step_send i s id t0); [done|by rewrite Ei].
    + eexists. apply (step_sent i s id t0 (a_clock s)); [done|lia].
    + eexists. apply (step_wait i s id); [done|]. rewrite (proj2 (ei_done _ _ HI)); [lia|]. right.
      cbn in Hok. unfold sent in Hok. rewrite Ei, Eo, Ea, Eb in Hok. cbn in Hok. change (occ id (ids [])) with 0 in Hok. lia.
  - right. split; [|done..]. apply Forall_forall. intros w Hw. destruct (decide (w = w_end)) as [|Hne]; [done|].
    destruct He. apply Exists_exists. by exists w.
Qed.

Lemma over_counts s cs :
  exchange_inv s cs -> exchange_over s -> workers s <> [] ->
  g_pong_count s = n /\ (forall x, 0 <= x < n -> getZ 0 (g_done (tab s)) x = 1 /\ 0 <= getZ 0 (g_rtt_ns (tab s)) x).
Proof.
  intros HI [Hw Hi Ho Ha Hb] Hne.
  assert (Hnext : n <= g_next_id s).
  { destruct (workers s) as [|w ws] eqn:E; [done|]. inversion Hw as [|? ? Hw1 _]; subst.
    pose proof (ei_workers _ _ HI) as Hok. rewrite E in Hok. inversion Hok as [|? ? Hok1 _]; subst. exact Hok1. }
  assert (Hocc : forall x, occ x cs = range x n).
  { intros x. pose proof (ei_place _ _ HI x) as Hp. rewrite Z.min_r in Hp by lia. rewrite <- Hp.
    assert (wsum (taken x) (workers s) = 0) as ->.
    { clear - Hw. induction Hw as [|w ws -> _ IH]; [done|]. unfold wsum in *. cbn [foldr taken]. lia. }
    unfold sent. rewrite Hi, Ho, Ha, Hb. cbn. change (occ x (ids [])) with 0. lia. }
  assert (Hperm : cs ≡ₚ seqZ 0 n).
  { apply NoDup_Permutation; [|apply NoDup_seqZ|].
    - apply occ_nodup. intros x. rewrite Hocc. destruct (range_cases x n) as [[-> _]|[-> _]]; lia.
    - intros x. rewrite <- occ_elem, Hocc, elem_of_seqZ. destruct (range_cases x n) as [[-> ?]|[-> ?]]; lia. }
  split.
  - rewrite (ei_count _ _ HI), Hperm, length_seqZ. lia.
  - intros x Hx. assert (Hm : marked x s cs) by (right; rewrite Hocc; destruct (range_cases x n) as [[-> ?]|[-> ?]]; lia).
    split; [by apply (ei_done _ _ HI)|]. apply (ei_rtt _ _ HI). by right.
Qed.

Lemma start_inv threads details clock : exchange_inv (pp_start threads details clock) [].
Proof.
  assert (Ht : forall x, wsum (taken x) (replicate threads w_fetch) = 0).
  { intros x. induction threads as [|k IH]; [done|]. unfold wsum in *. cbn [replicate foldr taken]. lia. }
  assert (He : wsum ending (replicate threads w_fetch) = 0).
  { induction threads as [|k IH]; [done|]. unfold wsum in *. cbn [replicate foldr ending]. apply IH. intros x. specialize (Ht x). cbn [replicate foldr taken] in Ht. lia. }
  split; cbn; try done.
  - intros x. rewrite Ht. unfold sent. cbn. rewrite Z.min_l by lia. change (occ x (ids [])) with 0. change (occ x []) with 0.
    destruct (range_cases x 0) as [[? ?]|[-> _]]; lia.
  - rewrite He. lia.
  - apply Forall_replicate. done.
  - split; [apply length_replicate|]. intros x [E|E]; [done|]. change (occ x []) with 0 in E. lia.
  - split; [apply length_replicate|]. intros x [E|[E|E]]; [done..|]. change (occ x []) with 0 in E. lia.
Qed.
End Exchange.

(** ** Every exchange *)

Lemma reachable_inv n body_len cap s s' cs k :
  0 <= n -> n + Z.of_nat (length (workers s)) < 2 ^ 32 -> exchange_inv n body_len s cs -> nsteps (pp_step n body_len cap) k s s' ->
  (exists cs', exchange_inv n body_len s' cs') /\ length (workers s') = length (workers s) /\ distance n s' + Z.of_nat k <= distance n s.
Proof.
  intros Hn Hb HI Hst. revert cs HI Hb. induction Hst as [s|k s s1 s' H1 _ IH]; intros cs HI Hb.
  - split; [by exists cs|]. split; [done|lia].
  - destruct (inv_step _ _ _ Hn _ _ _ H1 HI Hb) as [cs1 HI1]. assert (Hl := step_length _ _ _ _ _ H1).
    assert (Hd := step_closer _ _ _ _ _ _ H1 HI Hb).
    destruct (IH cs1 HI1 ltac:(lia)) as (He & Hl' & Hd'). split; [done|]. split; [lia|]. lia.
Qed.

Lemma start_distance n threads details clock : 0 <= n -> distance n (pp_start n threads details clock) = 20 * n + Z.of_nat threads.
Proof.
  intros Hn. unfold distance. cbn [g_next_id pings b_pos pongs a_pos workers pp_start length].
  assert (wsum weight (replicate threads w_fetch) = Z.of_nat threads) as ->; [|lia].
  induction threads as [|k IH]; [done|]. unfold wsum in *. cbn [replicate foldr weight]. lia.
Qed.

Lemma execution_steps n body_len cap s k f s' : execution n body_len cap s k f s' -> nsteps (pp_step n body_len cap) k s s'.
Proof. induction 1 as [|k f s1 s2 _ IH Hst|k f s1 _ IH _]; [constructor|by eapply nsteps_r|done]. Qed.

Lemma over_not_in_vain s : exchange_over s -> ~ in_vain s.
Proof.
  intros [Hw _ _ _ Hb] [i id t0 Hi|i id Hi _|m Hm]; [..|congruence]; by apply (Forall_lookup_1 _ _ _ _ Hw) in Hi.
Qed.

(** C27: an exchange of the ping-pong program makes progress to its end, and ends with every message answered.  The threads of A and the
    dispatchers of the two nodes interleave in any way, and any send may fail any number of times.  While the [n] numbers fit 32 bits with one more for each
    thread ([pingpong_many_messages] shows what happens otherwise): an execution has at most [20 n] steps and one for each thread, not
    counting the sends that fail and the looks at a mark that is not set yet, which are repeated; as long as one of these is repeated, and until everything is over,
    some step is possible, also when the rings are full (no deadlock); and when no step is possible, all threads have left their loops, nothing is
    in flight, and the count of answers that [main] waits for is exactly [n]: no answer is lost or counted twice.  Every number is then marked as answered,
    with a round-trip time that is not negative.  (The rings are bounded queues here; that the rings of the library are is the subject of MPSCSeq.v and MPSCConc.v.) *)
Theorem pingpong_completes n body_len cap threads details clock k f s :
  0 <= n -> (0 < threads)%nat -> (0 < cap)%nat -> n + Z.of_nat threads < 2 ^ 32 ->
  execution n body_len cap (pp_start n threads details clock) k f s ->
  Z.of_nat k <= 20 * n + Z.of_nat threads /\
  (in_vain s -> exists s', pp_step n body_len cap s s') /\
  ((exists s', pp_step n body_len cap s s') \/
   exchange_over s /\ g_pong_count s = n /\
   forall x, 0 <= x < n -> getZ 0 (g_done (tab s)) x = 1 /\ 0 <= getZ 0 (g_rtt_ns (tab s)) x).
Proof.
  intros Hn Ht Hc Hb Hst%execution_steps. assert (HI := start_inv n body_len Hn threads details clock).
  assert (Hl : length (workers (pp_start n threads details clock)) = threads) by apply length_replicate.
  destruct (reachable_inv _ _ _ _ _ _ _ Hn ltac:(rewrite Hl; lia) HI Hst) as ((cs & HI') & Hl' & Hd).
  rewrite start_distance in Hd by done. assert (H0 := distance_nonneg n s). split; [lia|].
  destruct (exchange_progress n body_len cap s cs Hc HI') as [Hs'|Ho]; [by auto|].
  split; [intros Hv; by destruct (over_not_in_vain s Ho)|]. right.
  split; [done|]. apply (over_counts n body_len Hn s cs HI' Ho). intros E. rewrite E in Hl'. cbn in *. lia.
Qed.

(** An exchange of one message by one thread. *)
Definition one_exchange : list pp := Eval vm_compute in
  let s0 := pp_start 1 1 1 10 in
  let s1 := set_worker 0 (w_clear 0) (set_next 1 s0) in
  let s2 := set_worker 0 (w_stamp 0) (set_tab (set_done 0 0 (tab s1)) s1) in
  let s3 := set_worker 0 (w_send 0 20) (set_clock 20 s2) in
  let s4 := set_worker 0 (w_sent 0 20) (set_pings [ping_of 48 0 20] s3) in
  let s5 := set_worker 0 (w_wait 0) (set_clock 25 (set_tab (set_cost 0 5 (tab s4)) s4)) in
  let m := Msg 0 20 700 710 0 in
  let s6 := set_b (b_reply m) [] (set_pings [] s5) in
  let s7 := set_b (b_count m) [pong_of 48 m] s6 in
  let s8 := set_b b_idle (pongs s7) (set_totals 1 1 10 s7) in
  let s9 := set_a (a_store 0) 0 [] (set_clock 41 (set_tab (store_times m 40 41 (tab s8)) s8)) in
  let s10 := set_a (a_count 0) 0 [] (set_tab (set_done 0 1 (tab s9)) s9) in
  let s11 := set_a a_idle 1 [] s10 in
  let s12 := set_worker 0 w_fetch s11 in
  [s0; s1; s2; s3; s4; s5; s6; s7; s8; s9; s10; s11; s12; set_worker 0 w_end (set_next 2 s12)].
Definition st (k : nat) : pp := nth k one_exchange (pp_start 1 1 1 10).
Definition one_end : pp := st 13.

(** Its first send fails once, and the thread looks at the mark twice before the answer is there. *)
Lemma one_exchange_run : execution 1 48 4 (pp_start 1 1 1 10) 13 3 one_end.
Proof.
  change (pp_start 1 1 1 10) with (st 0). assert (H := ex_start 1 48 4 (st 0)).
  apply ex_step with (s2 := st 1) in H; [|exact (step_fetch 1 48 4 0 (st 0) eq_refl)].
  apply ex_step with (s2 := st 2) in H; [|exact (step_clear 1 48 4 0 (st 1) 0 eq_refl)].
  apply ex_step with (s2 := st 3) in H; [|by apply (step_stamp 1 48 4 0 (st 2) 0 20)].
  apply ex_vain in H; [|by apply (vain_send _ 0 0 20)].
  apply ex_step with (s2 := st 4) in H; [|apply (step_send 1 48 4 0 (st 3) 0 20); [done|cbn; lia]].
  apply ex_step with (s2 := st 5) in H; [|by apply (step_sent 1 48 4 0 (st 4) 0 20 25)].
  apply ex_vain in H; [|by apply (vain_wait _ 0 0)].
  apply ex_vain in H; [|by apply (vain_wait _ 0 0)].
  apply ex_step with (s2 := st 6) in H; [|by apply (step_ping 1 48 4 (st 5) (ping_of 48 0 20) [] 700 710)].
  apply ex_step with (s2 := st 7) in H; [|apply (step_reply 1 48 4 (st 6) (Msg 0 20 700 710 0)); [done|cbn; lia]].
  apply ex_step with (s2 := st 8) in H; [|by apply (step_total 1 48 4 (st 7) (Msg 0 20 700 710 0))].
  apply ex_step with (s2 := st 9) in H; [|by apply (step_pong 1 48 4 (st 8) (pong_of 48 (Msg 0 20 700 710 0)) [] 40 41)].
  apply ex_step with (s2 := st 10) in H; [|by apply (step_store 1 48 4 (st 9) 0)].
  apply ex_step with (s2 := st 11) in H; [|by apply (step_count 1 48 4 (st 10) 0)].
  apply ex_step with (s2 := st 12) in H; [|by apply (step_wait 1 48 4 0 (st 11) 0)].
  apply ex_step with (s2 := st 13) in H; [|exact (step_fetch 1 48 4 0 (st 12) eq_refl)]. exact H.
Qed.

Lemma pingpong_completes_witness : 13 <= 20 * 1 + 1 /\ g_pong_count one_end = 1 /\ 0 <= getZ 0 (g_rtt_ns (tab one_end)) 0.
Proof.
  destruct (pingpong_completes 1 48 4 1 1 10 13 3 one_end ltac:(lia) ltac:(lia) ltac:(lia) ltac:(lia) one_exchange_run) as (Hk & _ & [[s' Hst]|Hend]).
  - exfalso. inversion Hst; try discriminate.
    all: match goal with H : workers _ !! ?i = Some _ |- _ => destruct i as [|[|i]]; discriminate end.
  - split; [exact Hk|]. destruct Hend as (_ & Hc & Hr). split; [exact Hc|]. apply (Hr 0). lia.
Defined.

(** With 2^32 messages or more the number a thread takes, of 32 bits, is never beyond the last, so no thread ever leaves its loop. *)
Lemma pingpong_many_messages n body_len cap threads details clock s :
  2 ^ 32 <= n -> rtc (pp_step n body_len cap) (pp_start n threads details clock) s -> w_end ∉ workers s.
Proof.
  intros Hn Hst. assert (H : (w_end ∉ workers s) /\ 0 <= g_next_id s < 2 ^ 32); [|by destruct H].
  pattern s. eapply (rtc_ind_r _ (pp_start n threads details clock)); [| |exact Hst]; clear s Hst.
  - split; [|cbn; lia]. cbn. intros Hin%elem_of_replicate. by destruct Hin.
  - intros s s' _ Hst [Hw Hx].
    assert (Hins : forall i w, w <> w_end -> w_end ∉ <[i := w]> (workers s)).
    { intros i w Hne Hin. apply list_elem_of_lookup in Hin as [j Hj]. apply list_lookup_insert_Some in Hj as [(_ & E & _)|[_ Hj]]; [congruence|].
      apply Hw. by eapply list_elem_of_lookup_2. }
    destruct Hst; cbn; try (split; [by apply Hins|exact Hx]); try (split; [exact Hw|exact Hx]).
    + rewrite (proj2 (Z.leb_gt _ _)) by lia. split; [by apply Hins|apply u32_bound].
    + unfold on_pong_msg. by destruct (_ && _).
Qed.

(** * The statistics *)

Section Stats.
(** [(size_t)((size - 1) * p)]: the arithmetic in double precision is a parameter; its value is at most [size - 1], as the fraction is below 1. *)
Context (percent_of : Z -> nat -> nat).
Hypothesis percent_below : forall p k, (percent_of p k <= k)%nat.

Record rtt_stats : Type := RttStats { st_min : Z; st_p50 : Z; st_p99 : Z; st_max : Z }.
(** [None]: not enough samples.  The average, computed in double precision, is not modelled. *)
Definition print_stats (total ok warmup_drop : Z) (rtts_ns : list Z) : option rtt_stats :=
  if ok <? warmup_drop + 1 then None else
  let rtts := merge_sort Z.le (drop (Z.to_nat warmup_drop) (take (Z.to_nat total) rtts_ns)) in
  let percentile p := nth (percent_of p (length rtts - 1)) rtts 0 in
  Some (RttStats (hd 0 rtts) (percentile 50) (percentile 99) (List.last rtts 0)).
(** How many details are printed, and how many there are. *)
Definition detail_rows (print_detail_num total : Z) : Z := Z.min print_detail_num (i32 total).

Lemma sorted_bounds (l : list Z) x : StronglySorted Z.le l -> x ∈ l -> hd 0 l <= x <= List.last l 0.
Proof.
  intros Hs. revert x. induction Hs as [|y l Hs IH Hy]; intros x Hx; [by apply elem_of_nil in Hx|]. rewrite Forall_forall in Hy.
  destruct l as [|z l]; [apply elem_of_cons in Hx as [->|Hx]; [cbn; lia|by apply elem_of_nil in Hx]|].
  change (List.last (y :: z :: l) 0) with (List.last (z :: l) 0). cbn [hd]. assert (Hz := Hy z ltac:(left)).
  assert (Hzl := IH z ltac:(left)). cbn [hd] in *. apply elem_of_cons in Hx as [->|Hx]; [lia|]. specialize (Hy x Hx). specialize (IH x Hx). lia.
Qed.

(** The statistics after a complete exchange: with more messages than samples to drop there is at least one sample, every index is in range, and the
    percentiles lie between the minimum and the maximum, which bound every sample; the printed details exist. *)
Lemma stats_in_range total warm details rtts_ns :
  0 <= warm -> length rtts_ns = Z.to_nat total -> 0 <= total -> 0 <= details ->
  detail_rows details total <= Z.min total details /\
  match print_stats total total warm rtts_ns with
  | None => total <= warm
  | Some r => warm < total /\ st_min r <= st_p50 r <= st_max r /\ st_min r <= st_p99 r <= st_max r /\
      forall i, warm <= i < total -> st_min r <= getZ 0 rtts_ns i <= st_max r
  end.
Proof.
  intros Hw Hl Ht Hd. split.
  { unfold detail_rows, i32. assert (H := Z.mod_le (total + 2 ^ 31) (2 ^ 32) ltac:(lia) ltac:(lia)). lia. }
  unfold print_stats. destruct (Z.ltb_spec total (warm + 1)) as [|Hlt]; [lia|]. cbn [st_min st_p50 st_p99 st_max].
  rewrite take_ge by lia. set (raw := drop (Z.to_nat warm) rtts_ns). set (l := merge_sort Z.le raw).
  assert (Hs : StronglySorted Z.le l) by (apply StronglySorted_merge_sort; tc_solve).
  assert (Hp : l ≡ₚ raw) by apply merge_sort_Permutation.
  assert (Hlen : length l = (Z.to_nat total - Z.to_nat warm)%nat) by (rewrite Hp; unfold raw; rewrite length_drop; lia).
  assert (Hin : forall p, nth (percent_of p (length l - 1)) l 0 ∈ l).
  { intros p. apply list_elem_of_In, nth_In. specialize (percent_below p (length l - 1)). lia. }
  split; [lia|]. split; [by apply sorted_bounds|]. split; [by apply sorted_bounds|].
  intros i Hi. apply sorted_bounds; [done|]. rewrite Hp. unfold raw, getZ.
  destruct (lookup_lt_is_Some_2 rtts_ns (Z.to_nat i)) as [v Hv]; [lia|]. rewrite Hv. cbn.
  apply (list_elem_of_lookup_2 _ (Z.to_nat i - Z.to_nat warm)%nat). rewrite lookup_drop. replace (Z.to_nat warm + _)%nat with (Z.to_nat i) by lia. done.
Qed.
End Stats.

(** The witness for the sizes of the rings: the options of the default configuration of node B. *)
Definition demo_options : options := Options ROLE_B true (-1) 4096 10000 1 20 1 0 0 false (txt "shm_node0_export") (txt "shm_node1_export").
Definition demo_settled : options := Options ROLE_B true 4 4096 10000 1 20 1 0 0 false (txt "shm_node0_export") (txt "shm_node1_export").
Definition demo_world : tworld := lset l_cfg (with_conf (comm_conf demo_settled) (t_cfg (obj (demo_sized [5; 2] 5)))) (demo_sized [5; 2] 5).

Lemma pingpong_rings_fit_witness :
  settle demo_options = inl demo_settled /\ config_valid (init_area 4096) (ring_map demo_settled 4096 8192) (comm_conf demo_settled) = true /\
  ring_size demo_settled = 8388608.
Proof.
  assert (Hs : settle demo_options = inl demo_settled) by reflexivity. split; [exact Hs|]. split; [|reflexivity].
  destruct (pingpong_rings_fit demo_options demo_settled 4096 8192 [] demo_world Hs ltac:(lia) ltac:(lia) ltac:(vm_compute; reflexivity)) as [Hv _]. exact Hv.
Defined.
